(* ===== verification/_CoqProject ===== *)
-Q . S2P
Prelude.v
Utf8.v
Text.v
Value.v
Message.v
Error.v
PackStream.v
Wire.v
Codec.v
Handshake.v
Framing.v
Routing.v
Transport.v
Connection.v
Receive.v
Exchange.v
Safety.v
Session.v
Guarantees.v
SessionSpec.v
TransactionSpec.v
StreamReads.v
StreamSpec.v
SessionSafety.v
View.v
Tls.v
Uri.v
Pool.v
PoolConcurrency.v
PoolProgress.v
Routed.v
RoutedSpec.v
RoutedConcurrency.v
RoutedProgress.v
Convert.v
UnitTests.v
