(* ===== verification/Prelude.v ===== *)
(** * boltwire: a verification development

    boltwire is an asynchronous driver for databases that speak the Bolt
    protocol (Neo4j, Memgraph). A client dials a server, agrees on a protocol
    version, authenticates, and then exchanges messages: a request is a
    PackStream structure sent in chunks, a reply is records and one summary. A
    future may be dropped at any [.await]; the connection remembers in what
    state that leaves it ([needs_reset], [pending], [broken]) and recovers with
    RESET before its next exchange. On top of connections stand transactions,
    record streams, the pool and the routed pool.

    ** The files and the code they model

    Codec layer.
    - [Value] ([value.rs]), [Error] ([error.rs]), [Message] ([message.rs]):
      values, errors, request builders, responses.
    - [PackStream] ([packstream.rs]): [pack] as a computation on the output
      buffer, [Reader] as a computation on the cursor. [Wire] is the
      specification, a grammar [encodes v bs], and proves the reader equivalent
      to it and the writer inside it; [Codec] states what follows.
    - [Utf8] and [Text] are what the crate uses of Rust's [str] and [String].
    - [Handshake] ([handshake.rs]), [Routing] ([routing.rs]).

    Connection layer, all of [connection.rs].
    - [Framing]: [encode], and the loops of [take_message] on bytes.
    - [Transport]: tokio's stream, as scripts of what its reads and writes come
      to and a log of what the peer was sent.
    - [Connection]: [BoltConnection]'s fields and methods. [Receive] relates
      the bytes still to come, however they are cut, to the messages read;
      [Exchange] relates requests to the replies of a peer that answers;
      [Safety] says what holds of any script. [Guarantees] states the results.
    - [Session]: [Transaction] and [RecordStream], which hold the connection
      they borrow, and their [Drop]. [SessionSpec] states what each method of
      a transaction does, [TransactionSpec] what whole transactions do;
      [StreamReads] is the invariant of a stream being read, [StreamSpec] how
      streams end; [SessionSafety] holds under any script.

    Around it.
    - [View] ([view.rs]): typed readings of graph and temporal structures.
    - [Tls] ([tls.rs], [tls/rustls.rs]): which certificates are trusted.
    - [Uri] ([uri.rs]): URIs, addresses, and what a scheme dials.
    - [Pool] ([pool.rs]): a checkout as one task runs it, and
      [CheckoutContract], what it promises the routed pool; [PoolConcurrency]:
      the steps of many tasks in any order; [PoolProgress]: that they get done.
    - [Routed] ([routed.rs]): the routing table, the servers' pools and managed
      transactions. The pool of a server is shared by the map and by what was
      checked out of it, so pools live in an arena. [RoutedSpec] states the
      results, against [CheckoutContract]. [RoutedConcurrency]: many tasks on
      one routed pool; a task that is in a server's pool moves there by
      [PoolConcurrency.task_step]; [RoutedProgress]: that they get done.
    - [Convert] ([convert.rs]): serializing into values, and which method of a
      visitor deserializing calls.
    - [UnitTests] runs the crate's own tests on the definitions.

    An [async fn] on [&mut self] is a computation [M S E A] over the struct:
    it gives an [Outcome] and the struct's next value, on every outcome. [Err]
    is Rust's, [Panic] a failed [unwrap], slice or index, [Suspended] a future
    that waits, and may be dropped there. Names are the source's.

    ** What the theorems show

    - Codec: the reader accepts exactly the grammar, returns values of the Rust
      types, and neither panics nor runs on, on any bytes; packed values read
      back under any order of map iteration; encodings split uniquely.
    - Framing: an encoded request is taken back whole; [take_message] finds a
      message exactly when the buffer holds one, within the size limit.
    - Reading: however a reply is cut into reads, between NOOPs, cancellations
      and timeouts, it is read once and whole, and nothing after it is lost.
    - Exchanges: a query, a RESET, a whole transaction, a record stream return
      their own replies and leave the state said; a stream read on after
      cancelled calls loses no record; what was cancelled, dropped midway or
      finished early is recovered by the next query, which gets its own
      replies. This is the refinement of
      the protocol's contract, stated with [expects], [in_sync], [poised] and
      [abandoned] (in [Receive] and [Exchange]).
    - Safety, under any script: nothing panics or loops; a connection is
      reported ready only after a success, or after a RESET that the server
      accepted; a broken one is left alone; a failed statement closes its
      transaction.
    - Pool: a checkout hands out the idle connection that has just answered
      RESET, or the factory's first success, and which ones it passes over
      ([checkout_outcome]). Connections are bounded by the size in every
      interleaving, idle ones owe nothing, retries are bounded, permits come
      back. Tasks take
      boundedly many steps of their own, and a schedule in which users give
      back what they hold ends with every task finished ([tasks_complete]).
    - Routed pool: a table is the first router's that answers. Checkouts come
      from the servers a current table lists, in rotation from a cursor that
      moves on with each lap, and from the first that serves; those before it
      failed and are evicted. A managed transaction's value was committed;
      attempts and bookmarks are bounded. Among many tasks each
      server's pool does only what a lone pool can do ([server_pools_refine]),
      so its bounds hold across the cluster; a closed cluster stays closed; and
      every schedule in which users give back what they hold ends with every
      task finished and every server's permits free ([cluster_tasks_complete]).
    - Trust: which certificates are accepted, that a root store holds exactly
      the anchors the settings name ([RootStoreLaws] is what is relied on of
      rustls's stores), and that every handshake is signed.
    - URIs, routing tables: each function against what it reads. Views: each
      succeeds exactly on the structures of its kind, longer ones included;
      a coordinate sent as an integer is read as the nearest double.
    - serde: serializing gives the value that the calls denote, exactly when
      they denote one ([denotes] in [Convert]), and it is well-formed; values
      and enum variants survive the way there and back.

    Some theorems state what the code does where it differs from what its
    documentation says: [pack_bytes_truncates], [unpack_nesting],
    [stream_failure_leaves_tx_open], [rollback_takes_owed_reply],
    [reset_refused_stays_ready], [close_race], [close_misses_late_pool].

    ** Fuel

    Loops run through [loop_by m], with the measure [m] of the state, plus one,
    as fuel: the bytes and read events left for a connection's loops
    ([input_size], [input_left] of a stream), the results left for [mint],
    the idle connections for a checkout, the attempts for [execute].
    [OutOfFuel] is a distinct outcome, proved unreachable for every operation
    ([operations_never_panic], [checkout_outcome], [execute_outcome],
    [acquire_serves], [refresh_first_answer]). The reader's recursion
    has the remaining bytes plus one as fuel, as each level reads a byte; the
    framing loops the length of the buffer. [loop_fuel] says that more fuel
    changes nothing. The callers' loops of the stream theorems ([read_all],
    [read_some]) have their number of calls as fuel; one call for each record,
    one for each read event of the script and one more are enough for [read_all].

    ** Choices

    A [String] or [Cow<str>] is its bytes, valid UTF-8 by [valid_string]; an
    [f64] its bits; an [i64] a [Z] in range; a [HashMap] a [gmap], iterated in
    an arbitrary order ([HashIter], which every theorem that packs a map
    quantifies over). The text of a [Protocol] error is replaced by which
    message it is and what it formats ([Error]). [pending] is unbounded (a
    [usize] that only counts messages sent). Capacities, [TCP_NODELAY], the
    [tracing] macros and the delegation of polls do not change results and are
    left out. In the one-task models of the pools the clock advances only
    while they sleep; [get]'s deadline can end such a sleep, or a checkout that
    waits for anything else. Among many tasks the clock advances at will. The
    round-robin cursor wraps, as in a release build. Rust's casts to [f64] are
    written out on the bits ([f64_of_i64], [f64_of_f32]).

    ** What is not modelled

    - The fairness of tokio's semaphore and mutexes: which of the tasks that
      can step does so is arbitrary. [PoolProgress] and [RoutedProgress] show
      that no schedule runs on or is stuck, not in which order waiting tasks are served.
    - Third-party code: tokio, rustls, the backoff, serde and the [Serialize]
      and [Deserialize] of the caller's types. They are arguments, or the calls
      they make.
    - [lib.rs] (re-exports and macros), and tests that need a clock, threads, a
      database or certificates. *)

From Stdlib Require Export Lia.
From Stdlib Require Export Strings.Byte.
From stdpp Require Export base gmap sets list strings pretty numbers.
Export list_basics.list list_relations.list list_misc.list list_monad.list.

Declare Scope bolt_scope.
Delimit Scope bolt_scope with bolt.
Global Open Scope bolt_scope.
Global Open Scope string_scope.
Global Open Scope list_scope.
Global Open Scope Z_scope.

(** ** Outcomes and the state/error monad *)

(** What running a Rust function can come to. [Ok] and [Err] are the two sides
    of [Result]; [Panic] is a failed [unwrap]/[expect], an index out of range
    or an arithmetic underflow; [Suspended] is a future that has not completed
    (it waits at an [.await], and may be dropped there); [OutOfFuel] is an
    artefact of the loops below, and is proved unreachable. *)
Inductive Outcome (E A : Type) : Type :=
| Ok (a : A)
| Err (e : E)
| Panic
| Suspended
| OutOfFuel.
Arguments Ok {E A} a.
Arguments Err {E A} e.
Arguments Panic {E A}.
Arguments Suspended {E A}.
Arguments OutOfFuel {E A}.

(** A computation over a mutable state [S]. The state survives every outcome:
    an error or a suspension leaves the effects made so far in place. *)
Definition M (S E A : Type) : Type := S → Outcome E A * S.

Definition ret {S E A} (a : A) : M S E A := λ s, (Ok a, s).

Definition throw {S E A} (e : E) : M S E A := λ s, (Err e, s).

Definition panic {S E A} : M S E A := λ s, (Panic, s).

Definition suspend {S E A} : M S E A := λ s, (Suspended, s).

Definition out_of_fuel {S E A} : M S E A := λ s, (OutOfFuel, s).

(** Sequencing, and [?]: an error, a panic or a suspension ends the rest. *)
Definition bind {S E A B} (m : M S E A) (f : A → M S E B) : M S E B := λ s,
  match m s with
  | (Ok a, s') => f a s'
  | (Err e, s') => (Err e, s')
  | (Panic, s') => (Panic, s')
  | (Suspended, s') => (Suspended, s')
  | (OutOfFuel, s') => (OutOfFuel, s')
  end.

Definition gets {S E A} (f : S → A) : M S E A := λ s, (Ok (f s), s).

Definition modify {S E} (f : S → S) : M S E unit := λ s, (Ok tt, f s).

(** [let result = fut.await;] without [?]: an error becomes a value, while a
    panic or a suspension still ends the computation. *)
Definition attempt {S E A} (m : M S E A) : M S E (E + A) := λ s,
  match m s with
  | (Ok a, s') => (Ok (inr a), s')
  | (Err e, s') => (Ok (inl e), s')
  | (Panic, s') => (Panic, s')
  | (Suspended, s') => (Suspended, s')
  | (OutOfFuel, s') => (OutOfFuel, s')
  end.

(** Run a computation on a part of a larger state (a field borrowed mutably). *)
Definition zoom {S T E A} (get : T → S) (set : S → T → T) (m : M S E A) : M T E A := λ t,
  let '(o, s') := m (get t) in (o, set s' t).

(** [Err(e)?] on a value already at hand. *)
Definition from_sum {S E A} (r : E + A) : M S E A :=
  match r with inl e => throw e | inr a => ret a end.

Notation "'let!' x ':=' m 'in' k" := (bind m (λ x, k))
  (at level 10, x name, m at level 100, k at level 200) : bolt_scope.
Notation "'let!' ' p ':=' m 'in' k" := (bind m (λ p, k))
  (at level 10, p pattern, m at level 100, k at level 200) : bolt_scope.
Notation "'do!' m 'in' k" := (bind m (λ _, k))
  (at level 10, m at level 100, k at level 200) : bolt_scope.

(** [for x in l { f(x)?; }] *)
Fixpoint for_each {S E A} (f : A → M S E unit) (l : list A) : M S E unit :=
  match l with
  | [] => ret tt
  | x :: l' => do! f x in for_each f l'
  end.

(** *** Laws of the monad *)

Lemma bind_ok {S E A B} (m : M S E A) (f : A → M S E B) s a s' :
  m s = (Ok a, s') → bind m f s = f a s'.
Proof. intros H. unfold bind. by rewrite H. Qed.

Lemma bind_err {S E A B} (m : M S E A) (f : A → M S E B) s e s' :
  m s = (Err e, s') → bind m f s = (Err e, s').
Proof. intros H. unfold bind. by rewrite H. Qed.

Lemma bind_suspended {S E A B} (m : M S E A) (f : A → M S E B) s s' :
  m s = (Suspended, s') → bind m f s = (Suspended, s').
Proof. intros H. unfold bind. by rewrite H. Qed.

Lemma bind_ret {S E A B} (a : A) (f : A → M S E B) s : bind (ret a) f s = f a s.
Proof. done. Qed.

Lemma bind_gets {S E A B} (g : S → A) (f : A → M S E B) s : bind (gets g) f s = f (g s) s.
Proof. done. Qed.

Lemma bind_modify {S E B} (g : S → S) (f : unit → M S E B) s : bind (modify g) f s = f tt (g s).
Proof. done. Qed.

Lemma bind_ok_inv {S E A B} (m : M S E A) (f : A → M S E B) s b s'' :
  bind m f s = (Ok b, s'') → ∃ a s', m s = (Ok a, s') ∧ f a s' = (Ok b, s'').
Proof. unfold bind. destruct (m s) as [[a|e| | |] s']; intros H; try done. eauto. Qed.

Lemma bind_assoc {S E A B C} (m : M S E A) (f : A → M S E B) (g : B → M S E C) s :
  bind (bind m f) g s = bind m (λ a, bind (f a) g) s.
Proof. unfold bind. by destruct (m s) as [[] ?]. Qed.

Lemma for_each_app {S E A} (f : A → M S E unit) l1 l2 s :
  for_each f (l1 ++ l2) s = bind (for_each f l1) (λ _, for_each f l2) s.
Proof.
  revert s. induction l1 as [|x l1 IH]; intros s; [done|].
  change (bind (f x) (λ _, for_each f (l1 ++ l2)) s
    = bind (bind (f x) (λ _, for_each f l1)) (λ _, for_each f l2) s).
  rewrite bind_assoc. unfold bind at 1 2. destruct (f x s) as [[] ?]; by rewrite ?IH.
Qed.

Lemma for_each_fmap {S E A B} (g : A → B) (f : B → M S E unit) l s :
  for_each f (g <$> l) s = for_each (λ a, f (g a)) l s.
Proof.
  revert s. induction l as [|x l IH]; intros s; [done|].
  cbn [fmap list_fmap for_each]. unfold bind. destruct (f (g x) s) as [[] ?]; by rewrite ?IH.
Qed.

(** *** What a computation does to its state, whatever its outcome *)

(** [respects R m]: running [m] relates the state before to the state after
    by [R], on every outcome. With [R s s' := I s → I s'] it says that [m]
    preserves the invariant [I]. *)
Definition respects {S E A} (R : relation S) (m : M S E A) : Prop := ∀ s, R s (m s).2.

Section respects.
Context {S E : Type} (R : relation S) `{!PreOrder R}.

Lemma respects_ret {A} (a : A) : respects R (ret (E:=E) a).
Proof. intros s. cbn. reflexivity. Qed.

Lemma respects_throw {A} (e : E) : respects R (throw (A:=A) e).
Proof. intros s. cbn. reflexivity. Qed.

Lemma respects_panic {A} : respects R (panic (E:=E) (A:=A)).
Proof. intros s. cbn. reflexivity. Qed.

Lemma respects_out_of_fuel {A} : respects R (out_of_fuel (E:=E) (A:=A)).
Proof. intros s. cbn. reflexivity. Qed.

Lemma respects_suspend {A} : respects R (suspend (E:=E) (A:=A)).
Proof. intros s. cbn. reflexivity. Qed.

Lemma respects_gets {A} (f : S → A) : respects R (gets (E:=E) f).
Proof. intros s. cbn. reflexivity. Qed.

Lemma respects_from_sum {A} (r : E + A) : respects R (from_sum r).
Proof. destruct r; [apply respects_throw | apply respects_ret]. Qed.

Lemma respects_bind {A B} (m : M S E A) (f : A → M S E B) :
  respects R m → (∀ a, respects R (f a)) → respects R (bind m f).
Proof.
  intros Hm Hf s. unfold bind. specialize (Hm s).
  destruct (m s) as [[a|e| | |] s']; cbn in *; try done.
  etrans; [done | apply Hf].
Qed.

Lemma respects_attempt {A} (m : M S E A) : respects R m → respects R (attempt m).
Proof. intros Hm s. unfold attempt. specialize (Hm s). by destruct (m s) as [[] ?]. Qed.

Lemma respects_for_each {A} (f : A → M S E unit) l :
  (∀ a, respects R (f a)) → respects R (for_each f l).
Proof.
  intros Hf. induction l as [|x l IH]; [apply respects_ret|].
  apply respects_bind; [apply Hf | done].
Qed.

End respects.

Create HintDb bolt.
#[export] Hint Resolve respects_ret respects_throw respects_panic respects_suspend
  respects_out_of_fuel respects_gets respects_from_sum respects_bind respects_attempt
  respects_for_each : bolt.

(** ** Bytes and fixed-width integers *)

Abbreviation byte := Byte.byte.
Abbreviation bytes := (list Byte.byte).

#[export] Instance byte_eq_dec : EqDecision byte := Byte.byte_eq_dec.

(** A [u8] as a number. *)
Definition bz (b : byte) : Z := Z.of_N (Byte.to_N b).

(** [z as u8]: the low eight bits. *)
Definition zb (z : Z) : byte :=
  match Byte.of_N (Z.to_N (z mod 256)) with Some b => b | None => x00 end.

(** [to_be_bytes] of a [8*n]-bit integer, signed or not (two's complement). *)
Fixpoint be_bytes (n : nat) (z : Z) : bytes :=
  match n with
  | O => []
  | S n' => zb (z / 256 ^ Z.of_nat n') :: be_bytes n' z
  end.

(** [uN::from_be_bytes]. *)
Definition from_be (bs : bytes) : Z := foldl (λ acc b, acc * 256 + bz b) 0 bs.

(** Reading a [w]-bit pattern as a signed integer ([x as iN]). *)
Definition to_signed (w : Z) (z : Z) : Z := if z <? 2 ^ (w - 1) then z else z - 2 ^ w.

(** [iN::from_be_bytes]. *)
Definition from_be_signed (bs : bytes) : Z :=
  to_signed (8 * Z.of_nat (length bs)) (from_be bs).

(** The values of a signed, an unsigned [w]-bit integer. *)
Definition in_signed (w : Z) (z : Z) : Prop := - 2 ^ (w - 1) ≤ z < 2 ^ (w - 1).
Definition in_unsigned (w : Z) (z : Z) : Prop := 0 ≤ z < 2 ^ w.

(** A Rust [String]/[&str] is the byte sequence of its UTF-8 encoding. *)
Definition as_bytes (s : string) : bytes := String.list_byte_of_string s.
Definition of_bytes (bs : bytes) : string := String.string_of_list_byte bs.

(** [len()] as a [usize]. *)
Definition len {A} (l : list A) : N := N.of_nat (length l).

Lemma bz_range b : 0 ≤ bz b < 256.
Proof. unfold bz. pose proof (Byte.to_N_bounded b). lia. Qed.

Lemma bz_zb z : bz (zb z) = z mod 256.
Proof.
  unfold bz, zb. pose proof (Z.mod_pos_bound z 256 eq_refl).
  destruct (Byte.of_N _) eqn:Hb.
  - apply Byte.to_of_N in Hb. lia.
  - apply Byte.of_N_None_iff in Hb. lia.
Qed.

Lemma zb_bz b : zb (bz b) = b.
Proof.
  unfold zb, bz. rewrite Z.mod_small by (pose proof (bz_range b); unfold bz in *; lia).
  by rewrite N2Z.id, Byte.of_to_N.
Qed.

Lemma bz_zb_small z : 0 ≤ z < 256 → bz (zb z) = z.
Proof. intros. rewrite bz_zb. by apply Z.mod_small. Qed.

#[export] Instance bz_inj : Inj (=) (=) bz.
Proof. intros a b H. by rewrite <- (zb_bz a), <- (zb_bz b), H. Qed.

Lemma length_be_bytes n z : length (be_bytes n z) = n.
Proof. induction n; cbn; congruence. Qed.

Lemma from_be_snoc bs b : from_be (bs ++ [b]) = from_be bs * 256 + bz b.
Proof. unfold from_be. by rewrite foldl_app. Qed.

Lemma from_be_app bs bs' :
  from_be (bs ++ bs') = from_be bs * 256 ^ Z.of_nat (length bs') + from_be bs'.
Proof.
  induction bs' as [|b bs' IH] using rev_ind; [cbn; rewrite app_nil_r; lia|].
  rewrite app_assoc, !from_be_snoc, IH, length_app. cbn [length].
  rewrite Nat2Z.inj_add, Z.pow_add_r by lia. lia.
Qed.

Lemma from_be_cons b bs :
  from_be (b :: bs) = bz b * 256 ^ Z.of_nat (length bs) + from_be bs.
Proof. change (b :: bs) with ([b] ++ bs). by rewrite from_be_app. Qed.

Lemma from_be_range bs : 0 ≤ from_be bs < 256 ^ Z.of_nat (length bs).
Proof.
  induction bs as [|b bs IH]; [cbn; lia|].
  rewrite from_be_cons. cbn [length]. rewrite Nat2Z.inj_succ, Z.pow_succ_r by lia.
  pose proof (bz_range b). nia.
Qed.

Lemma from_be_be_bytes n z : from_be (be_bytes n z) = z mod 256 ^ Z.of_nat n.
Proof.
  induction n as [|n IH]; [cbn; by rewrite Z.mod_1_r|].
  cbn [be_bytes]. rewrite from_be_cons, length_be_bytes, bz_zb, IH.
  rewrite Nat2Z.inj_succ, Z.pow_succ_r by lia.
  rewrite (Z.mul_comm 256), Z.rem_mul_r by lia. lia.
Qed.

Lemma be_bytes_mod n k z :
  (n ≤ k)%nat → be_bytes n (z mod 256 ^ Z.of_nat k) = be_bytes n z.
Proof.
  intros Hk. induction n as [|n IH]; [done|]. cbn [be_bytes]. f_equal; [|apply IH; lia].
  apply (inj bz). rewrite !bz_zb.
  replace (Z.of_nat k) with (Z.of_nat n + (1 + (Z.of_nat k - Z.of_nat n - 1))) by lia.
  rewrite !Z.pow_add_r, Z.rem_mul_r by lia.
  rewrite Z.mul_comm, Z.div_add, Z.div_small by (try apply Z.mod_pos_bound; lia).
  rewrite Z.add_0_l, Z.rem_mul_r by lia.
  rewrite Z.pow_1_r, Z.mul_comm, Z.mod_add, Z.mod_mod by lia. done.
Qed.

Lemma be_bytes_from_be bs : be_bytes (length bs) (from_be bs) = bs.
Proof.
  induction bs as [|b bs IH]; [done|]. cbn [length be_bytes].
  pose proof (from_be_range bs). pose proof (bz_range b). f_equal.
  - apply (inj bz). rewrite bz_zb, from_be_cons, Z.div_add_l, Z.div_small by lia.
    rewrite Z.add_0_r. by apply Z.mod_small.
  - rewrite <- (be_bytes_mod _ (length bs)) by done.
    rewrite from_be_cons, Z.add_comm, Z.mod_add, Z.mod_small by lia. exact IH.
Qed.

Lemma be_bytes_inj_unsigned n z z' :
  in_unsigned (8 * Z.of_nat n) z → in_unsigned (8 * Z.of_nat n) z' →
  be_bytes n z = be_bytes n z' → z = z'.
Proof.
  unfold in_unsigned. rewrite Z.pow_mul_r by lia. change (2 ^ 8) with 256.
  intros Hz Hz' H%(f_equal from_be).
  rewrite !from_be_be_bytes, !Z.mod_small in H by done. done.
Qed.

Lemma to_signed_range w z : 0 < w → in_unsigned w z → in_signed w (to_signed w z).
Proof.
  unfold in_unsigned, in_signed, to_signed. intros Hw Hz.
  replace (2 ^ w) with (2 * 2 ^ (w - 1)) in *
    by (rewrite <- Z.pow_succ_r by lia; f_equal; lia).
  case_match; lia.
Qed.

Lemma to_signed_mod w z : 0 < w → in_signed w z → to_signed w (z mod 2 ^ w) = z.
Proof.
  unfold in_signed, to_signed. intros Hw Hz.
  replace (2 ^ w) with (2 * 2 ^ (w - 1)) in *
    by (rewrite <- Z.pow_succ_r by lia; f_equal; lia).
  destruct (decide (0 ≤ z)).
  - rewrite Z.mod_small by lia. destruct (Z.ltb_spec z (2 ^ (w - 1))); lia.
  - rewrite <- (Z.mod_add z 1), Z.mod_small by lia. case_match; lia.
Qed.

Lemma from_be_signed_be_bytes n z :
  (0 < n)%nat → in_signed (8 * Z.of_nat n) z → from_be_signed (be_bytes n z) = z.
Proof.
  intros Hn Hz. unfold from_be_signed. rewrite length_be_bytes, from_be_be_bytes.
  change 256 with (2 ^ 8). rewrite <- Z.pow_mul_r by lia. apply to_signed_mod; [lia|done].
Qed.

Lemma be_bytes_from_be_signed bs : be_bytes (length bs) (from_be_signed bs) = bs.
Proof.
  unfold from_be_signed, to_signed. case_match; [apply be_bytes_from_be|].
  rewrite <- (be_bytes_mod _ (length bs)) by done.
  rewrite Z.pow_mul_r by lia. change (2 ^ 8) with 256.
  rewrite <- (Z.mod_add (from_be bs - _) 1), Z.mul_1_l, Z.sub_add by lia.
  rewrite be_bytes_mod by done. apply be_bytes_from_be.
Qed.

Lemma from_be_signed_range bs :
  bs ≠ [] → in_signed (8 * Z.of_nat (length bs)) (from_be_signed bs).
Proof.
  intros Hbs. assert (0 < length bs)%nat by (destruct bs; [done|cbn; lia]).
  apply to_signed_range; [lia|]. unfold in_unsigned.
  rewrite Z.pow_mul_r by lia. apply from_be_range.
Qed.

Lemma of_as_bytes s : of_bytes (as_bytes s) = s.
Proof. apply String.string_of_list_byte_of_string. Qed.

Lemma as_of_bytes bs : as_bytes (of_bytes bs) = bs.
Proof. apply String.list_byte_of_string_of_list_byte. Qed.

#[export] Instance as_bytes_inj : Inj (=) (=) as_bytes.
Proof. intros s s' H. by rewrite <- (of_as_bytes s), <- (of_as_bytes s'), H. Qed.

Lemma len_app {A} (l l' : list A) : len (l ++ l') = (len l + len l')%N.
Proof. unfold len. rewrite length_app. lia. Qed.

Create Rewrite HintDb bolt.
#[export] Hint Rewrite @bz_zb @zb_bz length_be_bytes from_be_be_bytes of_as_bytes as_of_bytes
  @len_app : bolt.

(** ** Loops *)

(** [loop { .. }] carrying [a]: [inl] goes round again, [inr] breaks. *)
Fixpoint loop {S E A B} (fuel : nat) (body : A → M S E (A + B)) (a : A) : M S E B :=
  match fuel with
  | O => out_of_fuel
  | S fuel' =>
      let! r := body a in
      match r with
      | inl a' => loop fuel' body a'
      | inr b => ret b
      end
  end.

(** A loop whose rounds use up [measure]: it gets as many rounds as that
    allows, and one more. *)
Definition loop_by {S E A B} (measure : S → nat) (body : A → M S E (A + B)) (a : A) : M S E B :=
  λ s, loop (Datatypes.S (measure s)) body a s.

(** [m] neither panics nor runs out of fuel. *)
Definition safe {S E A} (m : M S E A) : Prop := ∀ s, (m s).1 ≠ Panic ∧ (m s).1 ≠ OutOfFuel.

(** [m] uses up some of [measure] whenever it returns [Ok]. *)
Definition consumes {S E A} (measure : S → nat) (m : M S E A) : Prop := ∀ s a s',
  m s = (Ok a, s') → (measure s' < measure s)%nat.

Lemma safe_ret {S E A} (a : A) : safe (ret (S:=S) (E:=E) a).
Proof. by split. Qed.

Lemma safe_throw {S E A} (e : E) : safe (throw (S:=S) (A:=A) e).
Proof. by split. Qed.

Lemma safe_suspend {S E A} : safe (suspend (S:=S) (E:=E) (A:=A)).
Proof. by split. Qed.

Lemma safe_gets {S E A} (f : S → A) : safe (gets (E:=E) f).
Proof. by split. Qed.

Lemma safe_modify {S E} (f : S → S) : safe (modify (E:=E) f).
Proof. by split. Qed.

Lemma safe_from_sum {S E A} (r : E + A) : safe (from_sum (S:=S) r).
Proof. destruct r; by split. Qed.

Lemma safe_bind {S E A B} (m : M S E A) (f : A → M S E B) :
  safe m → (∀ a, safe (f a)) → safe (bind m f).
Proof.
  intros Hm Hf s. unfold bind. specialize (Hm s).
  destruct (m s) as [[a|e| | |] s']; cbn in *; try done; [apply Hf | naive_solver..].
Qed.

Lemma safe_attempt {S E A} (m : M S E A) : safe m → safe (attempt m).
Proof.
  intros Hm s. unfold attempt. specialize (Hm s).
  destruct (m s) as [[a|e| | |] s']; cbn in *; try done; naive_solver.
Qed.

Lemma safe_zoom {S T E A} get set (m : M S E A) : safe m → safe (zoom (T:=T) get set m).
Proof. intros Hm s. unfold zoom. specialize (Hm (get s)). by destruct (m (get s)). Qed.

Lemma safe_loop {S E A B} measure (body : A → M S E (A + B)) fuel a s :
  (∀ a, safe (body a)) →
  (∀ a s a' s', body a s = (Ok (inl a'), s') → (measure s' < measure s)%nat) →
  (measure s < fuel)%nat →
  (loop fuel body a s).1 ≠ Panic ∧ (loop fuel body a s).1 ≠ OutOfFuel.
Proof.
  intros Hsafe Hdec. revert a s. induction fuel as [|fuel IH]; intros a s Hf; [lia|].
  cbn [loop]. unfold bind. pose proof (Hsafe a s) as [Hp Ho]. pose proof (Hdec a s) as Hd.
  destruct (body a s) as [[[a'|b]|e| | |] s']; cbn in *; try done.
  apply IH. specialize (Hd _ _ eq_refl). lia.
Qed.

Lemma safe_loop_by {S E A B} measure (body : A → M S E (A + B)) a :
  (∀ a, safe (body a)) →
  (∀ a s a' s', body a s = (Ok (inl a'), s') → (measure s' < measure s)%nat) →
  safe (loop_by measure body a).
Proof. intros Hs Hd s. eapply safe_loop; [done..|lia]. Qed.

Lemma respects_loop {S E A B} (R : relation S) `{!PreOrder R} (body : A → M S E (A + B)) fuel a :
  (∀ a, respects R (body a)) → respects R (loop fuel body a).
Proof.
  intros Hb. revert a. induction fuel as [|fuel IH]; intros a; cbn [loop].
  - apply respects_out_of_fuel, _.
  - apply respects_bind; [done..|]. intros [a'|b]; [apply IH | apply respects_ret, _].
Qed.

Lemma respects_loop_by {S E A B} (R : relation S) `{!PreOrder R} measure
    (body : A → M S E (A + B)) a :
  (∀ a, respects R (body a)) → respects R (loop_by measure body a).
Proof. intros Hb s. exact (respects_loop R body (Datatypes.S (measure s)) a Hb s). Qed.

(** One more round of fuel changes nothing once the loop has ended. *)
Lemma loop_fuel {S E A B} (body : A → M S E (A + B)) fuel fuel' a s r :
  loop fuel body a s = r → r.1 ≠ OutOfFuel → (fuel ≤ fuel')%nat → loop fuel' body a s = r.
Proof.
  revert fuel' a s. induction fuel as [|fuel IH]; intros fuel' a s Hl Hr Hf.
  { subst r. done. }
  destruct fuel' as [|fuel']; [lia|]. cbn [loop] in *. unfold bind in *.
  destruct (body a s) as [[[a'|b]|e| | |] s']; try done. apply IH; [done..|lia].
Qed.

Lemma loop_ok_inv {S E A B} (P : A → S → Prop) (Q : B → S → Prop) (body : A → M S E (A + B))
    fuel a s b s' :
  (∀ a s a' s', P a s → body a s = (Ok (inl a'), s') → P a' s') →
  (∀ a s b s', P a s → body a s = (Ok (inr b), s') → Q b s') →
  P a s → loop fuel body a s = (Ok b, s') → Q b s'.
Proof.
  intros Hc Hb. revert a s. induction fuel as [|fuel IH]; intros a s HP Hl; [done|].
  cbn [loop] in Hl. apply bind_ok_inv in Hl as (r & s1 & Hs & Hl). destruct r as [a'|b'].
  - eapply IH; [|done]. eauto.
  - injection Hl as -> ->. eauto.
Qed.

#[export] Hint Resolve safe_ret safe_throw safe_suspend safe_gets safe_modify safe_from_sum
  safe_bind safe_attempt safe_zoom safe_loop_by : bolt.
Lemma respects_modify {S E} (R : relation S) (f : S → S) :
  (∀ s, R s (f s)) → respects R (modify (E:=E) f).
Proof. intros Hf s. apply Hf. Qed.

(** Goals [respects R m] and [safe m], by the structure of [m]; the facts on
    the operations it calls come from the hint database. *)
Ltac respects_tac :=
  repeat first
    [ solve [auto with bolt]
    | apply respects_bind; [apply _| |intros ?]
    | apply respects_ret, _ | apply respects_throw, _ | apply respects_panic, _
    | apply respects_suspend, _ | apply respects_out_of_fuel, _ | apply respects_gets, _
    | apply respects_from_sum, _ | apply respects_attempt
    | apply respects_modify; intros ?
    | apply respects_loop_by; [apply _|intros ?]
    | case_match ].

Ltac safe_tac :=
  repeat first
    [ solve [auto with bolt]
    | apply safe_bind; [|intros ?]
    | apply safe_attempt
    | case_match ].

(** ** Triples *)

(** From a state of [P], [m] ends in [Q] if it returns [Ok], and in [X] on any
    other outcome ([X] is given the error, if that is what it is). *)
Definition triple {S E A} (P : S → Prop) (m : M S E A) (Q : A → S → Prop)
    (X : option E → S → Prop) : Prop := ∀ s, P s →
  match m s with
  | (Ok a, s') => Q a s'
  | (Err e, s') => X (Some e) s'
  | (_, s') => X None s'
  end.

Section triples.
Context {S E : Type}.

Lemma triple_ret {A} (a : A) (Q : A → S → Prop) (X : option E → S → Prop) :
  triple (Q a) (ret a) Q X.
Proof. by intros s. Qed.

Lemma triple_throw {A} (e : E) (Q : A → S → Prop) (X : option E → S → Prop) :
  triple (X (Some e)) (throw e) Q X.
Proof. by intros s. Qed.

Lemma triple_gets {A} (f : S → A) (Q : A → S → Prop) (X : option E → S → Prop) :
  triple (λ s, Q (f s) s) (gets f) Q X.
Proof. by intros s. Qed.

Lemma triple_modify (f : S → S) (Q : unit → S → Prop) (X : option E → S → Prop) :
  triple (λ s, Q tt (f s)) (modify f) Q X.
Proof. by intros s. Qed.

Lemma triple_bind {A B} (P : S → Prop) (m : M S E A) (f : A → M S E B) Q Q' X :
  triple P m Q X → (∀ a, triple (Q a) (f a) Q' X) → triple P (bind m f) Q' X.
Proof.
  intros Hm Hf s HP. specialize (Hm s HP). unfold bind.
  destruct (m s) as [[a|e| | |] s']; [by apply Hf|done..].
Qed.

Lemma triple_weaken {A} (P P' : S → Prop) (m : M S E A) Q Q' (X X' : option E → S → Prop) :
  triple P' m Q' X' → (∀ s, P s → P' s) → (∀ a s, Q' a s → Q a s) →
  (∀ e s, X' e s → X e s) → triple P m Q X.
Proof.
  intros Hm HP HQ HX s Hs. specialize (Hm s (HP s Hs)).
  destruct (m s) as [[a|e| | |] s']; auto.
Qed.

Lemma triple_pre {A} (P P' : S → Prop) (m : M S E A) Q X :
  triple P' m Q X → (∀ s, P s → P' s) → triple P m Q X.
Proof. intros Hm HP s Hs. exact (Hm s (HP s Hs)). Qed.

Lemma triple_err {A} (P : S → Prop) (m : M S E A) Q (X X' : option E → S → Prop) :
  triple P m Q X' → (∀ e s, X' e s → X e s) → triple P m Q X.
Proof. intros Hm HX. by eapply triple_weaken; [exact Hm| |auto|exact HX]. Qed.

Lemma triple_attempt {A} (P : S → Prop) (m : M S E A) Q X :
  triple P m Q X →
  triple P (attempt m) (λ r s, match r with inr a => Q a s | inl e => X (Some e) s end) X.
Proof.
  intros Hm s HP. specialize (Hm s HP). unfold attempt.
  by destruct (m s) as [[a|e| | |] s'].
Qed.

Lemma triple_from_sum {A} (r : E + A) (Q : A → S → Prop) X :
  triple (λ s, match r with inr a => Q a s | inl e => X (Some e) s end) (from_sum r) Q X.
Proof. by destruct r; intros s. Qed.

Lemma triple_loop {A B} (P : A → S → Prop) (body : A → M S E (A + B)) Q X fuel a :
  (∀ a, triple (P a) (body a) (λ r s, match r with inl a' => P a' s | inr b => Q b s end) X) →
  (∀ a s, P a s → X None s) →
  triple (P a) (loop fuel body a) Q X.
Proof.
  intros Hb HX. revert a. induction fuel as [|fuel IH]; intros a; cbn [loop].
  - intros s HP. by eapply HX.
  - eapply triple_bind; [apply Hb|]. intros [a'|b]; [apply IH|apply triple_ret].
Qed.

Lemma triple_loop_by {A B} measure (P : A → S → Prop) (body : A → M S E (A + B)) Q X a :
  (∀ a, triple (P a) (body a) (λ r s, match r with inl a' => P a' s | inr b => Q b s end) X) →
  (∀ a s, P a s → X None s) →
  triple (P a) (loop_by measure body a) Q X.
Proof. intros Hb HX s. by apply triple_loop. Qed.

End triples.
