(* ===== verification/Utf8.v ===== *)
(** * UTF-8 validity

    [String::from_utf8] of the Rust standard library, as [packstream.rs] uses
    it: the well-formed byte sequences of the Unicode standard (table 3-7). A
    Rust [String] always holds such a sequence, so [valid_string] is the type
    invariant of the strings of the development. *)

From S2P Require Import Prelude.

Definition between (lo hi : Z) (b : byte) : bool := (lo <=? bz b) && (bz b <=? hi).

(** A continuation byte. *)
Definition cont (b : byte) : bool := between 0x80 0xBF b.

(** The bounds of the second byte of a three-byte sequence. *)
Definition second3 (b0 b1 : byte) : bool :=
  if bz b0 =? 0xE0 then between 0xA0 0xBF b1
  else if bz b0 =? 0xED then between 0x80 0x9F b1
  else cont b1.

(** The bounds of the second byte of a four-byte sequence. *)
Definition second4 (b0 b1 : byte) : bool :=
  if bz b0 =? 0xF0 then between 0x90 0xBF b1
  else if bz b0 =? 0xF4 then between 0x80 0x8F b1
  else cont b1.

Fixpoint utf8_valid (bs : bytes) : bool :=
  match bs with
  | [] => true
  | b0 :: r0 =>
      if bz b0 <? 0x80 then utf8_valid r0
      else if between 0xC2 0xDF b0 then
        match r0 with
        | b1 :: r1 => cont b1 && utf8_valid r1
        | _ => false
        end
      else if between 0xE0 0xEF b0 then
        match r0 with
        | b1 :: b2 :: r2 => second3 b0 b1 && cont b2 && utf8_valid r2
        | _ => false
        end
      else if between 0xF0 0xF4 b0 then
        match r0 with
        | b1 :: b2 :: b3 :: r3 => second4 b0 b1 && cont b2 && cont b3 && utf8_valid r3
        | _ => false
        end
      else false
  end.

Definition valid_string (s : string) : Prop := utf8_valid (as_bytes s) = true.

#[export] Instance valid_string_dec s : Decision (valid_string s).
Proof. unfold valid_string. apply _. Defined.

(** The outcome of [String::from_utf8] (the error is given by the caller). *)
Definition string_from_utf8 (bs : bytes) : option string :=
  if utf8_valid bs then Some (of_bytes bs) else None.

Lemma string_from_utf8_Some bs s :
  string_from_utf8 bs = Some s ↔ valid_string s ∧ bs = as_bytes s.
Proof.
  unfold string_from_utf8, valid_string. split.
  - case_match; intros; simplify_eq. by rewrite as_of_bytes.
  - intros [H ->]. by rewrite H, of_as_bytes.
Qed.

Lemma string_from_utf8_as_bytes s :
  valid_string s → string_from_utf8 (as_bytes s) = Some s.
Proof. intros. by apply string_from_utf8_Some. Qed.

(** ASCII text is valid. *)
Definition is_ascii (b : byte) : bool := bz b <? 0x80.

Lemma utf8_valid_ascii bs : forallb is_ascii bs = true → utf8_valid bs = true.
Proof.
  unfold is_ascii. induction bs as [|b bs IH]; [done|]. cbn [forallb utf8_valid].
  intros [-> H]%andb_prop. auto.
Qed.

(** Validity is closed under concatenation, by induction on the length since
    a sequence is consumed up to four bytes at a time. *)
Lemma utf8_valid_app bs bs' :
  utf8_valid bs = true → utf8_valid bs' = true → utf8_valid (bs ++ bs') = true.
Proof.
  intros H Hbs'. revert H. induction bs as [bs IH] using (induction_ltof1 _ (@length byte)).
  unfold ltof in IH. destruct bs as [|b0 r0]; [done|].
  cbn [utf8_valid app]. case_match; [apply IH; cbn; lia|].
  case_match; [destruct r0 as [|b1 r1]; [done|]|].
  { cbn [app]. intros [-> Hr]%andb_prop. apply IH; cbn; auto with lia. }
  case_match; [destruct r0 as [|b1 [|b2 r2]]; [done..|]|].
  { cbn [app]. intros [-> Hr]%andb_prop. apply IH; cbn; auto with lia. }
  case_match; [destruct r0 as [|b1 [|b2 [|b3 r3]]]; [done..|]|done].
  cbn [app]. intros [-> Hr]%andb_prop. apply IH; cbn; auto with lia.
Qed.

#[export] Hint Resolve string_from_utf8_as_bytes utf8_valid_app : bolt.
