(* ===== verification/Text.v ===== *)
(** * The [str] methods the crate uses

    [contains], [strip_prefix], [split_once], [rsplit_once] and [split] of
    Rust's [str]. Strings are UTF-8 byte sequences and every pattern in the
    source is ASCII, so matching bytes is matching characters. *)

From Stdlib Require Import Strings.Ascii.
From S2P Require Import Prelude.

#[global] Arguments String.append !_ _ : simpl nomatch.

(** [s.strip_prefix(pat)] *)
Fixpoint strip_prefix (pat s : string) : option string :=
  match pat, s with
  | EmptyString, _ => Some s
  | String p pat', String c s' => if decide (p = c) then strip_prefix pat' s' else None
  | String _ _, EmptyString => None
  end.

(** [s.contains(pat)] *)
Fixpoint contains (pat s : string) : bool :=
  match strip_prefix pat s with
  | Some _ => true
  | None => match s with EmptyString => false | String _ s' => contains pat s' end
  end.

(** [s.split_once(pat)]: around the first occurrence. *)
Fixpoint split_once (pat s : string) : option (string * string) :=
  match strip_prefix pat s with
  | Some r => Some ("", r)
  | None =>
      match s with
      | EmptyString => None
      | String c s' => prod_map (String c) id <$> split_once pat s'
      end
  end.

(** [s.rsplit_once(c)]: around the last occurrence of a character. *)
Fixpoint rsplit_once (c : Ascii.ascii) (s : string) : option (string * string) :=
  match s with
  | EmptyString => None
  | String a s' =>
      match rsplit_once c s' with
      | Some (l, r) => Some (String a l, r)
      | None => if decide (a = c) then Some ("", s') else None
      end
  end.

(** [s.split(c)] *)
Fixpoint split (c : Ascii.ascii) (s : string) : list string :=
  match s with
  | EmptyString => [""]
  | String a s' =>
      if decide (a = c) then "" :: split c s'
      else match split c s' with
           | w :: ws => String a w :: ws
           | [] => [String a ""]
           end
  end.

(** [{:x}] of a number below 256. *)
Definition hex_digit (n : N) : string :=
  String (ascii_of_N (if (n <? 10)%N then 48 + n else 87 + n)) "".

Definition hex_byte (n : N) : string :=
  if (n <? 16)%N then hex_digit n else hex_digit (n / 16) +:+ hex_digit (n mod 16).

(** [{:?}] of a string: quoted, with the escapes of ASCII. (Beyond ASCII, Rust
    also escapes what Unicode calls unprintable; here it stays as it is.) *)
Definition escape_debug (c : ascii) : string :=
  let n := N_of_ascii c in
  if (n =? 0)%N then "\0"
  else if (n =? 9)%N then "\t"
  else if (n =? 10)%N then "\n"
  else if (n =? 13)%N then "\r"
  else if (n =? 34)%N || (n =? 92)%N then String "\" (String c "")
  else if (n <? 32)%N || (n =? 127)%N then "\u{" +:+ hex_byte n +:+ "}"
  else String c "".

Definition double_quote : string := String (ascii_of_N 34) "".

Fixpoint escape_all (s : string) : string :=
  match s with EmptyString => "" | String c s' => escape_debug c +:+ escape_all s' end.

Definition str_debug (s : string) : string := double_quote +:+ escape_all s +:+ double_quote.

(** The character [c] does not occur in [s]. *)
Fixpoint free_of (c : Ascii.ascii) (s : string) : bool :=
  match s with
  | EmptyString => true
  | String a s' => if decide (a = c) then false else free_of c s'
  end.

(** [s.is_empty()] *)
Definition str_is_empty (s : string) : bool :=
  match s with EmptyString => true | _ => false end.

Lemma strip_prefix_Some pat s r : strip_prefix pat s = Some r ↔ s = pat +:+ r.
Proof.
  revert s. induction pat as [|p pat IH]; intros [|c s]; simpl; try naive_solver.
  case_decide; [subst; rewrite IH; naive_solver | naive_solver].
Qed.

Lemma strip_prefix_app pat r : strip_prefix pat (pat +:+ r) = Some r.
Proof. by apply strip_prefix_Some. Qed.

Lemma contains_unfold pat s :
  contains pat s =
    match strip_prefix pat s with
    | Some _ => true
    | None => match s with EmptyString => false | String _ s' => contains pat s' end
    end.
Proof. by destruct s. Qed.

Lemma contains_true pat s : contains pat s = true ↔ ∃ a b, s = a +:+ pat +:+ b.
Proof.
  split.
  - induction s as [|c s IH]; simpl; destruct (strip_prefix pat _) as [r|] eqn:Hp; try done.
    + intros _. apply strip_prefix_Some in Hp. exists "", r. exact Hp.
    + intros _. apply strip_prefix_Some in Hp. exists "", r. exact Hp.
    + intros (a & b & ->)%IH. by exists (String c a), b.
  - intros (a & b & ->). induction a as [|c a IH]; rewrite contains_unfold.
    + simpl. by rewrite strip_prefix_app.
    + by case_match.
Qed.

Lemma split_once_Some pat s l r : split_once pat s = Some (l, r) → s = l +:+ pat +:+ r.
Proof.
  revert l. induction s as [|c s IH]; intros l; simpl;
    destruct (strip_prefix pat _) as [r'|] eqn:Hp.
  - intros [= <- <-]. by apply strip_prefix_Some in Hp.
  - done.
  - intros [= <- <-]. by apply strip_prefix_Some in Hp.
  - intros ([l' r''] & Hs & Hl)%fmap_Some. simpl in Hl. simplify_eq. simpl. f_equal. by apply IH.
Qed.

Lemma split_once_None pat s : split_once pat s = None ↔ contains pat s = false.
Proof.
  induction s as [|c s IH]; simpl; destruct (strip_prefix pat _); try done.
  by rewrite fmap_None.
Qed.

Lemma free_of_app c s s' : free_of c (s +:+ s') = free_of c s && free_of c s'.
Proof. induction s as [|a s IH]; [done|]. simpl. by case_decide. Qed.

(** Around a single character the left part of [split_once] has none of it,
    and conversely. *)
Lemma split_once_char c s l r :
  split_once (String c "") s = Some (l, r) ↔
  s = l +:+ String c r ∧ free_of c l = true.
Proof.
  revert l. induction s as [|a s IH]; intros l.
  - simpl. split; [done|]. intros [H _]. by destruct l.
  - simpl. destruct (decide (c = a)) as [->|Hne].
    + destruct s; (split; [intros [= <- <-]; done|]; intros [H Hl]; destruct l as [|b l];
        simpl in *; simplify_eq; [done|]; by case_decide).
    + rewrite fmap_Some. split.
      * intros ([l' r'] & H & Hl). simpl in Hl. simplify_eq. apply IH in H as [-> ?].
        split; [done|]. simpl. by rewrite decide_False.
      * intros [H Hl]. destruct l as [|b l]; simpl in *; simplify_eq.
        case_decide; [done|]. exists (l, r). split; [|done]. by apply IH.
Qed.

Lemma split_once_char_None c s : split_once (String c "") s = None ↔ free_of c s = true.
Proof.
  induction s as [|a s IH]; [done|]. simpl.
  destruct (decide (c = a)) as [->|Hne]; [by destruct s; rewrite decide_True|].
  by rewrite decide_False, fmap_None.
Qed.

Lemma rsplit_once_None c s : rsplit_once c s = None ↔ free_of c s = true.
Proof.
  induction s as [|a s IH]; [done|]. simpl.
  destruct (rsplit_once c s) as [[l r]|]; [|by case_decide; naive_solver].
  split; [done|]. intros H. case_decide; [done|]. naive_solver.
Qed.

Lemma rsplit_once_Some c s l r :
  rsplit_once c s = Some (l, r) ↔ s = l +:+ String c r ∧ free_of c r = true.
Proof.
  revert l r. induction s as [|a s IH]; intros l r.
  { simpl. split; [done|]. intros [H _]. by destruct l. }
  simpl. destruct (rsplit_once c s) as [[l' r']|] eqn:Hs.
  - destruct (proj1 (IH l' r') eq_refl) as [Hs' Hr']. split.
    + intros [= <- <-]. by rewrite Hs'.
    + intros [H Hr]. destruct l as [|b l]; simpl in H; simplify_eq.
      * apply rsplit_once_None in Hr. congruence.
      * assert (Some (l', r') = Some (l, r)) as [= -> ->] by (apply IH; split; congruence). done.
  - assert (∀ l, s = l +:+ String c r → free_of c r = true → False) as Hno.
    { intros l1 H1 H2. by pose proof (proj2 (IH l1 r) (conj H1 H2)). }
    case_decide as Ha; split.
    + intros [= <- <-]. by rewrite Ha, rsplit_once_None in *.
    + intros [H Hr]. destruct l as [|b l]; simpl in H; simplify_eq; [done|]. by destruct (Hno l).
    + done.
    + intros [H Hr]. destruct l as [|b l]; simpl in H; simplify_eq. by destruct (Hno l).
Qed.
