(* ===== verification/Value.v ===== *)
(** * The value model ([value.rs])

    [BoltValue] with the source's constructors. A [Cow<str>]/[String] is a
    [string] of UTF-8 bytes, a [Cow<[u8]>] a list of bytes, an [f64] its 64-bit
    pattern (the code only moves the bits), an [i64] a [Z] within 64 signed
    bits, a [HashMap] a [gmap]. [wf_value] is what Rust's types guarantee. *)

From S2P Require Import Prelude Utf8.

(** [pub mod sig]: structure signatures of the graph and temporal types. *)
Module sig.
Definition NODE : byte := x4e.
Definition RELATIONSHIP : byte := x52.
Definition UNBOUND_RELATIONSHIP : byte := x72.
Definition PATH : byte := x50.
Definition DATE : byte := x44.
Definition DURATION : byte := x45.
Definition POINT_2D : byte := x58.
Definition POINT_3D : byte := x59.
Definition LOCAL_TIME : byte := x74.
Definition LOCAL_DATETIME : byte := x64.
Definition DATETIME_ZONED : byte := x49.
End sig.

Module BoltValue.
Inductive t : Type :=
| Null
| Bool (b : bool)
| Int (i : Z)
| Float (bits : Z)
| String (s : string)
| Bytes (b : bytes)
| List (items : list t)
| Map (m : gmap string t)
| Structure (signature : byte) (fields : list t).
End BoltValue.

Abbreviation BoltValue := BoltValue.t.
Abbreviation HashMap V := (gmap string V).

(** ** Accessors *)

Definition as_str (v : BoltValue) : option string :=
  match v with BoltValue.String s => Some s | _ => None end.

Definition as_int (v : BoltValue) : option Z :=
  match v with BoltValue.Int i => Some i | _ => None end.

Definition as_bool (v : BoltValue) : option bool :=
  match v with BoltValue.Bool b => Some b | _ => None end.

Definition as_map (v : BoltValue) : option (HashMap BoltValue) :=
  match v with BoltValue.Map m => Some m | _ => None end.

Definition as_list (v : BoltValue) : option (list BoltValue) :=
  match v with BoltValue.List l => Some l | _ => None end.

(** [BoltValue::get] *)
Definition value_get (v : BoltValue) (key : string) : option BoltValue :=
  as_map v ≫= λ m, m !! key.

Definition as_strings (v : BoltValue) : list string :=
  match as_list v with Some l => omap as_str l | None => [] end.

(** ** Constructors ([From] instances) *)

Class IntoValue (A : Type) := into_value : A → BoltValue.

#[export] Instance into_value_id : IntoValue BoltValue := λ v, v.
#[export] Instance from_string : IntoValue string := BoltValue.String.
#[export] Instance from_bool : IntoValue bool := BoltValue.Bool.

(** [From<i64>] and [From<i32>] (which widens, changing nothing in [Z]). *)
Definition from_i64 (i : Z) : BoltValue := BoltValue.Int i.
Definition from_i32 (i : Z) : BoltValue := BoltValue.Int i.
Definition from_f64 (bits : Z) : BoltValue := BoltValue.Float bits.

#[export] Instance from_vec {A} `{!IntoValue A} : IntoValue (list A) :=
  λ v, BoltValue.List (into_value <$> v).

(** ** Well-formedness: what the Rust types guarantee *)

Inductive wf_value : BoltValue → Prop :=
| wf_Null : wf_value BoltValue.Null
| wf_Bool b : wf_value (BoltValue.Bool b)
| wf_Int i : in_signed 64 i → wf_value (BoltValue.Int i)
| wf_Float bits : in_unsigned 64 bits → wf_value (BoltValue.Float bits)
| wf_String s : valid_string s → wf_value (BoltValue.String s)
| wf_Bytes b : wf_value (BoltValue.Bytes b)
| wf_List items : Forall wf_value items → wf_value (BoltValue.List items)
| wf_Map m :
    map_Forall (λ k v, valid_string k ∧ wf_value v) m → wf_value (BoltValue.Map m)
| wf_Structure signature fields :
    Forall wf_value fields → wf_value (BoltValue.Structure signature fields).

Definition wf_map (m : HashMap BoltValue) : Prop :=
  map_Forall (λ k v, valid_string k ∧ wf_value v) m.

(** ** Induction over nested lists and maps *)

(** The number of constructors, the measure of the induction. *)
Fixpoint value_size (v : BoltValue) : nat :=
  match v with
  | BoltValue.List l | BoltValue.Structure _ l => S (sum_list_with value_size l)
  | BoltValue.Map m => S (map_fold (λ _ v n, value_size v + n)%nat O m)
  | _ => 1
  end.

Section value_ind.
Variable P : BoltValue → Prop.
Hypothesis PNull : P BoltValue.Null.
Hypothesis PBool : ∀ b, P (BoltValue.Bool b).
Hypothesis PInt : ∀ i, P (BoltValue.Int i).
Hypothesis PFloat : ∀ bits, P (BoltValue.Float bits).
Hypothesis PString : ∀ s, P (BoltValue.String s).
Hypothesis PBytes : ∀ b, P (BoltValue.Bytes b).
Hypothesis PList : ∀ l, Forall P l → P (BoltValue.List l).
Hypothesis PMap : ∀ m, map_Forall (λ _, P) m → P (BoltValue.Map m).
Hypothesis PStructure : ∀ sg l, Forall P l → P (BoltValue.Structure sg l).

Lemma value_size_elem l v : v ∈ l → (value_size v ≤ sum_list_with value_size l)%nat.
Proof. induction 1; cbn; lia. Qed.

Lemma value_size_lookup (m : HashMap BoltValue) k v :
  m !! k = Some v →
  (value_size v ≤ map_fold (λ _ v n, value_size v + n)%nat O m)%nat.
Proof.
  intros Hm. rewrite <- (insert_delete_id _ _ _ Hm).
  rewrite map_fold_insert_L; [lia|intros; lia|apply lookup_delete_eq].
Qed.

Lemma value_ind v : P v.
Proof.
  induction v as [v IH] using (induction_ltof1 _ value_size). unfold ltof in IH.
  destruct v; auto.
  - apply PList, Forall_forall. intros v Hv. apply IH. cbn.
    apply value_size_elem in Hv. lia.
  - apply PMap. intros k v Hv. apply IH. cbn. apply value_size_lookup in Hv. lia.
  - apply PStructure, Forall_forall. intros v Hv. apply IH. cbn.
    apply value_size_elem in Hv. lia.
Qed.
End value_ind.

(** ** Facts *)

Lemma as_str_Some v s : as_str v = Some s ↔ v = BoltValue.String s.
Proof. destruct v; cbn; naive_solver. Qed.

Lemma as_strings_strings (l : list string) : as_strings (into_value l) = l.
Proof.
  unfold as_strings, into_value, from_vec. cbn. induction l as [|s l IH]; [done|].
  cbn. by f_equal.
Qed.

Lemma wf_value_List l : wf_value (BoltValue.List l) → Forall wf_value l.
Proof. by inversion 1. Qed.

Lemma wf_value_Map m : wf_value (BoltValue.Map m) → wf_map m.
Proof. by inversion 1. Qed.

Lemma wf_value_Structure sg l : wf_value (BoltValue.Structure sg l) → Forall wf_value l.
Proof. by inversion 1. Qed.

Lemma wf_map_empty : wf_map ∅.
Proof. apply map_Forall_empty. Qed.

Lemma wf_map_insert k v m : valid_string k → wf_value v → wf_map m → wf_map (<[k:=v]> m).
Proof. intros. apply map_Forall_insert_2; auto. Qed.

#[export] Hint Constructors wf_value : bolt.
#[export] Hint Resolve wf_map_empty wf_map_insert : bolt.

(** ** Hash maps built one insertion at a time *)

(** [iter.collect::<HashMap<_, _>>()], and any loop of [insert]s: the last
    value given for a key stays. *)
Definition collect {V} (l : list (string * V)) : HashMap V :=
  foldl (λ m kv, <[kv.1 := kv.2]> m) ∅ l.

Lemma collect_snoc {V} (l : list (string * V)) k v :
  collect (l ++ [(k, v)]) = <[k := v]> (collect l).
Proof. unfold collect. by rewrite foldl_app. Qed.

Lemma collect_lookup_not_in {V} (l : list (string * V)) k :
  k ∉ l.*1 → collect l !! k = None.
Proof.
  induction l as [|[k' v'] l IH] using rev_ind; [intros; apply lookup_empty|].
  rewrite fmap_app, collect_snoc. intros Hk.
  rewrite lookup_insert_ne by (intros <-; set_solver). apply IH. set_solver.
Qed.

Lemma collect_nodup {V} (l : list (string * V)) :
  NoDup l.*1 → collect l = list_to_map l.
Proof.
  induction l as [|[k v] l IH] using rev_ind; [done|].
  rewrite fmap_app, collect_snoc. intros (Hl & Hk & _)%NoDup_app. rewrite IH by done.
  rewrite list_to_map_app. cbn. rewrite insert_empty. apply insert_union_singleton_r.
  apply not_elem_of_list_to_map. set_solver.
Qed.

Lemma collect_permutation {V} (l : list (string * V)) (m : HashMap V) :
  l ≡ₚ map_to_list m → collect l = m.
Proof.
  intros Hl. assert (NoDup l.*1) as Hnd by (rewrite Hl; apply NoDup_fst_map_to_list).
  rewrite collect_nodup by done. rewrite <- (list_to_map_to_list m).
  by apply list_to_map_proper.
Qed.

Lemma collect_forall {V} (P : string → V → Prop) (l : list (string * V)) :
  Forall (λ kv, P kv.1 kv.2) l → map_Forall P (collect l).
Proof.
  induction l as [|[k v] l IH] using rev_ind; [intros; apply map_Forall_empty|].
  rewrite Forall_app, collect_snoc. intros [Hl [Hkv _]%Forall_cons].
  apply map_Forall_insert_2; [exact Hkv | auto].
Qed.

(** ** Iteration over a hash map *)

(** [for (k, v) in map]: every entry once, in an order that Rust leaves
    unspecified (it depends on the hasher's random seed). What iterates over a
    [HashMap] is defined and proved for every such order. *)
Class HashIter := {
  hash_iter {V} : HashMap V → list (string * V);
  hash_iter_perm {V} (m : HashMap V) : hash_iter m ≡ₚ map_to_list m;
}.

(** One order, for concrete runs. *)
Definition listing_order : HashIter := {|
  hash_iter V m := map_to_list m;
  hash_iter_perm V m := reflexivity _;
|}.

Lemma hash_iter_fmap `{!HashIter} {V W} (f : V → W) (m : HashMap V) :
  ∃ l, l ≡ₚ map_to_list m ∧ hash_iter (f <$> m) = prod_map id f <$> l.
Proof.
  pose proof (hash_iter_perm (f <$> m)) as Hp. rewrite map_to_list_fmap in Hp.
  apply Permutation_map_inv in Hp as (l & -> & Hl). by exists l.
Qed.
