(* ===== verification/Message.v ===== *)
(** * Messages ([message.rs])

    Signatures, request builders, and the reading of a decoded structure as a
    server response. *)

From S2P Require Import Prelude Utf8 Value.

(** Client to server. *)
Definition HELLO : byte := x01.
Definition GOODBYE : byte := x02.
Definition RESET : byte := x0f.
Definition RUN : byte := x10.
Definition BEGIN : byte := x11.
Definition COMMIT : byte := x12.
Definition ROLLBACK : byte := x13.
Definition DISCARD : byte := x2f.
Definition PULL : byte := x3f.
Definition ROUTE : byte := x66.
Definition LOGON : byte := x6a.
Definition LOGOFF : byte := x6b.

(** Server to client. *)
Definition SUCCESS : byte := x70.
Definition RECORD : byte := x71.
Definition IGNORED : byte := x7e.
Definition FAILURE : byte := x7f.

Record Request := new_request {
  req_signature : byte;
  req_fields : list BoltValue;
}.

Definition with_meta (signature : byte) (meta : HashMap BoltValue) : Request :=
  new_request signature [BoltValue.Map meta].

(** A string-to-string metadata map. *)
Definition string_map (pairs : list (string * string)) : HashMap BoltValue :=
  collect ((λ kv, (kv.1, BoltValue.String kv.2)) <$> pairs).

(** [option_env!("CARGO_PKG_RUST_VERSION")], set by Cargo from [Cargo.toml]. *)
Definition CARGO_PKG_RUST_VERSION : option string := Some "1.99".

Definition hello (user_agent : string) : Request :=
  let lang := "Rust/" +:+ default "stable" CARGO_PKG_RUST_VERSION in
  let bolt_agent := string_map [("product", user_agent); ("language", lang)] in
  let meta := <["user_agent" := BoltValue.String user_agent]> (∅ : HashMap BoltValue) in
  let meta := <["bolt_agent" := BoltValue.Map bolt_agent]> meta in
  with_meta HELLO meta.

Definition logon_basic (principal credentials : string) : Request :=
  with_meta LOGON
    (string_map [("scheme", "basic"); ("principal", principal); ("credentials", credentials)]).

Definition logon_none : Request := with_meta LOGON (string_map [("scheme", "none")]).

Definition run_request (query : string) (parameters extra : HashMap BoltValue) : Request :=
  new_request RUN [BoltValue.String query; BoltValue.Map parameters; BoltValue.Map extra].

Definition with_n (signature : byte) (n : Z) (qid : option Z) : Request :=
  let meta := <["n" := BoltValue.Int n]> (∅ : HashMap BoltValue) in
  let meta :=
    match qid with Some qid => <["qid" := BoltValue.Int qid]> meta | None => meta end in
  with_meta signature meta.

Definition pull (n : Z) (qid : option Z) : Request := with_n PULL n qid.

Definition discard (n : Z) (qid : option Z) : Request := with_n DISCARD n qid.

Definition begin_request (extra : HashMap BoltValue) : Request := with_meta BEGIN extra.

Definition route_request (context : HashMap BoltValue) (db : option string) : Request :=
  let extra : HashMap BoltValue := ∅ in
  let extra :=
    match db with Some db => <["db" := BoltValue.String db]> extra | None => extra end in
  new_request ROUTE [BoltValue.Map context; BoltValue.List []; BoltValue.Map extra].

(** [empty_msg!] *)
Definition commit_request : Request := new_request COMMIT [].
Definition rollback_request : Request := new_request ROLLBACK [].
Definition reset_request : Request := new_request RESET [].
Definition goodbye : Request := new_request GOODBYE [].

(** A decoded server response. *)
Module Response.
Inductive t : Type :=
| Success (meta : HashMap BoltValue)
| Record (values : list BoltValue)
| Failure (code message : string)
| Ignored.
End Response.
Abbreviation Response := Response.t.

Definition take_map (field : option BoltValue) : HashMap BoltValue :=
  match field with Some (BoltValue.Map m) => m | _ => ∅ end.

(** [fields.pop()] is the last field. *)
Definition from_structure (signature : byte) (fields : list BoltValue) : option Response :=
  if decide (signature = SUCCESS) then Some (Response.Success (take_map (last fields)))
  else if decide (signature = RECORD) then
    match last fields with
    | Some (BoltValue.List values) => Some (Response.Record values)
    | _ => Some (Response.Record [])
    end
  else if decide (signature = IGNORED) then Some Response.Ignored
  else if decide (signature = FAILURE) then
    let meta := take_map (last fields) in
    let get key dflt := default dflt ((meta !! key) ≫= as_str) in
    Some (Response.Failure (get "code" "Unknown") (get "message" "(no message)"))
  else None.

(** [matches!(response, Response::Record(_))] *)
Definition is_record (r : Response) : bool :=
  match r with Response.Record _ => true | _ => false end.

(** ** What the builders build *)

(** A request whose fields are well-formed values. *)
Definition wf_request (r : Request) : Prop := Forall wf_value (req_fields r).

(** The structure a response is sent as: the server's side of
    [from_structure]. *)
Definition response_structure (r : Response) : byte * list BoltValue :=
  match r with
  | Response.Success meta => (SUCCESS, [BoltValue.Map meta])
  | Response.Record values => (RECORD, [BoltValue.List values])
  | Response.Failure code message =>
      (FAILURE, [BoltValue.Map (string_map [("code", code); ("message", message)])])
  | Response.Ignored => (IGNORED, [])
  end.

Lemma from_structure_response r :
  let '(sg, fields) := response_structure r in from_structure sg fields = Some r.
Proof. by destruct r. Qed.

Lemma from_structure_Some sg fields :
  is_Some (from_structure sg fields) ↔ sg ∈ [SUCCESS; RECORD; IGNORED; FAILURE].
Proof.
  unfold from_structure. repeat case_decide; subst; rewrite !elem_of_cons, elem_of_nil;
    try (split; [naive_solver|]).
  - intros. by eexists.
  - intros. destruct (last fields) as [[]|]; by eexists.
  - intros. by eexists.
  - intros. by eexists.
  - intros [?|[?|[?|[?|[]]]]]; congruence.
Qed.

Lemma wf_string_map pairs :
  Forall (λ kv, valid_string kv.1 ∧ valid_string kv.2) pairs → wf_map (string_map pairs).
Proof.
  intros H. apply collect_forall, Forall_fmap. eapply Forall_impl; [exact H|].
  intros [k v] [??]. cbn. auto with bolt.
Qed.

#[export] Hint Resolve wf_string_map : bolt.
