(* ===== verification/Error.v ===== *)
(** * Errors ([error.rs])

    [BoltError] with the source's constructors. A [Protocol] error carries a
    message; the model keeps, instead of its text, which message it is and the
    values the code formats into it. The texts the code itself inspects (a
    server failure's code) are strings. *)

From S2P Require Import Prelude Value Message Text.

(** [std::io::ErrorKind]: the kinds the crate tells apart, and the common ones
    of the transport. *)
Inductive ErrorKind :=
| NotFound | PermissionDenied | ConnectionRefused | ConnectionReset | HostUnreachable
| NetworkUnreachable | ConnectionAborted | NotConnected | AddrInUse | AddrNotAvailable
| NetworkDown | BrokenPipe | AlreadyExists | WouldBlock | InvalidInput | InvalidData
| TimedOut | WriteZero | Interrupted | Unsupported | UnexpectedEof | OutOfMemory | Other.

(** What a [BoltError::Protocol] message says. *)
Inductive ProtocolError :=
(* packstream.rs *)
| TooLargeToPack (label : string) (size : N)
| LengthOverflow
| UnexpectedEnd (need pos have : N)
| InvalidSizeWidth
| UnknownMarker (marker : byte)
| InvalidUtf8 (input : bytes)
| MapKeyNotString (key : BoltValue)
(* connection.rs *)
| UnexpectedResponse (ctx : string) (response : Response)
| MessageTooLong
| NotAStructure
| UnknownSignature (signature : byte)
| InvalidBatch (batch : Z)
(* uri.rs *)
| UnknownScheme (scheme : string)
| InvalidUri (why : string)
| InvalidServerAddress (server why : string)
(* a fixed text *)
| Text (msg : string).

Module BoltError.
Inductive t :=
| Io (kind : ErrorKind)
| Protocol (why : ProtocolError)
| Closed (why : string)
| Version (agreed supported : string)
| Failure (code message : string)
| Tls (why : string)
| Timeout (ctx : string).
End BoltError.
Abbreviation BoltError := BoltError.t.

(** The four kinds of I/O error a retry cannot fix. *)
Definition permanent_kind (k : ErrorKind) : bool :=
  match k with
  | InvalidInput | InvalidData | PermissionDenied | Unsupported => true
  | _ => false
  end.

(** [BoltError::is_transient] *)
Definition is_transient (e : BoltError) : bool :=
  match e with
  | BoltError.Io kind => negb (permanent_kind kind)
  | BoltError.Closed _ | BoltError.Timeout _ => true
  | BoltError.Failure code _ => contains "TransientError" code
  | BoltError.Protocol _ | BoltError.Version _ _ => false
  | BoltError.Tls _ => false
  end.
