(* ===== verification/PackStream.v ===== *)
(** * The PackStream codec ([packstream.rs])

    [pack] appends to an output buffer, [Reader::unpack] reads from a cursor
    over a message body. Both are computations over the buffer they mutate;
    casts, unwraps and indexing panic here where they would in Rust. *)

From S2P Require Import Prelude Utf8 Value Message Error.

(** Marker bytes. *)
Definition NULL : byte := xc0.
Definition FLOAT_64 : byte := xc1.
Definition FALSE : byte := xc2.
Definition TRUE : byte := xc3.
Definition INT_8 : byte := xc8.
Definition INT_16 : byte := xc9.
Definition INT_32 : byte := xca.
Definition INT_64 : byte := xcb.
Definition BYTES_8 : byte := xcc.
Definition BYTES_16 : byte := xcd.
Definition BYTES_32 : byte := xce.
Definition TINY_STRING : byte := x80.
Definition STRING_8 : byte := xd0.
Definition STRING_16 : byte := xd1.
Definition STRING_32 : byte := xd2.
Definition TINY_LIST : byte := x90.
Definition LIST_8 : byte := xd4.
Definition LIST_16 : byte := xd5.
Definition LIST_32 : byte := xd6.
Definition TINY_MAP : byte := xa0.
Definition MAP_8 : byte := xd8.
Definition MAP_16 : byte := xd9.
Definition MAP_32 : byte := xda.
Definition TINY_STRUCT : byte := xb0.
Definition STRUCT_8 : byte := xdc.
Definition STRUCT_16 : byte := xdd.
Definition STRUCT_32 : byte := xde.

(** ** Packing *)

(** A computation that appends to an output [Vec<u8>]. *)
Abbreviation W A := (M bytes BoltError A).

Definition push (b : byte) : W unit := modify (λ out, out ++ [b]).

Definition extend_from_slice (bs : bytes) : W unit := modify (λ out, out ++ bs).

Definition tagged (marker : byte) (payload : bytes) : W unit :=
  do! push marker in extend_from_slice payload.

Definition within (lo hi i : Z) : bool := (lo <=? i) && (i <=? hi).

Definition pack_int (i : Z) : W unit :=
  if within (-16) 127 i then push (zb i)
  else if within (-128) 127 i then tagged INT_8 (be_bytes 1 i)
  else if within (-32768) 32767 i then tagged INT_16 (be_bytes 2 i)
  else if within (-2147483648) 2147483647 i then tagged INT_32 (be_bytes 4 i)
  else tagged INT_64 (be_bytes 8 i).

(** [uW::try_from(size).unwrap()] *)
Definition try_from_unwrap (w : N) (size : N) : W Z :=
  if (size <? 2 ^ w)%N then ret (Z.of_N size) else panic.

Definition pack_header (size : N) (tiny m8 m16 : byte) (label : string) : W unit :=
  if (size <? 16)%N then
    let! n := try_from_unwrap 8 size in push (zb (Z.lor (bz tiny) n))
  else if (size <? 256)%N then
    let! n := try_from_unwrap 8 size in tagged m8 (be_bytes 1 n)
  else if (size <? 65536)%N then
    let! n := try_from_unwrap 16 size in tagged m16 (be_bytes 2 n)
  else if (size <? 2 ^ 32)%N then
    tagged (zb (bz m16 + 1)) (be_bytes 4 (Z.of_N size))
  else throw (BoltError.Protocol (TooLargeToPack label size)).

Definition pack_string (s : string) : W unit :=
  do! pack_header (len (as_bytes s)) TINY_STRING STRING_8 STRING_16 "string" in
  extend_from_slice (as_bytes s).

(** The last branch truncates: [n as u32]. *)
Definition pack_bytes (b : bytes) : W unit :=
  let n := len b in
  do! (if (n <? 256)%N then tagged BYTES_8 (be_bytes 1 (Z.of_N n))
       else if (n <? 65536)%N then tagged BYTES_16 (be_bytes 2 (Z.of_N n))
       else tagged BYTES_32 (be_bytes 4 (Z.of_N n))) in
  extend_from_slice b.

Section pack.
Context `{!HashIter}.

(** One [(key, value)] of a map, the value given by its own packing. *)
Definition pack_entry (kp : string * W unit) : W unit := do! pack_string kp.1 in kp.2.

Fixpoint pack (value : BoltValue) : W unit :=
  match value with
  | BoltValue.Null => push NULL
  | BoltValue.Bool true => push TRUE
  | BoltValue.Bool false => push FALSE
  | BoltValue.Int i => pack_int i
  | BoltValue.Float bits => tagged FLOAT_64 (be_bytes 8 bits)
  | BoltValue.String s => pack_string s
  | BoltValue.Bytes b => pack_bytes b
  | BoltValue.List items =>
      do! pack_header (len items) TINY_LIST LIST_8 LIST_16 "list" in
      for_each pack items
  | BoltValue.Map map =>
      do! pack_header (N.of_nat (size map)) TINY_MAP MAP_8 MAP_16 "map" in
      for_each pack_entry (hash_iter (pack <$> map))
  | BoltValue.Structure signature fields =>
      do! pack_header (len fields) TINY_STRUCT STRUCT_8 STRUCT_16 "struct" in
      do! push signature in
      for_each pack fields
  end.

Definition pack_seq (items : list BoltValue) : W unit := for_each pack items.

Definition pack_map (map : HashMap BoltValue) : W unit :=
  do! pack_header (N.of_nat (size map)) TINY_MAP MAP_8 MAP_16 "map" in
  for_each pack_entry (hash_iter (pack <$> map)).

End pack.

(** ** Unpacking *)

Record Reader := mk_reader { buf : bytes; pos : N }.

Abbreviation R A := (M Reader BoltError A).

Definition new_reader (buf : bytes) : Reader := mk_reader buf 0.

(** [usize] is 64 bits wide. *)
Definition USIZE_MAX : N := (2 ^ 64 - 1)%N.

Definition set_pos (p : N) (r : Reader) : Reader := mk_reader (buf r) p.

(** [self.buf.len() - self.pos], which panics if it would be negative. *)
Definition remaining : R N := λ r,
  if (len (buf r) <? pos r)%N then (Panic, r) else (Ok (len (buf r) - pos r)%N, r).

Definition take (n : N) : R bytes := λ r,
  let e := (pos r + n)%N in
  if (USIZE_MAX <? e)%N then (Err (BoltError.Protocol LengthOverflow), r)
  else if (len (buf r) <? e)%N then
    bind remaining (λ have, throw (BoltError.Protocol (UnexpectedEnd n (pos r) have))) r
  else (Ok (firstn (N.to_nat n) (skipn (N.to_nat (pos r)) (buf r))), set_pos e r).

(** [bytes[i]] *)
Definition index (bs : bytes) (i : nat) : R byte :=
  match bs !! i with Some b => ret b | None => panic end.

(** [b.try_into().unwrap()] into an array of [n] bytes. *)
Definition into_array (n : nat) (bs : bytes) : R bytes :=
  if decide (length bs = n) then ret bs else panic.

Definition read_u8 : R byte := let! bs := take 1 in index bs 0.

Definition read_size (n : N) : R N :=
  let! bs := take n in
  if (n =? 1)%N then
    let! b0 := index bs 0 in ret (Z.to_N (bz b0))
  else if (n =? 2)%N then
    let! b0 := index bs 0 in let! b1 := index bs 1 in
    ret (Z.to_N (from_be [b0; b1]))
  else if (n =? 4)%N then
    let! b0 := index bs 0 in let! b1 := index bs 1 in
    let! b2 := index bs 2 in let! b3 := index bs 3 in
    ret (Z.to_N (from_be [b0; b1; b2; b3]))
  else throw (BoltError.Protocol InvalidSizeWidth).

Definition unpack_string (n : N) : R BoltValue :=
  let! bs := take n in
  match string_from_utf8 bs with
  | Some s => ret (BoltValue.String s)
  | None => throw (BoltError.Protocol (InvalidUtf8 bs))
  end.

Definition unpack_bytes (width : N) : R BoltValue :=
  let! n := read_size width in
  let! bs := take n in
  ret (BoltValue.Bytes bs).

(** A big-endian signed integer of [n] bytes. *)
Definition unpack_int (n : nat) : R BoltValue :=
  let! bs := take (N.of_nat n) in
  let! arr := into_array n bs in
  ret (BoltValue.Int (from_be_signed arr)).

(** The two loops over claimed counts, given how to read one value. Each turn
    of the loop reads at least one byte or fails, so a fuel of one more than
    the remaining bytes is enough. *)
Fixpoint unpack_items (unpack : R BoltValue) (fuel : nat) (n : N) : R (list BoltValue) :=
  if (n =? 0)%N then ret []
  else match fuel with
       | O => out_of_fuel
       | S fuel' =>
           let! v := unpack in
           let! vs := unpack_items unpack fuel' (N.pred n) in
           ret (v :: vs)
       end.

Fixpoint unpack_entries (unpack : R BoltValue) (fuel : nat) (n : N) (map : HashMap BoltValue)
    : R (HashMap BoltValue) :=
  if (n =? 0)%N then ret map
  else match fuel with
       | O => out_of_fuel
       | S fuel' =>
           let! key := unpack in
           match key with
           | BoltValue.String s =>
               let! v := unpack in
               unpack_entries unpack fuel' (N.pred n) (<[s := v]> map)
           | other => throw (BoltError.Protocol (MapKeyNotString other))
           end
       end.

Definition unpack_n (unpack : R BoltValue) (fuel : nat) (n : N) : R (list BoltValue) :=
  do! remaining in unpack_items unpack fuel n.

Definition unpack_list (unpack : R BoltValue) (fuel : nat) (n : N) : R BoltValue :=
  let! items := unpack_n unpack fuel n in ret (BoltValue.List items).

Definition unpack_map (unpack : R BoltValue) (fuel : nat) (n : N) : R BoltValue :=
  do! remaining in
  let! map := unpack_entries unpack fuel n ∅ in ret (BoltValue.Map map).

Definition unpack_struct (unpack : R BoltValue) (fuel : nat) (n : N) : R BoltValue :=
  let! signature := read_u8 in
  let! fields := unpack_n unpack fuel n in
  ret (BoltValue.Structure signature fields).

(** The body of [Reader::unpack] once the marker is read, given how to read a
    nested value. *)
Definition unpack_marked (unpack : R BoltValue) (fuel : nat) (marker : byte) : R BoltValue :=
  if bz marker <? 0x80 then ret (BoltValue.Int (bz marker))
  else if 0xF0 <=? bz marker then ret (BoltValue.Int (to_signed 8 (bz marker)))
  else
    let sized w method := let! n := read_size w in method n in
    let list_of := unpack_list unpack fuel in
    let map_of := unpack_map unpack fuel in
    let struct_of := unpack_struct unpack fuel in
    let low := Z.to_N (Z.land (bz marker) 0x0F) in
    let high := zb (Z.land (bz marker) 0xF0) in
    if decide (high = TINY_STRING) then unpack_string low
    else if decide (high = TINY_LIST) then list_of low
    else if decide (high = TINY_MAP) then map_of low
    else if decide (high = TINY_STRUCT) then struct_of low
    else if decide (marker = NULL) then ret BoltValue.Null
    else if decide (marker = TRUE) then ret (BoltValue.Bool true)
    else if decide (marker = FALSE) then ret (BoltValue.Bool false)
    else if decide (marker = FLOAT_64) then
      let! bs := take 8 in
      let! arr := into_array 8 bs in
      ret (BoltValue.Float (from_be arr))
    else if decide (marker = INT_8) then
      let! bs := take 1 in
      let! b := index bs 0 in
      ret (BoltValue.Int (to_signed 8 (bz b)))
    else if decide (marker = INT_16) then unpack_int 2
    else if decide (marker = INT_32) then unpack_int 4
    else if decide (marker = INT_64) then unpack_int 8
    else if decide (marker = BYTES_8) then unpack_bytes 1
    else if decide (marker = BYTES_16) then unpack_bytes 2
    else if decide (marker = BYTES_32) then unpack_bytes 4
    else if decide (marker = STRING_8) then sized 1%N unpack_string
    else if decide (marker = STRING_16) then sized 2%N unpack_string
    else if decide (marker = STRING_32) then sized 4%N unpack_string
    else if decide (marker = LIST_8) then sized 1%N list_of
    else if decide (marker = LIST_16) then sized 2%N list_of
    else if decide (marker = LIST_32) then sized 4%N list_of
    else if decide (marker = MAP_8) then sized 1%N map_of
    else if decide (marker = MAP_16) then sized 2%N map_of
    else if decide (marker = MAP_32) then sized 4%N map_of
    else if decide (marker = STRUCT_8) then sized 1%N struct_of
    else if decide (marker = STRUCT_16) then sized 2%N struct_of
    else if decide (marker = STRUCT_32) then sized 4%N struct_of
    else throw (BoltError.Protocol (UnknownMarker marker)).

(** [Reader::unpack], one unit of fuel per level of nesting. *)
Fixpoint unpack_at (fuel : nat) : R BoltValue :=
  match fuel with
  | O => out_of_fuel
  | S fuel' => let! marker := read_u8 in unpack_marked (unpack_at fuel') fuel' marker
  end.

(** [Reader::unpack] with the fuel the remaining bytes allow. *)
Definition unpack : R BoltValue := λ r,
  unpack_at (S (length (buf r) - N.to_nat (pos r))) r.

(** ** Concrete runs (the crate's own test vectors) *)

Definition packed (v : BoltValue) : bytes := (@pack listing_order v []).2.

Example pack_minus_one : packed (BoltValue.Int (-1)) = [xff].
Proof. reflexivity. Qed.

Example pack_1234 : packed (BoltValue.Int 1234) = [INT_16; x04; xd2].
Proof. reflexivity. Qed.

Example unpack_nested :
  unpack (new_reader [xb1; x70; xa1; x81; x6b; x92; x01; xff]) =
  (Ok (BoltValue.Structure SUCCESS
         [BoltValue.Map {["k" := BoltValue.List [BoltValue.Int 1; BoltValue.Int (-1)]]}]),
   mk_reader [xb1; x70; xa1; x81; x6b; x92; x01; xff] 8).
Proof. vm_compute. reflexivity. Qed.

Example lying_size_header :
  (unpack (new_reader [LIST_32; xff; xff; xff; xff; x01])).1 =
  Err (BoltError.Protocol (UnexpectedEnd 1 6 0)).
Proof. vm_compute. reflexivity. Qed.
