(* ===== verification/Wire.v ===== *)
(** * The PackStream wire format, and the codec against it

    [encodes v bs]: the PackStream grammar lets [bs] stand for [v]. It allows
    every header width, every order of map entries and repeated keys (the last
    one wins), so it is what a peer may send; [pack] picks one encoding.

    The reader is proved equivalent to the grammar (complete: every encoding is
    read back; sound and safe: what is read is an encoding of the result, and
    nothing panics or runs out of fuel), the writer to produce words of it. *)

From S2P Require Import Prelude Utf8 Value Message Error PackStream.

(** ** The grammar *)

(** A marker followed by an [8], [16] or [32]-bit size: consecutive markers. *)
Inductive sized_header (m8 : byte) (n : N) : bytes → Prop :=
| sized_8 : (n < 2 ^ 8)%N → sized_header m8 n (m8 :: be_bytes 1 (Z.of_N n))
| sized_16 : (n < 2 ^ 16)%N →
    sized_header m8 n (zb (bz m8 + 1) :: be_bytes 2 (Z.of_N n))
| sized_32 : (n < 2 ^ 32)%N →
    sized_header m8 n (zb (bz m8 + 2) :: be_bytes 4 (Z.of_N n)).

Inductive header (tiny m8 : byte) (n : N) : bytes → Prop :=
| header_tiny : (n < 16)%N → header tiny m8 n [zb (Z.lor (bz tiny) (Z.of_N n))]
| header_sized h : sized_header m8 n h → header tiny m8 n h.

Inductive encodes : BoltValue → bytes → Prop :=
| enc_null : encodes BoltValue.Null [NULL]
| enc_true : encodes (BoltValue.Bool true) [TRUE]
| enc_false : encodes (BoltValue.Bool false) [FALSE]
| enc_tiny_int i : -16 ≤ i < 128 → encodes (BoltValue.Int i) [zb i]
| enc_int_8 i : in_signed 8 i → encodes (BoltValue.Int i) (INT_8 :: be_bytes 1 i)
| enc_int_16 i : in_signed 16 i → encodes (BoltValue.Int i) (INT_16 :: be_bytes 2 i)
| enc_int_32 i : in_signed 32 i → encodes (BoltValue.Int i) (INT_32 :: be_bytes 4 i)
| enc_int_64 i : in_signed 64 i → encodes (BoltValue.Int i) (INT_64 :: be_bytes 8 i)
| enc_float bits :
    in_unsigned 64 bits → encodes (BoltValue.Float bits) (FLOAT_64 :: be_bytes 8 bits)
| enc_string s h :
    valid_string s → header TINY_STRING STRING_8 (len (as_bytes s)) h →
    encodes (BoltValue.String s) (h ++ as_bytes s)
| enc_bytes b h :
    sized_header BYTES_8 (len b) h → encodes (BoltValue.Bytes b) (h ++ b)
| enc_list vs h body :
    header TINY_LIST LIST_8 (len vs) h → encodes_items vs body →
    encodes (BoltValue.List vs) (h ++ body)
| enc_map kvs h body :
    header TINY_MAP MAP_8 (len kvs) h → encodes_entries kvs body →
    encodes (BoltValue.Map (collect kvs)) (h ++ body)
| enc_structure sg vs h body :
    header TINY_STRUCT STRUCT_8 (len vs) h → encodes_items vs body →
    encodes (BoltValue.Structure sg vs) (h ++ sg :: body)
with encodes_items : list BoltValue → bytes → Prop :=
| items_nil : encodes_items [] []
| items_cons v vs bs bs' :
    encodes v bs → encodes_items vs bs' → encodes_items (v :: vs) (bs ++ bs')
with encodes_entries : list (string * BoltValue) → bytes → Prop :=
| entries_nil : encodes_entries [] []
| entries_cons k v kvs kb vb bs :
    encodes (BoltValue.String k) kb → encodes v vb → encodes_entries kvs bs →
    encodes_entries ((k, v) :: kvs) (kb ++ vb ++ bs).

Scheme encodes_mut := Minimality for encodes Sort Prop
with encodes_items_mut := Minimality for encodes_items Sort Prop
with encodes_entries_mut := Minimality for encodes_entries Sort Prop.
Combined Scheme encodes_mutind from encodes_mut, encodes_items_mut, encodes_entries_mut.

(** ** Cursors *)

(** The cursor [r] stands before [bs] (and holds no more than an addressable
    number of bytes). *)
Definition at_bytes (r : Reader) (bs : bytes) : Prop :=
  (len (buf r) ≤ USIZE_MAX)%N ∧ (pos r ≤ len (buf r))%N ∧
  bs = skipn (N.to_nat (pos r)) (buf r).

(** [r] once the bytes [bs] are read. *)
Definition advance (r : Reader) (bs : bytes) : Reader := set_pos (pos r + len bs) r.

(** [m] reads exactly [bs] and returns [a]. *)
Definition parses {A} (m : R A) (bs : bytes) (a : A) : Prop :=
  ∀ r rest, at_bytes r (bs ++ rest) → m r = (Ok a, advance r bs).

(** [m] neither panics nor runs out of fuel, and a result satisfies [Φ]. *)
Definition safely {A} (m : R A) (Φ : A → Reader → Prop) (r : Reader) : Prop :=
  match m r with
  | (Ok a, r') => Φ a r'
  | (Err _, _) => True
  | _ => False
  end.

Lemma at_bytes_new bs : (len bs ≤ USIZE_MAX)%N → at_bytes (new_reader bs) bs.
Proof. intros. unfold at_bytes, new_reader. cbn. split; [done|]. split; [lia|done]. Qed.

Lemma at_bytes_length r bs : at_bytes r bs → (pos r + len bs = len (buf r))%N.
Proof. intros (? & ? & ->). unfold len in *. rewrite length_skipn. lia. Qed.

Lemma advance_nil r : advance r [] = r.
Proof. destruct r. unfold advance, set_pos. cbn. f_equal. apply N.add_0_r. Qed.

Lemma advance_app r bs bs' : advance r (bs ++ bs') = advance (advance r bs) bs'.
Proof. unfold advance, set_pos. cbn. f_equal. rewrite len_app. lia. Qed.

Lemma at_bytes_advance r bs rest : at_bytes r (bs ++ rest) → at_bytes (advance r bs) rest.
Proof.
  intros H. pose proof (at_bytes_length _ _ H) as Hlen. rewrite len_app in Hlen.
  destruct H as (? & ? & Hbs). unfold at_bytes, advance, set_pos. cbn.
  split; [done|]. split; [lia|].
  replace (N.to_nat (pos r + len bs)) with (length bs + N.to_nat (pos r))%nat by (unfold len; lia).
  by rewrite <- skipn_skipn, <- Hbs, skipn_app, skipn_all, Nat.sub_diag.
Qed.

(** *** Reading forwards *)

Lemma parses_ret {A} (a : A) : parses (ret a) [] a.
Proof. intros r rest _. by rewrite advance_nil. Qed.

Lemma parses_bind {A B} (m : R A) (f : A → R B) bs bs' a b :
  parses m bs a → parses (f a) bs' b → parses (bind m f) (bs ++ bs') b.
Proof.
  intros Hm Hf r rest Hr. rewrite <- app_assoc in Hr.
  rewrite (bind_ok _ _ _ _ _ (Hm _ _ Hr)), advance_app.
  eapply Hf, at_bytes_advance, Hr.
Qed.

Lemma parses_bind_nil {A B} (m : R A) (f : A → R B) bs a b :
  parses m [] a → parses (f a) bs b → parses (bind m f) bs b.
Proof. apply (parses_bind m f []). Qed.

Lemma parses_bind_ret {A B} (m : R A) (f : A → B) bs a :
  parses m bs a → parses (bind m (λ a, ret (f a))) bs (f a).
Proof.
  intros Hm. rewrite <- (app_nil_r bs). eapply parses_bind; [done|]. apply parses_ret.
Qed.

Lemma parses_take bs : parses (take (len bs)) bs bs.
Proof.
  intros r rest H. pose proof (at_bytes_length _ _ H) as Hlen. rewrite len_app in Hlen.
  destruct H as (? & ? & Hbs). unfold take, advance.
  destruct (N.ltb_spec USIZE_MAX (pos r + len bs)); [lia|].
  destruct (N.ltb_spec (len (buf r)) (pos r + len bs)); [lia|].
  rewrite <- Hbs. unfold len at 1. rewrite Nat2N.id.
  by rewrite firstn_app, firstn_all, Nat.sub_diag, firstn_O, app_nil_r.
Qed.

Lemma parses_take_n n bs : len bs = n → parses (take n) bs bs.
Proof. intros <-. apply parses_take. Qed.

Lemma parses_index bs i b : bs !! i = Some b → parses (index bs i) [] b.
Proof. unfold index. intros ->. apply parses_ret. Qed.

Lemma parses_into_array n bs : length bs = n → parses (into_array n bs) [] bs.
Proof. intros H. unfold into_array. rewrite decide_True by done. apply parses_ret. Qed.

Lemma parses_remaining : ∃ f, ∀ r rest, at_bytes r rest → remaining r = (Ok (f r), r).
Proof.
  exists (λ r, len (buf r) - pos r)%N. intros r rest (? & ? & _). unfold remaining.
  destruct (N.ltb_spec (len (buf r)) (pos r)); [lia|done].
Qed.

Lemma parses_after_remaining {A} (m : R A) bs a :
  parses m bs a → parses (do! remaining in m) bs a.
Proof.
  intros Hm r rest Hr. destruct parses_remaining as [f Hf].
  rewrite (bind_ok _ _ _ _ _ (Hf _ _ Hr)). eapply Hm, Hr.
Qed.

Lemma parses_u8 b : parses read_u8 [b] b.
Proof. apply (parses_bind _ _ [b] [] [b]); [by apply parses_take_n | by apply parses_index]. Qed.

(** The three size widths the reader uses. *)
Definition size_width (w : nat) : Prop := w = 1%nat ∨ w = 2%nat ∨ w = 4%nat.

Lemma read_size_ok w r bs r' :
  size_width w → take (N.of_nat w) r = (Ok bs, r') → length bs = w →
  read_size (N.of_nat w) r = (Ok (Z.to_N (from_be bs)), r').
Proof.
  intros Hw Hr Hbs. unfold read_size. rewrite (bind_ok _ _ _ _ _ Hr).
  destruct Hw as [-> | [-> | ->]].
  - by destruct bs as [|b0 [|]].
  - by destruct bs as [|b0 [|b1 [|]]].
  - by destruct bs as [|b0 [|b1 [|b2 [|b3 [|]]]]].
Qed.

Lemma parses_size w n :
  size_width w → (n < 2 ^ (8 * N.of_nat w))%N →
  parses (read_size (N.of_nat w)) (be_bytes w (Z.of_N n)) n.
Proof.
  intros Hw Hn r rest Hr.
  rewrite (read_size_ok w r (be_bytes w (Z.of_N n)) (advance r (be_bytes w (Z.of_N n))));
    [|done| |apply length_be_bytes].
  - rewrite from_be_be_bytes, Z.mod_small, N2Z.id; [done|]. split; [lia|].
    change 256 with (2 ^ 8). rewrite <- Z.pow_mul_r by lia.
    apply N2Z.inj_lt in Hn. rewrite N2Z.inj_pow in Hn. lia.
  - eapply parses_take_n, Hr. unfold len. by rewrite length_be_bytes.
Qed.

(** *** From markers to readers *)

Section markers.
Variable u : R BoltValue.
Variable f : nat.

(** What reads the contents after a size, per 8-bit marker. *)
Inductive sized_kind : byte → (N → R BoltValue) → Prop :=
| sized_string : sized_kind STRING_8 unpack_string
| sized_list : sized_kind LIST_8 (unpack_list u f)
| sized_map : sized_kind MAP_8 (unpack_map u f)
| sized_struct : sized_kind STRUCT_8 (unpack_struct u f)
| sized_bytes : sized_kind BYTES_8 (λ n, let! bs := take n in ret (BoltValue.Bytes bs)).

(** The same for the kinds with tiny markers. *)
Inductive tiny_kind : byte → byte → (N → R BoltValue) → Prop :=
| tiny_string : tiny_kind TINY_STRING STRING_8 unpack_string
| tiny_list : tiny_kind TINY_LIST LIST_8 (unpack_list u f)
| tiny_map : tiny_kind TINY_MAP MAP_8 (unpack_map u f)
| tiny_struct : tiny_kind TINY_STRUCT STRUCT_8 (unpack_struct u f).

Lemma tiny_sized tiny m8 method : tiny_kind tiny m8 method → sized_kind m8 method.
Proof. destruct 1; constructor. Qed.

Lemma marked_sized m8 method :
  sized_kind m8 method →
  unpack_marked u f m8 = bind (read_size 1) method ∧
  unpack_marked u f (zb (bz m8 + 1)) = bind (read_size 2) method ∧
  unpack_marked u f (zb (bz m8 + 2)) = bind (read_size 4) method.
Proof. by destruct 1. Qed.

Lemma below_16 n :
  (n < 16)%N → n ∈ [0;1;2;3;4;5;6;7;8;9;10;11;12;13;14;15]%N.
Proof. intros. rewrite !elem_of_cons. lia. Qed.

Lemma marked_tiny tiny m8 method n :
  tiny_kind tiny m8 method → (n < 16)%N →
  unpack_marked u f (zb (Z.lor (bz tiny) (Z.of_N n))) = method n.
Proof.
  intros Hk Hn%below_16. rewrite !elem_of_cons, elem_of_nil in Hn.
  destruct Hk; destruct_or! Hn; subst; done.
Qed.

Lemma marked_tiny_int i :
  -16 ≤ i < 128 → unpack_marked u f (zb i) = ret (BoltValue.Int i).
Proof.
  intros Hi. unfold unpack_marked. rewrite bz_zb. destruct (decide (0 ≤ i)).
  - rewrite Z.mod_small by lia. by destruct (Z.ltb_spec i 0x80); [|lia].
  - rewrite <- (Z.mod_add i 1), Z.mod_small by lia.
    destruct (Z.ltb_spec (i + 1 * 256) 0x80); [lia|].
    destruct (Z.leb_spec 0xF0 (i + 1 * 256)); [|lia].
    unfold to_signed. destruct (Z.ltb_spec (i + 1 * 256) (2 ^ (8 - 1))); [lia|].
    do 2 f_equal. lia.
Qed.

(** A header followed by what reads the contents. *)
Lemma parses_sized_header m8 method n h bs v :
  sized_kind m8 method → sized_header m8 n h → parses (method n) bs v →
  parses (let! marker := read_u8 in unpack_marked u f marker) (h ++ bs) v.
Proof.
  intros (H1 & H2 & H4)%marked_sized Hh Hv.
  destruct Hh; cbn [app]; rewrite ?app_comm_cons;
    (eapply (parses_bind _ _ [_]); [apply parses_u8|]); rewrite ?H1, ?H2, ?H4;
    (eapply parses_bind; [|exact Hv]).
  - apply (parses_size 1); [by left | done].
  - apply (parses_size 2); [by right; left | done].
  - apply (parses_size 4); [by right; right | done].
Qed.

Lemma parses_header tiny m8 method n h bs v :
  tiny_kind tiny m8 method → header tiny m8 n h → parses (method n) bs v →
  parses (let! marker := read_u8 in unpack_marked u f marker) (h ++ bs) v.
Proof.
  intros Hk [Hn|h' Hh] Hv; [|by eapply parses_sized_header; [eapply tiny_sized| |]].
  eapply parses_bind; [apply parses_u8|]. by rewrite (marked_tiny _ _ _ _ Hk).
Qed.

(** Fixed-width scalars. *)
Lemma parses_unpack_int n i :
  (0 < n)%nat → in_signed (8 * Z.of_nat n) i → parses (unpack_int n) (be_bytes n i) (BoltValue.Int i).
Proof.
  intros Hn Hi. rewrite <- (app_nil_r (be_bytes n i)). unfold unpack_int.
  eapply parses_bind; [apply parses_take_n; unfold len; by rewrite length_be_bytes|].
  eapply parses_bind_nil; [apply parses_into_array, length_be_bytes|].
  rewrite from_be_signed_be_bytes by done. apply parses_ret.
Qed.

Lemma parses_unpack_float bits :
  in_unsigned 64 bits →
  parses (unpack_marked u f FLOAT_64) (be_bytes 8 bits) (BoltValue.Float bits).
Proof.
  intros Hb. rewrite <- (app_nil_r (be_bytes 8 bits)).
  eapply parses_bind; [by apply (parses_take_n 8)|].
  eapply parses_bind_nil; [by apply parses_into_array|].
  rewrite from_be_be_bytes, Z.mod_small by exact Hb. apply parses_ret.
Qed.

Lemma parses_unpack_int_8 i :
  in_signed 8 i → parses (unpack_marked u f INT_8) (be_bytes 1 i) (BoltValue.Int i).
Proof.
  intros Hi. rewrite <- (app_nil_r (be_bytes 1 i)).
  eapply parses_bind; [by apply (parses_take_n 1)|].
  eapply parses_bind_nil; [by apply parses_index|].
  change (Z.of_nat 0) with 0. rewrite Z.pow_0_r, Z.div_1_r, bz_zb.
  change 256 with (2 ^ 8). rewrite to_signed_mod by done. apply parses_ret.
Qed.

Lemma parses_unpack_string s :
  valid_string s → parses (unpack_string (len (as_bytes s))) (as_bytes s) (BoltValue.String s).
Proof.
  intros Hs. rewrite <- (app_nil_r (as_bytes s)) at 2.
  eapply parses_bind; [apply parses_take|].
  rewrite string_from_utf8_as_bytes by done. apply parses_ret.
Qed.

End markers.

(** ** Completeness *)

Lemma encodes_nonempty v bs : encodes v bs → (0 < length bs)%nat.
Proof.
  assert (∀ m n h, sized_header m n h → (0 < length h)%nat) as Hs
    by (destruct 1; cbn; lia).
  assert (∀ t m n h, header t m n h → (0 < length h)%nat) as Hh
    by (destruct 1; [cbn; lia | eauto]).
  destruct 1; rewrite ?length_app; try (cbn; lia).
  all: first [apply Hs in H | apply Hh in H | apply Hh in H0]; lia.
Qed.

Definition complete_value v bs : Prop :=
  ∀ fuel, (length bs ≤ fuel)%nat → parses (unpack_at fuel) bs v.

Definition complete_items vs bs : Prop :=
  ∀ fuel fuel', (length bs ≤ fuel)%nat → (length bs ≤ fuel')%nat →
    parses (unpack_items (unpack_at fuel) fuel' (len vs)) bs vs.

Definition complete_entries (kvs : list (string * BoltValue)) bs : Prop :=
  ∀ fuel fuel' m, (length bs ≤ fuel)%nat → (length bs ≤ fuel')%nat →
    parses (unpack_entries (unpack_at fuel) fuel' (len kvs) m) bs
      (foldl (λ m kv, <[kv.1 := kv.2]> m) m kvs).

Lemma len_cons_pred {A} (x : A) l : (len (x :: l) =? 0)%N = false ∧ N.pred (len (x :: l)) = len l.
Proof. unfold len. cbn [length]. split; [apply N.eqb_neq|]; lia. Qed.

Lemma complete_items_cons v vs bs bs' :
  encodes v bs → complete_value v bs → complete_items vs bs' →
  complete_items (v :: vs) (bs ++ bs').
Proof.
  intros Hne%encodes_nonempty Hv Hvs fuel fuel' Hf Hf'. rewrite length_app in *.
  destruct fuel' as [|fuel']; [lia|]. destruct (len_cons_pred v vs) as [Hz Hp].
  cbn [unpack_items]. rewrite Hz, Hp.
  eapply parses_bind; [apply Hv; lia|].
  apply (parses_bind_ret _ (cons v)). apply Hvs; lia.
Qed.

Lemma complete_entries_cons k v kvs kb vb bs :
  encodes (BoltValue.String k) kb → complete_value (BoltValue.String k) kb →
  complete_value v vb → complete_entries kvs bs →
  complete_entries ((k, v) :: kvs) (kb ++ vb ++ bs).
Proof.
  intros Hne%encodes_nonempty Hk Hv Hkvs fuel fuel' m Hf Hf'. rewrite !length_app in *.
  destruct fuel' as [|fuel']; [lia|]. destruct (len_cons_pred (k, v) kvs) as [Hz Hp].
  cbn [unpack_entries foldl]. rewrite Hz, Hp.
  eapply parses_bind; [apply Hk; lia|]. cbv beta iota.
  eapply parses_bind; [apply Hv; lia|].
  apply Hkvs; lia.
Qed.

Lemma complete_list vs bs fuel :
  complete_items vs bs → (length bs ≤ fuel)%nat →
  parses (unpack_list (unpack_at fuel) fuel (len vs)) bs (BoltValue.List vs).
Proof.
  intros Hvs Hf. apply (parses_bind_ret _ BoltValue.List).
  apply parses_after_remaining. by apply Hvs.
Qed.

Lemma complete_map kvs bs fuel :
  complete_entries kvs bs → (length bs ≤ fuel)%nat →
  parses (unpack_map (unpack_at fuel) fuel (len kvs)) bs (BoltValue.Map (collect kvs)).
Proof.
  intros Hkvs Hf. apply parses_after_remaining.
  apply (parses_bind_ret _ BoltValue.Map). by apply Hkvs.
Qed.

Lemma complete_struct sg vs bs fuel :
  complete_items vs bs → (length bs ≤ fuel)%nat →
  parses (unpack_struct (unpack_at fuel) fuel (len vs)) (sg :: bs) (BoltValue.Structure sg vs).
Proof.
  intros Hvs Hf. apply (parses_bind _ _ [sg] _ sg); [apply parses_u8|].
  apply (parses_bind_ret _ (BoltValue.Structure sg)).
  apply parses_after_remaining. by apply Hvs.
Qed.

(** A value whose encoding starts with a fixed marker. *)
Lemma complete_marked v marker bs :
  (∀ fuel, parses (unpack_marked (unpack_at fuel) fuel marker) bs v) →
  complete_value v (marker :: bs).
Proof.
  intros H [|fuel] Hf; [cbn in Hf; lia|].
  apply (parses_bind _ _ [marker] _ marker); [apply parses_u8 | apply H].
Qed.

Lemma complete_header v h bs :
  (0 < length h)%nat →
  (∀ fuel, (length bs ≤ fuel)%nat →
     parses (let! marker := read_u8 in unpack_marked (unpack_at fuel) fuel marker) (h ++ bs) v) →
  complete_value v (h ++ bs).
Proof.
  intros Hh H [|fuel] Hf; rewrite length_app in Hf; [lia|]. apply H. lia.
Qed.

Lemma sized_header_nonempty m8 n h : sized_header m8 n h → (0 < length h)%nat.
Proof. destruct 1; cbn; lia. Qed.

Lemma header_nonempty tiny m8 n h : header tiny m8 n h → (0 < length h)%nat.
Proof. destruct 1; [cbn; lia | by eapply sized_header_nonempty]. Qed.

Lemma complete_header_kind v tiny m8 n h bs (method : nat → N → R BoltValue) :
  (∀ fuel, tiny_kind (unpack_at fuel) fuel tiny m8 (method fuel)) →
  header tiny m8 n h →
  (∀ fuel, (length bs ≤ fuel)%nat → parses (method fuel n) bs v) →
  complete_value v (h ++ bs).
Proof.
  intros Hk Hh Hm. eapply complete_header; [by eapply header_nonempty|]. intros fuel Hf.
  eapply parses_header; [apply Hk | exact Hh | by apply Hm].
Qed.

(** Every encoding is read back, whatever follows it. *)
Lemma encodes_complete :
  (∀ v bs, encodes v bs → complete_value v bs) ∧
  (∀ vs bs, encodes_items vs bs → complete_items vs bs) ∧
  (∀ kvs bs, encodes_entries kvs bs → complete_entries kvs bs).
Proof.
  apply encodes_mutind.
  1-3: apply complete_marked; intros fuel; exact (parses_ret _).
  - intros i Hi. apply complete_marked. intros fuel.
    rewrite marked_tiny_int by done. apply parses_ret.
  - intros i Hi. apply complete_marked. intros fuel. by apply parses_unpack_int_8.
  - intros i Hi. apply complete_marked. intros fuel. apply (parses_unpack_int 2); [lia|done].
  - intros i Hi. apply complete_marked. intros fuel. apply (parses_unpack_int 4); [lia|done].
  - intros i Hi. apply complete_marked. intros fuel. apply (parses_unpack_int 8); [lia|done].
  - intros bits Hb. apply complete_marked. intros fuel. by apply parses_unpack_float.
  - intros s h Hs Hh.
    eapply (complete_header_kind _ _ _ _ _ _ (λ _, unpack_string)); [constructor|done|].
    intros. by apply parses_unpack_string.
  - intros b h Hh. eapply complete_header; [by eapply sized_header_nonempty|]. intros fuel _.
    eapply parses_sized_header; [constructor | exact Hh |].
    apply (parses_bind_ret _ BoltValue.Bytes), parses_take.
  - intros vs h body Hh _ Hvs.
    eapply (complete_header_kind _ _ _ _ _ _ (λ f, unpack_list (unpack_at f) f));
      [constructor|done|]. intros. by apply complete_list.
  - intros kvs h body Hh _ Hkvs.
    eapply (complete_header_kind _ _ _ _ _ _ (λ f, unpack_map (unpack_at f) f));
      [constructor|done|]. intros. by apply complete_map.
  - intros sg vs h body Hh _ Hvs.
    eapply (complete_header_kind _ _ _ _ _ _ (λ f, unpack_struct (unpack_at f) f));
      [constructor|done|]. intros. apply complete_struct; [done|]. cbn in *. lia.
  - intros fuel fuel' _ _. destruct fuel'; exact (parses_ret _).
  - intros. by apply complete_items_cons.
  - intros fuel fuel' m _ _. destruct fuel'; exact (parses_ret _).
  - intros. by apply complete_entries_cons.
Qed.

Lemma unpack_complete r v bs rest :
  encodes v bs → at_bytes r (bs ++ rest) → unpack r = (Ok v, advance r bs).
Proof.
  intros He Hr. unfold unpack. eapply encodes_complete; [exact He| |exact Hr].
  destruct Hr as (_ & _ & Hbs). apply (f_equal length) in Hbs.
  rewrite length_app, length_skipn in Hbs. lia.
Qed.

(** ** Soundness and safety *)

(** The postcondition: what was read satisfies [P], and nothing else moved. *)
Definition reads {A} (r : Reader) (bs : bytes) (P : A → bytes → Prop) : A → Reader → Prop :=
  λ a r', ∃ eb rest, bs = eb ++ rest ∧ r' = advance r eb ∧ P a eb.

(** [m] is safe on fewer than [k] bytes, and its results satisfy [P]. *)
Definition sound {A} (k : nat) (m : R A) (P : A → bytes → Prop) : Prop :=
  ∀ r bs, at_bytes r bs → (length bs < k)%nat → safely m (reads r bs P) r.

Lemma sound_weaken {A} k k' (m : R A) (P Q : A → bytes → Prop) :
  sound k m P → (k' ≤ k)%nat → (∀ a eb, P a eb → Q a eb) → sound k' m Q.
Proof.
  intros Hm Hk HPQ r bs Hr Hl. specialize (Hm r bs Hr ltac:(lia)). unfold safely in *.
  destruct (m r) as [[] ?]; try done. destruct Hm as (eb & rest & ? & ? & ?).
  exists eb, rest. auto.
Qed.

Lemma sound_ret {A} k (a : A) (P : A → bytes → Prop) : P a [] → sound k (ret a) P.
Proof. intros Ha r bs Hr _. exists [], bs. by rewrite advance_nil. Qed.

Lemma sound_throw {A} k e (P : A → bytes → Prop) : sound k (throw e) P.
Proof. by intros r bs. Qed.

Lemma sound_bind {A B} k (m : R A) (f : A → R B) P (Q : B → bytes → Prop) :
  sound k m P →
  (∀ a eb, P a eb → sound (k - length eb) (f a) (λ b e2, Q b (eb ++ e2))) →
  sound k (bind m f) Q.
Proof.
  intros Hm Hf r bs Hr Hl. specialize (Hm r bs Hr Hl). unfold safely, bind in *.
  destruct (m r) as [[a| | | |] r']; try done.
  destruct Hm as (eb & rest & -> & -> & Ha). rewrite length_app in Hl.
  specialize (Hf a eb Ha (advance r eb) rest (at_bytes_advance _ _ _ Hr) ltac:(lia)).
  unfold safely in Hf. destruct (f a _) as [[b| | | |] r'']; try done.
  destruct Hf as (e2 & rest' & -> & -> & Hb).
  exists (eb ++ e2), rest'. by rewrite advance_app, app_assoc.
Qed.

(** A result wrapped by a constructor. *)
Lemma sound_bind_ret {A B} k (m : R A) (f : A → B) P (Q : B → bytes → Prop) :
  sound k m P → (∀ a eb, P a eb → Q (f a) eb) → sound k (bind m (λ a, ret (f a))) Q.
Proof.
  intros Hm H. eapply sound_bind; [done|]. intros a eb Ha. apply sound_ret.
  rewrite app_nil_r. auto.
Qed.

Lemma sound_take k n : sound k (take n) (λ bs eb, bs = eb ∧ len eb = n).
Proof.
  intros r bs Hr _. pose proof (at_bytes_length _ _ Hr) as Hlen.
  unfold safely, take. destruct (N.ltb_spec USIZE_MAX (pos r + n)); [done|].
  destruct Hr as (? & ? & Hbs).
  destruct (N.ltb_spec (len (buf r)) (pos r + n)).
  - unfold bind, remaining. destruct (N.ltb_spec (len (buf r)) (pos r)); [lia|done].
  - rewrite <- Hbs. exists (firstn (N.to_nat n) bs), (skipn (N.to_nat n) bs).
    assert (len (firstn (N.to_nat n) bs) = n) as Hn.
    { unfold len in *. rewrite length_firstn. lia. }
    unfold advance. rewrite firstn_skipn, Hn. done.
Qed.

Lemma sound_index k bs i (P : byte → bytes → Prop) :
  (i < length bs)%nat → (∀ b, bs !! i = Some b → P b []) → sound k (index bs i) P.
Proof.
  intros [b Hb]%lookup_lt_is_Some_2 HP. unfold index. rewrite Hb. apply sound_ret. auto.
Qed.

Lemma sound_into_array k n bs : length bs = n → sound k (into_array n bs) (λ a eb, a = bs ∧ eb = []).
Proof. intros H. unfold into_array. rewrite decide_True by done. by apply sound_ret. Qed.

Lemma sound_u8 k : sound k read_u8 (λ b eb, eb = [b]).
Proof.
  eapply sound_bind; [apply sound_take|]. intros bs eb [-> Hl].
  assert (length eb = 1)%nat by (unfold len in Hl; lia). destruct eb as [|b [|]]; try done.
  apply sound_index; [cbn; lia|]. by intros ? [= ->].
Qed.

Lemma sound_size k w :
  size_width w →
  sound k (read_size (N.of_nat w))
    (λ n eb, eb = be_bytes w (Z.of_N n) ∧ (n < 2 ^ (8 * N.of_nat w))%N).
Proof.
  intros Hw r bs Hr Hl. pose proof (sound_take k (N.of_nat w) r bs Hr Hl) as Ht.
  unfold safely in *. destruct (take _ r) as [[eb| | | |] r'] eqn:Hm; try done.
  - destruct Ht as (? & rest & -> & -> & <- & Hn).
    assert (length eb = w) as Hlw by (unfold len in Hn; lia).
    rewrite (read_size_ok w _ _ _ Hw Hm) by done. exists eb, rest.
    pose proof (from_be_range eb) as Hrange. split_and!; [done|done| |].
    + by rewrite Z2N.id, <- Hlw, be_bytes_from_be by lia.
    + rewrite Hlw in Hrange. change 256 with (2 ^ 8) in Hrange.
      rewrite <- Z.pow_mul_r in Hrange by lia. apply N2Z.inj_lt.
      rewrite Z2N.id, N2Z.inj_pow by lia. lia.
  - unfold read_size. by rewrite (bind_err _ _ _ _ _ Hm).
Qed.

(** Contents of a given size, to be preceded by a header of that size. *)
Definition contents (H : N → bytes → Prop) (n : N) (v : BoltValue) (eb : bytes) : Prop :=
  ∀ h, H n h → encodes v (h ++ eb).

Lemma sound_sized k w (method : N → R BoltValue) (H : N → bytes → Prop) marker :
  size_width w →
  (∀ n, (n < 2 ^ (8 * N.of_nat w))%N → H n (marker :: be_bytes w (Z.of_N n))) →
  (∀ n k', (k' ≤ k)%nat → sound k' (method n) (contents H n)) →
  sound k (bind (read_size (N.of_nat w)) method) (λ v e2, encodes v (marker :: e2)).
Proof.
  intros Hw HH Hm. eapply sound_bind; [by apply sound_size|]. intros n eb [-> Hn].
  eapply sound_weaken; [apply (Hm n (k - length (be_bytes w (Z.of_N n)))%nat); lia|done|].
  intros v e2 Hv. apply (Hv (marker :: be_bytes w (Z.of_N n))). auto.
Qed.

Section sound_nested.
Variable u : R BoltValue.
Variable f : nat.
Hypothesis Hu : sound f u encodes.

Lemma sound_items fuel k n :
  (k ≤ fuel)%nat → (k ≤ f)%nat →
  sound k (unpack_items u fuel n) (λ vs eb, len vs = n ∧ encodes_items vs eb).
Proof.
  revert k n. induction fuel as [|fuel IH]; intros k n Hk Hkf; cbn [unpack_items];
    destruct (N.eqb_spec n 0) as [->|Hn].
  1, 3: apply sound_ret; split; [done | constructor].
  - intros r bs _ Hl. lia.
  - eapply sound_bind; [by eapply sound_weaken; [exact Hu|lia|]|]. intros v eb Hv.
    pose proof (encodes_nonempty _ _ Hv). eapply sound_bind_ret; [apply IH; lia|].
    intros vs e2 [Hlen Hvs]. split; [unfold len in *; cbn [length]; lia | by constructor].
Qed.

Lemma sound_entries fuel k n m :
  (k ≤ fuel)%nat → (k ≤ f)%nat →
  sound k (unpack_entries u fuel n m) (λ m' eb, ∃ kvs,
    m' = foldl (λ m kv, <[kv.1 := kv.2]> m) m kvs ∧ len kvs = n ∧ encodes_entries kvs eb).
Proof.
  revert k n m. induction fuel as [|fuel IH]; intros k n m Hk Hkf; cbn [unpack_entries];
    destruct (N.eqb_spec n 0) as [->|Hn].
  1, 3: apply sound_ret; exists []; split_and!; [done..|constructor].
  - intros r bs _ Hl. lia.
  - eapply sound_bind; [by eapply sound_weaken; [exact Hu|lia|]|]. intros key kb Hkey.
    pose proof (encodes_nonempty _ _ Hkey). destruct key; try apply sound_throw.
    eapply sound_bind; [by eapply sound_weaken; [exact Hu|lia|]|]. intros v vb Hv.
    eapply sound_weaken; [apply (IH (k - length kb - length vb)%nat); lia|done|].
    intros m' eb (kvs & -> & Hlen & Hkvs). exists ((s, v) :: kvs).
    split_and!; [done | unfold len in *; cbn [length]; lia | by constructor].
Qed.

Lemma sound_unpack_n k n :
  (k ≤ f)%nat → sound k (unpack_n u f n) (λ vs eb, len vs = n ∧ encodes_items vs eb).
Proof.
  intros Hk r bs Hr Hl. destruct parses_remaining as [g Hg].
  unfold safely, unpack_n. rewrite (bind_ok _ _ _ _ _ (Hg _ _ Hr)). by eapply sound_items.
Qed.

Lemma sound_string k n : sound k (unpack_string n) (contents (header TINY_STRING STRING_8) n).
Proof.
  eapply sound_bind; [apply sound_take|]. intros bs eb [-> Hl].
  destruct (string_from_utf8 eb) as [s|] eqn:Hs; [|apply sound_throw].
  apply string_from_utf8_Some in Hs as [? ->]. apply sound_ret. intros h Hh.
  rewrite app_nil_r. constructor; [done|]. by rewrite Hl.
Qed.

Lemma sound_kind tiny m8 method k n :
  tiny_kind u f tiny m8 method → (k ≤ f)%nat →
  sound k (method n) (contents (header tiny m8) n).
Proof.
  intros Hkind Hk. destruct Hkind; [apply sound_string| | |].
  - eapply sound_bind_ret; [by apply sound_unpack_n|]. intros vs eb [<- Hvs] h Hh.
    by constructor.
  - intros r bs Hr Hl. destruct parses_remaining as [g Hg].
    unfold safely, unpack_map. rewrite (bind_ok _ _ _ _ _ (Hg _ _ Hr)).
    eapply sound_bind_ret; [by apply (sound_entries f k)| |exact Hr|done].
    intros m eb (kvs & -> & <- & Hkvs) h Hh. by apply enc_map.
  - eapply sound_bind; [apply sound_u8|]. intros sg eb ->.
    eapply sound_bind_ret; [apply sound_unpack_n; lia|]. intros vs e2 [<- Hvs] h Hh.
    by apply enc_structure.
Qed.

Lemma sound_bytes k n :
  sound k (let! bs := take n in ret (BoltValue.Bytes bs)) (contents (sized_header BYTES_8) n).
Proof.
  eapply sound_bind_ret; [apply sound_take|]. intros bs eb [-> Hl] h Hh.
  constructor. by rewrite Hl.
Qed.

(** The cases of a marker with a size, for the kinds with tiny markers. *)
Lemma sound_tiny_8 tiny m8 method :
  tiny_kind u f tiny m8 method →
  sound f (bind (read_size 1) method) (λ v e2, encodes v (m8 :: e2)).
Proof.
  intros Hk. apply (sound_sized f 1 method (header tiny m8)); [by left| |].
  - intros n Hn. by apply header_sized, sized_8.
  - intros. by apply sound_kind.
Qed.

Lemma sound_tiny_16 tiny m8 method :
  tiny_kind u f tiny m8 method →
  sound f (bind (read_size 2) method) (λ v e2, encodes v (zb (bz m8 + 1) :: e2)).
Proof.
  intros Hk. apply (sound_sized f 2 method (header tiny m8)); [by right; left| |].
  - intros n Hn. by apply header_sized, sized_16.
  - intros. by apply sound_kind.
Qed.

Lemma sound_tiny_32 tiny m8 method :
  tiny_kind u f tiny m8 method →
  sound f (bind (read_size 4) method) (λ v e2, encodes v (zb (bz m8 + 2) :: e2)).
Proof.
  intros Hk. apply (sound_sized f 4 method (header tiny m8)); [by right; right| |].
  - intros n Hn. by apply header_sized, sized_32.
  - intros. by apply sound_kind.
Qed.

Lemma sound_unpack_bytes w marker :
  size_width w →
  (∀ n, (n < 2 ^ (8 * N.of_nat w))%N →
     sized_header BYTES_8 n (marker :: be_bytes w (Z.of_N n))) →
  sound f (unpack_bytes (N.of_nat w)) (λ v e2, encodes v (marker :: e2)).
Proof. intros Hw HH. eapply sound_sized; [done|exact HH|]. intros. apply sound_bytes. Qed.

Lemma sound_unpack_int k n marker :
  (0 < n)%nat →
  (∀ i, in_signed (8 * Z.of_nat n) i → encodes (BoltValue.Int i) (marker :: be_bytes n i)) →
  sound k (unpack_int n) (λ v e2, encodes v (marker :: e2)).
Proof.
  intros Hn Henc. eapply sound_bind; [apply sound_take|]. intros bs eb [-> Hl].
  assert (length eb = n) as Hlen by (unfold len in Hl; lia).
  eapply sound_bind; [by apply sound_into_array|]. intros bs' e2 [-> ->]. apply sound_ret.
  rewrite !app_nil_r. rewrite <- (be_bytes_from_be_signed eb) at 2.
  rewrite Hlen. apply Henc. rewrite <- Hlen. apply from_be_signed_range.
  destruct eb; [cbn in *; lia|done].
Qed.

(** A tiny header is its high nibble and a size below sixteen. *)
Lemma tiny_marker b :
  b = zb (Z.lor (bz (zb (Z.land (bz b) 0xF0))) (Z.of_N (Z.to_N (Z.land (bz b) 0x0F)))) ∧
  (Z.to_N (Z.land (bz b) 0x0F) < 16)%N.
Proof. by destruct b. Qed.

Lemma sound_tiny tiny m8 method b :
  tiny_kind u f tiny m8 method → zb (Z.land (bz b) 0xF0) = tiny →
  sound f (method (Z.to_N (Z.land (bz b) 0x0F))) (λ v e2, encodes v (b :: e2)).
Proof.
  intros Hk Hb. destruct (tiny_marker b) as [Hm Hn]. rewrite Hb in Hm.
  eapply sound_weaken; [by eapply sound_kind|done|]. intros v e2 Hv.
  apply (Hv [b]). rewrite Hm at 2. by constructor.
Qed.

End sound_nested.

Lemma sound_marked u f b :
  sound f u encodes → sound f (unpack_marked u f b) (λ v e2, encodes v (b :: e2)).
Proof.
  intros Hu. unfold unpack_marked.
  destruct (Z.ltb_spec (bz b) 0x80) as [Hb|Hb].
  { apply sound_ret. rewrite <- (zb_bz b) at 2. constructor. pose proof (bz_range b). lia. }
  destruct (Z.leb_spec 0xF0 (bz b)) as [Hb'|Hb'].
  { apply sound_ret. pose proof (bz_range b) as Hr. unfold to_signed.
    destruct (Z.ltb_spec (bz b) (2 ^ (8 - 1))); [lia|].
    assert (b = zb (bz b - 2 ^ 8)) as Hz.
    { apply (inj bz). rewrite bz_zb, <- (Z.mod_add _ 1), Z.mod_small by lia. lia. }
    rewrite Hz at 2. constructor. lia. }
  repeat case_decide.
  all: subst.
  1-4: by eapply sound_tiny; [| constructor |].
  - apply sound_ret, enc_null.
  - apply sound_ret, enc_true.
  - apply sound_ret, enc_false.
  - eapply sound_bind; [apply sound_take|]. intros bs eb [-> Hl].
    assert (length eb = 8%nat) as Hlen by (unfold len in Hl; lia).
    eapply sound_bind; [by apply sound_into_array|]. intros bs' e2 [-> ->]. apply sound_ret.
    rewrite !app_nil_r. rewrite <- (be_bytes_from_be eb) at 2. rewrite Hlen. constructor.
    pose proof (from_be_range eb) as Hr. rewrite Hlen in Hr. exact Hr.
  - eapply sound_bind; [apply sound_take|]. intros bs eb [-> Hl].
    assert (length eb = 1%nat) as Hlen by (unfold len in Hl; lia).
    destruct eb as [|b0 [|]]; try done.
    eapply sound_bind; [apply (sound_index _ _ _ (λ b eb, b = b0 ∧ eb = []));
      [cbn; lia | by intros ? [= ->]]|]. intros b e2 [-> ->]. apply sound_ret.
    rewrite <- (be_bytes_from_be_signed [b0]). apply enc_int_8.
    by apply (from_be_signed_range [b0]).
  - apply (sound_unpack_int _ 2); [lia | apply enc_int_16].
  - apply (sound_unpack_int _ 4); [lia | apply enc_int_32].
  - apply (sound_unpack_int _ 8); [lia | apply enc_int_64].
  - apply (sound_unpack_bytes _ 1); [by left | intros; by apply (sized_8 BYTES_8)].
  - apply (sound_unpack_bytes _ 2); [by right; left | intros; by apply (sized_16 BYTES_8)].
  - apply (sound_unpack_bytes _ 4); [by right; right | intros; by apply (sized_32 BYTES_8)].
  - by eapply (sound_tiny_8 u f); [|constructor].
  - by eapply (sound_tiny_16 u f Hu TINY_STRING STRING_8); constructor.
  - by eapply (sound_tiny_32 u f Hu TINY_STRING STRING_8); constructor.
  - by eapply (sound_tiny_8 u f); [|constructor].
  - by eapply (sound_tiny_16 u f Hu TINY_LIST LIST_8); constructor.
  - by eapply (sound_tiny_32 u f Hu TINY_LIST LIST_8); constructor.
  - by eapply (sound_tiny_8 u f); [|constructor].
  - by eapply (sound_tiny_16 u f Hu TINY_MAP MAP_8); constructor.
  - by eapply (sound_tiny_32 u f Hu TINY_MAP MAP_8); constructor.
  - by eapply (sound_tiny_8 u f); [|constructor].
  - by eapply (sound_tiny_16 u f Hu TINY_STRUCT STRUCT_8); constructor.
  - by eapply (sound_tiny_32 u f Hu TINY_STRUCT STRUCT_8); constructor.
  - apply sound_throw.
Qed.

Lemma sound_unpack_at fuel : sound fuel (unpack_at fuel) encodes.
Proof.
  induction fuel as [|fuel IH]; [by intros r bs _ Hl; lia|].
  eapply sound_bind; [apply sound_u8|]. intros b eb ->.
  eapply sound_weaken; [by apply sound_marked | cbn; lia | done].
Qed.

Lemma unpack_eq r : unpack r = unpack_at (S (length (buf r) - N.to_nat (pos r))) r.
Proof. reflexivity. Qed.

Lemma unpack_sound r bs : at_bytes r bs → safely unpack (reads r bs encodes) r.
Proof.
  intros Hr. unfold safely. rewrite unpack_eq.
  pose proof (sound_unpack_at (S (length (buf r) - N.to_nat (pos r))) r bs Hr) as Hs.
  unfold safely in Hs. apply Hs.
  destruct Hr as (_ & _ & ->). rewrite length_skipn. lia.
Qed.
