(* ===== verification/Codec.v ===== *)
(** * The codec's guarantees

    What [pack] writes is a word of the wire grammar for the packed value, so
    it is read back; what the reader accepts is exactly the grammar; neither
    side panics. The limits of [pack] (sizes of 32 bits, and the unchecked one
    of byte strings) are stated as the code has them. *)

From S2P Require Import Prelude Utf8 Value Message Error PackStream Wire.

(** ** What a packing writes *)

(** [m] appends [bs] to any output. *)
Definition writes (m : W unit) (bs : bytes) : Prop := ∀ out, m out = (Ok tt, out ++ bs).

(** [m] appends something, and succeeds or reports a size beyond 32 bits. *)
Definition append_or_too_large (m : W unit) : Prop := ∀ out,
  ∃ bs, (m out).2 = out ++ bs ∧
    ((m out).1 = Ok tt ∨
     ∃ label n, (m out).1 = Err (BoltError.Protocol (TooLargeToPack label n)) ∧ (2 ^ 32 ≤ n)%N).

(** Every size in the value is of 32 bits. *)
Definition size32 (n : N) : Prop := (n < 2 ^ 32)%N.

Inductive packable : BoltValue → Prop :=
| packable_Null : packable BoltValue.Null
| packable_Bool b : packable (BoltValue.Bool b)
| packable_Int i : packable (BoltValue.Int i)
| packable_Float bits : packable (BoltValue.Float bits)
| packable_String s : size32 (len (as_bytes s)) → packable (BoltValue.String s)
| packable_Bytes b : size32 (len b) → packable (BoltValue.Bytes b)
| packable_List l : size32 (len l) → Forall packable l → packable (BoltValue.List l)
| packable_Map m :
    size32 (N.of_nat (size m)) →
    map_Forall (λ k v, size32 (len (as_bytes k)) ∧ packable v) m → packable (BoltValue.Map m)
| packable_Structure sg l :
    size32 (len l) → Forall packable l → packable (BoltValue.Structure sg l).

Lemma packable_List_inv l : packable (BoltValue.List l) → size32 (len l) ∧ Forall packable l.
Proof. by inversion 1. Qed.

Lemma packable_Map_inv m :
  packable (BoltValue.Map m) →
  size32 (N.of_nat (size m)) ∧
  map_Forall (λ k v, size32 (len (as_bytes k)) ∧ packable v) m.
Proof. by inversion 1. Qed.

Lemma packable_Structure_inv sg l :
  packable (BoltValue.Structure sg l) → size32 (len l) ∧ Forall packable l.
Proof. by inversion 1. Qed.

Lemma writes_push b : writes (push b) [b].
Proof. by intros out. Qed.

Lemma writes_extend bs : writes (extend_from_slice bs) bs.
Proof. by intros out. Qed.

Lemma writes_bind m m' bs bs' :
  writes m bs → writes m' bs' → writes (do! m in m') (bs ++ bs').
Proof. intros Hm Hm' out. unfold bind. by rewrite Hm, Hm', app_assoc. Qed.

Lemma writes_tagged b bs : writes (tagged b bs) (b :: bs).
Proof. apply (writes_bind _ _ [b]); [apply writes_push | apply writes_extend]. Qed.

Lemma writes_unwrap w n (k : Z → W unit) bs :
  (n < 2 ^ w)%N → writes (k (Z.of_N n)) bs →
  writes (let! x := try_from_unwrap w n in k x) bs.
Proof.
  intros Hn Hk out. unfold try_from_unwrap, bind.
  destruct (N.ltb_spec n (2 ^ w)); [apply Hk | lia].
Qed.

(** A header family: consecutive markers after the 8-bit one. *)
Definition family (m8 m16 : byte) : Prop :=
  m16 = zb (bz m8 + 1) ∧ zb (bz m16 + 1) = zb (bz m8 + 2).

Lemma pack_header_ok size tiny m8 m16 label :
  size32 size →
  ∃ h, writes (pack_header size tiny m8 m16 label) h ∧
    (family m8 m16 → header tiny m8 size h).
Proof.
  intros Hs. unfold size32 in Hs. unfold pack_header.
  destruct (N.ltb_spec size 16).
  { eexists. split; [apply (writes_unwrap 8); [lia | apply writes_push] | by constructor]. }
  destruct (N.ltb_spec size 256).
  { eexists. split; [apply (writes_unwrap 8); [lia | apply writes_tagged]|].
    intros _. by apply header_sized, sized_8. }
  destruct (N.ltb_spec size 65536).
  { eexists. split; [apply (writes_unwrap 16); [lia | apply writes_tagged]|].
    intros [-> _]. by apply header_sized, sized_16. }
  destruct (N.ltb_spec size (2 ^ 32)); [|lia].
  eexists. split; [apply writes_tagged|]. intros [_ ->]. by apply header_sized, sized_32.
Qed.

Lemma pack_header_writes size tiny m8 m16 label :
  family m8 m16 → size32 size →
  ∃ h, writes (pack_header size tiny m8 m16 label) h ∧ header tiny m8 size h.
Proof.
  intros Hf Hs. destruct (pack_header_ok size tiny m8 m16 label Hs) as (h & ? & ?). eauto.
Qed.

Lemma pack_header_too_large size tiny m8 m16 label out :
  (2 ^ 32 ≤ size)%N →
  pack_header size tiny m8 m16 label out =
  (Err (BoltError.Protocol (TooLargeToPack label size)), out).
Proof.
  intros Hs. unfold pack_header.
  destruct (N.ltb_spec size 16); [lia|]. destruct (N.ltb_spec size 256); [lia|].
  destruct (N.ltb_spec size 65536); [lia|]. by destruct (N.ltb_spec size (2 ^ 32)); [lia|].
Qed.

Lemma within_spec lo hi i :
  BoolSpec (lo ≤ i ≤ hi) (i < lo ∨ hi < i) (within lo hi i).
Proof.
  unfold within. destruct (Z.leb_spec lo i), (Z.leb_spec i hi); constructor; lia.
Qed.

Lemma pack_int_writes i :
  in_signed 64 i → ∃ bs, writes (pack_int i) bs ∧ encodes (BoltValue.Int i) bs.
Proof.
  intros Hi. unfold pack_int, in_signed in *.
  destruct (within_spec (-16) 127 i).
  { eexists. split; [apply writes_push | apply enc_tiny_int; lia]. }
  destruct (within_spec (-128) 127 i).
  { eexists. split; [apply writes_tagged | apply enc_int_8; unfold in_signed; lia]. }
  destruct (within_spec (-32768) 32767 i).
  { eexists. split; [apply writes_tagged | apply enc_int_16; unfold in_signed; lia]. }
  destruct (within_spec (-2147483648) 2147483647 i).
  { eexists. split; [apply writes_tagged | apply enc_int_32; unfold in_signed; lia]. }
  eexists. split; [apply writes_tagged | by apply enc_int_64].
Qed.

Lemma pack_string_writes s :
  valid_string s → size32 (len (as_bytes s)) →
  ∃ bs, writes (pack_string s) bs ∧ encodes (BoltValue.String s) bs.
Proof.
  intros Hs Hl.
  destruct (pack_header_writes _ TINY_STRING STRING_8 STRING_16 "string" (conj eq_refl eq_refl) Hl)
    as (h & Hw & Hh).
  eexists. split; [apply writes_bind; [exact Hw | apply writes_extend] | by constructor].
Qed.

Lemma pack_bytes_writes b :
  size32 (len b) → ∃ bs, writes (pack_bytes b) bs ∧ encodes (BoltValue.Bytes b) bs.
Proof.
  intros Hl. unfold size32 in Hl. unfold pack_bytes.
  destruct (N.ltb_spec (len b) 256); [|destruct (N.ltb_spec (len b) 65536)].
  all: eexists; (split; [apply writes_bind; [apply writes_tagged | apply writes_extend]|]).
  all: constructor.
  - by apply (sized_8 BYTES_8).
  - by apply (sized_16 BYTES_8).
  - by apply (sized_32 BYTES_8).
Qed.

Section codec.
Context `{!HashIter}.

(** The packing of [v] is a word of the grammar for [v]. *)
Definition packs_to (v : BoltValue) : Prop := ∃ bs, writes (pack v) bs ∧ encodes v bs.

Lemma for_each_pack_writes vs :
  Forall packs_to vs → ∃ bs, writes (for_each pack vs) bs ∧ encodes_items vs bs.
Proof.
  induction 1 as [|v vs (b1 & Hw1 & He1) _ (b2 & Hw2 & He2)].
  - exists []. split; [|constructor]. intros out. by rewrite app_nil_r.
  - exists (b1 ++ b2). split; [by apply writes_bind | by constructor].
Qed.

Lemma for_each_entry_writes kvs :
  Forall (λ kv, valid_string kv.1 ∧ size32 (len (as_bytes kv.1)) ∧ packs_to kv.2) kvs →
  ∃ bs, writes (for_each pack_entry (prod_map id pack <$> kvs)) bs ∧ encodes_entries kvs bs.
Proof.
  induction 1 as [|[k v] kvs (Hk & Hl & vb & Hwv & Hev) _ (b2 & Hw2 & He2)].
  - exists []. split; [|constructor]. intros out. by rewrite app_nil_r.
  - destruct (pack_string_writes k Hk Hl) as (kb & Hwk & Hek).
    exists (kb ++ vb ++ b2). split; [|by constructor]. rewrite app_assoc.
    apply writes_bind; [by apply writes_bind | done].
Qed.

Lemma pack_entries_writes m :
  map_Forall (λ k v, valid_string k ∧ size32 (len (as_bytes k)) ∧ packs_to v) m →
  ∃ kvs bs, writes (for_each pack_entry (hash_iter (pack <$> m))) bs ∧
    encodes_entries kvs bs ∧ len kvs = N.of_nat (size m) ∧ collect kvs = m.
Proof.
  intros Hm. destruct (hash_iter_fmap pack m) as (kvs & Hp & ->).
  destruct (for_each_entry_writes kvs) as (bs & ? & ?).
  { rewrite Hp. apply map_Forall_to_list in Hm. eapply Forall_impl; [exact Hm|]. by intros []. }
  exists kvs, bs. split_and!; [done|done| |by apply collect_permutation].
  unfold len. by rewrite Hp, length_map_to_list.
Qed.

Lemma pack_encodes v : wf_value v → packable v → packs_to v.
Proof.
  induction v as [|b|i|bits|s|b|l IH|m IH|sg l IH] using value_ind; intros Hw Hp.
  - eexists. split; [apply writes_push | constructor].
  - destruct b; (eexists; split; [apply writes_push | constructor]).
  - inversion Hw. by apply pack_int_writes.
  - inversion Hw. eexists. split; [apply writes_tagged | by constructor].
  - inversion Hw. inversion Hp. by apply pack_string_writes.
  - inversion Hp. by apply pack_bytes_writes.
  - apply wf_value_List in Hw. apply packable_List_inv in Hp as [Hs Hp].
    destruct (pack_header_writes (len l) TINY_LIST LIST_8 LIST_16 "list") as (h & ? & ?);
      [by split | done |].
    destruct (for_each_pack_writes l) as (bs & ? & ?); [rewrite !Forall_forall in *; by auto|].
    exists (h ++ bs). split; [by apply writes_bind | by constructor].
  - apply wf_value_Map in Hw. apply packable_Map_inv in Hp as [Hs Hp].
    destruct (pack_header_writes (N.of_nat (size m)) TINY_MAP MAP_8 MAP_16 "map")
      as (h & ? & Hh); [by split | done |].
    destruct (pack_entries_writes m) as (kvs & bs & ? & ? & Hlen & <-).
    { intros k v Hkv. destruct (Hw k v Hkv), (Hp k v Hkv). split_and!; [done..|]. by eapply IH. }
    exists (h ++ bs). split; [by apply writes_bind|]. constructor; [by rewrite Hlen | done].
  - apply wf_value_Structure in Hw. apply packable_Structure_inv in Hp as [Hs Hp].
    destruct (pack_header_writes (len l) TINY_STRUCT STRUCT_8 STRUCT_16 "struct")
      as (h & ? & ?); [by split | done |].
    destruct (for_each_pack_writes l) as (bs & ? & ?); [rewrite !Forall_forall in *; by auto|].
    exists (h ++ sg :: bs). split; [|by constructor].
    apply writes_bind; [done|]. apply (writes_bind _ _ [sg]); [apply writes_push | done].
Qed.

(** ** Failures of the writer *)

Lemma appends_ok m bs : writes m bs → append_or_too_large m.
Proof. intros Hm out. exists bs. rewrite Hm. auto. Qed.

Lemma appends_bind m m' :
  append_or_too_large m → append_or_too_large m' → append_or_too_large (do! m in m').
Proof.
  intros Hm Hm' out. destruct (Hm out) as (bs & Hs & Ho). unfold bind.
  destruct (m out) as [o out']. cbn in Hs, Ho. subst out'.
  destruct Ho as [-> | (label & n & -> & Hn)]; [|exists bs; cbn; eauto 8].
  destruct (Hm' (out ++ bs)) as (bs' & Hs' & Ho'). exists (bs ++ bs').
  by rewrite app_assoc.
Qed.

Lemma appends_for_each {A} (f : A → W unit) l :
  Forall (λ a, append_or_too_large (f a)) l → append_or_too_large (for_each f l).
Proof.
  induction 1; [|by apply appends_bind].
  apply (appends_ok _ []). intros out. by rewrite app_nil_r.
Qed.

Lemma appends_header size tiny m8 m16 label :
  append_or_too_large (pack_header size tiny m8 m16 label).
Proof.
  destruct (decide (size < 2 ^ 32)%N) as [Hs|Hs].
  - destruct (pack_header_ok size tiny m8 m16 label Hs) as (h & Hw & _). by eapply appends_ok.
  - intros out. rewrite pack_header_too_large by lia. exists []. rewrite app_nil_r.
    split; [done|]. right. exists label, size. split; [done | lia].
Qed.

Lemma appends_string s : append_or_too_large (pack_string s).
Proof. apply appends_bind; [apply appends_header | eapply appends_ok, writes_extend]. Qed.

Lemma appends_bytes b : append_or_too_large (pack_bytes b).
Proof.
  apply appends_bind; [|eapply appends_ok, writes_extend].
  repeat case_match; eapply appends_ok, writes_tagged.
Qed.

Lemma appends_int i : append_or_too_large (pack_int i).
Proof.
  unfold pack_int. repeat case_match; eapply appends_ok; first [apply writes_push | apply writes_tagged].
Qed.

Lemma appends_pack v : append_or_too_large (pack v).
Proof.
  induction v as [|b|i|bits|s|b|l IH|m IH|sg l IH] using value_ind.
  - eapply appends_ok, writes_push.
  - destruct b; eapply appends_ok, writes_push.
  - apply appends_int.
  - eapply appends_ok, writes_tagged.
  - apply appends_string.
  - apply appends_bytes.
  - apply appends_bind; [apply appends_header | by apply appends_for_each].
  - change (append_or_too_large (pack_map m)). unfold pack_map.
    apply appends_bind; [apply appends_header|]. apply appends_for_each.
    destruct (hash_iter_fmap pack m) as (kvs & Hp & ->). apply Forall_fmap. rewrite Hp.
    apply map_Forall_to_list in IH. eapply Forall_impl; [exact IH|]. intros [k v] Hv.
    apply appends_bind; [apply appends_string | exact Hv].
  - apply appends_bind; [apply appends_header|].
    apply appends_bind; [eapply appends_ok, writes_push | by apply appends_for_each].
Qed.

End codec.

(** ** The grammar only stands for values of the Rust types *)

Lemma encodes_wf :
  (∀ v bs, encodes v bs → wf_value v) ∧
  (∀ vs bs, encodes_items vs bs → Forall wf_value vs) ∧
  (∀ kvs bs, encodes_entries kvs bs → Forall (λ kv, valid_string kv.1 ∧ wf_value kv.2) kvs).
Proof.
  apply encodes_mutind; intros; try by constructor.
  1-4: constructor; unfold in_signed in *; lia.
  - constructor. by apply (collect_forall (λ k v, valid_string k ∧ wf_value v)).
  - constructor; [|done]. split; [|done]. by inversion H0.
Qed.

(** One level of nesting per byte: [n] lists around a null. *)
Fixpoint nest (n : nat) : BoltValue :=
  match n with O => BoltValue.Null | S n' => BoltValue.List [nest n'] end.

Lemma encodes_nest n : encodes (nest n) (replicate n x91 ++ [NULL]).
Proof.
  induction n as [|n IH]; [constructor|]. cbn [nest replicate app].
  apply (enc_list [nest n] [x91]); [by apply (header_tiny TINY_LIST LIST_8 1)|].
  rewrite <- (app_nil_r (_ ++ _)). constructor; [done | constructor].
Qed.

Fixpoint value_depth (v : BoltValue) : nat :=
  match v with
  | BoltValue.List l | BoltValue.Structure _ l => S (max_list_with value_depth l)
  | BoltValue.Map m => S (map_fold (λ _ v n, value_depth v `max` n)%nat O m)
  | _ => O
  end.

Lemma value_depth_nest n : value_depth (nest n) = n.
Proof. induction n as [|n IH]; [done|]. cbn. rewrite IH. lia. Qed.

(** ** Properties *)

(** C2: refinement. From a cursor standing before the bytes [bs], [unpack]
    succeeds exactly on the inputs the grammar allows: it returns [v] having
    consumed [eb] if and only if [eb] is a prefix of the input that encodes
    [v], and nothing but the position changes. *)
Theorem unpack_refines_grammar r bs v r' :
  at_bytes r bs →
  unpack r = (Ok v, r') ↔
  ∃ eb rest, bs = eb ++ rest ∧ encodes v eb ∧ r' = advance r eb.
Proof.
  intros Hr. split.
  - intros H. pose proof (unpack_sound r bs Hr) as Hs. unfold safely in Hs. rewrite H in Hs.
    destruct Hs as (eb & rest & ? & ? & ?). eauto.
  - intros (eb & rest & -> & He & ->). by apply (unpack_complete _ _ _ rest).
Qed.

Theorem unpack_refines_grammar_witness :
  at_bytes (new_reader [x91; x01; xff]) [x91; x01; xff] ∧
  (unpack (new_reader [x91; x01; xff]) =
     (Ok (BoltValue.List [BoltValue.Int 1]), mk_reader [x91; x01; xff] 2) ↔
   ∃ eb rest, [x91; x01; xff] = eb ++ rest ∧
     encodes (BoltValue.List [BoltValue.Int 1]) eb ∧
     mk_reader [x91; x01; xff] 2 = advance (new_reader [x91; x01; xff]) eb).
Proof.
  assert (at_bytes (new_reader [x91; x01; xff]) [x91; x01; xff]) as H
    by (apply at_bytes_new; vm_compute; discriminate).
  split; [exact H|]. apply (unpack_refines_grammar _ _ _ _ H).
Defined.

(** C3: totality and panic freedom. Whatever the bytes, from any position
    within the buffer, [unpack] returns a value or an error: it never panics
    (no index out of range, failed unwrap or underflow) and never runs out of
    the fuel the remaining bytes give it, so the Rust recursion terminates. *)
Theorem unpack_total r :
  (len (buf r) ≤ USIZE_MAX)%N → (pos r ≤ len (buf r))%N →
  ∃ r', (∃ v, unpack r = (Ok v, r')) ∨ (∃ e, unpack r = (Err e, r')).
Proof.
  intros Hl Hp. pose proof (unpack_sound r _ (conj Hl (conj Hp eq_refl))) as Hs.
  unfold safely in Hs. destruct (unpack r) as [[v|e| | |] r']; try done; eauto.
Qed.

Theorem unpack_total_witness :
  ∃ r', (∃ v, unpack (new_reader [LIST_32; xff; xff; xff; xff; x01]) = (Ok v, r')) ∨
        (∃ e, unpack (new_reader [LIST_32; xff; xff; xff; xff; x01]) = (Err e, r')).
Proof. apply unpack_total; vm_compute; discriminate. Defined.

(** C1: round trip. A well-formed value whose sizes are all of 32 bits is
    packed without error, after any output, in any iteration order of its maps;
    and reading the packed bytes back, inside any buffer, gives the same value
    and leaves the cursor right after them. *)
Theorem pack_unpack_roundtrip `{!HashIter} v :
  wf_value v → packable v →
  ∃ bs, (∀ out, pack v out = (Ok tt, out ++ bs)) ∧
    ∀ before after, (len (before ++ bs ++ after) ≤ USIZE_MAX)%N →
      unpack (mk_reader (before ++ bs ++ after) (len before)) =
      (Ok v, mk_reader (before ++ bs ++ after) (len before + len bs)).
Proof.
  intros Hw Hp. destruct (pack_encodes v Hw Hp) as (bs & Hwr & He).
  exists bs. split; [exact Hwr|]. intros before after Hl.
  apply (unpack_complete (mk_reader (before ++ bs ++ after) (len before)) v bs after He). split; [done|]. cbn. split.
  - rewrite len_app. lia.
  - unfold len. by rewrite Nat2N.id, skipn_app, skipn_all, Nat.sub_diag.
Qed.

(** A value with a map, a list, a structure and scalars. *)
Definition sample : BoltValue :=
  BoltValue.Structure sig.NODE
    [BoltValue.Int (-70000); BoltValue.List [BoltValue.String "a"; BoltValue.Null];
     BoltValue.Map {["k" := BoltValue.Float 0; "l" := BoltValue.Bytes [x00; xff]]}].

Lemma sample_wf : wf_value sample.
Proof.
  constructor. apply Forall_cons_2; [by constructor|].
  apply Forall_cons_2; [by repeat constructor|].
  apply Forall_cons_2; [constructor | constructor].
  apply wf_map_insert; [by vm_compute | by constructor |].
  apply wf_map_insert; [by vm_compute | by constructor | apply wf_map_empty].
Qed.

Lemma sample_packable : packable sample.
Proof.
  constructor; [by vm_compute|]. apply Forall_cons_2; [by constructor|].
  apply Forall_cons_2; [by repeat constructor|].
  apply Forall_cons_2; [constructor; [by vm_compute|] | constructor].
  apply map_Forall_insert_2; [split; [by vm_compute | constructor]|].
  apply map_Forall_insert_2; [split; [by vm_compute | by constructor] | apply map_Forall_empty].
Qed.

Theorem pack_unpack_roundtrip_witness :
  ∃ bs, (∀ out, @pack listing_order sample out = (Ok tt, out ++ bs)) ∧
    ∀ before after, (len (before ++ bs ++ after) ≤ USIZE_MAX)%N →
      unpack (mk_reader (before ++ bs ++ after) (len before)) =
      (Ok sample, mk_reader (before ++ bs ++ after) (len before + len bs)).
Proof.
  apply (@pack_unpack_roundtrip listing_order); [exact sample_wf | exact sample_packable].
Defined.

(** C4: type invariant. Whatever [unpack] returns is a value of the Rust type:
    integers within 64 bits, strings and map keys valid UTF-8. *)
Theorem unpack_wf r v r' :
  (len (buf r) ≤ USIZE_MAX)%N → (pos r ≤ len (buf r))%N → unpack r = (Ok v, r') → wf_value v.
Proof.
  intros Hl Hp Hu. pose proof (unpack_sound r _ (conj Hl (conj Hp eq_refl))) as Hs.
  unfold safely in Hs. rewrite Hu in Hs. destruct Hs as (eb & _ & _ & _ & He).
  by eapply encodes_wf.
Qed.

Theorem unpack_wf_witness : wf_value (BoltValue.String "hi").
Proof.
  apply (unpack_wf (new_reader [x82; x68; x69]) _ (mk_reader [x82; x68; x69] 3));
    [vm_compute; discriminate | vm_compute; discriminate | vm_compute; reflexivity].
Defined.

(** Unambiguity. The encoding of a value is never a proper prefix of
    another encoding, so concatenated values are split in one way only. *)
Lemma encodings_prefix_free v1 v2 b1 b2 rest1 rest2 :
  (len (b1 ++ rest1) ≤ USIZE_MAX)%N →
  encodes v1 b1 → encodes v2 b2 → b1 ++ rest1 = b2 ++ rest2 →
  v1 = v2 ∧ b1 = b2 ∧ rest1 = rest2.
Proof.
  intros Hl He1 He2 Heq. pose proof (at_bytes_new _ Hl) as Hr.
  pose proof (unpack_complete _ _ _ _ He1 Hr) as H1. rewrite Heq in Hr, H1.
  rewrite (unpack_complete _ _ _ _ He2 Hr) in H1. unfold advance, set_pos in H1. cbn in H1.
  injection H1 as <- Hlen. apply app_inj_1 in Heq as [-> ->]; [done|]. unfold len in Hlen. lia.
Qed.

(** C5: errors of the writer. [pack] of any value, well-formed or not, only
    appends to the output, and either succeeds or fails with the "too large to
    pack" error of a size beyond 32 bits; it never panics. *)
Theorem pack_ok_or_too_large `{!HashIter} v out :
  ∃ bs, (pack v out).2 = out ++ bs ∧
    ((pack v out).1 = Ok tt ∨
     ∃ label n, (pack v out).1 = Err (BoltError.Protocol (TooLargeToPack label n)) ∧
       (2 ^ 32 ≤ n)%N).
Proof. apply appends_pack. Qed.

(** Integers are packed in the narrowest form the grammar has for them. *)
Lemma pack_int_narrowest i bs bs' :
  in_signed 64 i → (∀ out, pack_int i out = (Ok tt, out ++ bs)) →
  encodes (BoltValue.Int i) bs' → (length bs ≤ length bs')%nat.
Proof.
  intros Hi Hw He.
  assert (pack_int i [] = (Ok tt, bs)) as H by apply (Hw []). unfold pack_int in H.
  destruct (within_spec (-16) 127 i);
    [|destruct (within_spec (-128) 127 i);
      [|destruct (within_spec (-32768) 32767 i);
        [|destruct (within_spec (-2147483648) 2147483647 i)]]];
    cbn in H; injection H as <-; inversion He; subst; unfold in_signed in *; cbn; lia.
Qed.

(** C6: the unguarded cast. A byte string of 2^32 bytes or more is packed
    without error under a truncated length: the reader takes the first
    [len b mod 2^32] bytes for the value and leaves the rest in the stream. *)
Theorem pack_bytes_truncates `{!HashIter} b out :
  (2 ^ 32 ≤ len b)%N → (len b + 5 ≤ USIZE_MAX)%N →
  let n := (len b `mod` 2 ^ 32)%N in
  let bs := BYTES_32 :: be_bytes 4 (Z.of_N n) ++ b in
  pack (BoltValue.Bytes b) out = (Ok tt, out ++ bs) ∧
  unpack (new_reader bs) =
    (Ok (BoltValue.Bytes (firstn (N.to_nat n) b)), mk_reader bs (5 + n)) ∧
  firstn (N.to_nat n) b ≠ b.
Proof.
  intros Hl Hmax n bs.
  assert (n < 2 ^ 32)%N as Hn by (by apply N.mod_lt).
  assert (be_bytes 4 (Z.of_N (len b)) = be_bytes 4 (Z.of_N n)) as Hbe.
  { unfold n. rewrite N2Z.inj_mod. symmetry. by apply (be_bytes_mod 4 4). }
  assert (len (firstn (N.to_nat n) b) = n) as Hlen.
  { unfold len in *. rewrite length_firstn. lia. }
  split_and!.
  - unfold pack, pack_bytes. destruct (N.ltb_spec (len b) 256); [lia|].
    destruct (N.ltb_spec (len b) 65536); [lia|]. rewrite Hbe. unfold bind, tagged, push,
      extend_from_slice, modify, bs. cbn -[be_bytes]. by rewrite <- !app_assoc.
  - set (h := BYTES_32 :: be_bytes 4 (Z.of_N n)).
    assert (bs = (h ++ firstn (N.to_nat n) b) ++ skipn (N.to_nat n) b) as Hbs.
    { by rewrite <- app_assoc, firstn_skipn. }
    rewrite (unpack_complete _ (BoltValue.Bytes (firstn (N.to_nat n) b))
      (h ++ firstn (N.to_nat n) b) (skipn (N.to_nat n) b)).
    + unfold advance, set_pos. cbn [new_reader buf pos]. do 2 f_equal.
      rewrite len_app, Hlen. unfold h, len. cbn [length]. rewrite length_be_bytes. lia.
    + constructor. rewrite Hlen. by apply (sized_32 BYTES_8).
    + rewrite <- Hbs. apply at_bytes_new. unfold bs, len in *. cbn [length].
      rewrite length_app, length_be_bytes. lia.
  - intros Heq. rewrite Heq in Hlen. lia.
Qed.

Lemma len_replicate {A} n (x : A) : len (replicate (N.to_nat n) x) = n.
Proof. unfold len. by rewrite length_replicate, N2Nat.id. Qed.

Theorem pack_bytes_truncates_witness :
  ∃ b, (2 ^ 32 ≤ len b)%N ∧ ∃ n, firstn (N.to_nat n) b ≠ b ∧
    unpack (new_reader (BYTES_32 :: be_bytes 4 (Z.of_N n) ++ b)) =
    (Ok (BoltValue.Bytes (firstn (N.to_nat n) b)),
     mk_reader (BYTES_32 :: be_bytes 4 (Z.of_N n) ++ b) (5 + n)).
Proof.
  pose proof (len_replicate (2 ^ 32 + 1) x00) as Hlen.
  set (b := replicate (N.to_nat (2 ^ 32 + 1)) x00) in Hlen. clearbody b.
  exists b. split; [rewrite Hlen; vm_compute; discriminate|].
  destruct (@pack_bytes_truncates listing_order b []) as (_ & H1 & H2);
    [rewrite Hlen; vm_compute; discriminate | rewrite Hlen; vm_compute; discriminate |].
  eexists. split; [exact H2 | exact H1].
Defined.

(** Nesting is bounded only by the input. [n] bytes [0x91] and a null are
    read as lists nested [n] deep, one recursive call of [unpack] per byte: a
    64 MiB message makes the decoder recurse tens of millions of levels. *)
Lemma unpack_nesting n :
  (N.of_nat (S n) ≤ USIZE_MAX)%N →
  ∃ v, unpack (new_reader (replicate n x91 ++ [NULL])) =
         (Ok v, mk_reader (replicate n x91 ++ [NULL]) (N.of_nat (S n))) ∧
       value_depth v = n.
Proof.
  intros Hn. exists (nest n). split; [|apply value_depth_nest].
  assert (len (replicate n x91 ++ [NULL]) = N.of_nat (S n)) as Hlen.
  { unfold len. rewrite length_app, length_replicate. cbn. lia. }
  rewrite (unpack_complete _ (nest n) (replicate n x91 ++ [NULL]) []).
  - unfold advance, set_pos. cbn [new_reader buf pos]. by rewrite Hlen.
  - apply encodes_nest.
  - rewrite app_nil_r. apply at_bytes_new. by rewrite Hlen.
Qed.

Theorem unpack_nesting_witness :
  ∃ v, unpack (new_reader (replicate 3 x91 ++ [NULL])) =
         (Ok v, mk_reader (replicate 3 x91 ++ [NULL]) 4) ∧ value_depth v = 3%nat.
Proof. apply (unpack_nesting 3). vm_compute. discriminate. Defined.
