(* ===== verification/Handshake.v ===== *)
(** * Version negotiation ([handshake.rs]) *)

From S2P Require Import Prelude.

(** The Bolt magic preamble [0x6060B017]. *)
Definition MAGIC : bytes := [x60; x60; xb0; x17].

Record Version := mk_version { major : byte; minor : byte }.

(** [Version::new] *)
Definition new_version (major minor : byte) : Version := mk_version major minor.

#[export] Instance Version_eq_dec : EqDecision Version.
Proof. solve_decision. Defined.

Definition encode_range (v : Version) (range : byte) : bytes := [x00; range; minor v; major v].

(** [Version::decode] of a four-byte array. *)
Definition decode_version (b0 b1 b2 b3 : byte) : Version := new_version b3 b2.

Definition is_zero (v : Version) : bool := (bz (major v) =? 0) && (bz (minor v) =? 0).

(** [Display]: [major.minor] in decimal. *)
Definition version_to_string (v : Version) : string :=
  pretty (Byte.to_N (major v)) +:+ "." +:+ pretty (Byte.to_N (minor v)).

Definition MAX : Version := new_version x05 x08.
Definition MIN : Version := new_version x05 x02.
Definition SUPPORTED_RANGE : string := "5.2-5.8".

Definition supported (v : Version) : bool :=
  (bz (major v) =? bz (major MAX)) &&
  (bz (minor MIN) <=? bz (minor v)) && (bz (minor v) <=? bz (minor MAX)).

(** [out[i..i + src.len()].copy_from_slice(src)] *)
Definition copy_at (i : nat) (src out : bytes) : bytes :=
  firstn i out ++ src ++ skipn (i + length src) out.

Definition client_hello : bytes :=
  let out := replicate 20 x00 in
  let out := copy_at 0 MAGIC out in
  let out := copy_at 4 (encode_range MAX (zb (bz (minor MAX) - bz (minor MIN)))) out in
  copy_at 8 (encode_range MIN x00) out.

(** ** What the proposals offer, by the Bolt handshake rules *)

(** The four proposals that follow the magic. *)
Definition slots (hello : bytes) : list bytes :=
  [firstn 4 (skipn 4 hello); firstn 4 (skipn 8 hello);
   firstn 4 (skipn 12 hello); firstn 4 (skipn 16 hello)].

(** A proposal [[0, range, minor, major]] offers the versions [major.m] with
    [minor - range <= m <= minor]; an all-zero proposal offers nothing. *)
Definition offers (slot : bytes) (v : Version) : Prop :=
  match slot with
  | [_; range; mi; ma] =>
      ¬ (bz mi = 0 ∧ bz ma = 0) ∧
      bz (major v) = bz ma ∧ bz mi - bz range ≤ bz (minor v) ≤ bz mi
  | _ => False
  end.

Lemma supported_spec v :
  supported v = true ↔ bz (major v) = 5 ∧ 2 ≤ bz (minor v) ≤ 8.
Proof. unfold supported. cbn. rewrite !andb_true_iff. lia. Qed.

Lemma decode_encode_range v range :
  ∃ b0 b1 b2 b3, encode_range v range = [b0; b1; b2; b3] ∧ decode_version b0 b1 b2 b3 = v.
Proof. destruct v. by exists x00, range, minor0, major0. Qed.

(** ** Properties *)

(** C34: the client accepts exactly what it offered. A version passes
    [supported] if and only if one of the four proposals of [client_hello]
    (magic first, twenty bytes) offers it. *)
Theorem hello_offers_supported v :
  firstn 4 client_hello = MAGIC ∧ length client_hello = 20%nat ∧
  (supported v = true ↔ ∃ slot, slot ∈ slots client_hello ∧ offers slot v).
Proof.
  split_and!; [done..|]. rewrite supported_spec. split.
  - intros Hv. exists [x00; x06; x08; x05]. split; [by left|]. cbn. lia.
  - intros (slot & Hs & Ho). unfold slots in Hs.
    rewrite !elem_of_cons, elem_of_nil in Hs. destruct_or! Hs; subst; cbn in Ho; try lia.
    change (bz (zb (8 - 2))) with 6 in Ho. lia.
Qed.
