(* ===== verification/Framing.v ===== *)
(** * Chunked framing ([encode] and [take_message] of [connection.rs])

    A message is sent as chunks of at most [MAX_CHUNK] bytes, each with a
    16-bit length, then a zero length. The reader walks the chunk headers in
    its buffer without copying, then gathers the body; leading zero lengths
    between messages are NOOP keep-alives. This file holds the functions on
    bytes; [Connection.v] runs them on a connection's read buffer. *)

From S2P Require Import Prelude Utf8 Value Message Error PackStream Wire Codec.

Definition MAX_CHUNK : nat := N.to_nat 65535.
Definition MAX_MESSAGE : N := 64 * 1024 * 1024.

(** ** Writing *)

(** [slice.chunks(n)], for [n > 0]; the fuel is the length. *)
Fixpoint chunks_of (fuel n : nat) (l : bytes) : list bytes :=
  match fuel, l with
  | _, [] => []
  | O, _ => []
  | S fuel', _ => firstn n l :: chunks_of fuel' n (skipn n l)
  end.

Definition chunks (n : nat) (l : bytes) : list bytes := chunks_of (length l) n l.

(** Compute into a fresh buffer, then use what was written. *)
Definition with_buffer (m : W unit) (k : bytes → W unit) : W unit := λ out,
  match m [] with
  | (Ok _, body) => k body out
  | (Err e, _) => (Err e, out)
  | (Panic, _) => (Panic, out)
  | (Suspended, _) => (Suspended, out)
  | (OutOfFuel, _) => (OutOfFuel, out)
  end.

Definition write_chunk (chunk : bytes) : W unit :=
  let! n := try_from_unwrap 16 (len chunk) in
  do! extend_from_slice (be_bytes 2 n) in
  extend_from_slice chunk.

Definition encode `{!HashIter} (req : Request) : W unit :=
  with_buffer (pack (BoltValue.Structure (req_signature req) (req_fields req))) (λ body,
    do! for_each write_chunk (chunks MAX_CHUNK body) in
    extend_from_slice [x00; x00]).

(** ** Reading *)

(** The number of leading [0x0000] pairs ([as_chunks::<2>] and [take_while]). *)
Fixpoint count_noops (rbuf : bytes) : nat :=
  match rbuf with
  | b0 :: b1 :: rest =>
      if decide (b0 = x00 ∧ b1 = x00) then S (count_noops rest) else O
  | _ => O
  end.

(** [usize::from(u16::from_be_bytes([h0, h1]))] *)
Definition chunk_size (h0 h1 : byte) : nat := Z.to_nat (from_be [h0; h1]).

(** The outcome of walking the chunk headers to the terminator. *)
Inductive Walk := Incomplete | TooLong | Complete (pos : nat) (total : N).

Fixpoint walk (fuel : nat) (rbuf : bytes) (pos : nat) (total : N) : option Walk :=
  match fuel with
  | O => None
  | S fuel' =>
      match skipn pos rbuf with
      | h0 :: h1 :: _ =>
          let size := chunk_size h0 h1 in
          if decide (size = 0%nat) then Some (Complete pos total)
          else
            let total := (total + N.of_nat size)%N in
            if (MAX_MESSAGE <? total)%N then Some TooLong
            else
              let pos := (pos + (2 + size))%nat in
              if decide (length rbuf < pos)%nat then Some Incomplete
              else walk fuel' rbuf pos total
      | _ => Some Incomplete
      end
  end.

(** The copying loop: [None] is an index or slice out of range. *)
Fixpoint gather (fuel : nat) (rbuf : bytes) (at_ pos : nat) (body : bytes) : option bytes :=
  if decide (at_ < pos)%nat then
    match fuel with
    | O => None
    | S fuel' =>
        match skipn at_ rbuf with
        | h0 :: h1 :: rest =>
            let size := chunk_size h0 h1 in
            if decide (length rest < size)%nat then None
            else gather fuel' rbuf (at_ + (2 + size)) pos (body ++ firstn size rest)
        | _ => None
        end
    end
  else Some body.

(** ** The wire form of a body *)

(** A chunk on the wire; a chunk is between 1 and 65535 bytes. *)
Definition chunk_wire (c : bytes) : bytes := be_bytes 2 (Z.of_nat (length c)) ++ c.
Definition chunks_wire (cs : list bytes) : bytes := mjoin (chunk_wire <$> cs).
Definition good_chunk (c : bytes) : Prop := (0 < len c < 65536)%N.

(** A message body as [encode] frames it. *)
Definition frame (body : bytes) : bytes :=
  chunks_wire (chunks MAX_CHUNK body) ++ [x00; x00].

Lemma chunk_size_wire n :
  (N.of_nat n < 65536)%N →
  ∃ h0 h1, be_bytes 2 (Z.of_nat n) = [h0; h1] ∧ chunk_size h0 h1 = n.
Proof.
  intros Hn. pose proof (from_be_be_bytes 2 (Z.of_nat n)) as H.
  destruct (be_bytes 2 (Z.of_nat n)) as [|h0 [|h1 [|]]] eqn:Hb; try done.
  exists h0, h1. split; [done|]. unfold chunk_size. rewrite H.
  change (256 ^ Z.of_nat 2) with 65536. rewrite Z.mod_small by lia. lia.
Qed.

Lemma chunk_size_zero : chunk_size x00 x00 = 0%nat.
Proof. done. Qed.

Lemma chunk_size_range h0 h1 : (N.of_nat (chunk_size h0 h1) < 65536)%N.
Proof.
  unfold chunk_size. pose proof (from_be_range [h0; h1]) as H.
  change (256 ^ Z.of_nat (length [h0; h1])) with 65536 in H. lia.
Qed.

Lemma chunk_size_eq_0 h0 h1 : chunk_size h0 h1 = 0%nat ↔ h0 = x00 ∧ h1 = x00.
Proof.
  unfold chunk_size, from_be. cbn [foldl]. pose proof (bz_range h0). pose proof (bz_range h1).
  split; [|by intros [-> ->]]. intros Hz.
  split; apply (inj bz); change (bz x00) with 0; lia.
Qed.

(** *** Chunking *)

Lemma chunks_of_spec n fuel l :
  (0 < n)%nat → (length l ≤ fuel)%nat →
  mjoin (chunks_of fuel n l) = l ∧
  Forall (λ c, (0 < length c ≤ n)%nat) (chunks_of fuel n l).
Proof.
  intros Hn. revert l. induction fuel as [|fuel IH]; intros [|b l] Hl;
    try (split; [done | constructor]); [cbn in Hl; lia|].
  destruct (IH (skipn n (b :: l))) as [Hj Hf].
  { rewrite length_skipn. cbn [length] in *. lia. }
  cbn [chunks_of]. split.
  - change (firstn n (b :: l) ++ mjoin (chunks_of fuel n (skipn n (b :: l))) = b :: l).
    by rewrite Hj, firstn_skipn.
  - constructor; [|done]. rewrite length_firstn. cbn [length]. lia.
Qed.

Lemma chunks_join body : mjoin (chunks MAX_CHUNK body) = body.
Proof. apply chunks_of_spec; [unfold MAX_CHUNK; lia | done]. Qed.

Lemma chunks_good body : Forall good_chunk (chunks MAX_CHUNK body).
Proof.
  eapply Forall_impl; [apply chunks_of_spec; [unfold MAX_CHUNK; lia | done]|].
  unfold good_chunk, MAX_CHUNK, len. intros c. cbn beta. lia.
Qed.

Lemma chunks_nonempty body : body ≠ [] → chunks MAX_CHUNK body ≠ [].
Proof. by destruct body. Qed.

Lemma writes_chunk c : good_chunk c → writes (write_chunk c) (chunk_wire c).
Proof.
  unfold good_chunk. intros Hc. unfold write_chunk, chunk_wire.
  apply (writes_unwrap 16 (len c)); [change (2 ^ 16)%N with 65536%N; lia|].
  unfold len. rewrite nat_N_Z. apply writes_bind; apply writes_extend.
Qed.

Lemma writes_chunks cs :
  Forall good_chunk cs → writes (for_each write_chunk cs) (chunks_wire cs).
Proof.
  induction 1 as [|c cs Hc _ IH].
  - intros out. by rewrite app_nil_r.
  - apply (writes_bind _ _ (chunk_wire c) (chunks_wire cs)); [by apply writes_chunk | exact IH].
Qed.

Lemma encode_writes `{!HashIter} req body :
  writes (pack (BoltValue.Structure (req_signature req) (req_fields req))) body →
  writes (encode req) (frame body).
Proof.
  intros Hp out. unfold encode, with_buffer. rewrite (Hp []). cbn [app].
  apply writes_bind; [apply writes_chunks, chunks_good | apply writes_extend].
Qed.

(** *** Walking the headers *)

Definition total_size (cs : list bytes) : N := len (mjoin cs).

Lemma total_size_cons c cs : total_size (c :: cs) = (len c + total_size cs)%N.
Proof. unfold total_size. change (mjoin (c :: cs)) with (c ++ mjoin cs). by rewrite len_app. Qed.

Lemma chunks_wire_cons c cs : chunks_wire (c :: cs) = chunk_wire c ++ chunks_wire cs.
Proof. done. Qed.

Lemma length_chunk_wire c : length (chunk_wire c) = (2 + length c)%nat.
Proof. unfold chunk_wire. by rewrite length_app, length_be_bytes. Qed.

Lemma skipn_app_exact {A} (l l' : list A) : skipn (length l) (l ++ l') = l'.
Proof. by rewrite skipn_app, skipn_all, Nat.sub_diag. Qed.

Lemma walk_step fuel pre c rest total :
  good_chunk c → (total + len c ≤ MAX_MESSAGE)%N →
  walk (S fuel) (pre ++ chunk_wire c ++ rest) (length pre) total =
  walk fuel (pre ++ chunk_wire c ++ rest) (length (pre ++ chunk_wire c)) (total + len c).
Proof.
  unfold good_chunk, len. intros Hc Ht. cbn [walk]. rewrite skipn_app_exact.
  destruct (chunk_size_wire (length c)) as (h0 & h1 & Hw & Hs); [lia|].
  unfold chunk_wire at 1. rewrite Hw. cbn [app]. rewrite Hs.
  rewrite decide_False by lia.
  destruct (N.ltb_spec MAX_MESSAGE (total + N.of_nat (length c))); [lia|].
  rewrite decide_False; [|rewrite !length_app, length_chunk_wire; lia].
  by rewrite length_app, length_chunk_wire.
Qed.

Lemma walk_terminator fuel pre rest total :
  walk (S fuel) (pre ++ x00 :: x00 :: rest) (length pre) total =
  Some (Complete (length pre) total).
Proof. cbn [walk]. by rewrite skipn_app_exact. Qed.

Lemma walk_chunks cs fuel pre rest total :
  Forall good_chunk cs → (length cs < fuel)%nat → (total + total_size cs ≤ MAX_MESSAGE)%N →
  walk fuel (pre ++ chunks_wire cs ++ x00 :: x00 :: rest) (length pre) total =
  Some (Complete (length pre + length (chunks_wire cs)) (total + total_size cs)).
Proof.
  intros Hcs. revert fuel pre total. induction Hcs as [|c cs Hc _ IH]; intros fuel pre total Hf Ht.
  - destruct fuel; [cbn in Hf; lia|]. cbn [chunks_wire mjoin fmap list_fmap app list_join].
    rewrite walk_terminator. do 2 f_equal; [cbn; lia|]. unfold total_size, len. cbn. lia.
  - destruct fuel; [cbn in Hf; lia|]. rewrite total_size_cons in *.
    rewrite chunks_wire_cons, <- app_assoc, walk_step by (done || lia).
    rewrite app_assoc, IH; [|cbn in Hf; lia|lia].
    rewrite !length_app. do 2 f_equal; lia.
Qed.

(** The walk ends within one step per byte of the buffer. *)
Lemma walk_total fuel rbuf pos total :
  (length rbuf - pos < fuel)%nat → is_Some (walk fuel rbuf pos total).
Proof.
  revert pos total. induction fuel as [|fuel IH]; intros pos total Hf; [lia|]. cbn [walk].
  destruct (skipn pos rbuf) as [|h0 [|h1 t]] eqn:Hs; [by eexists..|].
  apply (f_equal length) in Hs. rewrite length_skipn in Hs. cbn in Hs.
  case_decide; [by eexists|]. case_match; [by eexists|]. case_decide; [by eexists|].
  apply IH. lia.
Qed.

Lemma walk_fuel fuel fuel' rbuf pos total r :
  walk fuel rbuf pos total = Some r → (fuel ≤ fuel')%nat → walk fuel' rbuf pos total = Some r.
Proof.
  revert fuel' pos total. induction fuel as [|fuel IH]; intros fuel' pos total Hw Hf; [done|].
  destruct fuel' as [|fuel']; [lia|]. cbn [walk] in *. repeat case_match; try done.
  apply IH; [done|lia].
Qed.

Lemma skipn_two_app {A} pos (l more t : list A) a b :
  skipn pos l = a :: b :: t → skipn pos (l ++ more) = a :: b :: t ++ more.
Proof.
  intros H. assert (pos ≤ length l)%nat.
  { apply (f_equal length) in H. rewrite length_skipn in H. cbn in H. lia. }
  rewrite skipn_app, H. replace (pos - length l)%nat with 0%nat by lia. done.
Qed.

(** More bytes do not change a verdict already reached. *)
Lemma walk_app fuel rbuf more pos total r :
  walk fuel rbuf pos total = Some r → r ≠ Incomplete →
  walk fuel (rbuf ++ more) pos total = Some r.
Proof.
  intros Hw Hr. revert pos total Hw.
  induction fuel as [|fuel IH]; intros pos total Hw; [done|]. cbn [walk] in *.
  destruct (skipn pos rbuf) as [|h0 [|h1 t]] eqn:Hs; [congruence..|].
  rewrite (skipn_two_app _ _ _ _ _ _ Hs). case_decide; [done|]. case_match; [done|].
  case_decide; [congruence|]. rewrite decide_False by (rewrite length_app; lia). by apply IH.
Qed.

(** A completed walk went over well-formed chunks up to a terminator. *)
Lemma walk_sound fuel rbuf pos total p t :
  walk fuel rbuf pos total = Some (Complete p t) →
  ∃ cs rest, skipn pos rbuf = chunks_wire cs ++ x00 :: x00 :: rest ∧ Forall good_chunk cs ∧
    p = (pos + length (chunks_wire cs))%nat ∧ t = (total + total_size cs)%N ∧
    (length cs < fuel)%nat ∧ (cs ≠ [] → t ≤ MAX_MESSAGE)%N.
Proof.
  revert pos total. induction fuel as [|fuel IH]; intros pos total Hw; [done|]. cbn [walk] in Hw.
  destruct (skipn pos rbuf) as [|h0 [|h1 r]] eqn:Hs; [congruence..|].
  case_decide as Hz.
  { apply chunk_size_eq_0 in Hz as [-> ->]. injection Hw as <- <-. exists [], r.
    split_and!; [done|constructor|cbn; lia|unfold total_size, len; cbn; lia|cbn; lia|done]. }
  destruct (N.ltb_spec MAX_MESSAGE (total + N.of_nat (chunk_size h0 h1))); [done|].
  case_decide as Hl; [done|].
  assert (length r + 2 + pos = length rbuf)%nat as Hr.
  { apply (f_equal length) in Hs. rewrite length_skipn in Hs. cbn in Hs. lia. }
  destruct (IH _ _ Hw) as (cs & rest & Hcs & Hg & -> & -> & Hf & Hm).
  pose proof (chunk_size_range h0 h1) as Hrange.
  assert (length (firstn (chunk_size h0 h1) r) = chunk_size h0 h1) as Hc
    by (rewrite length_firstn; lia).
  exists (firstn (chunk_size h0 h1) r :: cs), rest.
  rewrite chunks_wire_cons, total_size_cons, length_app, length_chunk_wire, Hc.
  unfold len. rewrite Hc. split_and!; [|constructor; [unfold good_chunk, len; lia|done]|lia|lia| |].
  - rewrite Nat.add_comm, <- skipn_skipn, Hs in Hcs. cbn [skipn] in Hcs.
    rewrite <- app_assoc, <- Hcs. unfold chunk_wire. rewrite Hc, <- app_assoc.
    change (skipn (2 + chunk_size h0 h1) (h0 :: h1 :: r)) with (skipn (chunk_size h0 h1) r).
    rewrite firstn_skipn.
    unfold chunk_size. rewrite Z2Nat.id by apply from_be_range.
    pose proof (be_bytes_from_be [h0; h1]) as Hb.
    change (length [h0; h1]) with 2%nat in Hb. by rewrite Hb.
  - cbn [length]. lia.
  - intros _. destruct cs; [|specialize (Hm ltac:(done)); lia].
    unfold total_size, len. cbn. lia.
Qed.

(** *** Gathering the body *)

Lemma gather_chunks cs fuel pre rest body :
  Forall good_chunk cs → (length cs ≤ fuel)%nat →
  gather fuel (pre ++ chunks_wire cs ++ rest) (length pre)
    (length pre + length (chunks_wire cs)) body = Some (body ++ mjoin cs).
Proof.
  intros Hcs. revert fuel pre body. induction Hcs as [|c cs Hc _ IH]; intros fuel pre body Hf.
  - change (chunks_wire []) with (@nil byte). cbn [length mjoin list_join].
    rewrite Nat.add_0_r, app_nil_r. destruct fuel; cbn [gather]; by rewrite decide_False by lia.
  - destruct fuel; [cbn in Hf; lia|]. cbn [gather]. rewrite chunks_wire_cons.
    rewrite length_app, length_chunk_wire, <- app_assoc, decide_True by lia.
    rewrite skipn_app_exact. unfold good_chunk, len in Hc.
    destruct (chunk_size_wire (length c)) as (h0 & h1 & Hw & Hs); [lia|].
    unfold chunk_wire at 1. rewrite Hw. cbn [app]. rewrite Hs.
    rewrite decide_False by (rewrite length_app; lia).
    rewrite firstn_app, firstn_all, Nat.sub_diag, firstn_O, app_nil_r.
    replace (length pre + (2 + length c))%nat with (length (pre ++ chunk_wire c))
      by (rewrite length_app, length_chunk_wire; lia).
    replace (length pre + (2 + length c + length (chunks_wire cs)))%nat
      with (length (pre ++ chunk_wire c) + length (chunks_wire cs))%nat
      by (rewrite length_app, length_chunk_wire; lia).
    rewrite (app_assoc pre), IH by (cbn in Hf; lia).
    change (mjoin (c :: cs)) with (c ++ mjoin cs). by rewrite app_assoc.
Qed.

(** *** NOOPs *)

(** The buffer once its leading NOOPs are drained. *)
Definition drain_noops (rbuf : bytes) : bytes := skipn (2 * count_noops rbuf) rbuf.

Lemma drain_noops_pair rest : drain_noops (x00 :: x00 :: rest) = drain_noops rest.
Proof.
  unfold drain_noops. cbn [count_noops]. rewrite decide_True by done.
  by replace (2 * S (count_noops rest))%nat with (S (S (2 * count_noops rest))) by lia.
Qed.

Lemma drain_noops_other b0 b1 rest :
  ¬ (b0 = x00 ∧ b1 = x00) → drain_noops (b0 :: b1 :: rest) = b0 :: b1 :: rest.
Proof. intros H. unfold drain_noops. cbn [count_noops]. by rewrite decide_False. Qed.

Lemma drain_noops_app a b : drain_noops (drain_noops a ++ b) = drain_noops (a ++ b).
Proof.
  induction a as [a IH] using (induction_ltof1 _ (@length byte)). unfold ltof in IH.
  destruct a as [|b0 [|b1 a]]; [done..|].
  destruct (decide (b0 = x00 ∧ b1 = x00)) as [[-> ->]|Hb].
  - rewrite drain_noops_pair. cbn [app]. rewrite drain_noops_pair. apply IH. cbn. lia.
  - by rewrite drain_noops_other.
Qed.

Lemma drain_noops_head a b0 b1 rest :
  drain_noops a = b0 :: b1 :: rest → ¬ (b0 = x00 ∧ b1 = x00).
Proof.
  induction a as [a IH] using (induction_ltof1 _ (@length byte)). unfold ltof in IH.
  destruct a as [|c0 [|c1 a]]; [done..|].
  destruct (decide (c0 = x00 ∧ c1 = x00)) as [[-> ->]|Hb].
  - rewrite drain_noops_pair. apply IH. cbn. lia.
  - rewrite drain_noops_other by done. by intros [= <- <- _].
Qed.

Lemma drain_noops_length a : (length (drain_noops a) ≤ length a)%nat.
Proof. unfold drain_noops. rewrite length_skipn. lia. Qed.

(** *** Unique reading *)

(** The chunks of a frame, and what follows it, are determined by the bytes. *)
Lemma chunks_wire_inj cs cs' rest rest' :
  Forall good_chunk cs → Forall good_chunk cs' →
  chunks_wire cs ++ x00 :: x00 :: rest = chunks_wire cs' ++ x00 :: x00 :: rest' →
  cs = cs' ∧ rest = rest'.
Proof.
  assert (∀ c cs r r', good_chunk c →
    chunks_wire (c :: cs) ++ r ≠ x00 :: x00 :: r') as Hne.
  { unfold good_chunk, len. intros c l r r' Hc. rewrite chunks_wire_cons, <- app_assoc.
    destruct (chunk_size_wire (length c)) as (h0 & h1 & Hw & Hs); [lia|].
    unfold chunk_wire. rewrite Hw. cbn [app]. intros [= -> -> _].
    rewrite chunk_size_zero in Hs. lia. }
  intros Hcs. revert cs'. induction Hcs as [|c cs Hc Hcs IH]; intros [|c' cs'] Hcs' He.
  - by injection He as ->.
  - apply Forall_cons in Hcs' as [Hc' _]. by destruct (Hne _ _ _ _ Hc' (eq_sym He)).
  - by destruct (Hne _ _ _ _ Hc He).
  - apply Forall_cons in Hcs' as [Hc' Hcs']. rewrite !chunks_wire_cons, <- !app_assoc in He.
    unfold chunk_wire in He. rewrite <- !app_assoc in He. unfold good_chunk, len in Hc, Hc'.
    destruct (chunk_size_wire (length c)) as (h0 & h1 & Hw & Hs); [lia|].
    destruct (chunk_size_wire (length c')) as (h0' & h1' & Hw' & Hs'); [lia|].
    rewrite Hw, Hw' in He. cbn [app] in He. injection He as -> -> He. rewrite Hs in Hs'.
    apply app_inj_1 in He as [-> He]; [|done]. by destruct (IH _ Hcs' He) as [-> ->].
Qed.

(** A frame starts with no NOOP. *)
Lemma drain_noops_chunks c cs rest :
  good_chunk c → drain_noops (chunks_wire (c :: cs) ++ rest) = chunks_wire (c :: cs) ++ rest.
Proof.
  unfold good_chunk, len. intros Hc. rewrite chunks_wire_cons, <- app_assoc.
  destruct (chunk_size_wire (length c)) as (h0 & h1 & Hw & Hs); [lia|].
  unfold chunk_wire. rewrite Hw. cbn [app]. apply drain_noops_other.
  intros [-> ->]. rewrite chunk_size_zero in Hs. lia.
Qed.

Lemma drain_noops_idem a : drain_noops (drain_noops a) = drain_noops a.
Proof. pose proof (drain_noops_app a []) as H. by rewrite !app_nil_r in H. Qed.

(** A verdict means the buffer does not start with a NOOP to skip. *)
Lemma drain_noops_verdict fuel a total v b :
  walk fuel (drain_noops a) 0 total = Some v → v ≠ Incomplete →
  drain_noops (drain_noops a ++ b) = drain_noops a ++ b.
Proof.
  intros Hw Hv. destruct fuel; [done|]. cbn [walk skipn] in Hw.
  destruct (drain_noops a) as [|b0 [|b1 r]] eqn:Ha; [by injection Hw as <-..|].
  apply drain_noops_head in Ha. by apply drain_noops_other.
Qed.

Lemma length_chunks_wire cs :
  Forall good_chunk cs → (2 * length cs + length (mjoin cs) = length (chunks_wire cs))%nat.
Proof.
  induction 1 as [|c cs Hc _ IH]; [done|]. rewrite chunks_wire_cons.
  change (mjoin (c :: cs)) with (c ++ mjoin cs). rewrite !length_app, length_chunk_wire.
  cbn [length]. lia.
Qed.

Lemma drain_noops_chunks_wire cs rest :
  Forall good_chunk cs → cs ≠ [] → drain_noops (chunks_wire cs ++ rest) = chunks_wire cs ++ rest.
Proof. destruct cs; [done|]. intros [? _]%Forall_cons _. by apply drain_noops_chunks. Qed.
