(* ===== verification/Routing.v ===== *)
(** * The cluster routing table ([routing.rs]) *)

From S2P Require Import Prelude Utf8 Value Message Error.

Record RoutingTable := mk_table {
  ttl_seconds : Z;
  table_db : option string;
  routers : list string;
  readers : list string;
  writers : list string;
}.

#[export] Instance RoutingTable_eq_dec : EqDecision RoutingTable.
Proof. solve_decision. Defined.

(** [HashMap::get] and [BoltValue::as_x] in a row. *)
Definition get_as {A} (as_ : BoltValue → option A) (meta : HashMap BoltValue) (key : string)
    : option A :=
  (meta !! key) ≫= as_.

(** One entry of [servers]: its addresses go to the list of its role. *)
Definition add_server (table : RoutingTable) (server : BoltValue) : RoutingTable :=
  let role := default "" (value_get server "role" ≫= as_str) in
  let addresses := default [] (as_strings <$> value_get server "addresses") in
  let '(mk_table ttl db ro re wr) := table in
  if decide (role = "ROUTE") then mk_table ttl db (ro ++ addresses) re wr
  else if decide (role = "READ") then mk_table ttl db ro (re ++ addresses) wr
  else if decide (role = "WRITE") then mk_table ttl db ro re (wr ++ addresses)
  else table.

(** [RoutingTable::from_meta] *)
Definition from_meta (meta : HashMap BoltValue) : BoltError + RoutingTable :=
  match get_as as_map meta "rt" with
  | None => inl (BoltError.Protocol (Text "ROUTE response missing rt map"))
  | Some rt =>
      let table := mk_table (default 0 (get_as as_int rt "ttl")) (get_as as_str rt "db") [] [] [] in
      match get_as as_list rt "servers" with
      | None => inl (BoltError.Protocol (Text "ROUTE response missing servers"))
      | Some servers => inr (foldl add_server table servers)
      end
  end.

(** [RoutingTable::remove]; [retain] is [filter]. *)
Definition remove (addr : string) (t : RoutingTable) : RoutingTable :=
  mk_table (ttl_seconds t) (table_db t)
    (filter (λ a, a ≠ addr) (routers t)) (filter (λ a, a ≠ addr) (readers t))
    (filter (λ a, a ≠ addr) (writers t)).

(** ** What a server entry contributes *)

(** The list of a role. *)
Definition of_role (role : string) (t : RoutingTable) : list string :=
  if decide (role = "ROUTE") then routers t
  else if decide (role = "READ") then readers t
  else if decide (role = "WRITE") then writers t
  else [].

Definition server_role (server : BoltValue) : string :=
  default "" (value_get server "role" ≫= as_str).

Definition server_addresses (server : BoltValue) : list string :=
  default [] (as_strings <$> value_get server "addresses").

(** The server's ROUTE reply for a table: one entry per role. *)
Definition server_entry (role : string) (addresses : list string) : BoltValue :=
  BoltValue.Map (<["role" := BoltValue.String role]>
    (<["addresses" := BoltValue.List (BoltValue.String <$> addresses)]> ∅)).

Definition table_servers (t : RoutingTable) : list BoltValue :=
  [server_entry "ROUTE" (routers t); server_entry "READ" (readers t);
   server_entry "WRITE" (writers t)].

Definition table_rt (t : RoutingTable) : HashMap BoltValue :=
  let rt := <["servers" := BoltValue.List (table_servers t)]>
    (<["ttl" := BoltValue.Int (ttl_seconds t)]> ∅) in
  match table_db t with
  | Some db => <["db" := BoltValue.String db]> rt
  | None => rt
  end.

Definition to_meta (t : RoutingTable) : HashMap BoltValue := {["rt" := BoltValue.Map (table_rt t)]}.

Lemma add_server_role table server role :
  role ∈ ["ROUTE"; "READ"; "WRITE"] →
  of_role role (add_server table server) =
  of_role role table ++ (if decide (server_role server = role) then server_addresses server else []).
Proof.
  intros Hr. rewrite !elem_of_cons, elem_of_nil in Hr.
  unfold of_role, add_server, server_role, server_addresses. destruct table as [ttl db ro re wr].
  destruct Hr as [-> | [-> | [-> | []]]]; simpl; repeat case_decide; subst; try done;
    rewrite ?app_nil_r; try done; congruence.
Qed.

Lemma add_server_rest table server :
  ttl_seconds (add_server table server) = ttl_seconds table ∧
  table_db (add_server table server) = table_db table.
Proof. unfold add_server. destruct table. by repeat case_decide. Qed.

Lemma fold_servers servers table role :
  role ∈ ["ROUTE"; "READ"; "WRITE"] →
  of_role role (foldl add_server table servers) =
  of_role role table ++
  (filter (λ s, server_role s = role) servers ≫= server_addresses).
Proof.
  intros Hr. revert table. induction servers as [|s servers IH]; intros table.
  - cbn. by rewrite app_nil_r.
  - cbn [foldl]. rewrite IH, add_server_role, <- app_assoc by done. f_equal.
    rewrite filter_cons. by case_decide.
Qed.

Lemma fold_servers_rest servers table :
  ttl_seconds (foldl add_server table servers) = ttl_seconds table ∧
  table_db (foldl add_server table servers) = table_db table.
Proof.
  revert table. induction servers as [|s servers IH]; intros table; [done|].
  cbn [foldl]. destruct (IH (add_server table s)) as [-> ->]. apply add_server_rest.
Qed.

Lemma as_strings_map (l : list string) :
  as_strings (BoltValue.List (BoltValue.String <$> l)) = l.
Proof. exact (as_strings_strings l). Qed.

(** ** Properties *)

(** What [from_meta] makes of a ROUTE reply with an [rt] map and a server
    list: each role's list is the concatenation, in order, of the addresses of
    the entries with that role; entries of other roles, non-string addresses
    and entries that are no maps contribute nothing. *)
Lemma from_meta_collects meta rt servers :
  get_as as_map meta "rt" = Some rt → get_as as_list rt "servers" = Some servers →
  ∃ t, from_meta meta = inr t ∧
    ttl_seconds t = default 0 (get_as as_int rt "ttl") ∧ table_db t = get_as as_str rt "db" ∧
    ∀ role, role ∈ ["ROUTE"; "READ"; "WRITE"] →
      of_role role t = filter (λ s, server_role s = role) servers ≫= server_addresses.
Proof.
  intros Hrt Hs. unfold from_meta. rewrite Hrt, Hs. eexists. split; [done|].
  destruct (fold_servers_rest servers
    (mk_table (default 0 (get_as as_int rt "ttl")) (get_as as_str rt "db") [] [] []))
    as [-> ->].
  split_and!; [done..|]. intros role Hr. rewrite fold_servers by done.
  unfold of_role. by repeat case_decide.
Qed.

(** Reading a table back from the ROUTE reply that states it gives the
    same table. *)
Lemma from_meta_to_meta t : from_meta (to_meta t) = inr t.
Proof.
  unfold from_meta, to_meta, table_rt, table_servers, get_as. rewrite lookup_singleton_eq. cbn [mbind option_bind as_map].
  destruct t as [ttl [db|] ro re wr]; cbn [table_db ttl_seconds routers readers writers];
    repeat (rewrite lookup_insert_eq || (rewrite lookup_insert_ne by done));
    cbn [mbind option_bind as_int as_str as_list default foldl option_map];
    unfold add_server, server_entry, value_get; cbn [as_map mbind option_bind];
    repeat (rewrite lookup_insert_eq || (rewrite lookup_insert_ne by done));
    cbn [mbind option_bind as_str default fmap option_fmap option_map];
    by rewrite !as_strings_map.
Qed.

(** [remove] takes an address out of every role and changes nothing else:
    the other addresses keep their order and their repetitions, and removing
    again changes nothing. *)
Lemma remove_forgets t addr role :
  of_role role (remove addr t) = filter (λ a, a ≠ addr) (of_role role t) ∧
  (addr ∉ of_role role (remove addr t)) ∧
  ttl_seconds (remove addr t) = ttl_seconds t ∧ table_db (remove addr t) = table_db t ∧
  remove addr (remove addr t) = remove addr t.
Proof.
  assert (∀ l : list string, filter (λ a, a ≠ addr) (filter (λ a, a ≠ addr) l)
    = filter (λ a, a ≠ addr) l) as Hf.
  { intros l. by rewrite list_filter_filter_l by naive_solver. }
  assert (of_role role (remove addr t) = filter (λ a, a ≠ addr) (of_role role t)) as Hr.
  { unfold of_role. by repeat case_decide. }
  split_and!; [exact Hr| |done..|].
  - rewrite Hr, list_elem_of_filter. naive_solver.
  - unfold remove. cbn. by rewrite !Hf.
Qed.
