(* ===== verification/Transport.v ===== *)
(** * The transport under a connection

    [connection.rs] reads and writes through tokio ([AsyncRead], [AsyncWrite],
    [read_buf], [write_all], [flush], [timeout]), which is not part of the
    repository. What it does is an input of the model: a stream carries a
    script of the outcomes of its future reads and writes, and a log of the
    bytes the peer was sent. Theorems quantify over the scripts. *)

From S2P Require Import Prelude Error.

(** What one [read_buf] comes to. [RdPending]: nothing arrived before the
    future was dropped. [RdTimeout]: nothing arrived before the deadline. *)
Inductive ReadEvent :=
| RdData (bs : bytes)   (* [Ok(n)]; [Ok(0)], the end of the stream, when empty *)
| RdErr (kind : ErrorKind)
| RdTimeout
| RdPending.

(** What one [write_all], [flush] or [shutdown] comes to; an interrupted
    [write_all] has sent a prefix of its bytes. *)
Inductive WriteEvent :=
| WrDone
| WrErr (n : nat) (kind : ErrorKind)
| WrPending (n : nat).

Record Stream := mk_stream {
  incoming : list ReadEvent;
  outgoing : list WriteEvent;
  sent : bytes;
}.

(** [write_all], or [flush] and [shutdown], which send no bytes of their own.
    At the end of the script the future never completes. *)
Definition stream_write (bs : bytes) : M Stream BoltError unit := λ s,
  match outgoing s with
  | [] => (Suspended, s)
  | WrDone :: evs => (Ok tt, mk_stream (incoming s) evs (sent s ++ bs))
  | WrErr n kind :: evs =>
      (Err (BoltError.Io kind), mk_stream (incoming s) evs (sent s ++ firstn n bs))
  | WrPending n :: evs => (Suspended, mk_stream (incoming s) evs (sent s ++ firstn n bs))
  end.

(** [timeout(deadline, stream.read_buf(..))]: the inner result is the bytes
    read or the I/O error; the outer error is an elapsed deadline. *)
Definition stream_read : M Stream BoltError (ErrorKind + bytes) := λ s,
  match incoming s with
  | [] => (Suspended, s)
  | RdData bs :: evs => (Ok (inr bs), mk_stream evs (outgoing s) (sent s))
  | RdErr kind :: evs => (Ok (inl kind), mk_stream evs (outgoing s) (sent s))
  | RdTimeout :: evs => (Err (BoltError.Timeout "read"), mk_stream evs (outgoing s) (sent s))
  | RdPending :: evs => (Suspended, mk_stream evs (outgoing s) (sent s))
  end.

(** ** Reading scripts *)

(** The bytes a script of reads delivers. *)
Definition arriving (evs : list ReadEvent) : bytes :=
  evs ≫= λ e, match e with RdData bs => bs | _ => [] end.

(** Reads that lose nothing: data, and, if [interrupts] allows them, waits cut
    short by the caller or by the deadline. *)
Definition quiet (interrupts : bool) (e : ReadEvent) : Prop :=
  match e with
  | RdData bs => bs ≠ []
  | RdTimeout | RdPending => interrupts = true
  | RdErr _ => False
  end.

(** How many reads and bytes a script still holds: what bounds the loops. *)
Definition event_size (e : ReadEvent) : nat :=
  match e with RdData bs => S (length bs) | _ => 1 end.
Definition events_size (evs : list ReadEvent) : nat := sum_list_with event_size evs.

Lemma arriving_cons e evs :
  arriving (e :: evs) = match e with RdData bs => bs | _ => [] end ++ arriving evs.
Proof. done. Qed.

Lemma arriving_app evs evs' : arriving (evs ++ evs') = arriving evs ++ arriving evs'.
Proof. apply bind_app. Qed.

Lemma events_size_arriving evs : (length (arriving evs) ≤ events_size evs)%nat.
Proof.
  induction evs as [|e evs IH]; [done|]. rewrite arriving_cons, length_app.
  unfold events_size in *. cbn. destruct e; cbn; lia.
Qed.
