(* ===== verification/Connection.v ===== *)
(** * The Bolt connection ([connection.rs])

    [BoltConnection.t] is the source's struct, and every [async fn] a
    computation over it; [.await] points are the reads and writes of
    [Transport], so a dropped future is an outcome [Suspended] that keeps the
    connection's state. Loops run on a measure of the input left. Transactions
    and record streams are in [Session]. *)

From S2P Require Import Prelude Utf8 Value Message Error PackStream Wire Codec.
From S2P Require Import Handshake Framing Routing Transport.

Definition DEFAULT_READ_TIMEOUT : N := 30.

(** Basic-auth credentials. *)
Record Auth := mk_auth { principal : string; credentials : string }.

Definition auth_basic (principal credentials : string) : Auth := mk_auth principal credentials.

(** Tabular result of a query. *)
Record QueryResult := mk_result {
  columns : list string;
  records : list (list BoltValue);
}.

(** [QueryResult::rows_as_maps] *)
Definition rows_as_maps (r : QueryResult) : list (HashMap BoltValue) :=
  (λ row, collect (zip (columns r) row)) <$> records r.

(** [TxOptions] *)
Record TxOptions := mk_options {
  opt_db : option string;
  opt_read_only : bool;
  opt_timeout_ms : option Z;
  opt_bookmarks : list string;
  opt_metadata : HashMap BoltValue;
}.

Definition default_options : TxOptions := mk_options None false None [] ∅.

(** [TxOptions::into_meta] *)
Definition into_meta (o : TxOptions) : HashMap BoltValue :=
  let meta : HashMap BoltValue := ∅ in
  let meta := match opt_db o with
              | Some db => <["db" := BoltValue.String db]> meta
              | None => meta
              end in
  let meta := if opt_read_only o then <["mode" := BoltValue.String "r"]> meta else meta in
  let meta := match opt_timeout_ms o with
              | Some ms => <["tx_timeout" := BoltValue.Int ms]> meta
              | None => meta
              end in
  let meta := if decide (opt_bookmarks o = []) then meta
              else <["bookmarks" := BoltValue.List (BoltValue.String <$> opt_bookmarks o)]> meta in
  if decide (opt_metadata o = ∅) then meta
  else <["tx_metadata" := BoltValue.Map (opt_metadata o)]> meta.

(** Read an optional string entry from a metadata map. *)
Definition meta_str (meta : HashMap BoltValue) (key : string) : option string :=
  get_as as_str meta key.

Definition extract_columns (meta : HashMap BoltValue) : list string :=
  default [] (as_strings <$> meta !! "fields").

Definition validate_batch (batch : Z) : BoltError + unit :=
  if (batch =? 0) || (batch <? -1) then inl (BoltError.Protocol (InvalidBatch batch))
  else inr tt.

(** Require a SUCCESS reply, returning its metadata. *)
Definition expect_success (response : Response) (ctx : string) : BoltError + HashMap BoltValue :=
  match response with
  | Response.Success meta => inr meta
  | Response.Failure code message => inl (BoltError.Failure code message)
  | other => inl (BoltError.Protocol (UnexpectedResponse ctx other))
  end.

(** What [Reader::new(body).unpack()?] returns, or its error. *)
Definition unpack_body (body : bytes) : Outcome BoltError BoltValue :=
  (unpack (new_reader body)).1.

(** [decode] *)
Definition decode {S} (body : bytes) : M S BoltError Response := λ s,
  match unpack_body body with
  | Ok (BoltValue.Structure signature fields) =>
      match from_structure signature fields with
      | Some response => (Ok response, s)
      | None => (Err (BoltError.Protocol (UnknownSignature signature)), s)
      end
  | Ok _ => (Err (BoltError.Protocol NotAStructure), s)
  | Err e => (Err e, s)
  | Panic => (Panic, s)
  | Suspended => (Suspended, s)
  | OutOfFuel => (OutOfFuel, s)
  end.

(** [tokio::time::timeout(..).await.map_err(..)?]: a future that has not
    completed when the deadline passes is dropped. *)
Definition with_timeout {A} (ctx : string) (o : Outcome BoltError A) : Outcome BoltError A :=
  match o with
  | Suspended => Err (BoltError.Timeout ctx)
  | _ => o
  end.

Module BoltConnection.

Record t := mk {
  stream : Stream;
  version : Version;
  server_agent : option string;
  connection_id : option string;
  needs_reset : bool;
  pending : N;
  broken : bool;
  rbuf : bytes;
  read_timeout : N;
}.

Definition C (A : Type) : Type := M t BoltError A.

Definition set_stream (x : Stream) (c : t) : t :=
  let '(mk _ v sa ci nr p b r rt) := c in mk x v sa ci nr p b r rt.
Definition set_version (x : Version) (c : t) : t :=
  let '(mk s _ sa ci nr p b r rt) := c in mk s x sa ci nr p b r rt.
Definition set_server_agent (x : option string) (c : t) : t :=
  let '(mk s v _ ci nr p b r rt) := c in mk s v x ci nr p b r rt.
Definition set_connection_id (x : option string) (c : t) : t :=
  let '(mk s v sa _ nr p b r rt) := c in mk s v sa x nr p b r rt.
Definition set_needs_reset (x : bool) (c : t) : t :=
  let '(mk s v sa ci _ p b r rt) := c in mk s v sa ci x p b r rt.
Definition set_pending (x : N) (c : t) : t :=
  let '(mk s v sa ci nr _ b r rt) := c in mk s v sa ci nr x b r rt.
Definition set_broken (x : bool) (c : t) : t :=
  let '(mk s v sa ci nr p _ r rt) := c in mk s v sa ci nr p x r rt.
Definition set_rbuf (x : bytes) (c : t) : t :=
  let '(mk s v sa ci nr p b _ rt) := c in mk s v sa ci nr p b x rt.
Definition set_read_timeout (x : N) (c : t) : t :=
  let '(mk s v sa ci nr p b r _) := c in mk s v sa ci nr p b r x.

(** The bytes and reads a connection still has: no loop outlasts them. *)
Definition input_size (c : t) : nat := length (rbuf c) + events_size (incoming (stream c)).

Definition on_stream {A} (m : M Stream BoltError A) : C A := zoom stream set_stream m.

Definition new_conn (s : Stream) : t :=
  mk s (new_version x00 x00) None None false 0 false [] DEFAULT_READ_TIMEOUT.

(** ** State checks *)

Definition check_intact : C unit :=
  let! b := gets broken in
  if b : bool then throw (BoltError.Closed
    "connection is broken (an exchange was cut off mid-frame or the transport failed)")
  else ret tt.

Definition is_broken (c : t) : bool := broken c.

Definition is_ready (c : t) : bool :=
  negb (broken c) && negb (needs_reset c) && (pending c =? 0)%N.

Definition is_reusable (c : t) : bool := negb (broken c) && (pending c =? 0)%N.

(** ** Framing *)

Definition write_bytes (bs : bytes) : C unit :=
  do! modify (set_broken true) in
  do! on_stream (stream_write bs) in
  do! on_stream (stream_write []) in
  modify (set_broken false).

(** The requests a summary is owed for. *)
Definition owed (reqs : list Request) : N :=
  len (filter (λ r, req_signature r ≠ GOODBYE) reqs).

(** The frames of the requests, or the first one's error. *)
Definition encode_all `{!HashIter} (reqs : list Request) : C bytes := λ c,
  match for_each encode reqs [] with
  | (Ok _, out) => (Ok out, c)
  | (Err e, _) => (Err e, c)
  | (Panic, _) => (Panic, c)
  | (Suspended, _) => (Suspended, c)
  | (OutOfFuel, _) => (OutOfFuel, c)
  end.

Definition write_messages `{!HashIter} (reqs : list Request) : C unit :=
  do! check_intact in
  let! out := encode_all reqs in
  do! write_bytes out in
  modify (λ c, set_pending (pending c + owed reqs) c).

Definition write_message `{!HashIter} (req : Request) : C unit := write_messages [req].

(** The buffer's capacity is not modelled: [reserve] and [shrink_to] do not
    change its contents. *)
Definition fill : C unit :=
  let! read := on_stream stream_read in
  match read with
  | inr [] =>
      do! modify (set_broken true) in
      let! r := gets rbuf in
      throw (BoltError.Closed (if decide (r = []) then "connection closed by server"
                               else "connection closed mid-message"))
  | inr bs => modify (λ c, set_rbuf (rbuf c ++ bs) c)
  | inl kind =>
      do! modify (set_broken true) in
      throw (BoltError.Io kind)
  end.

(** [self.rbuf.drain(..n)] *)
Definition drain (n : nat) : C unit :=
  let! r := gets rbuf in
  if decide (length r < n)%nat then panic else modify (set_rbuf (skipn n r)).

Definition take_message : C (option bytes) :=
  let! r := gets rbuf in
  do! drain (2 * count_noops r) in
  let! r := gets rbuf in
  match walk (S (length r)) r 0 0 with
  | None => out_of_fuel
  | Some Incomplete => ret None
  | Some TooLong =>
      do! modify (set_broken true) in
      throw (BoltError.Protocol MessageTooLong)
  | Some (Complete pos total) =>
      match gather (length r) r 0 pos [] with
      | None => panic
      | Some body =>
          do! drain (pos + 2) in
          ret (Some body)
      end
  end.

(** [.inspect_err(|_| self.broken = true)] *)
Definition break_on_err {A} (m : C A) : C A :=
  let! r := attempt m in
  match r with
  | inl e => do! modify (set_broken true) in throw e
  | inr a => ret a
  end.

Definition next_body : C bytes :=
  loop_by input_size (λ _,
    let! taken := take_message in
    match taken with
    | Some body => ret (inr body)
    | None => do! fill in ret (inl tt)
    end) tt.

Definition read_message : C Response :=
  do! check_intact in
  let! body := next_body in
  let! response := break_on_err (decode body) in
  do! (if is_record response then ret tt
       else modify (λ c, set_pending (N.pred (pending c)) c)) in
  ret response.

(** ** RESET and recovery *)

Definition reset `{!HashIter} : C unit :=
  do! write_message reset_request in
  loop_by input_size (λ _,
    let! response := read_message in
    let! p := gets pending in
    if (0 <? p)%N then ret (inl tt)
    else match response with
         | Response.Success _ => do! modify (set_needs_reset false) in ret (inr tt)
         | Response.Failure code message => throw (BoltError.Failure code message)
         | other => throw (BoltError.Protocol (UnexpectedResponse "RESET" other))
         end) tt.

Definition ensure_clean `{!HashIter} : C unit :=
  do! check_intact in
  let! nr := gets needs_reset in
  let! p := gets pending in
  if nr || (0 <? p)%N then reset else ret tt.

(** The error to surface, once a RESET has been tried. *)
Definition fail_reset `{!HashIter} (code message : string) : C BoltError :=
  do! attempt reset in
  ret (BoltError.Failure code message).

(** ** Queries *)

Definition send_run_pull `{!HashIter} (query : string) (parameters extra : HashMap BoltValue)
    (n : Z) : C (list string * option Z) :=
  do! write_messages [run_request query parameters extra; pull n None] in
  let! response := read_message in
  match response with
  | Response.Success meta => ret (extract_columns meta, get_as as_int meta "qid")
  | Response.Failure code message => let! e := fail_reset code message in throw e
  | other => throw (BoltError.Protocol (UnexpectedResponse "RUN" other))
  end.

Definition run_inner `{!HashIter} (query : string) (parameters extra : HashMap BoltValue)
    : C QueryResult :=
  let! '(columns, _) := send_run_pull query parameters extra (-1) in
  loop_by input_size (λ records,
    let! response := read_message in
    match response with
    | Response.Record values => ret (inl (records ++ [values]))
    | Response.Success _ => ret (inr (mk_result columns records))
    | Response.Failure code message => let! e := fail_reset code message in throw e
    | Response.Ignored => throw (BoltError.Protocol (Text "PULL ignored by server"))
    end) [].

Definition run_with `{!HashIter} (query : string) (parameters extra : HashMap BoltValue)
    : C QueryResult :=
  do! ensure_clean in
  do! modify (set_needs_reset true) in
  let! result := attempt (run_inner query parameters extra) in
  do! (match result with inl _ => ret tt | inr _ => modify (set_needs_reset false) end) in
  from_sum result.

Definition run `{!HashIter} (query : string) (parameters : HashMap BoltValue) : C QueryResult :=
  run_with query parameters ∅.

Definition route `{!HashIter} (context : HashMap BoltValue) (db : option string) : C RoutingTable :=
  do! ensure_clean in
  do! modify (set_needs_reset true) in
  do! write_message (route_request context db) in
  let! response := read_message in
  match response with
  | Response.Success meta =>
      do! modify (set_needs_reset false) in
      from_sum (from_meta meta)
  | Response.Failure code message => let! e := fail_reset code message in throw e
  | other => throw (BoltError.Protocol (UnexpectedResponse "ROUTE" other))
  end.

(** [close(self)]: GOODBYE unless broken, then the socket's [shutdown]. *)
Definition close `{!HashIter} : C unit :=
  let! b := gets broken in
  do! (if b : bool then ret tt else write_message goodbye) in
  on_stream (stream_write []).

(** ** Establishing a session *)

Definition handshake : C unit :=
  do! write_bytes client_hello in
  do! loop_by input_size (λ _,
    let! r := gets rbuf in
    if decide (length r < 4)%nat then do! fill in ret (inl tt) else ret (inr tt)) tt in
  let! r := gets rbuf in
  match r with
  | b0 :: b1 :: b2 :: b3 :: _ =>
      do! drain 4 in
      let version := decode_version b0 b1 b2 b3 in
      if is_zero version || negb (supported version) then
        throw (BoltError.Version (version_to_string version) SUPPORTED_RANGE)
      else modify (set_version version)
  | _ => panic
  end.

(** [env!("CARGO_PKG_VERSION")], set by Cargo from [Cargo.toml]. *)
Definition CARGO_PKG_VERSION : string := "0.3.0".

Definition hello `{!HashIter} : C unit :=
  let agent := "boltwire/" +:+ CARGO_PKG_VERSION +:+ " (Rust)" in
  do! write_message (Message.hello agent) in
  let! response := read_message in
  let! meta := from_sum (expect_success response "HELLO") in
  do! modify (set_server_agent (meta_str meta "server")) in
  modify (set_connection_id (meta_str meta "connection_id")).

Definition establish_session `{!HashIter} (auth : option Auth) : C unit :=
  do! handshake in
  do! hello in
  let logon := match auth with
               | Some a => logon_basic (principal a) (credentials a)
               | None => logon_none
               end in
  do! write_message logon in
  let! response := read_message in
  do! from_sum (expect_success response "LOGON") in
  ret tt.

(** [Ok] holds the connection; on any other outcome it is dropped. *)
Definition establish `{!HashIter} (s : Stream) (auth : option Auth) : Outcome BoltError t :=
  match establish_session auth (new_conn s) with
  | (Ok _, c) => Ok c
  | (Err e, _) => Err e
  | (Panic, _) => Panic
  | (Suspended, _) => Suspended
  | (OutOfFuel, _) => OutOfFuel
  end.

(** [dial] is what [TcpStream::connect] comes to. *)
Definition connect `{!HashIter} (dial : Outcome ErrorKind Stream) (auth : option Auth)
    : Outcome BoltError t :=
  with_timeout "connect"
    match dial with
    | Ok tcp => establish tcp auth
    | Err kind => Err (BoltError.Io kind)
    | Panic => Panic
    | Suspended => Suspended
    | OutOfFuel => OutOfFuel
    end.

(** [provider] is the [TlsProvider]'s [connect]. *)
Definition connect_tls `{!HashIter} (dial : Outcome ErrorKind Stream) (server_name : string)
    (auth : option Auth) (provider : string → Stream → Outcome BoltError Stream)
    : Outcome BoltError t :=
  with_timeout "connect"
    match dial with
    | Ok tcp =>
        match provider server_name tcp with
        | Ok stream => establish stream auth
        | Err e => Err e
        | Panic => Panic
        | Suspended => Suspended
        | OutOfFuel => OutOfFuel
        end
    | Err kind => Err (BoltError.Io kind)
    | Panic => Panic
    | Suspended => Suspended
    | OutOfFuel => OutOfFuel
    end.

End BoltConnection.
