(* ===== verification/Receive.v ===== *)
(** * Reading messages off a connection

    [take_message] against the frame grammar of [Framing], and the reader
    against whatever way the transport cuts the byte stream: [receives] says
    which bytes a connection still has to read, wherever they are (buffered or
    to come), and [expects] which replies. *)

From S2P Require Import Prelude Utf8 Value Message Error PackStream Wire Codec.
From S2P Require Import Handshake Framing Routing Transport Connection.
Import BoltConnection.

(** ** What reading leaves alone *)

Definition set_input (evs : list ReadEvent) (r : bytes) (c : t) : t :=
  set_rbuf r (set_stream (mk_stream evs (outgoing (stream c)) (sent (stream c))) c).

(** Only the input (and the count of replies owed) differs. *)
Definition erase (c : t) : t := set_pending 0 (set_input [] [] c).
Definition keeps (c c' : t) : Prop := erase c = erase c'.

#[export] Instance keeps_equivalence : Equivalence keeps.
Proof. split; unfold keeps; congruence. Qed.

Lemma keeps_fields c c' :
  keeps c c' →
  version c' = version c ∧ server_agent c' = server_agent c ∧
  connection_id c' = connection_id c ∧ needs_reset c' = needs_reset c ∧
  broken c' = broken c ∧ read_timeout c' = read_timeout c ∧
  outgoing (stream c') = outgoing (stream c) ∧ sent (stream c') = sent (stream c).
Proof. destruct c as [[]], c' as [[]]. unfold keeps. cbn. by intros [= -> -> -> -> -> -> -> ->]. Qed.

Lemma keeps_input c evs r : keeps c (set_input evs r c).
Proof. by destruct c. Qed.

Lemma keeps_pending c p : keeps c (set_pending p c).
Proof. by destruct c as [[]]. Qed.

Lemma pending_set_input c evs r : pending (set_input evs r c) = pending c.
Proof. by destruct c. Qed.

Lemma pending_set_pending c p : pending (set_pending p c) = p.
Proof. by destruct c. Qed.

Lemma incoming_set_input c evs r : incoming (stream (set_input evs r c)) = evs.
Proof. by destruct c. Qed.

Lemma rbuf_set_input c evs r : rbuf (set_input evs r c) = r.
Proof. by destruct c. Qed.

Lemma set_input_twice c evs r evs' r' :
  set_input evs' r' (set_input evs r c) = set_input evs' r' c.
Proof. by destruct c as [[]]. Qed.

Lemma set_rbuf_input c r : set_rbuf r c = set_input (incoming (stream c)) r c.
Proof. by destruct c as [[]]. Qed.

Lemma set_input_id c : set_input (incoming (stream c)) (rbuf c) c = c.
Proof. by destruct c as [[]]. Qed.

#[export] Hint Rewrite pending_set_input pending_set_pending incoming_set_input rbuf_set_input
  set_input_twice : bolt.
#[export] Hint Resolve keeps_input keeps_pending : bolt.

(** ** [take_message] *)

Lemma drain_ok n c :
  (n ≤ length (rbuf c))%nat → drain n c = (Ok tt, set_rbuf (skipn n (rbuf c)) c).
Proof. intros Hn. unfold drain, gets, modify, bind. by rewrite decide_False by lia. Qed.

Lemma count_noops_length r : (2 * count_noops r ≤ length r)%nat.
Proof.
  induction r as [r IH] using (induction_ltof1 _ (@length byte)). unfold ltof in IH.
  destruct r as [|b0 [|b1 r]]; cbn [count_noops length]; [lia..|].
  case_decide; [|lia]. specialize (IH r ltac:(cbn; lia)). lia.
Qed.

(** What [take_message] finds in a buffer. *)
Inductive Taken := Nothing | Oversized | Taken_body (body rest : bytes).

Definition taken (r : bytes) (found : Taken) : Prop :=
  match found with
  | Nothing => walk (S (length r)) r 0 0 = Some Incomplete
  | Oversized => walk (S (length r)) r 0 0 = Some TooLong
  | Taken_body body rest => ∃ cs,
      r = chunks_wire cs ++ x00 :: x00 :: rest ∧ Forall good_chunk cs ∧ cs ≠ [] ∧
      (total_size cs ≤ MAX_MESSAGE)%N ∧ body = mjoin cs
  end.

(** The connection and result a finding leads to. *)
Definition take_result (c : t) (r : bytes) (found : Taken)
    : Outcome BoltError (option bytes) * t :=
  match found with
  | Nothing => (Ok None, set_rbuf r c)
  | Oversized =>
      (Err (BoltError.Protocol MessageTooLong), set_broken true (set_rbuf r c))
  | Taken_body body rest => (Ok (Some body), set_rbuf rest c)
  end.

Lemma drain_noops_nonempty r cs rest :
  Forall good_chunk cs → drain_noops r = chunks_wire cs ++ x00 :: x00 :: rest → cs ≠ [].
Proof.
  intros _ Hr ->. apply drain_noops_head in Hr. by apply Hr.
Qed.

Lemma walk_sound_0 r p n :
  walk (S (length r)) r 0 0 = Some (Complete p n) →
  ∃ cs rest, r = chunks_wire cs ++ x00 :: x00 :: rest ∧ Forall good_chunk cs ∧
    p = length (chunks_wire cs) ∧ n = total_size cs ∧ (cs ≠ [] → (n ≤ MAX_MESSAGE)%N).
Proof.
  intros (cs & rest & Hr & ? & -> & -> & _ & ?)%walk_sound. cbn [skipn] in Hr. eauto 10.
Qed.

Lemma gather_body cs rest :
  Forall good_chunk cs →
  gather (length (chunks_wire cs ++ rest)) (chunks_wire cs ++ rest) 0
    (length (chunks_wire cs)) [] = Some (mjoin cs).
Proof.
  intros Hcs. pose proof (length_chunks_wire cs Hcs).
  apply (gather_chunks cs _ [] rest []); [done|]. rewrite length_app. lia.
Qed.

Lemma take_message_after_noops c :
  take_message c =
  match walk (S (length (drain_noops (rbuf c)))) (drain_noops (rbuf c)) 0 0 with
  | None => (OutOfFuel, set_rbuf (drain_noops (rbuf c)) c)
  | Some Incomplete => (Ok None, set_rbuf (drain_noops (rbuf c)) c)
  | Some TooLong =>
      (Err (BoltError.Protocol MessageTooLong),
       set_broken true (set_rbuf (drain_noops (rbuf c)) c))
  | Some (Complete pos total) =>
      match gather (length (drain_noops (rbuf c))) (drain_noops (rbuf c)) 0 pos [] with
      | None => (Panic, set_rbuf (drain_noops (rbuf c)) c)
      | Some body =>
          bind (drain (pos + 2)) (λ _, ret (Some body)) (set_rbuf (drain_noops (rbuf c)) c)
      end
  end.
Proof.
  unfold take_message. unfold gets at 1. unfold bind at 1.
  rewrite (bind_ok _ _ _ _ _ (drain_ok (2 * count_noops (rbuf c)) c (count_noops_length _))).
  fold (drain_noops (rbuf c)). unfold gets at 1. unfold bind at 1.
  replace (rbuf (set_rbuf (drain_noops (rbuf c)) c)) with (drain_noops (rbuf c)) by by destruct c.
  destruct (walk _ _ _ _) as [[| |pos total]|]; try done. by destruct (gather _ _ _ _ _).
Qed.

Lemma take_message_spec c :
  ∃ found, taken (drain_noops (rbuf c)) found ∧
    take_message c = take_result c (drain_noops (rbuf c)) found.
Proof.
  rewrite take_message_after_noops.
  set (r := drain_noops (rbuf c)) in *.
  destruct (walk_total (S (length r)) r 0 0) as [v Hv]; [lia|]. rewrite Hv.
  destruct v as [| |p n]; [by exists Nothing | by exists Oversized|].
  apply walk_sound_0 in Hv as (cs & rest & Hr & Hcs & -> & -> & Hn).
  pose proof (drain_noops_nonempty _ _ _ Hcs Hr) as Hne.
  exists (Taken_body (mjoin cs) rest). split; [exists cs; split_and!; auto|].
  rewrite Hr, gather_body by done.
  assert (rbuf (set_rbuf (chunks_wire cs ++ x00 :: x00 :: rest) c)
    = chunks_wire cs ++ x00 :: x00 :: rest) as Hb by by destruct c.
  erewrite bind_ok; [|apply drain_ok; rewrite Hb, length_app; cbn; lia].
  rewrite Hb, skipn_app, skipn_all2 by lia.
  replace (length (chunks_wire cs) + 2 - length (chunks_wire cs))%nat with 2%nat by lia.
  by destruct c.
Qed.

(** A buffer that holds part of a frame is found to hold nothing yet, and one
    that holds all of it yields that frame's body. *)
Lemma walk_frame fuel cs rest :
  Forall good_chunk cs → (total_size cs ≤ MAX_MESSAGE)%N →
  (length (chunks_wire cs ++ x00 :: x00 :: rest) < fuel)%nat →
  walk fuel (chunks_wire cs ++ x00 :: x00 :: rest) 0 0 =
  Some (Complete (length (chunks_wire cs)) (total_size cs)).
Proof.
  intros Hcs Ht Hf. rewrite length_app in Hf. pose proof (length_chunks_wire cs Hcs).
  apply (walk_chunks cs fuel [] rest 0); [done|lia|lia].
Qed.

Lemma taken_prefix a b cs rest found :
  Forall good_chunk cs → cs ≠ [] → (total_size cs ≤ MAX_MESSAGE)%N →
  drain_noops (a ++ b) = chunks_wire cs ++ x00 :: x00 :: rest →
  taken (drain_noops a) found →
  (found = Nothing ∧ b ≠ []) ∨
  ∃ rest', found = Taken_body (mjoin cs) rest' ∧ rest = rest' ++ b.
Proof.
  intros Hcs Hne Ht Hab Hf. rewrite <- drain_noops_app in Hab.
  destruct found as [| |body rest']; cbn [taken] in Hf.
  - left. split; [done|]. intros ->. rewrite app_nil_r, drain_noops_idem in Hab.
    rewrite Hab, walk_frame in Hf by (done || lia). done.
  - rewrite (drain_noops_verdict _ _ _ _ _ Hf) in Hab by done.
    apply (walk_app _ _ b) in Hf; [|done].
    apply (walk_fuel _ (S (length (drain_noops a ++ b)))) in Hf; [|rewrite length_app; lia].
    rewrite Hab, walk_frame in Hf by (done || lia). done.
  - right. exists rest'. destruct Hf as (cs' & Ha & Hcs' & Hne' & _ & ->).
    destruct cs' as [|c cs']; [done|]. apply Forall_cons in Hcs' as [Hc Hcs'].
    rewrite Ha, <- app_assoc, drain_noops_chunks in Hab by done. cbn [app] in Hab.
    apply chunks_wire_inj in Hab as [<- ->]; [done|by constructor|done].
Qed.

(** ** The bytes a connection has to read *)

(** Up to leading NOOPs, [bs] is what is buffered and what comes next, before
    the part [more] of the script. *)
Definition receives (allow : bool) (c : t) (bs : bytes) (more : list ReadEvent) : Prop :=
  ∃ evs, incoming (stream c) = evs ++ more ∧ Forall (quiet allow) evs ∧
    drain_noops (rbuf c ++ arriving evs) = drain_noops bs.

(** A wait cut short, by the caller or by the deadline. *)
Definition interrupted {A} (o : Outcome BoltError A) : Prop :=
  o = Suspended ∨ o = Err (BoltError.Timeout "read").

(** The same interruption, of a computation with another result. *)
Definition interrupt_outcome {A B} (o : Outcome BoltError A) : Outcome BoltError B :=
  match o with Err e => Err e | _ => Suspended end.

Lemma bind_interrupted {S A B} (m : M S BoltError A) (f : A → M S BoltError B) c c' o :
  interrupted o → m c = (o, c') → bind m f c = (interrupt_outcome o, c').
Proof. intros [-> | ->] Hm; unfold bind; by rewrite Hm. Qed.

Lemma loop_interrupted {A B} (body : A → C (A + B)) fuel a c c'
    (o0 : Outcome BoltError unit) :
  interrupted o0 → body a c = (interrupt_outcome o0, c') →
  loop (S fuel) body a c = (interrupt_outcome o0, c').
Proof. intros [-> | ->] Hm; cbn [loop]; unfold bind; by rewrite Hm. Qed.

Lemma on_stream_read c e evs :
  incoming (stream c) = e :: evs →
  on_stream stream_read c =
  ((stream_read (mk_stream (e :: evs) [] [])).1, set_input evs (rbuf c) c).
Proof.
  intros He. unfold on_stream, zoom, stream_read. rewrite He. destruct c as [[]]. cbn in *.
  by destruct e.
Qed.

Lemma fill_data c bs evs :
  bs ≠ [] → incoming (stream c) = RdData bs :: evs →
  fill c = (Ok tt, set_input evs (rbuf c ++ bs) c).
Proof.
  intros Hbs He. unfold fill, bind. rewrite (on_stream_read _ _ _ He). cbn.
  destruct bs as [|b bs]; [done|]. by destruct c as [[]].
Qed.

Lemma fill_interrupt c e evs :
  e = RdTimeout ∨ e = RdPending → incoming (stream c) = e :: evs →
  ∃ o, interrupted o ∧ fill c = (o, set_input evs (rbuf c) c).
Proof.
  unfold interrupted. intros Hev He. unfold fill, bind. rewrite (on_stream_read _ _ _ He).
  destruct Hev as [-> | ->]; cbn; eauto.
Qed.

(** [next_body] on a frame: it returns its body and leaves what follows, or
    it is interrupted and the frame is still all there to read. *)
Definition reads_body (allow : bool) (cs : list bytes) (rest : bytes) (more : list ReadEvent)
    (c : t) (result : Outcome BoltError bytes * t) : Prop :=
  (∃ evs r, result = (Ok (mjoin cs), set_input evs r c) ∧
     receives allow (set_input evs r c) rest more) ∨
  (allow = true ∧ ∃ o evs r, result = (o, set_input evs r c) ∧ interrupted o ∧
     (length evs < length (incoming (stream c)))%nat ∧
     receives allow (set_input evs r c) (chunks_wire cs ++ x00 :: x00 :: rest) more).

Definition body_round : unit → C (unit + bytes) := λ _,
  let! taken := take_message in
  match taken with
  | Some body => ret (inr body)
  | None => do! fill in ret (inl tt)
  end.

Lemma next_body_loop c : next_body c = loop (S (input_size c)) body_round tt c.
Proof. done. Qed.

Lemma body_round_nothing c :
  taken (drain_noops (rbuf c)) Nothing →
  body_round tt c =
  bind fill (λ _, ret (inl tt)) (set_input (incoming (stream c)) (drain_noops (rbuf c)) c).
Proof.
  intros Hn. destruct (take_message_spec c) as (found & Hf & He).
  assert (found = Nothing) as ->.
  { destruct found as [| |body rest]; [done|cbn in *; congruence|].
    destruct Hf as (cs & Hr & Hcs & Hne & Ht & _). cbn [taken] in Hn.
    rewrite Hr, walk_frame in Hn by (done || lia). done. }
  unfold body_round. unfold bind at 1. rewrite He. cbn [take_result].
  by rewrite set_rbuf_input.
Qed.

Lemma body_loop_reads allow cs rest more fuel c evs :
  Forall good_chunk cs → cs ≠ [] → (total_size cs ≤ MAX_MESSAGE)%N →
  incoming (stream c) = evs ++ more → Forall (quiet allow) evs → (length evs < fuel)%nat →
  drain_noops (rbuf c ++ arriving evs) = chunks_wire cs ++ x00 :: x00 :: rest →
  reads_body allow cs rest more c (loop fuel body_round tt c).
Proof.
  intros Hcs Hne Ht. revert c evs. induction fuel as [|fuel IH]; intros c evs Hi Hq Hf Hr; [lia|].
  destruct (take_message_spec c) as (found & Hfound & Htake).
  destruct (taken_prefix _ _ _ _ _ Hcs Hne Ht Hr Hfound) as [[-> Hb] | (rest' & -> & ->)].
  2:{ left. exists (evs ++ more), rest'. cbn [loop]. unfold bind, body_round, bind. rewrite Htake.
      cbn [take_result]. rewrite set_rbuf_input, Hi. split; [done|].
      exists evs. autorewrite with bolt. auto. }
  destruct evs as [|e evs]; [done|]. apply Forall_cons in Hq as [He Hq].
  set (c1 := set_input (incoming (stream c)) (drain_noops (rbuf c)) c).
  assert (incoming (stream c1) = e :: evs ++ more) as Hi1 by (unfold c1; by autorewrite with bolt).
  assert (rbuf c1 = drain_noops (rbuf c)) as Hr1 by (unfold c1; by autorewrite with bolt).
  assert (Hint : e = RdTimeout ∨ e = RdPending → allow = true →
    reads_body allow cs rest more c (loop (S fuel) body_round tt c)).
  { intros Hev Ha. right. split; [done|].
    destruct (fill_interrupt c1 e _ Hev Hi1) as (o & Ho & Hfill).
    rewrite Hr1 in Hfill. unfold c1 in Hfill. rewrite set_input_twice in Hfill.
    exists (interrupt_outcome o), (evs ++ more), (drain_noops (rbuf c)).
    split_and!.
    - apply loop_interrupted; [done|]. rewrite (body_round_nothing c Hfound).
      apply bind_interrupted; [done|]. exact Hfill.
    - by destruct Ho as [-> | ->]; [left | right].
    - rewrite Hi. cbn. lia.
    - exists evs. autorewrite with bolt. split_and!; [done..|].
      rewrite drain_noops_app. rewrite drain_noops_chunks_wire by done.
      by destruct Hev as [-> | ->]. }
  destruct e as [bs| | |]; cbn [quiet] in He; [|done|..].
  - cbn [loop]. unfold bind at 1. rewrite (body_round_nothing c Hfound). fold c1.
    unfold bind. rewrite (fill_data _ _ _ He Hi1). cbn [ret]. rewrite Hr1. unfold c1.
    rewrite set_input_twice.
    set (c2 := set_input (evs ++ more) (drain_noops (rbuf c) ++ bs) c).
    destruct (IH c2 evs) as [(evs' & r & Hl & Hrec) | (Ha & o & evs' & r & Hl & Ho & Hlen & Hrec)].
    + unfold c2. by autorewrite with bolt.
    + done.
    + cbn in Hf. lia.
    + unfold c2. autorewrite with bolt. rewrite <- app_assoc, drain_noops_app. exact Hr.
    + left. exists evs', r. unfold c2 in *. by rewrite set_input_twice in *.
    + right. split; [done|]. exists o, evs', r. unfold c2 in *. rewrite set_input_twice in *.
      rewrite incoming_set_input in Hlen. split_and!; [done..| |done].
      rewrite Hi. cbn. lia.
  - exact (Hint (or_introl eq_refl) He).
  - exact (Hint (or_intror eq_refl) He).
Qed.

Lemma events_size_length evs : (length evs ≤ events_size evs)%nat.
Proof.
  induction evs as [|e evs IH]; [done|]. unfold events_size in *. destruct e; cbn in *; lia.
Qed.

Lemma receives_frame allow c bs more cs rest :
  receives allow c bs more → drain_noops bs = chunks_wire cs ++ x00 :: x00 :: rest →
  Forall good_chunk cs → cs ≠ [] → (total_size cs ≤ MAX_MESSAGE)%N →
  reads_body allow cs rest more c (next_body c).
Proof.
  intros (evs & Hi & Hq & Hr) Hbs Hcs Hne Ht. rewrite next_body_loop.
  apply (body_loop_reads _ _ _ _ _ _ evs); try done; [|congruence].
  unfold input_size. rewrite Hi. pose proof (events_size_length (evs ++ more)) as H.
  rewrite length_app in H. lia.
Qed.

(** ** Replies *)

(** The body of a message that decodes to [r]: an encoded structure. *)
Definition reply_body (r : Response) (body : bytes) : Prop :=
  ∃ sg fields, encodes (BoltValue.Structure sg fields) body ∧ from_structure sg fields = Some r.

Definition reply_chunks (r : Response) (cs : list bytes) : Prop :=
  Forall good_chunk cs ∧ (total_size cs ≤ MAX_MESSAGE)%N ∧ reply_body r (mjoin cs).

(** The bytes of a sequence of replies: each chunked in any way, with NOOPs
    anywhere between them. *)
Inductive replies_wire : list Response → bytes → Prop :=
| replies_nil : replies_wire [] []
| replies_noop rs bs : replies_wire rs bs → replies_wire rs (x00 :: x00 :: bs)
| replies_cons r rs cs bs :
    reply_chunks r cs → replies_wire rs bs →
    replies_wire (r :: rs) (chunks_wire cs ++ x00 :: x00 :: bs).

(** The replies a connection still has to read, before the part [more] of the
    script. *)
Definition expects (allow : bool) (c : t) (rs : list Response) (more : list ReadEvent) : Prop :=
  ∃ bs, replies_wire rs bs ∧ receives allow c bs more.

Lemma reply_chunks_nonempty r cs : reply_chunks r cs → cs ≠ [].
Proof. intros (_ & _ & sg & fs & He & _) ->. apply encodes_nonempty in He. cbn in He. lia. Qed.

Lemma replies_wire_cons_inv r rs bs :
  replies_wire (r :: rs) bs →
  ∃ cs rest, drain_noops bs = chunks_wire cs ++ x00 :: x00 :: rest ∧
    reply_chunks r cs ∧ replies_wire rs rest.
Proof.
  intros H. remember (r :: rs) as rs' eqn:Hrs. revert r rs Hrs.
  induction H as [|rs' bs _ IH|r' rs' cs bs Hcs Hw _]; intros r rs [=]; subst.
  - destruct (IH r rs eq_refl) as (cs & rest & Hd & ?). exists cs, rest.
    by rewrite drain_noops_pair.
  - exists cs, bs. split_and!; [|done..]. pose proof (reply_chunks_nonempty _ _ Hcs).
    destruct Hcs as (? & _). by apply drain_noops_chunks_wire.
Qed.

Lemma unpack_body_encodes v body :
  (len body ≤ USIZE_MAX)%N → encodes v body → unpack_body body = Ok v.
Proof.
  intros Hl He. unfold unpack_body.
  rewrite (unpack_complete (new_reader body) v body []); [done|done|].
  rewrite app_nil_r. by apply at_bytes_new.
Qed.

Lemma decode_reply {S} r cs (s : S) : reply_chunks r cs → decode (mjoin cs) s = (Ok r, s).
Proof.
  intros (_ & Ht & sg & fs & He & Hr). unfold decode.
  assert (len (mjoin cs) ≤ USIZE_MAX)%N as Hl by (etrans; [exact Ht | by vm_compute]).
  rewrite (unpack_body_encodes _ _ Hl He).
  by rewrite Hr.
Qed.

(** The count of replies owed, once [r] is read. *)
Definition settle (r : Response) (p : N) : N := if is_record r then p else N.pred p.

(** Reading when the next reply is [r]: it is returned, whatever the way its
    bytes arrive, or the wait is interrupted and every byte is still there. *)
Definition reads_reply (allow : bool) (r : Response) (rs : list Response)
    (more : list ReadEvent) (c : t) (result : Outcome BoltError Response * t) : Prop :=
  (∃ c', result = (Ok r, c') ∧ expects allow c' rs more ∧ keeps c c' ∧
     pending c' = settle r (pending c)) ∨
  (allow = true ∧ ∃ o c', result = (o, c') ∧ interrupted o ∧ keeps c c' ∧
     (length (incoming (stream c')) < length (incoming (stream c)))%nat ∧
     pending c' = pending c ∧ expects allow c' (r :: rs) more).

Lemma check_intact_ok c : broken c = false → check_intact c = (Ok tt, c).
Proof. intros Hb. unfold check_intact, gets, bind. by rewrite Hb. Qed.

Lemma receives_drained allow c bs bs' more :
  drain_noops bs = drain_noops bs' → receives allow c bs more → receives allow c bs' more.
Proof. intros Hd (evs & ? & ? & ?). exists evs. split_and!; [done..|congruence]. Qed.

Lemma receives_same_input allow c c' bs more :
  incoming (stream c') = incoming (stream c) → rbuf c' = rbuf c →
  receives allow c bs more → receives allow c' bs more.
Proof. unfold receives. by intros -> ->. Qed.

Lemma expects_same_input allow c c' rs more :
  incoming (stream c') = incoming (stream c) → rbuf c' = rbuf c →
  expects allow c rs more → expects allow c' rs more.
Proof. intros Hs Hr (bs & ? & ?). exists bs. eauto using receives_same_input. Qed.

Lemma expects_set_pending allow c p rs more :
  expects allow c rs more → expects allow (set_pending p c) rs more.
Proof. apply expects_same_input; by destruct c. Qed.

Lemma read_message_expects allow c r rs more :
  broken c = false → expects allow c (r :: rs) more →
  reads_reply allow r rs more c (read_message c).
Proof.
  intros Hb (bs & Hw & Hrec).
  destruct (replies_wire_cons_inv _ _ _ Hw) as (cs & rest & Hd & Hcs & Hrest).
  pose proof (reply_chunks_nonempty _ _ Hcs) as Hne.
  unfold read_message. rewrite (bind_ok _ _ _ _ _ (check_intact_ok c Hb)).
  destruct (receives_frame _ _ _ _ cs rest Hrec Hd) as
    [(evs & buf & Hn & Hrec')|(Ha & o & evs & buf & Hn & Ho & Hlen & Hrec')]; try done; try apply Hcs.
  - left. rewrite (bind_ok _ _ _ _ _ Hn). unfold break_on_err, attempt, bind.
    rewrite (decode_reply r cs _ Hcs). cbn [ret]. unfold settle.
    exists (if is_record r then set_input evs buf c
            else set_pending (N.pred (pending c)) (set_input evs buf c)).
    destruct (is_record r); unfold ret, modify.
    + split_and!; [done|by exists rest|auto with bolt|by rewrite pending_set_input].
    + rewrite pending_set_input. split_and!; [done| | |by rewrite pending_set_pending].
      * apply expects_set_pending. by exists rest.
      * etrans; [apply keeps_input | apply keeps_pending].
  - right. split; [done|]. exists (interrupt_outcome o), (set_input evs buf c).
    rewrite (bind_interrupted _ _ _ _ _ Ho Hn). split_and!; [done| |auto with bolt| | |].
    + by destruct Ho as [-> | ->]; [left | right].
    + by rewrite incoming_set_input.
    + by rewrite pending_set_input.
    + exists bs. split; [done|]. eapply receives_drained; [|done].
      rewrite Hd. apply drain_noops_chunks_wire; [apply Hcs|done].
Qed.

(** With no interruptions, the reply is read. *)
Lemma read_message_ok c r rs more :
  broken c = false → expects false c (r :: rs) more →
  ∃ c', read_message c = (Ok r, c') ∧ expects false c' rs more ∧ keeps c c' ∧
    pending c' = settle r (pending c).
Proof. intros Hb He. by destruct (read_message_expects _ _ _ _ _ Hb He) as [|[??]]. Qed.

(** ** Callers that try again *)

(** Read; while the read is interrupted (cancelled or timed out), read again. *)
Fixpoint read_again (tries : nat) (c : t) : Outcome BoltError Response * t :=
  match tries with
  | O => (OutOfFuel, c)
  | S tries' =>
      match read_message c with
      | (Suspended, c') | (Err (BoltError.Timeout _), c') => read_again tries' c'
      | result => result
      end
  end.

Lemma read_again_ok allow tries c r rs more :
  broken c = false → expects allow c (r :: rs) more →
  (length (incoming (stream c)) < tries)%nat →
  ∃ c', read_again tries c = (Ok r, c') ∧ expects allow c' rs more ∧ keeps c c' ∧
    pending c' = settle r (pending c).
Proof.
  revert c. induction tries as [|tries IH]; intros c Hb He Ht; [lia|]. cbn [read_again].
  destruct (read_message_expects _ _ _ _ _ Hb He) as
    [(c' & Hr & ?)|(_ & o & c' & Hr & Ho & Hk & Hl & Hp & He')].
  - exists c'. by rewrite Hr.
  - destruct (keeps_fields _ _ Hk) as (_ & _ & _ & _ & Hb' & _).
    destruct (IH c') as (c2 & Hc2 & ? & ? & Hp2); [congruence|done|lia|].
    exists c2. rewrite Hp in Hp2. rewrite Hr. split_and!; [|done|by etrans|done].
    by destruct Ho as [-> | ->].
Qed.

(** *** Concrete replies *)

Definition noops (k : nat) : bytes := mjoin (replicate k [x00; x00]).

Lemma drain_noops_noops k bs : drain_noops (noops k ++ bs) = drain_noops bs.
Proof.
  induction k as [|k IH]; [done|].
  change (drain_noops (x00 :: x00 :: noops k ++ bs) = drain_noops bs).
  by rewrite drain_noops_pair.
Qed.

(** A SUCCESS with no metadata, as one chunk. *)
Definition success_body : bytes := [xb1; x70; xa0].

Lemma success_reply : reply_chunks (Response.Success ∅) [success_body].
Proof.
  split_and!; [by repeat constructor|by vm_compute|].
  exists SUCCESS, [BoltValue.Map ∅]. split; [|done].
  apply (enc_structure SUCCESS [BoltValue.Map ∅] [xb1] [xa0]).
  - by apply (header_tiny TINY_STRUCT STRUCT_8 1).
  - apply (items_cons (BoltValue.Map ∅) [] [xa0] []); [|constructor].
    apply (enc_map [] [xa0] []); [by apply (header_tiny TINY_MAP MAP_8 0) | constructor].
Qed.

(** A connection with a script, ready to use. *)
Definition ready_conn (evs : list ReadEvent) (writes : list WriteEvent) : t :=
  mk (mk_stream evs writes []) (new_version x05 x08) None None false 0 false [] 30.

(** ** Properties *)

(** A body and its chunking: what a peer may send as one message. *)
Definition sendable (cs : list bytes) : Prop :=
  Forall good_chunk cs ∧ cs ≠ [] ∧ (total_size cs ≤ MAX_MESSAGE)%N.

Definition message_wire (cs : list bytes) : bytes := chunks_wire cs ++ [x00; x00].

(** C14: [take_message] is total and exact. With [r] the buffer less its
    leading NOOPs, exactly one of three things holds: [r] is a whole message
    (chunks of 1 to 65535 bytes, at most 64 MiB in all, a zero length) and a
    rest: the message's body is returned and the rest stays buffered; or no
    whole message stands at the start of [r], which is kept; or no more bytes
    could complete [r] to a message, and the connection is broken. It never
    panics, indexes out of range or loops. *)
Theorem take_message_total c :
  let r := drain_noops (rbuf c) in
  (∃ cs rest, sendable cs ∧ r = message_wire cs ++ rest ∧
     take_message c = (Ok (Some (mjoin cs)), set_rbuf rest c)) ∨
  (take_message c = (Ok None, set_rbuf r c) ∧
     ∀ cs rest, sendable cs → r ≠ message_wire cs ++ rest) ∨
  (take_message c =
     (Err (BoltError.Protocol MessageTooLong), set_broken true (set_rbuf r c)) ∧
     ∀ more cs rest, sendable cs → r ++ more ≠ message_wire cs ++ rest).
Proof.
  intros r. destruct (take_message_spec c) as (found & Hf & He). fold r in Hf, He.
  assert (∀ cs rest, message_wire cs ++ rest = chunks_wire cs ++ x00 :: x00 :: rest) as Hm.
  { intros cs rest. unfold message_wire. by rewrite <- app_assoc. }
  assert (∀ more cs rest, found ≠ Nothing → sendable cs → r ++ more = message_wire cs ++ rest →
    ∃ rest', found = Taken_body (mjoin cs) rest') as Hwhole.
  { intros more cs rest Hn (Hcs & Hne & Ht) Hr. rewrite Hm in Hr.
    assert (drain_noops (r ++ more) = chunks_wire cs ++ x00 :: x00 :: rest) as Hd
      by (rewrite Hr; by apply drain_noops_chunks_wire).
    assert (taken (drain_noops r) found) as Hf' by (unfold r; by rewrite drain_noops_idem).
    destruct (taken_prefix r more cs rest found Hcs Hne Ht Hd Hf') as [[-> _]|(rest' & -> & _)];
      [done|eauto]. }
  destruct found as [| |body rest]; [right; left|right; right|left].
  - split; [exact He|]. intros cs rest (Hcs & Hne & Ht) Hr. cbn [taken] in Hf.
    rewrite Hm in Hr. rewrite Hr, walk_frame in Hf by (done || lia). done.
  - split; [exact He|]. intros more cs rest Hs Hr.
    by destruct (Hwhole more cs rest ltac:(done) Hs Hr).
  - destruct Hf as (cs & Hr & Hcs & Hne & Ht & ->). exists cs, rest. by rewrite Hm.
Qed.

(** C13: framing round trip. A request of well-formed values and 32-bit sizes
    is framed without error, after any output; when its body is within 64 MiB,
    a reader that holds the frame after any number of NOOPs, with any bytes
    after it, takes exactly the body, keeps the bytes after it, and the body
    decodes to the request's structure. *)
Theorem encode_take_message `{!HashIter} req :
  wf_value (BoltValue.Structure (req_signature req) (req_fields req)) →
  packable (BoltValue.Structure (req_signature req) (req_fields req)) →
  ∃ body bs, (∀ out, encode req out = (Ok tt, out ++ bs)) ∧
    ((len body ≤ MAX_MESSAGE)%N → ∀ c k rest, rbuf c = noops k ++ bs ++ rest →
       take_message c = (Ok (Some body), set_rbuf rest c) ∧
       unpack_body body = Ok (BoltValue.Structure (req_signature req) (req_fields req))).
Proof.
  intros Hw Hp. destruct (pack_encodes _ Hw Hp) as (body & Hbody & Henc).
  exists body, (frame body). split; [by apply encode_writes|].
  intros Hl c k rest Hc.
  pose proof (chunks_good body) as Hcs. pose proof (chunks_join body) as Hj.
  assert (chunks MAX_CHUNK body ≠ []) as Hne.
  { apply chunks_nonempty. intros ->. apply encodes_nonempty in Henc. cbn in Henc. lia. }
  split; [|apply unpack_body_encodes; [etrans; [exact Hl | by vm_compute] | done]].
  destruct (take_message_spec c) as (found & Hf & ->).
  destruct (taken_prefix (rbuf c) [] (chunks MAX_CHUNK body) rest found Hcs Hne)
    as [[_ ?]|(rest' & -> & ->)]; try done.
  - unfold total_size. by rewrite Hj.
  - rewrite app_nil_r, Hc, drain_noops_noops. unfold frame. rewrite <- app_assoc.
    by apply drain_noops_chunks_wire.
  - by rewrite app_nil_r, Hj.
Qed.

Lemma encode_take_message_witness :
  ∃ body bs, (∀ out, @encode listing_order goodbye out = (Ok tt, out ++ bs)) ∧
    ((len body ≤ MAX_MESSAGE)%N → ∀ c k rest, rbuf c = noops k ++ bs ++ rest →
       take_message c = (Ok (Some body), set_rbuf rest c) ∧
       unpack_body body = Ok (BoltValue.Structure GOODBYE [])).
Proof.
  apply (@encode_take_message listing_order goodbye).
  - constructor. constructor.
  - constructor; [by vm_compute|constructor].
Defined.

(** C8: fragmentation and cancellation. Let the replies [r :: rs] be what an
    intact connection has to read, each chunked in any way, with NOOPs anywhere,
    partly buffered already and the rest delivered in pieces of any size,
    between which reads may be cancelled or time out. A caller that reads
    again after each interruption gets exactly [r]; nothing else of the
    connection changes but the count of replies owed (one less, unless [r] is
    a record), and what is left to read is exactly [rs]. *)
Theorem read_message_any_split allow tries c r rs more :
  broken c = false → expects allow c (r :: rs) more →
  (length (incoming (stream c)) < tries)%nat →
  ∃ c', read_again tries c = (Ok r, c') ∧ expects allow c' rs more ∧ keeps c c' ∧
    pending c' = if is_record r then pending c else N.pred (pending c).
Proof. apply read_again_ok. Qed.

(** A NOOP and a SUCCESS, in three pieces, with a cancelled read in between. *)
Definition split_success : list ReadEvent :=
  [RdData [x00; x00; x00]; RdPending; RdData [x03; xb1]; RdTimeout; RdData [x70; xa0; x00; x00]].

Lemma split_success_expects ws :
  expects true (ready_conn split_success ws) [Response.Success ∅] [].
Proof.
  exists (x00 :: x00 :: chunks_wire [success_body] ++ [x00; x00]). split.
  - apply replies_noop, replies_cons; [exact success_reply | constructor].
  - exists split_success. split_and!; [done| |by vm_compute].
    by repeat (apply Forall_cons_2; [done|]); apply Forall_nil_2.
Qed.

Lemma read_message_any_split_witness :
  ∃ c', read_again 6 (ready_conn split_success []) = (Ok (Response.Success ∅), c') ∧
    expects true c' [] [] ∧ keeps (ready_conn split_success []) c' ∧ pending c' = 0%N.
Proof.
  apply (read_message_any_split true 6 (ready_conn split_success []) (Response.Success ∅) [] []);
    [reflexivity | apply split_success_expects | vm_compute; lia].
Defined.
