(* ===== verification/Exchange.v ===== *)
(** * Exchanges: requests against the replies the peer sends

    What the operations of a connection return when the replies to read are
    known: RESET's draining of owed replies, queries, recovery after a
    cancelled exchange and after a server failure. [in_sync] is the state the
    source's [pending] counter is for: as many summaries are owed as [pending]
    says. *)

From S2P Require Import Prelude Utf8 Value Message Error PackStream Wire Codec.
From S2P Require Import Handshake Framing Routing Transport Connection Receive.
Import BoltConnection.

(** ** Results that are definite or interrupted *)

(** The computation returns [Ok a] with [Q], or, if interruptions are allowed,
    is interrupted with [I]. *)
Definition yields {S A} (allow : bool) (result : Outcome BoltError A * S)
    (Q : A → S → Prop) (I : S → Prop) : Prop :=
  (∃ a c', result = (Ok a, c') ∧ Q a c') ∨
  (allow = true ∧ ∃ o c', result = (o, c') ∧ interrupted o ∧ I c').

Lemma interrupted_cast {A B} (o : Outcome BoltError A) :
  interrupted o → interrupted (interrupt_outcome o : Outcome BoltError B).
Proof. intros [-> | ->]; [by left | by right]. Qed.

Lemma yields_ok {S A} allow (a : A) c (Q : A → S → Prop) (I : S → Prop) : Q a c → yields allow (Ok a, c) Q I.
Proof. left. eauto. Qed.

Lemma yields_bind {S A B} allow (m : M S BoltError A) (f : A → M S BoltError B) c Q I Q' (I' : S → Prop) :
  yields allow (m c) Q I → (∀ a c', Q a c' → yields allow (f a c') Q' I') →
  (∀ c', I c' → I' c') → yields allow (bind m f c) Q' I'.
Proof.
  intros [(a & c' & Hm & HQ)|(Ha & o & c' & Hm & Ho & HI)] Hf HI'.
  - rewrite (bind_ok _ _ _ _ _ Hm). by apply Hf.
  - right. split; [done|]. rewrite (bind_interrupted _ _ _ _ _ Ho Hm).
    eexists _, c'. split_and!; [done|by apply interrupted_cast|auto].
Qed.

Lemma yields_weaken {S A} allow (result : Outcome BoltError A * S) Q I (Q' : A → S → Prop) I' :
  yields allow result Q I → (∀ a c', Q a c' → Q' a c') → (∀ c', I c' → I' c') →
  yields allow result Q' I'.
Proof.
  intros [(a & c' & ? & ?)|(? & o & c' & ? & ? & ?)] HQ HI; [left|right]; eauto 10.
Qed.

Lemma yields_definite {S A} (result : Outcome BoltError A * S) Q I :
  yields false result Q I → ∃ a c', result = (Ok a, c') ∧ Q a c'.
Proof. by intros [?|[? _]]. Qed.

(** ** What an operation does besides reading *)

Definition wrote (bs : bytes) (ws : list WriteEvent) (c : t) : t :=
  set_stream (mk_stream (incoming (stream c)) ws (sent (stream c) ++ bs)) c.

(** From [c] to [c']: [bs] was sent, [ws] is left of the write script,
    [needs_reset] is [nr], and the rest is as before, but for the input and the
    count of replies owed. *)
Definition moved (nr : bool) (bs : bytes) (ws : list WriteEvent) (c c' : t) : Prop :=
  keeps (set_needs_reset nr (wrote bs ws c)) c'.

Lemma moved_fields nr bs ws c c' :
  moved nr bs ws c c' →
  version c' = version c ∧ server_agent c' = server_agent c ∧
  connection_id c' = connection_id c ∧ needs_reset c' = nr ∧
  broken c' = broken c ∧ read_timeout c' = read_timeout c ∧
  outgoing (stream c') = ws ∧ sent (stream c') = sent (stream c) ++ bs.
Proof. intros Hk%keeps_fields. by destruct c as [[]]. Qed.

Lemma moved_trans nr bs ws nr' bs' ws' c c1 c2 :
  moved nr bs ws c c1 → moved nr' bs' ws' c1 c2 → moved nr' (bs ++ bs') ws' c c2.
Proof.
  destruct c as [[]], c1 as [[]], c2 as [[]]. unfold moved, keeps. cbn.
  intros H1 H2. injection H1. injection H2. intros. subst. by rewrite app_assoc.
Qed.

Lemma moved_keeps c c' : keeps c c' → moved (needs_reset c) [] (outgoing (stream c)) c c'.
Proof.
  destruct c as [[]], c' as [[]]. unfold moved, keeps. cbn. rewrite app_nil_r. done.
Qed.

Lemma moved_keeps_r nr bs ws c c1 c2 : moved nr bs ws c c1 → keeps c1 c2 → moved nr bs ws c c2.
Proof. intros Hm Hk. unfold moved. by rewrite <- Hk. Qed.

Lemma moved_set_needs_reset c nr :
  moved nr [] (outgoing (stream c)) c (set_needs_reset nr c).
Proof. destruct c as [[]]. unfold moved, keeps. cbn. by rewrite app_nil_r. Qed.

Lemma expects_set_needs_reset allow c nr rs more :
  expects allow c rs more → expects allow (set_needs_reset nr c) rs more.
Proof. apply expects_same_input; by destruct c. Qed.

Lemma pending_set_needs_reset c nr : pending (set_needs_reset nr c) = pending c.
Proof. by destruct c. Qed.

Lemma broken_set_needs_reset c nr : broken (set_needs_reset nr c) = broken c.
Proof. by destruct c. Qed.

(** ** Sending *)

Section exchange.
Context {hash : HashIter}.

(** The requests' frames. *)
Definition framed (reqs : list Request) (bs : bytes) : Prop :=
  for_each encode reqs [] = (Ok tt, bs).

Lemma write_messages_ok reqs bs ws c :
  broken c = false → framed reqs bs → outgoing (stream c) = WrDone :: WrDone :: ws →
  write_messages reqs c =
  (Ok tt, set_pending (pending c + owed reqs) (wrote bs ws c)).
Proof.
  intros Hb Hf Ho. unfold write_messages. rewrite (bind_ok _ _ _ _ _ (check_intact_ok c Hb)).
  rewrite (bind_ok _ _ c bs c) by (unfold encode_all; by rewrite Hf).
  destruct c as [[inc out snt] v sa ci nr p b r rt]. cbn in Hb, Ho. subst b out.
  unfold write_bytes, wrote, bind, modify, on_stream, zoom, stream_write. cbn.
  by rewrite app_nil_r.
Qed.

(** After sending, the replies to read are the same, and more are owed. *)
Lemma write_messages_expects allow reqs bs ws c rs more :
  broken c = false → framed reqs bs → outgoing (stream c) = WrDone :: WrDone :: ws →
  expects allow c rs more →
  ∃ c', write_messages reqs c = (Ok tt, c') ∧ expects allow c' rs more ∧
    moved (needs_reset c) bs ws c c' ∧ pending c' = (pending c + owed reqs)%N.
Proof.
  intros Hb Hf Ho He. eexists. rewrite (write_messages_ok _ _ _ _ Hb Hf Ho).
  split; [done|]. rewrite pending_set_pending. split_and!; [| |done].
  - apply expects_set_pending. eapply expects_same_input, He; destruct c as [[]]; done.
  - unfold moved. etrans; [|apply keeps_pending]. destruct c as [[]]. reflexivity.
Qed.

(** RESET's frame. *)
Definition reset_frame : bytes := [x00; x02; xb0; x0f; x00; x00].

Lemma framed_reset : framed [reset_request] reset_frame.
Proof. by vm_compute. Qed.

(** ** Owed replies *)

Definition summaries (rs : list Response) : N := len (filter (λ r, is_record r = false) rs).

Lemma summaries_cons r rs :
  summaries (r :: rs) = if is_record r then summaries rs else N.succ (summaries rs).
Proof. unfold summaries, len. rewrite filter_cons. destruct (is_record r); simpl; lia. Qed.

Lemma summaries_app rs rs' : summaries (rs ++ rs') = (summaries rs + summaries rs')%N.
Proof. unfold summaries. by rewrite filter_app, len_app. Qed.

Lemma summaries_records rows : summaries (Response.Record <$> rows) = 0%N.
Proof. induction rows as [|row rows IH]; [done|]. cbn [fmap list_fmap]. by rewrite summaries_cons. Qed.

(** The replies left are [old], owed by requests already sent, then [todo]. *)
Definition in_sync (allow : bool) (c : t) (old todo : list Response)
    (more : list ReadEvent) : Prop :=
  broken c = false ∧ pending c = summaries old ∧ expects allow c (old ++ todo) more.

Lemma replies_wire_length rs bs : replies_wire rs bs → (length rs ≤ length (drain_noops bs))%nat.
Proof.
  induction 1 as [|rs bs _ IH|r rs cs bs Hcs _ IH]; [cbn; lia|by rewrite drain_noops_pair|].
  rewrite drain_noops_chunks_wire by (apply Hcs || by eapply reply_chunks_nonempty).
  rewrite length_app. pose proof (drain_noops_length bs). cbn. lia.
Qed.

(** The loops' measure covers the replies to read. *)
Lemma expects_length allow c rs more : expects allow c rs more → (length rs ≤ input_size c)%nat.
Proof.
  intros (bs & Hw & evs & Hi & _ & Hd). apply replies_wire_length in Hw. rewrite <- Hd in Hw.
  pose proof (drain_noops_length (rbuf c ++ arriving evs)) as Hl. rewrite length_app in Hl.
  pose proof (events_size_arriving evs). unfold input_size. rewrite Hi.
  unfold events_size in *. rewrite sum_list_with_app. lia.
Qed.

(** Reading one reply. *)
Lemma read_message_yields allow c r rs more :
  broken c = false → expects allow c (r :: rs) more →
  yields allow (read_message c)
    (λ r' c', r' = r ∧ expects allow c' rs more ∧ keeps c c' ∧ pending c' = settle r (pending c))
    (λ c', expects allow c' (r :: rs) more ∧ keeps c c' ∧ pending c' = pending c).
Proof.
  intros Hb He. destruct (read_message_expects _ _ _ _ _ Hb He) as
    [(c' & ? & ? & ? & ?)|(? & o & c' & ? & ? & ? & ? & ? & ?)]; [left|right]; eauto 12.
Qed.

(** ** RESET *)

Definition reset_round : unit → C (unit + unit) := λ _,
  let! response := read_message in
  let! p := gets pending in
  if (0 <? p)%N then ret (inl tt)
  else match response with
       | Response.Success _ => do! modify (set_needs_reset false) in ret (inr tt)
       | Response.Failure code message => throw (BoltError.Failure code message)
       | other => throw (BoltError.Protocol (UnexpectedResponse "RESET" other))
       end.

Lemma reset_unfold c :
  reset c = bind (write_message reset_request) (λ _ c, loop (S (input_size c)) reset_round tt c) c.
Proof. done. Qed.

Lemma reset_round_owed c c' r :
  read_message c = (Ok r, c') → (0 < pending c')%N → reset_round tt c = (Ok (inl tt), c').
Proof.
  intros Hr Hp. unfold reset_round. rewrite (bind_ok _ _ _ _ _ Hr).
  unfold gets, bind. by destruct (N.ltb_spec 0 (pending c')); [|lia].
Qed.

Lemma reset_round_own c c' r :
  read_message c = (Ok r, c') → pending c' = 0%N → is_record r = false →
  reset_round tt c =
  match r with
  | Response.Success _ => (Ok (inr tt), set_needs_reset false c')
  | Response.Failure code message => (Err (BoltError.Failure code message), c')
  | other => (Err (BoltError.Protocol (UnexpectedResponse "RESET" other)), c')
  end.
Proof.
  intros Hr Hp Hs. unfold reset_round. rewrite (bind_ok _ _ _ _ _ Hr).
  unfold gets, bind. rewrite Hp. by destruct r.
Qed.

(** Draining: every reply of [old] is read and dropped. *)
Lemma reset_loop_drains old r rs more fuel c :
  is_record r = false → broken c = false → pending c = N.succ (summaries old) →
  expects false c (old ++ r :: rs) more → (length old < fuel)%nat →
  ∃ c0 c', loop fuel reset_round tt c = loop 1 reset_round tt c0 ∧
    read_message c0 = (Ok r, c') ∧
    expects false c' rs more ∧ keeps c c' ∧ pending c' = 0%N.
Proof.
  intros Hr. revert c fuel. induction old as [|r0 old IH]; intros c fuel Hb Hp He Hf.
  - destruct fuel as [|fuel]; [cbn in Hf; lia|].
    destruct (read_message_ok _ _ _ _ Hb He) as (c' & Hc' & He' & Hk & Hp').
    exists c, c'. unfold settle in Hp'. rewrite Hr, Hp in Hp'. split_and!; [|done..].
    cbn [loop]. unfold bind. by rewrite (reset_round_own _ _ _ Hc' Hp' Hr); destruct r.
  - destruct fuel as [|fuel]; [cbn in Hf; lia|].
    destruct (read_message_ok _ _ _ _ Hb He) as (c' & Hc' & He' & Hk & Hp').
    assert (pending c' = N.succ (summaries old)) as Hp2.
    { rewrite Hp', Hp, summaries_cons. unfold settle. destruct (is_record r0); lia. }
    destruct (keeps_fields _ _ Hk) as (_ & _ & _ & _ & Hb' & _).
    destruct (IH c' fuel) as (c0 & c2 & Hl & ? & ? & ? & ?); [congruence|done|done|cbn in Hf; lia|].
    exists c0, c2. split_and!; [|done|done|by etrans|done].
    cbn [loop]. unfold bind. by rewrite (reset_round_owed _ _ _ Hc') by lia.
Qed.

Lemma reset_loop_yields allow old m rs more fuel c :
  broken c = false → pending c = N.succ (summaries old) →
  expects allow c (old ++ Response.Success m :: rs) more → (length old < fuel)%nat →
  yields allow (loop fuel reset_round tt c)
    (λ _ c', expects allow c' rs more ∧ moved false [] (outgoing (stream c)) c c' ∧
       pending c' = 0%N)
    (λ c', moved (needs_reset c) [] (outgoing (stream c)) c c' ∧
       ∃ old', pending c' = N.succ (summaries old') ∧
         expects allow c' (old' ++ Response.Success m :: rs) more).
Proof.
  revert c fuel. induction old as [|r0 old IH]; intros c fuel Hb Hp He Hf;
    (destruct fuel as [|fuel]; [cbn in Hf; lia|]); cbn [loop];
    destruct (read_message_yields _ _ _ _ _ Hb He) as
      [(r' & c' & Hc' & -> & He' & Hk & Hp')|(Ha & o & c' & Hc' & Ho & He' & Hk & Hp')].
  - left. exists tt, (set_needs_reset false c'). unfold settle in Hp'. cbn in Hp'. rewrite Hp in Hp'.
    unfold bind. rewrite (reset_round_own _ _ _ Hc' Hp' eq_refl). cbn [ret].
    split_and!; [done|by apply expects_set_needs_reset| |by rewrite pending_set_needs_reset].
    eapply (moved_trans _ [] _ _ []); [by apply moved_keeps|].
    destruct (keeps_fields _ _ Hk) as (_ & _ & _ & _ & _ & _ & <- & _). apply moved_set_needs_reset.
  - right. split; [done|]. exists (interrupt_outcome (interrupt_outcome o : Outcome BoltError (unit + unit))), c'.
    split_and!; [|by apply interrupted_cast, interrupted_cast|by apply moved_keeps|].
    + apply bind_interrupted; [by apply interrupted_cast|]. by apply bind_interrupted.
    + exists []. by rewrite Hp', Hp.
  - assert (pending c' = N.succ (summaries old)) as Hp2.
    { rewrite Hp', Hp, summaries_cons. unfold settle. destruct (is_record r0); lia. }
    destruct (keeps_fields _ _ Hk) as (_ & _ & _ & Hn & Hb' & _ & Hout & _).
    unfold bind. rewrite (reset_round_owed _ _ _ Hc') by lia.
    eapply yields_weaken; [apply IH; [congruence|done|done|cbn in Hf; lia]| |]; cbn beta.
    + intros _ c2 (? & Hm & ?). split_and!; [done| |done]. rewrite Hout in Hm.
      eapply (moved_trans _ [] _ _ []); [by apply moved_keeps|done].
    + intros c2 (Hm & ?). split; [|done]. rewrite Hout, Hn in Hm.
      eapply (moved_trans _ [] _ _ []); [by apply moved_keeps|done].
  - right. split; [done|]. exists (interrupt_outcome (interrupt_outcome o : Outcome BoltError (unit + unit))), c'.
    split_and!; [|by apply interrupted_cast, interrupted_cast|by apply moved_keeps|].
    + apply bind_interrupted; [by apply interrupted_cast|]. by apply bind_interrupted.
    + exists (r0 :: old). by rewrite Hp', Hp.
Qed.

(** *** The whole of RESET, and recovery before an operation *)

Lemma moved_broken nr bs ws c c' : moved nr bs ws c c' → broken c' = broken c.
Proof. intros (_ & _ & _ & _ & ? & _)%moved_fields. done. Qed.

Lemma moved_needs_reset nr bs ws c c' : moved nr bs ws c c' → needs_reset c' = nr.
Proof. intros (_ & _ & _ & ? & _)%moved_fields. done. Qed.

Lemma moved_outgoing nr bs ws c c' : moved nr bs ws c c' → outgoing (stream c') = ws.
Proof. intros (_ & _ & _ & _ & _ & _ & ? & _)%moved_fields. done. Qed.

Lemma moved_after nr bs ws c c1 c2 :
  moved nr bs ws c c1 → moved nr [] ws c1 c2 → moved nr bs ws c c2.
Proof. intros H1 H2. rewrite <- (app_nil_r bs). by eapply moved_trans. Qed.

(** An exchange was given up: the session is not ready, and [pending] counts
    the summaries still to come before [todo]. *)
Definition abandoned (allow : bool) (c : t) (todo : list Response) (more : list ReadEvent) : Prop :=
  broken c = false ∧ is_ready c = false ∧
  ∃ old, pending c = summaries old ∧ expects allow c (old ++ todo) more.

Lemma not_ready_pending c : (0 < pending c)%N → is_ready c = false.
Proof.
  intros Hp. unfold is_ready. destruct (N.eqb_spec (pending c) 0); [lia|]. apply andb_false_r.
Qed.

Lemma not_ready_needs_reset c : needs_reset c = true → is_ready c = false.
Proof. intros Hn. unfold is_ready. rewrite Hn. by destruct (broken c). Qed.

Lemma reset_yields allow c old m rs more ws :
  broken c = false → pending c = summaries old →
  outgoing (stream c) = WrDone :: WrDone :: ws →
  expects allow c (old ++ Response.Success m :: rs) more →
  yields allow (reset c)
    (λ _ c', expects allow c' rs more ∧ moved false reset_frame ws c c' ∧ pending c' = 0%N)
    (λ c', moved (needs_reset c) reset_frame ws c c' ∧ abandoned allow c' rs more).
Proof.
  intros Hb Hp Ho He. rewrite reset_unfold.
  destruct (write_messages_expects _ _ _ _ _ _ _ Hb framed_reset Ho He)
    as (c1 & Hw & He1 & Hm & Hp1).
  unfold write_message. rewrite (bind_ok _ _ _ _ _ Hw).
  pose proof (moved_broken _ _ _ _ _ Hm) as Hb1.
  pose proof (moved_outgoing _ _ _ _ _ Hm) as Ho1.
  pose proof (moved_needs_reset _ _ _ _ _ Hm) as Hn1.
  change (owed [reset_request]) with 1%N in Hp1.
  eapply yields_weaken; [eapply (reset_loop_yields allow old m rs more _ c1)| |]; cbn beta.
  - congruence.
  - rewrite Hp1, Hp. lia.
  - done.
  - apply expects_length in He1. rewrite length_app in He1. lia.
  - intros _ c2 (? & Hm2 & ?). rewrite Ho1 in Hm2. split_and!; [done| |done].
    rewrite <- (app_nil_r reset_frame). by eapply moved_trans.
  - intros c2 (Hm2 & old' & Hp2 & He2). rewrite Ho1, Hn1 in Hm2.
    pose proof (moved_after _ _ _ _ _ _ Hm Hm2) as Hm3. split; [done|]. split_and!.
    + rewrite (moved_broken _ _ _ _ _ Hm3). done.
    + apply not_ready_pending. lia.
    + exists (old' ++ [Response.Success m]). rewrite summaries_app, <- app_assoc. split; [|done].
      rewrite Hp2. change (summaries [Response.Success m]) with 1%N. lia.
Qed.

(** Ready for [todo], or able to get there: the replies owed to abandoned
    exchanges come first, then RESET's SUCCESS [m]. *)
Definition poised (allow : bool) (c : t) (m : HashMap BoltValue) (todo : list Response)
    (more : list ReadEvent) : Prop :=
  broken c = false ∧
  if is_ready c then expects allow c todo more
  else ∃ old, pending c = summaries old ∧ expects allow c (old ++ Response.Success m :: todo) more.

(** What recovery sends. *)
Definition recovery (c : t) : bytes := if is_ready c then [] else reset_frame.

Definition recovery_writes (c : t) : list WriteEvent :=
  if is_ready c then [] else [WrDone; WrDone].

Lemma abandoned_poised allow c m todo more :
  abandoned allow c (Response.Success m :: todo) more → poised allow c m todo more.
Proof. intros (Hb & Hn & Hold). split; [done|]. by rewrite Hn. Qed.

Lemma ensure_clean_cases c :
  broken c = false → ensure_clean c = if is_ready c then (Ok tt, c) else reset c.
Proof.
  intros Hb. unfold ensure_clean. rewrite (bind_ok _ _ _ _ _ (check_intact_ok c Hb)).
  unfold gets, bind, is_ready. rewrite Hb. destruct (needs_reset c); [done|].
  destruct (N.ltb_spec 0 (pending c)), (N.eqb_spec (pending c) 0); done || lia.
Qed.

Lemma is_ready_spec c :
  is_ready c = true ↔ broken c = false ∧ needs_reset c = false ∧ pending c = 0%N.
Proof.
  unfold is_ready. rewrite !andb_true_iff, !negb_true_iff, N.eqb_eq. naive_solver.
Qed.

Lemma ensure_clean_yields allow c m todo more ws :
  poised allow c m todo more → outgoing (stream c) = recovery_writes c ++ ws →
  yields allow (ensure_clean c)
    (λ _ c', expects allow c' todo more ∧ moved false (recovery c) ws c c' ∧ pending c' = 0%N)
    (λ c', abandoned allow c' todo more).
Proof.
  intros (Hb & Hp) Ho. rewrite ensure_clean_cases by done. unfold recovery, recovery_writes in *.
  destruct (is_ready c) eqn:Hr.
  - apply yields_ok. apply is_ready_spec in Hr as (_ & Hn & Hp0). split_and!; [done| |done].
    cbn in Ho. rewrite <- Ho, <- Hn. apply moved_keeps. done.
  - destruct Hp as (old & Hp & He).
    eapply yields_weaken; [by eapply (reset_yields _ _ _ _ _ _ ws)|done|naive_solver].
Qed.

(** ** Queries *)

(** The replies to RUN and PULL. *)
Definition run_replies (meta : HashMap BoltValue) (rows : list (list BoltValue))
    (summary : HashMap BoltValue) : list Response :=
  Response.Success meta :: (Response.Record <$> rows) ++ [Response.Success summary].

Definition run_round (columns : list string) (records : list (list BoltValue))
    : C (list (list BoltValue) + QueryResult) :=
  let! response := read_message in
  match response with
  | Response.Record values => ret (inl (records ++ [values]))
  | Response.Success _ => ret (inr (mk_result columns records))
  | Response.Failure code message => let! e := fail_reset code message in throw e
  | Response.Ignored => throw (BoltError.Protocol (Text "PULL ignored by server"))
  end.

Lemma run_inner_unfold query parameters extra c :
  run_inner query parameters extra c =
  bind (send_run_pull query parameters extra (-1))
    (λ p c, loop (S (input_size c)) (run_round p.1) [] c) c.
Proof. unfold run_inner, bind. by destruct (send_run_pull _ _ _ _ c) as [[[]| | | |] ?]. Qed.

Lemma run_loop_interrupted columns fuel acc c c' (o : Outcome BoltError Response) :
  interrupted o → read_message c = (o, c') →
  ∃ o', interrupted o' ∧ loop (S fuel) (run_round columns) acc c = (o', c').
Proof.
  intros Ho Hm.
  exists (interrupt_outcome (interrupt_outcome o
    : Outcome BoltError (list (list BoltValue) + QueryResult))).
  split; [by apply interrupted_cast, interrupted_cast|].
  apply bind_interrupted; [by apply interrupted_cast|]. by apply bind_interrupted.
Qed.

Lemma run_loop_yields allow columns rows summary rs more acc fuel c :
  broken c = false →
  expects allow c ((Response.Record <$> rows) ++ Response.Success summary :: rs) more →
  (length rows < fuel)%nat →
  yields allow (loop fuel (run_round columns) acc c)
    (λ r c', r = mk_result columns (acc ++ rows) ∧ expects allow c' rs more ∧ keeps c c' ∧
       pending c' = N.pred (pending c))
    (λ c', keeps c c' ∧ pending c' = pending c ∧ ∃ rows',
       expects allow c' ((Response.Record <$> rows') ++ Response.Success summary :: rs) more).
Proof.
  revert acc c fuel. induction rows as [|row rows IH]; intros acc c fuel Hb He Hf;
    (destruct fuel as [|fuel]; [cbn in Hf; lia|]);
    destruct (read_message_yields _ _ _ _ _ Hb He) as
      [(r' & c' & Hc' & -> & He' & Hk & Hp')|(Ha & o & c' & Hc' & Ho & He' & Hk & Hp')].
  - left. eexists _, c'. cbn [loop]. unfold bind, run_round, bind. rewrite Hc'. cbn [ret].
    by rewrite app_nil_r.
  - right. split; [done|]. destruct (run_loop_interrupted columns fuel acc _ _ _ Ho Hc')
      as (o' & Ho' & Hl). exists o', c'. split_and!; [exact Hl|done..|]. by exists [].
  - cbn [loop]. unfold bind at 1. unfold run_round at 1. rewrite (bind_ok _ _ _ _ _ Hc').
    destruct (keeps_fields _ _ Hk) as (_ & _ & _ & _ & Hb' & _).
    unfold settle in Hp'. cbn [is_record] in Hp'.
    eapply yields_weaken; [apply IH; [congruence|done|cbn in Hf; lia]| |]; cbn beta.
    + intros r c2 (-> & ? & ? & Hp2). rewrite <- app_assoc. split_and!; [done..|by etrans|congruence].
    + intros c2 (? & ? & ?). split_and!; [by etrans|congruence|done].
  - right. split; [done|]. destruct (run_loop_interrupted columns fuel acc _ _ _ Ho Hc')
      as (o' & Ho' & Hl). exists o', c'. split_and!; [exact Hl|done..|]. by exists (row :: rows).
Qed.

(** The requests of a query. *)
Definition query_requests (query : string) (parameters extra : HashMap BoltValue) (n : Z)
    : list Request :=
  [run_request query parameters extra; pull n None].

Lemma send_run_pull_yields allow query parameters extra n c bs ws meta rs more :
  broken c = false → pending c = 0%N →
  framed (query_requests query parameters extra n) bs →
  outgoing (stream c) = WrDone :: WrDone :: ws →
  expects allow c (Response.Success meta :: rs) more →
  yields allow (send_run_pull query parameters extra n c)
    (λ p c', p = (extract_columns meta, get_as as_int meta "qid") ∧
       expects allow c' rs more ∧ moved (needs_reset c) bs ws c c' ∧ pending c' = 1%N)
    (λ c', moved (needs_reset c) bs ws c c' ∧ pending c' = 2%N ∧
       expects allow c' (Response.Success meta :: rs) more).
Proof.
  intros Hb Hp Hf Ho He. unfold send_run_pull.
  destruct (write_messages_expects _ _ _ _ _ _ _ Hb Hf Ho He) as (c1 & Hw & He1 & Hm & Hp1).
  change (owed (query_requests query parameters extra n)) with 2%N in Hp1. rewrite Hp in Hp1.
  change (pending c1 = 2%N) in Hp1.
  unfold query_requests in Hw. rewrite (bind_ok _ _ _ _ _ Hw).
  pose proof (moved_broken _ _ _ _ _ Hm) as Hb1. rewrite Hb in Hb1.
  eapply yields_bind; [by apply read_message_yields| |]; cbn beta.
  - intros r c2 (-> & He2 & Hk & Hp2). rewrite Hp1 in Hp2. apply yields_ok.
    split_and!; [done|done|by eapply moved_keeps_r|done].
  - intros c2 (He2 & Hk & Hp2). split_and!; [by eapply moved_keeps_r|congruence|done].
Qed.

Lemma summaries_pull rows summary :
  summaries ((Response.Record <$> rows) ++ [Response.Success summary]) = 1%N.
Proof. by rewrite summaries_app, summaries_records. Qed.

Lemma run_inner_yields allow query parameters extra c bs ws meta rows summary rs more :
  broken c = false → pending c = 0%N →
  framed (query_requests query parameters extra (-1)) bs →
  outgoing (stream c) = WrDone :: WrDone :: ws →
  expects allow c (run_replies meta rows summary ++ rs) more →
  yields allow (run_inner query parameters extra c)
    (λ r c', r = mk_result (extract_columns meta) rows ∧ expects allow c' rs more ∧
       moved (needs_reset c) bs ws c c' ∧ pending c' = 0%N)
    (λ c', moved (needs_reset c) bs ws c c' ∧ abandoned allow c' rs more).
Proof.
  intros Hb Hp Hf Ho He. rewrite run_inner_unfold.
  unfold run_replies in He. cbn [app] in He. rewrite <- app_assoc in He.
  eapply yields_bind; [by eapply (send_run_pull_yields _ _ _ _ _ _ bs ws)| |]; cbn beta.
  - intros p c1 (-> & He1 & Hm & Hp1).
    pose proof (moved_broken _ _ _ _ _ Hm) as Hb1. rewrite Hb in Hb1.
    eapply yields_weaken; [apply (run_loop_yields _ _ rows summary rs more _ _ c1 Hb1 He1)| |];
      cbn beta.
    + apply expects_length in He1. rewrite length_app, length_fmap in He1. cbn in *. lia.
    + intros r c2 (-> & He2 & Hk & Hp2). rewrite Hp1 in Hp2.
      split_and!; [done|done|by eapply moved_keeps_r|done].
    + intros c2 (Hk & Hp2 & rows' & He2). split; [by eapply moved_keeps_r|].
      destruct (keeps_fields _ _ Hk) as (_ & _ & _ & _ & Hb2 & _).
      split_and!; [congruence|apply not_ready_pending; lia|].
      exists ((Response.Record <$> rows') ++ [Response.Success summary]).
      rewrite summaries_pull, <- app_assoc. split; [congruence|done].
  - intros c1 (Hm & Hp1 & He1). split; [done|].
    pose proof (moved_broken _ _ _ _ _ Hm) as Hb1. rewrite Hb in Hb1.
    split_and!; [done|apply not_ready_pending; lia|].
    exists (run_replies meta rows summary). unfold run_replies. cbn [app]. rewrite <- app_assoc.
    split; [|done]. by rewrite summaries_cons, summaries_pull.
Qed.

(** [run_with] marks the session, runs, and unmarks it on [Ok]. *)
Definition unmark {A} (result : Outcome BoltError A * t) : Outcome BoltError A * t :=
  match result with
  | (Ok a, c') => (Ok a, set_needs_reset false c')
  | result => result
  end.

Lemma attempt_settled {A} (m : C A) c :
  bind (attempt m) (λ result,
    do! (match result with inl _ => ret tt | inr _ => modify (set_needs_reset false) end) in
    from_sum result) c = unmark (m c).
Proof. unfold attempt, bind, unmark. by destruct (m c) as [[] ?]. Qed.

Lemma run_with_marked query parameters extra c :
  run_with query parameters extra c =
  bind ensure_clean
    (λ _ c, unmark (run_inner query parameters extra (set_needs_reset true c))) c.
Proof.
  unfold run_with. unfold bind at 1. unfold bind at 4.
  destruct (ensure_clean c) as [[[]| | | |] c']; try done.
  unfold bind at 1, modify at 1. apply attempt_settled.
Qed.

Lemma yields_unmark {A} allow (result : Outcome BoltError A * t) Q I (Q' : A → t → Prop) :
  yields allow result Q I → (∀ a c', Q a c' → Q' a (set_needs_reset false c')) →
  yields allow (unmark result) Q' I.
Proof.
  intros [(a & c' & -> & ?)|(? & o & c' & -> & Ho & ?)] HQ; [left|right]; [eauto|].
  split; [done|]. exists o, c'. split_and!; [by destruct Ho as [-> | ->]|done|done].
Qed.

Lemma moved_set nr nr' bs ws c c' :
  moved nr bs ws c c' → moved nr' bs ws c (set_needs_reset nr' c').
Proof.
  intros Hm. rewrite <- (app_nil_r bs).
  eapply moved_trans; [exact Hm|]. rewrite <- (moved_outgoing _ _ _ _ _ Hm).
  apply moved_set_needs_reset.
Qed.

Lemma run_with_yields allow query parameters extra c bs ws m meta rows summary rs more :
  poised allow c m (run_replies meta rows summary ++ rs) more →
  framed (query_requests query parameters extra (-1)) bs →
  outgoing (stream c) = recovery_writes c ++ WrDone :: WrDone :: ws →
  yields allow (run_with query parameters extra c)
    (λ r c', r = mk_result (extract_columns meta) rows ∧ is_ready c' = true ∧
       expects allow c' rs more ∧ moved false (recovery c ++ bs) ws c c')
    (λ c', abandoned allow c' (run_replies meta rows summary ++ rs) more ∨
           abandoned allow c' rs more).
Proof.
  intros Hp Hf Ho. rewrite run_with_marked.
  eapply yields_bind; [by eapply (ensure_clean_yields _ _ _ _ _ (WrDone :: WrDone :: ws))| |auto].
  cbn beta. intros _ c1 (He1 & Hm1 & Hp1).
  pose proof (moved_set _ true _ _ _ _ Hm1) as Hm1'.
  pose proof (moved_broken _ _ _ _ _ Hm1') as Hb1. rewrite (proj1 Hp) in Hb1.
  eapply yields_weaken; [|exact (λ _ _ H, H)|exact (λ _ H, or_intror H)].
  eapply yields_unmark.
  - eapply yields_weaken;
      [eapply (run_inner_yields allow _ _ _ _ bs ws meta rows summary rs more Hb1)
      |exact (λ _ _ H, H)|intros c2 [_ Ha]; exact Ha]; [|done| |].
    + by rewrite pending_set_needs_reset.
    + apply (moved_outgoing _ _ _ _ _ Hm1').
    + by apply expects_set_needs_reset.
  - cbn beta. intros r c2 (-> & He2 & Hm2 & Hp2).
    assert (moved false (recovery c ++ bs) ws c (set_needs_reset false c2)) as Hm.
    { eapply moved_set, moved_trans; [exact Hm1' | exact Hm2]. }
    split_and!; [done| |by apply expects_set_needs_reset|exact Hm].
    apply is_ready_spec. rewrite (moved_broken _ _ _ _ _ Hm), (moved_needs_reset _ _ _ _ _ Hm).
    rewrite pending_set_needs_reset. split_and!; [apply Hp|done..].
Qed.

End exchange.
