(* ===== verification/Safety.v ===== *)
(** * What holds under any behaviour of the transport

    The theorems of [Exchange] suppose a peer that answers. Here the script of
    reads and writes is arbitrary: errors, ends of stream, garbage,
    cancellations anywhere. No operation panics or loops; a connection is
    reported ready only when it is; a broken one is left alone. *)

From S2P Require Import Prelude Utf8 Value Message Error PackStream Wire Codec.
From S2P Require Import Handshake Framing Routing Transport Connection Receive Exchange.
Import BoltConnection.

(** ** What reads change, on every outcome *)

(** Only the input and the [broken] flag. *)
Definition reads_only (c c' : t) : Prop :=
  ∃ b, keeps (set_broken b c) c' ∧ pending c' = pending c.

Lemma set_broken_broken c : set_broken (broken c) c = c.
Proof. by destruct c. Qed.

Lemma keeps_set_broken b c c' : keeps c c' → keeps (set_broken b c) (set_broken b c').
Proof.
  destruct c as [[]], c' as [[]]. unfold keeps. cbn.
  intros H. injection H. intros. by subst.
Qed.

#[export] Instance reads_only_preorder : PreOrder reads_only.
Proof.
  split.
  - intros c. exists (broken c). rewrite set_broken_broken. split; reflexivity.
  - intros c1 c2 c3 (b & Hk & Hp) (b' & Hk' & Hp'). exists b'. split; [|congruence].
    etrans; [|exact Hk']. apply (keeps_set_broken b') in Hk.
    destruct c1 as [[]]. exact Hk.
Qed.

Lemma reads_only_keeps c c' : keeps c c' → pending c' = pending c → reads_only c c'.
Proof. intros Hk Hp. exists (broken c). by rewrite set_broken_broken. Qed.

Lemma reads_only_fields c c' :
  reads_only c c' →
  needs_reset c' = needs_reset c ∧ pending c' = pending c ∧ version c' = version c ∧
  outgoing (stream c') = outgoing (stream c) ∧ sent (stream c') = sent (stream c).
Proof. intros (b & Hk%keeps_fields & ?). destruct c as [[]]. naive_solver. Qed.

Lemma reads_only_set_broken c b : reads_only c (set_broken b c).
Proof. exists b. split; [reflexivity|]. by destruct c. Qed.

Lemma respects_on_stream_read : respects reads_only (on_stream stream_read).
Proof.
  intros c. destruct (incoming (stream c)) as [|e evs] eqn:He.
  - unfold on_stream, zoom, stream_read. rewrite He. cbn.
    apply reads_only_keeps; by destruct c as [[]].
  - rewrite (on_stream_read _ _ _ He). cbn. apply reads_only_keeps; [auto with bolt|].
    apply pending_set_input.
Qed.

Lemma reads_only_set_rbuf c r : reads_only c (set_rbuf r c).
Proof. apply reads_only_keeps; by destruct c. Qed.

#[export] Hint Resolve respects_on_stream_read reads_only_set_broken
  reads_only_set_rbuf : bolt.

Lemma respects_fill : respects reads_only fill.
Proof. unfold fill. respects_tac. Qed.

Lemma respects_take_message : respects reads_only take_message.
Proof.
  intros c. destruct (take_message_spec c) as (found & _ & ->).
  destruct found; cbn; auto with bolt. etrans; auto with bolt.
Qed.

#[export] Hint Resolve respects_fill respects_take_message : bolt.

Lemma respects_next_body : respects reads_only next_body.
Proof. unfold next_body. respects_tac. Qed.

(** ** What a successful read did *)

Lemma fill_ok_inv c u c' :
  fill c = (Ok u, c') →
  ∃ bs evs, incoming (stream c) = RdData bs :: evs ∧ c' = set_input evs (rbuf c ++ bs) c.
Proof.
  unfold fill. intros H. apply bind_ok_inv in H as (r & c1 & Hr & H).
  destruct (incoming (stream c)) as [|e evs] eqn:He.
  { unfold on_stream, zoom, stream_read in Hr. by rewrite He in Hr. }
  rewrite (on_stream_read _ _ _ He) in Hr. destruct e as [bs| | |]; cbn in Hr; try done.
  - injection Hr as <- <-. exists bs, evs. split; [done|].
    destruct bs; [done|]. injection H as _ <-. by destruct c as [[]].
  - injection Hr as <- <-. done.
Qed.

Lemma input_size_input c evs r : input_size (set_input evs r c) = (length r + events_size evs)%nat.
Proof. by destruct c. Qed.

Lemma taken_shorter r body rest :
  taken r (Taken_body body rest) → (length rest < length r)%nat ∧ (len body ≤ MAX_MESSAGE)%N.
Proof.
  intros (cs & -> & _ & _ & Ht & ->). split; [|done]. rewrite length_app. cbn. lia.
Qed.

(** One round of [next_body]: progress, and a body of bounded size. *)
Lemma body_round_ok u c r c' :
  body_round u c = (Ok r, c') →
  (∃ evs b, c' = set_input evs b c) ∧ (input_size c' < input_size c)%nat ∧
  match r with inl _ => True | inr body => (len body ≤ MAX_MESSAGE)%N end.
Proof.
  intros H. unfold body_round in H. apply bind_ok_inv in H as (o & c1 & Ht & H).
  destruct (take_message_spec c) as (found & Hf & He). rewrite He in Ht.
  pose proof (drain_noops_length (rbuf c)) as Hd.
  destruct found as [| |body rest]; cbn [take_result] in Ht; try done; injection Ht as <- <-.
  - apply bind_ok_inv in H as ([] & c2 & (bs & evs & Hi & ->)%fill_ok_inv & [= <- <-]).
    rewrite set_rbuf_input in Hi |- *. autorewrite with bolt in *.
    split_and!; [eauto| |done]. rewrite input_size_input. unfold input_size.
    rewrite Hi, length_app.
    change (events_size (RdData bs :: evs)) with (S (length bs) + events_size evs)%nat. lia.
  - injection H as <- <-. rewrite set_rbuf_input. apply taken_shorter in Hf as [Hs Hl].
    split_and!; [eauto| |done]. rewrite input_size_input. unfold input_size. lia.
Qed.

Lemma next_body_ok c body c' :
  next_body c = (Ok body, c') →
  (∃ evs b, c' = set_input evs b c) ∧ (input_size c' < input_size c)%nat ∧
  (len body ≤ MAX_MESSAGE)%N.
Proof.
  rewrite next_body_loop. intros H.
  eapply (loop_ok_inv
    (λ _ c1, (∃ evs b, c1 = set_input evs b c) ∧ (input_size c1 ≤ input_size c)%nat)
    (λ body c1, (∃ evs b, c1 = set_input evs b c) ∧ (input_size c1 < input_size c)%nat ∧
       (len body ≤ MAX_MESSAGE)%N)) in H; [exact H|..].
  - intros u c1 u' c2 [(evs & b & ->) Hs] ((evs' & b' & ->) & Hs' & _)%body_round_ok.
    rewrite set_input_twice in *. split; [eauto|lia].
  - intros u c1 r c2 [(evs & b & ->) Hs] ((evs' & b' & ->) & Hs' & Hr)%body_round_ok.
    rewrite set_input_twice in *. split_and!; [eauto|lia|done].
  - split; [|done]. eexists _, _. symmetry. apply set_input_id.
Qed.

(** ** Panics and termination *)

Lemma safe_take_message : safe take_message.
Proof. intros c. destruct (take_message_spec c) as (found & _ & ->). by destruct found. Qed.

Lemma safe_stream_read : safe stream_read.
Proof. intros s. unfold stream_read. by destruct (incoming s) as [|[]]. Qed.

Lemma safe_stream_write bs : safe (stream_write bs).
Proof. intros s. unfold stream_write. by destruct (outgoing s) as [|[]]. Qed.

Lemma safe_on_stream {A} (m : M Stream BoltError A) : safe m → safe (on_stream m).
Proof. apply safe_zoom. Qed.

#[export] Hint Resolve safe_take_message safe_stream_read safe_stream_write safe_on_stream : bolt.

Lemma safe_fill : safe fill.
Proof. unfold fill. safe_tac. Qed.

#[export] Hint Resolve safe_fill : bolt.

Lemma safe_next_body : safe next_body.
Proof.
  apply safe_loop_by.
  - intros _. safe_tac.
  - intros u c u' c' H. by apply (body_round_ok u) in H as (_ & ? & _).
Qed.

Lemma unpack_body_cases body :
  (len body ≤ USIZE_MAX)%N →
  (∃ v, unpack_body body = Ok v) ∨ (∃ e, unpack_body body = Err e).
Proof.
  intros Hl. unfold unpack_body.
  pose proof (unpack_sound (new_reader body) body (at_bytes_new _ Hl)) as Hs.
  unfold safely in Hs. destruct (unpack (new_reader body)) as [[v|e| | |] r']; try done; eauto.
Qed.

Lemma decode_cases {S} body (s : S) :
  (len body ≤ USIZE_MAX)%N →
  (∃ r, decode body s = (Ok r, s)) ∨ (∃ e, decode body s = (Err e, s)).
Proof.
  intros Hl. unfold decode. destruct (unpack_body_cases body Hl) as [(v & ->)|(e & ->)]; [|eauto].
  destruct v; eauto. destruct (from_structure _ _); eauto.
Qed.

(** The end of [read_message], once a body is there. *)
Definition finish_read (body : bytes) : C Response :=
  let! response := break_on_err (decode body) in
  do! (if is_record response then ret tt
       else modify (λ c, set_pending (N.pred (pending c)) c)) in
  ret response.

Lemma finish_read_cases body c :
  (len body ≤ MAX_MESSAGE)%N →
  (∃ r, finish_read body c = (Ok r, set_pending (settle r (pending c)) c)) ∨
  (∃ e, finish_read body c = (Err e, set_broken true c)).
Proof.
  intros Hl. assert (len body ≤ USIZE_MAX)%N as Hl' by (etrans; [exact Hl | by vm_compute]).
  unfold finish_read, break_on_err, attempt, bind.
  destruct (decode_cases body c Hl') as [(r & ->)|(e & ->)]; [left|right; eauto].
  exists r. cbn [ret]. unfold settle. destruct (is_record r); [|done]. cbn.
  by destruct c.
Qed.

Lemma read_message_after c :
  read_message c = if broken c then
    (Err (BoltError.Closed
       "connection is broken (an exchange was cut off mid-frame or the transport failed)"), c)
  else bind next_body finish_read c.
Proof.
  unfold read_message, check_intact, gets. unfold bind at 1 2. by destruct (broken c).
Qed.

(** A read never panics; one that succeeds read one reply of an intact
    connection, and one that does not leaves everything but the input and
    [broken] alone. *)
Lemma read_message_cases c :
  (∃ r c', read_message c = (Ok r, c') ∧ broken c = false ∧ keeps c c' ∧
     pending c' = settle r (pending c) ∧ (input_size c' < input_size c)%nat) ∨
  (∃ o c', read_message c = (o, c') ∧ reads_only c c' ∧
     (o = Suspended ∨ ∃ e, o = Err e)).
Proof.
  rewrite read_message_after. destruct (broken c) eqn:Hb.
  { right. eexists _, c. split_and!; [done|reflexivity|eauto]. }
  pose proof (safe_next_body c) as [Hp Ho]. pose proof (respects_next_body c) as Hr.
  destruct (next_body c) as [o c1] eqn:Hn. cbn in Hp, Ho, Hr.
  destruct o as [body|e| | |]; try done.
  - apply next_body_ok in Hn as Hok. destruct Hok as ((evs & b & ->) & Hs & Hl).
    rewrite (bind_ok _ _ _ _ _ Hn).
    destruct (finish_read_cases body (set_input evs b c) Hl) as [(r & ->)|(e & ->)].
    + left. rewrite pending_set_input. eexists r, _. split_and!; [done..| | |].
      * etrans; [apply keeps_input | apply keeps_pending].
      * apply pending_set_pending.
      * by destruct c.
    + right. eexists _, _. split_and!; [done| |eauto]. etrans; [exact Hr|].
      apply reads_only_set_broken.
  - right. rewrite (bind_err _ _ _ _ _ Hn). eauto 8.
  - right. rewrite (bind_suspended _ _ _ _ Hn). eauto 8.
Qed.

Lemma safe_read_message : safe read_message.
Proof.
  intros c. destruct (read_message_cases c) as [(r & c' & -> & _)|(o & c' & -> & _ & [-> |[e ->]])];
    done.
Qed.

Lemma read_message_consumes c r c' :
  read_message c = (Ok r, c') → (input_size c' < input_size c)%nat.
Proof.
  intros H. destruct (read_message_cases c) as [(r' & c1 & He & _ & _ & _ & Hs)|(o & c1 & He & _ & Ho)];
    rewrite He in H.
  - by injection H as _ <-.
  - by destruct Ho as [-> |[e ->]].
Qed.

#[export] Hint Resolve safe_read_message : bolt.

Section safety.
Context {hash : HashIter}.

(** ** Writes *)

Lemma append_encode req : append_or_too_large (encode req).
Proof.
  unfold encode, with_buffer. intros out.
  destruct (appends_pack (BoltValue.Structure (req_signature req) (req_fields req)) [])
    as (body & Hb & Ho).
  destruct (pack _ []) as [o body']. cbn in Hb, Ho. subst body'.
  destruct Ho as [-> |(label & n & -> & Hn)].
  - assert (writes (do! for_each write_chunk (chunks MAX_CHUNK body) in
      extend_from_slice [x00; x00]) (frame body)) as Hw
      by (apply writes_bind; [apply writes_chunks, chunks_good | apply writes_extend]).
    rewrite (Hw out). exists (frame body). auto.
  - exists []. rewrite app_nil_r. split; [done|]. right. eauto.
Qed.

Lemma encode_all_cases reqs c :
  (∃ bs, framed reqs bs ∧ encode_all reqs c = (Ok bs, c)) ∨
  (∃ e, encode_all reqs c = (Err e, c)).
Proof.
  assert (append_or_too_large (for_each encode reqs)) as Ha.
  { apply appends_for_each, Forall_forall. intros req _. apply append_encode. }
  destruct (Ha []) as (bs & Hs & Ho). unfold encode_all, framed.
  destruct (for_each encode reqs []) as [o out]. cbn in Hs, Ho. subst out.
  destruct Ho as [-> |(label & n & -> & _)]; eauto.
Qed.

(** A write that does not complete leaves the connection broken, unless it
    sent nothing at all. *)
Lemma write_bytes_cases bs c :
  (∃ ws, write_bytes bs c = (Ok tt, set_broken false (wrote bs ws c))) ∨
  (∃ o sent' ws, write_bytes bs c = (o, set_broken true (wrote sent' ws c)) ∧
     (o = Suspended ∨ ∃ e, o = Err e)).
Proof.
  destruct c as [[inc out snt] v sa ci nr p b r rt].
  unfold write_bytes, wrote, bind, modify, on_stream, zoom, stream_write. cbn.
  assert (∀ ws, mk_stream inc ws snt = mk_stream inc ws (snt ++ [])) as Hn
    by (intros; by rewrite app_nil_r).
  destruct out as [|[|n k|n] out]; cbn.
  - right. exists Suspended, [], []. rewrite <- Hn. auto.
  - destruct out as [|[|n k|n] out]; cbn; rewrite ?firstn_nil, ?app_nil_r.
    + right. exists Suspended, bs, []. auto.
    + left. by exists out.
    + right. exists (Err (BoltError.Io k)), bs, out. eauto.
    + right. exists Suspended, bs, out. auto.
  - right. exists (Err (BoltError.Io k)), (firstn n bs), out. eauto.
  - right. exists Suspended, (firstn n bs), out. auto.
Qed.

Lemma write_messages_cases reqs c :
  (∃ bs ws, framed reqs bs ∧ broken c = false ∧
     write_messages reqs c = (Ok tt, set_pending (pending c + owed reqs) (wrote bs ws c))) ∨
  (∃ o c', write_messages reqs c = (o, c') ∧ (o = Suspended ∨ ∃ e, o = Err e) ∧
     (c' = c ∨ ∃ sent' ws, c' = set_broken true (wrote sent' ws c))).
Proof.
  unfold write_messages. destruct (broken c) eqn:Hb.
  { right. eexists _, c. unfold check_intact, gets, bind. rewrite Hb.
    split_and!; [done|right; by eexists|by left]. }
  rewrite (bind_ok _ _ _ _ _ (check_intact_ok c Hb)).
  destruct (encode_all_cases reqs c) as [(bs & Hf & He)|(e & He)].
  - rewrite (bind_ok _ _ _ _ _ He).
    destruct (write_bytes_cases bs c) as [(ws & Hw)|(o & sent' & ws & Hw & Ho)].
    + left. exists bs, ws. split_and!; [done..|]. rewrite (bind_ok _ _ _ _ _ Hw).
      destruct c. cbn in Hb. by subst.
    + right. eexists o, _. split_and!; [|done|by eauto].
      destruct Ho as [-> |[e ->]]; [by apply bind_suspended | by apply bind_err].
  - right. exists (Err e), c. rewrite (bind_err _ _ _ _ _ He).
    split_and!; [done|right; by eexists|by left].
Qed.

Lemma safe_write_messages reqs : safe (write_messages reqs).
Proof.
  intros c. destruct (write_messages_cases reqs c)
    as [(bs & ws & _ & _ & ->)|(o & c' & -> & [-> |[e ->]] & _)]; done.
Qed.

Lemma safe_write_message req : safe (write_message req).
Proof. apply safe_write_messages. Qed.

Hint Resolve safe_write_messages safe_write_message : bolt.

(** ** No operation panics or runs forever *)

Lemma safe_check_intact : safe check_intact.
Proof. unfold check_intact. safe_tac. Qed.

Hint Resolve safe_check_intact : bolt.

(** A loop whose rounds start with a read. *)
Lemma safe_reading_loop {A B} (k : A → Response → C (A + B)) a :
  (∀ a r, safe (k a r)) →
  (∀ a r c a' c', k a r c = (Ok (inl a'), c') → (input_size c' ≤ input_size c)%nat) →
  safe (loop_by input_size (λ a, let! r := read_message in k a r) a).
Proof.
  intros Hs Hk. apply safe_loop_by; [intros; safe_tac|].
  intros a0 c a' c' (r & c1 & Hr%read_message_consumes & Hk'%Hk)%bind_ok_inv. lia.
Qed.

Lemma safe_reset : safe reset.
Proof.
  unfold reset. apply safe_bind; [auto with bolt|intros _].
  apply (safe_reading_loop (λ _ response,
    let! p := gets pending in
    if (0 <? p)%N then ret (inl tt)
    else match response with
         | Response.Success _ => do! modify (set_needs_reset false) in ret (inr tt)
         | Response.Failure code message => throw (BoltError.Failure code message)
         | other => throw (BoltError.Protocol (UnexpectedResponse "RESET" other))
         end)).
  - intros _ r. safe_tac.
  - intros _ r c a' c' (p & c1 & [= <- <-] & Hl)%bind_ok_inv.
    destruct (0 <? pending c)%N; [by injection Hl as <- <-|]. by destruct r.
Qed.

Hint Resolve safe_reset : bolt.

Lemma safe_fail_reset code message : safe (fail_reset code message).
Proof. unfold fail_reset. safe_tac. Qed.

Lemma safe_ensure_clean : safe ensure_clean.
Proof. unfold ensure_clean. safe_tac. Qed.

Hint Resolve safe_fail_reset safe_ensure_clean : bolt.

Lemma safe_send_run_pull query parameters extra n : safe (send_run_pull query parameters extra n).
Proof. unfold send_run_pull. safe_tac. Qed.

Hint Resolve safe_send_run_pull : bolt.

Lemma safe_run_inner query parameters extra : safe (run_inner query parameters extra).
Proof.
  unfold run_inner. apply safe_bind; [auto with bolt|intros [columns qid]].
  apply (safe_reading_loop (λ records response,
    match response with
    | Response.Record values => ret (inl (records ++ [values]))
    | Response.Success _ => ret (inr (mk_result columns records))
    | Response.Failure code message => let! e := fail_reset code message in throw e
    | Response.Ignored => throw (BoltError.Protocol (Text "PULL ignored by server"))
    end)).
  - intros records r. safe_tac.
  - intros records r c a' c' Hl. destruct r; try done; [by injection Hl as <- <-|].
    by apply bind_ok_inv in Hl as (e & c1 & _ & Hl).
Qed.

Hint Resolve safe_run_inner : bolt.

Lemma safe_run_with query parameters extra : safe (run_with query parameters extra).
Proof. unfold run_with. safe_tac. Qed.

Lemma safe_route context db : safe (route context db).
Proof. unfold route. safe_tac. Qed.

Lemma safe_close : safe close.
Proof. unfold close. safe_tac. Qed.

End safety.

#[export] Hint Resolve safe_write_messages safe_write_message safe_check_intact safe_reset
  safe_fail_reset safe_ensure_clean safe_send_run_pull safe_run_inner safe_run_with safe_route
  safe_close : bolt.

(** ** Establishing a session *)

Definition handshake_round : unit → C (unit + unit) := λ _,
  let! r := gets rbuf in
  if decide (length r < 4)%nat then do! fill in ret (inl tt) else ret (inr tt).

Lemma handshake_round_ok u c r c' :
  handshake_round u c = (Ok r, c') →
  match r with
  | inl _ => (input_size c' < input_size c)%nat
  | inr _ => c' = c ∧ (4 ≤ length (rbuf c))%nat
  end.
Proof.
  unfold handshake_round, gets. unfold bind at 1. case_decide as Hl.
  - intros ([] & c1 & (bs & evs & Hi & ->)%fill_ok_inv & [= <- <-])%bind_ok_inv.
    rewrite input_size_input. unfold input_size. rewrite Hi, length_app.
    change (events_size (RdData bs :: evs)) with (S (length bs) + events_size evs)%nat. lia.
  - intros [= <- <-]. split; [done|lia].
Qed.

Definition accept_version : C unit :=
  let! r := gets rbuf in
  match r with
  | b0 :: b1 :: b2 :: b3 :: _ =>
      do! drain 4 in
      let version := decode_version b0 b1 b2 b3 in
      if is_zero version || negb (supported version) then
        throw (BoltError.Version (version_to_string version) SUPPORTED_RANGE)
      else modify (set_version version)
  | _ => panic
  end.

Lemma handshake_unfold :
  handshake = do! write_bytes client_hello in do! loop_by input_size handshake_round tt in
    accept_version.
Proof. done. Qed.

(** The four agreed bytes are consumed; the version is taken or refused. *)
Lemma accept_version_cases c :
  (4 ≤ length (rbuf c))%nat →
  ∃ b0 b1 b2 b3 rest, rbuf c = b0 :: b1 :: b2 :: b3 :: rest ∧
  let v := decode_version b0 b1 b2 b3 in
  accept_version c =
    if is_zero v || negb (supported v)
    then (Err (BoltError.Version (version_to_string v) SUPPORTED_RANGE), set_rbuf rest c)
    else (Ok tt, set_version v (set_rbuf rest c)).
Proof.
  intros Hl. destruct (rbuf c) as [|b0 [|b1 [|b2 [|b3 rest]]]] eqn:Hr; cbn in Hl; try lia.
  exists b0, b1, b2, b3, rest. split; [done|]. intros v.
  unfold accept_version, gets. unfold bind at 1. rewrite Hr.
  rewrite (bind_ok _ _ _ _ _ (drain_ok 4 c ltac:(rewrite Hr; cbn; lia))). rewrite Hr. fold v.
  by destruct (_ || _).
Qed.

Lemma safe_handshake_loop : safe (loop_by input_size handshake_round tt).
Proof.
  apply safe_loop_by; [intros; unfold handshake_round; safe_tac|].
  intros u c u' c' H. by apply handshake_round_ok in H.
Qed.

Lemma handshake_loop_ok c u c' :
  loop_by input_size handshake_round tt c = (Ok u, c') → (4 ≤ length (rbuf c'))%nat.
Proof.
  apply (loop_ok_inv (λ _ _, True) (λ _ c1, (4 ≤ length (rbuf c1))%nat)); [done| |done].
  intros a c1 b c2 _ [-> ?]%handshake_round_ok. done.
Qed.

Lemma safe_write_bytes bs : safe (write_bytes bs).
Proof. unfold write_bytes. safe_tac. Qed.

Lemma safe_handshake : safe handshake.
Proof.
  rewrite handshake_unfold. apply safe_bind; [apply safe_write_bytes|intros _ c].
  pose proof (safe_handshake_loop c) as [Hp Ho].
  destruct (loop_by input_size handshake_round tt c) as [[u|e| | |] c'] eqn:Hl; try done.
  - rewrite (bind_ok _ _ _ _ _ Hl). apply handshake_loop_ok in Hl.
    destruct (accept_version_cases c' Hl) as (b0 & b1 & b2 & b3 & rest & _ & ->).
    by destruct (_ || _).
  - by rewrite (bind_err _ _ _ _ _ Hl).
  - by rewrite (bind_suspended _ _ _ _ Hl).
Qed.

#[export] Hint Resolve safe_handshake : bolt.

Section establish.
Context {hash : HashIter}.

Lemma safe_hello : safe hello.
Proof. unfold hello. safe_tac. Qed.

Hint Resolve safe_hello : bolt.

Lemma safe_establish_session auth : safe (establish_session auth).
Proof. unfold establish_session. safe_tac. Qed.

(** ** Triples of the building blocks *)

(** The flags of a state between two reads or writes of an exchange. *)
Definition flags (nr : bool) (p : N) (c : t) : Prop := needs_reset c = nr ∧ pending c = p.
Definition intact (nr : bool) (p : N) (c : t) : Prop := broken c = false ∧ flags nr p c.

Lemma triple_write_messages nr p reqs :
  triple (flags nr p) (write_messages reqs) (λ _, intact nr (p + owed reqs))
    (λ _, flags nr p).
Proof.
  intros c [Hn Hp]. destruct (write_messages_cases reqs c)
    as [(bs & ws & _ & Hb & ->)|(o & c' & -> & Ho & Hc)].
  - unfold intact, flags. destruct c as [[]]. cbn in *. by subst.
  - assert (flags nr p c') as Hf.
    { destruct Hc as [-> |(s & ws & ->)]; unfold flags; by destruct c as [[]]. }
    by destruct Ho as [-> |[e ->]].
Qed.

Lemma triple_read_message nr p :
  triple (flags nr p) read_message (λ r, intact nr (settle r p)) (λ _, flags nr p).
Proof.
  intros c [Hn Hp]. destruct (read_message_cases c)
    as [(r & c' & -> & Hb & Hk & Hs & _)|(o & c' & -> & Hr & Ho)].
  - destruct (keeps_fields _ _ Hk) as (_ & _ & _ & Hn' & Hb' & _).
    unfold intact, flags. split_and!; congruence.
  - assert (flags nr p c') as Hf.
    { destruct (reads_only_fields _ _ Hr) as (Hn' & Hp' & _). split; congruence. }
    by destruct Ho as [-> |[e ->]].
Qed.

Lemma triple_read_intact nr p :
  triple (intact nr p) read_message (λ r, intact nr (settle r p)) (λ _, flags nr p).
Proof. eapply triple_pre; [apply triple_read_message|]. by intros s [_ ?]. Qed.

(** The reply, besides, is the one this read took. *)
Lemma triple_read_reply nr p :
  triple (intact nr p) read_message
    (λ r c, intact nr (settle r p) c ∧ ∃ c0, read_message c0 = (Ok r, c)) (λ _, flags nr p).
Proof.
  intros c Hc. pose proof (triple_read_intact nr p c Hc) as H.
  destruct (read_message c) as [[r|e| | |] c'] eqn:Hr; eauto.
Qed.

(** The session is marked for RESET. *)
Definition marked (c : t) : Prop := needs_reset c = true.

(** RESET either leaves the session ready or leaves its mark. *)
Lemma triple_reset : triple marked reset (λ _ c, is_ready c = true) (λ _, marked).
Proof.
  unfold reset, marked. apply triple_bind with (Q := λ _ c, needs_reset c = true).
  - intros c Hc. pose proof (triple_write_messages true (pending c) [reset_request] c) as H.
    unfold write_message. specialize (H (conj Hc eq_refl)).
    destruct (write_messages [reset_request] c) as [[] ?]; unfold intact, flags in *; naive_solver.
  - intros _. apply (triple_loop_by _ (λ _ c, needs_reset c = true)); [|done]. intros _ c Hc.
    destruct (read_message_cases c) as [(r & c' & Hr & Hb & Hk & Hs & _)|(o & c' & Hr & Hre & Ho)].
    + destruct (keeps_fields _ _ Hk) as (_ & _ & _ & Hn' & Hb' & _).
      rewrite (bind_ok _ _ _ _ _ Hr). unfold gets. unfold bind at 1.
      destruct (N.ltb_spec 0 (pending c')); [cbn; congruence|].
      destruct r; cbn; try congruence. apply is_ready_spec.
      destruct c'. cbn in *. split_and!; [congruence|done|lia].
    + destruct (reads_only_fields _ _ Hre) as (Hn' & _).
      destruct Ho as [-> |[e ->]]; unfold bind; rewrite Hr; congruence.
Qed.

(** RESET returns [Ok] just after the read of a SUCCESS that leaves no reply
    owed, and then unmarks the session. *)
Definition reset_accepted (c' : t) : Prop :=
  ∃ c0 c1 meta, read_message c0 = (Ok (Response.Success meta), c1) ∧ pending c1 = 0%N ∧
    c' = set_needs_reset false c1.

Lemma reset_ok_accepted c u c' : reset c = (Ok u, c') → reset_accepted c'.
Proof.
  rewrite reset_unfold. intros (u1 & c1 & _ & H)%bind_ok_inv. revert H.
  apply (loop_ok_inv (λ _ _, True) (λ _, reset_accepted)); [done| |done].
  intros a c2 b c3 _ H. unfold reset_round in H. apply bind_ok_inv in H as (r & c4 & Hr & H).
  rewrite bind_gets in H. destruct (N.ltb_spec 0 (pending c4)); [done|].
  destruct r as [meta|values|code message|]; try done. injection H as _ <-. exists c2, c4, meta. split_and!; [done|lia|done].
Qed.

Lemma reset_ok_ready c u c' : reset c = (Ok u, c') → is_ready c' = true.
Proof.
  intros (c0 & c1 & meta & Hr & Hp & ->)%reset_ok_accepted.
  destruct (read_message_cases c0) as [(r & c2 & He & Hb & Hk & _ & _)|(o & c2 & He & _ & Ho)];
    rewrite He in Hr; [|by destruct Ho as [-> |[e ->]]].
  injection Hr as -> ->. destruct (keeps_fields _ _ Hk) as (_ & _ & _ & _ & Hb' & _).
  apply is_ready_spec. destruct c1. cbn in *. split_and!; [congruence|done|done].
Qed.

(** Owed replies only ever go with the mark. *)
Definition accounted (c : t) : Prop := pending c = 0%N ∨ needs_reset c = true.

Lemma triple_ensure_clean :
  triple accounted ensure_clean (λ _ c, is_ready c = true)
    (λ _ c, is_ready c = false ∧ accounted c).
Proof.
  intros c Ha. destruct (broken c) eqn:Hb.
  - unfold ensure_clean, check_intact, gets, bind. rewrite Hb. cbn. split; [|done].
    unfold is_ready. by rewrite Hb.
  - rewrite ensure_clean_cases by done. destruct (is_ready c) eqn:Hr; [done|].
    assert (needs_reset c = true) as Hn.
    { destruct Ha as [Hp|]; [|done]. destruct (needs_reset c) eqn:Hn; [done|].
      enough (is_ready c = true) by congruence. by apply is_ready_spec. }
    pose proof (triple_reset c Hn) as H. unfold marked, accounted in *.
    destruct (reset c) as [[] ?]; auto using not_ready_needs_reset.
Qed.

(** The server's FAILURE with this code and message was read, RESET was sent,
    and the server accepted it. *)
Definition failure_reset (code message : string) (c' : t) : Prop :=
  ∃ c0 c1, read_message c0 = (Ok (Response.Failure code message), c1) ∧
    reset c1 = (Ok tt, c') ∧ reset_accepted c'.

(** An error after RESET has been tried: the session is accounted for, and not
    ready unless RESET was accepted after the server failure it reports. *)
Definition after_error (e : option BoltError) (c : t) : Prop :=
  accounted c ∧
  match e with
  | Some (BoltError.Failure code message) => is_ready c = true → failure_reset code message c
  | _ => is_ready c = false
  end.

Lemma marked_after_error e c : marked c → after_error e c.
Proof.
  intros Hm. split; [by right|]. apply not_ready_needs_reset in Hm. repeat case_match; congruence.
Qed.

Lemma triple_fail_reset {A} code message nr p (Q : A → t → Prop) :
  triple (λ c, intact true (settle nr p) c ∧
             ∃ c0, read_message c0 = (Ok (Response.Failure code message), c))
    (let! e := fail_reset code message in throw e) Q after_error.
Proof.
  intros c [(_ & Hm & _) [c0 Hr]]. pose proof (triple_reset c Hm) as H. unfold fail_reset, attempt, bind.
  destruct (reset c) as [[[]|e| | |] c'] eqn:Hreset; cbn;
    try (by apply marked_after_error). split.
  - apply is_ready_spec in H as (_ & _ & ?). by left.
  - intros _. exists c0, c. split_and!; [done..|]. by eapply reset_ok_accepted.
Qed.

Lemma triple_send_run_pull query parameters extra n :
  triple (flags true 0) (send_run_pull query parameters extra n)
    (λ _, intact true 1) after_error.
Proof.
  unfold send_run_pull. eapply triple_bind.
  { eapply triple_err; [apply (triple_write_messages true 0)|].
    intros e c [? _]. by apply marked_after_error. }
  intros u. cbn beta. eapply triple_bind.
  { eapply triple_err; [apply triple_read_reply|].
    intros e c [? _]. by apply marked_after_error. }
  intros r. destruct r as [meta|values|code message|].
  - by intros c [? _].
  - intros c [(_ & Hm & _) _]. by apply marked_after_error.
  - apply triple_fail_reset.
  - intros c [(_ & Hm & _) _]. by apply marked_after_error.
Qed.

Lemma triple_run_inner query parameters extra :
  triple (flags true 0) (run_inner query parameters extra) (λ _, intact true 0) after_error.
Proof.
  unfold run_inner. eapply triple_bind; [apply triple_send_run_pull|]. intros [columns qid].
  apply (triple_loop_by _ (λ _, intact true 1)).
  2:{ intros _ c (_ & ? & _). by apply marked_after_error. }
  intros records. eapply triple_bind.
  { eapply triple_err; [apply triple_read_reply|].
    intros e c [? _]. by apply marked_after_error. }
  intros r. destruct r as [meta|values|code message|].
  - by intros c [? _].
  - by intros c [? _].
  - apply triple_fail_reset.
  - intros c [(_ & Hm & _) _]. by apply marked_after_error.
Qed.

(** ** Broken connections *)

Definition broken_error {A} : Outcome BoltError A :=
  Err (BoltError.Closed
    "connection is broken (an exchange was cut off mid-frame or the transport failed)").

Lemma check_intact_broken c : broken c = true → check_intact c = (broken_error, c).
Proof. intros Hb. unfold check_intact, gets, bind. by rewrite Hb. Qed.

Lemma write_messages_broken reqs c :
  broken c = true → write_messages reqs c = (broken_error, c).
Proof. intros Hb. unfold write_messages. by erewrite bind_err by by apply check_intact_broken. Qed.

Lemma ensure_clean_broken c : broken c = true → ensure_clean c = (broken_error, c).
Proof. intros Hb. unfold ensure_clean. by erewrite bind_err by by apply check_intact_broken. Qed.

Lemma bind_broken {A B} (m : C A) (f : A → C B) c :
  m c = (broken_error, c) → bind m f c = (broken_error, c).
Proof. apply bind_err. Qed.

End establish.

#[export] Hint Resolve safe_hello safe_establish_session : bolt.
