(* ===== verification/Session.v ===== *)
(** * Transactions and record streams ([connection.rs])

    A [Transaction] or a [RecordStream] borrows the connection mutably: the
    model's record holds the connection's value while the borrow lasts, and
    the owner takes it back when it ends. A value dropped unfinished marks the
    connection ([Drop]); the methods that take [self] drop it on every exit,
    an error or a dropped future included. *)

From S2P Require Import Prelude Utf8 Value Message Error PackStream Wire Codec.
From S2P Require Import Handshake Framing Routing Transport Connection.

(** ** Record streams *)

Module RecordStream.

Record t := mk {
  conn : BoltConnection.t;
  columns : list string;
  qid : option Z;
  batch : Z;
  buffer : list (list BoltValue);
  has_more : bool;
  pull_in_flight : bool;
  done : bool;
  summary : option (HashMap BoltValue);
}.

Definition R (A : Type) : Type := M t BoltError A.

Definition set_conn (x : BoltConnection.t) (s : t) : t :=
  let '(mk _ co q b bu h p d su) := s in mk x co q b bu h p d su.
Definition set_buffer (x : list (list BoltValue)) (s : t) : t :=
  let '(mk c co q b _ h p d su) := s in mk c co q b x h p d su.
Definition set_has_more (x : bool) (s : t) : t :=
  let '(mk c co q b bu _ p d su) := s in mk c co q b bu x p d su.
Definition set_pull_in_flight (x : bool) (s : t) : t :=
  let '(mk c co q b bu h _ d su) := s in mk c co q b bu h x d su.
Definition set_done (x : bool) (s : t) : t :=
  let '(mk c co q b bu h p _ su) := s in mk c co q b bu h p x su.
Definition set_summary (x : option (HashMap BoltValue)) (s : t) : t :=
  let '(mk c co q b bu h p d _) := s in mk c co q b bu h p d x.

Definition on_conn {A} (m : BoltConnection.C A) : R A := zoom conn set_conn m.

Definition mark (nr : bool) : R unit := on_conn (modify (BoltConnection.set_needs_reset nr)).

(** The stream a RUN and its pipelined PULL open. *)
Definition open (columns : list string) (qid : option Z) (batch : Z) (c : BoltConnection.t) : t :=
  mk c columns qid batch [] true true false None.

Definition input_left (s : t) : nat := BoltConnection.input_size (conn s).

Definition fail_reset `{!HashIter} {A} (code message : string) : R A :=
  let! e := on_conn (BoltConnection.fail_reset code message) in throw e.

Definition fetch_batch `{!HashIter} : R unit :=
  let! s := gets id in
  do! (if pull_in_flight s then ret tt
       else do! on_conn (BoltConnection.write_message (pull (batch s) (qid s))) in
            modify (set_pull_in_flight true)) in
  loop_by input_left (λ _,
    let! response := on_conn BoltConnection.read_message in
    match response with
    | Response.Record values =>
        do! modify (λ s, set_buffer (buffer s ++ [values]) s) in
        ret (inl tt)
    | Response.Success meta =>
        let more := default false (get_as as_bool meta "has_more") in
        do! modify (set_pull_in_flight false) in
        do! modify (set_has_more more) in
        do! (if more then ret tt
             else do! modify (set_summary (Some meta)) in mark false) in
        ret (inr tt)
    | Response.Failure code message =>
        do! modify (set_done true) in
        fail_reset code message
    | Response.Ignored =>
        do! modify (set_done true) in
        throw (BoltError.Protocol (Text "PULL ignored by server"))
    end) tt.

Definition next `{!HashIter} : R (option (list BoltValue)) :=
  loop_by input_left (λ _,
    let! s := gets id in
    match buffer s with
    | row :: rest => do! modify (set_buffer rest) in ret (inr (Some row))
    | [] =>
        if done s || negb (has_more s) then
          do! modify (set_done true) in ret (inr None)
        else do! fetch_batch in ret (inl tt)
    end) tt.

(** [self.summary.take()] *)
Definition take_summary : R (option (HashMap BoltValue)) :=
  let! s := gets id in
  do! modify (set_summary None) in
  ret (summary s).

(** DISCARD what is left, the end of [finish]. *)
Definition discard_rest `{!HashIter} : R (HashMap BoltValue) :=
  do! modify (set_done true) in
  let! s := gets id in
  do! on_conn (BoltConnection.write_message (discard (-1) (qid s))) in
  loop_by input_left (λ _,
    let! response := on_conn BoltConnection.read_message in
    match response with
    | Response.Success meta => do! mark false in ret (inr meta)
    | Response.Record _ => ret (inl tt)
    | Response.Failure code message => fail_reset code message
    | Response.Ignored => throw (BoltError.Protocol (Text "DISCARD ignored by server"))
    end) tt.

Definition finish_body `{!HashIter} : R (HashMap BoltValue) :=
  let! taken := take_summary in
  match taken with
  | Some summary => do! modify (set_done true) in ret summary
  | None =>
      let! s := gets id in
      if done s then ret ∅
      else if pull_in_flight s then
        do! fetch_batch in
        do! modify (set_buffer []) in
        let! taken := take_summary in
        match taken with
        | Some summary => do! modify (set_done true) in ret summary
        | None => discard_rest
        end
      else discard_rest
  end.

(** [Drop]: the connection goes back to its owner. *)
Definition drop (s : t) : BoltConnection.t :=
  if done s then conn s else BoltConnection.set_needs_reset true (conn s).

(** [finish(self)] *)
Definition finish `{!HashIter} (s : t)
    : Outcome BoltError (HashMap BoltValue) * BoltConnection.t :=
  let '(o, s') := finish_body s in (o, drop s').

End RecordStream.

(** ** Transactions *)

Module Transaction.

Record t := mk { conn : BoltConnection.t; done : bool }.

Definition T (A : Type) : Type := M t BoltError A.

Definition set_conn (x : BoltConnection.t) (tx : t) : t := mk x (done tx).
Definition set_done (x : bool) (tx : t) : t := mk (conn tx) x.

Definition on_conn {A} (m : BoltConnection.C A) : T A := zoom conn set_conn m.

Definition mark (nr : bool) : T unit := on_conn (modify (BoltConnection.set_needs_reset nr)).

Definition guard_open : T unit :=
  do! on_conn BoltConnection.check_intact in
  let! tx := gets id in
  if BoltConnection.needs_reset (conn tx) then
    do! modify (set_done true) in
    throw (BoltError.Protocol (Text
      "an earlier statement did not finish (cancelled, or its stream dropped); tx aborted"))
  else if done tx then throw (BoltError.Protocol (Text "transaction already closed"))
  else ret tt.

Definition run `{!HashIter} (query : string) (parameters : HashMap BoltValue) : T QueryResult :=
  do! guard_open in
  do! mark true in
  let! result := attempt (on_conn (BoltConnection.run_inner query parameters ∅)) in
  do! (match result with inr _ => mark false | inl _ => modify (set_done true) end) in
  from_sum result.

(** The stream borrows the transaction's connection: [resume] ends it. *)
Definition run_stream `{!HashIter} (query : string) (parameters : HashMap BoltValue) (batch : Z)
    : T RecordStream.t :=
  do! from_sum (validate_batch batch) in
  do! guard_open in
  do! mark true in
  let! run := attempt (on_conn (BoltConnection.send_run_pull query parameters ∅ batch)) in
  match run with
  | inr (columns, qid) => gets (λ tx, RecordStream.open columns qid batch (conn tx))
  | inl e => do! modify (set_done true) in throw e
  end.

Definition resume (s : RecordStream.t) (tx : t) : t := set_conn (RecordStream.drop s) tx.

Definition finish_end `{!HashIter} (ctx : string) : T (HashMap BoltValue) :=
  let! response := on_conn BoltConnection.read_message in
  match response with
  | Response.Success meta => ret meta
  | Response.Failure code message =>
      let! e := on_conn (BoltConnection.fail_reset code message) in throw e
  | other => throw (BoltError.Protocol (UnexpectedResponse ctx other))
  end.

Definition commit_body `{!HashIter} : T (option string) :=
  do! guard_open in
  do! modify (set_done true) in
  do! mark true in
  do! on_conn (BoltConnection.write_message commit_request) in
  let! meta := finish_end "COMMIT" in
  do! mark false in
  ret (meta_str meta "bookmark").

Definition rollback_body `{!HashIter} : T unit :=
  let! tx := gets id in
  if done tx then ret tt
  else
    do! modify (set_done true) in
    do! mark true in
    do! on_conn (BoltConnection.write_message rollback_request) in
    do! finish_end "ROLLBACK" in
    mark false.

(** [Drop] *)
Definition drop (tx : t) : BoltConnection.t :=
  if done tx then conn tx else BoltConnection.set_needs_reset true (conn tx).

(** [commit(self)], [rollback(self)] *)
Definition commit `{!HashIter} (tx : t) : Outcome BoltError (option string) * BoltConnection.t :=
  let '(o, tx') := commit_body tx in (o, drop tx').

Definition rollback `{!HashIter} (tx : t) : Outcome BoltError unit * BoltConnection.t :=
  let '(o, tx') := rollback_body tx in (o, drop tx').

End Transaction.

(** ** Opening them on a connection *)

Definition run_stream_with `{!HashIter} (query : string) (parameters extra : HashMap BoltValue)
    (batch : Z) : BoltConnection.C RecordStream.t :=
  do! from_sum (validate_batch batch) in
  do! BoltConnection.ensure_clean in
  do! modify (BoltConnection.set_needs_reset true) in
  let! '(columns, qid) := BoltConnection.send_run_pull query parameters extra batch in
  gets (RecordStream.open columns qid batch).

Definition run_stream `{!HashIter} (query : string) (parameters : HashMap BoltValue) (batch : Z)
    : BoltConnection.C RecordStream.t :=
  run_stream_with query parameters ∅ batch.

Definition begin_with `{!HashIter} (opts : TxOptions) : BoltConnection.C Transaction.t :=
  do! BoltConnection.ensure_clean in
  do! modify (BoltConnection.set_needs_reset true) in
  do! BoltConnection.write_message (begin_request (into_meta opts)) in
  let! response := BoltConnection.read_message in
  do! from_sum (expect_success response "BEGIN") in
  do! modify (BoltConnection.set_needs_reset false) in
  gets (λ c, Transaction.mk c false).

Definition begin `{!HashIter} : BoltConnection.C Transaction.t := begin_with default_options.
