(* ===== verification/Guarantees.v ===== *)
(** * What a connection guarantees

    The properties of [BoltConnection]'s operations: exact results and
    recovery against a peer that answers, and the state left behind under any
    transport. *)

From S2P Require Import Prelude Utf8 Value Message Error PackStream Wire Codec.
From S2P Require Import Handshake Framing Routing Transport Connection Receive Exchange Safety Session.
Import BoltConnection.

(** ** Inversions of successful steps *)

Lemma read_message_ok_inv c r c' :
  read_message c = (Ok r, c') →
  broken c = false ∧ keeps c c' ∧ pending c' = settle r (pending c).
Proof.
  intros H. destruct (read_message_cases c) as [(r' & c1 & He & ? & ? & ? & _)|(o & c1 & He & _ & Ho)];
    rewrite He in H; [by injection H as -> ->|by destruct Ho as [-> |[e ->]]].
Qed.

Lemma write_messages_ok_inv {hash : HashIter} reqs c u c' :
  write_messages reqs c = (Ok u, c') →
  ∃ bs ws, framed reqs bs ∧ broken c = false ∧
    c' = set_pending (pending c + owed reqs) (wrote bs ws c).
Proof.
  intros H. destruct (write_messages_cases reqs c)
    as [(bs & ws & ? & ? & He)|(o & c1 & He & Ho & _)]; rewrite He in H.
  - injection H as _ <-. eauto.
  - by destruct Ho as [-> |[e ->]].
Qed.

Lemma handshake_loop_input c u c' :
  loop_by input_size handshake_round tt c = (Ok u, c') →
  (∃ evs r, c' = set_input evs r c) ∧ (4 ≤ length (rbuf c'))%nat.
Proof.
  apply (loop_ok_inv (λ _ c1, ∃ evs r, c1 = set_input evs r c)
    (λ _ c1, (∃ evs r, c1 = set_input evs r c) ∧ (4 ≤ length (rbuf c1))%nat)).
  - intros a c1 a' c2 (evs & r & ->) H. unfold handshake_round, gets in H. unfold bind at 1 in H.
    case_decide; [|done]. apply bind_ok_inv in H as ([] & c3 & Hf & [= _ <-]).
    apply fill_ok_inv in Hf as (bs & evs' & _ & ->). rewrite set_input_twice. eauto.
  - intros a c1 b c2 HP [-> ?]%handshake_round_ok. done.
  - eexists _, _. symmetry. apply set_input_id.
Qed.

Lemma handshake_ok_inv c u c' :
  handshake c = (Ok u, c') →
  supported (version c') = true ∧ broken c' = false ∧ needs_reset c' = needs_reset c ∧
  pending c' = pending c ∧ sent (stream c') = sent (stream c) ++ client_hello.
Proof.
  rewrite handshake_unfold. intros (u1 & c1 & Hw & H)%bind_ok_inv.
  apply bind_ok_inv in H as (u2 & c2 & Hl & H).
  destruct (write_bytes_cases client_hello c) as [(ws & He)|(o & s & ws & He & Ho)];
    rewrite He in Hw; [|by destruct Ho as [-> |[e ->]]].
  injection Hw as _ <-. apply handshake_loop_input in Hl as ((evs & r & ->) & Hr).
  destruct (accept_version_cases _ Hr) as (b0 & b1 & b2 & b3 & rest & _ & Ha).
  rewrite Ha in H. destruct (is_zero _ || negb _) eqn:Hs; [done|].
  apply orb_false_iff in Hs as [_ Hs%negb_false_iff]. injection H as _ <-.
  destruct c as [[]]. cbn in *. done.
Qed.

Lemma owed_one req : req_signature req ≠ GOODBYE → owed [req] = 1%N.
Proof. intros Hr. unfold owed. by rewrite filter_cons_True. Qed.

Section guarantees.
Context {hash : HashIter}.

(** One request and its SUCCESS, as HELLO and LOGON use it. *)
Lemma request_success_inv {A} req ctx (k : HashMap BoltValue → C A) c a c' :
  (do! write_message req in
   let! response := read_message in
   let! meta := from_sum (expect_success response ctx) in k meta) c = (Ok a, c') →
  req_signature req ≠ GOODBYE → needs_reset c = false → pending c = 0%N →
  ∃ c1 meta bs, framed [req] bs ∧ k meta c1 = (Ok a, c') ∧ is_ready c1 = true ∧
    version c1 = version c ∧ sent (stream c1) = sent (stream c) ++ bs.
Proof.
  intros (u & c1 & Hw & H)%bind_ok_inv Hreq Hn Hp.
  apply write_messages_ok_inv in Hw as (bs & ws & Hf & Hb & ->).
  apply bind_ok_inv in H as (r & c2 & Hr & H).
  apply read_message_ok_inv in Hr as (Hb2 & Hk & Hp2).
  destruct (keeps_fields _ _ Hk) as (Hv & _ & _ & Hn2 & Hbr & _ & _ & Hsent).
  apply bind_ok_inv in H as (meta & c3 & Hm & H).
  destruct r; try done. injection Hm as -> <-.
  exists c2, meta, bs. split_and!; [done|done| | |].
  - apply is_ready_spec. unfold settle in Hp2. cbn in Hp2. rewrite pending_set_pending in Hp2.
    rewrite owed_one, Hp in Hp2 by done. change (pending c2 = 0%N) in Hp2.
    destruct c as [[]]. cbn in *. split_and!; congruence.
  - destruct c as [[]]. cbn in *. congruence.
  - destruct c as [[]]. cbn in *. congruence.
Qed.

Lemma is_ready_agent c a i :
  is_ready (set_connection_id i (set_server_agent a c)) = is_ready c ∧
  version (set_connection_id i (set_server_agent a c)) = version c ∧
  sent (stream (set_connection_id i (set_server_agent a c))) = sent (stream c) ∧
  needs_reset (set_connection_id i (set_server_agent a c)) = needs_reset c ∧
  pending (set_connection_id i (set_server_agent a c)) = pending c.
Proof. by destruct c. Qed.

(** ** Properties *)

(** C17: an established session. When [establish] returns a connection, under
    any transport, the server's version is one the client supports, the
    session is ready (intact, no reset due, no reply owed), and what was sent
    is the version proposals, then one HELLO, then one LOGON with the
    credentials given (or the scheme [none]): nothing before or after. *)
Theorem establish_ready s auth c :
  establish s auth = Ok c →
  supported (version c) = true ∧ is_ready c = true ∧
  ∃ hello_bs logon_bs,
    framed [Message.hello ("boltwire/" +:+ CARGO_PKG_VERSION +:+ " (Rust)")] hello_bs ∧
    framed [match auth with
            | Some a => logon_basic (principal a) (credentials a)
            | None => logon_none
            end] logon_bs ∧
    sent (stream c) = sent s ++ client_hello ++ hello_bs ++ logon_bs.
Proof.
  unfold establish. destruct (establish_session auth (new_conn s)) as [[u| | | |] c'] eqn:H; try done.
  intros [= <-]. unfold establish_session in H.
  apply bind_ok_inv in H as (u1 & c1 & Hh & H).
  apply handshake_ok_inv in Hh as (Hv & _ & Hn & Hp & Hs). cbn in Hn, Hp, Hs.
  apply bind_ok_inv in H as (u2 & c2 & Hh & H).
  unfold hello in Hh. apply request_success_inv in Hh
    as (c3 & meta & b1 & Hf1 & Hk & Hr & Hv3 & Hs3); [|done..].
  injection Hk as _ <-. destruct (is_ready_agent c3 (meta_str meta "server")
    (meta_str meta "connection_id")) as (_ & Hv2 & Hs2 & Hn2 & Hp2).
  apply is_ready_spec in Hr as (_ & Hn3 & Hp3).
  apply request_success_inv in H
    as (c4 & meta' & b2 & Hf2 & [= _ <-] & Hr4 & Hv4 & Hs4); [|by destruct auth|congruence..].
  split_and!; [congruence|done|]. exists b1, b2. split_and!; [done..|].
  rewrite Hs4, Hs2, Hs3, Hs. by rewrite <- !app_assoc.
Qed.

(** [connect] and [connect_tls] always end: dialling, the TLS provider, or
    any exchange that stays pending is cut off by the deadline and reported as
    a timeout, and nothing panics. *)
Lemma connect_returns dial auth :
  dial ≠ Panic → dial ≠ OutOfFuel →
  (∃ c, connect dial auth = Ok c) ∨ (∃ e, connect dial auth = Err e).
Proof.
  intros Hp Ho. unfold connect. destruct dial as [tcp|kind| | |]; cbn; try done; [|eauto..].
  unfold establish. pose proof (safe_establish_session auth (new_conn tcp)) as [Hp' Ho'].
  destruct (establish_session auth (new_conn tcp)) as [[] c']; cbn in *; try done; eauto.
Qed.


(** The same for BEGIN: on [Ok] the transaction starts from a ready
    session; on any other outcome, a BEGIN the server refuses included, the
    session is not ready, so the next operation resets first. *)
Lemma begin_with_readiness opts c :
  accounted c →
  match begin_with opts c with
  | (Ok tx, c') => Transaction.conn tx = c' ∧ Transaction.done tx = false ∧ is_ready c' = true
  | (_, c') => is_ready c' = false ∧ accounted c'
  end.
Proof.
  intros Ha. pose proof (triple_ensure_clean c Ha) as He. unfold begin_with. unfold bind at 1.
  destruct (ensure_clean c) as [[u|e| | |] c1]; try done.
  apply is_ready_spec in He as (Hb & Hn & Hp).
  assert (flags true 0 (set_needs_reset true c1)) as Hf by (unfold flags; by destruct c1).
  unfold bind at 1, modify at 1.
  assert (∀ c', flags true 0 c' ∨ (∃ p, flags true p c') → is_ready c' = false ∧ accounted c') as Hno.
  { intros c' [[Hn' _]|(p & Hn' & _)];
      (split; [by apply not_ready_needs_reset | by right]). }
  pose proof (triple_write_messages true 0 [begin_request (into_meta opts)] _ Hf) as Hw.
  unfold write_message. unfold bind at 1.
  destruct (write_messages _ (set_needs_reset true c1)) as [[u'|e| | |] c2]; try by apply Hno; left.
  pose proof (triple_read_intact true _ c2 Hw) as Hr. unfold bind at 1.
  destruct (read_message c2) as [[r|e| | |] c3]; try (apply Hno; right; by eexists).
  destruct Hr as (Hb3 & Hn3 & Hp3). destruct r; cbn; try (apply Hno; right; by eexists).
  split_and!; [done..|]. apply is_ready_spec. destruct c3. cbn in *. by subst.
Qed.

(** A broken connection is left alone. Every operation on it fails with
    the "connection is broken" error, sends nothing, reads nothing and changes
    nothing; [close] sends no GOODBYE and only shuts the socket down. *)
Lemma broken_is_silent c :
  broken c = true →
  (∀ reqs, write_messages reqs c = (broken_error, c)) ∧ read_message c = (broken_error, c) ∧
  reset c = (broken_error, c) ∧
  (∀ query parameters extra, run_with query parameters extra c = (broken_error, c)) ∧
  (∀ query parameters extra batch, validate_batch batch = inr tt →
     run_stream_with query parameters extra batch c = (broken_error, c)) ∧
  (∀ opts, begin_with opts c = (broken_error, c)) ∧
  (∀ context db, route context db c = (broken_error, c)) ∧
  close c = on_stream (stream_write []) c.
Proof.
  intros Hb. pose proof (ensure_clean_broken c Hb) as He. split_and!.
  - intros reqs. by apply write_messages_broken.
  - rewrite read_message_after. by rewrite Hb.
  - unfold reset, write_message. apply bind_broken. by apply write_messages_broken.
  - intros. unfold run_with. by apply bind_broken.
  - intros query parameters extra batch Hv. unfold run_stream_with. rewrite Hv.
    unfold from_sum. unfold bind at 1, ret at 1. by apply bind_broken.
  - intros. unfold begin_with. by apply bind_broken.
  - intros. unfold route. by apply bind_broken.
  - unfold close, gets. unfold bind at 1. rewrite Hb. done.
Qed.

(** C7: exactness and recovery of queries. Let the session be ready, or have
    abandoned exchanges whose replies are still to come (any number, counted by
    [pending]), followed by RESET's SUCCESS; then come the replies to the
    query, in any fragmentation, with interruptions anywhere. Either
    [run_with] returns exactly the columns and records of {e its own} replies,
    leaves the session ready with the rest of the input unread, and has sent
    RESET (only if it was needed), RUN and PULL; or it is interrupted, and the
    session is abandoned in turn before one of the two points the replies
    allow, so the same theorem applies to the next query. *)
Theorem run_with_recovers allow query parameters extra c bs ws m meta rows summary rs more :
  poised allow c m (run_replies meta rows summary ++ rs) more →
  framed (query_requests query parameters extra (-1)) bs →
  outgoing (stream c) = recovery_writes c ++ WrDone :: WrDone :: ws →
  (∃ c', run_with query parameters extra c =
     (Ok (mk_result (extract_columns meta) rows), c') ∧ is_ready c' = true ∧
     expects allow c' rs more ∧ sent (stream c') = sent (stream c) ++ recovery c ++ bs) ∨
  (allow = true ∧ ∃ o c', run_with query parameters extra c = (o, c') ∧ interrupted o ∧
     (abandoned allow c' (run_replies meta rows summary ++ rs) more ∨
      abandoned allow c' rs more) ∧
     ∀ m' todo, abandoned allow c' (Response.Success m' :: todo) more → poised allow c' m' todo more).
Proof.
  intros Hp Hf Ho.
  destruct (run_with_yields allow query parameters extra c bs ws m meta rows summary rs more Hp Hf Ho)
    as [(r & c' & Hr & -> & Hready & He & Hm)|(Ha & o & c' & Hr & Hi & Hab)].
  - left. exists c'. split_and!; [done..|]. apply (moved_fields _ _ _ _ _ Hm).
  - right. split; [done|]. exists o, c'. split_and!; [done..|]. intros. by apply abandoned_poised.
Qed.

Lemma reset_drains c old r rs more ws :
  broken c = false → pending c = summaries old → is_record r = false →
  expects false c (old ++ r :: rs) more → outgoing (stream c) = WrDone :: WrDone :: ws →
  ∃ c', reset c =
    (match r with
     | Response.Success _ => Ok tt
     | Response.Failure code message => Err (BoltError.Failure code message)
     | other => Err (BoltError.Protocol (UnexpectedResponse "RESET" other))
     end, c') ∧
    expects false c' rs more ∧ pending c' = 0%N ∧
    sent (stream c') = sent (stream c) ++ reset_frame ∧
    needs_reset c' = match r with Response.Success _ => false | _ => needs_reset c end.
Proof.
  intros Hb Hp Hr He Ho. rewrite reset_unfold.
  destruct (write_messages_expects _ _ _ _ _ _ _ Hb framed_reset Ho He)
    as (c1 & Hw & He1 & Hm & Hp1).
  unfold write_message. rewrite (bind_ok _ _ _ _ _ Hw).
  destruct (moved_fields _ _ _ _ _ Hm) as (_ & _ & _ & Hn1 & Hb1 & _ & _ & Hs1).
  destruct (reset_loop_drains old r rs more (S (input_size c1)) c1) as (c0 & c' & Hl & Hread & He2 & Hk & Hp2);
    [done|congruence| |done| |].
  { rewrite Hp1, Hp. change (owed [reset_request]) with 1%N. lia. }
  { apply expects_length in He1. rewrite length_app in He1. lia. }
  destruct (keeps_fields _ _ Hk) as (_ & _ & _ & Hn2 & _ & _ & _ & Hs2).
  exists (match r with Response.Success _ => set_needs_reset false c' | _ => c' end).
  rewrite Hl. cbn [loop]. unfold bind at 1. rewrite (reset_round_own _ _ _ Hread Hp2 Hr).
  destruct r; cbn; try done; (split_and!; [done| | | |]);
    try first [by apply expects_set_needs_reset | by destruct c' | congruence];
    destruct c'; cbn in *; congruence.
Qed.

(** C12: RESET drains exactly the replies owed. With [old] the replies still to
    come to earlier requests, as many summaries as [pending] says and any
    number of records among them, [reset] sends one RESET, drops all of [old]
    whatever they say, and returns according to the reply after them. *)
Theorem reset_drains_owed c old r rs more ws :
  broken c = false → pending c = summaries old → is_record r = false →
  expects false c (old ++ r :: rs) more → outgoing (stream c) = WrDone :: WrDone :: ws →
  ∃ c', reset c =
    (match r with
     | Response.Success _ => Ok tt
     | Response.Failure code message => Err (BoltError.Failure code message)
     | other => Err (BoltError.Protocol (UnexpectedResponse "RESET" other))
     end, c') ∧
    expects false c' rs more ∧ pending c' = 0%N ∧
    sent (stream c') = sent (stream c) ++ reset_frame ∧
    needs_reset c' = match r with Response.Success _ => false | _ => needs_reset c end.
Proof. apply reset_drains. Qed.

(** A refused RESET goes unmarked. On a ready session [reset] does not
    mark the session before its exchange, so when the server answers RESET
    with FAILURE or IGNORED the call fails and yet the session is still
    reported ready: the next operation sends its request without recovering. *)
Lemma reset_refused_stays_ready c r rs more ws :
  is_ready c = true → is_record r = false → (∀ m, r ≠ Response.Success m) →
  expects false c (r :: rs) more → outgoing (stream c) = WrDone :: WrDone :: ws →
  ∃ e c', reset c = (Err e, c') ∧ is_ready c' = true.
Proof.
  intros Hready Hr Hns He Ho. apply is_ready_spec in Hready as (Hb & Hn & Hp).
  destruct (write_messages_expects _ _ _ _ _ _ _ Hb framed_reset Ho He)
    as (c1 & Hw & He1 & Hm & Hp1). rewrite Hp in Hp1.
  destruct (moved_fields _ _ _ _ _ Hm) as (_ & _ & _ & Hn1 & Hb1 & _).
  rewrite Hb in Hb1. destruct (read_message_ok _ _ _ _ Hb1 He1) as (c2 & Hr2 & _ & Hk & Hp2).
  destruct (keeps_fields _ _ Hk) as (_ & _ & _ & Hn2 & Hb2 & _).
  rewrite Hp1 in Hp2. unfold settle in Hp2. rewrite Hr in Hp2.
  assert (is_ready c2 = true) as Hready2 by (apply is_ready_spec; split_and!; [congruence..|done]).
  rewrite reset_unfold. unfold write_message. rewrite (bind_ok _ _ _ _ _ Hw).
  cbn [loop]. unfold bind. rewrite (reset_round_own _ _ _ Hr2 Hp2 Hr).
  destruct r; [by destruct (Hns meta)|done|eauto..].
Qed.

(** C18: a query the server refuses. RUN's FAILURE is returned as such; the
    IGNORED of the pipelined PULL is drained and the session RESET before
    [run_with] returns, so it is ready for the next query, with nothing of the
    rest of the input read. *)
Theorem run_failure_recovers query parameters extra c bs ws code message m rs more :
  is_ready c = true → framed (query_requests query parameters extra (-1)) bs →
  outgoing (stream c) = WrDone :: WrDone :: WrDone :: WrDone :: ws →
  expects false c (Response.Failure code message :: Response.Ignored :: Response.Success m :: rs)
    more →
  ∃ c', run_with query parameters extra c = (Err (BoltError.Failure code message), c') ∧
    is_ready c' = true ∧ expects false c' rs more ∧
    sent (stream c') = sent (stream c) ++ bs ++ reset_frame.
Proof.
  intros Hready Hf Ho He. apply is_ready_spec in Hready as Hr. destruct Hr as (Hb & Hn & Hp).
  rewrite run_with_marked. unfold bind at 1. rewrite ensure_clean_cases, Hready by done.
  set (c0 := set_needs_reset true c).
  assert (moved true [] (outgoing (stream c)) c c0) as Hm0 by apply moved_set_needs_reset.
  assert (expects false c0 (Response.Failure code message :: Response.Ignored ::
    Response.Success m :: rs) more) as He0 by by apply expects_set_needs_reset.
  destruct (moved_fields _ _ _ _ _ Hm0) as (_ & _ & _ & Hn0 & Hb0 & _ & Ho0 & _).
  rewrite Hb in Hb0. rewrite Ho in Ho0.
  destruct (write_messages_expects _ _ _ _ _ _ _ Hb0 Hf Ho0 He0) as (c1 & Hw & He1 & Hm1 & Hp1).
  assert (pending c1 = 2%N) as Hp1'.
  { rewrite Hp1. unfold c0. rewrite pending_set_needs_reset, Hp. done. }
  pose proof (moved_broken _ _ _ _ _ Hm1) as Hb1. rewrite Hb0 in Hb1.
  destruct (read_message_ok _ _ _ _ Hb1 He1) as (c2 & Hr2 & He2 & Hk2 & Hp2).
  rewrite Hp1' in Hp2. pose proof (moved_keeps_r _ _ _ _ _ _ Hm1 Hk2) as Hm2.
  pose proof (moved_broken _ _ _ _ _ Hm2) as Hb2. rewrite Hb0 in Hb2.
  destruct (yields_definite _ _ _ (reset_yields false c2 [Response.Ignored] m rs more ws Hb2 Hp2
    (moved_outgoing _ _ _ _ _ Hm2) He2)) as (u & c3 & Hr3 & He3 & Hm3 & Hp3).
  exists c3. unfold run_inner, send_run_pull, query_requests in *. unfold bind, fail_reset, attempt.
  fold c0. rewrite Hw. rewrite Hr2. unfold bind. rewrite Hr3. cbn.
  pose proof (moved_trans _ _ _ _ _ _ _ _ _ Hm0 (moved_trans _ _ _ _ _ _ _ _ _ Hm2 Hm3)) as Hm.
  destruct (moved_fields _ _ _ _ _ Hm) as (_ & _ & _ & Hn' & Hb' & _ & _ & Hs').
  split_and!; [done| |done|done]. apply is_ready_spec. split_and!; congruence.
Qed.

End guarantees.

(** ** Witnesses *)

Definition ignored_body : bytes := [xb0; x7e].
Definition failure_body : bytes := [xb0; x7f].
Definition record_body : bytes := [xb1; x71; x91; x07].

Definition refused : Response := Response.Failure "Unknown" "(no message)".

Lemma reply_one r body sg fs :
  encodes (BoltValue.Structure sg fs) body → from_structure sg fs = Some r →
  (len body <? 65536)%N = true → reply_chunks r [body].
Proof.
  intros He Hr Hl. apply N.ltb_lt in Hl as Hl'. split_and!.
  - constructor; [|constructor]. apply encodes_nonempty in He. unfold good_chunk, len in *. lia.
  - unfold total_size. change (mjoin [body]) with (body ++ []). rewrite app_nil_r.
    unfold MAX_MESSAGE. lia.
  - change (mjoin [body]) with (body ++ []). rewrite app_nil_r. by exists sg, fs.
Qed.

Lemma ignored_reply : reply_chunks Response.Ignored [ignored_body].
Proof.
  apply (reply_one _ _ IGNORED []); [|done..].
  apply (enc_structure IGNORED [] [xb0] []); [by apply (header_tiny TINY_STRUCT STRUCT_8 0)|constructor].
Qed.

Lemma failure_reply : reply_chunks refused [failure_body].
Proof.
  apply (reply_one _ _ FAILURE []); [|done..].
  apply (enc_structure FAILURE [] [xb0] []); [by apply (header_tiny TINY_STRUCT STRUCT_8 0)|constructor].
Qed.

Lemma record_reply : reply_chunks (Response.Record [BoltValue.Int 7]) [record_body].
Proof.
  apply (reply_one _ _ RECORD [BoltValue.List [BoltValue.Int 7]]); [|done..].
  apply (enc_structure RECORD [BoltValue.List [BoltValue.Int 7]] [xb1] [x91; x07]).
  - by apply (header_tiny TINY_STRUCT STRUCT_8 1).
  - apply (items_cons (BoltValue.List [BoltValue.Int 7]) [] [x91; x07] []); [|constructor].
    apply (enc_list [BoltValue.Int 7] [x91] [x07]); [by apply (header_tiny TINY_LIST LIST_8 1)|].
    apply (items_cons (BoltValue.Int 7) [] [x07] []); [apply (enc_tiny_int 7); lia|constructor].
Qed.

(** The bytes of one-chunk replies. *)
Definition reply_bytes (bodies : list bytes) : bytes :=
  mjoin ((λ body, chunks_wire [body] ++ [x00; x00]) <$> bodies).

Lemma replies_wire_bodies rs bodies :
  Forall2 (λ r body, reply_chunks r [body]) rs bodies → replies_wire rs (reply_bytes bodies).
Proof.
  induction 1 as [|r body rs bodies Hr _ IH]; [constructor|].
  change (reply_bytes (body :: bodies)) with ((chunks_wire [body] ++ [x00; x00]) ++ reply_bytes bodies).
  rewrite <- app_assoc. by apply replies_cons.
Qed.

(** A session with these replies to come, in one piece, and these flags. *)
Definition waiting (nr : bool) (p : N) (bodies : list bytes) (writes : nat) : t :=
  mk (mk_stream [RdData (reply_bytes bodies)] (replicate writes WrDone) [])
    (new_version x05 x08) None None nr p false [] 30.

Lemma waiting_expects allow nr p rs bodies n :
  rs ≠ [] → Forall2 (λ r body, reply_chunks r [body]) rs bodies →
  expects allow (waiting nr p bodies n) rs [].
Proof.
  intros Hrs H. exists (reply_bytes bodies). split; [by apply replies_wire_bodies|].
  exists [RdData (reply_bytes bodies)]. split_and!; [done| |by rewrite arriving_cons, app_nil_r].
  constructor; [|constructor]. destruct H; [done|]. by intros Hn%(f_equal length).
Qed.

Definition query_bytes : bytes :=
  (for_each (@encode listing_order) (query_requests "RETURN 7" ∅ ∅ (-1)) []).2.

Lemma query_framed : @framed listing_order (query_requests "RETURN 7" ∅ ∅ (-1)) query_bytes.
Proof. by vm_compute. Qed.

Ltac replies := repeat (apply Forall2_cons; split);
  first [apply success_reply | apply ignored_reply | apply failure_reply | apply record_reply
        | constructor].

(** A query was cancelled: its PULL's record and summary are still to come. *)
Lemma run_with_recovers_witness :
  let c := waiting true 1 [record_body; success_body; success_body; success_body; record_body;
                           success_body] 4 in
  (∃ c', @run_with listing_order "RETURN 7" ∅ ∅ c =
     (Ok (mk_result (extract_columns ∅) [[BoltValue.Int 7]]), c') ∧ is_ready c' = true ∧
     expects false c' [] [] ∧
     sent (stream c') = sent (stream c) ++ recovery c ++ query_bytes) ∨
  (false = true ∧ ∃ o c', @run_with listing_order "RETURN 7" ∅ ∅ c = (o, c') ∧ interrupted o ∧
     (abandoned false c' (run_replies ∅ [[BoltValue.Int 7]] ∅ ++ []) [] ∨ abandoned false c' [] []) ∧
     ∀ m' todo, abandoned false c' (Response.Success m' :: todo) [] → poised false c' m' todo []).
Proof.
  apply (@run_with_recovers listing_order false "RETURN 7" ∅ ∅ _ query_bytes [] ∅ ∅
    [[BoltValue.Int 7]] ∅ [] []).
  - split; [done|]. exists [Response.Record [BoltValue.Int 7]; Response.Success ∅].
    split; [done|]. apply waiting_expects; [done|]. replies.
  - exact query_framed.
  - done.
Defined.

Lemma reset_drains_owed_witness :
  ∃ c', @reset listing_order
      (waiting true 2 [record_body; success_body; ignored_body; success_body] 2) = (Ok tt, c') ∧
    expects false c' [] [] ∧ pending c' = 0%N ∧
    sent (stream c') = [] ++ reset_frame ∧ needs_reset c' = false.
Proof.
  apply (@reset_drains_owed listing_order
    (waiting true 2 [record_body; success_body; ignored_body; success_body] 2)
    [Response.Record [BoltValue.Int 7]; Response.Success ∅; Response.Ignored]
    (Response.Success ∅) [] [] []); [done..| |done].
  apply waiting_expects; [done|]. replies.
Defined.
Lemma run_failure_recovers_witness :
  ∃ c', @run_with listing_order "RETURN 7" ∅ ∅
      (waiting false 0 [failure_body; ignored_body; success_body] 4) =
    (Err (BoltError.Failure "Unknown" "(no message)"), c') ∧
    is_ready c' = true ∧ expects false c' [] [] ∧
    sent (stream c') = [] ++ query_bytes ++ reset_frame.
Proof.
  apply (@run_failure_recovers listing_order "RETURN 7" ∅ ∅
    (waiting false 0 [failure_body; ignored_body; success_body] 4) query_bytes [] "Unknown" "(no message)"
    ∅ [] []); [done|exact query_framed|done|].
  apply waiting_expects; [done|]. replies.
Defined.


(** The server agrees on 5.4 and accepts HELLO and LOGON. *)
Definition greeting : Stream :=
  mk_stream [RdData [x00; x00]; RdData [x04; x05]; RdData (reply_bytes [success_body; success_body])]
    (replicate 6 WrDone) [].

Definition established : t :=
  match @establish listing_order greeting None with Ok c => c | _ => new_conn greeting end.

Lemma establish_ready_witness :
  supported (version established) = true ∧ is_ready established = true ∧
  ∃ hello_bs logon_bs,
    @framed listing_order [Message.hello ("boltwire/" +:+ CARGO_PKG_VERSION +:+ " (Rust)")] hello_bs ∧
    @framed listing_order [logon_none] logon_bs ∧
    sent (stream established) = sent greeting ++ client_hello ++ hello_bs ++ logon_bs.
Proof. apply (@establish_ready listing_order greeting None). vm_compute. reflexivity. Defined.
