(* ===== verification/SessionSpec.v ===== *)
(** * What transactions and streams guarantee *)

From S2P Require Import Prelude Utf8 Value Message Error PackStream Wire Codec.
From S2P Require Import Handshake Framing Routing Transport Connection Receive Exchange Safety.
From S2P Require Import Session Guarantees.
Import BoltConnection.

(** ** Running a connection's operation inside a borrow *)

Lemma stream_on_conn {A} (m : C A) (s : RecordStream.t) o c' :
  m (RecordStream.conn s) = (o, c') →
  RecordStream.on_conn m s = (o, RecordStream.set_conn c' s).
Proof. intros H. unfold RecordStream.on_conn, zoom. by rewrite H. Qed.

Lemma tx_on_conn {A} (m : C A) (tx : Transaction.t) o c' :
  m (Transaction.conn tx) = (o, c') →
  Transaction.on_conn m tx = (o, Transaction.set_conn c' tx).
Proof. intros H. unfold Transaction.on_conn, zoom. by rewrite H. Qed.

Lemma tx_mark nr tx :
  Transaction.mark nr tx =
  (Ok tt, Transaction.set_conn (set_needs_reset nr (Transaction.conn tx)) tx).
Proof. done. Qed.

Lemma stream_mark nr s :
  RecordStream.mark nr s =
  (Ok tt, RecordStream.set_conn (set_needs_reset nr (RecordStream.conn s)) s).
Proof. done. Qed.

(** ** [guard_open] *)

(** The transaction can take statements. *)
Definition open_tx (tx : Transaction.t) : Prop :=
  Transaction.done tx = false ∧ broken (Transaction.conn tx) = false ∧
  needs_reset (Transaction.conn tx) = false.

Lemma guard_open_ok tx : open_tx tx → Transaction.guard_open tx = (Ok tt, tx).
Proof.
  intros (Hd & Hb & Hn). unfold Transaction.guard_open.
  rewrite (bind_ok _ _ _ _ _ (tx_on_conn _ _ _ _ (check_intact_ok _ Hb))).
  unfold gets, bind. destruct tx as [c d]. cbn in *. by rewrite Hn, Hd.
Qed.

(** Refused, with nothing done to the connection. *)
Lemma guard_open_refuses tx :
  ¬ open_tx tx →
  ∃ e, Transaction.guard_open tx =
    (Err e, Transaction.mk (Transaction.conn tx)
      (Transaction.done tx || (negb (broken (Transaction.conn tx))
         && needs_reset (Transaction.conn tx)))).
Proof.
  intros Ho. destruct tx as [c d]. unfold open_tx in Ho. cbn in *.
  unfold Transaction.guard_open, Transaction.on_conn, zoom, check_intact, gets, bind. cbn.
  destruct (broken c) eqn:Hb; cbn.
  { rewrite orb_false_r. eauto. }
  destruct (needs_reset c) eqn:Hn; cbn.
  { rewrite orb_true_r. eauto. }
  destruct d; cbn; [eauto|]. by destruct Ho.
Qed.

Section session_spec.
Context {hash : HashIter}.

(** What a transaction's method returns when [guard_open] refuses it. *)
Lemma tx_run_guard query parameters tx e tx' :
  Transaction.guard_open tx = (Err e, tx') →
  Transaction.run query parameters tx = (Err e, tx').
Proof. intros Hg. unfold Transaction.run. by rewrite (bind_err _ _ _ _ _ Hg). Qed.

Lemma tx_run_unfold query parameters tx :
  open_tx tx →
  Transaction.run query parameters tx =
  match run_inner query parameters ∅ (set_needs_reset true (Transaction.conn tx)) with
  | (Ok r, c') => (Ok r, Transaction.mk (set_needs_reset false c') false)
  | (Err e, c') => (Err e, Transaction.mk c' true)
  | (Panic, c') => (Panic, Transaction.mk c' false)
  | (Suspended, c') => (Suspended, Transaction.mk c' false)
  | (OutOfFuel, c') => (OutOfFuel, Transaction.mk c' false)
  end.
Proof.
  intros Ho. pose proof (guard_open_ok tx Ho) as Hg. destruct Ho as (Hd & _).
  destruct tx as [c d]. cbn in Hd. subst d. unfold Transaction.run.
  rewrite (bind_ok _ _ _ _ _ Hg), (bind_ok _ _ _ _ _ (tx_mark true _)).
  unfold attempt, bind, Transaction.on_conn, zoom. cbn.
  by destruct (run_inner query parameters ∅ (set_needs_reset true c)) as [[] c'].
Qed.

(** ** COMMIT and ROLLBACK *)

Definition commit_frame : bytes := [x00; x02; xb0; x12; x00; x00].
Definition rollback_frame : bytes := [x00; x02; xb0; x13; x00; x00].

Lemma framed_commit : framed [commit_request] commit_frame.
Proof. by vm_compute. Qed.

Lemma framed_rollback : framed [rollback_request] rollback_frame.
Proof. by vm_compute. Qed.

(** Send one request and read one reply. *)
Lemma request_reply req bs ws c r rs more :
  broken c = false → framed [req] bs → req_signature req ≠ GOODBYE →
  outgoing (stream c) = WrDone :: WrDone :: ws → expects false c (r :: rs) more →
  ∃ c1 c2, write_message req c = (Ok tt, c1) ∧ read_message c1 = (Ok r, c2) ∧
    expects false c2 rs more ∧ moved (needs_reset c) bs ws c c2 ∧
    pending c2 = settle r (pending c + 1).
Proof.
  intros Hb Hf Hs Ho He.
  destruct (write_messages_expects _ _ _ _ _ _ _ Hb Hf Ho He) as (c1 & Hw & He1 & Hm & Hp1).
  assert (owed [req] = 1%N) as Hone by (unfold owed; by rewrite filter_cons_True).
  rewrite Hone in Hp1. pose proof (moved_broken _ _ _ _ _ Hm) as Hb1. rewrite Hb in Hb1.
  destruct (read_message_ok _ _ _ _ Hb1 He1) as (c2 & Hr & He2 & Hk & Hp2).
  exists c1, c2. rewrite Hp1 in Hp2. split_and!; [done..| |done]. by eapply moved_keeps_r.
Qed.

Lemma finish_end_success ctx tx meta c2 :
  read_message (Transaction.conn tx) = (Ok (Response.Success meta), c2) →
  Transaction.finish_end ctx tx = (Ok meta, Transaction.set_conn c2 tx).
Proof.
  intros Hr. unfold Transaction.finish_end.
  by rewrite (bind_ok _ _ _ _ _ (tx_on_conn _ _ _ _ Hr)).
Qed.

(** [commit] and [rollback], from the first write to the reply. *)
Lemma tx_exchange {A} req bs ws tx meta rs more (k : HashMap BoltValue → A) ctx :
  broken (Transaction.conn tx) = false → framed [req] bs → req_signature req ≠ GOODBYE →
  outgoing (stream (Transaction.conn tx)) = WrDone :: WrDone :: ws →
  expects false (Transaction.conn tx) (Response.Success meta :: rs) more →
  ∃ c', (do! modify (Transaction.set_done true) in
         do! Transaction.mark true in
         do! Transaction.on_conn (write_message req) in
         let! meta := Transaction.finish_end ctx in
         do! Transaction.mark false in
         ret (k meta)) tx = (Ok (k meta), Transaction.mk c' true) ∧
    expects false c' rs more ∧ moved false bs ws (Transaction.conn tx) c' ∧
    pending c' = pending (Transaction.conn tx).
Proof.
  intros Hb Hf Hs Ho He. destruct tx as [c d]. cbn [Transaction.conn] in *.
  set (c0 := set_needs_reset true c).
  assert (broken c0 = false ∧ outgoing (stream c0) = WrDone :: WrDone :: ws ∧
    pending c0 = pending c) as (Hb0 & Ho0 & Hp0) by (unfold c0; by destruct c).
  assert (expects false c0 (Response.Success meta :: rs) more) as He0
    by by apply expects_set_needs_reset.
  destruct (request_reply req bs ws c0 _ _ _ Hb0 Hf Hs Ho0 He0)
    as (c1 & c2 & Hw & Hr & He2 & Hm & Hp2).
  exists (set_needs_reset false c2). split_and!.
  - rewrite bind_modify, (bind_ok _ _ _ _ _ (tx_mark true _)).
    cbn [Transaction.set_done Transaction.set_conn Transaction.conn Transaction.done]. fold c0.
    rewrite (bind_ok _ _ _ _ _ (tx_on_conn _ (Transaction.mk c0 true) _ _ Hw)).
    by rewrite (bind_ok _ _ _ _ _ (finish_end_success ctx (Transaction.mk c1 true) _ _ Hr)).
  - by apply expects_set_needs_reset.
  - eapply moved_set. unfold c0 in Hm. eapply (moved_trans _ [] _ _ bs); [|exact Hm].
    apply moved_set_needs_reset.
  - rewrite pending_set_needs_reset, Hp2, Hp0. unfold settle. cbn. lia.
Qed.

Lemma rollback_body_open tx :
  Transaction.done tx = false →
  Transaction.rollback_body tx =
  (do! modify (Transaction.set_done true) in
   do! Transaction.mark true in
   do! Transaction.on_conn (write_message rollback_request) in
   let! meta := Transaction.finish_end "ROLLBACK" in
   do! Transaction.mark false in
   ret tt) tx.
Proof.
  intros Hd. unfold Transaction.rollback_body. rewrite bind_gets. unfold id. rewrite Hd.
  unfold bind, modify. cbn. destruct (Transaction.on_conn (write_message _) _) as [[] ?]; try done.
Qed.

(** ** Properties of transactions *)

(** A transaction that is over, or whose statement did not finish, is
    silent: statements, streams and COMMIT fail on the client, and nothing is
    sent or read; ROLLBACK of one that is over succeeds, again with nothing
    sent. *)
Lemma closed_tx_is_silent tx :
  ¬ open_tx tx →
  (∀ query parameters, ∃ e d,
     Transaction.run query parameters tx = (Err e, Transaction.mk (Transaction.conn tx) d)) ∧
  (∀ query parameters batch, ∃ e d,
     Transaction.run_stream query parameters batch tx =
     (Err e, Transaction.mk (Transaction.conn tx) d)) ∧
  (∃ e nr, Transaction.commit tx = (Err e, set_needs_reset nr (Transaction.conn tx))) ∧
  (Transaction.done tx = true → Transaction.rollback tx = (Ok tt, Transaction.conn tx)).
Proof.
  intros Ho. destruct (guard_open_refuses tx Ho) as (e & Hg). split_and!.
  - intros query parameters. eexists e, _. by apply tx_run_guard.
  - intros query parameters batch. unfold Transaction.run_stream, from_sum, validate_batch.
    destruct ((batch =? 0) || (batch <? -1)).
    + exists (BoltError.Protocol (InvalidBatch batch)), (Transaction.done tx).
      destruct tx. reflexivity.
    + eexists e, _. rewrite bind_ret. by rewrite (bind_err _ _ _ _ _ Hg).
  - unfold Transaction.commit, Transaction.commit_body. rewrite (bind_err _ _ _ _ _ Hg).
    unfold Transaction.drop. cbn [Transaction.done Transaction.conn].
    destruct (_ || _); [|eauto]. exists e, (needs_reset (Transaction.conn tx)).
    f_equal. by destruct (Transaction.conn tx).
  - intros Hd. unfold Transaction.rollback, Transaction.rollback_body, gets, bind, id, ret.
    rewrite Hd. unfold Transaction.drop. by rewrite Hd.
Qed.

(** C32: a failed statement kills the transaction. Whatever the transport does,
    when a statement of an open transaction returns an error the transaction
    is over: no later statement or COMMIT reaches the server. A statement that
    returns [Ok] leaves it open on a ready session; one that is cancelled
    leaves it refused by [guard_open]. *)
Theorem tx_run_outcomes query parameters tx :
  open_tx tx → pending (Transaction.conn tx) = 0%N →
  match Transaction.run query parameters tx with
  | (Ok _, tx') => open_tx tx' ∧ is_ready (Transaction.conn tx') = true
  | (_, tx') => ¬ open_tx tx' ∧ accounted (Transaction.conn tx')
  end.
Proof.
  intros Ho Hp. rewrite (tx_run_unfold query parameters tx Ho).
  assert (flags true 0 (set_needs_reset true (Transaction.conn tx))) as Hf.
  { unfold flags. by destruct (Transaction.conn tx). }
  pose proof (triple_run_inner query parameters ∅ _ Hf) as H.
  destruct (run_inner query parameters ∅ _) as [[r|e| | |] c'].
  - destruct H as (Hb & _ & Hp'). unfold open_tx. cbn. rewrite is_ready_spec.
    destruct c'. cbn in *. by subst.
  - destruct H as [Ha _]. split; [|exact Ha]. by intros (Hd & _).
  - destruct H as [Ha Hn]. split; [|exact Ha]. intros (_ & Hb & Hnr). cbn in *.
    apply not_true_iff_false in Hn. apply Hn. apply is_ready_spec.
    destruct Ha as [?|?]; [done|congruence].
  - destruct H as [Ha Hn]. split; [|exact Ha]. intros (_ & Hb & Hnr). cbn in *.
    apply not_true_iff_false in Hn. apply Hn. apply is_ready_spec.
    destruct Ha as [?|?]; [done|congruence].
  - destruct H as [Ha Hn]. split; [|exact Ha]. intros (_ & Hb & Hnr). cbn in *.
    apply not_true_iff_false in Hn. apply Hn. apply is_ready_spec.
    destruct Ha as [?|?]; [done|congruence].
Qed.

(** ROLLBACK takes the first reply for its own. Unlike the other methods,
    [rollback] does not check that the session is clean: with replies still
    owed (a cancelled statement's, say), it sends ROLLBACK, takes the first
    owed SUCCESS for ROLLBACK's, returns [Ok] and clears the mark, while as
    many replies as before, ROLLBACK's own among them, are still to come. *)
Lemma rollback_takes_owed_reply tx ws meta rs more :
  Transaction.done tx = false → broken (Transaction.conn tx) = false →
  (0 < pending (Transaction.conn tx))%N →
  outgoing (stream (Transaction.conn tx)) = WrDone :: WrDone :: ws →
  expects false (Transaction.conn tx) (Response.Success meta :: rs) more →
  ∃ c', Transaction.rollback tx = (Ok tt, c') ∧
    sent (stream c') = sent (stream (Transaction.conn tx)) ++ rollback_frame ∧
    expects false c' rs more ∧ pending c' = pending (Transaction.conn tx) ∧
    needs_reset c' = false ∧ is_ready c' = false.
Proof.
  intros Hd Hb Hp Hout He.
  destruct (tx_exchange rollback_request rollback_frame ws tx meta rs more (λ _, tt) "ROLLBACK"
    Hb framed_rollback ltac:(done) Hout He) as (c' & Hx & He' & Hm & Hp').
  exists c'. unfold Transaction.rollback. rewrite (rollback_body_open tx Hd).
  rewrite Hx. destruct (moved_fields _ _ _ _ _ Hm) as (_ & _ & _ & Hn' & _ & _ & _ & Hs').
  split_and!; [done..|]. apply not_ready_pending. lia.
Qed.

End session_spec.

(** ** Witnesses *)

(** An open transaction on such a session. *)
Definition waiting_tx (bodies : list bytes) (writes : nat) : Transaction.t :=
  Transaction.mk (waiting false 0 bodies writes) false.

Lemma waiting_tx_open bodies writes : open_tx (waiting_tx bodies writes).
Proof. done. Qed.
Lemma tx_run_outcomes_witness :
  match @Transaction.run listing_order "RETURN 7" ∅ (waiting_tx [failure_body; ignored_body] 4) with
  | (Ok _, tx') => open_tx tx' ∧ is_ready (Transaction.conn tx') = true
  | (_, tx') => ¬ open_tx tx' ∧ accounted (Transaction.conn tx')
  end.
Proof.
  apply (@tx_run_outcomes listing_order "RETURN 7" ∅ (waiting_tx [failure_body; ignored_body] 4));
    [apply waiting_tx_open | reflexivity].
Defined.
(** A statement was cancelled before its RUN was answered; the server's reply
    to ROLLBACK itself is the last of the three. *)
Definition cancelled_tx : Transaction.t :=
  Transaction.mk (waiting true 2 [success_body; success_body; ignored_body] 2) false.
