(* ===== verification/TransactionSpec.v ===== *)
(** * Whole transactions

    [SessionSpec] states what each method of a transaction does; this file
    composes them: BEGIN, any number of statements, and an end, which is a
    COMMIT, a ROLLBACK, or no end at all, the transaction being dropped and the
    connection used again. *)

From S2P Require Import Prelude Utf8 Value Message Error PackStream Wire Codec.
From S2P Require Import Handshake Framing Routing Transport Connection Receive Exchange Safety.
From S2P Require Import Session Guarantees SessionSpec.
Import BoltConnection.

(** A statement with the replies to it, and its requests on the wire. *)
Record Stmt := mk_stmt {
  st_query : string; st_parameters : HashMap BoltValue;
  st_meta : HashMap BoltValue; st_rows : list (list BoltValue); st_summary : HashMap BoltValue;
  st_bytes : bytes }.

Definition stmt_replies (st : Stmt) : list Response :=
  run_replies (st_meta st) (st_rows st) (st_summary st).

Definition stmt_result (st : Stmt) : QueryResult :=
  mk_result (extract_columns (st_meta st)) (st_rows st).

(** How the transaction ends, with the replies to that: [IsDropped m st] has
    the statement [st] run on the connection afterwards, RESET being answered
    with [m]. *)
Inductive Ending :=
| Commits (meta : HashMap BoltValue)
| RollsBack (meta : HashMap BoltValue)
| IsDropped (m : HashMap BoltValue) (st : Stmt).

Definition ending_replies (e : Ending) : list Response :=
  match e with
  | Commits meta | RollsBack meta => [Response.Success meta]
  | IsDropped m st => Response.Success m :: stmt_replies st
  end.

Definition ending_bytes (e : Ending) : bytes :=
  match e with
  | Commits _ => commit_frame
  | RollsBack _ => rollback_frame
  | IsDropped _ st => reset_frame ++ st_bytes st
  end.

Definition ending_writes (e : Ending) : list WriteEvent :=
  match e with
  | Commits _ | RollsBack _ => [WrDone; WrDone]
  | IsDropped _ _ => [WrDone; WrDone; WrDone; WrDone]
  end.

Section transactions.
Context {hash : HashIter}.

Definition good_stmt (st : Stmt) : Prop :=
  framed (query_requests (st_query st) (st_parameters st) ∅ (-1)) (st_bytes st).

Definition good_ending (e : Ending) : Prop :=
  match e with IsDropped _ st => good_stmt st | _ => True end.

(** The caller's statements, one after the other. *)
Fixpoint run_all (stmts : list Stmt) (tx : Transaction.t)
    : Outcome BoltError (list QueryResult) * Transaction.t :=
  match stmts with
  | [] => (Ok [], tx)
  | st :: stmts =>
      match Transaction.run (st_query st) (st_parameters st) tx with
      | (Ok r, tx') =>
          match run_all stmts tx' with
          | (Ok rs, tx'') => (Ok (r :: rs), tx'')
          | result => result
          end
      | (Err e, tx') => (Err e, tx')
      | (Panic, tx') => (Panic, tx')
      | (Suspended, tx') => (Suspended, tx')
      | (OutOfFuel, tx') => (OutOfFuel, tx')
      end
  end.

(** What the caller sees of the end, with the connection it leaves. *)
Definition ends (e : Ending) (tx : Transaction.t) (c' : t) : Prop :=
  match e with
  | Commits meta => Transaction.commit tx = (Ok (meta_str meta "bookmark"), c')
  | RollsBack _ => Transaction.rollback tx = (Ok tt, c')
  | IsDropped _ st =>
      is_ready (Transaction.drop tx) = false ∧ is_reusable (Transaction.drop tx) = true ∧
      run_with (st_query st) (st_parameters st) ∅ (Transaction.drop tx) = (Ok (stmt_result st), c')
  end.

(** An open transaction between statements: what it will read, write, and has sent. *)
Record between (rs : list Response) (more : list ReadEvent) (ws : list WriteEvent) (bs : bytes)
    (tx : Transaction.t) : Prop := {
  between_open : open_tx tx;
  between_pending : pending (Transaction.conn tx) = 0%N;
  between_expects : expects false (Transaction.conn tx) rs more;
  between_outgoing : outgoing (stream (Transaction.conn tx)) = ws;
  between_sent : sent (stream (Transaction.conn tx)) = bs
}.

Lemma begin_ok opts c m meta frame ws rs more :
  poised false c m (Response.Success meta :: rs) more →
  framed [begin_request (into_meta opts)] frame →
  outgoing (stream c) = recovery_writes c ++ WrDone :: WrDone :: ws →
  ∃ tx, begin_with opts c = (Ok tx, Transaction.conn tx) ∧
    between rs more ws (sent (stream c) ++ recovery c ++ frame) tx.
Proof.
  intros Hp Hf Ho.
  destruct (yields_definite _ _ _ (ensure_clean_yields false c m _ more _ Hp Ho))
    as (u & c1 & Hc & He1 & Hm1 & Hp1).
  pose proof (moved_set _ true _ _ _ _ Hm1) as Hm1'.
  pose proof (moved_broken _ _ _ _ _ Hm1') as Hb1. rewrite (proj1 Hp) in Hb1.
  destruct (request_reply (begin_request (into_meta opts)) frame ws (set_needs_reset true c1) _ _ _
    Hb1 Hf ltac:(done) (moved_outgoing _ _ _ _ _ Hm1') (expects_set_needs_reset _ _ _ _ _ He1))
    as (c2 & c3 & Hw & Hr & He3 & Hm3 & Hp3).
  exists (Transaction.mk (set_needs_reset false c3) false). split.
  - unfold begin_with. rewrite (bind_ok _ _ _ _ _ Hc), bind_modify, (bind_ok _ _ _ _ _ Hw),
      (bind_ok _ _ _ _ _ Hr). done.
  - pose proof (moved_set _ false _ _ _ _ (moved_trans _ _ _ _ _ _ _ _ _ Hm1' Hm3)) as Hm.
    destruct (moved_fields _ _ _ _ _ Hm) as (_ & _ & _ & Hn & Hb & _ & Hout & Hs).
    rewrite pending_set_needs_reset, Hp1 in Hp3.
    split; cbn [Transaction.conn Transaction.done].
    + split_and!; [done| |done]. etrans; [exact Hb|]. apply Hp.
    + by rewrite pending_set_needs_reset, Hp3.
    + by apply expects_set_needs_reset.
    + done.
    + by rewrite Hs.
Qed.

Lemma run_ok st rs more ws bs tx :
  good_stmt st → between (stmt_replies st ++ rs) more (WrDone :: WrDone :: ws) bs tx →
  ∃ tx', Transaction.run (st_query st) (st_parameters st) tx = (Ok (stmt_result st), tx') ∧
    between rs more ws (bs ++ st_bytes st) tx'.
Proof.
  intros Hf [Ho Hp He Hout Hs]. rewrite (tx_run_unfold _ _ _ Ho).
  destruct Ho as (Hd & Hb & Hn). destruct tx as [c d]. cbn [Transaction.conn Transaction.done] in *.
  assert (moved true [] (WrDone :: WrDone :: ws) c (set_needs_reset true c)) as Hm0.
  { rewrite <- Hout. apply moved_set_needs_reset. }
  destruct (yields_definite _ _ _ (run_inner_yields false (st_query st) (st_parameters st) ∅
    (set_needs_reset true c) (st_bytes st) ws (st_meta st) (st_rows st) (st_summary st) rs more
    ltac:(by rewrite (moved_broken _ _ _ _ _ Hm0)) ltac:(by rewrite pending_set_needs_reset) Hf
    (moved_outgoing _ _ _ _ _ Hm0) ltac:(by apply expects_set_needs_reset)))
    as (r & c' & Hr & -> & He' & Hm & Hp').
  rewrite Hr. eexists. split; [done|].
  pose proof (moved_set _ false _ _ _ _ (moved_trans _ _ _ _ _ _ _ _ _ Hm0 Hm)) as Hm'.
  destruct (moved_fields _ _ _ _ _ Hm') as (_ & _ & _ & Hn' & Hb' & _ & Hout' & Hs').
  split; cbn [Transaction.conn Transaction.done].
  - split_and!; [done|exact (eq_trans Hb' Hb)|done].
  - by rewrite pending_set_needs_reset.
  - by apply expects_set_needs_reset.
  - done.
  - by rewrite Hs', Hs.
Qed.

Lemma run_all_ok stmts rs more ws bs tx :
  Forall good_stmt stmts →
  between ((stmts ≫= stmt_replies) ++ rs) more (replicate (2 * length stmts) WrDone ++ ws) bs tx →
  ∃ tx', run_all stmts tx = (Ok (stmt_result <$> stmts), tx') ∧
    between rs more ws (bs ++ (stmts ≫= st_bytes)) tx'.
Proof.
  intros Hf. revert bs tx. induction Hf as [|st stmts Hst _ IH]; intros bs tx Hb.
  - exists tx. split; [done|]. cbn. by rewrite app_nil_r.
  - change ((st :: stmts) ≫= stmt_replies) with (stmt_replies st ++ (stmts ≫= stmt_replies)) in Hb.
    change ((st :: stmts) ≫= st_bytes) with (st_bytes st ++ (stmts ≫= st_bytes)).
    replace (2 * length (st :: stmts))%nat with (2 + 2 * length stmts)%nat in Hb by (cbn; lia).
    rewrite <- app_assoc in Hb.
    destruct (run_ok st _ _ _ _ _ Hst Hb) as (tx1 & Hr & Hb1).
    destruct (IH _ _ Hb1) as (tx' & Hall & Hb'). exists tx'. cbn [run_all]. rewrite Hr, Hall.
    rewrite app_assoc. done.
Qed.

(** A dropped transaction's connection owes nothing, but needs a RESET. *)
Lemma dropped_poised m rs more ws bs tx :
  between (Response.Success m :: rs) more ws bs tx →
  is_ready (Transaction.drop tx) = false ∧ is_reusable (Transaction.drop tx) = true ∧
  poised false (Transaction.drop tx) m rs more ∧
  outgoing (stream (Transaction.drop tx)) = ws ∧ sent (stream (Transaction.drop tx)) = bs.
Proof.
  intros [(Hd & Hb & Hn) Hp He Ho Hs]. unfold Transaction.drop. rewrite Hd.
  destruct tx as [c d]. cbn [Transaction.conn] in *.
  assert (is_ready (set_needs_reset true c) = false) as Hr
    by (apply not_ready_needs_reset; by destruct c).
  split_and!; [done| | |by destruct c..].
  - unfold is_reusable. destruct c. cbn in *. by rewrite Hb, Hp.
  - split; [by destruct c|]. rewrite Hr. exists []. rewrite pending_set_needs_reset.
    split; [done|]. by apply expects_set_needs_reset.
Qed.

Lemma ending_ok e rs more ws bs tx :
  good_ending e → between (ending_replies e ++ rs) more (ending_writes e ++ ws) bs tx →
  ∃ c', ends e tx c' ∧ is_ready c' = true ∧ expects false c' rs more ∧
    sent (stream c') = bs ++ ending_bytes e.
Proof.
  intros Hg Hb. destruct e as [meta|meta|m st]; cbn [ending_replies ending_writes app] in Hb.
  - pose proof Hb as [Ho Hp He Hout Hs]. pose proof Ho as (_ & Hbr & _).
    destruct (tx_exchange commit_request commit_frame ws tx meta rs more
      (λ meta, meta_str meta "bookmark") "COMMIT" Hbr framed_commit ltac:(done) Hout He)
      as (c' & Hx & He' & Hm & Hp').
    exists c'. cbn [ends]. unfold Transaction.commit, Transaction.commit_body.
    rewrite (bind_ok _ _ _ _ _ (guard_open_ok tx Ho)), Hx.
    destruct (moved_fields _ _ _ _ _ Hm) as (_ & _ & _ & Hn' & Hb' & _ & _ & Hs').
    split_and!; [done| |done|by rewrite Hs', Hs]. apply is_ready_spec. split_and!; congruence.
  - pose proof Hb as [(Hd & Hbr & _) Hp He Hout Hs].
    destruct (tx_exchange rollback_request rollback_frame ws tx meta rs more (λ _, tt) "ROLLBACK"
      Hbr framed_rollback ltac:(done) Hout He) as (c' & Hx & He' & Hm & Hp').
    exists c'. cbn [ends]. unfold Transaction.rollback. rewrite (rollback_body_open tx Hd), Hx.
    destruct (moved_fields _ _ _ _ _ Hm) as (_ & _ & _ & Hn' & Hb' & _ & _ & Hs').
    split_and!; [done| |done|by rewrite Hs', Hs]. apply is_ready_spec. split_and!; congruence.
  - destruct (dropped_poised _ _ _ _ _ _ Hb) as (Hr & Hre & Hpo & Hout & Hs).
    destruct (yields_definite _ _ _ (run_with_yields false (st_query st) (st_parameters st) ∅
      (Transaction.drop tx) (st_bytes st) ws m (st_meta st) (st_rows st) (st_summary st) rs more Hpo Hg
      ltac:(unfold recovery_writes; by rewrite Hr))) as (r & c' & Hrun & -> & Hready & He' & Hm).
    exists c'. split_and!; [done..|].
    destruct (moved_fields _ _ _ _ _ Hm) as (_ & _ & _ & _ & _ & _ & _ & ->).
    unfold recovery. by rewrite Hr, Hs.
Qed.

(** ** Properties *)

(** C31: whole transactions. On a session that is ready or can recover, BEGIN,
    any statements and an end return each statement's own result and the
    commit's bookmark, and send exactly RESET if it was needed, BEGIN, each
    statement's RUN and PULL, and COMMIT or ROLLBACK, leaving the session
    ready. A transaction dropped instead leaves a connection that a pool
    keeps, but that is not ready: the next query on it sends one RESET, which
    ends the server's transaction, and returns its own result. *)
Theorem transaction_exact opts c m meta frame stmts e rs more ws :
  poised false c m (Response.Success meta :: (stmts ≫= stmt_replies) ++ ending_replies e ++ rs) more →
  framed [begin_request (into_meta opts)] frame → Forall good_stmt stmts → good_ending e →
  outgoing (stream c) =
    recovery_writes c ++ WrDone :: WrDone :: replicate (2 * length stmts) WrDone ++
    ending_writes e ++ ws →
  ∃ tx tx' c', begin_with opts c = (Ok tx, Transaction.conn tx) ∧
    run_all stmts tx = (Ok (stmt_result <$> stmts), tx') ∧ ends e tx' c' ∧
    is_ready c' = true ∧ expects false c' rs more ∧
    sent (stream c') =
      sent (stream c) ++ recovery c ++ frame ++ (stmts ≫= st_bytes) ++ ending_bytes e.
Proof.
  intros Hp Hf Hst He Ho.
  destruct (begin_ok _ _ _ _ _ _ _ _ Hp Hf Ho) as (tx & Hbegin & Hb).
  destruct (run_all_ok _ _ _ _ _ _ Hst Hb) as (tx' & Hall & Hb').
  destruct (ending_ok _ _ _ _ _ _ He Hb') as (c' & Hend & Hready & Hexp & Hs).
  exists tx, tx', c'. split_and!; [done..|]. by rewrite Hs, <- !app_assoc.
Qed.

End transactions.

(** ** Witnesses *)

Definition begin_bytes : bytes :=
  (for_each (@encode listing_order) [begin_request (into_meta default_options)] []).2.

Definition one_stmt : Stmt := mk_stmt "RETURN 7" ∅ ∅ [[BoltValue.Int 7]] ∅ query_bytes.

(** Begun on a session in need of recovery, with one statement, then dropped. *)
Lemma transaction_exact_witness :
  let c := waiting true 0 [success_body; success_body; success_body; record_body; success_body;
    success_body; success_body; record_body; success_body] 10 in
  ∃ tx tx' c', @begin_with listing_order default_options c = (Ok tx, Transaction.conn tx) ∧
    @run_all listing_order [one_stmt] tx = (Ok [mk_result [] [[BoltValue.Int 7]]], tx') ∧
    @run_with listing_order "RETURN 7" ∅ ∅ (Transaction.drop tx') =
      (Ok (mk_result [] [[BoltValue.Int 7]]), c') ∧
    sent (stream c') = reset_frame ++ begin_bytes ++ query_bytes ++ reset_frame ++ query_bytes.
Proof.
  intros c. destruct (@transaction_exact listing_order default_options c ∅ ∅ begin_bytes [one_stmt]
    (IsDropped ∅ one_stmt) [] [] []) as (tx & tx' & c' & Hbegin & Hall & (_ & _ & Hrun) & _ & _ & Hs).
  - split; [reflexivity|]. exists []. split; [reflexivity|].
    apply waiting_expects; [done|]. replies.
  - vm_compute. reflexivity.
  - constructor; [exact query_framed|constructor].
  - exact query_framed.
  - reflexivity.
  - exists tx, tx', c'. split_and!; [exact Hbegin|exact Hall|exact Hrun|]. rewrite Hs.
    vm_compute. reflexivity.
Defined.
