(* ===== verification/StreamReads.v ===== *)
(** * Reading record streams

    What [fetch_batch], [next] and a caller's loop over [next] return when the
    replies to the PULLs are known, in any fragmentation and with interruptions
    (a cancelled or timed out call) anywhere. [streaming] is the state of a
    stream between calls, preserved by a call that returns and by one that is
    interrupted. [StreamSpec] states the properties. *)

From S2P Require Import Prelude Utf8 Value Message Error PackStream Wire Codec.
From S2P Require Import Handshake Framing Routing Transport Connection Receive Exchange Safety.
From S2P Require Import Session Guarantees SessionSpec.
Import BoltConnection.

Abbreviation row := (list BoltValue).

(** Whether a PULL's summary announces more records. *)
Definition announces_more (meta : HashMap BoltValue) : bool :=
  default false (get_as as_bool meta "has_more").

(** The replies to one PULL. *)
Definition batch_replies (b : list row * HashMap BoltValue) : list Response :=
  (Response.Record <$> b.1) ++ [Response.Success b.2].

Definition stream_replies (batches : list (list row * HashMap BoltValue)) : list Response :=
  batches ≫= batch_replies.

(** The batches a stream fetches: every one but the last announces more, and
    the last is summed up by [fin]. *)
Fixpoint batched (fin : HashMap BoltValue) (batches : list (list row * HashMap BoltValue)) : Prop :=
  match batches with
  | [] => False
  | [b] => b.2 = fin
  | b :: rest => announces_more b.2 = true ∧ batched fin rest
  end.

(** ** The reads still to come *)

Definition reads_left (c : t) : nat := length (incoming (stream c)).

(** No operation adds to them. *)
Definition shrinks (c c' : t) : Prop := (reads_left c' ≤ reads_left c)%nat.

#[export] Instance shrinks_preorder : PreOrder shrinks.
Proof. split; [intros c|intros c1 c2 c3]; unfold shrinks; lia. Qed.

Lemma shrinks_same c c' : stream c' = stream c → shrinks c c'.
Proof. intros H. unfold shrinks, reads_left. by rewrite H. Qed.

Lemma shrinks_set_broken b c : shrinks c (set_broken b c).
Proof. apply shrinks_same. by destruct c. Qed.

Lemma shrinks_set_rbuf r c : shrinks c (set_rbuf r c).
Proof. apply shrinks_same. by destruct c. Qed.

Lemma shrinks_set_pending n c : shrinks c (set_pending n c).
Proof. apply shrinks_same. by destruct c. Qed.

Lemma shrinks_read : respects shrinks (on_stream stream_read).
Proof.
  intros c. destruct (incoming (stream c)) as [|e evs] eqn:He; unfold shrinks, reads_left.
  - unfold on_stream, zoom, stream_read. rewrite He. destruct c as [[]]. cbn in *. by rewrite He.
  - rewrite (on_stream_read _ _ _ He). cbn. rewrite incoming_set_input, He. cbn. lia.
Qed.

#[local] Hint Resolve shrinks_set_broken shrinks_set_rbuf shrinks_set_pending shrinks_read : bolt.

Lemma shrinks_take_message : respects shrinks take_message.
Proof.
  intros c. destruct (take_message_spec c) as (found & _ & ->).
  destruct found; apply shrinks_same; by destruct c.
Qed.

Lemma shrinks_fill : respects shrinks fill.
Proof. unfold fill. respects_tac. Qed.

#[local] Hint Resolve shrinks_take_message shrinks_fill : bolt.

Lemma shrinks_next_body : respects shrinks next_body.
Proof. unfold next_body. respects_tac. Qed.

#[local] Hint Resolve shrinks_next_body : bolt.

Lemma shrinks_read_message : respects shrinks read_message.
Proof. unfold read_message, check_intact, break_on_err, decode. respects_tac. Qed.

(** An interrupted read used one up. *)
Lemma read_message_yields_less allow c r rs more :
  broken c = false → expects allow c (r :: rs) more →
  yields allow (read_message c)
    (λ r' c', r' = r ∧ expects allow c' rs more ∧ keeps c c' ∧
       pending c' = settle r (pending c) ∧ shrinks c c')
    (λ c', expects allow c' (r :: rs) more ∧ keeps c c' ∧ pending c' = pending c ∧
       (reads_left c' < reads_left c)%nat).
Proof.
  intros Hb He. pose proof (shrinks_read_message c) as Hs.
  destruct (read_message_expects _ _ _ _ _ Hb He) as
    [(c' & Hr & ? & ? & ?)|(? & o & c' & ? & ? & ? & ? & ? & ?)]; [left|right]; [|eauto 12].
  rewrite Hr in Hs. eauto 12.
Qed.

Section stream_spec.
Context {hash : HashIter}.

(** ** One batch *)

Definition fetch_round : unit → RecordStream.R (unit + unit) := λ _,
  let! response := RecordStream.on_conn read_message in
  match response with
  | Response.Record values =>
      do! modify (λ s, RecordStream.set_buffer (RecordStream.buffer s ++ [values]) s) in
      ret (inl tt)
  | Response.Success meta =>
      let more := default false (get_as as_bool meta "has_more") in
      do! modify (RecordStream.set_pull_in_flight false) in
      do! modify (RecordStream.set_has_more more) in
      do! (if more then ret tt
           else do! modify (RecordStream.set_summary (Some meta)) in RecordStream.mark false) in
      ret (inr tt)
  | Response.Failure code message =>
      do! modify (RecordStream.set_done true) in
      RecordStream.fail_reset code message
  | Response.Ignored =>
      do! modify (RecordStream.set_done true) in
      throw (BoltError.Protocol (Text "PULL ignored by server"))
  end.

(** The stream after a batch of [rows] summed up by [meta], the connection
    being [c']. *)
Definition after_batch (rows : list row) (meta : HashMap BoltValue) (c' : t) (s : RecordStream.t)
    : RecordStream.t :=
  let '(RecordStream.mk c co q b bu h p d su) := s in
  RecordStream.mk c' co q b (bu ++ rows) (announces_more meta) false d
    (if announces_more meta then su else Some meta).

(** The stream within a batch, [rows] of it read. *)
Definition mid_batch (rows : list row) (c' : t) (s : RecordStream.t) : RecordStream.t :=
  let '(RecordStream.mk c co q b bu h p d su) := s in RecordStream.mk c' co q b (bu ++ rows) h p d su.

Lemma mid_mid rows rows' c1 c2 s :
  mid_batch rows' c2 (mid_batch rows c1 s) = mid_batch (rows ++ rows') c2 s.
Proof. destruct s. cbn. by rewrite <- app_assoc. Qed.

Lemma after_mid rows rows' meta c1 c2 s :
  after_batch rows' meta c2 (mid_batch rows c1 s) = after_batch (rows ++ rows') meta c2 s.
Proof. destruct s. cbn. by rewrite <- app_assoc. Qed.

Lemma mid_nil c' s : mid_batch [] c' s = RecordStream.set_conn c' s.
Proof. destruct s. cbn. by rewrite app_nil_r. Qed.

Lemma on_conn_yields {A} allow (m : C A) s (Q : A → t → Prop) I :
  yields allow (m (RecordStream.conn s)) Q I →
  yields allow (RecordStream.on_conn m s)
    (λ a s', ∃ c', s' = RecordStream.set_conn c' s ∧ Q a c')
    (λ s', ∃ c', s' = RecordStream.set_conn c' s ∧ I c').
Proof.
  intros [(a & c' & Hm & ?)|(? & o & c' & Hm & ? & ?)]; rewrite (stream_on_conn _ _ _ _ Hm);
    [left|right]; eauto 10.
Qed.

(** One reply of a batch. *)
Definition round_result (r : Response) (c' : t) (s : RecordStream.t)
    : option ((unit + unit) * RecordStream.t) :=
  match r with
  | Response.Record values => Some (inl tt, mid_batch [values] c' s)
  | Response.Success meta =>
      Some (inr tt, after_batch [] meta
        (if announces_more meta then c' else set_needs_reset false c') s)
  | _ => None
  end.

Lemma fetch_round_yields allow r rs more s :
  broken (RecordStream.conn s) = false → expects allow (RecordStream.conn s) (r :: rs) more →
  (∃ meta, r = Response.Success meta) ∨ (∃ values, r = Response.Record values) →
  yields allow (fetch_round tt s)
    (λ x s', ∃ c', round_result r c' s = Some (x, s') ∧
       expects allow c' rs more ∧ keeps (RecordStream.conn s) c' ∧
       pending c' = settle r (pending (RecordStream.conn s)) ∧ shrinks (RecordStream.conn s) c')
    (λ s', ∃ c', s' = mid_batch [] c' s ∧ expects allow c' (r :: rs) more ∧
       keeps (RecordStream.conn s) c' ∧ pending c' = pending (RecordStream.conn s) ∧
       (reads_left c' < reads_left (RecordStream.conn s))%nat).
Proof.
  intros Hb He Hr. unfold fetch_round.
  eapply yields_bind; [by apply on_conn_yields, read_message_yields_less| |]; cbn beta.
  - intros r' s1 (c' & -> & -> & ? & ? & ? & ?). destruct Hr as [[meta ->]|[values ->]].
    + left. exists (inr tt), (after_batch [] meta
        (if announces_more meta then c' else set_needs_reset false c') s).
      split; [|by exists c']. destruct s. rewrite !bind_modify.
      fold (announces_more meta).
      by destruct (announces_more meta) eqn:Hmore; cbn; rewrite Hmore, app_nil_r.
    + left. exists (inl tt), (mid_batch [values] c' s). split; [|by exists c']. by destruct s.
  - intros s' (c' & -> & ?). exists c'. by rewrite mid_nil.
Qed.

(** What is left of the batch when its fetch is interrupted. *)
Definition batch_left allow rows meta rs more (ws : list WriteEvent) bs (s s' : RecordStream.t) : Prop :=
  ∃ c' rows1 rows2, rows = rows1 ++ rows2 ∧ s' = mid_batch rows1 c' s ∧
    expects allow c' ((Response.Record <$> rows2) ++ Response.Success meta :: rs) more ∧
    pending c' = 1%N ∧
    moved (needs_reset (RecordStream.conn s)) bs ws (RecordStream.conn s) c' ∧
    (reads_left c' < reads_left (RecordStream.conn s))%nat.

(** The stream once the batch is fetched. *)
Definition batch_done allow rows meta rs more (ws : list WriteEvent) bs (s s' : RecordStream.t) : Prop :=
  ∃ c', s' = after_batch rows meta c' s ∧ expects allow c' rs more ∧ pending c' = 0%N ∧
    moved (if announces_more meta then needs_reset (RecordStream.conn s) else false) bs ws
      (RecordStream.conn s) c' ∧ shrinks (RecordStream.conn s) c'.

Lemma fetch_loop_yields allow rows meta rs more fuel s :
  broken (RecordStream.conn s) = false → pending (RecordStream.conn s) = 1%N →
  expects allow (RecordStream.conn s)
    ((Response.Record <$> rows) ++ Response.Success meta :: rs) more →
  (length rows < fuel)%nat →
  yields allow (loop fuel fetch_round tt s)
    (λ _, batch_done allow rows meta rs more (outgoing (stream (RecordStream.conn s))) [] s)
    (batch_left allow rows meta rs more (outgoing (stream (RecordStream.conn s))) [] s).
Proof.
  revert s fuel. induction rows as [|row rows IH]; intros s fuel Hb Hp He Hf;
    (destruct fuel as [|fuel]; [cbn in Hf; lia|]); cbn [loop].
  - eapply yields_bind; [eapply (fetch_round_yields allow _ _ more s Hb He); eauto| |]; cbn beta.
    + intros x s' (c' & [= <- <-] & He' & Hk & Hp' & Hs). apply yields_ok.
      unfold settle in Hp'. cbn in Hp'. rewrite Hp in Hp'. apply moved_keeps in Hk.
      eexists. split; [done|]. destruct (announces_more meta); [done|]. split_and!.
      * by apply expects_set_needs_reset.
      * by rewrite pending_set_needs_reset.
      * by eapply moved_set.
      * etrans; [exact Hs|]. apply shrinks_same. by destruct c'.
    + intros s' (c' & -> & He' & Hk & Hp' & Hs). exists c', [], [].
      split_and!; [done..|congruence|by apply moved_keeps|done].
  - eapply yields_bind; [eapply (fetch_round_yields allow _ _ more s Hb He); eauto| |]; cbn beta.
    + intros x s' (c' & [= <- <-] & He' & Hk & Hp' & Hs).
      destruct (keeps_fields _ _ Hk) as (_ & _ & _ & Hn' & Hb' & _ & Ho' & _).
      apply moved_keeps in Hk as Hm. unfold settle in Hp'. cbn in Hp'. unfold shrinks in Hs.
      assert (RecordStream.conn (mid_batch [row] c' s) = c') as Hc by by destruct s.
      eapply yields_weaken; [apply IH; [rewrite Hc; congruence..|by rewrite Hc|cbn in Hf; lia]| |];
        cbn beta.
      * intros _ s2 (c2 & -> & ? & ? & Hm2 & Hs2). exists c2. rewrite after_mid.
        rewrite Hc, Hn', Ho' in *. split_and!; [done..|by eapply (moved_trans _ [] _ _ [])|].
        by etrans; [exact Hs|].
      * intros s2 (c2 & rows1 & rows2 & -> & -> & ? & ? & Hm2 & Hs2).
        exists c2, (row :: rows1), rows2. rewrite mid_mid.
        rewrite Hc, Hn', Ho' in *. split_and!; [done..|by eapply (moved_trans _ [] _ _ [])|lia].
    + intros s' (c' & -> & He' & Hk & Hp' & Hs). exists c', [], (row :: rows).
      split_and!; [done..|congruence|by apply moved_keeps|done].
Qed.

(** What a PULL costs: nothing if it is already in flight. *)
Definition pull_writes (s : RecordStream.t) : list WriteEvent :=
  if RecordStream.pull_in_flight s then [] else [WrDone; WrDone].

Definition pull_sent (bs : bytes) (s : RecordStream.t) : bytes :=
  if RecordStream.pull_in_flight s then [] else bs.

Lemma fetch_batch_yields allow b rs more ws bs s :
  broken (RecordStream.conn s) = false →
  pending (RecordStream.conn s) = (if RecordStream.pull_in_flight s then 1%N else 0%N) →
  framed [pull (RecordStream.batch s) (RecordStream.qid s)] bs →
  outgoing (stream (RecordStream.conn s)) = pull_writes s ++ ws →
  expects allow (RecordStream.conn s) (batch_replies b ++ rs) more →
  yields allow (RecordStream.fetch_batch s)
    (λ _, batch_done allow b.1 b.2 rs more ws (pull_sent bs s) s)
    (batch_left allow b.1 b.2 rs more ws (pull_sent bs s) (RecordStream.set_pull_in_flight true s)).
Proof.
  intros Hb Hp Hf Ho He. unfold RecordStream.fetch_batch. rewrite bind_gets. unfold id.
  unfold batch_replies in He. rewrite <- app_assoc in He. cbn [app] in He.
  destruct b as [rows meta]. cbn [fst snd] in *. unfold pull_writes, pull_sent in *.
  assert (∀ s', expects allow (RecordStream.conn s')
      ((Response.Record <$> rows) ++ Response.Success meta :: rs) more →
    (length rows < S (RecordStream.input_left s'))%nat) as Hfuel.
  { intros s' H%expects_length. rewrite length_app, length_fmap in H. cbn in H.
    unfold RecordStream.input_left. lia. }
  destruct (RecordStream.pull_in_flight s) eqn:Hpf.
  - rewrite bind_ret. cbn [app] in Ho. rewrite <- Ho.
    replace (RecordStream.set_pull_in_flight true s) with s by (destruct s; cbn in *; congruence).
    by apply fetch_loop_yields; auto.
  - destruct (write_messages_expects _ _ _ _ _ _ _ Hb Hf Ho He) as (c1 & Hw & He1 & Hm1 & Hp1).
    change (owed [pull (RecordStream.batch s) (RecordStream.qid s)]) with 1%N in Hp1.
    destruct (moved_fields _ _ _ _ _ Hm1) as (_ & _ & _ & Hn1 & Hb1 & _ & Ho1 & _).
    assert (shrinks (RecordStream.conn s) c1) as Hs1.
    { pose proof (write_messages_ok _ _ _ _ Hb Hf Ho) as Hok. rewrite Hok in Hw.
      injection Hw as <-. unfold shrinks, reads_left. by destruct (RecordStream.conn s) as [[]]. }
    set (s1 := RecordStream.set_pull_in_flight true (RecordStream.set_conn c1 s)).
    assert (bind (RecordStream.on_conn (write_message (pull (RecordStream.batch s) (RecordStream.qid s))))
      (λ _, modify (RecordStream.set_pull_in_flight true)) s = (Ok tt, s1)) as H1.
    { by rewrite (bind_ok _ _ _ _ _ (stream_on_conn _ _ _ _ Hw)). }
    rewrite (bind_ok _ _ _ _ _ H1).
    assert (RecordStream.conn s1 = c1) as Hc1 by by destruct s.
    eapply yields_weaken; [apply (fetch_loop_yields allow rows meta rs more); rewrite ?Hc1| |];
      [congruence|by rewrite Hp1, Hp|done|by apply Hfuel; rewrite Hc1|..]; rewrite Hc1, Ho1.
    + intros _ s' (c' & -> & ? & ? & Hm' & Hs'). rewrite Hc1, Hn1 in Hm'. rewrite Hc1 in Hs'.
      exists c'. split_and!; [by destruct s|done..| |by etrans].
      rewrite <- (app_nil_r bs). by eapply moved_trans.
    + intros s' (c' & rows1 & rows2 & -> & -> & ? & ? & Hm' & Hs'). rewrite Hc1, Hn1 in Hm'.
      rewrite Hc1 in Hs'. unfold shrinks in Hs1.
      exists c', rows1, rows2.
      replace (RecordStream.conn (RecordStream.set_pull_in_flight true s))
        with (RecordStream.conn s) by by destruct s.
      split_and!; [done|by destruct s|done..| |lia].
      rewrite <- (app_nil_r bs). by eapply moved_trans.
Qed.

(** ** The state of a stream in progress *)

Section in_progress.

(** Interruptions are allowed or not; the last batch's summary is [fin]; the
    query's id is [qid] and a PULL's frame [bs]; after the batches' replies come [rs]; after the
    PULLs' writes come [ws], and then [final] will have been sent. *)
Variables (allow : bool) (fin : HashMap BoltValue) (qid : option Z) (bs : bytes)
  (rs : list Response) (more : list ReadEvent) (ws : list WriteEvent) (final : bytes).

(** The PULLs still to be sent when [batches] are still to be fetched. *)
Definition pulls_left (batches : list (list row * HashMap BoltValue)) (s : RecordStream.t) : nat :=
  length batches - (if RecordStream.pull_in_flight s then 1 else 0).

(** [batches] are still to be fetched, the first one perhaps in part. *)
Record streaming (batches : list (list row * HashMap BoltValue)) (s : RecordStream.t) : Prop := {
  streaming_open : RecordStream.done s = false;
  streaming_intact : broken (RecordStream.conn s) = false;
  streaming_qid : RecordStream.qid s = qid;
  streaming_pull : framed [pull (RecordStream.batch s) (RecordStream.qid s)] bs;
  streaming_batches : batches = [] ∨ batched fin batches;
  streaming_more : RecordStream.has_more s =
    match batches with [] => announces_more fin | _ => true end;
  streaming_in_flight : RecordStream.pull_in_flight s = true → batches ≠ [];
  streaming_pending : pending (RecordStream.conn s) =
    (if RecordStream.pull_in_flight s then 1%N else 0%N);
  streaming_marked : needs_reset (RecordStream.conn s) = RecordStream.has_more s;
  streaming_summary : RecordStream.summary s =
    if RecordStream.has_more s then None else Some fin;
  streaming_expects : expects allow (RecordStream.conn s) (stream_replies batches ++ rs) more;
  streaming_outgoing : outgoing (stream (RecordStream.conn s)) =
    replicate (2 * pulls_left batches s) WrDone ++ ws;
  streaming_sent : sent (stream (RecordStream.conn s)) ++ mjoin (replicate (pulls_left batches s) bs) =
    final
}.

(** The records still to be returned. *)
Definition remaining_rows (batches : list (list row * HashMap BoltValue)) (s : RecordStream.t)
    : list row :=
  RecordStream.buffer s ++ (batches ≫= fst).

Lemma pulls_left_cons b batches s :
  replicate (2 * pulls_left (b :: batches) s) WrDone = pull_writes s ++ replicate (2 * length batches) WrDone ∧
  mjoin (replicate (pulls_left (b :: batches) s) bs) = pull_sent bs s ++ mjoin (replicate (length batches) bs).
Proof.
  unfold pulls_left, pull_writes, pull_sent. cbn [length]. destruct (RecordStream.pull_in_flight s).
  - by replace (S (length batches) - 1)%nat with (length batches) by lia.
  - rewrite Nat.sub_0_r. by replace (2 * S (length batches))%nat with (2 + 2 * length batches)%nat by lia.
Qed.

Lemma batched_cons b batches :
  batched fin (b :: batches) →
  announces_more b.2 = match batches with [] => announces_more fin | _ => true end ∧
  (batches = [] ∨ batched fin batches) ∧ (batches = [] → b.2 = fin).
Proof. destruct batches; cbn; naive_solver. Qed.

(** A fetch moves the next batch into the buffer, or as much of it as was read
    before an interruption. *)
Lemma streaming_fetch b batches s :
  streaming (b :: batches) s →
  yields allow (RecordStream.fetch_batch s)
    (λ _ s', streaming batches s' ∧ remaining_rows batches s' = remaining_rows (b :: batches) s ∧
       shrinks (RecordStream.conn s) (RecordStream.conn s'))
    (λ s', ∃ b', streaming (b' :: batches) s' ∧
       remaining_rows (b' :: batches) s' = remaining_rows (b :: batches) s ∧
       RecordStream.pull_in_flight s' = true ∧
       (reads_left (RecordStream.conn s') < reads_left (RecordStream.conn s))%nat).
Proof.
  intros [Hd Hb Hq Hf [|Hbs] Hmore Hpf Hp Hn Hsu He Ho Hs]; [done|].
  destruct (pulls_left_cons b batches s) as [Hws Hbytes].
  destruct (batched_cons _ _ Hbs) as (Hann & Hrest & Hlast).
  rewrite Hws, <- app_assoc in Ho. rewrite Hbytes in Hs.
  change (stream_replies (b :: batches)) with (batch_replies b ++ stream_replies batches) in He.
  rewrite <- app_assoc in He.
  eapply yields_weaken; [by eapply (fetch_batch_yields allow b)| |]; cbn beta.
  - intros _ s' (c' & -> & He' & Hp' & Hm & Hshr).
    destruct (moved_fields _ _ _ _ _ Hm) as (_ & _ & _ & Hn' & Hb' & _ & Ho' & Hs').
    destruct s as [c co q n bu h p d su]. cbn in *. split; [constructor; cbn|].
    + done.
    + congruence.
    + done.
    + done.
    + done.
    + done.
    + done.
    + done.
    + rewrite Hn', Hn, Hmore. by destruct (announces_more b.2).
    + rewrite Hsu, Hmore. destruct batches; [|by rewrite Hann]. by rewrite (Hlast eq_refl).
    + done.
    + unfold pulls_left. cbn. by rewrite Nat.sub_0_r.
    + unfold pulls_left. cbn. by rewrite Nat.sub_0_r, Hs', <- app_assoc.
    + split; [|done]. unfold remaining_rows. cbn. by rewrite <- app_assoc.
  - intros s' (c' & rows1 & rows2 & Hrows & -> & He' & Hp' & Hm & Hshr). exists (rows2, b.2).
    destruct (moved_fields _ _ _ _ _ Hm) as (_ & _ & _ & Hn' & Hb' & _ & Ho' & Hs').
    destruct s as [c co q n bu h p d su]. cbn in *. split; [constructor; cbn|].
    + done.
    + congruence.
    + done.
    + done.
    + right. by destruct batches.
    + done.
    + done.
    + done.
    + congruence.
    + done.
    + unfold stream_replies, batch_replies. cbn. by rewrite <- !app_assoc.
    + unfold pulls_left. cbn. by rewrite Nat.sub_0_r.
    + unfold pulls_left. cbn. by rewrite Nat.sub_0_r, Hs', <- app_assoc.
    + split; [|done]. unfold remaining_rows. cbn. by rewrite Hrows, <- !app_assoc.
Qed.

(** *** Every PULL sent *)

Lemma framed_nonempty req frame : framed [req] frame → frame ≠ [].
Proof.
  unfold framed, for_each. intros ([] & out & He & [= ->])%bind_ok_inv -> .
  revert He. unfold encode, with_buffer.
  destruct (pack _ _) as [[[]| | | |] body]; try done.
  intros ([] & out & _ & He)%bind_ok_inv. unfold extend_from_slice, modify in He.
  injection He as He. by destruct out.
Qed.

(** Then at most one batch is to come, and that is on its way. *)
Lemma streaming_all_sent batches s :
  streaming batches s → sent (stream (RecordStream.conn s)) = final →
  pulls_left batches s = 0%nat ∧
  ((batches = [] ∧ RecordStream.pull_in_flight s = false) ∨
   ∃ b, batches = [b] ∧ RecordStream.pull_in_flight s = true).
Proof.
  intros Hst Hs. pose proof (streaming_sent _ _ Hst) as Hfin. rewrite <- Hs in Hfin.
  rewrite <- (app_nil_r (sent _)) in Hfin at 2. apply app_inv_head in Hfin.
  pose proof (framed_nonempty _ _ (streaming_pull _ _ Hst)) as Hne.
  pose proof (streaming_in_flight _ _ Hst) as Hpf. unfold pulls_left in *.
  destruct (RecordStream.pull_in_flight s), batches as [|b [|b' batches]]; cbn in *; try done;
    try (by destruct Hne; destruct bs); eauto.
  by destruct (Hpf eq_refl).
Qed.

(** A stream dropped with at most one batch on its way. *)
Lemma streaming_dropped batches s :
  streaming batches s → pulls_left batches s = 0%nat →
  abandoned allow (RecordStream.drop s) rs more.
Proof.
  intros Hst Hl. unfold RecordStream.drop. rewrite (streaming_open _ _ Hst).
  pose proof (streaming_in_flight _ _ Hst) as Hpf. unfold pulls_left in Hl. split_and!.
  - rewrite <- (streaming_intact _ _ Hst). by destruct (RecordStream.conn s).
  - apply not_ready_needs_reset. by destruct (RecordStream.conn s).
  - exists (stream_replies batches). rewrite pending_set_needs_reset, (streaming_pending _ _ Hst).
    split; [|apply expects_set_needs_reset, Hst].
    destruct (RecordStream.pull_in_flight s), batches as [|b [|]]; cbn in *; try done.
    + by destruct (Hpf eq_refl).
    + unfold stream_replies. cbn. rewrite app_nil_r. unfold batch_replies. by rewrite summaries_pull.
Qed.

(** ** [next] *)

Definition next_round : unit → RecordStream.R (unit + option row) := λ _,
  let! s := gets id in
  match RecordStream.buffer s with
  | row :: rest => do! modify (RecordStream.set_buffer rest) in ret (inr (Some row))
  | [] =>
      if RecordStream.done s || negb (RecordStream.has_more s) then
        do! modify (RecordStream.set_done true) in ret (inr None)
      else do! RecordStream.fetch_batch in ret (inl tt)
  end.

(** The stream at its end. *)
Record ended (s : RecordStream.t) : Prop := {
  ended_done : RecordStream.done s = true;
  ended_ready : is_ready (RecordStream.conn s) = true;
  ended_expects : expects allow (RecordStream.conn s) rs more;
  ended_outgoing : outgoing (stream (RecordStream.conn s)) = ws;
  ended_sent : sent (stream (RecordStream.conn s)) = final
}.

(** What [next] returns with [rows] left: the first of them, or [None]. *)
Definition next_result (s : RecordStream.t) (rows : list row) (r : option row) (s' : RecordStream.t)
    : Prop :=
  match rows with
  | r0 :: rows' => r = Some r0 ∧
      (∃ batches', streaming batches' s' ∧ remaining_rows batches' s' = rows') ∧
      shrinks (RecordStream.conn s) (RecordStream.conn s')
  | [] => r = None ∧ ended s'
  end.

(** Interrupted with [rows] left. *)
Definition next_interrupted (s : RecordStream.t) (rows : list row) (s' : RecordStream.t) : Prop :=
  (∃ batches', streaming batches' s' ∧ remaining_rows batches' s' = rows) ∧
  (reads_left (RecordStream.conn s') < reads_left (RecordStream.conn s))%nat.

Lemma streaming_set_buffer rows batches s :
  streaming batches s → streaming batches (RecordStream.set_buffer rows s).
Proof. destruct s. intros []. by constructor. Qed.

(** A stream with nothing more to fetch has a ready session. *)
Lemma streaming_ended s :
  streaming [] s → RecordStream.has_more s = false → ended (RecordStream.set_done true s).
Proof.
  intros [Hd Hb _ _ _ Hm Hpf Hp Hn _ He Ho Hs] Hmore. rewrite Hmore in Hn.
  destruct s as [c co q n bu h p d su]. cbn in *.
  destruct p; [by destruct (Hpf eq_refl)|]. constructor; cbn; try done.
  - by apply is_ready_spec.
  - by rewrite app_nil_r in Hs.
Qed.

Lemma next_loop_yields batches fuel s :
  streaming batches s → (remaining_rows batches s = [] → announces_more fin = false) →
  (length batches < fuel)%nat →
  yields allow (loop fuel next_round tt s) (next_result s (remaining_rows batches s))
    (next_interrupted s (remaining_rows batches s)).
Proof.
  revert s fuel. induction batches as [|b batches IH]; intros s fuel Hst Hfin Hf;
    (destruct fuel as [|fuel]; [cbn in Hf; lia|]); cbn [loop];
    unfold bind at 1; unfold next_round at 1; rewrite bind_gets; unfold id;
    destruct (RecordStream.buffer s) as [|r rest] eqn:Hbuf.
  2,4: rewrite bind_modify; left; eexists _, _; (split; [done|]); unfold remaining_rows;
    rewrite Hbuf; (split_and!; [done| |by destruct s]);
    eexists; (split; [by apply streaming_set_buffer|by destruct s]).
  - rewrite (streaming_open _ _ Hst). unfold remaining_rows in *. rewrite Hbuf in *. cbn in *.
    pose proof (streaming_more _ _ Hst) as Hm. cbn in Hm. rewrite (Hfin eq_refl) in Hm.
    rewrite Hm. left. eexists None, _. split; [done|]. split; [done|]. by apply streaming_ended.
  - rewrite (streaming_open _ _ Hst), (streaming_more _ _ Hst). cbn [orb negb].
    destruct (streaming_fetch _ _ _ Hst)
      as [(u & s' & Hfetch & Hst' & Hrows & Hsh)|(Ha & o & s' & Hfetch & Ho & b' & Hst' & Hrows & _ & Hlt)].
    + rewrite (bind_ok _ _ _ _ _ Hfetch). rewrite <- Hrows in *. unfold ret.
      eapply yields_weaken; [apply (IH s' fuel); [done|done|cbn in Hf; lia]| |].
      * intros r s2. unfold next_result. destruct (remaining_rows batches s'); [done|].
        intros (-> & ? & ?). split_and!; [done..|]. by etrans.
      * intros s2 [? ?]. split; [done|]. unfold shrinks in Hsh. lia.
    + right. split; [done|]. rewrite (bind_interrupted _ _ _ _ _ Ho Hfetch).
      exists (interrupt_outcome o), s'.
      split_and!; [by destruct Ho as [-> | ->]|by apply interrupted_cast|]. split; [eauto|done].
Qed.

Lemma streaming_length batches s :
  streaming batches s → (length batches ≤ RecordStream.input_left s)%nat.
Proof.
  intros He%streaming_expects%expects_length. unfold RecordStream.input_left.
  assert (length batches ≤ length (stream_replies batches))%nat; [|rewrite length_app in He; lia].
  clear. induction batches as [|b batches IH]; [done|].
  change (stream_replies (b :: batches)) with (batch_replies b ++ stream_replies batches).
  unfold batch_replies. rewrite !length_app. cbn. lia.
Qed.

Lemma next_yields batches s :
  streaming batches s → (remaining_rows batches s = [] → announces_more fin = false) →
  yields allow (RecordStream.next s) (next_result s (remaining_rows batches s))
    (next_interrupted s (remaining_rows batches s)).
Proof. intros Hst Hfin. apply next_loop_yields; [done..|]. apply streaming_length in Hst. lia. Qed.

End in_progress.

(** ** Callers of [next] *)

(** Call [next] until it returns [None]; call it again when it is interrupted. *)
Fixpoint read_all (tries : nat) (s : RecordStream.t) : Outcome BoltError (list row) * RecordStream.t :=
  match tries with
  | O => (OutOfFuel, s)
  | S tries' =>
      match RecordStream.next s with
      | (Ok (Some r), s') =>
          match read_all tries' s' with
          | (Ok rows, s'') => (Ok (r :: rows), s'')
          | result => result
          end
      | (Ok None, s') => (Ok [], s')
      | (Suspended, s') | (Err (BoltError.Timeout _), s') => read_all tries' s'
      | (Err e, s') => (Err e, s')
      | (Panic, s') => (Panic, s')
      | (OutOfFuel, s') => (OutOfFuel, s')
      end
  end.

(** Call [next] for at most [n] records, in at most [tries] calls: the caller
    may give up after an interruption, or have what it wants. *)
Fixpoint read_some (tries n : nat) (s : RecordStream.t) : list row * RecordStream.t :=
  match tries, n with
  | S tries', S n' =>
      match RecordStream.next s with
      | (Ok (Some r), s') => let '(rows, s'') := read_some tries' n' s' in (r :: rows, s'')
      | (Suspended, s') | (Err (BoltError.Timeout _), s') => read_some tries' n s'
      | (_, s') => ([], s')
      end
  | _, _ => ([], s)
  end.

Section callers.
Variables (allow : bool) (fin : HashMap BoltValue) (qid : option Z) (bs : bytes)
  (rs : list Response) (more : list ReadEvent) (ws : list WriteEvent) (final : bytes).

#[local] Abbreviation streaming := (streaming allow fin qid bs rs more ws final).
#[local] Abbreviation ended := (ended allow rs more ws final).

Lemma read_all_ok rows tries batches s :
  streaming batches s → remaining_rows batches s = rows → announces_more fin = false →
  (length rows + reads_left (RecordStream.conn s) < tries)%nat →
  ∃ s', read_all tries s = (Ok rows, s') ∧ ended s'.
Proof.
  revert rows batches s. induction tries as [|tries IH]; intros rows batches s Hst Hrows Hfin Ht; [lia|].
  cbn [read_all]. destruct (next_yields _ _ _ _ _ _ _ _ _ _ Hst (λ _, Hfin))
    as [(r & s' & -> & Hr)|(_ & o & s' & -> & Ho & (batches' & Hst' & Hrows') & Hlt)].
  - rewrite Hrows in Hr. destruct rows as [|r0 rows]; [by destruct Hr as [-> ?]; eauto|].
    destruct Hr as (-> & (batches' & Hst' & Hrows') & Hsh). unfold shrinks in Hsh.
    destruct (IH rows batches' s' Hst' Hrows' Hfin) as (s2 & -> & ?); [cbn in Ht; lia|]. eauto.
  - rewrite Hrows in Hrows'.
    destruct (IH rows batches' s' Hst' Hrows' Hfin) as (s2 & He & ?); [lia|].
    exists s2. by destruct Ho as [-> | ->].
Qed.

Lemma read_some_ok tries n batches s :
  streaming batches s → (n ≤ length (remaining_rows batches s))%nat →
  ∃ rows s' batches', read_some tries n s = (rows, s') ∧ streaming batches' s' ∧
    remaining_rows batches s = rows ++ remaining_rows batches' s' ∧ (length rows ≤ n)%nat.
Proof.
  revert n batches s. induction tries as [|tries IH]; intros n batches s Hst Hn;
    [exists [], s, batches; split_and!; [done..|cbn; lia]|].
  destruct n as [|n]; [exists [], s, batches; split_and!; [done..|cbn; lia]|]. cbn [read_some].
  destruct (next_yields _ _ _ _ _ _ _ _ _ _ Hst) as
    [(r & s' & -> & Hr)|(_ & o & s' & -> & Ho & (batches' & Hst' & Hrows') & _)].
  - intros He. rewrite He in Hn. cbn in Hn. lia.
  - destruct (remaining_rows batches s) as [|r0 rows]; [by cbn in Hn; lia|].
    destruct Hr as (-> & (batches' & Hst' & <-) & _).
    destruct (IH n batches' s' Hst') as (rows & s2 & batches2 & -> & ? & -> & ?); [cbn in Hn; lia|].
    exists (r0 :: rows), s2, batches2. split_and!; [done..|cbn; lia].
  - destruct (IH (S n) batches' s' Hst') as (rows & s2 & batches2 & He & ? & Hrem & ?); [congruence|].
    exists rows, s2, batches2. split_and!; [by destruct Ho as [-> | ->]|done|congruence|done].
Qed.

End callers.

End stream_spec.

(** ** Opening a stream *)

Section opening.
Context {hash : HashIter}.

#[local] Hint Resolve shrinks_set_broken shrinks_set_rbuf shrinks_set_pending shrinks_read
  shrinks_read_message : bolt.

Lemma shrinks_write bs : respects shrinks (on_stream (stream_write bs)).
Proof.
  intros c. unfold shrinks, reads_left, on_stream, zoom, stream_write. destruct c as [[inc out snt]].
  cbn. by destruct out as [|[]].
Qed.

Lemma shrinks_set_needs_reset b c : shrinks c (set_needs_reset b c).
Proof. apply shrinks_same. by destruct c. Qed.

#[local] Hint Resolve shrinks_write shrinks_set_needs_reset : bolt.

Lemma shrinks_write_messages reqs : respects shrinks (write_messages reqs).
Proof. unfold write_messages, check_intact, encode_all, write_bytes. respects_tac. Qed.

#[local] Hint Resolve shrinks_write_messages : bolt.

Lemma shrinks_run_stream_with query parameters extra batch :
  respects shrinks (run_stream_with query parameters extra batch).
Proof.
  unfold run_stream_with, ensure_clean, check_intact, reset, write_message, send_run_pull.
  respects_tac.
Qed.

(** Opening a stream. *)
Lemma run_stream_with_yields allow query parameters extra batch c run_bs pull_bs m meta fin batches
    rs more ws :
  validate_batch batch = inr tt →
  poised allow c m (Response.Success meta :: stream_replies batches ++ rs) more →
  batched fin batches →
  framed (query_requests query parameters extra batch) run_bs →
  framed [pull batch (get_as as_int meta "qid")] pull_bs →
  outgoing (stream c) =
    recovery_writes c ++ WrDone :: WrDone :: replicate (2 * pred (length batches)) WrDone ++ ws →
  yields allow (run_stream_with query parameters extra batch c)
    (λ s c1, RecordStream.columns s = extract_columns meta ∧ RecordStream.buffer s = [] ∧
       streaming allow fin (get_as as_int meta "qid") pull_bs rs more ws (sent (stream c) ++ recovery c ++ run_bs ++
         mjoin (replicate (pred (length batches)) pull_bs)) batches s ∧
       RecordStream.conn s = c1)
    (λ c', abandoned allow c' (Response.Success meta :: stream_replies batches ++ rs) more ∨
       ∃ b rest, batches = b :: rest ∧ abandoned allow c' (stream_replies rest ++ rs) more).
Proof.
  intros Hv Hp Hbs Hf Hfp Ho. unfold run_stream_with. rewrite Hv. cbn [from_sum]. rewrite bind_ret.
  eapply yields_bind; [by eapply (ensure_clean_yields allow c m)| |auto]; cbn beta.
  intros _ c1 (He1 & Hm1 & Hp1). rewrite bind_modify.
  pose proof (moved_set _ true _ _ _ _ Hm1) as Hm1'.
  pose proof (moved_broken _ _ _ _ _ Hm1') as Hb1. rewrite (proj1 Hp) in Hb1.
  destruct batches as [|b rest]; [done|].
  eapply yields_bind; [eapply (send_run_pull_yields allow query parameters extra batch
    (set_needs_reset true c1) run_bs _ meta _ more Hb1);
    [by rewrite pending_set_needs_reset|exact Hf|by eapply moved_outgoing|
     by apply expects_set_needs_reset]| |]; cbn beta.
  - intros p c2 (-> & He2 & Hm2 & Hp2). apply yields_ok.
    pose proof (moved_trans _ _ _ _ _ _ _ _ _ Hm1' Hm2) as Hm.
    destruct (moved_fields _ _ _ _ _ Hm) as (_ & _ & _ & Hn & Hb & _ & Hout & Hs).
    split_and!; [done|done| |done]. constructor; cbn [RecordStream.open RecordStream.done
      RecordStream.conn RecordStream.batch RecordStream.qid RecordStream.has_more
      RecordStream.pull_in_flight RecordStream.summary pulls_left length]; try done.
    + rewrite Hb. apply Hp.
    + by right.
    + rewrite Hn. by destruct c1.
    + unfold pulls_left. cbn. by rewrite Nat.sub_0_r.
    + unfold pulls_left. cbn. by rewrite Nat.sub_0_r, Hs, <- !app_assoc.
  - intros c2 (Hm2 & Hp2 & He2). right. exists b, rest. split; [done|].
    pose proof (moved_broken _ _ _ _ _ Hm2) as Hb2.
    split_and!; [congruence|apply not_ready_pending; lia|].
    exists (Response.Success meta :: batch_replies b). unfold batch_replies.
    rewrite summaries_cons, summaries_pull. split; [done|].
    change (stream_replies (b :: rest)) with (batch_replies b ++ stream_replies rest) in He2.
    by rewrite <- app_assoc in He2.
Qed.

End opening.
