(* ===== verification/StreamSpec.v ===== *)
(** * What record streams guarantee

    Reading all of a stream, dropping it midway, discarding the rest of it, and
    a stream in a transaction. *)

From S2P Require Import Prelude Utf8 Value Message Error PackStream Wire Codec.
From S2P Require Import Handshake Framing Routing Transport Connection Receive Exchange Safety.
From S2P Require Import Session Guarantees SessionSpec.
From S2P Require Import StreamReads.
Import BoltConnection.

(** ** Ending a stream *)

Section ending.
Context {hash : HashIter}.

Definition discard_round : unit → RecordStream.R (unit + HashMap BoltValue) := λ _,
  let! response := RecordStream.on_conn read_message in
  match response with
  | Response.Success meta => do! RecordStream.mark false in ret (inr meta)
  | Response.Record _ => ret (inl tt)
  | Response.Failure code message => RecordStream.fail_reset code message
  | Response.Ignored => throw (BoltError.Protocol (Text "DISCARD ignored by server"))
  end.

Lemma set_conn_twice c1 c2 s :
  RecordStream.set_conn c2 (RecordStream.set_conn c1 s) = RecordStream.set_conn c2 s.
Proof. by destruct s. Qed.

Lemma conn_set_conn c s : RecordStream.conn (RecordStream.set_conn c s) = c.
Proof. by destruct s. Qed.

Lemma discard_loop_yields allow rows meta rs more fuel s :
  broken (RecordStream.conn s) = false → pending (RecordStream.conn s) = 1%N →
  expects allow (RecordStream.conn s)
    ((Response.Record <$> rows) ++ Response.Success meta :: rs) more →
  (length rows < fuel)%nat →
  yields allow (loop fuel discard_round tt s)
    (λ r s', r = meta ∧ ∃ c', s' = RecordStream.set_conn c' s ∧ expects allow c' rs more ∧
       pending c' = 0%N ∧ moved false [] (outgoing (stream (RecordStream.conn s))) (RecordStream.conn s) c')
    (λ s', ∃ c', s' = RecordStream.set_conn c' s ∧ abandoned allow c' rs more).
Proof.
  revert s fuel. induction rows as [|row rows IH]; intros s fuel Hb Hp He Hf;
    (destruct fuel as [|fuel]; [cbn in Hf; lia|]); cbn [loop];
    destruct (on_conn_yields _ _ _ _ _ (read_message_yields _ _ _ _ _ Hb He)) as
      [(r' & s' & Hr & c' & -> & -> & He' & Hk & Hp')|(Ha & o & s' & Hr & Ho & c' & -> & He' & Hk & Hp')].
  2,4: right; split; [done|];
    exists (interrupt_outcome (interrupt_outcome o : Outcome BoltError (unit + HashMap BoltValue))),
      (RecordStream.set_conn c' s);
    (split_and!; [by apply bind_interrupted; [apply interrupted_cast|apply bind_interrupted]
      |by apply interrupted_cast, interrupted_cast|]);
    exists c'; (split; [done|]);
    destruct (keeps_fields _ _ Hk) as (_ & _ & _ & _ & Hbk & _);
    (split_and!; [congruence|apply not_ready_pending; lia|]).
  - apply moved_keeps in Hk. unfold settle in Hp'. cbn in Hp'. rewrite Hp in Hp'.
    left. exists meta, (RecordStream.set_conn (set_needs_reset false c') s).
    unfold bind at 1. unfold discard_round. rewrite (bind_ok _ _ _ _ _ Hr).
    split; [by destruct s|]. split; [done|]. eexists. split_and!; [done| | |].
    + by apply expects_set_needs_reset.
    + by rewrite pending_set_needs_reset.
    + by eapply moved_set.
  - exists [Response.Success meta]. by rewrite Hp', Hp.
  - exists ((Response.Record <$> row :: rows) ++ [Response.Success meta]).
    rewrite summaries_pull, <- app_assoc. by rewrite Hp', Hp.
  - destruct (keeps_fields _ _ Hk) as (_ & _ & _ & _ & Hb' & _ & Ho' & _).
    apply moved_keeps in Hk. unfold settle in Hp'. cbn in Hp'.
    unfold bind at 1. unfold discard_round at 1. rewrite (bind_ok _ _ _ _ _ Hr).
    eapply yields_weaken; [apply IH; [rewrite conn_set_conn; congruence..|by rewrite conn_set_conn|cbn in Hf; lia]| |];
      cbn beta.
    + intros r s2 (-> & c2 & -> & ? & ? & Hm). rewrite set_conn_twice, conn_set_conn, Ho' in *.
      split; [done|]. exists c2. split_and!; [done..|]. by eapply (moved_trans _ [] _ _ []).
    + intros s2 (c2 & -> & ?). rewrite set_conn_twice. eauto.
Qed.

(** A stream that was ended, its summary [r] returned. *)
Definition finished (allow : bool) (summary : HashMap BoltValue) (rs : list Response)
    (more : list ReadEvent) (final : bytes) (r : HashMap BoltValue) (s : RecordStream.t) : Prop :=
  r = summary ∧ RecordStream.done s = true ∧ is_ready (RecordStream.conn s) = true ∧
  expects allow (RecordStream.conn s) rs more ∧ sent (stream (RecordStream.conn s)) = final.

Lemma discard_rest_yields allow d rs more ws bs s :
  broken (RecordStream.conn s) = false → pending (RecordStream.conn s) = 0%N →
  framed [discard (-1) (RecordStream.qid s)] bs →
  outgoing (stream (RecordStream.conn s)) = WrDone :: WrDone :: ws →
  expects allow (RecordStream.conn s) (batch_replies d ++ rs) more →
  yields allow (RecordStream.discard_rest s)
    (finished allow d.2 rs more (sent (stream (RecordStream.conn s)) ++ bs))
    (λ s', abandoned allow (RecordStream.drop s') rs more).
Proof.
  intros Hb Hp Hf Ho He. unfold batch_replies in He. rewrite <- app_assoc in He. cbn [app] in He.
  unfold RecordStream.discard_rest. rewrite bind_modify, bind_gets. unfold id.
  set (s0 := RecordStream.set_done true s).
  destruct (write_messages_expects _ _ _ _ _ _ _ Hb Hf Ho He) as (c1 & Hw & He1 & Hm1 & Hp1).
  change (owed [discard (-1) (RecordStream.qid s)]) with 1%N in Hp1. rewrite Hp in Hp1.
  assert (RecordStream.qid s0 = RecordStream.qid s) as Hq by by destruct s.
  assert (RecordStream.on_conn (write_message (discard (-1) (RecordStream.qid s0))) s0
    = (Ok tt, RecordStream.set_conn c1 s0)) as H1.
  { apply stream_on_conn. rewrite Hq. by destruct s. }
  rewrite (bind_ok _ _ _ _ _ H1).
  pose proof (moved_broken _ _ _ _ _ Hm1) as Hb1. rewrite Hb in Hb1.
  assert (∀ c', RecordStream.done (RecordStream.set_conn c' s0) = true) as Hd by by destruct s.
  unfold loop_by. eapply yields_weaken; [apply (discard_loop_yields allow d.1 d.2 rs more);
    rewrite ?conn_set_conn; try done|..]; cbn beta.
  - unfold RecordStream.input_left. rewrite conn_set_conn. apply expects_length in He1.
    rewrite length_app, length_fmap in He1. lia.
  - intros r s' (-> & c' & -> & ? & ? & Hm). rewrite set_conn_twice, conn_set_conn in *.
    pose proof (moved_trans _ _ _ _ _ _ _ _ _ Hm1 Hm) as Hm2. rewrite app_nil_r in Hm2.
    destruct (moved_fields _ _ _ _ _ Hm2) as (_ & _ & _ & Hn' & Hb' & _ & _ & Hs').
    unfold finished. rewrite !conn_set_conn. split_and!; [done|done| |done|done].
    apply is_ready_spec. split_and!; congruence.
  - intros s' (c' & -> & ?). rewrite set_conn_twice. unfold RecordStream.drop.
    by rewrite Hd, conn_set_conn.
Qed.

(** [finish] once nothing is in flight. *)
Definition finish_tail : RecordStream.R (HashMap BoltValue) :=
  let! taken := RecordStream.take_summary in
  match taken with
  | Some summary => do! modify (RecordStream.set_done true) in ret summary
  | None => RecordStream.discard_rest
  end.

Lemma finish_body_settled s :
  RecordStream.done s = false → RecordStream.pull_in_flight s = false →
  RecordStream.finish_body s = finish_tail s.
Proof. destruct s as [c co q b bu h p d [su|]]; cbn; by intros -> ->. Qed.

Lemma finish_body_in_flight s :
  RecordStream.done s = false → RecordStream.pull_in_flight s = true →
  RecordStream.summary s = None →
  RecordStream.finish_body s =
  bind RecordStream.fetch_batch (λ _, bind (modify (RecordStream.set_buffer [])) (λ _, finish_tail)) s.
Proof.
  destruct s as [c co q b bu h p d su]. cbn [RecordStream.done RecordStream.pull_in_flight
    RecordStream.summary]. by intros -> -> ->.
Qed.

(** What ends a stream whose last batch is summed up by [fin]: nothing, or,
    when [fin] announces more, a DISCARD, [frame] on the wire, and its replies
    [d]. *)
Section finishing.
Variables (fin : HashMap BoltValue) (d : list row * HashMap BoltValue) (frame : bytes).

Definition end_replies : list Response := if announces_more fin then batch_replies d else [].
Definition end_writes : list WriteEvent := if announces_more fin then [WrDone; WrDone] else [].
Definition end_sent : bytes := if announces_more fin then frame else [].
Definition end_summary : HashMap BoltValue := if announces_more fin then d.2 else fin.

Variables (allow : bool) (qid : option Z) (pull_bs : bytes) (rs : list Response)
  (more : list ReadEvent) (ws : list WriteEvent) (final : bytes).
Hypothesis Hframe : framed [discard (-1) qid] frame.

#[local] Abbreviation streaming :=
  (streaming allow fin qid pull_bs (end_replies ++ rs) more (end_writes ++ ws) final).

Lemma finish_tail_yields s :
  streaming [] s →
  yields allow (finish_tail s) (finished allow end_summary rs more (final ++ end_sent))
    (λ s', abandoned allow (RecordStream.drop s') rs more).
Proof.
  intros Hst. pose proof (streaming_more _ _ _ _ _ _ _ _ _ _ Hst) as Hm. cbn in Hm.
  pose proof (streaming_ended _ _ _ _ _ _ _ _ _ Hst) as Hend. pose proof Hst as
    [Hd Hb Hq _ _ _ Hpf Hp Hn Hsu He Ho Hs].
  assert (RecordStream.pull_in_flight s = false) as Hpf'.
  { destruct (RecordStream.pull_in_flight s); [by destruct (Hpf eq_refl)|done]. }
  rewrite Hpf' in Hp. unfold pulls_left in *. rewrite Hpf' in *. cbn in He, Ho, Hs.
  rewrite app_nil_r in Hs. unfold end_replies, end_writes, end_sent, end_summary in *.
  rewrite Hm in *. unfold finish_tail, RecordStream.take_summary.
  destruct s as [c co q b bu h p dn su]. cbn [RecordStream.conn RecordStream.done RecordStream.qid
    RecordStream.summary RecordStream.has_more] in *. subst. destruct (announces_more fin).
  - by eapply yields_weaken; [eapply (discard_rest_yields allow d rs more ws frame)|..].
  - destruct (Hend eq_refl) as [? ? ? ? ?]. left. eexists _, _. split; [done|].
    by rewrite app_nil_r.
Qed.

Lemma finish_yields batches s :
  streaming batches s → sent (stream (RecordStream.conn s)) = final →
  yields allow (RecordStream.finish s)
    (λ r c', r = end_summary ∧ is_ready c' = true ∧ expects allow c' rs more ∧
       sent (stream c') = final ++ end_sent)
    (λ c', abandoned allow c' (end_replies ++ rs) more ∨ abandoned allow c' rs more).
Proof.
  intros Hst Hs.
  assert (yields allow (RecordStream.finish_body s)
    (finished allow end_summary rs more (final ++ end_sent))
    (λ s', abandoned allow (RecordStream.drop s') (end_replies ++ rs) more ∨
       abandoned allow (RecordStream.drop s') rs more)) as Hbody.
  { destruct (streaming_all_sent _ _ _ _ _ _ _ _ _ _ Hst Hs) as [_ [[-> Hpf]|(b & -> & Hpf)]].
    - rewrite finish_body_settled by (done || apply Hst).
      eapply yields_weaken; [by apply finish_tail_yields|done|by right].
    - rewrite finish_body_in_flight; [|apply Hst|done|].
      2:{ rewrite (streaming_summary _ _ _ _ _ _ _ _ _ _ Hst).
          by rewrite (streaming_more _ _ _ _ _ _ _ _ _ _ Hst). }
      eapply yields_bind; [by eapply streaming_fetch| |]; cbn beta.
      + intros _ s1 (Hst1 & _). rewrite bind_modify.
        eapply yields_weaken; [by apply finish_tail_yields, streaming_set_buffer|done|by right].
      + intros s1 (b' & Hst1 & _ & Hpf1 & _). left. eapply streaming_dropped; [done|].
        unfold pulls_left. by rewrite Hpf1. }
  unfold RecordStream.finish.
  destruct Hbody as [(r & s' & -> & -> & Hd & ? & ? & ?)|(? & o & s' & -> & ? & ?)]; [left|right].
  - eexists _, _. split; [done|]. unfold RecordStream.drop. by rewrite Hd.
  - split; [done|]. by eexists _, _.
Qed.

End finishing.

End ending.

(** ** Properties *)

Section opened.
Context {hash : HashIter}.
Variables (allow : bool) (query : string) (parameters extra : HashMap BoltValue) (batch : Z) (c : t)
  (run_bs pull_bs : bytes) (m meta fin : HashMap BoltValue)
  (batches : list (list row * HashMap BoltValue)) (more : list ReadEvent).

(** The query's requests have frames, and [batches] is what its PULLs bring. *)
Hypotheses (Hv : validate_batch batch = inr tt)
  (Hf : framed (query_requests query parameters extra batch) run_bs)
  (Hfp : framed [pull batch (get_as as_int meta "qid")] pull_bs)
  (Hbs : batched fin batches).

(** What is read, written and sent: RESET if it is needed, RUN, and a PULL per
    batch, the first one together with RUN. *)
Definition stream_input (rs : list Response) : Prop :=
  poised allow c m (Response.Success meta :: stream_replies batches ++ rs) more.

Definition stream_output (ws : list WriteEvent) : Prop :=
  outgoing (stream c) =
    recovery_writes c ++ WrDone :: WrDone :: replicate (2 * pred (length batches)) WrDone ++ ws.

Definition stream_sent : bytes :=
  sent (stream c) ++ recovery c ++ run_bs ++ mjoin (replicate (pred (length batches)) pull_bs).

Lemma opened_yields rs ws :
  stream_input rs → stream_output ws →
  yields allow (run_stream_with query parameters extra batch c)
    (λ s c1, RecordStream.columns s = extract_columns meta ∧
       streaming allow fin (get_as as_int meta "qid") pull_bs rs more ws stream_sent batches s ∧
       remaining_rows batches s = batches ≫= fst ∧ shrinks c (RecordStream.conn s))
    (λ c', abandoned allow c' (Response.Success meta :: stream_replies batches ++ rs) more ∨
       ∃ b rest, batches = b :: rest ∧ abandoned allow c' (stream_replies rest ++ rs) more).
Proof.
  intros Hp Ho. pose proof (shrinks_run_stream_with query parameters extra batch c) as Hsh.
  destruct (run_stream_with_yields allow query parameters extra batch c run_bs pull_bs m meta fin
    batches rs more ws Hv Hp Hbs Hf Hfp Ho)
    as [(s & c1 & Hr & Hc & Hbuf & Hst & Hc1)|?]; [left|by right].
  rewrite Hr in Hsh. subst c1. eexists _, _. unfold remaining_rows. by rewrite Hbuf.
Qed.

(** C9: a stream returns every record. On a session that is ready or can
    recover, the query's RUN reply is followed by the batches of its PULLs
    (any number, of any sizes, empty ones included, every one but the last
    announcing more), in any fragmentation, with interruptions anywhere.
    Unless opening it is interrupted (and then the session is abandoned),
    [run_stream_with] returns the stream with the columns; a caller who calls
    [next] until it returns [None], and again whenever a call is cancelled or
    times out, gets exactly the records of all the batches, in order; then the
    stream is done, the session ready, the rest of the input unread, and what
    was sent is RESET if it was needed, RUN, and one PULL per batch. *)
Theorem stream_returns_all rs ws tries :
  stream_input rs → stream_output ws → announces_more fin = false →
  (length (batches ≫= fst) + reads_left c < tries)%nat →
  (∃ s c1 s', run_stream_with query parameters extra batch c = (Ok s, c1) ∧
     RecordStream.columns s = extract_columns meta ∧
     read_all tries s = (Ok (batches ≫= fst), s') ∧ RecordStream.drop s' = RecordStream.conn s' ∧
     is_ready (RecordStream.conn s') = true ∧ expects allow (RecordStream.conn s') rs more ∧
     sent (stream (RecordStream.conn s')) = stream_sent) ∨
  (allow = true ∧ ∃ o c', run_stream_with query parameters extra batch c = (o, c') ∧ interrupted o ∧
     (abandoned allow c' (Response.Success meta :: stream_replies batches ++ rs) more ∨
      ∃ b rest, batches = b :: rest ∧ abandoned allow c' (stream_replies rest ++ rs) more)).
Proof.
  intros Hp Ho Hfin Ht.
  destruct (opened_yields rs ws Hp Ho) as [(s & c1 & Hr & Hc & Hst & Hrows & Hsh)|?]; [left|by right].
  destruct (read_all_ok _ _ _ _ _ _ _ _ _ tries _ _ Hst Hrows Hfin) as (s' & Hall & [Hd ? ? ? ?]).
  - unfold shrinks in Hsh. lia.
  - exists s, c1, s'. split_and!; try done. unfold RecordStream.drop. by rewrite Hd.
Qed.

(** C10: a stream dropped midway costs the next query nothing. The caller reads
    any number of records, fewer calls than it takes if it likes, perhaps the
    last one cancelled, and drops the stream. If every batch the script holds
    has been asked for, then what it got is a prefix of the records, and the
    next query on the connection sends one RESET, skips whatever of the stream
    was still on its way, and returns exactly its own result; or it is
    interrupted, and the session is abandoned in turn. *)
Theorem dropped_stream_recovers tries n s c1 rows s' query2 parameters2 extra2 bs2 m2 meta2 rows2
    summary2 rs ws :
  stream_input (Response.Success m2 :: run_replies meta2 rows2 summary2 ++ rs) →
  stream_output (WrDone :: WrDone :: WrDone :: WrDone :: ws) →
  framed (query_requests query2 parameters2 extra2 (-1)) bs2 →
  run_stream_with query parameters extra batch c = (Ok s, c1) →
  (n ≤ length (batches ≫= fst))%nat → read_some tries n s = (rows, s') →
  sent (stream (RecordStream.conn s')) = stream_sent →
  rows `prefix_of` (batches ≫= fst) ∧
  ((∃ c', run_with query2 parameters2 extra2 (RecordStream.drop s') =
      (Ok (mk_result (extract_columns meta2) rows2), c') ∧ is_ready c' = true ∧
      expects allow c' rs more ∧ sent (stream c') = stream_sent ++ reset_frame ++ bs2) ∨
   (allow = true ∧ ∃ o c', run_with query2 parameters2 extra2 (RecordStream.drop s') = (o, c') ∧
      interrupted o ∧ (abandoned allow c' (run_replies meta2 rows2 summary2 ++ rs) more ∨
                       abandoned allow c' rs more))).
Proof.
  intros Hp Ho Hf2 Hopen Hn Hsome Hall.
  destruct (opened_yields _ _ Hp Ho) as [(s0 & c0 & Hr & _ & Hst & Hrows & _)|(_ & o & c' & Hr & Hi & _)];
    rewrite Hr in Hopen; [|by destruct Hi as [-> | ->]].
  injection Hopen as -> ->. rewrite <- Hrows in Hn.
  destruct (read_some_ok _ _ _ _ _ _ _ _ tries n _ _ Hst Hn)
    as (rows' & s2 & batches' & He & Hst' & Hrem & _).
  rewrite Hsome in He. injection He as <- <-. rewrite Hrows in Hrem.
  split; [by eexists|].
  destruct (streaming_all_sent _ _ _ _ _ _ _ _ _ _ Hst' Hall) as [Hl _].
  pose proof (streaming_dropped _ _ _ _ _ _ _ _ _ _ Hst' Hl) as Hab.
  assert (outgoing (stream (RecordStream.drop s')) = WrDone :: WrDone :: WrDone :: WrDone :: ws ∧
    sent (stream (RecordStream.drop s')) = stream_sent) as [Hout Hsent].
  { pose proof (streaming_outgoing _ _ _ _ _ _ _ _ _ _ Hst') as Hout. rewrite Hl in Hout.
    change (outgoing (stream (RecordStream.conn s')) = WrDone :: WrDone :: WrDone :: WrDone :: ws)
      in Hout.
    rewrite <- Hall, <- Hout. unfold RecordStream.drop.
    destruct (RecordStream.done s'); [done|]. by destruct (RecordStream.conn s') as [[]]. }
  pose proof Hab as (_ & Hready & _).
  destruct (run_with_yields allow query2 parameters2 extra2 (RecordStream.drop s') bs2 ws m2 meta2
    rows2 summary2 rs more (abandoned_poised _ _ _ _ _ Hab) Hf2)
    as [(r & c' & Hrun & -> & ? & ? & Hm)|?]; [|left|by right].
  - unfold recovery_writes. by rewrite Hready.
  - exists c'. split_and!; [done..|].
    destruct (moved_fields _ _ _ _ _ Hm) as (_ & _ & _ & _ & _ & _ & _ & ->).
    unfold recovery. by rewrite Hready, Hsent.
Qed.

(** C11: a stream finished midway. After reading as above, [finish] returns the
    query's summary and leaves the session ready, with what follows unread:
    the summary of the last batch, if that announces no more, be it read,
    on its way or partly read; else that of a DISCARD, whose records are
    skipped. It sends nothing but that DISCARD. When it is interrupted the
    session is abandoned, for the next operation to recover. *)
Theorem finish_settles_stream tries n s c1 rows s' d frame rs ws :
  stream_input (end_replies fin d ++ rs) → stream_output (end_writes fin ++ ws) →
  framed [discard (-1) (get_as as_int meta "qid")] frame →
  run_stream_with query parameters extra batch c = (Ok s, c1) →
  (n ≤ length (batches ≫= fst))%nat → read_some tries n s = (rows, s') →
  sent (stream (RecordStream.conn s')) = stream_sent →
  (∃ c', RecordStream.finish s' = (Ok (end_summary fin d), c') ∧ is_ready c' = true ∧
     expects allow c' rs more ∧ sent (stream c') = stream_sent ++ end_sent fin frame) ∨
  (allow = true ∧ ∃ o c', RecordStream.finish s' = (o, c') ∧ interrupted o ∧
     (abandoned allow c' (end_replies fin d ++ rs) more ∨ abandoned allow c' rs more)).
Proof.
  intros Hp Ho Hfd Hopen Hn Hsome Hall.
  destruct (opened_yields _ _ Hp Ho) as [(s0 & c0 & Hr & _ & Hst & Hrows & _)|(_ & o & c' & Hr & Hi & _)];
    rewrite Hr in Hopen; [|by destruct Hi as [-> | ->]].
  injection Hopen as -> ->. rewrite <- Hrows in Hn.
  destruct (read_some_ok _ _ _ _ _ _ _ _ tries n _ _ Hst Hn)
    as (rows' & s2 & batches' & He & Hst' & _ & _).
  rewrite Hsome in He. injection He as <- <-.
  destruct (finish_yields _ _ _ _ _ _ _ _ _ _ Hfd _ _ Hst' Hall)
    as [(r & c' & Hfin & -> & ? & ? & ?)|?]; [left; eauto|by right].
Qed.

End opened.

Section stream_properties.
Context {hash : HashIter}.

(** [fetch_batch] and [next] on a stream whose first batch fails, once the
    read and the RESET that follows it are known. *)
Lemma next_fails s c2 c3 u code message :
  RecordStream.buffer s = [] → RecordStream.has_more s = true → RecordStream.done s = false →
  RecordStream.pull_in_flight s = true →
  read_message (RecordStream.conn s) = (Ok (Response.Failure code message), c2) →
  reset c2 = (Ok u, c3) →
  RecordStream.next s = (Err (BoltError.Failure code message),
    RecordStream.set_done true (RecordStream.set_conn c3 s)).
Proof.
  intros Hbuf Hmore Hdone Hpull Hr Hreset. set (s' := RecordStream.set_done _ _).
  assert (RecordStream.fetch_batch s = (Err (BoltError.Failure code message), s')) as Hfetch.
  { unfold RecordStream.fetch_batch. rewrite bind_gets. unfold id at 1. rewrite Hpull, bind_ret.
    change (loop (S (RecordStream.input_left s)) fetch_round tt s
      = (Err (BoltError.Failure code message), s')).
    cbn [loop]. unfold bind at 1. unfold fetch_round at 1.
    rewrite (bind_ok _ _ _ _ _ (stream_on_conn read_message s _ _ Hr)), bind_modify.
    unfold RecordStream.fail_reset, RecordStream.on_conn, zoom, fail_reset, attempt, bind.
    destruct s. cbn in *. by rewrite Hreset. }
  change (RecordStream.next s) with (loop (S (RecordStream.input_left s)) next_round tt s).
  cbn [loop]. unfold bind at 1. unfold next_round at 1. rewrite bind_gets. unfold id.
  rewrite Hbuf, Hdone, Hmore. cbn [orb negb]. by rewrite (bind_err _ _ _ _ _ Hfetch).
Qed.

(** Opening a stream in a transaction, once its RUN has been answered. *)
Lemma tx_run_stream_ok query parameters batch c columns qid c1 :
  open_tx (Transaction.mk c false) → validate_batch batch = inr tt →
  send_run_pull query parameters ∅ batch (set_needs_reset true c) = (Ok (columns, qid), c1) →
  Transaction.run_stream query parameters batch (Transaction.mk c false) =
    (Ok (RecordStream.open columns qid batch c1), Transaction.mk c1 false).
Proof.
  intros Ho Hv Hrun. unfold Transaction.run_stream. rewrite Hv. cbn [from_sum]. rewrite bind_ret.
  rewrite (bind_ok _ _ _ _ _ (guard_open_ok _ Ho)), (bind_ok _ _ _ _ _ (tx_mark true _)).
  unfold attempt at 1. unfold bind at 1. cbn.
  unfold Transaction.on_conn, zoom. cbn. by rewrite Hrun.
Qed.

(** C33: a server failure in a transaction's stream leaves the transaction
    open. The failure of a batch is RESET by the stream, which ends the
    server's transaction and clears the session's mark, but the transaction
    is not told: it still takes statements, and the next one is sent, outside
    any transaction, and its result returned (a statement that fails in
    [Transaction::run] closes it). *)
Theorem stream_failure_leaves_tx_open query parameters batch query2 parameters2 tx run_bs run_bs2
    ws m1 code message m2 meta rows summary rs more :
  open_tx tx → pending (Transaction.conn tx) = 0%N → validate_batch batch = inr tt →
  framed (query_requests query parameters ∅ batch) run_bs →
  framed (query_requests query2 parameters2 ∅ (-1)) run_bs2 →
  outgoing (stream (Transaction.conn tx)) = replicate 6 WrDone ++ ws →
  expects false (Transaction.conn tx)
    (Response.Success m1 :: Response.Failure code message :: Response.Success m2 ::
     run_replies meta rows summary ++ rs) more →
  ∃ s tx1 s' tx2,
    Transaction.run_stream query parameters batch tx = (Ok s, tx1) ∧
    RecordStream.next s = (Err (BoltError.Failure code message), s') ∧
    open_tx (Transaction.resume s' tx1) ∧
    Transaction.run query2 parameters2 (Transaction.resume s' tx1) =
      (Ok (mk_result (extract_columns meta) rows), tx2) ∧
    sent (stream (Transaction.conn tx2)) =
      sent (stream (Transaction.conn tx)) ++ run_bs ++ reset_frame ++ run_bs2.
Proof.
  intros Ho Hp Hv Hf Hf2 Hout He. pose proof Ho as (Hd & Hb & Hn).
  destruct tx as [c d]. cbn [Transaction.conn Transaction.done] in *. subst d.
  set (c0 := set_needs_reset true c).
  assert (moved true [] (outgoing (stream c)) c c0) as Hm0 by apply moved_set_needs_reset.
  rewrite Hout in Hm0. cbn [replicate app] in Hm0.
  destruct (yields_definite _ _ _ (send_run_pull_yields false query parameters ∅ batch c0 run_bs
    (replicate 4 WrDone ++ ws) m1 _ more
    ltac:(by rewrite (moved_broken _ _ _ _ _ Hm0)) ltac:(unfold c0; by rewrite pending_set_needs_reset)
    Hf (moved_outgoing _ _ _ _ _ Hm0) ltac:(by apply expects_set_needs_reset)))
    as (cq & c1 & Hrun & -> & He1 & Hm1 & Hp1).
  pose proof (moved_broken _ _ _ _ _ Hm1) as Hb1. rewrite (moved_broken _ _ _ _ _ Hm0), Hb in Hb1.
  destruct (read_message_ok _ _ _ _ Hb1 He1) as (c2 & Hr & He2 & Hk & Hp2).
  rewrite Hp1 in Hp2. pose proof (moved_keeps_r _ _ _ _ _ _ Hm1 Hk) as Hm2.
  pose proof (moved_broken _ _ _ _ _ Hm2) as Hb2. rewrite (moved_broken _ _ _ _ _ Hm0), Hb in Hb2.
  destruct (yields_definite _ _ _ (reset_yields false c2 [] m2 _ more (replicate 2 WrDone ++ ws)
    Hb2 Hp2 (moved_outgoing _ _ _ _ _ Hm2) He2)) as (u & c3 & Hreset & He3 & Hm3 & Hp3).
  pose proof (moved_trans _ _ _ _ _ _ _ _ _ Hm0 (moved_trans _ _ _ _ _ _ _ _ _ Hm2 Hm3)) as Hm.
  destruct (moved_fields _ _ _ _ _ Hm) as (_ & _ & _ & Hn3 & Hb3 & _ & Ho3 & Hs3).
  set (s := RecordStream.open (extract_columns m1) (get_as as_int m1 "qid") batch c1).
  set (s' := RecordStream.set_done true (RecordStream.set_conn c3 s)).
  set (tx3 := Transaction.mk c3 false).
  assert (open_tx tx3) as Ho3' by (unfold open_tx, tx3; cbn; split_and!; congruence).
  assert (moved true [] (WrDone :: WrDone :: ws) c3 (set_needs_reset true c3)) as Hm4.
  { cbn [replicate app] in Ho3. rewrite <- Ho3. apply moved_set_needs_reset. }
  destruct (yields_definite _ _ _ (run_inner_yields false query2 parameters2 ∅
    (set_needs_reset true c3) run_bs2 ws meta rows summary rs more
    ltac:(rewrite (moved_broken _ _ _ _ _ Hm4); congruence)
    ltac:(by rewrite pending_set_needs_reset) Hf2 (moved_outgoing _ _ _ _ _ Hm4)
    ltac:(by apply expects_set_needs_reset))) as (r & c4 & Hrun2 & -> & He4 & Hm5 & Hp4).
  exists s, (Transaction.mk c1 false), s', (Transaction.mk (set_needs_reset false c4) false).
  split_and!.
  - by apply tx_run_stream_ok.
  - by apply (next_fails s c2 c3 u).
  - exact Ho3'.
  - change (Transaction.resume s' (Transaction.mk c1 false)) with tx3.
    rewrite (tx_run_unfold query2 parameters2 tx3 Ho3'). cbn. by rewrite Hrun2.
  - cbn. pose proof (moved_trans _ _ _ _ _ _ _ _ _ Hm (moved_trans _ _ _ _ _ _ _ _ _ Hm4 Hm5)) as Hall.
    destruct (moved_fields _ _ _ _ _ (moved_set _ false _ _ _ _ Hall)) as (_ & _ & _ & _ & _ & _ & _ & ->).
    by rewrite <- !app_assoc.
Qed.

End stream_properties.

(** ** Witnesses *)

(** SUCCESS with [has_more]. *)
Definition more_body : bytes := [xb1; x70; xa1; x88] ++ as_bytes "has_more" ++ [xc3].
Definition more_meta : HashMap BoltValue := {["has_more" := BoltValue.Bool true]}.

Lemma more_reply : reply_chunks (Response.Success more_meta) [more_body].
Proof.
  apply (reply_one _ _ SUCCESS [BoltValue.Map more_meta]); [|done..].
  apply (enc_structure SUCCESS [BoltValue.Map more_meta] [xb1]
    ([xa1; x88] ++ as_bytes "has_more" ++ [xc3]));
    [by apply (header_tiny TINY_STRUCT STRUCT_8 1)|].
  apply (items_cons (BoltValue.Map more_meta) [] ([xa1; x88] ++ as_bytes "has_more" ++ [xc3]) []);
    [|constructor].
  apply (enc_map [("has_more", BoltValue.Bool true)] [xa1] ([x88] ++ as_bytes "has_more" ++ [xc3]));
    [by apply (header_tiny TINY_MAP MAP_8 1)|].
  apply (entries_cons "has_more" (BoltValue.Bool true) [] ([x88] ++ as_bytes "has_more") [xc3] []);
    [|constructor..].
  apply (enc_string "has_more" [x88]); [by vm_compute|].
  by apply (header_tiny TINY_STRING STRING_8 8).
Qed.

Definition pull_bytes : bytes := (for_each (@encode listing_order) [pull 1 None] []).2.

Definition stream_query_bytes : bytes :=
  (for_each (@encode listing_order) (query_requests "RETURN 7" ∅ ∅ 1) []).2.

Ltac more_replies := repeat (apply Forall2_cons; split);
  first [apply more_reply | apply success_reply | apply failure_reply | apply record_reply
        | constructor].

(** Two batches of one record. *)
Definition two_batches : list (list row * HashMap BoltValue) :=
  [([[BoltValue.Int 7]], more_meta); ([[BoltValue.Int 7]], ∅)].

(** A ready session whose replies come in two pieces, with a wait in between. *)
Definition waiting_cut (first second : list bytes) (writes : nat) : t :=
  mk (mk_stream [RdData (reply_bytes first); RdPending; RdData (reply_bytes second)]
    (replicate writes WrDone) []) (new_version x05 x08) None None false 0 false [] 30.

Lemma waiting_cut_expects rs first second n :
  reply_bytes first ≠ [] → reply_bytes second ≠ [] →
  Forall2 (λ r body, reply_chunks r [body]) rs (first ++ second) →
  expects true (waiting_cut first second n) rs [].
Proof.
  intros H1 H2 H. exists (reply_bytes (first ++ second)). split; [by apply replies_wire_bodies|].
  exists [RdData (reply_bytes first); RdPending; RdData (reply_bytes second)].
  split_and!; [done|by repeat (constructor; [done|])|].
  rewrite !arriving_cons. cbn [waiting_cut rbuf app]. unfold reply_bytes.
  by rewrite fmap_app, join_app, app_nil_r.
Qed.

(** The stream's call is cancelled between the batches. *)
Definition cut_stream (rest : list bytes) (writes : nat) : t :=
  waiting_cut [success_body; record_body; more_body] ([record_body; success_body] ++ rest) writes.

Ltac cut_replies :=
  split; [reflexivity|]; apply waiting_cut_expects; [done|done|more_replies].

(** Opening it is not interrupted. *)
Lemma opens_cut (o : Outcome BoltError RecordStream.t) c1 :
  @run_stream_with listing_order "RETURN 7" ∅ ∅ 1 (cut_stream [] 4) = (o, c1) → ¬ interrupted o.
Proof.
  assert (match (@run_stream_with listing_order "RETURN 7" ∅ ∅ 1 (cut_stream [] 4)).1 with
    Ok _ => true | _ => false end = true) as H by (vm_compute; reflexivity).
  intros Hr [-> | ->]; by rewrite Hr in H.
Qed.

Lemma stream_returns_all_witness :
  ∃ s c1 s', @run_stream_with listing_order "RETURN 7" ∅ ∅ 1 (cut_stream [] 4) = (Ok s, c1) ∧
    RecordStream.columns s = extract_columns ∅ ∧
    @read_all listing_order 6 s = (Ok (two_batches ≫= fst), s') ∧
    RecordStream.drop s' = RecordStream.conn s' ∧
    is_ready (RecordStream.conn s') = true ∧ expects true (RecordStream.conn s') [] [] ∧
    sent (stream (RecordStream.conn s')) = stream_query_bytes ++ pull_bytes.
Proof.
  assert (stream_query_bytes ++ pull_bytes =
    stream_sent (cut_stream [] 4) stream_query_bytes pull_bytes two_batches) as ->
    by (vm_compute; reflexivity).
  destruct (@stream_returns_all listing_order true "RETURN 7" ∅ ∅ 1 (cut_stream [] 4)
    stream_query_bytes pull_bytes ∅ ∅ ∅ two_batches []) with (rs := @nil Response)
    (ws := @nil WriteEvent) (tries := 6%nat) as [H|(_ & o & c' & Hr & Hi & _)].
  - reflexivity.
  - by vm_compute.
  - by vm_compute.
  - by vm_compute.
  - cut_replies.
  - reflexivity.
  - by vm_compute.
  - vm_compute. lia.
  - exact H.
  - by destruct (opens_cut _ _ Hr).
Defined.

(** The stream is dropped when its second call has been cancelled. *)
Definition dropped_conn : t :=
  cut_stream [success_body; success_body; record_body; success_body] 8.

Definition dropped_stream : RecordStream.t :=
  match @run_stream_with listing_order "RETURN 7" ∅ ∅ 1 dropped_conn with
  | (Ok s, _) => (@read_some listing_order 2 2 s).2
  | (_, c1) => RecordStream.open [] None 1 c1
  end.

Lemma dropped_stream_recovers_witness :
  ∃ c', @run_with listing_order "RETURN 7" ∅ ∅ (RecordStream.drop dropped_stream) =
    (Ok (mk_result (extract_columns ∅) [[BoltValue.Int 7]]), c').
Proof.
  assert (match (@run_with listing_order "RETURN 7" ∅ ∅ (RecordStream.drop dropped_stream)).1 with
    Ok _ => true | _ => false end = true) as Hok by (vm_compute; reflexivity). revert Hok.
  destruct (@run_stream_with listing_order "RETURN 7" ∅ ∅ 1 dropped_conn) as [o c1] eqn:Hopen.
  assert (match o with Ok s => sent (stream (RecordStream.conn (@read_some listing_order 2 2 s).2)) =
      stream_query_bytes ++ pull_bytes | _ => False end) as Hs.
  { assert (o = (@run_stream_with listing_order "RETURN 7" ∅ ∅ 1 dropped_conn).1) as ->
      by (by rewrite Hopen). vm_compute. reflexivity. }
  destruct o as [s|e| | |]; [|by destruct Hs..].
  assert (dropped_stream = (@read_some listing_order 2 2 s).2) as ->
    by (unfold dropped_stream; by rewrite Hopen).
  destruct (@read_some listing_order 2 2 s) as [rows s'] eqn:Hsome. cbn [snd] in *.
  destruct (@dropped_stream_recovers listing_order true "RETURN 7" ∅ ∅ 1 dropped_conn
    stream_query_bytes pull_bytes ∅ ∅ ∅ two_batches []) with (tries := 2%nat) (n := 2%nat) (s := s)
    (c1 := c1) (rows := rows) (s' := s') (query2 := "RETURN 7") (parameters2 := ∅ : HashMap BoltValue)
    (extra2 := ∅ : HashMap BoltValue) (bs2 := query_bytes) (m2 := ∅ : HashMap BoltValue)
    (meta2 := ∅ : HashMap BoltValue) (rows2 := [[BoltValue.Int 7]]) (summary2 := ∅ : HashMap BoltValue)
    (rs := @nil Response) (ws := @nil WriteEvent)
    as [_ [(c' & Hr & _)|(_ & o & c' & Hr & Hi & _)]].
  - reflexivity.
  - by vm_compute.
  - by vm_compute.
  - by vm_compute.
  - cut_replies.
  - reflexivity.
  - exact query_framed.
  - exact Hopen.
  - vm_compute. lia.
  - exact Hsome.
  - etrans; [exact Hs|]. vm_compute. reflexivity.
  - intros _. by exists c'.
  - rewrite Hr. by destruct Hi as [-> | ->].
Defined.

(** The first batch is read, and the rest discarded. *)
Definition one_batch : list (list row * HashMap BoltValue) := [([[BoltValue.Int 7]], more_meta)].

Definition finished_conn : t := waiting false 0 [success_body; record_body; more_body; success_body] 4.

Definition discard_bytes : bytes := (for_each (@encode listing_order) [discard (-1) None] []).2.

Lemma finish_settles_stream_witness :
  match @run_stream_with listing_order "RETURN 7" ∅ ∅ 1 finished_conn with
  | (Ok s, _) => ∃ c', @RecordStream.finish listing_order (@read_some listing_order 1 1 s).2 =
      (Ok ∅, c') ∧ is_ready c' = true ∧ sent (stream c') = stream_query_bytes ++ discard_bytes
  | _ => False
  end.
Proof.
  destruct (@run_stream_with listing_order "RETURN 7" ∅ ∅ 1 finished_conn) as [o c1] eqn:Hopen.
  assert (match o with Ok s => sent (stream (RecordStream.conn (@read_some listing_order 1 1 s).2)) =
      stream_query_bytes | _ => False end) as Hs.
  { assert (o = (@run_stream_with listing_order "RETURN 7" ∅ ∅ 1 finished_conn).1) as ->
      by (by rewrite Hopen). vm_compute. reflexivity. }
  destruct o as [s|e| | |]; [|by destruct Hs..].
  destruct (@read_some listing_order 1 1 s) as [rows s'] eqn:Hsome.
  destruct (@finish_settles_stream listing_order false "RETURN 7" ∅ ∅ 1 finished_conn
    stream_query_bytes pull_bytes ∅ ∅ more_meta one_batch []) with (tries := 1%nat) (n := 1%nat)
    (s := s) (c1 := c1) (rows := rows) (s' := s') (d := (@nil row, ∅ : HashMap BoltValue))
    (frame := discard_bytes) (rs := @nil Response) (ws := @nil WriteEvent)
    as [(c' & Hr & Hready & _ & Hsent)|[? _]].
  - reflexivity.
  - by vm_compute.
  - by vm_compute.
  - by vm_compute.
  - split; [reflexivity|]. apply waiting_expects; [done|]. more_replies.
  - reflexivity.
  - by vm_compute.
  - exact Hopen.
  - vm_compute. lia.
  - exact Hsome.
  - etrans; [exact Hs|]. vm_compute. reflexivity.
  - exists c'. split_and!; [exact Hr|exact Hready|]. cbn [snd] in *. rewrite Hsent.
    vm_compute. reflexivity.
  - done.
Defined.

Definition failing_tx : Transaction.t :=
  waiting_tx [success_body; failure_body; success_body; success_body; record_body; success_body] 6.

Lemma stream_failure_leaves_tx_open_witness :
  ∃ s tx1 s' tx2,
    @Transaction.run_stream listing_order "RETURN 7" ∅ 1 failing_tx = (Ok s, tx1) ∧
    @RecordStream.next listing_order s =
      (Err (BoltError.Failure "Unknown" "(no message)"), s') ∧
    open_tx (Transaction.resume s' tx1) ∧
    @Transaction.run listing_order "RETURN 7" ∅ (Transaction.resume s' tx1) =
      (Ok (mk_result (extract_columns ∅) [[BoltValue.Int 7]]), tx2) ∧
    sent (stream (Transaction.conn tx2)) =
      [] ++ stream_query_bytes ++ reset_frame ++ query_bytes.
Proof.
  apply (@stream_failure_leaves_tx_open listing_order "RETURN 7" ∅ 1 "RETURN 7" ∅ failing_tx
    stream_query_bytes query_bytes [] ∅ "Unknown" "(no message)" ∅ ∅ [[BoltValue.Int 7]] ∅ [] []);
    [apply waiting_tx_open | reflexivity | reflexivity | by vm_compute | exact query_framed
    | reflexivity |].
  apply waiting_expects; [done|]. more_replies.
Defined.
