(* ===== verification/SessionSafety.v ===== *)
(** * Transactions and streams under any behaviour of the transport

    [Safety] continued over the borrowers of a connection: their loops end
    because every round reads a message off the connection, and no operation
    of the whole of [connection.rs] panics. *)

From S2P Require Import Prelude Utf8 Value Message Error PackStream Wire Codec.
From S2P Require Import Handshake Framing Routing Transport Connection Receive Exchange Safety.
From S2P Require Import Session.
Import BoltConnection.

(** ** Operations on the borrowed connection *)

Lemma safe_tx_on_conn {A} (m : C A) : safe m → safe (Transaction.on_conn m).
Proof. apply safe_zoom. Qed.

Lemma safe_stream_on_conn {A} (m : C A) : safe m → safe (RecordStream.on_conn m).
Proof. apply safe_zoom. Qed.

Lemma safe_tx_mark nr : safe (Transaction.mark nr).
Proof. apply safe_tx_on_conn, safe_modify. Qed.

Lemma safe_stream_mark nr : safe (RecordStream.mark nr).
Proof. apply safe_stream_on_conn, safe_modify. Qed.

#[export] Hint Resolve safe_tx_on_conn safe_stream_on_conn safe_tx_mark safe_stream_mark : bolt.

(** [m] leaves at most the input there was. *)
Definition less_input (s s' : RecordStream.t) : Prop :=
  (RecordStream.input_left s' ≤ RecordStream.input_left s)%nat.

Lemma less_input_same s s' :
  input_size (RecordStream.conn s') = input_size (RecordStream.conn s) → less_input s s'.
Proof. unfold less_input, RecordStream.input_left. lia. Qed.

(** An operation on the connection that returned. *)
Lemma stream_on_conn_ok {A} (m : C A) s a s' :
  RecordStream.on_conn m s = (Ok a, s') →
  ∃ c', m (RecordStream.conn s) = (Ok a, c') ∧ s' = RecordStream.set_conn c' s.
Proof.
  unfold RecordStream.on_conn, zoom. destruct (m (RecordStream.conn s)) as [o c'].
  intros [= -> <-]. by exists c'.
Qed.

Lemma stream_read_consumes s r s' :
  RecordStream.on_conn read_message s = (Ok r, s') →
  (RecordStream.input_left s' < RecordStream.input_left s)%nat.
Proof.
  intros (c' & H%read_message_consumes & ->)%stream_on_conn_ok. by destruct s.
Qed.

Lemma stream_mark_same nr s u s' :
  RecordStream.mark nr s = (Ok u, s') →
  RecordStream.input_left s' = RecordStream.input_left s.
Proof.
  intros (c' & [= _ <-] & ->)%stream_on_conn_ok. destruct s as [[] ? ? ? ? ? ? ? ?]. done.
Qed.

Section safety.
Context {hash : HashIter}.

Lemma stream_write_same req s u s' :
  RecordStream.on_conn (write_message req) s = (Ok u, s') →
  RecordStream.input_left s' = RecordStream.input_left s.
Proof.
  intros (c' & H & ->)%stream_on_conn_ok. unfold write_message in H.
  destruct (write_messages_cases [req] (RecordStream.conn s))
    as [(bs & ws & _ & _ & Hw)|(o & c & Hw & [-> |[e ->]] & _)]; rewrite Hw in H; [|done..].
  injection H as _ <-. by destruct s as [[[] ? ? ? ? ? ? ? ?] ? ? ? ? ? ? ? ?].
Qed.

(** A loop whose rounds read a message, then do not add to the input. *)
Lemma safe_stream_loop {A B} (k : A → Response → RecordStream.R (A + B)) a :
  (∀ a r, safe (k a r)) →
  (∀ a r s a' s', k a r s = (Ok (inl a'), s') → less_input s s') →
  safe (loop_by RecordStream.input_left
    (λ a, let! r := RecordStream.on_conn read_message in k a r) a).
Proof.
  intros Hs Hk. apply safe_loop_by; [intros; safe_tac|].
  intros a0 s a' s' (r & s1 & Hr%stream_read_consumes & Hk'%Hk)%bind_ok_inv.
  unfold less_input in Hk'. lia.
Qed.

(** ** Record streams *)

Lemma safe_stream_fail_reset {A} code message :
  safe (RecordStream.fail_reset (A:=A) code message).
Proof. unfold RecordStream.fail_reset. safe_tac. Qed.

Hint Resolve safe_stream_fail_reset : bolt.

(** What [fetch_batch] does with a reply. *)
Definition batch_reply (response : Response) : RecordStream.R (unit + unit) :=
  match response with
  | Response.Record values =>
      do! modify (λ s, RecordStream.set_buffer (RecordStream.buffer s ++ [values]) s) in
      ret (inl tt)
  | Response.Success meta =>
      let more := default false (get_as as_bool meta "has_more") in
      do! modify (RecordStream.set_pull_in_flight false) in
      do! modify (RecordStream.set_has_more more) in
      do! (if more then ret tt
           else do! modify (RecordStream.set_summary (Some meta)) in RecordStream.mark false) in
      ret (inr tt)
  | Response.Failure code message =>
      do! modify (RecordStream.set_done true) in
      RecordStream.fail_reset code message
  | Response.Ignored =>
      do! modify (RecordStream.set_done true) in
      throw (BoltError.Protocol (Text "PULL ignored by server"))
  end.

Lemma safe_batch_reply r : safe (batch_reply r).
Proof. unfold batch_reply. destruct r; cbv zeta; safe_tac. Qed.

Lemma batch_reply_ok r s x s' : batch_reply r s = (Ok x, s') → less_input s s'.
Proof.
  unfold batch_reply. destruct r as [meta|vs|code message|].
  - cbv zeta. rewrite !bind_modify. set (more := default false _).
    intros ([] & s1 & H & [= _ <-])%bind_ok_inv. destruct more.
    + injection H as <-. apply less_input_same. by destruct s.
    + rewrite bind_modify in H. apply stream_mark_same in H. unfold less_input. rewrite H.
      by destruct s.
  - rewrite bind_modify. intros [= _ <-]. apply less_input_same. by destruct s.
  - rewrite bind_modify. unfold RecordStream.fail_reset. intros (e & s1 & _ & H)%bind_ok_inv. done.
  - by rewrite bind_modify.
Qed.

Lemma safe_fetch_batch : safe RecordStream.fetch_batch.
Proof.
  unfold RecordStream.fetch_batch. apply safe_bind; [safe_tac|intros s].
  apply safe_bind; [safe_tac|intros _].
  apply (safe_stream_loop (λ _, batch_reply)).
  - intros _ r. apply safe_batch_reply.
  - intros _ r s1 a' s' H. by eapply batch_reply_ok.
Qed.

Hint Resolve safe_fetch_batch : bolt.

(** A batch that was fetched took a message off the connection. *)
Lemma fetch_batch_consumes s u s' :
  RecordStream.fetch_batch s = (Ok u, s') →
  (RecordStream.input_left s' < RecordStream.input_left s)%nat.
Proof.
  unfold RecordStream.fetch_batch. rewrite bind_gets. unfold id.
  intros (v & s1 & Hw & Hl)%bind_ok_inv.
  assert (RecordStream.input_left s1 = RecordStream.input_left s) as <-.
  { destruct (RecordStream.pull_in_flight s); [by injection Hw as _ <-|].
    apply bind_ok_inv in Hw as (w & s2 & Hw%stream_write_same & [= _ <-]). rewrite <- Hw.
    by destruct s2. }
  assert (∀ a s2 x s3, bind (RecordStream.on_conn read_message)
      ((λ _ : unit, batch_reply) a) s2 = (Ok x, s3) →
    (RecordStream.input_left s3 < RecordStream.input_left s2)%nat) as Hround.
  { intros a s2 x s3 (r & s4 & Hr%stream_read_consumes & Hb%batch_reply_ok)%bind_ok_inv.
    unfold less_input in Hb. lia. }
  revert Hl. apply (loop_ok_inv
    (λ _ s2, RecordStream.input_left s2 ≤ RecordStream.input_left s1)%nat
    (λ _ s2, RecordStream.input_left s2 < RecordStream.input_left s1)%nat); [..|done].
  - intros a s2 a' s3 Hle H%(Hround a). lia.
  - intros a s2 b s3 Hle H%(Hround a). lia.
Qed.

Lemma safe_next : safe RecordStream.next.
Proof.
  unfold RecordStream.next. apply safe_loop_by.
  - intros _. apply safe_bind; [safe_tac|intros s].
    safe_tac.
  - intros _ s a' s'. rewrite bind_gets. unfold id.
    destruct (RecordStream.buffer s); [|by rewrite bind_modify].
    destruct (_ || _); [by rewrite bind_modify|].
    intros (u & s1 & H%fetch_batch_consumes & [= _ <-])%bind_ok_inv. done.
Qed.

Lemma safe_discard_rest : safe RecordStream.discard_rest.
Proof.
  unfold RecordStream.discard_rest. do 3 (apply safe_bind; [safe_tac|intros ?]).
  apply (safe_stream_loop (λ _ response, match response with
    | Response.Success meta => do! RecordStream.mark false in ret (inr meta)
    | Response.Record _ => ret (inl tt)
    | Response.Failure code message => RecordStream.fail_reset code message
    | Response.Ignored => throw (BoltError.Protocol (Text "DISCARD ignored by server"))
    end)).
  - intros _ r. safe_tac.
  - intros _ r s a' s' H. destruct r as [meta|vs|code message|]; [| | |done].
    + by apply bind_ok_inv in H as (? & ? & _ & H).
    + injection H as _ <-. by apply less_input_same.
    + by apply bind_ok_inv in H as (? & ? & _ & H).
Qed.

Hint Resolve safe_discard_rest : bolt.

Lemma safe_finish_body : safe RecordStream.finish_body.
Proof. unfold RecordStream.finish_body, RecordStream.take_summary. safe_tac. Qed.

(** ** Transactions *)

Lemma safe_guard_open : safe Transaction.guard_open.
Proof. unfold Transaction.guard_open. safe_tac. Qed.

Hint Resolve safe_guard_open : bolt.

Lemma safe_tx_run query parameters : safe (Transaction.run query parameters).
Proof. unfold Transaction.run. safe_tac. Qed.

Lemma safe_tx_run_stream query parameters batch :
  safe (Transaction.run_stream query parameters batch).
Proof. unfold Transaction.run_stream. safe_tac. Qed.

Lemma safe_finish_end ctx : safe (Transaction.finish_end ctx).
Proof. unfold Transaction.finish_end. safe_tac. Qed.

Hint Resolve safe_finish_end : bolt.

Lemma safe_commit_body : safe Transaction.commit_body.
Proof. unfold Transaction.commit_body. safe_tac. Qed.

Lemma safe_rollback_body : safe Transaction.rollback_body.
Proof. unfold Transaction.rollback_body. safe_tac. Qed.

Hint Resolve safe_next safe_finish_body safe_tx_run safe_tx_run_stream safe_commit_body
  safe_rollback_body : bolt.

(** ** Property *)

(** C16: no operation of a connection, of a transaction or of a record stream
    panics (no failed unwrap, index or slice out of range, or counter
    underflow) or loops forever, whatever the transport does and whatever the
    peer sends. *)
Theorem operations_never_panic :
  (safe take_message ∧ safe fill ∧ safe read_message ∧
   (∀ reqs, safe (write_messages reqs)) ∧ safe reset ∧ safe ensure_clean ∧
   (∀ query parameters extra, safe (run_with query parameters extra)) ∧
   (∀ context db, safe (route context db)) ∧ safe close ∧
   (∀ auth, safe (establish_session auth))) ∧
  ((∀ opts, safe (begin_with opts)) ∧
   (∀ query parameters, safe (Transaction.run query parameters)) ∧
   (∀ query parameters batch, safe (Transaction.run_stream query parameters batch)) ∧
   safe Transaction.commit_body ∧ safe Transaction.rollback_body) ∧
  ((∀ query parameters extra batch, safe (run_stream_with query parameters extra batch)) ∧
   safe RecordStream.next ∧ safe RecordStream.finish_body).
Proof.
  split_and!; try solve [intros; auto using safe_fill, safe_take_message with bolt].
  - intros opts. unfold begin_with. safe_tac.
  - intros query parameters extra batch. unfold run_stream_with. safe_tac.
Qed.

End safety.
