(* ===== verification/View.v ===== *)
(** * Views over graph and temporal structures ([view.rs])

    The wire stays raw; these functions interpret a [Structure] on demand.
    References into the value are the parts themselves. The [_shape] relations
    say which structures a view reads, field by field. *)

From S2P Require Import Prelude Value.
Import sig.

Record NodeRef := mk_node {
  node_id : Z;
  node_labels : list BoltValue;
  node_properties : HashMap BoltValue;
  node_element_id : option string;
}.

(** [NodeRef::label_strs] *)
Definition label_strs (n : NodeRef) : list string := omap as_str (node_labels n).

(** [NodeRef::prop] *)
Definition prop (n : NodeRef) (key : string) : option BoltValue := node_properties n !! key.

Record RelationshipRef := mk_relationship {
  rel_id : Z;
  rel_start_id : Z;
  rel_end_id : Z;
  rel_type : string;
  rel_properties : HashMap BoltValue;
  rel_element_id : option string;
}.

Record UnboundRelationshipRef := mk_unbound {
  unbound_id : Z;
  unbound_type : string;
  unbound_properties : HashMap BoltValue;
}.

Record PathRef := mk_path {
  path_nodes : list NodeRef;
  path_relationships : list UnboundRelationshipRef;
  path_indices : list Z;
}.

Record DurationRef := mk_duration {
  months : Z;
  days : Z;
  seconds : Z;
  nanoseconds : Z;
}.

(** Coordinates are the bits of an [f64]. *)
Record PointRef := mk_point {
  srid : Z;
  point_x : Z;
  point_y : Z;
  point_z : option Z;
}.

(** ** [i64 as f64] *)

(** [m / 2^s], rounded to the nearest, ties to even. *)
Definition round_half_even (m s : Z) : Z :=
  let q := m / 2 ^ s in
  let r := m mod 2 ^ s in
  if 2 * r <? 2 ^ s then q
  else if 2 ^ s <? 2 * r then q + 1
  else if Z.even q then q else q + 1.

(** The bits of the double nearest to [n]: sign, exponent [k] biased by 1023,
    and 52 bits below the leading one. A mantissa rounded up to [2^53] carries
    into the exponent. *)
Definition f64_of_i64 (n : Z) : Z :=
  if n =? 0 then 0
  else
    let a := Z.abs n in
    let k := Z.log2 a in
    let mantissa := if k <=? 52 then a * 2 ^ (52 - k) else round_half_even a (k - 52) in
    (if n <? 0 then 2 ^ 63 else 0) + (k + 1023) * 2 ^ 52 + (mantissa - 2 ^ 52).

(** ** Field access *)

Definition fields_of (value : BoltValue) (want : byte) : option (list BoltValue) :=
  match value with
  | BoltValue.Structure signature fields => if decide (signature = want) then Some fields else None
  | _ => None
  end.

Definition int (fields : list BoltValue) (i : nat) : option Z := (fields !! i) ≫= as_int.

Definition float (fields : list BoltValue) (i : nat) : option Z :=
  match fields !! i with
  | Some (BoltValue.Float f) => Some f
  | Some (BoltValue.Int n) => Some (f64_of_i64 n)
  | _ => None
  end.

Definition map (fields : list BoltValue) (i : nat) : option (HashMap BoltValue) :=
  (fields !! i) ≫= as_map.

Definition str (fields : list BoltValue) (i : nat) : option string := (fields !! i) ≫= as_str.

(** [iter().map(view).collect::<Option<Vec<_>>>()] *)
Definition list_at {T} (fields : list BoltValue) (i : nat) (view : BoltValue → option T)
    : option (list T) :=
  items ← (fields !! i) ≫= as_list; mapM view items.

(** ** The views *)

Definition as_node (v : BoltValue) : option NodeRef :=
  f ← fields_of v NODE;
  id ← int f 0;
  labels ← (f !! 1%nat) ≫= as_list;
  properties ← map f 2;
  Some (mk_node id labels properties (str f 3)).

Definition as_relationship (v : BoltValue) : option RelationshipRef :=
  f ← fields_of v RELATIONSHIP;
  id ← int f 0;
  start_id ← int f 1;
  end_id ← int f 2;
  type ← str f 3;
  properties ← map f 4;
  Some (mk_relationship id start_id end_id type properties (str f 5)).

Definition as_unbound_relationship (v : BoltValue) : option UnboundRelationshipRef :=
  f ← fields_of v UNBOUND_RELATIONSHIP;
  id ← int f 0;
  type ← str f 1;
  properties ← map f 2;
  Some (mk_unbound id type properties).

Definition as_path (v : BoltValue) : option PathRef :=
  f ← fields_of v PATH;
  nodes ← list_at f 0 as_node;
  relationships ← list_at f 1 as_unbound_relationship;
  indices ← list_at f 2 as_int;
  Some (mk_path nodes relationships indices).

Definition as_date_days (v : BoltValue) : option Z := f ← fields_of v DATE; int f 0.

Definition as_local_time_nanos (v : BoltValue) : option Z := f ← fields_of v LOCAL_TIME; int f 0.

Definition as_local_datetime (v : BoltValue) : option (Z * Z) :=
  f ← fields_of v LOCAL_DATETIME;
  s ← int f 0;
  n ← int f 1;
  Some (s, n).

Definition as_datetime_offset (v : BoltValue) : option (Z * Z * Z) :=
  f ← fields_of v DATETIME_ZONED;
  s ← int f 0;
  n ← int f 1;
  o ← int f 2;
  Some (s, n, o).

Definition as_duration (v : BoltValue) : option DurationRef :=
  f ← fields_of v DURATION;
  mo ← int f 0;
  d ← int f 1;
  s ← int f 2;
  n ← int f 3;
  Some (mk_duration mo d s n).

Definition as_point (v : BoltValue) : option PointRef :=
  match fields_of v POINT_2D with
  | Some f =>
      srid ← int f 0;
      x ← float f 1;
      y ← float f 2;
      Some (mk_point srid x y None)
  | None =>
      f ← fields_of v POINT_3D;
      srid ← int f 0;
      x ← float f 1;
      y ← float f 2;
      z ← float f 3;
      Some (mk_point srid x y (Some z))
  end.

(** ** The structures the views read *)

(** The element id, when the fields after the fixed ones start with one. *)
Definition leading_str (rest : list BoltValue) : option string :=
  match rest with BoltValue.String s :: _ => Some s | _ => None end.

Definition ints (l : list Z) : list BoltValue := BoltValue.Int <$> l.

(** The fields of each structure in the documented order. More fields may
    follow ([rest]): in Bolt 5 a relationship has three element ids, eight
    fields in all. *)
Inductive node_shape : BoltValue → NodeRef → Prop :=
| node_fields id labels properties rest :
    node_shape
      (BoltValue.Structure NODE
        (BoltValue.Int id :: BoltValue.List labels :: BoltValue.Map properties :: rest))
      (mk_node id labels properties (leading_str rest)).

Inductive relationship_shape : BoltValue → RelationshipRef → Prop :=
| relationship_fields id start_id end_id type properties rest :
    relationship_shape
      (BoltValue.Structure RELATIONSHIP
        (BoltValue.Int id :: BoltValue.Int start_id :: BoltValue.Int end_id :: BoltValue.String type
         :: BoltValue.Map properties :: rest))
      (mk_relationship id start_id end_id type properties (leading_str rest)).

Inductive unbound_shape : BoltValue → UnboundRelationshipRef → Prop :=
| unbound_fields id type properties rest :
    unbound_shape
      (BoltValue.Structure UNBOUND_RELATIONSHIP
        (BoltValue.Int id :: BoltValue.String type :: BoltValue.Map properties :: rest))
      (mk_unbound id type properties).

Inductive path_shape : BoltValue → PathRef → Prop :=
| path_fields ns rs nodes relationships indices rest :
    Forall2 node_shape ns nodes → Forall2 unbound_shape rs relationships →
    path_shape
      (BoltValue.Structure PATH
        (BoltValue.List ns :: BoltValue.List rs :: BoltValue.List (ints indices) :: rest))
      (mk_path nodes relationships indices).

(** A coordinate is a float, or a whole number sent as an integer. *)
Inductive coordinate : BoltValue → Z → Prop :=
| float_coordinate f : coordinate (BoltValue.Float f) f
| whole_coordinate n : coordinate (BoltValue.Int n) (f64_of_i64 n).

Inductive point_shape : BoltValue → PointRef → Prop :=
| point_2d srid vx vy x y rest :
    coordinate vx x → coordinate vy y →
    point_shape (BoltValue.Structure POINT_2D (BoltValue.Int srid :: vx :: vy :: rest))
      (mk_point srid x y None)
| point_3d srid vx vy vz x y z rest :
    coordinate vx x → coordinate vy y → coordinate vz z →
    point_shape (BoltValue.Structure POINT_3D (BoltValue.Int srid :: vx :: vy :: vz :: rest))
      (mk_point srid x y (Some z)).

Lemma fields_of_Some v want fields :
  fields_of v want = Some fields ↔ v = BoltValue.Structure want fields.
Proof. destruct v; cbn; try case_decide; naive_solver. Qed.

Lemma int_Some fields i n : int fields i = Some n ↔ fields !! i = Some (BoltValue.Int n).
Proof. unfold int. destruct (fields !! i) as [[]|]; cbn; naive_solver. Qed.

Lemma str_Some fields i s : str fields i = Some s ↔ fields !! i = Some (BoltValue.String s).
Proof. unfold str. destruct (fields !! i) as [[]|]; cbn; naive_solver. Qed.

Lemma map_Some fields i m : map fields i = Some m ↔ fields !! i = Some (BoltValue.Map m).
Proof. unfold map. destruct (fields !! i) as [[]|]; cbn; naive_solver. Qed.

Lemma as_list_Some v l : as_list v = Some l ↔ v = BoltValue.List l.
Proof. destruct v; cbn; naive_solver. Qed.

Lemma list_at_Some {T} fields i (view : BoltValue → option T) l :
  list_at fields i view = Some l ↔
  ∃ items, fields !! i = Some (BoltValue.List items) ∧ Forall2 (λ v x, view v = Some x) items l.
Proof.
  unfold list_at. destruct (fields !! i) as [[]|]; cbn; try naive_solver.
  rewrite mapM_Some. naive_solver.
Qed.

Lemma float_Some fields i x :
  float fields i = Some x ↔ ∃ v, fields !! i = Some v ∧ coordinate v x.
Proof.
  unfold float. destruct (fields !! i) as [v|] eqn:Hv; [|naive_solver]. split.
  - destruct v; try done; intros [= <-]; eexists; (split; [done|constructor]).
  - by intros (? & [= <-] & []).
Qed.

(** One view: take the reads apart, then the list of fields. *)
Ltac read_fields :=
  repeat match goal with
  | H : (_ ≫= _) = Some _ |- _ => apply bind_Some in H as (? & ? & ?)
  | H : fields_of _ _ = Some _ |- _ => apply fields_of_Some in H; subst
  | H : int _ _ = Some _ |- _ => apply int_Some in H
  | H : str _ _ = Some _ |- _ => apply str_Some in H
  | H : map _ _ = Some _ |- _ => apply map_Some in H
  | H : as_list _ = Some _ |- _ => apply as_list_Some in H; subst
  | H : float _ _ = Some _ |- _ => apply float_Some in H as (? & ? & ?)
  | H : Some _ = Some _ |- _ => injection H as H; subst
  | H : @lookup _ _ _ _ _ ?l = Some _ |- _ => is_var l; destruct l as [|? ?]; [discriminate H|]
  | H : @lookup _ _ _ _ _ (_ :: _) = Some _ |- _ => progress cbn in H
  end.

Lemma as_node_iff v n : as_node v = Some n ↔ node_shape v n.
Proof.
  split; [|by intros [??? [|[] ?]]]. unfold as_node. intros H. read_fields.
  match goal with |- context [str (_ :: _ :: _ :: ?rest) 3] =>
    replace (str _ 3) with (leading_str rest) by (by destruct rest as [|[] ?])
  end. constructor.
Qed.

Lemma as_unbound_iff v r : as_unbound_relationship v = Some r ↔ unbound_shape v r.
Proof.
  split; [|by intros []]. unfold as_unbound_relationship. intros H. read_fields. constructor.
Qed.

Lemma as_relationship_iff v r : as_relationship v = Some r ↔ relationship_shape v r.
Proof.
  split; [|by intros [????? [|[] ?]]]. unfold as_relationship. intros H. read_fields.
  match goal with |- context [str (_ :: _ :: _ :: _ :: _ :: ?rest) 5] =>
    replace (str _ 5) with (leading_str rest) by (by destruct rest as [|[] ?])
  end. constructor.
Qed.

Lemma as_int_all items l : Forall2 (λ v n, as_int v = Some n) items l ↔ items = ints l.
Proof.
  split.
  - induction 1 as [|v n items l Hv _ ->]; [done|]. destruct v; try done. by injection Hv as ->.
  - intros ->. induction l; by constructor.
Qed.

Lemma as_path_iff v p : as_path v = Some p ↔ path_shape v p.
Proof.
  split.
  - unfold as_path. intros H. read_fields.
    repeat match goal with
    | H : list_at _ _ _ = Some _ |- _ => apply list_at_Some in H as (? & ? & ?)
    end. read_fields.
    match goal with H : Forall2 (λ v n, as_int v = Some n) _ _ |- _ => apply as_int_all in H as -> end.
    constructor; (eapply Forall2_impl; [done|]); intros; [by apply as_node_iff|by apply as_unbound_iff].
  - intros [ns rs nodes relationships indices rest Hn Hr]. unfold as_path.
    apply bind_Some. eexists. split; [by apply fields_of_Some|].
    apply bind_Some. exists nodes. split.
    { apply list_at_Some. exists ns. split; [done|]. by eapply Forall2_impl, as_node_iff. }
    apply bind_Some. exists relationships. split.
    { apply list_at_Some. exists rs. split; [done|]. by eapply Forall2_impl, as_unbound_iff. }
    apply bind_Some. exists indices. split; [|done].
    apply list_at_Some. exists (ints indices). split; [done|]. by apply as_int_all.
Qed.

Lemma as_point_iff v p : as_point v = Some p ↔ point_shape v p.
Proof.
  split.
  - unfold as_point. destruct (fields_of v POINT_2D) as [f|] eqn:Hf; intros H; read_fields; by constructor.
  - intros []; by repeat match goal with H : coordinate _ _ |- _ => destruct H end.
Qed.

(** ** Reading an [f64] back *)

(** The number a finite double's bits stand for, times [2^1074]. *)
Definition f64_scaled (bits : Z) : Z :=
  let sign := if bits <? 2 ^ 63 then 1 else -1 in
  let e := (bits mod 2 ^ 63) / 2 ^ 52 in
  let m := bits mod 2 ^ 52 in
  sign * (if e =? 0 then m else (m + 2 ^ 52) * 2 ^ (e - 1)).

(** Sign, biased exponent and mantissa, put together. *)
Lemma f64_scaled_parts s k m :
  s = 0 ∨ s = 2 ^ 63 → 0 ≤ k → k + 1023 < 2047 → 2 ^ 52 ≤ m < 2 ^ 53 →
  f64_scaled (s + (k + 1023) * 2 ^ 52 + (m - 2 ^ 52)) =
  (if s =? 0 then 1 else -1) * (m * 2 ^ (k + 1022)).
Proof.
  intros Hs Hk Hk' Hm. set (body := (k + 1023) * 2 ^ 52 + (m - 2 ^ 52)).
  assert (0 ≤ body < 2 ^ 63) as Hbody.
  { unfold body. change (2 ^ 63) with (2048 * 2 ^ 52). change (2 ^ 53) with (2 * 2 ^ 52) in Hm. nia. }
  assert ((s + body) mod 2 ^ 63 = body) as Hmod.
  { destruct Hs as [-> | ->]; [rewrite Z.add_0_l; by apply Z.mod_small|].
    rewrite <- (Z.mod_small body (2 ^ 63)) at 2 by done.
    rewrite Z.add_comm, <- (Z.mul_1_l (2 ^ 63)) at 1. by rewrite Z.mod_add. }
  assert (body / 2 ^ 52 = k + 1023) as Hdiv.
  { unfold body. rewrite Z.div_add_l by done. rewrite Z.div_small; [lia|].
    change (2 ^ 53) with (2 * 2 ^ 52) in Hm. lia. }
  assert ((s + body) mod 2 ^ 52 = m - 2 ^ 52) as Hlow.
  { unfold body. destruct Hs as [-> | ->].
    - rewrite Z.add_0_l, Z.add_comm, Z.mod_add by done. apply Z.mod_small.
      change (2 ^ 53) with (2 * 2 ^ 52) in Hm. lia.
    - change (2 ^ 63) with (2048 * 2 ^ 52). rewrite Z.add_assoc, <- Z.mul_add_distr_r.
      rewrite Z.add_comm, Z.mod_add by done. apply Z.mod_small.
      change (2 ^ 53) with (2 * 2 ^ 52) in Hm. lia. }
  rewrite <- Z.add_assoc. fold body. unfold f64_scaled. rewrite Hmod, Hdiv, Hlow.
  destruct (Z.eqb_spec (k + 1023) 0); [lia|].
  replace (m - 2 ^ 52 + 2 ^ 52) with m by lia. replace (k + 1023 - 1) with (k + 1022) by lia.
  f_equal. destruct Hs as [-> | ->].
  - destruct (Z.ltb_spec (0 + body) (2 ^ 63)); [done|lia].
  - destruct (Z.ltb_spec (2 ^ 63 + body) (2 ^ 63)); [lia|done].
Qed.

(** A mantissa that was rounded up to [2^53] included. *)
Lemma f64_scaled_rounded s k m :
  s = 0 ∨ s = 2 ^ 63 → 0 ≤ k < 1000 → 2 ^ 52 ≤ m ≤ 2 ^ 53 →
  f64_scaled (s + (k + 1023) * 2 ^ 52 + (m - 2 ^ 52)) =
  (if s =? 0 then 1 else -1) * (m * 2 ^ (k + 1022)).
Proof.
  intros Hs Hk Hm. destruct (decide (m = 2 ^ 53)) as [->|Hne].
  - replace (s + (k + 1023) * 2 ^ 52 + (2 ^ 53 - 2 ^ 52))
      with (s + ((k + 1) + 1023) * 2 ^ 52 + (2 ^ 52 - 2 ^ 52))
      by (change (2 ^ 53) with (2 * 2 ^ 52); lia).
    rewrite f64_scaled_parts by (done || lia). f_equal.
    replace (k + 1 + 1022) with (1 + (k + 1022)) by lia.
    rewrite (Z.pow_add_r 2 1) by lia. change (2 ^ 53) with (2 ^ 52 * 2). by rewrite Z.mul_assoc.
  - apply f64_scaled_parts; [done|lia|lia|lia].
Qed.

Lemma round_half_even_spec a s :
  0 ≤ s → 2 * Z.abs (round_half_even a s * 2 ^ s - a) ≤ 2 ^ s ∧
  a / 2 ^ s ≤ round_half_even a s ≤ a / 2 ^ s + 1.
Proof.
  intros Hs. assert (0 < 2 ^ s) as Hp by lia.
  pose proof (Z.div_mod a (2 ^ s) ltac:(lia)) as Hd. pose proof (Z.mod_pos_bound a (2 ^ s) Hp) as Hr.
  unfold round_half_even. set (q := a / 2 ^ s) in *. set (r := a mod 2 ^ s) in *.
  set (T := 2 ^ s) in *. clearbody q r T.
  destruct (Z.ltb_spec (2 * r) T); [split; [nia|lia]|].
  destruct (Z.ltb_spec T (2 * r)); [split; [nia|lia]|].
  destruct (Z.even q); split; nia.
Qed.

(** The mantissa of [f64_of_i64], before a carry. *)
Definition mantissa_of (a k : Z) : Z :=
  if k <=? 52 then a * 2 ^ (52 - k) else round_half_even a (k - 52).

Lemma mantissa_range a k : 0 ≤ k → 2 ^ k ≤ a < 2 ^ Z.succ k → 2 ^ 52 ≤ mantissa_of a k ≤ 2 ^ 53.
Proof.
  intros Hk0 Hk. unfold mantissa_of. destruct (Z.leb_spec k 52).
  - assert (2 ^ 52 = 2 ^ k * 2 ^ (52 - k)) as -> by (rewrite <- Z.pow_add_r by lia; f_equal; lia).
    assert (2 ^ 53 = 2 ^ Z.succ k * 2 ^ (52 - k)) as ->
      by (rewrite <- Z.pow_add_r by lia; f_equal; lia). nia.
  - destruct (round_half_even_spec a (k - 52)) as [_ Hq]; [lia|].
    assert (2 ^ k = 2 ^ 52 * 2 ^ (k - 52)) as Hk1 by (rewrite <- Z.pow_add_r by lia; f_equal; lia).
    assert (2 ^ Z.succ k = 2 ^ 53 * 2 ^ (k - 52)) as Hk2
      by (rewrite <- Z.pow_add_r by lia; f_equal; lia).
    assert (2 ^ 52 ≤ a / 2 ^ (k - 52)) by (apply Z.div_le_lower_bound; lia).
    assert (a / 2 ^ (k - 52) < 2 ^ 53) by (apply Z.div_lt_upper_bound; lia). lia.
Qed.

(** The double for a whole number: exact up to 53 significant bits, and
    otherwise within half of the last place. *)
Lemma f64_of_i64_nearest n :
  in_signed 64 n →
  let k := Z.log2 (Z.abs n) in
  Z.abs (f64_scaled (f64_of_i64 n) - n * 2 ^ 1074) * 2 ≤
  if k <=? 52 then 0 else 2 ^ (k - 52) * 2 ^ 1074.
Proof.
  unfold in_signed. change (2 ^ (64 - 1)) with (2 ^ 63). intros Hn. cbv zeta.
  set (k := Z.log2 (Z.abs n)).
  destruct (Z.eqb_spec n 0) as [->|Hz]; [by vm_compute|].
  assert (2 ^ k ≤ Z.abs n < 2 ^ Z.succ k) as Hk by (apply Z.log2_spec; lia).
  assert (0 ≤ k ≤ 63) as Hk63.
  { split; [apply Z.log2_nonneg|]. apply Z.lt_succ_r. apply (Z.log2_lt_pow2 _ 64); lia. }
  set (sign := if n <? 0 then 2 ^ 63 else 0).
  assert (sign = 0 ∨ sign = 2 ^ 63) as Hs by (unfold sign; case_match; auto).
  assert ((if sign =? 0 then 1 else -1) * Z.abs n = n) as Hsn.
  { unfold sign. destruct (Z.ltb_spec n 0);
      [change (if 2 ^ 63 =? 0 then 1 else -1) with (-1)
      |change (if 0 =? 0 then 1 else -1) with 1]; lia. }
  set (mantissa := mantissa_of (Z.abs n) k).
  assert (f64_of_i64 n = sign + (k + 1023) * 2 ^ 52 + (mantissa - 2 ^ 52)) as ->.
  { unfold f64_of_i64. by destruct (Z.eqb_spec n 0). }
  assert (2 ^ 52 ≤ mantissa ≤ 2 ^ 53) as Hm by (apply mantissa_range; [apply Hk63|exact Hk]).
  rewrite f64_scaled_rounded by (done || lia).
  remember (if sign =? 0 then 1 else -1) as sg eqn:Hsg.
  assert (Z.abs sg = 1) as Habs by (rewrite Hsg; by case_match).
  clear Hsg Hs. clearbody sign. unfold mantissa, mantissa_of in *. destruct (Z.leb_spec k 52).
  - replace (Z.abs n * 2 ^ (52 - k) * 2 ^ (k + 1022)) with (Z.abs n * 2 ^ 1074).
    + rewrite Z.mul_assoc, Hsn, Z.sub_diag. lia.
    + rewrite <- Z.mul_assoc, <- Z.pow_add_r by lia. do 2 f_equal. lia.
  - destruct (round_half_even_spec (Z.abs n) (k - 52)) as [Hr _]; [lia|].
    replace (2 ^ (k + 1022)) with (2 ^ (k - 52) * 2 ^ 1074)
      by (rewrite <- Z.pow_add_r by lia; f_equal; lia).
    rewrite <- Hsn at 2.
    replace (sg * (round_half_even (Z.abs n) (k - 52) * (2 ^ (k - 52) * 2 ^ 1074)) -
      sg * Z.abs n * 2 ^ 1074)
      with (sg * (round_half_even (Z.abs n) (k - 52) * 2 ^ (k - 52) - Z.abs n) * 2 ^ 1074) by ring.
    rewrite !Z.abs_mul, Habs, Z.mul_1_l, (Z.abs_eq (2 ^ 1074)) by lia.
    rewrite (Z.mul_comm _ 2), Z.mul_assoc. apply Z.mul_le_mono_nonneg_r; [lia|exact Hr].
Qed.

(** What a point's coordinate may be, and the double it should be read as: a
    float's own, and one nearest to a whole number. *)
Definition sent_coordinate (v : BoltValue) : Prop :=
  match v with
  | BoltValue.Float _ => True
  | BoltValue.Int n => in_signed 64 n
  | _ => False
  end.

Definition nearest_double (v : BoltValue) (bits : Z) : Prop :=
  match v with
  | BoltValue.Float f => bits = f
  | BoltValue.Int n =>
      let k := Z.log2 (Z.abs n) in
      Z.abs (f64_scaled bits - n * 2 ^ 1074) * 2 ≤ if k <=? 52 then 0 else 2 ^ (k - 52) * 2 ^ 1074
  | _ => False
  end.

Lemma float_nearest fields i v :
  fields !! i = Some v → sent_coordinate v → ∃ x, float fields i = Some x ∧ nearest_double v x.
Proof.
  unfold float. intros ->. destruct v; try done; intros Hv; (eexists; split; [done|]); [by apply f64_of_i64_nearest|done].
Qed.

(** ** Properties *)

(** C37: what the views read. Each view reads exactly the structures of its
    kind, field by field in the documented order, a path's nodes and
    relationships each by its own view and in order, a whole coordinate also
    when it is sent as an integer; and nothing else. Fields after those it
    reads are ignored, so that Bolt 5's longer structures are read too. *)
Theorem views_read_exactly v :
  (∀ n, as_node v = Some n ↔ node_shape v n) ∧
  (∀ r, as_relationship v = Some r ↔ relationship_shape v r) ∧
  (∀ r, as_unbound_relationship v = Some r ↔ unbound_shape v r) ∧
  (∀ p, as_path v = Some p ↔ path_shape v p) ∧
  (∀ p, as_point v = Some p ↔ point_shape v p) ∧
  (∀ mo d s n, as_duration v = Some (mk_duration mo d s n) ↔
     ∃ rest, v = BoltValue.Structure DURATION (ints [mo; d; s; n] ++ rest)) ∧
  (∀ d, as_date_days v = Some d ↔ ∃ rest, v = BoltValue.Structure DATE (ints [d] ++ rest)) ∧
  (∀ n, as_local_time_nanos v = Some n ↔
     ∃ rest, v = BoltValue.Structure LOCAL_TIME (ints [n] ++ rest)) ∧
  (∀ s n, as_local_datetime v = Some (s, n) ↔
     ∃ rest, v = BoltValue.Structure LOCAL_DATETIME (ints [s; n] ++ rest)) ∧
  (∀ s n o, as_datetime_offset v = Some (s, n, o) ↔
     ∃ rest, v = BoltValue.Structure DATETIME_ZONED (ints [s; n; o] ++ rest)).
Proof.
  split_and!; intros; first
    [apply as_node_iff|apply as_relationship_iff|apply as_unbound_iff|apply as_path_iff
    |apply as_point_iff|split; [|by intros [rest ->]]];
    unfold as_duration, as_date_days, as_local_time_nanos, as_local_datetime, as_datetime_offset;
    intros H; read_fields; by eexists.
Qed.

(** C38: a point's coordinates. Each may be sent as a float or, when it is
    whole, as an integer, in any mix; both kinds of point are read whichever
    way. A float is taken as it is; an integer is read as the double of that
    very number when it has at most 53 significant bits, and a larger one as a
    double whose error is at most half of the last place. ([f64_scaled] is a
    double's value times [2^1074].) *)
Theorem int_coordinates_nearest id vx vy vz rest :
  sent_coordinate vx → sent_coordinate vy →
  (∃ x y, as_point (BoltValue.Structure POINT_2D (BoltValue.Int id :: vx :: vy :: rest)) =
     Some (mk_point id x y None) ∧ nearest_double vx x ∧ nearest_double vy y) ∧
  (sent_coordinate vz →
   ∃ x y z, as_point (BoltValue.Structure POINT_3D (BoltValue.Int id :: vx :: vy :: vz :: rest)) =
     Some (mk_point id x y (Some z)) ∧ nearest_double vx x ∧ nearest_double vy y ∧
     nearest_double vz z).
Proof.
  intros Hx Hy. split; [|intros Hz].
  - set (f := BoltValue.Int id :: vx :: vy :: rest).
    destruct (float_nearest f 1 vx eq_refl Hx) as (x & Hfx & ?).
    destruct (float_nearest f 2 vy eq_refl Hy) as (y & Hfy & ?).
    exists x, y. split; [|done]. fold f. unfold as_point.
    rewrite (proj2 (fields_of_Some _ POINT_2D f)), (proj2 (int_Some f 0 id)) by done.
    cbn [mbind option_bind]. by rewrite Hfx, Hfy.
  - set (f := BoltValue.Int id :: vx :: vy :: vz :: rest).
    destruct (float_nearest f 1 vx eq_refl Hx) as (x & Hfx & ?).
    destruct (float_nearest f 2 vy eq_refl Hy) as (y & Hfy & ?).
    destruct (float_nearest f 3 vz eq_refl Hz) as (z & Hfz & ?).
    exists x, y, z. split; [|done]. fold f. unfold as_point.
    change (fields_of (BoltValue.Structure POINT_3D f) POINT_2D) with (@None (list BoltValue)).
    rewrite (proj2 (fields_of_Some _ POINT_3D f)) by done. cbn [mbind option_bind].
    rewrite (proj2 (int_Some f 0 id)) by done.
    cbn [mbind option_bind]. by rewrite Hfx, Hfy, Hfz.
Qed.

Lemma int_coordinates_nearest_witness :
  (∃ x y, as_point (BoltValue.Structure POINT_2D
       [BoltValue.Int 7203; BoltValue.Int (2 ^ 53 + 1); BoltValue.Float 0]) =
     Some (mk_point 7203 x y None) ∧
     nearest_double (BoltValue.Int (2 ^ 53 + 1)) x ∧ nearest_double (BoltValue.Float 0) y) ∧
  ∃ x y z, as_point (BoltValue.Structure POINT_3D
       [BoltValue.Int 7203; BoltValue.Int (2 ^ 53 + 1); BoltValue.Float 0; BoltValue.Int (-3)]) =
     Some (mk_point 7203 x y (Some z)) ∧
     nearest_double (BoltValue.Int (2 ^ 53 + 1)) x ∧ nearest_double (BoltValue.Float 0) y ∧
     nearest_double (BoltValue.Int (-3)) z.
Proof.
  assert (sent_coordinate (BoltValue.Int (2 ^ 53 + 1))) as Hx by (cbn; unfold in_signed; lia).
  assert (sent_coordinate (BoltValue.Int (-3))) as Hz by (cbn; unfold in_signed; lia).
  destruct (int_coordinates_nearest 7203 (BoltValue.Int (2 ^ 53 + 1)) (BoltValue.Float 0)
    (BoltValue.Int (-3)) [] Hx I) as [H2 H3].
  split; [exact H2|exact (H3 Hz)].
Defined.
