(* ===== verification/Tls.v ===== *)
(** * The TLS provider ([tls.rs], [tls/rustls.rs])

    Which certificates a [RustlsProvider] trusts, as the builder's settings
    decide it. rustls, its PEM reader and its root stores are not part of the
    repository: they are the operations of [RustlsApi], an argument of the
    definitions; [RootStoreLaws] is what the theorem relies on of a root store.
    A third-party error is its text. *)

From S2P Require Import Prelude Text Value Message Error Transport.

Abbreviation Cert := bytes.

(** What the code calls of rustls, rustls-pemfile, webpki-roots and
    rustls-native-certs. *)
Class RustlsApi := {
  RootCertStore : Type;
  PrivateKey : Type;
  (* [with_safe_default_protocol_versions] on the ring provider *)
  default_versions : string + unit;
  (* [rustls_pemfile::certs], collected; [rustls_pemfile::private_key] *)
  pemfile_certs : bytes → string + list Cert;
  pemfile_private_key : bytes → string + option PrivateKey;
  (* [webpki_roots::TLS_SERVER_ROOTS]; [load_native_certs] *)
  webpki_roots : RootCertStore;
  native_certs : list Cert;
  (* [RootCertStore::add] *)
  roots_add : RootCertStore → Cert → string + RootCertStore;
  (* [with_client_auth_cert] *)
  client_auth : list Cert → PrivateKey → string + unit;
  (* [verify_tls12_signature], [verify_tls13_signature] and [supported_schemes],
     with the algorithms of a provider *)
  SignatureAlgorithms : Type;
  ring_algorithms : SignatureAlgorithms;
  SignatureScheme : Type;
  DigitallySignedStruct : Type;
  tls12_signature : bytes → Cert → DigitallySignedStruct → SignatureAlgorithms → string + unit;
  tls13_signature : bytes → Cert → DigitallySignedStruct → SignatureAlgorithms → string + unit;
  supported_schemes : SignatureAlgorithms → list SignatureScheme;
}.

Section rustls.
Context {api : RustlsApi}.

Inductive Trust :=
| Any
| Pinned (pins : list Cert).

(** How a [ClientConfig] verifies the server's certificate. *)
Inductive Verifier :=
| CustomVerifier (trust : Trust)
| WebPki (roots : RootCertStore).

Record ClientConfig := mk_config {
  verifier : Verifier;
  identity_used : option (list Cert * PrivateKey);
}.

Record RustlsProviderBuilder := mk_builder {
  root_store : option RootCertStore;
  extra_roots_pem : list bytes;
  extra_roots_der : list Cert;
  pins_pem : list bytes;
  pins_der : list Cert;
  accept_invalid : bool;
  native_roots : bool;
  identity : option (bytes * bytes);
}.

(** [RustlsProvider::builder] *)
Definition builder : RustlsProviderBuilder := mk_builder None [] [] [] [] false false None.

Definition add_root_pem (pem : bytes) (b : RustlsProviderBuilder) : RustlsProviderBuilder :=
  let '(mk_builder s xp xd pp pd a n i) := b in mk_builder s (xp ++ [pem]) xd pp pd a n i.

Definition add_root_der (der : bytes) (b : RustlsProviderBuilder) : RustlsProviderBuilder :=
  let '(mk_builder s xp xd pp pd a n i) := b in mk_builder s xp (xd ++ [der]) pp pd a n i.

Definition with_root_store (roots : RootCertStore) (b : RustlsProviderBuilder)
    : RustlsProviderBuilder :=
  let '(mk_builder s xp xd pp pd a n i) := b in mk_builder (Some roots) xp xd pp pd a n i.

Definition pin_certificate_pem (pem : bytes) (b : RustlsProviderBuilder) : RustlsProviderBuilder :=
  let '(mk_builder s xp xd pp pd a n i) := b in mk_builder s xp xd (pp ++ [pem]) pd a n i.

Definition pin_certificate_der (der : bytes) (b : RustlsProviderBuilder) : RustlsProviderBuilder :=
  let '(mk_builder s xp xd pp pd a n i) := b in mk_builder s xp xd pp (pd ++ [der]) a n i.

Definition danger_accept_invalid_certs (accept : bool) (b : RustlsProviderBuilder)
    : RustlsProviderBuilder :=
  let '(mk_builder s xp xd pp pd a n i) := b in mk_builder s xp xd pp pd accept n i.

Definition use_native_roots (b : RustlsProviderBuilder) : RustlsProviderBuilder :=
  let '(mk_builder s xp xd pp pd a n i) := b in mk_builder s xp xd pp pd a true i.

Definition client_identity (cert_chain_pem key_pem : bytes) (b : RustlsProviderBuilder)
    : RustlsProviderBuilder :=
  let '(mk_builder s xp xd pp pd a n i) := b in
  mk_builder s xp xd pp pd a n (Some (cert_chain_pem, key_pem)).

(** [Result] as a sum, with [?]. *)
Definition tls_error {A} (prefix e : string) : BoltError + A := inl (BoltError.Tls (prefix +:+ e)).

Definition map_tls {A} (prefix : string) (r : string + A) : BoltError + A :=
  match r with inl e => tls_error prefix e | inr a => inr a end.

Definition and_then {A B} (r : BoltError + A) (f : A → BoltError + B) : BoltError + B :=
  match r with inl e => inl e | inr a => f a end.

Definition pem_certs (pem : bytes) (what : string) : BoltError + list Cert :=
  map_tls ("invalid " +:+ what +:+ ": ") (pemfile_certs pem).

(** The pins: the DER ones, then every certificate of each PEM; a PEM without
    one is an error. *)
Fixpoint collect_pins (pems : list bytes) (pins : list Cert) : BoltError + list Cert :=
  match pems with
  | [] => inr pins
  | pem :: pems =>
      and_then (pem_certs pem "pinned certificate") (λ certs,
        if decide (length (pins ++ certs) = length pins)
        then inl (BoltError.Tls "no certificate in pinned PEM")
        else collect_pins pems (pins ++ certs))
  end.

Fixpoint collect_extra (pems : list bytes) (extra : list Cert) : BoltError + list Cert :=
  match pems with
  | [] => inr extra
  | pem :: pems => and_then (pem_certs pem "PEM root") (λ certs, collect_extra pems (extra ++ certs))
  end.

(** [roots.add(cert).ok()] *)
Definition add_ok (roots : RootCertStore) (cert : Cert) : RootCertStore :=
  match roots_add roots cert with inr roots' => roots' | inl _ => roots end.

(** [roots.add(cert).map_err(..)?] for each *)
Fixpoint add_all (certs : list Cert) (roots : RootCertStore) : BoltError + RootCertStore :=
  match certs with
  | [] => inr roots
  | cert :: certs =>
      and_then (map_tls "unusable root certificate: " (roots_add roots cert)) (add_all certs)
  end.

Definition collect_roots (b : RustlsProviderBuilder) : BoltError + RootCertStore :=
  let roots := default webpki_roots (root_store b) in
  let roots := if native_roots b then foldl add_ok roots native_certs else roots in
  and_then (collect_extra (extra_roots_pem b) (extra_roots_der b)) (λ extra, add_all extra roots).

Definition client_config (v : Verifier) (identity : option (bytes * bytes))
    : BoltError + ClientConfig :=
  match identity with
  | None => inr (mk_config v None)
  | Some (cert_pem, key_pem) =>
      and_then (pem_certs cert_pem "client cert") (λ certs,
      and_then (map_tls "invalid client key: " (pemfile_private_key key_pem)) (λ key,
        match key with
        | None => inl (BoltError.Tls "no private key in PEM")
        | Some key =>
            and_then (map_tls "client identity rejected: " (client_auth certs key)) (λ _,
              inr (mk_config v (Some (certs, key))))
        end))
  end.

(** [RustlsProviderBuilder::build]; the provider is its configuration. *)
Definition build (b : RustlsProviderBuilder) : BoltError + ClientConfig :=
  and_then (map_tls "ring provider unusable: " default_versions) (λ _,
  and_then (collect_pins (pins_pem b) (pins_der b)) (λ pins,
    let trust :=
      if accept_invalid b then Some Any
      else if decide (pins ≠ []) then Some (Pinned pins)
      else None in
    let v :=
      match trust with
      | Some trust => inr (CustomVerifier trust)
      | None => and_then (collect_roots b) (λ roots, inr (WebPki roots))
      end in
    and_then v (λ v, client_config v (identity b)))).

(** [verify_server_cert] of [CustomVerifier]: whether the certificate the
    server presents is accepted. *)
Definition verify_server_cert (trust : Trust) (end_entity : Cert) : bool :=
  match trust with
  | Any => true
  | Pinned pins => existsb (λ pin, bool_decide (pin = end_entity)) pins
  end.

(** Its signature checks, which do not depend on the trust. *)
Definition verify_tls12_signature (trust : Trust) (message : bytes) (cert : Cert)
    (dss : DigitallySignedStruct) : string + unit :=
  tls12_signature message cert dss ring_algorithms.

Definition verify_tls13_signature (trust : Trust) (message : bytes) (cert : Cert)
    (dss : DigitallySignedStruct) : string + unit :=
  tls13_signature message cert dss ring_algorithms.

Definition supported_verify_schemes (trust : Trust) : list SignatureScheme :=
  supported_schemes ring_algorithms.

(** [TlsProvider::connect] of a configuration. [server_name_error] is
    [ServerName::try_from], [handshake] the connector's [connect]. *)
Definition tls_connect (server_name_error : string → option string)
    (handshake : ClientConfig → string → Stream → Outcome (ErrorKind * string) Stream)
    (config : ClientConfig) (server_name : string) (tcp : Stream) : Outcome BoltError Stream :=
  match server_name_error server_name with
  | Some e => Err (BoltError.Tls ("invalid server name " +:+ str_debug server_name +:+ ": " +:+ e))
  | None =>
      match handshake config server_name tcp with
      | Ok s => Ok s
      | Err (InvalidData, e) => Err (BoltError.Tls ("handshake with " +:+ server_name +:+ ": " +:+ e))
      | Err (kind, _) => Err (BoltError.Io kind)
      | Panic => Panic
      | Suspended => Suspended
      | OutOfFuel => OutOfFuel
      end
  end.

(** ** Root stores *)

(** What is relied on of rustls's root store, as it is documented: a store is a
    list of trust anchors, and [add] parses the certificate it is given and
    appends its anchor, or fails when it cannot be parsed. *)
Class RootStoreLaws := {
  TrustAnchor : Type;
  anchors : RootCertStore → list TrustAnchor;
  trust_anchor : Cert → string + TrustAnchor;
  roots_add_parses store cert :
    match trust_anchor cert with
    | inl e => roots_add store cert = inl e
    | inr anchor => ∃ store', roots_add store cert = inr store' ∧ anchors store' = anchors store ++ [anchor]
    end;
}.

Section stores.
Context {laws : RootStoreLaws}.

Definition usable_anchor (cert : Cert) : option TrustAnchor :=
  match trust_anchor cert with inl _ => None | inr anchor => Some anchor end.

Lemma add_ok_anchors certs store :
  anchors (foldl add_ok store certs) = anchors store ++ omap usable_anchor certs.
Proof.
  revert store. induction certs as [|cert certs IH]; intros store; [by rewrite app_nil_r|].
  cbn. rewrite IH. unfold add_ok, usable_anchor at 2. pose proof (roots_add_parses store cert) as Hadd.
  destruct (trust_anchor cert) as [e|anchor]; [by rewrite Hadd|].
  destruct Hadd as (store' & -> & ->). by rewrite <- app_assoc.
Qed.

Lemma add_all_anchors certs store store' :
  add_all certs store = inr store' →
  ∃ added, Forall2 (λ cert a, trust_anchor cert = inr a) certs added ∧
    anchors store' = anchors store ++ added.
Proof.
  revert store. induction certs as [|cert certs IH]; intros store; cbn [add_all].
  - intros [= <-]. exists []. by rewrite app_nil_r.
  - pose proof (roots_add_parses store cert) as Hadd. destruct (trust_anchor cert) as [e|anchor] eqn:Hc.
    { by rewrite Hadd. }
    destruct Hadd as (store1 & -> & Hs). intros (added & Hf & ->)%IH. exists (anchor :: added).
    split; [by constructor|]. by rewrite Hs, <- app_assoc.
Qed.

Lemma and_then_inr {A B} (r : BoltError + A) (f : A → BoltError + B) b :
  and_then r f = inr b ↔ ∃ a, r = inr a ∧ f a = inr b.
Proof. destruct r; cbn; naive_solver. Qed.

Lemma map_tls_inr {A} prefix (r : string + A) a : map_tls prefix r = inr a ↔ r = inr a.
Proof. destruct r; cbn; naive_solver. Qed.

Lemma collect_extra_inr pems extra all :
  collect_extra pems extra = inr all →
  ∃ css, Forall2 (λ pem cs, pemfile_certs pem = inr cs) pems css ∧ all = extra ++ mjoin css.
Proof.
  revert extra. induction pems as [|pem pems IH]; intros extra; cbn [collect_extra].
  - intros [= <-]. exists []. by rewrite app_nil_r.
  - intros (cs & Hcs%map_tls_inr & (css & Hf & ->)%IH)%and_then_inr. exists (cs :: css).
    split; [by constructor|]. change (mjoin (cs :: css)) with (cs ++ mjoin css). by rewrite app_assoc.
Qed.

(** The anchors of a root store, by default webpki's; the system's that can be
    used, if they were asked for; and those of every certificate added, as DER
    or in a PEM, each of which has to be usable. *)
Definition named_anchors (store : option RootCertStore) (native : bool) (pems ders : list bytes)
    (all : list TrustAnchor) : Prop :=
  let base := match store with Some store => store | None => webpki_roots end in
  let system := if native then omap usable_anchor native_certs else [] in
  ∃ css added, Forall2 (λ pem cs, pemfile_certs pem = inr cs) pems css ∧
    Forall2 (λ cert a, trust_anchor cert = inr a) (ders ++ mjoin css) added ∧
    all = anchors base ++ system ++ added.

Lemma collect_roots_anchors b roots :
  collect_roots b = inr roots →
  named_anchors (root_store b) (native_roots b) (extra_roots_pem b) (extra_roots_der b) (anchors roots).
Proof.
  unfold collect_roots.
  intros (extra & (css & Hf & ->)%collect_extra_inr & (added & Ha & ->)%add_all_anchors)%and_then_inr.
  exists css, added. split_and!; [done..|].
  destruct (root_store b), (native_roots b); cbn; by rewrite ?add_ok_anchors, <- ?app_assoc.
Qed.

(** ** Trust *)

(** What collecting the pins gives: those of every PEM, each with at least one. *)
Lemma collect_pins_inr pems pins all :
  collect_pins pems pins = inr all ↔
  ∃ css, Forall2 (λ pem cs, pemfile_certs pem = inr cs ∧ cs ≠ []) pems css ∧ all = pins ++ mjoin css.
Proof.
  revert pins. induction pems as [|pem pems IH]; intros pins; cbn [collect_pins].
  - split; [intros [= <-]; exists []; by rewrite app_nil_r|].
    intros (css & H & ->). inversion H. cbn. by rewrite app_nil_r.
  - rewrite and_then_inr. unfold pem_certs. split.
    + intros (cs & Hcs%map_tls_inr & H). case_decide as Hl; [done|].
      apply IH in H as (css & Hf & ->). exists (cs :: css). split.
      * constructor; [|done]. split; [done|]. intros ->. apply Hl. by rewrite app_nil_r.
      * change (mjoin (cs :: css)) with (cs ++ mjoin css). by rewrite app_assoc.
    + intros (css & H & ->). inversion H as [|? cs ? css' [Hcs Hne] Hf]; subst.
      exists cs. rewrite map_tls_inr. split; [done|]. rewrite decide_False.
      * apply IH. exists css'. split; [done|].
        change (mjoin (cs :: css')) with (cs ++ mjoin css'). by rewrite app_assoc.
      * rewrite length_app. destruct cs; [done|]. cbn. lia.
Qed.

Lemma client_config_verifier v i c : client_config v i = inr c → verifier c = v.
Proof.
  unfold client_config. destruct i as [[cert key]|]; [|by intros [= <-]].
  rewrite and_then_inr. intros (certs & _ & H). apply and_then_inr in H as ([k|] & _ & H); [|done].
  apply and_then_inr in H as (? & _ & [= <-]). done.
Qed.

(** The whole set of pins. *)
Definition all_pins (b : RustlsProviderBuilder) (pins : list Cert) : Prop :=
  collect_pins (pins_pem b) (pins_der b) = inr pins.

Lemma build_inr b c :
  build b = inr c →
  ∃ pins, all_pins b pins ∧
    if accept_invalid b then verifier c = CustomVerifier Any
    else if decide (pins = []) then ∃ roots, collect_roots b = inr roots ∧ verifier c = WebPki roots
    else verifier c = CustomVerifier (Pinned pins).
Proof.
  unfold build. rewrite and_then_inr. intros (_ & _ & H).
  apply and_then_inr in H as (pins & Hp & H). exists pins. split; [done|].
  apply and_then_inr in H as (v & Hv & H). apply client_config_verifier in H.
  destruct (accept_invalid b); [by injection Hv as <-|].
  destruct (decide (pins ≠ [])), (decide (pins = [])); try done.
  - by injection Hv as <-.
  - apply and_then_inr in Hv as (roots & Hr & [= <-]). eauto.
Qed.

(** Which server certificate a provider takes: what [CustomVerifier] says, or
    a chain to the roots ([chain] is rustls's verification). *)
Definition accepts (chain : RootCertStore → Cert → Prop) (c : ClientConfig) (cert : Cert) : Prop :=
  match verifier c with
  | CustomVerifier trust => verify_server_cert trust cert = true
  | WebPki roots => chain roots cert
  end.

(** The check of the handshake's signature, by [CustomVerifier] or by rustls. *)
Definition signature_check (c : ClientConfig) (tls13 : bool) (message : bytes) (cert : Cert)
    (dss : DigitallySignedStruct) : string + unit :=
  match verifier c with
  | CustomVerifier trust =>
      if tls13 then verify_tls13_signature trust message cert dss
      else verify_tls12_signature trust message cert dss
  | WebPki _ =>
      if tls13 then tls13_signature message cert dss ring_algorithms
      else tls12_signature message cert dss ring_algorithms
  end.

Lemma signature_checked c tls13 message cert dss :
  signature_check c tls13 message cert dss =
  (if tls13 : bool then tls13_signature else tls12_signature) message cert dss ring_algorithms.
Proof. unfold signature_check. by destruct (verifier c), tls13. Qed.

Lemma verify_pinned pins cert : verify_server_cert (Pinned pins) cert = true ↔ cert ∈ pins.
Proof.
  cbn. rewrite existsb_exists, list_elem_of_In. setoid_rewrite bool_decide_eq_true. naive_solver.
Qed.

(** The trust of a provider, by its builder's fields. *)
Lemma built_trust b c chain cert :
  build b = inr c →
  if accept_invalid b then accepts chain c cert
  else if decide (pins_der b = [] ∧ pins_pem b = [])
  then ∃ roots, verifier c = WebPki roots ∧
       named_anchors (root_store b) (native_roots b) (extra_roots_pem b) (extra_roots_der b)
         (anchors roots) ∧
       (accepts chain c cert ↔ chain roots cert)
  else accepts chain c cert ↔
       cert ∈ pins_der b ∨ ∃ pem cs, pem ∈ pins_pem b ∧ pemfile_certs pem = inr cs ∧ cert ∈ cs.
Proof.
  intros (pins & Hp & Hv)%build_inr.
  unfold accepts. destruct (accept_invalid b); [by rewrite Hv|].
  apply collect_pins_inr in Hp as (css & Hf & ->).
  destruct (decide (pins_der b = [] ∧ pins_pem b = [])) as [Hnone|Hnone];
    destruct (decide (pins_der b ++ mjoin css = [])) as [Hempty|Hempty].
  - destruct Hv as (roots & ?%collect_roots_anchors & ->). eauto.
  - destruct Hempty. destruct Hnone as [-> Hpem]. rewrite Hpem in Hf. by inversion Hf.
  - destruct Hnone. apply app_eq_nil in Hempty as [Hd Hj]. split; [done|].
    destruct Hf as [|pem cs pems css [_ Hne] Hf]; [done|].
    apply app_eq_nil in Hj as [Hcs _]. done.
  - rewrite Hv, verify_pinned, elem_of_app. f_equiv. clear -Hf.
    induction Hf as [|pem cs pems css [Hcs Hne] Hf IH].
    + split; [by intros ?%elem_of_nil|]. by intros (? & ? & ?%elem_of_nil & _).
    + change (mjoin (cs :: css)) with (cs ++ mjoin css). rewrite elem_of_app, IH. split.
      * intros [Hc|(pem' & cs' & Hin & Hc)].
        { exists pem, cs. split; [by left|done]. }
        exists pem', cs'. split; [by right|done].
      * intros (pem' & cs' & Hin & Hcs' & Hc). apply elem_of_cons in Hin as [->|Hin].
        { left. congruence. }
        right. eauto.
Qed.

(** ** Settings *)

(** The calls of a builder's methods. *)
Inductive Setting :=
| RootPem (pem : bytes)
| RootDer (der : bytes)
| RootStore (store : RootCertStore)
| PinPem (pem : bytes)
| PinDer (der : bytes)
| AcceptInvalid (accept : bool)
| NativeRoots
| ClientIdentity (cert_chain_pem key_pem : bytes).

Definition apply_setting (b : RustlsProviderBuilder) (s : Setting) : RustlsProviderBuilder :=
  match s with
  | RootPem pem => add_root_pem pem b
  | RootDer der => add_root_der der b
  | RootStore store => with_root_store store b
  | PinPem pem => pin_certificate_pem pem b
  | PinDer der => pin_certificate_der der b
  | AcceptInvalid accept => danger_accept_invalid_certs accept b
  | NativeRoots => use_native_roots b
  | ClientIdentity cert_chain_pem key_pem => client_identity cert_chain_pem key_pem b
  end.

(** [RustlsProvider::builder()] and then the calls in order. *)
Definition configure (settings : list Setting) : RustlsProviderBuilder :=
  foldl apply_setting builder settings.

(** What was given, in order, of each kind. *)
Definition root_pems : list Setting → list bytes :=
  omap (λ s, match s with RootPem pem => Some pem | _ => None end).
Definition root_ders : list Setting → list bytes :=
  omap (λ s, match s with RootDer der => Some der | _ => None end).
Definition root_stores : list Setting → list RootCertStore :=
  omap (λ s, match s with RootStore store => Some store | _ => None end).
Definition pin_pems : list Setting → list bytes :=
  omap (λ s, match s with PinPem pem => Some pem | _ => None end).
Definition pin_ders : list Setting → list bytes :=
  omap (λ s, match s with PinDer der => Some der | _ => None end).
Definition accept_choices : list Setting → list bool :=
  omap (λ s, match s with AcceptInvalid accept => Some accept | _ => None end).
Definition asks_native : list Setting → bool :=
  existsb (λ s, match s with NativeRoots => true | _ => false end).

(** A store or a choice given again replaces the one before; the rest adds up. *)
Lemma configure_fields l :
  let b := configure l in
  extra_roots_pem b = root_pems l ∧ extra_roots_der b = root_ders l ∧
  root_store b = last (root_stores l) ∧ pins_pem b = pin_pems l ∧ pins_der b = pin_ders l ∧
  accept_invalid b = default false (last (accept_choices l)) ∧ native_roots b = asks_native l.
Proof.
  cbv zeta. induction l as [|s l IH] using rev_ind; [done|].
  unfold configure, root_pems, root_ders, root_stores, pin_pems, pin_ders, accept_choices,
    asks_native in *.
  rewrite foldl_app, !omap_app, existsb_app, !last_app.
  destruct (foldl apply_setting builder l). cbn in IH.
  destruct IH as (-> & -> & -> & -> & -> & -> & ->).
  destruct s; cbn; by rewrite ?app_nil_r, ?orb_false_r, ?orb_true_r.
Qed.

(** C36: trust is what was configured, the most specific setting first. For any
    calls of a builder's methods in any order, a provider that was built
    accepts any certificate if the last word on
    [danger_accept_invalid_certs] is to; if not, and any pin was given, as DER
    or PEM, exactly the pinned certificates (each PEM having given at least
    one, so that a useless pin is an error and never falls back to the roots);
    with neither, it verifies the chain against a store of exactly the anchors
    asked for: those of the store given last, or webpki's, the system's only if
    asked for, and every added certificate's (each of them usable). Whatever it
    trusts, the server has to sign the handshake with the key of the
    certificate it presents. *)
Theorem build_trust settings c chain cert :
  build (configure settings) = inr c →
  (∀ tls13 message dss u, signature_check c tls13 message cert dss = inr u →
     (if tls13 : bool then tls13_signature else tls12_signature) message cert dss ring_algorithms
       = inr tt) ∧
  if decide (last (accept_choices settings) = Some true) then accepts chain c cert
  else if decide (pin_ders settings = [] ∧ pin_pems settings = [])
  then ∃ roots, verifier c = WebPki roots ∧
       named_anchors (last (root_stores settings)) (asks_native settings) (root_pems settings)
         (root_ders settings) (anchors roots) ∧
       (accepts chain c cert ↔ chain roots cert)
  else accepts chain c cert ↔
       cert ∈ pin_ders settings ∨
       ∃ pem cs, pem ∈ pin_pems settings ∧ pemfile_certs pem = inr cs ∧ cert ∈ cs.
Proof.
  intros Hb. split.
  { intros tls13 message dss []. by rewrite signature_checked. }
  pose proof (built_trust _ _ chain cert Hb) as H.
  destruct (configure_fields settings) as (Hrp & Hrd & Hs & Hpp & Hpd & Ha & Hn).
  rewrite Hrp, Hrd, Hs, Hpp, Hpd, Ha, Hn in H.
  destruct (last (accept_choices settings)) as [[]|]; exact H.
Qed.

End stores.

End rustls.

(** PEM texts stand for themselves and certificates for their anchors, but the
    empty one, which is refused; one native root of each kind. *)
Definition plain_api : RustlsApi := {|
  RootCertStore := list Cert; PrivateKey := unit; default_versions := inr tt;
  pemfile_certs pem := inr (if decide (pem = []) then [] else [pem]);
  pemfile_private_key _ := inr None; webpki_roots := [[xaa]]; native_certs := [[]; [xbb]];
  roots_add roots cert := if decide (cert = []) then inl "empty" else inr (roots ++ [cert]);
  client_auth _ _ := inr tt;
  SignatureAlgorithms := unit; ring_algorithms := tt; SignatureScheme := unit;
  DigitallySignedStruct := bytes;
  tls12_signature message cert dss _ := if decide (dss = cert ++ message) then inr tt else inl "bad";
  tls13_signature message cert dss _ := if decide (dss = message ++ cert) then inr tt else inl "bad";
  supported_schemes _ := [tt];
|}.

Definition plain_laws : @RootStoreLaws plain_api.
Proof.
  refine (@Build_RootStoreLaws plain_api Cert (λ store, store)
    (λ cert, if decide (cert = []) then inl "empty" else inr cert) _).
  intros store cert. cbn. destruct (decide (cert = [])); eauto.
Defined.

(** A pin in PEM besides one in DER; roots: the system's, one in PEM and one in
    DER, besides webpki's or the last store given. *)
Definition rooted_settings : list (@Setting plain_api) :=
  [RootDer [x03]; NativeRoots; AcceptInvalid true; RootPem [x04]; AcceptInvalid false].

Definition stored_settings : list (@Setting plain_api) :=
  [@RootStore plain_api [[x09]]; RootDer [x03]; @RootStore plain_api [[x05]]].

Definition webpki_config (roots : list Cert) : @ClientConfig plain_api :=
  mk_config (@WebPki plain_api roots) None.

Lemma build_trust_witness :
  (@accepts plain_api (λ _ _, False) (mk_config (CustomVerifier (Pinned [[x01]; [x02]])) None) [x02] ↔
   [x02] ∈ [[x01]] ∨ ∃ pem cs, pem ∈ [[x02]] ∧ @pemfile_certs plain_api pem = inr cs ∧ [x02] ∈ cs) ∧
  @named_anchors plain_api plain_laws None true [[x04]] [[x03]] [[xaa]; [xbb]; [x03]; [x04]] ∧
  @named_anchors plain_api plain_laws (Some [[x05]]) false [] [[x03]] [[x05]; [x03]].
Proof.
  split_and!.
  - refine (proj2 (@build_trust plain_api plain_laws [@PinPem plain_api [x02]; PinDer [x01]] _
      (λ _ _, False) [x02] _)).
    reflexivity.
  - destruct (proj2 (@build_trust plain_api plain_laws rooted_settings
      (webpki_config [[xaa]; [xbb]; [x03]; [x04]]) (λ _ _, False) [x02] eq_refl))
      as (roots & [= <-] & Hroots & _). exact Hroots.
  - destruct (proj2 (@build_trust plain_api plain_laws stored_settings
      (webpki_config [[x05]; [x03]]) (λ _ _, False) [x02] eq_refl))
      as (roots & [= <-] & Hroots & _). exact Hroots.
Defined.
