(* ===== verification/Uri.v ===== *)
(** * Connection URIs ([uri.rs])

    Parsing of [scheme://[user:pass@]host[:port][?db=name]], the address
    written back from a configuration, and which transport a scheme dials. *)

From Stdlib Require Import Strings.Ascii.
From S2P Require Import Prelude Text Value Message Error Transport Connection Tls.

Inductive Scheme := Bolt | BoltS | BoltSsc | Neo4j | Neo4jS | Neo4jSsc.

Inductive TlsMode := Off | Strict | AcceptInvalid.

#[export] Instance TlsMode_eq_dec : EqDecision TlsMode.
Proof. solve_decision. Defined.

(** [Scheme::parse] *)
Definition parse_scheme (s : string) : BoltError + Scheme :=
  if decide (s = "bolt") then inr Bolt
  else if decide (s = "bolt+s") then inr BoltS
  else if decide (s = "bolt+ssc") then inr BoltSsc
  else if decide (s = "neo4j") then inr Neo4j
  else if decide (s = "neo4j+s") then inr Neo4jS
  else if decide (s = "neo4j+ssc") then inr Neo4jSsc
  else inl (BoltError.Protocol (UnknownScheme s)).

Definition routed (s : Scheme) : bool :=
  match s with Neo4j | Neo4jS | Neo4jSsc => true | _ => false end.

(** [Scheme::tls] *)
Definition tls_mode (s : Scheme) : TlsMode :=
  match s with
  | Bolt | Neo4j => Off
  | BoltS | Neo4jS => Strict
  | BoltSsc | Neo4jSsc => AcceptInvalid
  end.

Record Config := mk_uri_config {
  scheme : Scheme;
  host : string;
  port : N;
  cfg_auth : option Auth;
  cfg_db : option string;
}.

(** *** [str::parse::<u16>] *)

(** A decimal digit. *)
Definition digit_of (c : Ascii.ascii) : option N :=
  let n := Ascii.N_of_ascii c in
  if (48 <=? n)%N && (n <=? 57)%N then Some (n - 48)%N else None.

Fixpoint parse_digits (acc : N) (s : string) : option N :=
  match s with
  | EmptyString => Some acc
  | String c s' =>
      match digit_of c with
      | Some d =>
          let acc' := (acc * 10 + d)%N in
          if (acc' <? 65536)%N then parse_digits acc' s' else None
      | None => None
      end
  end.

(** At least one digit, after an optional [+]. *)
Definition parse_u16 (s : string) : option N :=
  match s with
  | EmptyString => None
  | String c s' =>
      if decide (c = "+"%char) then if str_is_empty s' then None else parse_digits 0 s'
      else parse_digits 0 s
  end.

(** [parse_port] *)
Definition parse_port (p : string) : string + N :=
  match parse_u16 p with Some n => inr n | None => inl "bad port" end.

(** [split_host_port]; its errors are texts. *)
Definition split_host_port (hostport : string) : string + (string * option N) :=
  let parsed : string + (string * option N) :=
    match strip_prefix "[" hostport with
    | Some rest =>
        match split_once "]" rest with
        | None => inl "unclosed IPv6 bracket"
        | Some (host, after) =>
            match strip_prefix ":" after with
            | Some p => match parse_port p with inr n => inr (host, Some n) | inl e => inl e end
            | None => if str_is_empty after then inr (host, None) else inl "junk after IPv6 host"
            end
        end
    | None =>
        match split_once ":" hostport with
        | Some (host, p) =>
            if contains ":" p then inl "IPv6 hosts need [brackets]"
            else match parse_port p with inr n => inr (host, Some n) | inl e => inl e end
        | None => inr (hostport, None)
        end
    end in
  match parsed with
  | inl e => inl e
  | inr (host, port) => if str_is_empty host then inl "empty host" else inr (host, port)
  end.

Definition invalid_uri {A} (why : string) : BoltError + A :=
  inl (BoltError.Protocol (InvalidUri why)).

(** The user info and the rest, split at the last [@]. *)
Definition parse_userinfo (rest : string) : BoltError + (option Auth * string) :=
  match rsplit_once "@" rest with
  | Some (userinfo, hp) =>
      match split_once ":" userinfo with
      | Some (user, pass) => inr (Some (auth_basic user pass), hp)
      | None => invalid_uri "userinfo needs user:pass"
      end
  | None => inr (None, rest)
  end.

(** [iter.find_map(f)] *)
Definition find_map {A B} (f : A → option B) (l : list A) : option B := head (omap f l).

Definition parse_db (query : string) : option string :=
  find_map (strip_prefix "db=") (split "&" query).

(** [Config::from_uri] *)
Definition from_uri (uri : string) : BoltError + Config :=
  match split_once "://" uri with
  | None => invalid_uri "missing ://"
  | Some (sch, rest) =>
      and_then (parse_scheme sch) (λ sch,
        let '(rest, query) :=
          match split_once "?" rest with
          | Some (r, q) => (r, Some q)
          | None => (rest, None)
          end in
        and_then (parse_userinfo rest) (λ '(auth, hostport),
          match split_host_port hostport with
          | inl why => invalid_uri why
          | inr (h, p) => inr (mk_uri_config sch h (default 7687%N p) auth (query ≫= parse_db))
          end))
  end.

(** [Config::addr] *)
Definition addr_of (host : string) (port : N) : string :=
  if contains ":" host then "[" +:+ host +:+ "]:" +:+ pretty port
  else host +:+ ":" +:+ pretty port.

Definition addr (c : Config) : string := addr_of (host c) (port c).

Section dial.
Context {hash : HashIter} {api : RustlsApi}.
(** [TcpStream::connect], [ServerName::try_from] and the TLS connector. *)
Context (tcp_connect : string → Outcome ErrorKind Stream)
  (server_name_error : string → option string)
  (handshake : ClientConfig → string → Stream → Outcome (ErrorKind * string) Stream)
  (tls_rustls : bool). (* the [tls-rustls] feature *)

Definition dial (tls : TlsMode) (addr host : string) (auth : option Auth)
    : Outcome BoltError BoltConnection.t :=
  match tls with
  | Off => BoltConnection.connect (tcp_connect addr) auth
  | Strict | AcceptInvalid =>
      if tls_rustls then
        let b := if decide (tls = AcceptInvalid) then danger_accept_invalid_certs true builder
                 else use_native_roots builder in
        match build b with
        | inl e => Err e
        | inr config =>
            BoltConnection.connect_tls (tcp_connect addr) host auth
              (tls_connect server_name_error handshake config)
        end
      else Err (BoltError.Protocol (Text "TLS scheme requires the tls-rustls feature"))
  end.

(** [Config::connect] *)
Definition config_connect (c : Config) : Outcome BoltError BoltConnection.t :=
  if routed (scheme c) then
    Err (BoltError.Protocol (Text "neo4j:// schemes are routed; use Config::routed_pool"))
  else dial (tls_mode (scheme c)) (addr c) (host c) (cfg_auth c).

(** The connect function [Config::routed_pool] gives its pool. *)
Definition connect_server (c : Config) (server : string) : Outcome BoltError BoltConnection.t :=
  match split_host_port server with
  | inl why => Err (BoltError.Protocol (InvalidServerAddress server why))
  | inr (host, _) => dial (tls_mode (scheme c)) server host (cfg_auth c)
  end.

End dial.

(** ** Decimal numbers *)

Fixpoint all_digits (s : string) : bool :=
  match s with
  | EmptyString => true
  | String c s' => match digit_of c with Some _ => all_digits s' | None => false end
  end.

Lemma digit_of_char n : (n < 10)%N → digit_of (pretty_N_char n) = Some n.
Proof.
  intros Hn.
  assert (n = 0 ∨ n = 1 ∨ n = 2 ∨ n = 3 ∨ n = 4 ∨ n = 5 ∨ n = 6 ∨ n = 7 ∨ n = 8 ∨ n = 9)%N as H by lia.
  destruct_or! H; subst; by vm_compute.
Qed.

Lemma parse_pretty_go n s :
  (0 < n < 65536)%N → parse_digits 0 (pretty_N_go n s) = parse_digits n s.
Proof.
  revert s. induction n as [n IH] using (well_founded_induction N.lt_wf_0). intros s Hn.
  rewrite pretty_N_go_step by lia.
  assert (n `mod` 10 < 10)%N as Hm by (by apply N.mod_lt).
  pose proof (N.div_mod n 10 ltac:(done)) as Hd.
  assert (parse_digits (n `div` 10) (String (pretty_N_char (n `mod` 10)) s) = parse_digits n s) as Hstep.
  { cbn [parse_digits]. rewrite digit_of_char by done.
    replace (n `div` 10 * 10 + n `mod` 10)%N with n by lia.
    by destruct (N.ltb_spec n 65536); [|lia]. }
  destruct (decide (n `div` 10 = 0)%N) as [Hz|Hz].
  - rewrite Hz in *. by rewrite pretty_N_go_0.
  - pose proof (N.div_lt n 10 ltac:(lia) ltac:(lia)) as Hlt.
    rewrite IH; [exact Hstep|exact Hlt|]. split; [by apply N.neq_0_lt_0|].
    etrans; [exact Hlt|apply Hn].
Qed.

Lemma digits_go n s : all_digits s = true → all_digits (pretty_N_go n s) = true.
Proof.
  revert s. induction n as [n IH] using (well_founded_induction N.lt_wf_0). intros s Hs.
  destruct (decide (n = 0)%N) as [->|Hn]; [by rewrite pretty_N_go_0|].
  rewrite pretty_N_go_step by lia. apply IH; [apply N.div_lt; lia|].
  cbn [all_digits]. by rewrite digit_of_char by (by apply N.mod_lt).
Qed.

(** ** Reading back what [addr] writes *)

Lemma all_digits_pretty (n : N) : all_digits (pretty n) = true.
Proof.
  unfold pretty, pretty_N. case_decide; [done|]. by apply digits_go.
Qed.

Lemma digits_free c s : digit_of c = None → all_digits s = true → free_of c s = true.
Proof.
  intros Hc. induction s as [|a s IH]; [done|]. cbn [all_digits free_of].
  destruct (digit_of a) eqn:Ha; [|done]. intros Hs. rewrite decide_False by congruence. auto.
Qed.

Lemma pretty_free c (n : N) : digit_of c = None → free_of c (pretty n) = true.
Proof. intros Hc. apply digits_free; [done|apply all_digits_pretty]. Qed.

Lemma parse_pretty (n : N) : (n < 65536)%N → parse_port (pretty n) = inr n.
Proof.
  intros Hn. unfold parse_port.
  assert (parse_digits 0 (pretty n) = Some n) as Hd.
  { unfold pretty, pretty_N. case_decide as Hz; [by rewrite Hz|]. by rewrite parse_pretty_go by lia. }
  pose proof (pretty_free "+"%char n eq_refl) as Hf. unfold parse_u16.
  destruct (pretty n) as [|c s'] eqn:Hp.
  - exfalso. revert Hp. unfold pretty, pretty_N. case_decide as Hz; [done|]. intros Hp.
    rewrite pretty_N_go_step in Hp by lia.
    assert (∀ m s, s ≠ "" → pretty_N_go m s ≠ "") as Hne; [|by apply Hne in Hp].
    clear. induction m as [m IH] using (well_founded_induction N.lt_wf_0). intros s Hs.
    destruct (decide (m = 0)%N) as [->|Hm]; [by rewrite pretty_N_go_0|].
    rewrite pretty_N_go_step by lia. apply IH; [apply N.div_lt; lia|done].
  - cbn [free_of] in Hf. case_decide; [done|]. by rewrite Hd.
Qed.

Lemma string_app_assoc (a b c : string) : a +:+ (b +:+ c) = (a +:+ b) +:+ c.
Proof. induction a as [|x a IH]; [done|]. cbn. by rewrite IH. Qed.

Lemma split_once_char_app c l r :
  free_of c l = true → split_once (String c "") (l +:+ String c r) = Some (l, r).
Proof. intros Hl. by apply split_once_char. Qed.

Lemma contains_char_free c s : contains (String c "") s = negb (free_of c s).
Proof.
  destruct (free_of c s) eqn:Hf; cbn.
  - apply split_once_None, split_once_char_None, Hf.
  - destruct (contains (String c "") s) eqn:Hc; [done|].
    apply split_once_None, split_once_char_None in Hc. congruence.
Qed.

(** A host a URI can carry: not empty, without brackets or the separators. *)
Definition uri_host (h : string) : Prop :=
  h ≠ "" ∧ free_of "[" h = true ∧ free_of "]" h = true ∧ free_of "@" h = true ∧
  free_of "?" h = true.

Lemma strip_bracket_free s : free_of "[" s = true → strip_prefix "[" s = None.
Proof.
  destruct s as [|c s]; [done|]. cbn. intros Hf. case_decide; [done|].
  destruct (decide ("["%char = c)) as [Hc|]; [|done]. congruence.
Qed.

Lemma split_host_port_addr h n :
  uri_host h → (n < 65536)%N → split_host_port (addr_of h n) = inr (h, Some n).
Proof.
  intros (Hne & Hb & Hb' & _ & _) Hn. unfold addr_of. rewrite contains_char_free.
  assert (str_is_empty h = false) as He by by destruct h.
  destruct (free_of ":" h) eqn:Hc; cbn [negb]; unfold split_host_port.
  - rewrite strip_bracket_free.
    2:{ rewrite !free_of_app, Hb. cbn. rewrite pretty_free by done. done. }
    change (":" +:+ pretty n) with (String ":" (pretty n)).
    rewrite split_once_char_app by done. rewrite contains_char_free, pretty_free by done. cbn [negb].
    by rewrite parse_pretty, He.
  - change ("[" +:+ h +:+ "]:" +:+ pretty n) with (String "[" (h +:+ String "]" (String ":" (pretty n)))).
    cbn [strip_prefix]. rewrite decide_True by done.
    rewrite split_once_char_app by done. cbn [strip_prefix]. rewrite decide_True by done.
    by rewrite parse_pretty, He.
Qed.

(** ** Writing a URI *)

Definition scheme_name (s : Scheme) : string :=
  match s with
  | Bolt => "bolt" | BoltS => "bolt+s" | BoltSsc => "bolt+ssc"
  | Neo4j => "neo4j" | Neo4jS => "neo4j+s" | Neo4jSsc => "neo4j+ssc"
  end.

Definition userinfo_part (a : option Auth) : string :=
  match a with
  | Some a => principal a +:+ ":" +:+ credentials a +:+ "@"
  | None => ""
  end.

Definition query_part (db : option string) : string :=
  match db with Some db => "?db=" +:+ db | None => "" end.

Definition to_uri (c : Config) : string :=
  scheme_name (scheme c) +:+ "://" +:+
  (userinfo_part (cfg_auth c) +:+ addr c) +:+ query_part (cfg_db c).

(** The configurations a URI can state, percent-decoding being left out: the
    user name has no [:] or [?], the password no [?], the database no [&]. *)
Definition uri_config (c : Config) : Prop :=
  uri_host (host c) ∧ (port c < 65536)%N ∧
  match cfg_auth c with
  | Some a => free_of ":" (principal a) = true ∧ free_of "?" (principal a) = true ∧
      free_of "?" (credentials a) = true
  | None => True
  end ∧
  match cfg_db c with Some db => free_of "&" db = true | None => True end.

Lemma scheme_split s rest :
  split_once "://" (scheme_name s +:+ "://" +:+ rest) = Some (scheme_name s, rest).
Proof. by destruct s. Qed.

Lemma parse_scheme_name s : parse_scheme (scheme_name s) = inr s.
Proof. by destruct s. Qed.

Lemma addr_free c h n : digit_of c = None → c ≠ "["%char → c ≠ "]"%char → c ≠ ":"%char →
  free_of c h = true → free_of c (addr_of h n) = true.
Proof.
  intros Hd H1 H2 H3 Hh. unfold addr_of. destruct (contains ":" h);
    rewrite !free_of_app, Hh, pretty_free by done; cbn;
    repeat rewrite decide_False by congruence; done.
Qed.

Lemma split_free c s : free_of c s = true → split c s = [s].
Proof.
  induction s as [|a s IH]; [done|]. cbn. case_decide; [done|]. intros Hs. by rewrite IH.
Qed.

Lemma parse_db_name db : free_of "&" db = true → parse_db ("db=" +:+ db) = Some db.
Proof.
  intros Hf. unfold parse_db, find_map.
  rewrite split_free by (rewrite free_of_app, Hf; done).
  cbn [omap list_omap]. by rewrite strip_prefix_app.
Qed.

Lemma parse_userinfo_part a rest :
  free_of "@" rest = true →
  match a with Some a => free_of ":" (principal a) = true | None => True end →
  parse_userinfo (userinfo_part a +:+ rest) = inr (a, rest).
Proof.
  intros Hr Ha. unfold parse_userinfo. destruct a as [[user pass]|]; cbn [userinfo_part].
  - cbn [principal credentials] in *.
    assert (rsplit_once "@" ((user +:+ ":" +:+ pass +:+ "@") +:+ rest) =
      Some (user +:+ String ":" pass, rest)) as ->.
    { apply rsplit_once_Some. split; [|done].
      change (":" +:+ pass +:+ "@") with (String ":" (pass +:+ "@")).
      rewrite <- !string_app_assoc. f_equal. cbn. f_equal. by rewrite <- string_app_assoc. }
    by rewrite split_once_char_app.
  - cbn. by rewrite (proj2 (rsplit_once_None "@" rest) Hr).
Qed.

(** ** Properties *)

(** C35: URI round trip. Writing a configuration as a URI and parsing it gives
    the configuration back: scheme, IPv4, name or bracketed IPv6 host, port,
    credentials (a password may hold [:] and [@]) and database. *)
Theorem from_uri_to_uri c : uri_config c → from_uri (to_uri c) = inr c.
Proof.
  intros (Hh & Hn & Ha & Hdb). unfold from_uri, to_uri. rewrite scheme_split, parse_scheme_name.
  cbn [and_then]. destruct c as [sch h n a db]. cbn [scheme host port cfg_auth cfg_db] in *.
  unfold addr. cbn [host port].
  pose proof Hh as (_ & _ & _ & Hat & Hq).
  assert (free_of "?" (userinfo_part a +:+ addr_of h n) = true) as Hfree.
  { rewrite free_of_app, (addr_free "?") by done. destruct a as [[user pass]|]; [|done].
    cbn [userinfo_part principal credentials] in *. destruct Ha as (_ & Hu & Hp).
    by rewrite !free_of_app, Hu, Hp. }
  assert (parse_userinfo (userinfo_part a +:+ addr_of h n) = inr (a, addr_of h n)) as Hinfo.
  { apply parse_userinfo_part; [by apply addr_free|]. by destruct a as [[]|]; [apply Ha|]. }
  destruct db as [db|]; cbn [query_part].
  - change ("?db=" +:+ db) with (String "?" ("db=" +:+ db)).
    rewrite split_once_char_app by done. rewrite Hinfo. cbn [and_then].
    rewrite split_host_port_addr by done. cbn [mbind option_bind default].
    by rewrite parse_db_name.
  - assert (∀ s : string, s +:+ "" = s) as Hnil by (induction s; cbn; congruence).
    rewrite Hnil. rewrite (proj2 (split_once_char_None "?" _) Hfree). rewrite Hinfo. cbn [and_then].
    by rewrite split_host_port_addr.
Qed.

Definition sample_config : Config :=
  mk_uri_config BoltS "fe80::1" 9999 (Some (mk_auth "neo" "p@ss:w")) (Some "movies").

Lemma from_uri_to_uri_witness : from_uri (to_uri sample_config) = inr sample_config.
Proof.
  apply from_uri_to_uri. unfold uri_config, uri_host. cbn.
  split_and!; first [reflexivity | discriminate].
Defined.

(** The server name of TLS. A server of the routing table is dialled at
    its address as written, and the name given to TLS is the bare host of that
    address (no brackets, no port); a direct connection of the same host and
    port dials the same address under the same name. *)
Lemma connect_server_name {hash : HashIter} {api : RustlsApi} tcp_connect server_name_error
    handshake tls_rustls c h n :
  uri_host h → (n < 65536)%N →
  connect_server tcp_connect server_name_error handshake tls_rustls c (addr_of h n) =
    dial tcp_connect server_name_error handshake tls_rustls (tls_mode (scheme c)) (addr_of h n) h
      (cfg_auth c) ∧
  (routed (scheme c) = false → host c = h → port c = n →
   config_connect tcp_connect server_name_error handshake tls_rustls c =
   connect_server tcp_connect server_name_error handshake tls_rustls c (addr_of h n)).
Proof.
  intros Hh Hn. assert (connect_server tcp_connect server_name_error handshake tls_rustls c
    (addr_of h n) = dial tcp_connect server_name_error handshake tls_rustls (tls_mode (scheme c))
      (addr_of h n) h (cfg_auth c)) as Hc.
  { unfold connect_server. by rewrite split_host_port_addr. }
  split; [done|]. intros Hr <- <-. rewrite Hc. unfold config_connect. by rewrite Hr.
Qed.
