(* ===== verification/Pool.v ===== *)
(** * The connection pool ([pool.rs])

    [checkout], [mint], [close] and the [Drop] of a checked-out connection, as
    computations on the pool seen by one task; their interleavings are in
    [PoolConcurrency].

    The semaphore is tokio's: permits are counted, a closed one refuses. The
    factory is the caller's: its results are a script. The backoff is the
    [chrono_machines] crate's: [delay] is an argument, documented to give no
    delay from the configured number of attempts on. *)

From S2P Require Import Prelude Value Message Error Transport Connection Receive Exchange Safety.
From S2P Require Import Guarantees.

(** Times and durations, in milliseconds. *)
Abbreviation Instant := N.
Abbreviation Duration := N.

Record PoolConfig := mk_pool_config {
  max_size : nat;
  idle_timeout : option Duration;
  max_lifetime : option Duration;
  connect_attempts : N; (* u8 *)
}.

Definition default_pool_config : PoolConfig := mk_pool_config 8 (Some 300000%N) (Some 3600000%N) 3.

Record Idle := mk_idle {
  idle_conn : BoltConnection.t;
  idle_created_at : Instant;
  idled_at : Instant;
}.

(** [PoolInner]; the idle [Vec] grows at its end. *)
Record Pool := mk_pool {
  config : PoolConfig;
  idle : list Idle;
  permits : nat;
  closed : bool;
  acquire_timeout : option Duration;
}.

Definition set_idle (x : list Idle) (p : Pool) : Pool :=
  let '(mk_pool c _ n cl t) := p in mk_pool c x n cl t.
Definition set_permits (x : nat) (p : Pool) : Pool :=
  let '(mk_pool c i _ cl t) := p in mk_pool c i x cl t.
Definition set_closed (x : bool) (p : Pool) : Pool :=
  let '(mk_pool c i n _ t) := p in mk_pool c i n x t.
Definition set_acquire_timeout (x : option Duration) (p : Pool) : Pool :=
  let '(mk_pool c i n cl _) := p in mk_pool c i n cl x.

(** [Pool::with_config], [Pool::new], [Pool::with_acquire_timeout] *)
Definition with_config (cfg : PoolConfig) : Pool :=
  mk_pool cfg [] (max_size cfg `max` 1) false None.

Definition new_pool (size : nat) : Pool :=
  with_config (mk_pool_config size (idle_timeout default_pool_config)
    (max_lifetime default_pool_config) (connect_attempts default_pool_config)).

Definition with_acquire_timeout (timeout : Duration) (p : Pool) : Pool :=
  set_acquire_timeout (Some timeout) p.

Definition is_closed (p : Pool) : bool := closed p.

(** [Instant::elapsed] saturates, as [N]'s subtraction does. *)
Definition expired (cfg : PoolConfig) (now created_at idled_at : Instant) : bool :=
  match idle_timeout cfg with Some t => (t <? now - idled_at)%N | None => false end ||
  match max_lifetime cfg with Some t => (t <? now - created_at)%N | None => false end.

(** A checked-out connection; [None] once detached or given back. *)
Record PooledConnection := mk_pooled {
  pooled_conn : option BoltConnection.t;
  pooled_created_at : Instant;
}.

Definition wrap (c : BoltConnection.t) (created_at : Instant) : PooledConnection :=
  mk_pooled (Some c) created_at.

(** [Vec::pop] *)
Definition pop (p : Pool) : option (Idle * Pool) :=
  match last (idle p) with
  | Some i => Some (i, set_idle (removelast (idle p)) p)
  | None => None
  end.

Definition push (i : Idle) (p : Pool) : Pool := set_idle (idle p ++ [i]) p.

Definition release (p : Pool) : Pool := set_permits (S (permits p)) p.

(** [Drop for PooledConnection], up to the push: whether the connection is
    kept. The permit is dropped after it, with the fields. *)
Definition keeps_on_drop (p : Pool) (c : BoltConnection.t) : bool :=
  BoltConnection.is_reusable c && negb (is_closed p).

Definition drop_pooled (now : Instant) (pc : PooledConnection) (p : Pool) : Pool :=
  release match pooled_conn pc with
          | Some c =>
              if keeps_on_drop p c then push (mk_idle c (pooled_created_at pc) now) p else p
          | None => p
          end.

(** [detach(self)]: the connection leaves the pool, its permit does not. *)
Definition detach (now : Instant) (pc : PooledConnection) (p : Pool)
    : option BoltConnection.t * Pool :=
  (pooled_conn pc, drop_pooled now (mk_pooled None (pooled_created_at pc)) p).

(** ** One task *)

(** The pool, the clock, and what the factory's next calls come to. *)
Record World := mk_world {
  pool : Pool;
  now : Instant;
  results : list (Outcome BoltError BoltConnection.t);
}.

Definition P (A : Type) : Type := M World BoltError A.

Definition on_pool (f : Pool → Pool) (w : World) : World :=
  mk_world (f (pool w)) (now w) (results w).

Section pool.
Context {hash : HashIter}.
(** [backoff.delay(attempt)] of a backoff of so many attempts. *)
Context (delay : N → N → option Duration).

(** A call of the factory, awaited. *)
Definition call_factory : P (BoltError + BoltConnection.t) := λ w,
  match results w with
  | [] => (Suspended, w)
  | r :: rs =>
      let w' := mk_world (pool w) (now w) rs in
      match r with
      | Ok c => (Ok (inr c), w')
      | Err e => (Ok (inl e), w')
      | Panic => (Panic, w')
      | Suspended => (Suspended, w')
      | OutOfFuel => (OutOfFuel, w')
      end
  end.

(** [tokio::time::sleep], in a future that is dropped at its [deadline], if it
    has one, when it is still waiting then. *)
Definition sleep (deadline : option Instant) (ms : Duration) : P unit := λ w,
  let wake := (now w + ms)%N in
  if match deadline with Some d => (d <? wake)%N | None => false end
  then (Suspended, w)
  else (Ok tt, mk_world (pool w) wake (results w)).

Definition mint_round (deadline : option Instant) (attempt : N) : P (N + BoltConnection.t) :=
  let! result := call_factory in
  match result with
  | inr conn => ret (inr conn)
  | inl e =>
      if negb (is_transient e) then throw e
      else
        let! w := gets id in
        match delay (connect_attempts (config (pool w))) attempt with
        | Some delay_ms => do! sleep deadline delay_ms in ret (inl (attempt + 1)%N)
        | None => throw e
        end
  end.

(** [mint]: as many rounds as the factory is still called. *)
Definition mint (deadline : option Instant) : P BoltConnection.t :=
  loop_by (λ w, length (results w)) (mint_round deadline) 1%N.

(** [permits.acquire_owned()] *)
Definition acquire : P unit := λ w,
  if closed (pool w) then (Err (BoltError.Closed "pool closed"), w)
  else match permits (pool w) with
       | O => (Suspended, w)
       | S n => (Ok tt, on_pool (set_permits n) w)
       end.

(** The permit is dropped when the task ends without a connection. *)
Definition releasing {A} (m : P A) : P A := λ w,
  match m w with
  | (Ok a, w') => (Ok a, w')
  | (o, w') => (o, on_pool release w')
  end.

(** One turn of the loop over idle connections. *)
Definition probe_round : unit → P (unit + option PooledConnection) := λ _ w,
  match pop (pool w) with
  | None => (Ok (inr None), w)
  | Some (i, p') =>
      let w' := mk_world p' (now w) (results w) in
      if expired (config (pool w)) (now w) (idle_created_at i) (idled_at i) then (Ok (inl tt), w')
      else if BoltConnection.is_reusable (idle_conn i) then
        match BoltConnection.reset (idle_conn i) with
        | (Ok _, c) => (Ok (inr (Some (wrap c (idle_created_at i)))), w')
        | (Err _, _) => (Ok (inl tt), w')
        | (Panic, _) => (Panic, w')
        | (Suspended, _) => (Suspended, w')
        | (OutOfFuel, _) => (OutOfFuel, w')
        end
      else (Ok (inl tt), w')
  end.

Definition checkout (deadline : option Instant) : P PooledConnection :=
  do! acquire in
  releasing (
    let! found := loop_by (λ w, length (idle (pool w))) probe_round tt in
    match found with
    | Some pc => ret pc
    | None => let! conn := mint deadline in gets (λ w, wrap conn (now w))
    end).

(** [Pool::get]: a checkout still waiting at the deadline, for a permit, for a
    peer, for the factory or between two attempts, is dropped then. *)
Definition get : P PooledConnection := λ w,
  match acquire_timeout (pool w) with
  | Some limit =>
      let deadline := (now w + limit)%N in
      match checkout (Some deadline) w with
      | (Suspended, w') =>
          (Err (BoltError.Timeout "pool checkout"), mk_world (pool w') deadline (results w'))
      | answer => answer
      end
  | None => checkout None w
  end.

(** [Pool::close]: the pool is closed and emptied, then every idle connection
    is closed, best effort, its outcome (or the deadline's) ignored. *)
Definition close_pool (p : Pool) : Pool := set_idle [] (set_closed true p).

Definition farewells (p : Pool) : list (Outcome BoltError unit * BoltConnection.t) :=
  (λ i, BoltConnection.close (idle_conn i)) <$> idle p.

(** ** Closing *)

(** GOODBYE's frame. *)
Definition goodbye_frame : bytes := [x00; x02; xb0; x02; x00; x00].

Lemma framed_goodbye : framed [goodbye] goodbye_frame.
Proof. by vm_compute. Qed.

(** An intact connection whose peer takes the bytes says GOODBYE. *)
Lemma close_says_goodbye c ws :
  BoltConnection.broken c = false →
  outgoing (BoltConnection.stream c) = WrDone :: WrDone :: WrDone :: ws →
  ∃ c', BoltConnection.close c = (Ok tt, c') ∧
    sent (BoltConnection.stream c') = sent (BoltConnection.stream c) ++ goodbye_frame.
Proof.
  intros Hb Ho. unfold BoltConnection.close. rewrite bind_gets, Hb.
  unfold BoltConnection.write_message.
  rewrite (bind_ok _ _ _ _ _ (write_messages_ok _ _ _ _ Hb framed_goodbye Ho)).
  destruct c as [[inc out snt]]. cbn in *. eexists. split; [done|]. cbn. by rewrite app_nil_r.
Qed.

(** Closing a pool neither panics nor runs on. *)
Lemma farewells_return p :
  Forall (λ r : Outcome BoltError unit * BoltConnection.t, r.1 ≠ Panic ∧ r.1 ≠ OutOfFuel) (farewells p).
Proof. apply Forall_fmap, Forall_true. intros i. apply safe_close. Qed.

(** ** Facts about one task *)

Lemma pop_Some p i p' :
  pop p = Some (i, p') → idle p = idle p' ++ [i] ∧ p' = set_idle (idle p') p ∧
    config p' = config p ∧ permits p' = permits p ∧ closed p' = closed p.
Proof.
  unfold pop. destruct p as [c il n cl t]. cbn. destruct il as [|i0 il _] using rev_ind; [done|].
  rewrite last_snoc, removelast_last. intros [= <- <-]. done.
Qed.

Lemma pop_None p : pop p = None → idle p = [].
Proof. unfold pop. destruct (last (idle p)) eqn:Hl; [done|]. intros _. by apply last_None. Qed.

(** The idle connection is passed over: too old, its last exchange cut off, or
    its peer does not answer RESET with a SUCCESS. *)
Definition rejected (cfg : PoolConfig) (now : Instant) (i : Idle) : Prop :=
  expired cfg now (idle_created_at i) (idled_at i) = true ∨
  BoltConnection.is_reusable (idle_conn i) = false ∨
  ∃ e c, BoltConnection.reset (idle_conn i) = (Err e, c).

(** It is taken: [c] is what RESET made of it. *)
Definition probed (cfg : PoolConfig) (now : Instant) (i : Idle) (c : BoltConnection.t) : Prop :=
  expired cfg now (idle_created_at i) (idled_at i) = false ∧
  BoltConnection.is_reusable (idle_conn i) = true ∧
  BoltConnection.reset (idle_conn i) = (Ok tt, c).

(** What looking at idle connections leaves alone. *)
Definition same_rest (w w' : World) : Prop :=
  now w' = now w ∧ results w' = results w ∧ config (pool w') = config (pool w) ∧
  permits (pool w') = permits (pool w) ∧ closed (pool w') = closed (pool w).

#[local] Instance same_rest_preorder : PreOrder same_rest.
Proof. unfold same_rest. split; [intros ?; by split_and!|intros ???; naive_solver congruence]. Qed.

Lemma probe_round_ok u w r w' :
  probe_round u w = (Ok r, w') →
  same_rest w w' ∧
  match r with
  | inl _ => ∃ i, idle (pool w) = idle (pool w') ++ [i] ∧ rejected (config (pool w)) (now w) i
  | inr None => idle (pool w) = [] ∧ idle (pool w') = []
  | inr (Some pc) => ∃ i c, idle (pool w) = idle (pool w') ++ [i] ∧
      probed (config (pool w)) (now w) i c ∧ pc = wrap c (idle_created_at i)
  end.
Proof.
  unfold probe_round, same_rest, probed, rejected. destruct (pop (pool w)) as [[i p']|] eqn:Hp.
  - apply pop_Some in Hp as (Hi & _ & Hc & Hn & Hcl).
    destruct (expired _ _ _ _) eqn:Hx; [intros [= <- <-]; cbn; eauto 10|].
    destruct (BoltConnection.is_reusable _) eqn:Hu; [|intros [= <- <-]; cbn; eauto 10].
    destruct (BoltConnection.reset (idle_conn i)) as [[[]|e| | |] c] eqn:Hr; intros [= <- <-];
      cbn; eauto 12.
  - apply pop_None in Hp. by intros [= <- <-].
Qed.

(** [mint] gives up in time: the backoff allows at most so many calls. *)
Definition bounded_backoff : Prop := ∀ max attempt, (max ≤ attempt)%N → delay max attempt = None.

Lemma call_factory_cases w :
  (results w = [] ∧ call_factory w = (Suspended, w)) ∨
  ∃ r rs, results w = r :: rs ∧
    call_factory w = (match r with
                      | Ok c => Ok (inr c) | Err e => Ok (inl e) | Panic => Panic
                      | Suspended => Suspended | OutOfFuel => OutOfFuel
                      end, mk_world (pool w) (now w) rs).
Proof.
  unfold call_factory. destruct (results w) as [|r rs]; [by left|]. right.
  exists r, rs. split; [done|]. by destruct r.
Qed.

(** A connect error a retry may fix. *)
Definition transient_error (r : Outcome BoltError BoltConnection.t) : Prop :=
  ∃ e, r = Err e ∧ is_transient e = true.

(** What [mint] made of the results it used. *)
Definition mint_used (max attempt : N) (used : list (Outcome BoltError BoltConnection.t))
    (o : Outcome BoltError BoltConnection.t) : Prop :=
  ∃ failed r, used = failed ++ [r] ∧ Forall transient_error failed ∧ o = r ∧
    (∀ k, (k < length failed)%nat → delay max (attempt + N.of_nat k)%N ≠ None) ∧
    (transient_error r → delay max (attempt + N.of_nat (length failed))%N = None).

(** A round that ends the loop. *)
Definition last_round (r : Outcome BoltError BoltConnection.t)
    : Outcome BoltError (N + BoltConnection.t) :=
  match r with
  | Ok c => Ok (inr c)
  | Err e => Err e
  | Panic => Panic
  | Suspended => Suspended
  | OutOfFuel => OutOfFuel
  end.

Lemma mint_round_cases deadline attempt w r rs :
  results w = r :: rs →
  let max := connect_attempts (config (pool w)) in
  (∃ t, transient_error r ∧ delay max attempt ≠ None ∧
     (mint_round deadline attempt w = (Ok (inl (attempt + 1)%N), mk_world (pool w) t rs) ∨
      mint_round deadline attempt w = (Suspended, mk_world (pool w) t rs))) ∨
  (mint_round deadline attempt w = (last_round r, mk_world (pool w) (now w) rs) ∧
   (transient_error r → delay max attempt = None)).
Proof.
  intros Hw max. destruct r as [c|e| | |];
    [right; split; [unfold mint_round, bind, call_factory; by rewrite Hw|by intros (? & ? & _)]| |
     right; split; [unfold mint_round, bind, call_factory; by rewrite Hw|by intros (? & ? & _)]..].
  assert (call_factory w = (Ok (inl e), mk_world (pool w) (now w) rs)) as Hc
    by (unfold call_factory; by rewrite Hw).
  unfold mint_round. rewrite !(bind_ok _ _ _ _ _ Hc). destruct (is_transient e) eqn:Ht; cbn [negb].
  - rewrite !bind_gets. unfold id. cbn [pool]. fold max. destruct (delay max attempt) as [ms|] eqn:Hd.
    + left. unfold bind, sleep. cbn [now pool results].
      destruct (match deadline with Some d => (d <? now w + ms)%N | None => false end).
      * exists (now w). split_and!; [by exists e|done|by right].
      * exists (now w + ms)%N. split_and!; [by exists e|done|by left].
    + right. done.
  - right. split; [done|]. intros (e' & [= <-] & ?). congruence.
Qed.

Lemma mint_used_cons max attempt r used o :
  transient_error r → delay max attempt ≠ None → mint_used max (attempt + 1) used o →
  mint_used max attempt (r :: used) o.
Proof.
  intros Hr Hd (failed & r' & -> & Hf & -> & Hdel & Hlast). exists (r :: failed), r'.
  assert (∀ k : nat, attempt + N.of_nat (S k) = attempt + 1 + N.of_nat k)%N as Hk by lia.
  split_and!; [done|by constructor|done| |].
  - intros [|k] Hlt; [by rewrite N.add_0_r|]. rewrite Hk. apply Hdel. cbn in Hlt. lia.
  - cbn [length]. by rewrite Hk.
Qed.

Lemma mint_loop deadline rs fuel attempt w :
  results w = rs → (length rs < fuel)%nat →
  ∃ o w', loop fuel (mint_round deadline) attempt w = (o, w') ∧ pool w' = pool w ∧
    ((o = Suspended ∧ ∃ used, rs = used ++ results w' ∧ Forall transient_error used) ∨
     ∃ used, rs = used ++ results w' ∧
       mint_used (connect_attempts (config (pool w))) attempt used o).
Proof.
  revert fuel attempt w. induction rs as [|r rs IH]; intros fuel attempt w Hw Hf;
    (destruct fuel as [|fuel]; [cbn in Hf; lia|]); cbn [loop].
  { exists Suspended, w. unfold bind, mint_round, bind, call_factory. rewrite Hw.
    split_and!; [done..|]. left. split; [done|]. by exists []. }
  destruct (mint_round_cases deadline attempt w r rs Hw) as [(t & Hr & Hd & [Hm|Hm])|[Hm Hd]].
  - rewrite (bind_ok _ _ _ _ _ Hm).
    destruct (IH fuel (attempt + 1)%N (mk_world (pool w) t rs))
      as (o & w' & Hl & Hpool & Hcase); [done|cbn in Hf; lia|].
    exists o, w'. split_and!; [exact Hl|done|]. destruct Hcase as [(? & used & Hrs & ?)|(used & Hrs & Hu)].
    + left. split; [done|]. exists (r :: used). split; [by rewrite Hrs|by constructor].
    + right. exists (r :: used). split; [by rewrite Hrs|]. by apply mint_used_cons.
  - exists Suspended, (mk_world (pool w) t rs). split_and!; [by rewrite (bind_suspended _ _ _ _ Hm)|done|].
    left. split; [done|]. exists [r]. split; [done|by repeat constructor].
  - exists r, (mk_world (pool w) (now w) rs). split_and!; [|done|].
    + unfold bind. rewrite Hm. by destruct r.
    + right. exists [r]. split; [done|]. exists [], r.
      split_and!; [done|constructor|done|cbn; lia|]. cbn. by rewrite N.add_0_r.
Qed.

(** The number of calls is bounded by the attempts. *)
Lemma mint_used_length max used o :
  bounded_backoff → mint_used max 1 used o →
  (N.of_nat (length used) ≤ N.max 1 max)%N.
Proof.
  intros Hb (failed & r & -> & _ & _ & Hdel & _). rewrite length_app. cbn [length].
  destruct failed as [|f failed]; [cbn; lia|].
  destruct (N.le_gt_cases max (1 + N.of_nat (length failed))) as [Hle|?]; [|cbn [length]; lia].
  exfalso. apply (Hdel (length failed)); [cbn; lia|]. by apply Hb.
Qed.

(** ** Properties of one task *)

(** Connecting with retries. [mint] calls the factory until it returns a
    connection, fails with an error that no retry can fix, or the attempts
    configured are used up: it calls it at most [max 1 connect_attempts]
    times, returns the last call's result, retries only after transient errors,
    and gives up on a transient error only when the backoff has no further
    delay. Otherwise it is still waiting, for the factory or for the next
    attempt when the deadline comes. *)
Lemma mint_attempts deadline w o w' :
  bounded_backoff → mint deadline w = (o, w') →
  (o = Suspended ∧ ∃ used, results w = used ++ results w' ∧ Forall transient_error used) ∨
  ∃ failed r, results w = (failed ++ [r]) ++ results w' ∧ o = r ∧
    Forall transient_error failed ∧
    (N.of_nat (length (failed ++ [r])) ≤ N.max 1 (connect_attempts (config (pool w))))%N ∧
    (transient_error r →
     delay (connect_attempts (config (pool w))) (N.of_nat (length (failed ++ [r]))) = None).
Proof.
  intros Hb Hm. unfold mint, loop_by in Hm.
  destruct (mint_loop deadline (results w) (S (length (results w))) 1%N w eq_refl ltac:(lia))
    as (o' & w1 & Hl & _ & Hcase).
  rewrite Hl in Hm. injection Hm as -> ->. destruct Hcase as [?|(used & Hrs & Hu)]; [by left|right].
  pose proof (mint_used_length _ _ _ Hb Hu) as Hlen.
  destruct Hu as (failed & r & -> & Hf & -> & _ & Hlast). exists failed, r.
  split_and!; [done..|]. intros Htr. rewrite length_app. cbn [length].
  replace (N.of_nat (length failed + 1)) with (1 + N.of_nat (length failed))%N by lia. by apply Hlast.
Qed.

(** What the loop over the idle connections found, those it passed over being
    at the end of the list. *)
Definition found_idle (w : World) (found : option PooledConnection) (w' : World) : Prop :=
  same_rest w w' ∧
  ∃ skipped, Forall (rejected (config (pool w)) (now w)) skipped ∧
  match found with
  | None => idle (pool w) = skipped ∧ idle (pool w') = []
  | Some pc => ∃ i c, idle (pool w) = idle (pool w') ++ i :: skipped ∧
      probed (config (pool w)) (now w) i c ∧ pc = wrap c (idle_created_at i)
  end.

Lemma probe_loop_ok fuel w found w' :
  loop fuel probe_round tt w = (Ok found, w') → found_idle w found w'.
Proof.
  apply (loop_ok_inv (λ _ w1, same_rest w w1 ∧
    ∃ skipped, Forall (rejected (config (pool w)) (now w)) skipped ∧
      idle (pool w) = idle (pool w1) ++ skipped) (found_idle w)).
  - intros a w1 a' w2 (H1 & skipped & Hs & Hi) (H2 & i & Hi1 & Hr)%probe_round_ok.
    pose proof H1 as (Hn & _ & Hc & _). rewrite Hc, Hn in Hr.
    split; [by etrans|]. exists (i :: skipped). split; [by constructor|].
    by rewrite Hi, Hi1, <- app_assoc.
  - intros a w1 b w2 (H1 & skipped & Hs & Hi) (H2 & Hb)%probe_round_ok.
    pose proof H1 as (Hn & _ & Hc & _). rewrite Hc, Hn in Hb.
    split; [by etrans|]. exists skipped. split; [done|]. destruct b as [pc|].
    + destruct Hb as (i & c & Hi1 & Hp & ->). exists i, c. split_and!; [|done|done].
      by rewrite Hi, Hi1, <- app_assoc.
    + destruct Hb as [Hi1 ?]. by rewrite Hi, Hi1.
  - split; [reflexivity|]. exists []. split; [constructor|by rewrite app_nil_r].
Qed.

(** [checkout] once it has its permit. *)
Definition checkout_body (deadline : option Instant) : P PooledConnection :=
  let! found := loop_by (λ w, length (idle (pool w))) probe_round tt in
  match found with
  | Some pc => ret pc
  | None => let! conn := mint deadline in gets (λ w, wrap conn (now w))
  end.

Definition same_permits (w w' : World) : Prop := permits (pool w') = permits (pool w).

#[local] Instance same_permits_preorder : PreOrder same_permits.
Proof. split; unfold same_permits; [done|intros ??? -> ->; done]. Qed.

Lemma respects_probe_round u : respects same_permits (probe_round u).
Proof.
  intros w. unfold probe_round, same_permits. destruct (pop (pool w)) as [[i p']|] eqn:Hp; [|done].
  apply pop_Some in Hp as (_ & _ & _ & Hn & _). destruct (expired _ _ _ _); [done|].
  destruct (BoltConnection.is_reusable _); [|done]. by destruct (BoltConnection.reset _) as [[] ?].
Qed.

Lemma respects_checkout_body deadline : respects same_permits (checkout_body deadline).
Proof.
  apply respects_bind; [apply _| |intros [pc|]].
  - apply respects_loop_by; [apply _|]. apply respects_probe_round.
  - apply respects_ret, _.
  - apply respects_bind; [apply _| |intros c; apply respects_gets, _].
    intros w. unfold mint, loop_by.
    destruct (mint_loop deadline (results w) (S (length (results w))) 1%N w eq_refl ltac:(lia))
      as (o & w' & -> & Hp & _). unfold same_permits. cbn. by rewrite Hp.
Qed.

(** ** A checkout returns *)

Lemma safe_probe_round u : safe (probe_round u).
Proof.
  intros w. unfold probe_round. destruct (pop (pool w)) as [[i p']|]; [|done].
  destruct (expired _ _ _ _); [done|]. destruct (BoltConnection.is_reusable _); [|done].
  pose proof (safe_reset (idle_conn i)) as [Hp Ho].
  by destruct (BoltConnection.reset (idle_conn i)) as [[] ?].
Qed.

Lemma safe_probe_loop : safe (loop_by (λ w, length (idle (pool w))) probe_round tt).
Proof.
  apply safe_loop_by; [apply safe_probe_round|].
  intros u w a' w' (_ & i & Hi & _)%probe_round_ok. rewrite Hi, length_app. cbn. lia.
Qed.

(** What the factory returns, if it returns. *)
Definition factory_returns (w : World) : Prop := (Panic ∉ results w) ∧ (OutOfFuel ∉ results w).

Lemma mint_returns deadline w :
  factory_returns w → (mint deadline w).1 ≠ Panic ∧ (mint deadline w).1 ≠ OutOfFuel.
Proof.
  intros [Hp Ho]. unfold mint, loop_by.
  destruct (mint_loop deadline (results w) (S (length (results w))) 1%N w eq_refl ltac:(lia))
    as (o & w' & -> & _ & [(-> & _)|(used & Hrs & failed & r & -> & _ & -> & _)]); [done|].
  cbn. rewrite Hrs in Hp, Ho. set_solver.
Qed.

Lemma checkout_body_returns deadline w :
  factory_returns w → (checkout_body deadline w).1 ≠ Panic ∧ (checkout_body deadline w).1 ≠ OutOfFuel.
Proof.
  intros Hw. unfold checkout_body. unfold bind at 1 3. pose proof (safe_probe_loop w) as [Hp Ho].
  destruct (loop_by _ _ _ w) as [[found|e| | |] w1] eqn:Hl; try done.
  apply probe_loop_ok in Hl as ((_ & Hr & _) & _). destruct found as [pc|]; [done|].
  assert (factory_returns w1) as [Hp' Ho']%(mint_returns deadline) by (unfold factory_returns; by rewrite Hr).
  unfold bind. by destruct (mint deadline w1) as [[c|e| | |] w2].
Qed.

(** Where a connection checked out came from: the idle list, looked at from its
    end, or the factory, once no idle connection was left. *)
Definition checked_out (w : World) (pc : PooledConnection) (w' : World) : Prop :=
  ∃ c, pooled_conn pc = Some c ∧
  ((∃ i skipped, idle (pool w) = idle (pool w') ++ i :: skipped ∧
      Forall (rejected (config (pool w)) (now w)) skipped ∧ probed (config (pool w)) (now w) i c ∧
      pooled_created_at pc = idle_created_at i ∧ results w' = results w) ∨
   (Forall (rejected (config (pool w)) (now w)) (idle (pool w)) ∧ idle (pool w') = [] ∧
    pooled_created_at pc = now w' ∧
    ∃ failed, results w = failed ++ Ok c :: results w' ∧ Forall transient_error failed)).

Lemma checkout_body_ok deadline w pc w' : checkout_body deadline w = (Ok pc, w') → checked_out w pc w'.
Proof.
  unfold checkout_body. intros (found & w1 & (Hrest & skipped & Hs & Hf)%probe_loop_ok & H)%bind_ok_inv.
  pose proof Hrest as (_ & Hr1 & Hc1 & _). destruct found as [pc'|].
  - injection H as <- <-. destruct Hf as (i & c & Hi & Hp & ->). exists c. split; [done|]. left.
    by exists i, skipped.
  - destruct Hf as [<- Hi]. apply bind_ok_inv in H as (c & w2 & Hm & [= <- <-]). exists c.
    split; [done|]. right. unfold mint, loop_by in Hm.
    destruct (mint_loop deadline (results w1) (S (length (results w1))) 1%N w1 eq_refl ltac:(lia))
      as (o' & w3 & Hl & Hpool & Hcase). rewrite Hl in Hm. injection Hm as -> ->.
    destruct Hcase as [[? _]|(used & Hrs & failed & r & -> & Hf & <- & _)]; [done|].
    rewrite Hpool. split_and!; [done..|]. exists failed. split; [|done].
    by rewrite <- Hr1, Hrs, <- app_assoc.
Qed.

Lemma checkout_cases deadline w o w' :
  checkout deadline w = (o, w') →
  (closed (pool w) = true → o = Err (BoltError.Closed "pool closed") ∧ w' = w) ∧
  (factory_returns w → o ≠ Panic ∧ o ≠ OutOfFuel) ∧
  match o with
  | Ok pc => permits (pool w) = S (permits (pool w')) ∧ checked_out w pc w'
  | _ => permits (pool w') = permits (pool w)
  end.
Proof.
  unfold checkout. fold (checkout_body deadline). unfold bind, acquire.
  destruct (closed (pool w)) eqn:Hcl; [by intros [= <- <-]|].
  destruct (permits (pool w)) as [|n] eqn:Hn; [by intros [= <- <-]|].
  set (w1 := on_pool (set_permits n) w).
  assert (permits (pool w1) = n ∧ idle (pool w1) = idle (pool w) ∧ results w1 = results w ∧
    config (pool w1) = config (pool w) ∧ now w1 = now w)
    as (Hn1 & Hi1 & Hr1 & Hc1 & Ht1) by (unfold w1, on_pool; cbn; by destruct (pool w)).
  pose proof (checkout_body_returns deadline w1) as Hret. pose proof (respects_checkout_body deadline w1) as Hp.
  unfold releasing. destruct (checkout_body deadline w1) as [o1 w2] eqn:Hb.
  unfold same_permits in Hp. cbn [fst snd] in *. rewrite Hn1 in Hp. intros Hc.
  assert (factory_returns w → o ≠ Panic ∧ o ≠ OutOfFuel) as Hsafe.
  { intros Hw. assert (factory_returns w1) as [??]%Hret by (unfold factory_returns; by rewrite Hr1).
    by destruct o1; injection Hc as <- <-. }
  split_and!; [done..|]. destruct o1 as [pc|e| | |]; injection Hc as <- <-;
    try (unfold on_pool; cbn; destruct (pool w2); cbn in *; congruence).
  split; [congruence|]. apply checkout_body_ok in Hb. unfold checked_out in *.
  by rewrite Hi1, Hr1, Hc1, Ht1 in Hb.
Qed.

(** What is left of the factory's script. *)
Definition uses (w w' : World) : Prop := results w' `suffix_of` results w.

#[local] Instance uses_preorder : PreOrder uses.
Proof. unfold uses. split; [intros ?; reflexivity|intros ??? ? ?; by etrans]. Qed.

(** What [Pool::get] promises its clients: it connects only by its factory, it
    returns if the factory does, and what it returns holds a connection. *)
Class CheckoutContract (get : P PooledConnection) : Prop := {
  contract_uses : respects uses get;
  contract_returns w : factory_returns w → (get w).1 ≠ Panic ∧ (get w).1 ≠ OutOfFuel;
  contract_gives w pc w' : get w = (Ok pc, w') → ∃ c, pooled_conn pc = Some c
}.

Lemma respects_uses_checkout deadline : respects uses (checkout deadline).
Proof.
  apply respects_bind; [apply _| |intros _].
  { intros w. unfold acquire, uses. destruct (Pool.closed (pool w)); [done|]. by destruct (permits (pool w)). }
  assert (respects uses (checkout_body deadline)) as Hb.
  { apply respects_bind; [apply _| |intros [pc|]; [apply respects_ret, _|]].
    - apply respects_loop_by; [apply _|]. intros u w. unfold probe_round, uses.
      destruct (pop (pool w)) as [[i p']|]; [|done]. destruct (expired _ _ _ _); [done|].
      destruct (BoltConnection.is_reusable _); [|done]. by destruct (BoltConnection.reset _) as [[] ?].
    - apply respects_bind; [apply _| |intros c; apply respects_gets, _].
      intros w. unfold mint, loop_by, uses.
      destruct (mint_loop deadline (results w) (S (length (results w))) 1%N w eq_refl ltac:(lia))
        as (o & w' & -> & _ & [(_ & used & Hrs & _)|(used & Hrs & _)]); cbn; rewrite Hrs; by exists used. }
  intros w. unfold releasing. fold (checkout_body deadline). specialize (Hb w).
  by destruct (checkout_body deadline w) as [[] ?].
Qed.

Lemma get_cases w o w' :
  get w = (o, w') →
  uses w w' ∧ (factory_returns w → o ≠ Panic ∧ o ≠ OutOfFuel) ∧
  (∀ pc, o = Ok pc → ∃ c, pooled_conn pc = Some c).
Proof.
  unfold get.
  assert (∀ deadline o1 w1, checkout deadline w = (o1, w1) → uses w w1 ∧
    (factory_returns w → o1 ≠ Panic ∧ o1 ≠ OutOfFuel) ∧
    (∀ pc, o1 = Ok pc → ∃ c, pooled_conn pc = Some c)) as H.
  { intros deadline o1 w1 Hc. pose proof (respects_uses_checkout deadline w) as Hu. rewrite Hc in Hu.
    apply checkout_cases in Hc as (_ & Hr & Hok). split_and!; [done..|].
    intros pc ->. destruct Hok as (_ & c & ? & _). by exists c. }
  destruct (acquire_timeout (pool w)) as [limit|]; [|apply H].
  destruct (checkout _ w) as [o1 w1] eqn:Hc. apply H in Hc as (Hu & Hr & Hok).
  destruct o1; intros [= <- <-]; by split_and!.
Qed.

(** C21: what a checkout gives. A closed pool gives none. Otherwise, whatever
    the idle connections' peers and the factory do, a checkout that returns
    [Ok] holds one permit, and a connection out of the idle list or from the
    factory. In the first case it is the last idle connection that is neither
    too old nor cut off and whose peer has just answered RESET, as RESET left
    it, ready, with its age kept; those after it in the list were too old, cut
    off or did not answer, and are gone. In the second case that was so of
    every idle connection, and it is the first the factory made, after errors
    that a retry could fix. A checkout that ends in any other way has its
    permit back. It neither panics nor loops unless the factory does. *)
Theorem checkout_outcome deadline w o w' :
  checkout deadline w = (o, w') →
  let gone := λ i, expired (config (pool w)) (now w) (idle_created_at i) (idled_at i) = true ∨
    BoltConnection.is_reusable (idle_conn i) = false ∨
    ∃ e c, BoltConnection.reset (idle_conn i) = (Err e, c) in
  (closed (pool w) = true → o = Err (BoltError.Closed "pool closed") ∧ w' = w) ∧
  (factory_returns w → o ≠ Panic ∧ o ≠ OutOfFuel) ∧
  match o with
  | Ok pc => permits (pool w) = S (permits (pool w')) ∧ ∃ c, pooled_conn pc = Some c ∧
      ((∃ i later, idle (pool w) = idle (pool w') ++ i :: later ∧ Forall gone later ∧
          expired (config (pool w)) (now w) (idle_created_at i) (idled_at i) = false ∧
          BoltConnection.is_reusable (idle_conn i) = true ∧
          BoltConnection.reset (idle_conn i) = (Ok tt, c) ∧ BoltConnection.is_ready c = true ∧
          pooled_created_at pc = idle_created_at i ∧ results w' = results w) ∨
       (Forall gone (idle (pool w)) ∧ idle (pool w') = [] ∧ pooled_created_at pc = now w' ∧
        ∃ failed, results w = failed ++ Ok c :: results w' ∧ Forall transient_error failed))
  | _ => permits (pool w') = permits (pool w)
  end.
Proof.
  intros (Hcl & Hret & Ho)%checkout_cases gone. split_and!; [done..|].
  destruct o as [pc|e| | |]; try done. destruct Ho as (Hp & c & Hc & Hcase).
  split; [done|]. exists c. split; [done|].
  destruct Hcase as [(i & later & Hi & Hl & (Hx & Hu & Hr) & Ha & Hres)|?]; [left|by right].
  exists i, later. split_and!; try done. by eapply reset_ok_ready.
Qed.

End pool.

#[export] Instance get_contract `{!HashIter} delay : CheckoutContract (get delay).
Proof.
  split; intros w; [|intros Hw|intros pc w' Hg].
  - destruct (get delay w) as [o w'] eqn:Hg. by apply get_cases in Hg as (? & _ & _).
  - destruct (get delay w) as [o w'] eqn:Hg. by apply get_cases in Hg as (_ & Hs & _); apply Hs.
  - by apply get_cases in Hg as (_ & _ & Hc); apply Hc.
Qed.

(** ** Witnesses *)

(** A backoff of a tenth of a second until the attempts are used up. *)
Definition steady (max attempt : N) : option Duration :=
  if (max <=? attempt)%N then None else Some 100%N.

Lemma steady_bounded : bounded_backoff steady.
Proof. intros max attempt H. unfold steady. by apply N.leb_le in H as ->. Qed.

(** What a factory may return. *)
Definition refused : BoltError := BoltError.Closed "refused".

Definition fresh : BoltConnection.t := waiting false 0 [] 0.

(** One idle connection too old, one whose peer answers RESET. *)
Definition young : World :=
  mk_world (mk_pool default_pool_config
    [mk_idle (waiting true 0 [success_body] 2) 3900000 3999000;
     mk_idle (waiting true 0 [] 0) 0 10] 1 false None) 4000000 [].

Lemma checkout_outcome_witness :
  let pc := match @checkout listing_order steady None young with
            | (Ok pc, _) => pc | _ => mk_pooled None 0 end in
  let w' := (@checkout listing_order steady None young).2 in
  permits (pool young) = S (permits (pool w')) ∧ idle (pool w') = [] ∧
  pooled_created_at pc = 3900000%N ∧ (∃ c, pooled_conn pc = Some c ∧ BoltConnection.is_ready c = true).
Proof.
  intros pc w'.
  assert (@checkout listing_order steady None young = (Ok pc, w')) as H by (vm_compute; reflexivity).
  destruct (@checkout_outcome listing_order steady None young (Ok pc) w' H)
    as (_ & _ & Hp & c & Hc & [(i & later & Hi & _ & _ & _ & _ & Hr & _)|(_ & _ & _ & failed & Hf & _)]).
  - split_and!; [exact Hp|vm_compute; reflexivity..|by exists c].
  - destruct failed; discriminate Hf.
Defined.
