(* ===== verification/PoolConcurrency.v ===== *)
(** * The pool under interleaving tasks

    A task that uses the pool goes through phases; a step of the system is one
    task moving from one phase to the next by the code between two points
    where another task may run (an await, or the release of the lock of the
    idle list), or [close] doing one of its two parts. Time,
    the factory, the peers and the users of connections are arbitrary. *)

From S2P Require Import Prelude Value Message Error Transport Connection Receive Exchange Safety.
From S2P Require Import Guarantees Pool.

Inductive Phase :=
| Waiting                                            (* for a permit *)
| Acquired                                           (* about to pop *)
| Probing (i : Idle)                                 (* awaiting RESET *)
| Minting                                            (* awaiting the factory *)
| Using (c : BoltConnection.t) (created_at : Instant)  (* a [PooledConnection] *)
| Dropping (i : Idle)                                (* [Drop], about to push *)
| Releasing.                                         (* [Drop], about to release *)

Record System := mk_system { sys_pool : Pool; sys_now : Instant; tasks : list Phase }.

(** A case for each of a task's steps, with its hypotheses named. *)
Ltac task_step_cases Hs :=
  destruct Hs as
    [p n Hc Hp|p Hc|p|p i p' Hp He|p i p' Hp Hu|p i p' Hp He Hu|p Hp|p i c Hr|p i e c Hr|p i|p c
      |p|p c t c'|p c t|p c t Hk|p c t Hk|p i|p].

Section steps.
Context {hash : HashIter}.

(** One task: [None] is its end. *)
Inductive task_step (now : Instant) : Pool → Phase → Pool → option Phase → Prop :=
| acquire_permit p n :
    closed p = false → permits p = S n → task_step now p Waiting (set_permits n p) (Some Acquired)
| acquire_closed p : closed p = true → task_step now p Waiting p None
| wait_dropped p : task_step now p Waiting p None
| pop_expired p i p' :
    pop p = Some (i, p') → expired (config p) now (idle_created_at i) (idled_at i) = true →
    task_step now p Acquired p' (Some Acquired)
| pop_unusable p i p' :
    pop p = Some (i, p') → BoltConnection.is_reusable (idle_conn i) = false →
    task_step now p Acquired p' (Some Acquired)
| pop_probe p i p' :
    pop p = Some (i, p') → expired (config p) now (idle_created_at i) (idled_at i) = false →
    BoltConnection.is_reusable (idle_conn i) = true →
    task_step now p Acquired p' (Some (Probing i))
| pop_empty p : pop p = None → task_step now p Acquired p (Some Minting)
| probe_ok p i c :
    BoltConnection.reset (idle_conn i) = (Ok tt, c) →
    task_step now p (Probing i) p (Some (Using c (idle_created_at i)))
| probe_failed p i e c :
    BoltConnection.reset (idle_conn i) = (Err e, c) →
    task_step now p (Probing i) p (Some Acquired)
| probe_dropped p i : task_step now p (Probing i) p (Some Releasing)
| mint_ok p c : task_step now p Minting p (Some (Using c now))
| mint_failed p : task_step now p Minting p (Some Releasing)
| use p c t c' : task_step now p (Using c t) p (Some (Using c' t))
| detached p c t : task_step now p (Using c t) p (Some Releasing)
| drop_discards p c t :
    keeps_on_drop p c = false → task_step now p (Using c t) p (Some Releasing)
| drop_keeps p c t :
    keeps_on_drop p c = true →
    task_step now p (Using c t) p (Some (Dropping (mk_idle c t now)))
| drop_pushes p i : task_step now p (Dropping i) (push i p) (Some Releasing)
| drop_releases p : task_step now p Releasing (release p) None.

Inductive step : System → System → Prop :=
| step_task p now ts1 ph ts2 p' ph' :
    task_step now p ph p' ph' →
    step (mk_system p now (ts1 ++ ph :: ts2)) (mk_system p' now (ts1 ++ option_list ph' ++ ts2))
| step_get p now ts1 ts2 :
    step (mk_system p now (ts1 ++ ts2)) (mk_system p now (ts1 ++ Waiting :: ts2))
| step_close p now ts : step (mk_system p now ts) (mk_system (set_closed true p) now ts)
| step_drain p now ts :
    closed p = true → step (mk_system p now ts) (mk_system (set_idle [] p) now ts)
| step_time p now d ts : step (mk_system p now ts) (mk_system p (now + d)%N ts).

Definition start (cfg : PoolConfig) (now : Instant) : System := mk_system (with_config cfg) now [].

(** ** Counting *)

(** The task holds a permit. *)
Definition holds (ph : Phase) : bool := match ph with Waiting => false | _ => true end.

(** It holds a connection, or is about to have one made. *)
Definition committed (ph : Phase) : bool :=
  match ph with Probing _ | Minting | Using _ _ | Dropping _ => true | _ => false end.

Definition count (f : Phase → bool) (ts : list Phase) : nat := length (List.filter f ts).

Lemma count_app f ts ts' : count f (ts ++ ts') = (count f ts + count f ts')%nat.
Proof. unfold count. by rewrite List.filter_app, length_app. Qed.

Lemma count_cons f ph ts : count f (ph :: ts) = ((if f ph then 1 else 0) + count f ts)%nat.
Proof. unfold count. cbn. by destruct (f ph). Qed.

Lemma count_le ts : (count committed ts ≤ count holds ts)%nat.
Proof.
  induction ts as [|ph ts IH]; [done|]. rewrite !count_cons.
  destruct ph; cbn [committed holds]; lia.
Qed.

(** What a task about to push holds is reusable. *)
Definition good_phase (ph : Phase) : Prop :=
  match ph with
  | Dropping i => BoltConnection.is_reusable (idle_conn i) = true
  | _ => True
  end.

Definition pool_size (s : System) : nat := (max_size (config (sys_pool s)) `max` 1)%nat.

Definition invariant (s : System) : Prop :=
  (permits (sys_pool s) + count holds (tasks s) = pool_size s)%nat ∧
  (length (idle (sys_pool s)) + count committed (tasks s) ≤ pool_size s)%nat ∧
  Forall (λ i, BoltConnection.is_reusable (idle_conn i) = true) (idle (sys_pool s)) ∧
  Forall good_phase (tasks s).

Lemma pop_parts p i p' :
  pop p = Some (i, p') →
  config p' = config p ∧ permits p' = permits p ∧ idle p = idle p' ++ [i].
Proof. intros (? & _ & ? & ? & _)%pop_Some. done. Qed.

Definition weight (f : Phase → bool) (ph : option Phase) : nat :=
  match ph with Some ph => if f ph then 1 else 0 | None => 0 end.

(** The balance of one task's step. *)
Lemma task_step_balance now p ph p' ph' :
  task_step now p ph p' ph' →
  config p' = config p ∧
  (permits p' + weight holds ph' = permits p + weight holds (Some ph))%nat ∧
  ((length (idle p') + weight committed ph' ≤ length (idle p) + weight committed (Some ph))%nat ∨
   (idle p' = [] ∧ weight committed ph' = 1%nat)) ∧
  (Forall (λ i, BoltConnection.is_reusable (idle_conn i) = true) (idle p) → good_phase ph →
   Forall (λ i, BoltConnection.is_reusable (idle_conn i) = true) (idle p') ∧
   match ph' with Some ph' => good_phase ph' | None => True end).
Proof.
  intros Hs; task_step_cases Hs;
    try (cbn; split_and!; [done|lia|left; lia|done]).
  - destruct p. cbn in *. split_and!; [done|lia|left; lia|done].
  - apply pop_parts in Hp as (? & -> & Hi). rewrite Hi. cbn. rewrite length_app.
    split_and!; [done|lia|left; lia|]. rewrite Forall_app. naive_solver.
  - apply pop_parts in Hp as (? & -> & Hi). rewrite Hi. cbn. rewrite length_app.
    split_and!; [done|lia|left; lia|]. rewrite Forall_app. naive_solver.
  - apply pop_parts in Hp as (? & -> & Hi). rewrite Hi. cbn. rewrite length_app. cbn.
    split_and!; [done|lia|left; lia|]. rewrite Forall_app. naive_solver.
  - apply pop_None in Hp. cbn. split_and!; [done|lia|by right|done].
  - cbn. apply andb_true_iff in Hk as [Hk _]. split_and!; [done|lia|left; lia|done].
  - destruct p. cbn. rewrite length_app. cbn. split_and!; [done|lia|left; lia|].
    intros. split; [|done]. by apply Forall_app_2; [|constructor].
  - destruct p. cbn. split_and!; [done|lia|left; lia|done].
Qed.

Lemma count_option f ts1 ph ts2 :
  count f (ts1 ++ option_list ph ++ ts2) = (count f ts1 + weight f ph + count f ts2)%nat.
Proof.
  rewrite !count_app. destruct ph as [ph|]; cbn [option_list weight]; [|cbn; lia].
  change (option_list (Some ph)) with [ph]. rewrite count_cons. cbn. lia.
Qed.

Lemma invariant_step s s' : step s s' → invariant s → invariant s'.
Proof.
  unfold invariant, pool_size.
  destruct 1 as [p now ts1 ph ts2 p' ph' Hs|p now ts1 ts2|p now ts|p now ts Hc|p now d ts];
    cbn [sys_pool tasks]; intros (Hp & Hi & Hr & Hg).
  - apply task_step_balance in Hs as (Hcfg & Hperm & Hidle & Hgood). rewrite Hcfg.
    apply Forall_app in Hg as [Hg1 [Hg Hg2]%Forall_cons].
    destruct (Hgood Hr Hg) as [Hr' Hg'].
    pose proof (count_le (ts1 ++ option_list ph' ++ ts2)) as Hle.
    change (ph :: ts2) with (option_list (Some ph) ++ ts2) in Hp, Hi.
    rewrite count_option in Hp, Hi. rewrite !count_option in *. split_and!; [lia| |done|].
    + destruct Hidle as [?|[Hn Hw]]; [lia|]. rewrite Hn. cbn [length]. lia.
    + rewrite !Forall_app. split_and!; [done| |done]. destruct ph'; cbn; [|constructor].
      by constructor.
  - rewrite !count_app, !count_cons in *. cbn in *. split_and!; [lia|lia|done|].
    apply Forall_app in Hg as [? ?]. apply Forall_app_2; [done|]. by constructor.
  - destruct p. done.
  - destruct p. cbn in *. split_and!; [done|lia|constructor|done].
  - done.
Qed.

Lemma invariant_start cfg now : invariant (start cfg now).
Proof. unfold invariant, pool_size. cbn. split_and!; [lia|lia|constructor|constructor]. Qed.

Lemma step_config s s' : step s s' → config (sys_pool s') = config (sys_pool s).
Proof.
  destruct 1 as [p now ts1 ph ts2 p' ph' Hs|p now ts1 ts2|p now ts|p now ts Hc|p now d ts]; cbn.
  - by apply task_step_balance in Hs as (? & _).
  - done.
  - by destruct p.
  - by destruct p.
  - done.
Qed.

Lemma invariant_reachable cfg now s :
  rtc step (start cfg now) s → pool_size s = (max_size cfg `max` 1)%nat ∧ invariant s.
Proof.
  revert s. apply rtc_ind_r; [split; [done|apply invariant_start]|].
  intros s s' _ Hs [Hsize Hinv]. split; [|by eapply invariant_step].
  unfold pool_size in *. by rewrite (step_config _ _ Hs).
Qed.

(** ** Properties *)

(** C19: the pool's bound. In every state the tasks can reach, in any
    interleaving and with any factory, peers and timing: permits free and held
    add up to the size; idle connections and connections checked out, being
    probed, made or given back are together at most that size; and every idle
    connection is intact and owes no reply. *)
Theorem pool_bounded cfg now s :
  rtc step (start cfg now) s →
  (permits (sys_pool s) + count holds (tasks s) = max_size cfg `max` 1)%nat ∧
  (length (idle (sys_pool s)) + count committed (tasks s) ≤ max_size cfg `max` 1)%nat ∧
  Forall (λ i, BoltConnection.is_reusable (idle_conn i) = true) (idle (sys_pool s)).
Proof.
  intros (Hsize & ? & ? & ? & _)%invariant_reachable. by rewrite <- Hsize.
Qed.

(** Closed, drained, and no task past the check of [Drop]. *)
Definition drained (s : System) : Prop :=
  closed (sys_pool s) = true ∧ idle (sys_pool s) = [] ∧
  Forall (λ ph, match ph with Dropping _ => False | _ => True end) (tasks s).

Lemma drained_step s s' : step s s' → drained s → drained s'.
Proof.
  destruct 1 as [p now ts1 ph ts2 p' ph' Hs|p now ts1 ts2|p now ts|p now ts Hc|p now d ts];
    intros (Hcl & Hi & Ht); cbn [sys_pool tasks] in *.
  - apply Forall_app in Ht as [Ht1 [Ht Ht2]%Forall_cons].
    assert (closed p' = true ∧ idle p' = [] ∧
      Forall (λ ph, match ph with Dropping _ => False | _ => True end) (option_list ph'))
      as (? & ? & ?); [|unfold drained; cbn [sys_pool tasks]; by rewrite !Forall_app].
    assert (∀ i q, pop p ≠ Some (i, q)) as Hpop.
    { intros i q (He & _)%pop_Some. rewrite Hi in He. by destruct (idle q). }
    task_step_cases Hs;
      try done; try (exfalso; by eapply Hpop); try (destruct p; cbn in *; by split_and!; repeat constructor).
    exfalso. unfold keeps_on_drop, is_closed in Hk. rewrite Hcl, andb_false_r in Hk. done.
  - split_and!; [done..|]. apply Forall_app in Ht as [? ?]. apply Forall_app_2; [done|]. by constructor.
  - by destruct p.
  - by destruct p.
  - done.
Qed.

(** A closed pool stays empty. Once [close] has drained the idle list, and
    with no connection's [Drop] caught between its check and its push, no
    interleaving puts a connection back: each one still checked out is closed
    when it comes back. *)
Lemma closed_pool_empty s s' : rtc step s s' → drained s → drained s'.
Proof. induction 1 as [|s1 s2 s3 H12 _ IH]; [done|]. intros ?. by eapply IH, drained_step. Qed.

(** The state [close] leaves when nothing runs between its two parts. *)
Definition after_close (s : System) : System :=
  mk_system (close_pool (sys_pool s)) (sys_now s) (tasks s).

(** The race that proviso is about. The drop of a connection checks for
    closing before it takes the lock of the idle list to push: when [close]
    runs whole in between, the pool ends closed, with no task left and the
    connection, still open, idle in it. *)
Lemma close_race cfg now c :
  BoltConnection.is_reusable c = true →
  ∃ s0 s1, rtc step (start cfg now) s0 ∧ rtc step s0 (after_close s0) ∧
    rtc step (after_close s0) s1 ∧ tasks s1 = [] ∧ closed (sys_pool s1) = true ∧
    idle (sys_pool s1) = [mk_idle c now now].
Proof.
  intros Hr. set (n := (max_size cfg `max` 1)%nat).
  set (i := mk_idle c now now). set (full := mk_pool cfg [] n false None).
  set (out := mk_pool cfg [] (pred n) false None).
  assert (∀ p p' ph ph', task_step now p ph p' ph' →
    step (mk_system p now [ph]) (mk_system p' now (option_list ph' ++ []))) as Htask.
  { intros p p' ph ph' Ht. by apply (step_task p now [] ph [] p' ph'). }
  exists (mk_system out now [Dropping i]).
  exists (mk_system (mk_pool cfg [i] (S (pred n)) true None) now []). split_and!; [| | |done..].
  - apply (rtc_l _ _ (mk_system full now [Waiting])); [apply (step_get _ _ [])|].
    eapply rtc_l; [apply Htask, (acquire_permit _ _ (pred n)); [done|cbn; lia]|].
    eapply rtc_l; [by apply Htask, pop_empty|]. eapply rtc_l; [apply Htask, (mint_ok _ _ c)|].
    apply rtc_once. apply (Htask out out (Using c now) (Some (Dropping i))), drop_keeps.
    unfold keeps_on_drop. by rewrite Hr.
  - eapply rtc_l; [apply step_close|]. apply rtc_once. by apply step_drain.
  - set (closed_out := set_closed true out).
    eapply rtc_l; [apply (Htask closed_out (push i closed_out) (Dropping i) (Some Releasing)), drop_pushes|].
    apply rtc_once.
    apply (Htask (push i closed_out) (release (push i closed_out)) Releasing None), drop_releases.
Qed.

End steps.

(** ** Witnesses *)

(** A task has the connection, another is between the check and the push. *)
Definition busy : System :=
  mk_system (mk_pool default_pool_config [] 6 false None) 5
    [Using (waiting false 0 [] 0) 3; Dropping (mk_idle (waiting false 0 [] 0) 2 5)].

Lemma busy_reachable : rtc (@step listing_order) (start default_pool_config 0) busy.
Proof.
  set (c := waiting false 0 [] 0). set (cfg := default_pool_config).
  set (p n := mk_pool cfg [] n false None).
  apply (rtc_l _ _ (mk_system (p 8%nat) 2 [])); [apply (step_time (p 8%nat) 0 2)|].
  eapply rtc_l; [apply (step_get _ _ [])|].
  eapply rtc_l; [apply (step_task _ _ [] Waiting []), (acquire_permit _ _ 7); reflexivity|].
  eapply rtc_l; [by apply (step_task _ _ [] Acquired []), pop_empty|].
  eapply rtc_l; [apply (step_task _ _ [] Minting []), (mint_ok _ _ c)|].
  eapply rtc_l; [apply (step_time _ _ 1)|].
  eapply rtc_l; [apply (step_get _ _ [])|].
  eapply rtc_l; [apply (step_task _ _ [] Waiting), (acquire_permit _ _ 6); reflexivity|].
  eapply rtc_l; [by apply (step_task _ _ [] Acquired), pop_empty|].
  eapply rtc_l; [apply (step_task _ _ [] Minting), (mint_ok _ _ c)|].
  eapply rtc_l; [apply (step_time _ _ 2)|].
  apply rtc_once.
  apply (step_task (p 6%nat) 5 [Using c 3] (Using c 2) [] _ (Some (Dropping (mk_idle c 2 5)))).
  by apply drop_keeps.
Qed.

Lemma pool_bounded_witness :
  (permits (sys_pool busy) + count holds (tasks busy) = 8)%nat ∧
  (length (idle (sys_pool busy)) + count committed (tasks busy) ≤ 8)%nat ∧
  Forall (λ i, BoltConnection.is_reusable (idle_conn i) = true) (idle (sys_pool busy)).
Proof. exact (@pool_bounded listing_order default_pool_config 0%N busy busy_reachable). Defined.
