(* ===== verification/PoolProgress.v ===== *)
(** * Progress of the pool's tasks

    [PoolConcurrency] says what no interleaving of the tasks can break; this
    file says what every interleaving gets done. A measure on the system
    decreases with every step a task takes on its own, whatever other tasks,
    [close] and time do in between, and a task at work, or waiting for a permit,
    can always take such a step or wait for one that can: so when callers keep
    what they must (give back what they checked out) everything returns. *)

From S2P Require Import Prelude Value Message Error Transport Connection Receive Exchange Safety.
From S2P Require Import Guarantees Pool PoolConcurrency.

(** ** The measure *)

Local Open Scope nat_scope.

(** How many steps the task has left, when it finds no idle connection. *)
Definition steps_left (ph : Phase) : nat :=
  match ph with
  | Waiting => 9
  | Probing _ => 8
  | Acquired => 7
  | Minting => 6
  | Using _ _ => 5
  | Dropping _ => 4
  | Releasing => 1
  end.

Definition left_after (ph : option Phase) : nat := from_option steps_left 0 ph.

Definition total_left (ts : list Phase) : nat := sum_list_with steps_left ts.

(** An idle connection is worth the two steps of popping and probing it. *)
Definition rank (s : System) : nat := total_left (tasks s) + 2 * length (idle (sys_pool s)).

(** The step is the user's own: the connection in use goes on being used. *)
Definition by_user (ph : Phase) (ph' : option Phase) : bool :=
  match ph, ph' with Using _ _, Some (Using _ _) => true | _, _ => false end.

(** The task stops waiting because its caller dropped the checkout, not because
    the pool closed. *)
Definition gives_up (p : Pool) (ph : Phase) (ph' : option Phase) : bool :=
  match ph, ph' with Waiting, None => negb (closed p) | _, _ => false end.

Lemma total_left_option ts1 ph ts2 :
  total_left (ts1 ++ option_list ph ++ ts2) = total_left ts1 + left_after ph + total_left ts2.
Proof.
  unfold total_left. rewrite !sum_list_with_app. destruct ph; cbn; lia.
Qed.

Section progress.
Context {hash : HashIter}.

(** Every step of a task but the user's own makes it shorter. *)
Lemma task_step_left now p ph p' ph' :
  task_step now p ph p' ph' →
  (left_after ph' + 2 * length (idle p') + (if by_user ph ph' then 0 else 1)
   ≤ steps_left ph + 2 * length (idle p))%nat.
Proof.
  intros Hs; task_step_cases Hs;
    try (apply pop_parts in Hp as (_ & _ & ->); rewrite length_app); destruct p; cbn;
    rewrite ?length_app; cbn; lia.
Qed.

(** ** Runs *)

(** [run s n g s']: any interleaving from [s] to [s'] in which the tasks take
    [n] steps of their own, not counting the users', and [g] checkouts begin. *)
Inductive run : System → nat → nat → System → Prop :=
| run_nil s : run s 0 0 s
| run_task p now ts1 ph ts2 p' ph' n g s :
    task_step now p ph p' ph' →
    run (mk_system p' now (ts1 ++ option_list ph' ++ ts2)) n g s →
    run (mk_system p now (ts1 ++ ph :: ts2)) ((if by_user ph ph' then 0 else 1) + n) g s
| run_get p now ts1 ts2 n g s :
    run (mk_system p now (ts1 ++ Waiting :: ts2)) n g s → run (mk_system p now (ts1 ++ ts2)) n (S g) s
| run_close p now ts n g s :
    run (mk_system (set_closed true p) now ts) n g s → run (mk_system p now ts) n g s
| run_drain p now ts n g s :
    closed p = true →
    run (mk_system (set_idle [] p) now ts) n g s → run (mk_system p now ts) n g s
| run_time p now d ts n g s :
    run (mk_system p (now + d)%N ts) n g s → run (mk_system p now ts) n g s.

(** Every interleaving is a run. *)
Lemma run_of_steps s s' : rtc step s s' → ∃ n g, run s n g s'.
Proof.
  induction 1 as [s|s1 s2 s3 H12 _ (n & g & IH)]; [exists 0, 0; constructor|].
  destruct H12; eauto using run.
Qed.

Lemma run_bounded s n g s' : run s n g s' → (n + rank s' ≤ rank s + 9 * g)%nat.
Proof.
  unfold rank.
  induction 1 as [s|p now ts1 ph ts2 p' ph' n g s Hs _ IH|p now ts1 ts2 n g s _ IH|p now ts n g s _ IH
    |p now ts n g s Hc _ IH|p now d ts n g s _ IH]; cbn [tasks sys_pool] in *.
  - lia.
  - apply task_step_left in Hs. change (ph :: ts2) with (option_list (Some ph) ++ ts2).
    rewrite total_left_option in *. cbn [left_after from_option] in *. lia.
  - unfold total_left in *. rewrite sum_list_with_app in *. cbn in IH. lia.
  - by destruct p.
  - destruct p. cbn in *. lia.
  - done.
Qed.

(** ** Schedules with the pool left to itself *)

(** A step of a task that is neither its user's own nor a checkout given up. *)
Inductive serve : System → System → Prop :=
| serve_task p now ts1 ph ts2 p' ph' :
    task_step now p ph p' ph' → by_user ph ph' = false → gives_up p ph ph' = false →
    serve (mk_system p now (ts1 ++ ph :: ts2)) (mk_system p' now (ts1 ++ option_list ph' ++ ts2)).

Lemma serve_step s s' : serve s s' → step s s'.
Proof. destruct 1. by constructor. Qed.

Lemma serve_rank s s' : serve s s' → rank s' < rank s.
Proof.
  destruct 1 as [p now ts1 ph ts2 p' ph' Hs Hu _]. unfold rank. cbn [tasks sys_pool].
  apply task_step_left in Hs. rewrite Hu in Hs. change (ph :: ts2) with (option_list (Some ph) ++ ts2).
  rewrite !total_left_option. cbn [left_after from_option] in *. lia.
Qed.

Lemma serve_wf : well_founded (flip serve).
Proof.
  apply (wf_projected lt rank); [|exact lt_wf]. intros s2 s1 H. by apply serve_rank.
Qed.

(** The step to take is the one the rule allows. *)
Ltac moves rule := eexists _, _; split_and!; [eapply rule| |].

(** A task that holds a permit can go on, whatever the state of the pool. *)
Lemma holder_moves now p ph :
  holds ph = true →
  ∃ p' ph', task_step now p ph p' ph' ∧ by_user ph ph' = false ∧ gives_up p ph ph' = false.
Proof.
  destruct ph as [| |i| |c t|i|]; intros Hh; try done.
  - destruct (pop p) as [[i p']|] eqn:Hp; [|by moves pop_empty].
    destruct (expired (config p) now (idle_created_at i) (idled_at i)) eqn:He; [by moves pop_expired|].
    destruct (BoltConnection.is_reusable (idle_conn i)) eqn:Hu;
      [by moves pop_probe|by moves pop_unusable].
  - by moves probe_dropped.
  - by moves mint_failed.
  - destruct (keeps_on_drop p c) eqn:Hk; [by moves drop_keeps|by moves drop_discards].
  - by moves drop_pushes.
  - by moves drop_releases.
Qed.

(** A waiting task can go on when a permit is free or the pool closed. *)
Lemma waiter_moves now p :
  permits p ≠ 0 →
  ∃ p' ph', task_step now p Waiting p' ph' ∧ gives_up p Waiting ph' = false.
Proof.
  intros Hp. destruct (closed p) eqn:Hc.
  - exists p, None. split; [by apply acquire_closed|]. cbn. by rewrite Hc.
  - destruct (permits p) as [|n] eqn:Hn; [done|]. eexists _, _. by split; [apply acquire_permit|].
Qed.

(** No deadlock. *)
Lemma serve_possible s : invariant s → tasks s ≠ [] → ∃ s', serve s s'.
Proof.
  destruct s as [p now ts]. unfold invariant, pool_size. cbn [sys_pool tasks]. intros (Hp & _) Hts.
  destruct (decide (Exists (λ ph, holds ph = true) ts)) as [He|Hw%not_Exists_Forall].
  - apply Exists_exists in He as (ph & (ts1 & ts2 & ->)%list_elem_of_split & Hh).
    destruct (holder_moves now p ph Hh) as (p' & ph' & ? & ? & ?). eexists. by apply serve_task.
  - assert (count holds ts = 0) as Hzero.
    { clear Hts Hp. induction Hw as [|ph ts Hph _ IH]; [done|]. rewrite count_cons, IH.
      destruct (holds ph) eqn:E; [by destruct (Hph E)|done]. }
    destruct ts as [|ph ts]; [done|]. apply Forall_cons in Hw as [Hph _].
    assert (ph = Waiting) as -> by (destruct ph; done || by destruct (Hph eq_refl)).
    destruct (waiter_moves now p) as (p' & ph' & Hs & Hg); [lia|].
    eexists. by apply (serve_task p now [] Waiting ts p' ph').
  - intros ph. apply _.
Qed.

Lemma count_holds_nil s : tasks s = [] → count holds (tasks s) = 0.
Proof. by intros ->. Qed.

(** ** Properties *)

(** C20: the pool's tasks all get done. From any state the tasks can reach: in
    whatever interleaving with other tasks, users, closing and time, the tasks take
    no more steps of their own than the measure allows (nine for each checkout
    begun since, two for each idle connection), so no checkout spins over the
    idle list; once callers only give back what they hold and abandon no wait,
    every schedule ends, and it ends only with every task finished and every
    permit free again: no deadlock, no permit lost, no checkout left waiting. *)
Theorem tasks_complete cfg now s :
  rtc step (start cfg now) s →
  (∀ n g s', run s n g s' → n ≤ rank s + 9 * g) ∧
  sn serve s ∧
  (∀ s', rtc serve s s' → nf serve s' →
    tasks s' = [] ∧ permits (sys_pool s') = max_size cfg `max` 1).
Proof.
  intros Hs. split_and!; [|exact (serve_wf s)|].
  - intros n g s' Hr%run_bounded. lia.
  - intros s' Hs' Hnf. assert (rtc step (start cfg now) s') as Hr.
    { clear Hnf. revert Hs. induction Hs' as [|s1 s2 s3 H12 _ IH]; intros Hs; [done|].
      by eapply IH, rtc_r, serve_step. }
    apply invariant_reachable in Hr as [Hsize Hinv].
    destruct (decide (tasks s' = [])) as [Ht|Ht].
    + destruct Hinv as (Hp & _). rewrite (count_holds_nil _ Ht) in Hp. split; [done|lia].
    + destruct Hnf. by apply serve_possible.
Qed.

End progress.

(** ** Witnesses *)

(** The pool of [busy], with a connection checked out, one about to be pushed:
    nine steps
    are left, of which these five run it down. *)
Lemma busy_serves :
  let c := waiting false 0 [] 0 in
  rtc (@serve listing_order) busy
    (mk_system (mk_pool default_pool_config [mk_idle c 3 5; mk_idle c 2 5] 8 false None) 5 []).
Proof.
  intros c. set (p l n := mk_pool default_pool_config l n false None).
  set (i := mk_idle c 2 5). set (i' := mk_idle c 3 5).
  apply (rtc_l _ _ (mk_system (p [] 6) 5 [Dropping i'; Dropping i])).
  { apply (serve_task (p [] 6) 5 [] (Using c 3) [Dropping i] (p [] 6) (Some (Dropping i')));
      [by apply drop_keeps|done..]. }
  apply (rtc_l _ _ (mk_system (p [i'] 6) 5 [Releasing; Dropping i])).
  { apply (serve_task (p [] 6) 5 [] (Dropping i') [Dropping i] (push i' (p [] 6)) (Some Releasing));
      [by apply drop_pushes|done..]. }
  apply (rtc_l _ _ (mk_system (p [i'] 7) 5 [Dropping i])).
  { apply (serve_task (p [i'] 6) 5 [] Releasing [Dropping i] (release (p [i'] 6)) None);
      [by apply drop_releases|done..]. }
  apply (rtc_l _ _ (mk_system (p [i'; i] 7) 5 [Releasing])).
  { apply (serve_task (p [i'] 7) 5 [] (Dropping i) [] (push i (p [i'] 7)) (Some Releasing));
      [by apply drop_pushes|done..]. }
  apply rtc_once.
  apply (serve_task (p [i'; i] 7) 5 [] Releasing [] (release (p [i'; i] 7)) None);
    [by apply drop_releases|done..].
Qed.

(** With no task there is nothing to do. *)
Lemma idle_pool_rests p now : nf (@serve listing_order) (mk_system p now []).
Proof.
  intros [s' Hs]. inversion Hs as [? ? ts1 ph ts2 ? ? ? ? ? He]. by destruct ts1.
Qed.

Lemma tasks_complete_witness :
  let c := waiting false 0 [] 0 in
  let s' := mk_system (mk_pool default_pool_config [mk_idle c 3 5; mk_idle c 2 5] 8 false None) 5 [] in
  (∀ n g s', @run listing_order busy n g s' → n ≤ 9 + 9 * g) ∧
  sn (@serve listing_order) busy ∧ tasks s' = [] ∧ permits (sys_pool s') = 8.
Proof.
  intros c s'.
  pose proof (@tasks_complete listing_order default_pool_config 0%N busy busy_reachable) as (? & ? & H).
  split_and!; [done..| |]; apply (H s'); (exact busy_serves || exact (idle_pool_rests _ _)).
Defined.
