(* ===== verification/Routed.v ===== *)
(** * The routed pool ([routed.rs])

    The cluster's routing table and its refresh, one pool per server, the
    choice of a server, and managed transactions with their retries and
    bookmarks, as one task runs them.

    A [Pool] is shared by its clones: the pool of a server and the connections
    checked out of it share a [PoolInner], so pools live in an arena and the
    map of pools, like a checked-out connection, holds an index into it. The
    [connect] function is the caller's: what its successive calls come to is a
    script, and the addresses it was given are logged. *)

From S2P Require Import Prelude Utf8 Text Value Message Error Routing Transport Connection Session.
From S2P Require Import Receive Exchange Safety Uri Pool.

Definition RETRY_ATTEMPTS : N := 3.

(** Cluster reshaped under us. *)
Definition cluster_moved (e : BoltError) : bool :=
  match e with
  | BoltError.Failure code _ => contains "NotALeader" code || contains "ForbiddenOnFollower" code
  | _ => false
  end.

(** [is_transient] of [routed.rs] *)
Definition worth_retrying (e : BoltError) : bool := is_transient e || cluster_moved e.

Inductive AccessMode := Read | Write.

#[export] Instance AccessMode_eq_dec : EqDecision AccessMode.
Proof. solve_decision. Defined.

(** [{mode:?}] *)
Definition mode_name (mode : AccessMode) : string :=
  match mode with Read => "Read" | Write => "Write" end.

Module RoutedPool.

(** [Inner] and its [State]; the first four fields never change. *)
Record t := mk {
  seeds : list string;
  db : option string;
  max_per_host : nat;
  table : RoutingTable;
  fetched_at : option Instant;
  pools : HashMap nat;
  rr : AccessMode → N;
  bookmarks : list string;
  closed : bool;
  (* the pools there are, the clock, what [connect] will come to, and its log *)
  arena : list Pool;
  clock : Instant;
  connects : list (Outcome BoltError BoltConnection.t);
  dialled : list string;
}.

Definition set_table (x : RoutingTable) (r : t) : t :=
  let '(mk se d m _ f p n b c a k o l) := r in mk se d m x f p n b c a k o l.
Definition set_fetched_at (x : option Instant) (r : t) : t :=
  let '(mk se d m ta _ p n b c a k o l) := r in mk se d m ta x p n b c a k o l.
Definition set_pools (x : HashMap nat) (r : t) : t :=
  let '(mk se d m ta f _ n b c a k o l) := r in mk se d m ta f x n b c a k o l.
Definition set_rr (x : AccessMode → N) (r : t) : t :=
  let '(mk se d m ta f p _ b c a k o l) := r in mk se d m ta f p x b c a k o l.
Definition set_bookmarks (x : list string) (r : t) : t :=
  let '(mk se d m ta f p n _ c a k o l) := r in mk se d m ta f p n x c a k o l.
Definition set_closed (x : bool) (r : t) : t :=
  let '(mk se d m ta f p n b _ a k o l) := r in mk se d m ta f p n b x a k o l.
Definition set_arena (x : list Pool) (r : t) : t :=
  let '(mk se d m ta f p n b c _ k o l) := r in mk se d m ta f p n b c x k o l.
Definition set_clock (x : Instant) (r : t) : t :=
  let '(mk se d m ta f p n b c a _ o l) := r in mk se d m ta f p n b c a x o l.
Definition set_connects (x : list (Outcome BoltError BoltConnection.t)) (r : t) : t :=
  let '(mk se d m ta f p n b c a k _ l) := r in mk se d m ta f p n b c a k x l.
Definition set_dialled (x : list string) (r : t) : t :=
  let '(mk se d m ta f p n b c a k o _) := r in mk se d m ta f p n b c a k o x.

Definition R (A : Type) : Type := M t BoltError A.

Definition empty_table : RoutingTable := mk_table 0 None [] [] [].

(** [RoutedPool::new] *)
Definition new (seeds : list string) (db : option string) (max_per_host : nat) (clock : Instant)
    (connects : list (Outcome BoltError BoltConnection.t)) : t :=
  mk seeds db max_per_host empty_table None ∅ (λ _, 0%N) [] false [] clock connects [].

Definition is_closed (r : t) : bool := closed r.

(** The outcome of a computation on other state. *)
Definition from_outcome {A} (o : Outcome BoltError A) : R A := λ r, (o, r).

(** [(self.inner.connect)(addr).await] *)
Definition connect (addr : string) : R BoltConnection.t := λ r,
  let r' := set_dialled (dialled r ++ [addr]) r in
  match connects r with
  | [] => (Suspended, r')
  | o :: os => (o, set_connects os r')
  end.

Section operations.
Context {hash : HashIter}.
(** The delay of the backoff with so many attempts, as in [Pool]. *)
Context (delay : N → N → option Duration).

(** ** The routing table *)

(** The connection is dropped, or closed best effort. *)
Definition route_via (addr : string) : R RoutingTable :=
  let! conn := connect addr in
  let! db := gets db in
  match BoltConnection.route ∅ db conn with
  | (Ok table, conn) =>
      match BoltConnection.close conn with
      | (Ok _, _) | (Err _, _) => ret table
      | (Panic, _) => panic
      | (Suspended, _) => suspend
      | (OutOfFuel, _) => out_of_fuel
      end
  | (o, _) => from_outcome o
  end.

(** The loop of [refresh] over the candidates left. *)
Fixpoint ask_routers (candidates : list string) (last_err : BoltError) : R RoutingTable :=
  match candidates with
  | [] => throw last_err
  | addr :: candidates =>
      let! answer := attempt (route_via addr) in
      match answer with
      | inr table =>
          do! modify (set_table table) in
          do! modify (λ r, set_fetched_at (Some (clock r)) r) in
          ret table
      | inl e => ask_routers candidates e
      end
  end.

Definition refresh : R RoutingTable :=
  let! candidates := gets (λ r, routers (table r) ++ seeds r) in
  ask_routers candidates (BoltError.Closed "no routers to ask").

(** [Instant::elapsed().as_secs()], with the clock in milliseconds; a negative
    TTL does not convert to a [u64]. *)
Definition stale (r : t) : bool :=
  match fetched_at r with
  | None => true
  | Some at_ => (Z.to_N (ttl_seconds (table r)) <=? (clock r - at_) / 1000)%N
  end.

Definition ensure_fresh : R unit :=
  let! s := gets stale in
  if s : bool then do! refresh in ret tt else ret tt.

(** [RoutedPool::table] *)
Definition fresh_table : R RoutingTable := do! ensure_fresh in gets table.

(** ** The servers' pools *)

(** [pools.entry(addr).or_insert_with(..)], as an index. *)
Definition pool_for (addr : string) : R nat := λ r,
  match pools r !! addr with
  | Some ptr => (Ok ptr, r)
  | None =>
      let ptr := length (arena r) in
      (Ok ptr, set_pools (<[addr := ptr]> (pools r))
        (set_arena (arena r ++ [new_pool (max_per_host r)]) r))
  end.

(** A checkout, by [get], of a pool whose factory connects to [addr]. *)
Definition checkout_from (get : P PooledConnection) (ptr : nat) (addr : string)
    : R PooledConnection := λ r,
  match arena r !! ptr with
  | None => (Panic, r)
  | Some p =>
      let '(o, w) := get (mk_world p (clock r) (connects r)) in
      let calls := (length (connects r) - length (results w))%nat in
      (o, set_dialled (dialled r ++ replicate calls addr) (set_connects (results w)
        (set_clock (now w) (set_arena (<[ptr := pool w]> (arena r)) r))))
  end.

Definition get_from (ptr : nat) (addr : string) : R PooledConnection :=
  checkout_from (Pool.get delay) ptr addr.

Definition evict (addr : string) : R unit :=
  modify (λ r, set_pools (delete addr (pools r)) (set_table (Routing.remove addr (table r)) r)).

(** A checked-out connection with the pool it goes back to, and its [Drop]. *)
Definition Checkout : Type := nat * PooledConnection.

Definition give_back (ptr : nat) (pc : PooledConnection) (r : t) : t :=
  set_arena (alter (drop_pooled (clock r) pc) ptr (arena r)) r.

(** ** Choosing a server *)

Definition role (mode : AccessMode) (ta : RoutingTable) : list string :=
  match mode with Read => readers ta | Write => writers ta end.

(** [fetch_add(1)], which wraps. *)
Definition next_start (mode : AccessMode) : R N := λ r,
  (Ok (rr r mode),
   set_rr (λ m, if decide (m = mode) then ((rr r mode + 1) mod 2 ^ 64)%N else rr r m) r).

(** The turns [i] left of the loop over [addrs]; [start + i] wraps too, as in a
    release build. *)
Fixpoint try_servers (addrs : list string) (start : N) (turns : list nat) : R (option Checkout) :=
  match turns with
  | [] => ret None
  | i :: turns =>
      let at_ := ((start + N.of_nat i) mod 2 ^ 64 mod N.of_nat (length addrs))%N in
      match addrs !! N.to_nat at_ with
      | None => panic
      | Some addr =>
          let! ptr := pool_for addr in
          let! result := attempt (get_from ptr addr) in
          match result with
          | inr conn => ret (Some (ptr, conn))
          | inl e =>
              if negb (is_transient e) then throw e
              else do! evict addr in try_servers addrs start turns
          end
      end
  end.

Definition freshen (lap : nat) : R unit :=
  if decide (0 < lap)%nat then do! refresh in ret tt else ensure_fresh.

Definition try_lap (mode : AccessMode) (lap : nat) : R (option Checkout) :=
  do! freshen lap in
  let! addrs := gets (λ r, role mode (table r)) in
  if decide (addrs = []) then ret None
  else
    let! start := next_start mode in
    try_servers addrs start (seq 0 (length addrs)).

Fixpoint try_laps (mode : AccessMode) (laps : list nat) : R Checkout :=
  match laps with
  | [] => throw (BoltError.Closed ("no reachable " +:+ mode_name mode +:+ " server"))
  | lap :: laps =>
      let! found := try_lap mode lap in
      match found with
      | Some conn => ret conn
      | None => try_laps mode laps
      end
  end.

Definition acquire (mode : AccessMode) : R Checkout :=
  let! c := gets is_closed in
  if c : bool then throw (BoltError.Closed "pool closed") else try_laps mode (seq 0 2).

Definition read : R Checkout := acquire Read.
Definition write : R Checkout := acquire Write.

(** [RoutedPool::close]: every pool of the map is closed and leaves it. *)
Definition close : R unit :=
  do! modify (set_closed true) in
  let! ptrs := gets (λ r, (hash_iter (pools r)).*2) in
  do! modify (set_pools ∅) in
  modify (λ r, set_arena (foldl (λ a ptr, alter close_pool ptr a) (arena r) ptrs) r).

(** ** Managed transactions *)

(** Merge a commit's bookmark: at most the last sixteen are kept. *)
Definition push_bookmark (bookmark : string) (bs : list string) : list string :=
  if decide (bookmark ∈ bs) then bs
  else let bs := bs ++ [bookmark] in skipn (length bs - 16) bs.

Section managed.
Context {A : Type}.

(** One managed transaction on a connection: its value and bookmark, and the
    connection with the transaction dropped, whatever came of it. *)
Definition managed (opts : TxOptions) (work : Transaction.T A) (c : BoltConnection.t)
    : Outcome BoltError (A * option string) * BoltConnection.t :=
  match begin_with opts c with
  | (Ok tx, _) =>
      match work tx with
      | (Ok v, tx) =>
          match Transaction.commit tx with
          | (Ok b, c) => (Ok (v, b), c)
          | (Err e, c) => (Err e, c)
          | (Panic, c) => (Panic, c)
          | (Suspended, c) => (Suspended, c)
          | (OutOfFuel, c) => (OutOfFuel, c)
          end
      | (Err e, tx) =>
          match Transaction.rollback tx with
          | (Ok _, c) | (Err _, c) => (Err e, c)
          | (Panic, c) => (Panic, c)
          | (Suspended, c) => (Suspended, c)
          | (OutOfFuel, c) => (OutOfFuel, c)
          end
      | (Panic, tx) => (Panic, Transaction.drop tx)
      | (Suspended, tx) => (Suspended, Transaction.drop tx)
      | (OutOfFuel, tx) => (OutOfFuel, Transaction.drop tx)
      end
  | (Err e, c) => (Err e, c)
  | (Panic, c) => (Panic, c)
  | (Suspended, c) => (Suspended, c)
  | (OutOfFuel, c) => (OutOfFuel, c)
  end.

Definition tx_options (mode : AccessMode) (r : t) : TxOptions :=
  mk_options (db r) (bool_decide (mode = Read)) None (bookmarks r) ∅.

(** [conn.begin_with(..)] derefs the checkout; it is dropped on every exit. *)
Definition try_once (mode : AccessMode) (work : Transaction.T A) : R A :=
  let! '(ptr, pc) := acquire mode in
  match pooled_conn pc with
  | None => panic
  | Some c => λ r,
      let '(o, c) := managed (tx_options mode r) work c in
      let r := match o with
               | Ok (_, Some b) => set_bookmarks (push_bookmark b (bookmarks r)) r
               | _ => r
               end in
      (match o with
       | Ok (v, _) => Ok v
       | Err e => Err e
       | Panic => Panic
       | Suspended => Suspended
       | OutOfFuel => OutOfFuel
       end, give_back ptr (wrap c (pooled_created_at pc)) r)
  end.

(** [work a] is what the caller's closure does at attempt [a]. *)
Definition execute_round (mode : AccessMode) (work : N → Transaction.T A) (attempt_ : N)
    : R (N + A) :=
  let! result := attempt (try_once mode (work attempt_)) in
  match result with
  | inr value => ret (inr value)
  | inl e =>
      if worth_retrying e then
        do! (if cluster_moved e then do! attempt refresh in ret tt else ret tt) in
        match delay RETRY_ATTEMPTS attempt_ with
        | Some ms => do! modify (λ r, set_clock (clock r + ms)%N r) in ret (inl (attempt_ + 1)%N)
        | None => throw e
        end
      else throw e
  end.

(** The backoff ends the loop after [RETRY_ATTEMPTS] rounds. *)
Definition execute (mode : AccessMode) (work : N → Transaction.T A) : R A :=
  loop (S (N.to_nat RETRY_ATTEMPTS)) (execute_round mode work) 1%N.

Definition execute_read (work : N → Transaction.T A) : R A := execute Read work.
Definition execute_write (work : N → Transaction.T A) : R A := execute Write work.

End managed.
End operations.
End RoutedPool.

(** [Config::routed_pool]; the [connect] it passes is [connect_server]. *)
Definition routed_pool (c : Config) (max_per_host : nat) (clock : Instant)
    (connects : list (Outcome BoltError BoltConnection.t)) : RoutedPool.t :=
  RoutedPool.new [addr c] (cfg_db c) max_per_host clock connects.
