(* ===== verification/RoutedSpec.v ===== *)
(** * What the routed pool guarantees

    Refreshing, choosing a server, and managed transactions, against any
    outcomes of the connections made and any behaviour of the servers. *)

From S2P Require Import Prelude Utf8 Text Value Message Error Routing Transport Connection Session.
From S2P Require Import Receive Exchange Safety SessionSafety Guarantees Pool Routed.
Import RoutedPool.

Section routed.
Context {hash : HashIter} (delay : N → N → option Duration).

(** ** Dialling *)

(** The state after calls of [connect] for these addresses. *)
Definition dials (addrs : list string) (os : list (Outcome BoltError BoltConnection.t)) (r : t) : t :=
  set_connects os (set_dialled (dialled r ++ addrs) r).

Lemma dials_dials a os a' os' r : dials a' os' (dials a os r) = dials (a ++ a') os' r.
Proof. unfold dials. destruct r. cbn. by rewrite <- app_assoc. Qed.

Lemma dials_fields addrs os r :
  connects (dials addrs os r) = os ∧ dialled (dials addrs os r) = dialled r ++ addrs ∧
  table (dials addrs os r) = table r ∧ fetched_at (dials addrs os r) = fetched_at r ∧
  pools (dials addrs os r) = pools r ∧ bookmarks (dials addrs os r) = bookmarks r ∧
  closed (dials addrs os r) = closed r ∧ arena (dials addrs os r) = arena r ∧
  clock (dials addrs os r) = clock r ∧ rr (dials addrs os r) = rr r.
Proof. by destruct r. Qed.

(** [connect] never panics. *)
Definition script_returns (r : t) : Prop := (Panic ∉ connects r) ∧ (OutOfFuel ∉ connects r).

(** What a router answers, given what dialling it comes to. The table is the one
    its SUCCESS to ROUTE, for the database configured, states. *)
Definition gives_table (db : option string) (o : Outcome BoltError BoltConnection.t)
    (ta : RoutingTable) : Prop :=
  ∃ conn c0 c1 c2 meta, o = Ok conn ∧ BoltConnection.ensure_clean conn = (Ok tt, c0) ∧
    BoltConnection.write_message (route_request ∅ db) (BoltConnection.set_needs_reset true c0)
      = (Ok tt, c1) ∧
    BoltConnection.read_message c1 = (Ok (Response.Success meta), c2) ∧ from_meta meta = inr ta.

Lemma route_gives_table db conn ta conn' :
  BoltConnection.route ∅ db conn = (Ok ta, conn') → gives_table db (Ok conn) ta.
Proof.
  unfold BoltConnection.route. intros ([] & c0 & Hc & H)%bind_ok_inv. rewrite bind_modify in H.
  apply bind_ok_inv in H as ([] & c1 & Hw & H). apply bind_ok_inv in H as (r & c2 & Hr & H).
  exists conn, c0, c1, c2. destruct r as [meta|values|code message|]; [|done| |done].
  - exists meta. split_and!; [done..|]. rewrite bind_modify in H.
    destruct (from_meta meta); [done|]. by injection H as -> _.
  - by apply bind_ok_inv in H as (e & c3 & _ & H).
Qed.

Definition gives_error (db : option string) (o : Outcome BoltError BoltConnection.t)
    (e : BoltError) : Prop :=
  o = Err e ∨ ∃ conn conn', o = Ok conn ∧ BoltConnection.route ∅ db conn = (Err e, conn').

(** The answer of a router, with what is left of the script. *)
Definition via (r : t) (o : Outcome BoltError RoutingTable)
    (os : list (Outcome BoltError BoltConnection.t)) : Prop :=
  match o with
  | Ok ta => ∃ d, connects r = d :: os ∧ gives_table (db r) d ta
  | Err e => ∃ d, connects r = d :: os ∧ gives_error (db r) d e
  | _ => os `suffix_of` connects r
  end.

Lemma route_via_spec addr r :
  ∃ o os, route_via addr r = (o, dials [addr] os r) ∧ via r o os ∧
    (script_returns r → o ≠ Panic ∧ o ≠ OutOfFuel).
Proof.
  unfold route_via, bind at 1, connect. fold (dials [addr] (connects r) r).
  destruct (connects r) as [|d os] eqn:Hos.
  { exists Suspended, []. split_and!; [|apply suffix_nil|done]. unfold dials. by destruct r; cbn in *; subst. }
  fold (dials [addr] os r). unfold script_returns. rewrite Hos.
  assert (os `suffix_of` d :: os) as Hs by by exists [d].
  destruct d as [conn|e| | |];
    [|eexists _, os; split_and!;
      [done|unfold via; rewrite Hos; eauto; eexists; (split; [done|by left])|intros [? ?]; split; set_solver]..].
  rewrite bind_gets. assert (db (dials [addr] os r) = db r) as -> by by destruct r.
  pose proof (safe_route ∅ (db r) conn) as [Hp Hf].
  destruct (BoltConnection.route ∅ (db r) conn) as [[ta|e| | |] conn'] eqn:Hr; cbn in Hp, Hf; try done.
  - pose proof (safe_close conn') as [Hp' Hf'].
    destruct (BoltConnection.close conn') as [[] ?]; cbn in Hp', Hf'; try done;
      eexists _, os; (split_and!; [done|unfold via; rewrite Hos|done]); try done;
      eexists; (split; [done|by eapply route_gives_table]).
  - eexists _, os. split_and!; [done| |done]. unfold via. rewrite Hos. eexists. split; [done|].
    right. by eexists _, _.
  - eexists _, os. split_and!; [done| |done]. unfold via. by rewrite Hos.
Qed.

(** ** Refreshing *)

(** The routers that failed, with what dialling each came to. *)
Definition all_fail (db : option string) (addrs : list string)
    (ds : list (Outcome BoltError BoltConnection.t)) (es : list BoltError) : Prop :=
  length ds = length addrs ∧ Forall2 (gives_error db) ds es.

(** What asking these routers in turn comes to. *)
Definition asked (candidates : list string) (last_err : BoltError) (r : t)
    (o : Outcome BoltError RoutingTable) (r' : t) : Prop :=
  match o with
  | Ok ta => ∃ before addr after failed es d os, candidates = before ++ addr :: after ∧
      connects r = failed ++ d :: os ∧ all_fail (db r) before failed es ∧ gives_table (db r) d ta ∧
      r' = set_fetched_at (Some (clock r)) (set_table ta (dials (before ++ [addr]) os r))
  | Err e => ∃ failed es os, connects r = failed ++ os ∧ all_fail (db r) candidates failed es ∧
      e = List.last es last_err ∧ r' = dials candidates os r
  | _ => ∃ before os, before `prefix_of` candidates ∧ os `suffix_of` connects r ∧
      r' = dials before os r
  end.

Lemma dials_nil r : dials [] (connects r) r = r.
Proof. destruct r. unfold dials. cbn. by rewrite app_nil_r. Qed.

Lemma all_fail_cons db addr addrs d ds e es :
  gives_error db d e → all_fail db addrs ds es → all_fail db (addr :: addrs) (d :: ds) (e :: es).
Proof. intros He [Hl Hf]. split; [cbn; congruence|by constructor]. Qed.

Lemma last_cons_default {A} (x y : A) l : List.last (x :: l) y = List.last l x.
Proof.
  revert x y. induction l as [|z l IH]; intros x y; [done|].
  exact (eq_trans (IH z y) (eq_sym (IH z x))).
Qed.

Lemma ask_routers_spec candidates last_err r :
  ∃ o r', ask_routers candidates last_err r = (o, r') ∧ asked candidates last_err r o r' ∧
    (script_returns r → o ≠ Panic ∧ o ≠ OutOfFuel).
Proof.
  revert last_err r. induction candidates as [|addr candidates IH]; intros last_err r; cbn [ask_routers].
  { exists (Err last_err), r. split_and!; [done| |done]. exists [], [], (connects r).
    by rewrite dials_nil. }
  destruct (route_via_spec addr r) as (o & os & Hr & Hv & Ho).
  unfold bind at 1, attempt. rewrite Hr. destruct o as [ta|e| | |].
  - rewrite !bind_modify. eexists _, _. split_and!; [done| |done]. destruct Hv as (d & Hos & Hd).
    exists [], addr, candidates, [], [], d, os. split_and!; [done..|by destruct r].
  - destruct Hv as (d & Hos & Hd).
    destruct (IH e (dials [addr] os r)) as (o & r' & Ha & Hcase & Hsafe). exists o, r'.
    destruct (dials_fields [addr] os r) as (Hos' & _ & _ & _ & _ & _ & _ & _ & Hclock & _).
    assert (db (dials [addr] os r) = db r) as Hdb by by destruct r.
    split_and!; [done| |].
    + unfold asked in Hcase. rewrite Hos', Hdb in Hcase.
      assert (∀ before os', before `prefix_of` candidates → os' `suffix_of` os →
        ∃ before' os'', before' `prefix_of` addr :: candidates ∧ os'' `suffix_of` connects r ∧
          dials before os' (dials [addr] os r) = dials before' os'' r) as Hpre.
      { intros before os' Hb Hs. exists (addr :: before), os'. rewrite dials_dials, Hos.
        split_and!; [by apply prefix_cons|by apply suffix_cons_r|done]. }
      destruct o as [ta|e'| | |]; [| |naive_solver..].
      * destruct Hcase as (before & addr' & after & failed & es & d' & os' & -> & -> & Hf & Hg & ->).
        exists (addr :: before), addr', after, (d :: failed), (e :: es), d', os'.
        split_and!; [done|done|by apply all_fail_cons|done|]. by rewrite dials_dials, Hclock.
      * destruct Hcase as (failed & es & os' & -> & Hf & -> & ->).
        exists (d :: failed), (e :: es), os'. rewrite dials_dials, last_cons_default.
        split_and!; [done|by apply all_fail_cons|done|done].
    + intros Hret. apply Hsafe. unfold script_returns in *. rewrite Hos'. rewrite Hos in Hret. set_solver.
  - eexists _, _. split_and!; [done| |by intros [? _]%Ho]. exists [addr], os.
    split_and!; [by apply prefix_cons, prefix_nil|done|done].
  - eexists _, _. split_and!; [done| |by intros [? ?]%Ho]. exists [addr], os.
    split_and!; [by apply prefix_cons, prefix_nil|done|done].
  - eexists _, _. split_and!; [done| |by intros [_ ?]%Ho]. exists [addr], os.
    split_and!; [by apply prefix_cons, prefix_nil|done|done].
Qed.

Lemma refresh_spec r :
  ∃ o r', refresh r = (o, r') ∧
    asked (routers (table r) ++ seeds r) (BoltError.Closed "no routers to ask") r o r' ∧
    (script_returns r → o ≠ Panic ∧ o ≠ OutOfFuel).
Proof. unfold refresh. rewrite bind_gets. apply ask_routers_spec. Qed.

Lemma suffix_returns r r' :
  connects r' `suffix_of` connects r → script_returns r → script_returns r'.
Proof. intros [used Hs]. unfold script_returns. rewrite Hs. set_solver. Qed.

(** ** One server *)

(** The map of pools points into the arena. *)
Definition pointers_valid (r : t) : Prop := map_Forall (λ _ ptr, ptr < length (arena r))%nat (pools r).

(** What choosing a server leaves alone. *)
Definition serving (r r' : t) : Prop :=
  seeds r' = seeds r ∧ db r' = db r ∧ max_per_host r' = max_per_host r ∧
  bookmarks r' = bookmarks r ∧ closed r' = closed r ∧
  connects r' `suffix_of` connects r ∧ dialled r `prefix_of` dialled r' ∧
  (length (arena r) ≤ length (arena r'))%nat.

#[local] Instance serving_preorder : PreOrder serving.
Proof.
  unfold serving. split; [intros r; by split_and!|].
  intros r1 r2 r3 (? & ? & ? & ? & ? & ? & ? & ?) (? & ? & ? & ? & ? & ? & ? & ?).
  split_and!; [congruence..|by etrans|by etrans|lia].
Qed.

Lemma pool_for_spec addr r :
  pointers_valid r →
  ∃ ptr r', pool_for addr r = (Ok ptr, r') ∧ serving r r' ∧ pointers_valid r' ∧
    pools r' = <[addr := ptr]> (pools r) ∧ (ptr < length (arena r'))%nat ∧
    table r' = table r ∧ connects r' = connects r ∧ rr r' = rr r.
Proof.
  intros Hv. unfold pool_for. destruct (pools r !! addr) as [ptr|] eqn:Hp.
  - exists ptr, r. split_and!; [done|reflexivity|done|by rewrite insert_id| |done..]. by apply (Hv addr).
  - eexists _, _. split_and!; [done|..]; destruct r; cbn in *; try done.
    + unfold serving. cbn. rewrite length_app. cbn. split_and!; [done..|lia].
    + intros a ptr. cbn. rewrite length_app. cbn. rewrite lookup_insert_Some.
      intros [[_ <-]|[_ Hq%Hv]]; [lia|]. cbn in Hq. lia.
    + rewrite length_app. cbn. lia.
Qed.

(** A checkout from a server's pool, by anything that keeps the contract of
    [Pool::get]. *)
Section checkout_from.
Context (get : P PooledConnection) `{!CheckoutContract get}.

Lemma checkout_from_spec ptr addr r :
  (ptr < length (arena r))%nat → pointers_valid r →
  ∃ o r', checkout_from get ptr addr r = (o, r') ∧ serving r r' ∧ pointers_valid r' ∧
    pools r' = pools r ∧ table r' = table r ∧ rr r' = rr r ∧
    (script_returns r → o ≠ Panic ∧ o ≠ OutOfFuel) ∧
    (∀ pc, o = Ok pc → ∃ c, pooled_conn pc = Some c).
Proof.
  intros Hptr Hv. unfold checkout_from. destruct (lookup_lt_is_Some_2 _ _ Hptr) as [p Hp].
  rewrite Hp. set (w0 := mk_world p (clock r) (connects r)).
  pose proof (contract_uses w0) as Hu. pose proof (contract_returns w0) as Hsafe.
  pose proof (contract_gives w0) as Hok. destruct (get w0) as [o w]. unfold uses in Hu. cbn in *.
  eexists _, _. split_and!; [done|..|exact Hsafe|intros pc ->; by eapply Hok]; destruct r; cbn in *;
    try done.
  - unfold serving. cbn. rewrite length_insert. split_and!; [done..|by apply prefix_app_r|done].
  - intros a q Hq. cbn. rewrite length_insert. by apply (Hv a).
Qed.

End checkout_from.

(** A server is asked for a connection. *)
Definition ask_server (addr : string) : R (BoltError + Checkout) :=
  let! ptr := pool_for addr in
  let! result := attempt (get_from delay ptr addr) in
  ret match result with inr conn => inr (ptr, conn) | inl e => inl e end.

Lemma ask_server_spec addr r :
  pointers_valid r →
  ∃ o r', ask_server addr r = (o, r') ∧ serving r r' ∧ pointers_valid r' ∧ table r' = table r ∧
    rr r' = rr r ∧
    (script_returns r → o ≠ Panic ∧ o ≠ OutOfFuel) ∧ (∀ e, o ≠ Err e) ∧
    (∃ ptr, pools r' = <[addr := ptr]> (pools r) ∧
      (∀ x, o = Ok (inr x) → x.1 = ptr ∧ ∃ c, pooled_conn x.2 = Some c)).
Proof.
  intros Hv. destruct (pool_for_spec addr r Hv) as (ptr & r1 & Hp & Hs1 & Hv1 & Hpools & Hlt & Ht & Hc & Hrr).
  destruct (checkout_from_spec (Pool.get delay) ptr addr r1 Hlt Hv1)
    as (o & r2 & Hg & Hs2 & Hv2 & Hp2 & Ht2 & Hrr2 & Hsafe & Hok).
  unfold ask_server. rewrite (bind_ok _ _ _ _ _ Hp). unfold bind, attempt, get_from. rewrite Hg.
  assert (script_returns r → o ≠ Panic ∧ o ≠ OutOfFuel) as Hsafe'.
  { intros Hr. apply Hsafe. unfold script_returns. by rewrite Hc. }
  exists (match o with
          | Ok pc => Ok (inr (ptr, pc)) | Err e => Ok (inl e)
          | Panic => Panic | Suspended => Suspended | OutOfFuel => OutOfFuel
          end), r2.
  split_and!; [by destruct o|by etrans|done|congruence|congruence| | |].
  - intros [? ?]%Hsafe'. by destruct o.
  - intros e. by destruct o.
  - exists ptr. split; [by rewrite Hp2|]. intros x Hx. destruct o as [pc|e| | |]; try done.
    injection Hx as <-. split; [done|]. by apply Hok.
Qed.

(** ** The servers of a lap, in order *)

Fixpoint try_list (servers : list string) : R (option Checkout) :=
  match servers with
  | [] => ret None
  | addr :: servers =>
      let! answer := ask_server addr in
      match answer with
      | inr conn => ret (Some conn)
      | inl e => if negb (is_transient e) then throw e else do! evict addr in try_list servers
      end
  end.

Definition visit_order (addrs : list string) (start : N) (turns : list nat) : list string :=
  omap (λ i, addrs !!
    N.to_nat ((start + N.of_nat i) mod 2 ^ 64 mod N.of_nat (length addrs))%N) turns.

Lemma visit_lookup (addrs : list string) k :
  addrs ≠ [] → ∃ addr, addrs !! N.to_nat (k mod N.of_nat (length addrs))%N = Some addr ∧ addr ∈ addrs.
Proof.
  intros Hne. assert (length addrs ≠ 0)%nat by (by destruct addrs).
  destruct (lookup_lt_is_Some_2 addrs (N.to_nat (k mod N.of_nat (length addrs))%N)) as [addr Ha].
  - pose proof (N.mod_lt k (N.of_nat (length addrs))). lia.
  - exists addr. split; [done|]. by eapply list_elem_of_lookup_2.
Qed.

(** The loop over turns visits servers of the list, in this order. *)
Lemma try_servers_list addrs start turns r :
  addrs ≠ [] →
  try_servers delay addrs start turns r = try_list (visit_order addrs start turns) r.
Proof.
  intros Hne. revert r. induction turns as [|i turns IH]; intros r; [done|].
  cbn [try_servers]. unfold visit_order. cbn [omap list_omap].
  destruct (visit_lookup addrs ((start + N.of_nat i) mod 2 ^ 64)%N Hne) as (addr & -> & _).
  fold (visit_order addrs start turns). cbn [try_list]. unfold ask_server, bind, attempt.
  destruct (pool_for addr r) as [[ptr|e| | |] r1]; try done.
  destruct (get_from delay ptr addr r1) as [[pc|e| | |] r2]; try done. cbn.
  destruct (is_transient e); [apply IH|done].
Qed.

Lemma visit_order_elem addrs start turns addr :
  addr ∈ visit_order addrs start turns → addr ∈ addrs.
Proof.
  unfold visit_order. rewrite list_elem_of_omap. intros (i & _ & Ha).
  by eapply list_elem_of_lookup_2.
Qed.

(** A lap is the list of servers rotated by the cursor, each one once. *)
Lemma visit_order_rotate addrs start :
  (start + N.of_nat (length addrs) ≤ 2 ^ 64)%N →
  visit_order addrs start (seq 0 (length addrs)) = rotate (N.to_nat start) addrs.
Proof.
  intros Hs. apply list_eq. intros i.
  assert (∀ (l : list nat) (k : nat), (∀ i, i ∈ l → i < length addrs)%nat →
    omap (λ i, addrs !! N.to_nat ((start + N.of_nat i) mod 2 ^ 64 mod N.of_nat (length addrs))%N) l !! k
    = l !! k ≫= λ i, addrs !! N.to_nat ((start + N.of_nat i) mod N.of_nat (length addrs))%N) as Hom.
  { induction l as [|j l IH]; intros k Hl; [done|].
    assert (j < length addrs)%nat as Hj by (apply Hl; by left).
    destruct (visit_lookup addrs ((start + N.of_nat j) mod 2 ^ 64)%N) as (addr & Ha & _);
      [by destruct addrs; [cbn in Hj; lia|]|].
    cbn [omap list_omap]. rewrite Ha. rewrite (N.mod_small (start + N.of_nat j) (2 ^ 64)) in Ha by lia.
    destruct k as [|k]; [cbn; by rewrite Ha|]. cbn. apply IH. intros i' Hi'. apply Hl. by right. }
  unfold visit_order. rewrite Hom by (intros j Hj%elem_of_seq; lia).
  destruct (decide (i < length addrs)%nat) as [Hi|Hi].
  - rewrite lookup_seq_lt by done. cbn. rewrite lookup_rotate_r by done. f_equal.
    unfold rotate_nat_add. rewrite <- Z_N_nat. f_equal. apply N2Z.inj.
    rewrite Z2N.id by (apply Z.mod_pos; lia). rewrite N2Z.inj_mod. f_equal; lia.
  - rewrite (lookup_ge_None_2 (seq _ _)) by (rewrite length_seq; lia). cbn. symmetry.
    apply lookup_ge_None_2. rewrite length_rotate. lia.
Qed.

(** ** A lap *)

(** The table with these servers evicted, from every role. *)
Definition forget (addrs : list string) (ta : RoutingTable) : RoutingTable :=
  mk_table (ttl_seconds ta) (table_db ta) (filter (.∉ addrs) (routers ta))
    (filter (.∉ addrs) (readers ta)) (filter (.∉ addrs) (writers ta)).

Lemma forget_nil ta : forget [] ta = ta.
Proof.
  assert (∀ l : list string, filter (.∉ []) l = l) as H.
  { intros l. induction l as [|a l IH]; [done|].
    rewrite filter_cons_True by apply not_elem_of_nil. by rewrite IH. }
  destruct ta. unfold forget. cbn. by rewrite !H.
Qed.

Lemma forget_cons addr addrs ta : forget (addr :: addrs) ta = forget addrs (Routing.remove addr ta).
Proof.
  unfold forget, Routing.remove. cbn. f_equal; rewrite list_filter_filter;
    apply list_filter_iff; intros a; rewrite not_elem_of_cons; naive_solver.
Qed.

Definition drop_pools (addrs : list string) (m : HashMap nat) : HashMap nat :=
  foldl (λ m a, delete a m) m addrs.

Definition evicted (addr : string) (r : t) : t :=
  set_pools (delete addr (pools r)) (set_table (Routing.remove addr (table r)) r).

Lemma evicted_fields addr r :
  serving r (evicted addr r) ∧ (pointers_valid r → pointers_valid (evicted addr r)) ∧
  pools (evicted addr r) = delete addr (pools r) ∧
  table (evicted addr r) = Routing.remove addr (table r) ∧
  connects (evicted addr r) = connects r ∧ rr (evicted addr r) = rr r.
Proof.
  destruct r. unfold evicted, pointers_valid. cbn. split_and!; [by split_and!| |done..].
  intros Hv a ptr Hp. apply (Hv a). by apply lookup_delete_Some in Hp as [_ ?].
Qed.

(** These servers were asked in turn; each failed with an error that a retry
    may fix, and was evicted. *)
Inductive failed_over : list string → t → t → Prop :=
| failed_over_nil r : failed_over [] r r
| failed_over_cons addr servers r e r1 r2 :
    ask_server addr r = (Ok (inl e), r1) → is_transient e = true →
    failed_over servers (evicted addr r1) r2 → failed_over (addr :: servers) r r2.

Lemma failed_over_fields servers r r' :
  failed_over servers r r' → pointers_valid r →
  serving r r' ∧ pointers_valid r' ∧ table r' = forget servers (table r) ∧
  pools r' = drop_pools servers (pools r) ∧ rr r' = rr r.
Proof.
  induction 1 as [r|addr servers r e r1 r2 Ha _ _ IH]; intros Hv; [by rewrite forget_nil|].
  destruct (ask_server_spec addr r Hv) as (o & r1' & Ha' & Hs & Hv1 & Ht & Hrr & _ & _ & ptr & Hp & _).
  rewrite Ha in Ha'. injection Ha' as <- <-.
  destruct (evicted_fields addr r1) as (Hs1 & Hv2 & Hp1 & Ht1 & _ & Hrr1).
  destruct IH as (Hs2 & Hv' & Ht2 & Hp2 & Hrr2); [by apply Hv2|].
  split_and!; [by do 2 (etrans; [done|])|done| | |congruence].
  - by rewrite Ht2, Ht1, Ht, forget_cons.
  - by rewrite Hp2, Hp1, Hp, delete_insert_eq.
Qed.

(** What visiting these servers in turn came to. *)
Definition visited (servers : list string) (r : t) (o : Outcome BoltError (option Checkout)) (r' : t)
    : Prop :=
  match o with
  | Ok (Some x) => ∃ before addr after r1, servers = before ++ addr :: after ∧
      failed_over before r r1 ∧ ask_server addr r1 = (Ok (inr x), r')
  | Ok None => failed_over servers r r'
  | Err e => is_transient e = false ∧ ∃ before addr after r1, servers = before ++ addr :: after ∧
      failed_over before r r1 ∧ ask_server addr r1 = (Ok (inl e), r')
  | _ => True
  end.

Lemma visited_cons addr servers r e r1 o r' :
  ask_server addr r = (Ok (inl e), r1) → is_transient e = true →
  visited servers (evicted addr r1) o r' → visited (addr :: servers) r o r'.
Proof.
  intros Ha He. destruct o as [[x|]|e'| | |]; cbn [visited]; [| | |done..].
  - intros (before & addr' & after & r2 & -> & Hf & Hx). exists (addr :: before), addr', after, r2.
    split_and!; [done|by eapply failed_over_cons|done].
  - by apply failed_over_cons with e.
  - intros (? & before & addr' & after & r2 & -> & Hf & Hx). split; [done|].
    exists (addr :: before), addr', after, r2. split_and!; [done|by eapply failed_over_cons|done].
Qed.

Lemma try_list_spec servers r :
  pointers_valid r →
  ∃ o r', try_list servers r = (o, r') ∧ serving r r' ∧ pointers_valid r' ∧
    (script_returns r → o ≠ Panic ∧ o ≠ OutOfFuel) ∧ visited servers r o r'.
Proof.
  revert r. induction servers as [|addr servers IH]; intros r Hv; cbn [try_list].
  { exists (Ok None), r. split_and!; [done..|constructor]. }
  destruct (ask_server_spec addr r Hv) as (o & r1 & Ha & Hs1 & Hv1 & Ht1 & _ & Hsafe & Hne & _).
  unfold bind at 1. rewrite Ha. destruct o as [[e|x]|e| | |]; [| |by destruct (Hne e)| | |].
  - destruct (is_transient e) eqn:He; cbn [negb].
    + unfold evict. rewrite bind_modify. fold (evicted addr r1).
      destruct (evicted_fields addr r1) as (Hs2 & Hv2 & _ & _ & Hc2 & _).
      destruct (IH (evicted addr r1)) as (o & r' & Hl & Hs & Hv' & Hsafe' & Hvis); [by apply Hv2|].
      exists o, r'. split_and!; [done|by do 2 (etrans; [done|])|done| |by eapply visited_cons].
      intros Hr. apply Hsafe'. apply (suffix_returns r); [|done]. rewrite Hc2. apply Hs1.
    + exists (Err e), r1. split_and!; [done..|]. split; [done|]. exists [], addr, servers, r.
      split_and!; [done|constructor|done].
  - exists (Ok (Some x)), r1. split_and!; [done..|]. exists [], addr, servers, r.
    split_and!; [done|constructor|done].
  - exists Panic, r1. split_and!; [done..| |done]. by intros [? ?]%Hsafe.
  - exists Suspended, r1. split_and!; [done..| |done]. by intros [? ?]%Hsafe.
  - exists OutOfFuel, r1. split_and!; [done..| |done]. by intros [? ?]%Hsafe.
Qed.

(** ** Choosing a server *)

Lemma dials_serving addrs os r :
  os `suffix_of` connects r → serving r (dials addrs os r).
Proof. intros H. destruct r. split_and!; [done..|by apply prefix_app_r|done]. Qed.

Lemma asked_serving candidates last_err r o r' :
  asked candidates last_err r o r' →
  serving r r' ∧ pools r' = pools r ∧ arena r' = arena r ∧ rr r' = rr r.
Proof.
  intros Hcase. assert (∃ addrs os, os `suffix_of` connects r ∧
    (r' = dials addrs os r ∨
     ∃ ta, r' = set_fetched_at (Some (clock r)) (set_table ta (dials addrs os r))))
    as (addrs & os & Hd%(dials_serving addrs) & Hr').
  { destruct o as [ta|e| | |]; [| |destruct Hcase as (before & os & _ & ? & ->); eauto..].
    - destruct Hcase as (before & addr & after & failed & es & d & os & _ & Hos & _ & _ & ->).
      exists (before ++ [addr]), os. split; [|eauto]. rewrite Hos. exists (failed ++ [d]).
      by rewrite <- app_assoc.
    - destruct Hcase as (failed & es & os & Hos & _ & _ & ->). exists candidates, os.
      split; [|by left]. rewrite Hos. by exists failed. }
  destruct Hr' as [-> |[ta ->]]; destruct r; by split_and!; try apply Hd.
Qed.

(** A table was fetched, and its time to live, in whole seconds, has not passed. *)
Definition current (r : t) : Prop :=
  ∃ at_, fetched_at r = Some at_ ∧ ((clock r - at_) / 1000 < Z.to_N (ttl_seconds (table r)))%N.

Lemma stale_current r : stale r = false ↔ current r.
Proof.
  unfold stale, current. destruct (fetched_at r) as [at_|]; [|naive_solver].
  rewrite N.leb_gt. naive_solver.
Qed.

(** Before this lap the table was found to be within its time to live, or was
    fetched, as it always is before the second. *)
Definition fresh_for (lap : nat) (r r1 : t) : Prop :=
  (lap = 0%nat ∧ current r ∧ r1 = r) ∨
  ((lap ≠ 0%nat ∨ ¬ current r) ∧ ∃ ta, refresh r = (Ok ta, r1)).

Lemma freshen_spec lap r :
  ∃ o r', freshen lap r = (o, r') ∧ serving r r' ∧ (pointers_valid r → pointers_valid r') ∧
    rr r' = rr r ∧ (script_returns r → o ≠ Panic ∧ o ≠ OutOfFuel) ∧
    match o with
    | Ok _ => fresh_for lap r r'
    | Err e => refresh r = (Err e, r')
    | _ => True
    end.
Proof.
  assert (lap ≠ 0%nat ∨ ¬ current r → ∃ o r', (do! refresh in ret tt) r = (o, r') ∧
    serving r r' ∧ (pointers_valid r → pointers_valid r') ∧ rr r' = rr r ∧
    (script_returns r → o ≠ Panic ∧ o ≠ OutOfFuel) ∧
    match o with
    | Ok _ => fresh_for lap r r'
    | Err e => refresh r = (Err e, r')
    | _ => True
    end) as Hrefresh.
  { intros Hlap. destruct (refresh_spec r) as (o & r' & Hr & (Hs & Hp & Ha & Hrr)%asked_serving & Hsafe).
    unfold bind. rewrite Hr.
    assert (pointers_valid r → pointers_valid r') by (unfold pointers_valid; by rewrite Hp, Ha).
    destruct o; (eexists _, _; split_and!; [done..| |]; [by intros [? ?]%Hsafe|]; try done).
    right. split; [done|]. by eexists. }
  unfold freshen. destruct (decide (0 < lap)%nat); [apply Hrefresh; left; lia|].
  unfold ensure_fresh. rewrite bind_gets. destruct (stale r) eqn:Hst.
  { apply Hrefresh. right. by rewrite <- stale_current, Hst. }
  exists (Ok tt), r. split_and!; [done..|]. left.
  split_and!; [lia|by apply stale_current|done].
Qed.

Lemma fresh_for_fields lap r r1 :
  fresh_for lap r r1 → pointers_valid r → rr r1 = rr r ∧ pointers_valid r1.
Proof.
  intros [(_ & _ & ->)|(_ & ta & Hr)] Hv; [done|].
  destruct (refresh_spec r) as (o & r1' & Hr' & (_ & Hp & Ha & Hrr)%asked_serving & _).
  rewrite Hr in Hr'. injection Hr' as <- <-. split; [done|]. unfold pointers_valid. by rewrite Hp, Ha.
Qed.

(** The cursor of the mode, taken and moved on by one; it wraps. *)
Definition advanced (mode : AccessMode) (r : t) : t :=
  set_rr (λ m, if decide (m = mode) then ((rr r mode + 1) mod 2 ^ 64)%N else rr r m) r.

Lemma advanced_rr mode r m :
  rr (advanced mode r) m = if decide (m = mode) then ((rr r mode + 1) mod 2 ^ 64)%N else rr r m.
Proof. by destruct r. Qed.

Lemma advanced_fields mode r :
  serving r (advanced mode r) ∧ table (advanced mode r) = table r ∧
  pools (advanced mode r) = pools r ∧ arena (advanced mode r) = arena r ∧
  connects (advanced mode r) = connects r.
Proof. destruct r. by split_and!. Qed.

(** The servers of a lap over this table, in order. *)
Definition lap_order (mode : AccessMode) (r : t) : list string :=
  visit_order (role mode (table r)) (rr r mode) (seq 0 (length (role mode (table r)))).

(** What a lap came to. *)
Definition lapped (mode : AccessMode) (lap : nat) (r : t) (o : Outcome BoltError (option Checkout))
    (r' : t) : Prop :=
  match o with
  | Ok found => ∃ r1, fresh_for lap r r1 ∧
      if decide (role mode (table r1) = []) then found = None ∧ r' = r1
      else visited (lap_order mode r1) (advanced mode r1) (Ok found) r'
  | Err e => refresh r = (Err e, r') ∨
      ∃ r1, fresh_for lap r r1 ∧ visited (lap_order mode r1) (advanced mode r1) (Err e) r'
  | _ => True
  end.

Lemma try_lap_spec mode lap r :
  pointers_valid r →
  ∃ o r', try_lap delay mode lap r = (o, r') ∧ serving r r' ∧ pointers_valid r' ∧
    (script_returns r → o ≠ Panic ∧ o ≠ OutOfFuel) ∧ lapped mode lap r o r'.
Proof.
  intros Hv. unfold try_lap.
  destruct (freshen_spec lap r) as (o & r1 & Hf & Hs1 & Hv1 & _ & Hsafe1 & Hcase).
  unfold bind at 1. rewrite Hf.
  destruct o as [[]|e| | |];
    [|eexists _, r1; split_and!; [done..|by apply Hv1|by intros [? ?]%Hsafe1|cbn; auto]..].
  rewrite bind_gets. case_decide as Hne.
  { exists (Ok None), r1. split_and!; [done..|by apply Hv1|done|]. exists r1. split; [done|].
    by rewrite decide_True. }
  rewrite (bind_ok _ _ r1 (rr r1 mode) (advanced mode r1)) by done.
  destruct (advanced_fields mode r1) as (Hs2 & Ht2 & Hp2 & Ha2 & Hc2).
  assert (pointers_valid (advanced mode r1)) as Hv2
    by (unfold pointers_valid; rewrite Hp2, Ha2; by apply Hv1).
  rewrite try_servers_list by done.
  destruct (try_list_spec (lap_order mode r1) (advanced mode r1) Hv2)
    as (o & r' & Ht & Hs & Hv' & Hsafe & Hvis).
  exists o, r'. split_and!; [done|by do 2 (etrans; [done|])|done| |].
  - intros Hr. apply Hsafe. apply (suffix_returns r1); [by rewrite Hc2|].
    apply (suffix_returns r); [apply Hs1|done].
  - destruct o as [found|e| | |]; try done.
    + exists r1. split; [done|]. by rewrite decide_False.
    + right. by exists r1.
Qed.

(** The lap begins in [r0]: it is the first, or the first found no server. *)
Definition earlier (mode : AccessMode) (lap : nat) (r r0 : t) : Prop :=
  (lap = 0%nat ∧ r0 = r) ∨ (lap = 1%nat ∧ lapped mode 0 r (Ok None) r0).

(** What [acquire] came to, from an open pool. *)
Definition served (mode : AccessMode) (r : t) (o : Outcome BoltError Checkout) (r' : t) : Prop :=
  match o with
  | Ok x => ∃ lap r0, earlier mode lap r r0 ∧ lapped mode lap r0 (Ok (Some x)) r'
  | Err e => (∃ lap r0, earlier mode lap r r0 ∧ lapped mode lap r0 (Err e) r') ∨
      (∃ r0, lapped mode 0 r (Ok None) r0 ∧ lapped mode 1 r0 (Ok None) r' ∧
         e = BoltError.Closed ("no reachable " +:+ mode_name mode +:+ " server"))
  | _ => True
  end.

Lemma acquire_spec mode r :
  pointers_valid r →
  ∃ o r', acquire delay mode r = (o, r') ∧ serving r r' ∧ pointers_valid r' ∧
    (script_returns r → o ≠ Panic ∧ o ≠ OutOfFuel) ∧
    if closed r then o = Err (BoltError.Closed "pool closed") ∧ r' = r else served mode r o r'.
Proof.
  intros Hv. unfold acquire. rewrite bind_gets. unfold is_closed. destruct (closed r).
  { eexists _, r. by split_and!. }
  cbn [seq try_laps]. destruct (try_lap_spec mode 0 r Hv) as (o & r1 & Hl & Hs1 & Hv1 & Hsafe & Hcase).
  unfold bind. rewrite Hl. destruct o as [[x|]|e| | |].
  - exists (Ok x), r1. split_and!; [done..|]. exists 0%nat, r. split; [by left|done].
  - destruct (try_lap_spec mode 1 r1 Hv1) as (o & r2 & Hl2 & Hs2 & Hv2 & Hsafe2 & Hcase2). rewrite Hl2.
    assert (script_returns r → o ≠ Panic ∧ o ≠ OutOfFuel) as Hsafe'.
    { intros Hr. apply Hsafe2. apply (suffix_returns r); [apply Hs1|done]. }
    assert (earlier mode 1 r r1) as He by by right.
    destruct o as [[x|]|e| | |]; (eexists _, r2; split_and!; [done|by etrans|done| |]);
      try (by intros [? ?]%Hsafe'); try done; [by exists 1%nat, r1| |left; by exists 1%nat, r1].
    right. by exists r1.
  - exists (Err e), r1. split_and!; [done..|]. left. exists 0%nat, r. split; [by left|done].
  - exists Panic, r1. split_and!; [done..| |done]. by intros [? ?]%Hsafe.
  - exists Suspended, r1. split_and!; [done..| |done]. by intros [? ?]%Hsafe.
  - exists OutOfFuel, r1. split_and!; [done..| |done]. by intros [? ?]%Hsafe.
Qed.

(** The server that served, in full. *)
Lemma lapped_serves mode lap r x r' :
  pointers_valid r → lapped mode lap r (Ok (Some x)) r' →
  ∃ r1 before addr after r2 c, fresh_for lap r r1 ∧ rr r1 = rr r ∧
    lap_order mode r1 = before ++ addr :: after ∧ failed_over before (advanced mode r1) r2 ∧
    ask_server addr r2 = (Ok (inr x), r') ∧ table r' = forget before (table r1) ∧
    pools r' = <[addr := x.1]> (drop_pools before (pools r1)) ∧ rr r' = rr (advanced mode r1) ∧ pooled_conn x.2 = Some c.
Proof.
  intros Hv (r1 & Hf & Hvis). case_decide; [by destruct Hvis|].
  destruct (fresh_for_fields _ _ _ Hf Hv) as [Hrr Hv1].
  destruct Hvis as (before & addr & after & r2 & Ho & Hfail & Ha).
  destruct (advanced_fields mode r1) as (_ & Ht & Hp & Har & _).
  destruct (failed_over_fields _ _ _ Hfail) as (_ & Hv2 & Ht2 & Hp2 & Hrr2);
    [unfold pointers_valid; by rewrite Hp, Har|].
  destruct (ask_server_spec addr r2 Hv2) as (o & r3 & Ha' & _ & _ & Ht3 & Hrr3 & _ & _ & ptr & Hp3 & Hx).
  rewrite Ha in Ha'. injection Ha' as <- <-. destruct (Hx x eq_refl) as (<- & c & Hc).
  exists r1, before, addr, after, r2, c. split_and!; try done; [congruence| |congruence].
  by rewrite Hp3, Hp2, Hp.
Qed.

(** A lap that found no server has moved the cursor if it had one to ask. *)
Lemma lapped_cursor mode lap r r' :
  pointers_valid r → lapped mode lap r (Ok None) r' →
  pointers_valid r' ∧ (rr r' = rr r ∨ rr r' = rr (advanced mode r)).
Proof.
  intros Hv (r2 & Hf & Hvis).
  destruct (fresh_for_fields _ _ _ Hf Hv) as [Hrr Hv2].
  case_decide; [destruct Hvis as [_ ->]; by split; [|left]|].
  destruct (advanced_fields mode r2) as (_ & _ & Hp & Har & _).
  destruct (failed_over_fields _ _ _ Hvis) as (_ & Hv' & _ & _ & Hrr');
    [unfold pointers_valid; by rewrite Hp, Har|].
  split; [done|]. right. rewrite Hrr'. destruct r, r2. cbn in *. by subst.
Qed.

(** ** Bookmarks *)

(** At most sixteen, each once. *)
Definition bookmarks_ok (bs : list string) : Prop := NoDup bs ∧ (length bs ≤ 16)%nat.

Lemma push_bookmark_ok b bs :
  bookmarks_ok bs → bookmarks_ok (push_bookmark b bs) ∧ b ∈ push_bookmark b bs ∧
  (∀ b', b' ∈ push_bookmark b bs → b' = b ∨ b' ∈ bs).
Proof.
  intros [Hn Hl]. unfold push_bookmark. case_decide as Hb; [by split_and!; auto|].
  rewrite length_app. cbn [length]. set (n := (length bs + 1 - 16)%nat).
  rewrite drop_app_le by (unfold n; lia).
  assert (∀ x, x ∈ drop n bs → x ∈ bs) as Hsub by (intros x; apply subseteq_drop).
  split; [split|].
  - apply NoDup_app. split_and!; [|set_solver|by apply NoDup_singleton].
    by apply (sublist_NoDup _ bs), sublist_drop.
  - rewrite length_app, length_drop. cbn [length]. lia.
  - set_solver.
Qed.

(** What happens outside the managed transactions leaves the bookmarks. *)
Lemma serving_bookmarks r r' : serving r r' → bookmarks r' = bookmarks r.
Proof. by intros (_ & _ & _ & ? & _). Qed.

(** ** One attempt *)

Section attempts.
Context {A : Type}.

Lemma begin_with_ok opts c tx c1 : begin_with opts c = (Ok tx, c1) → Transaction.conn tx = c1.
Proof.
  unfold begin_with. intros (? & ? & _ & H)%bind_ok_inv. rewrite bind_modify in H.
  apply bind_ok_inv in H as (? & ? & _ & H). apply bind_ok_inv in H as (? & ? & _ & H).
  apply bind_ok_inv in H as (? & ? & _ & H). rewrite bind_modify in H. by injection H as <- <-.
Qed.

Lemma managed_safe opts (work : Transaction.T A) c :
  safe work → (managed opts work c).1 ≠ Panic ∧ (managed opts work c).1 ≠ OutOfFuel.
Proof.
  intros Hw. unfold managed.
  assert (safe (begin_with opts)) as Hb by (unfold begin_with; safe_tac).
  destruct (Hb c) as [? ?]. destruct (begin_with opts c) as [[tx|e| | |] c1]; try done.
  destruct (Hw tx) as [? ?]. destruct (work tx) as [[v|e| | |] tx1]; try done; cbn in *.
  - unfold Transaction.commit. destruct (safe_commit_body tx1).
    by destruct (Transaction.commit_body tx1) as [[] ?].
  - unfold Transaction.rollback. destruct (safe_rollback_body tx1).
    by destruct (Transaction.rollback_body tx1) as [[] ?].
Qed.

(** What an attempt, or several, leaves alone; bookmarks stay well formed. *)
Definition carried (r r' : t) : Prop :=
  closed r' = closed r ∧ db r' = db r ∧ connects r' `suffix_of` connects r ∧
  (pointers_valid r → pointers_valid r') ∧
  (bookmarks_ok (bookmarks r) → bookmarks_ok (bookmarks r')).

#[local] Instance carried_preorder : PreOrder carried.
Proof.
  unfold carried. split; [intros r; by split_and!|].
  intros r1 r2 r3 (? & ? & ? & ? & ?) (? & ? & ? & ? & ?). split_and!; [congruence..|by etrans|by auto|by auto].
Qed.

Lemma serving_carried r r' :
  serving r r' → (pointers_valid r → pointers_valid r') → carried r r'.
Proof.
  intros (? & ? & ? & Hb & ? & ? & _) Hv. unfold carried. rewrite Hb. by split_and!.
Qed.

(** A value whose transaction was committed, on a connection checked out for
    the mode, begun with the options of the pool; its bookmark is recorded. *)
Definition committed_value (mode : AccessMode) (work : Transaction.T A) (r : t) (v : A) (r' : t)
    : Prop :=
  ∃ x c r1 tx c0 tx1 b c1, acquire delay mode r = (Ok x, r1) ∧ pooled_conn x.2 = Some c ∧
    begin_with (tx_options mode r1) c = (Ok tx, c0) ∧ work tx = (Ok v, tx1) ∧
    Transaction.commit tx1 = (Ok b, c1) ∧
    bookmarks r' = from_option (λ b, push_bookmark b (bookmarks r)) (bookmarks r) b.

Lemma managed_ok opts (work : Transaction.T A) c v b c' :
  managed opts work c = (Ok (v, b), c') →
  ∃ tx c0 tx1, begin_with opts c = (Ok tx, c0) ∧ work tx = (Ok v, tx1) ∧
    Transaction.commit tx1 = (Ok b, c').
Proof.
  unfold managed. destruct (begin_with opts c) as [[tx|e| | |] c0]; try done.
  destruct (work tx) as [[v'|e| | |] tx1] eqn:Hw; try done.
  - destruct (Transaction.commit tx1) as [[b'|e| | |] c1] eqn:Hc; intros [=]; subst; eauto 10.
  - by destruct (Transaction.rollback tx1) as [[] ?].
Qed.

Lemma give_back_carried ptr pc r : carried r (give_back ptr pc r).
Proof.
  destruct r. unfold carried, give_back, pointers_valid. cbn. rewrite length_alter. by split_and!.
Qed.

Lemma set_bookmarks_carried b r : carried r (set_bookmarks (push_bookmark b (bookmarks r)) r).
Proof.
  destruct r. unfold carried, pointers_valid. cbn. split_and!; [done..|]. intros H.
  by apply push_bookmark_ok.
Qed.

Lemma try_once_spec mode (work : Transaction.T A) r :
  pointers_valid r →
  ∃ o r', try_once delay mode work r = (o, r') ∧ carried r r' ∧
    (script_returns r → safe work → o ≠ Panic ∧ o ≠ OutOfFuel) ∧
    (∀ v, o = Ok v → committed_value mode work r v r').
Proof.
  intros Hv. destruct (acquire_spec mode r Hv) as (o & r1 & Ha & Hs & Hv1 & Hsafe & Hserved).
  assert (carried r r1) as Hc1 by by apply serving_carried.
  unfold try_once, bind. rewrite Ha.
  destruct o as [[ptr pc]|e| | |];
    [|eexists _, r1; split_and!; [done|done|by intros [? ?]%Hsafe|done]..].
  assert (∃ c, pooled_conn pc = Some c) as [c Hc].
  { destruct (closed r); [by destruct Hserved|].
    destruct Hserved as (lap & r0 & He & Hl). destruct (lapped_serves mode lap r0 (ptr, pc) r1)
      as (? & ? & ? & ? & ? & c & _ & _ & _ & _ & _ & _ & _ & _ & ?); [|done|by exists c].
    destruct He as [[_ ->]|[_ He]]; [done|apply (lapped_cursor _ _ _ _ Hv He)]. }
  rewrite Hc. pose proof (managed_safe (tx_options mode r1) work c) as Hms.
  destruct (managed (tx_options mode r1) work c) as [o c1] eqn:Hm. cbn [fst] in Hms.
  set (r2 := match o with
             | Ok (_, Some b) => set_bookmarks (push_bookmark b (bookmarks r1)) r1
             | _ => r1
             end).
  assert (carried r1 r2) as Hc2.
  { unfold r2. destruct o as [[v [b|]]|e| | |]; try reflexivity. apply set_bookmarks_carried. }
  eexists _, _. split_and!; [done|etrans; [done|]; etrans; [done|]; apply give_back_carried| |].
  - intros _ [? ?]%Hms. destruct o as [[v b]|e| | |]; done.
  - intros v Ho. destruct o as [[v' b]|e| | |]; try done. injection Ho as ->.
    apply managed_ok in Hm as (tx & c0 & tx1 & Hb & Hw & Hcm).
    exists (ptr, pc), c, r1, tx, c0, tx1, b, c1. split_and!; [done..|].
    rewrite <- (serving_bookmarks r r1) by done. unfold r2. destruct b; by destruct r1.
Qed.

(** The end of [execute], after attempts from [a] on. *)
Definition executed (mode : AccessMode) (work : N → Transaction.T A) (a : N) (r : t)
    (o : Outcome BoltError A) (r' : t) : Prop :=
  match o with
  | Ok v => ∃ a' r1, (a ≤ a' ≤ RETRY_ATTEMPTS)%N ∧ carried r r1 ∧
      committed_value mode (work a') r1 v r'
  | Err e => ∃ a' r1 r2, (a ≤ a' ≤ RETRY_ATTEMPTS)%N ∧ carried r r1 ∧
      try_once delay mode (work a') r1 = (Err e, r2) ∧
      (worth_retrying e = true → a' = RETRY_ATTEMPTS ∨ delay RETRY_ATTEMPTS a' = None)
  | _ => True
  end.

Lemma recover_spec e r :
  pointers_valid r →
  ∃ o r', (if cluster_moved e then do! attempt refresh in ret tt else ret tt) r = (o, r') ∧
    carried r r' ∧ (∀ e', o ≠ Err e') ∧ (script_returns r → o ≠ Panic ∧ o ≠ OutOfFuel).
Proof.
  intros Hv. destruct (cluster_moved e); [|eexists _, _; by split_and!].
  destruct (refresh_spec r) as (o & r' & Hr & (Hs & Hp & Ha & _)%asked_serving & Hsafe).
  assert (carried r r') by (apply serving_carried; [done|]; unfold pointers_valid; by rewrite Hp, Ha).
  unfold bind, attempt. rewrite Hr.
  destruct o; (eexists _, _; split_and!; [done..|by intros [? ?]%Hsafe]).
Qed.

Lemma execute_round_spec mode (work : N → Transaction.T A) a r :
  pointers_valid r →
  ∃ o r', execute_round delay mode work a r = (o, r') ∧ carried r r' ∧
    (script_returns r → safe (work a) → o ≠ Panic ∧ o ≠ OutOfFuel) ∧
    match o with
    | Ok (inl a') => a' = (a + 1)%N ∧ delay RETRY_ATTEMPTS a ≠ None
    | Ok (inr v) => committed_value mode (work a) r v r'
    | Err e => ∃ r2, try_once delay mode (work a) r = (Err e, r2) ∧
        (worth_retrying e = true → delay RETRY_ATTEMPTS a = None)
    | _ => True
    end.
Proof.
  intros Hv. destruct (try_once_spec mode (work a) r Hv) as (o & r1 & Ht & Hc1 & Hsafe & Hok).
  unfold execute_round, bind at 1, attempt at 1. rewrite Ht. destruct o as [v|e| | |].
  - exists (Ok (inr v)), r1. split_and!; [done..|]. by apply Hok.
  - destruct (worth_retrying e) eqn:Hw.
    2:{ exists (Err e), r1. split_and!; [done..|]. exists r1. split; [done|congruence]. }
    destruct (recover_spec e r1) as (o & r2 & Hr & Hc2 & Hne & Hsafe2); [by apply Hc1|].
    assert (carried r r2) as Hc by by etrans.
    assert (script_returns r → o ≠ Panic ∧ o ≠ OutOfFuel) as Hsafe'.
    { intros Hret. apply Hsafe2. apply (suffix_returns r); [apply Hc1|done]. }
    unfold bind at 1. rewrite Hr.
    destruct o as [[]|e'| | |]; [|by destruct (Hne e')|..].
    + destruct (delay RETRY_ATTEMPTS a) as [ms|] eqn:Hd.
      * rewrite bind_modify. eexists _, _. split_and!; [done| |done|done].
        etrans; [exact Hc|]. destruct r2. unfold carried, pointers_valid. by split_and!.
      * exists (Err e), r2. split_and!; [done..|]. exists r1. by split.
    + eexists _, r2. split_and!; [done..| |done]. by intros [? ?]%Hsafe'.
    + eexists _, r2. split_and!; [done..| |done]. by intros [? ?]%Hsafe'.
    + eexists _, r2. split_and!; [done..| |done]. by intros [? ?]%Hsafe'.
  - eexists _, r1. split_and!; [done..| |done]. by intros ? [? ?]%Hsafe.
  - eexists _, r1. split_and!; [done..| |done]. by intros ? [? ?]%Hsafe.
  - eexists _, r1. split_and!; [done..| |done]. by intros ? [? ?]%Hsafe.
Qed.

Lemma executed_weaken mode (work : N → Transaction.T A) a r r1 o r' :
  carried r r1 → executed mode work (a + 1) r1 o r' → executed mode work a r o r'.
Proof.
  intros Hc. destruct o as [v|e| | |]; cbn [executed]; [| |done..].
  - intros (a' & r2 & Ha & Hc2 & Hv). exists a', r2. split; [lia|]. split; [by etrans|done].
  - intros (a' & r2 & r3 & Ha & Hc2 & He). exists a', r2, r3. split; [lia|]. split; [by etrans|done].
Qed.

Lemma execute_loop mode (work : N → Transaction.T A) fuel a r :
  bounded_backoff delay → (1 ≤ a ≤ RETRY_ATTEMPTS)%N → (RETRY_ATTEMPTS < a + N.of_nat fuel)%N →
  pointers_valid r →
  ∃ o r', loop fuel (execute_round delay mode work) a r = (o, r') ∧ carried r r' ∧
    (script_returns r → (∀ a, safe (work a)) → o ≠ Panic ∧ o ≠ OutOfFuel) ∧
    executed mode work a r o r'.
Proof.
  intros Hb. revert a r. induction fuel as [|fuel IH]; intros a r Ha Hf Hv; [lia|]. cbn [loop].
  destruct (execute_round_spec mode work a r Hv) as (o & r1 & Hr & Hc1 & Hsafe & Hcase).
  unfold bind. rewrite Hr. destruct o as [[a'|v]|e| | |].
  - destruct Hcase as [-> Hd].
    assert (a < RETRY_ATTEMPTS)%N as Hlt.
    { destruct (N.lt_ge_cases a RETRY_ATTEMPTS) as [|Hge]; [done|]. by destruct Hd; apply Hb. }
    destruct (IH (a + 1)%N r1) as (o & r' & Hl & Hc & Hsafe' & Hex); [lia|lia|by apply Hc1|].
    exists o, r'. split_and!; [done|by etrans| |by eapply executed_weaken].
    intros Hret Hw. apply Hsafe'; [|done]. apply (suffix_returns r); [apply Hc1|done].
  - exists (Ok v), r1. split_and!; [done..|]. exists a, r. split; [lia|]. by split.
  - exists (Err e), r1. split_and!; [done..|]. destruct Hcase as (r2 & Ht & Hw).
    exists a, r, r2. split_and!; [lia|lia|done..|by auto].
  - exists Panic, r1. split_and!; [done..| |done]. intros Hret Hw. by destruct (Hsafe Hret (Hw a)).
  - exists Suspended, r1. split_and!; done.
  - exists OutOfFuel, r1. split_and!; [done..| |done]. intros Hret Hw.
    by destruct (Hsafe Hret (Hw a)).
Qed.

Lemma execute_spec mode (work : N → Transaction.T A) r :
  bounded_backoff delay → pointers_valid r →
  ∃ o r', execute delay mode work r = (o, r') ∧ carried r r' ∧
    (script_returns r → (∀ a, safe (work a)) → o ≠ Panic ∧ o ≠ OutOfFuel) ∧
    executed mode work 1 r o r'.
Proof. intros Hb Hv. apply execute_loop; [done|by vm_compute|by vm_compute|done]. Qed.

End attempts.

(** ** Closing *)

(** A closed pool with no idle connection. *)
Definition shut (p : Pool) : Prop := Pool.closed p = true ∧ idle p = [].

Lemma shut_all (ptrs : list nat) (a : list Pool) (ptr : nat) p :
  ptr ∈ ptrs ∨ (∀ p, a !! ptr = Some p → shut p) →
  foldl (λ a ptr, alter close_pool ptr a) a ptrs !! ptr = Some p → shut p.
Proof.
  assert (∀ p, shut (close_pool p)) as Hclose by (by intros []).
  revert a. induction ptrs as [|ptr' ptrs IH]; intros a Hin; cbn [foldl].
  - destruct Hin as [?%elem_of_nil|Hin]; [done|]. apply Hin.
  - apply IH. destruct (decide (ptr = ptr')) as [<-|Hne].
    + right. intros q. rewrite list_lookup_alter_eq.
      destruct (a !! ptr); cbn; [|done]. intros [= <-]. apply Hclose.
    + destruct Hin as [[?|?]%elem_of_cons|Hin]; [done|by left|]. right. intros q.
      rewrite list_lookup_alter_ne by done. apply Hin.
Qed.

Lemma close_spec r :
  ∃ r', close r = (Ok tt, r') ∧ closed r' = true ∧ pools r' = ∅ ∧
    ∀ addr ptr p, pools r !! addr = Some ptr → arena r' !! ptr = Some p → shut p.
Proof.
  unfold close. rewrite bind_modify, bind_gets, bind_modify. eexists. split; [done|].
  destruct r as [se d m ta f ps n b c a k o l]. cbn. split_and!; [done..|].
  intros addr ptr p Hp. apply shut_all. left.
  assert ((addr, ptr) ∈ hash_iter ps) as Hin.
  { rewrite hash_iter_perm. by apply elem_of_map_to_list. }
  apply list_elem_of_fmap. by exists (addr, ptr).
Qed.

Lemma acquire_closed mode r :
  closed r = true → acquire delay mode r = (Err (BoltError.Closed "pool closed"), r).
Proof. intros Hc. unfold acquire. rewrite bind_gets. unfold is_closed. by rewrite Hc. Qed.

Lemma execute_closed {A} mode (work : N → Transaction.T A) fuel a r :
  bounded_backoff delay → closed r = true → (1 ≤ a ≤ RETRY_ATTEMPTS)%N →
  (RETRY_ATTEMPTS < a + N.of_nat fuel)%N →
  ∃ k, loop fuel (execute_round delay mode work) a r =
    (Err (BoltError.Closed "pool closed"), set_clock k r).
Proof.
  intros Hb. revert a r. induction fuel as [|fuel IH]; intros a r Hc Ha Hf; [lia|]. cbn [loop].
  assert (try_once delay mode (work a) r = (Err (BoltError.Closed "pool closed"), r)) as Ht.
  { unfold try_once, bind. by rewrite acquire_closed. }
  assert (execute_round delay mode work a r =
    match delay RETRY_ATTEMPTS a with
    | Some ms => (Ok (inl (a + 1)%N), set_clock (clock r + ms)%N r)
    | None => (Err (BoltError.Closed "pool closed"), r)
    end) as Hr.
  { unfold execute_round, bind at 1, attempt at 1. rewrite Ht. cbn.
    destruct (delay RETRY_ATTEMPTS a); [|done]. by rewrite bind_modify. }
  unfold bind. rewrite Hr. destruct (delay RETRY_ATTEMPTS a) as [ms|] eqn:Hd.
  - assert (a < RETRY_ATTEMPTS)%N.
    { destruct (N.lt_ge_cases a RETRY_ATTEMPTS) as [|Hge]; [done|].
      apply (Hb RETRY_ATTEMPTS) in Hge. congruence. }
    destruct (IH (a + 1)%N (set_clock (clock r + ms)%N r)) as [k ->]; [by destruct r|lia|lia|].
    exists k. by destruct r.
  - exists (clock r). by destruct r.
Qed.

(** ** Properties *)

(** C29: refreshing. The routers of the current table are asked first, then the
    seeds, each by a connection of its own, until one answers. Those before it
    failed, to connect or to answer; its table, the one its reply to ROUTE
    states, is taken as of now, and the rest are not dialled. When none answers
    all have failed, the error is the last one's and the old table stays. The
    pools and cursors are not touched, and nothing panics or loops that
    [connect] does not. *)
Theorem refresh_first_answer r :
  let candidates := routers (table r) ++ seeds r in
  let failures addrs ds es := length ds = length addrs ∧ Forall2 (gives_error (db r)) ds es in
  ∃ o r', refresh r = (o, r') ∧ connects r' `suffix_of` connects r ∧ pools r' = pools r ∧
    rr r' = rr r ∧ (script_returns r → o ≠ Panic ∧ o ≠ OutOfFuel) ∧
    match o with
    | Ok ta => ∃ before addr after failed es d, candidates = before ++ addr :: after ∧
        connects r = failed ++ d :: connects r' ∧ failures before failed es ∧
        gives_table (db r) d ta ∧ dialled r' = dialled r ++ before ++ [addr] ∧ table r' = ta ∧
        fetched_at r' = Some (clock r')
    | Err e => ∃ failed es, connects r = failed ++ connects r' ∧ failures candidates failed es ∧
        e = List.last es (BoltError.Closed "no routers to ask") ∧
        dialled r' = dialled r ++ candidates ∧ table r' = table r ∧ fetched_at r' = fetched_at r
    | _ => ∃ before, before `prefix_of` candidates ∧ dialled r' = dialled r ++ before ∧
        table r' = table r ∧ fetched_at r' = fetched_at r
    end.
Proof.
  intros candidates failures.
  destruct (refresh_spec r) as (o & r' & Hr & Hasked & Hsafe). exists o, r'.
  destruct (asked_serving _ _ _ _ _ Hasked) as ((_ & _ & _ & _ & _ & Hs & _) & Hp & _ & Hrr).
  split_and!; [done..|]. fold candidates in Hasked.
  destruct o as [ta|e| | |];
    [| |destruct Hasked as (before & os & Hb & _ & ->); exists before; by destruct r..].
  - destruct Hasked as (before & addr & after & failed & es & d & os & Ho & Hos & Hf & Hg & ->).
    exists before, addr, after, failed, es, d. by destruct r.
  - destruct Hasked as (failed & es & os & Hos & Hf & -> & ->). exists failed, es. by destruct r.
Qed.

(** C28: choosing a server. A lap tries the servers that the table lists for the
    mode, the table being within its time to live, or fetched just then (as it
    always is for the second lap); there are two laps, the second when the
    first found none. The lap starts at the cursor, which it moves on by one,
    and goes once round the list (the list rotated, while the cursor does not
    wrap). A checkout comes from the pool of the first server that gives one:
    those before it were each asked, failed with an error that a retry may fix,
    and are evicted from the table and the pools. Otherwise the error is a
    refresh's, or a server's that no retry can fix, or that no server is left.
    The map of pools stays valid, and nothing panics or loops that [connect]
    does not. *)
Theorem acquire_serves mode r o r' :
  pointers_valid r → closed r = false → acquire delay mode r = (o, r') →
  pointers_valid r' ∧ bookmarks r' = bookmarks r ∧
  (script_returns r → o ≠ Panic ∧ o ≠ OutOfFuel) ∧
  match o with
  | Ok (ptr, conn) => ∃ lap r0 r1 before addr after r2 c,
      earlier mode lap r r0 ∧ fresh_for lap r0 r1 ∧
      (let servers := match mode with Read => readers (table r1) | Write => writers (table r1) end in
       let start := rr r1 mode in
       (start = rr r mode ∨ lap = 1%nat ∧ start = ((rr r mode + 1) mod 2 ^ 64)%N) ∧
       visit_order servers start (seq 0 (length servers)) = before ++ addr :: after ∧
       ((start + N.of_nat (length servers) ≤ 2 ^ 64)%N →
        before ++ addr :: after = rotate (N.to_nat start) servers) ∧
       ∀ m, rr r' m = if decide (m = mode) then ((start + 1) mod 2 ^ 64)%N else rr r m) ∧
      failed_over before (advanced mode r1) r2 ∧
      ask_server addr r2 = (Ok (inr (ptr, conn)), r') ∧
      table r' = forget before (table r1) ∧
      pools r' = <[addr := ptr]> (drop_pools before (pools r1)) ∧ pooled_conn conn = Some c
  | Err e => (∃ lap r0, earlier mode lap r r0 ∧ lapped mode lap r0 (Err e) r') ∨
      (∃ r0, lapped mode 0 r (Ok None) r0 ∧ lapped mode 1 r0 (Ok None) r' ∧
         e = BoltError.Closed ("no reachable " +:+ mode_name mode +:+ " server"))
  | _ => True
  end.
Proof.
  intros Hv Hc Ha. destruct (acquire_spec mode r Hv) as (o' & r1 & Ha' & Hs & Hv' & Hsafe & Hserved).
  rewrite Ha in Ha'. injection Ha' as <- <-. rewrite Hc in Hserved.
  split_and!; [done|by apply serving_bookmarks|done|]. destruct o as [[ptr conn]|e| | |]; try done.
  destruct Hserved as (lap & r0 & He & Hl).
  assert (pointers_valid r0 ∧ (rr r0 = rr r ∨ lap = 1%nat ∧ rr r0 = rr (advanced mode r))) as [Hv0 Hrr0].
  { destruct He as [[-> ->]|[-> He]]; [by split; [|left]|].
    destruct (lapped_cursor _ _ _ _ Hv He) as [? [?|?]]; auto. }
  destruct (lapped_serves _ _ _ _ _ Hv0 Hl)
    as (r1 & before & addr & after & r2 & c & Hf & Hrr & Ho & Hfail & Hask & Htab & Hp & Hrr' & Hconn).
  exists lap, r0, r1, before, addr, after, r2, c. cbv zeta. split_and!; try done.
  - rewrite Hrr. destruct Hrr0 as [-> |[-> ->]]; [by left|right]. by rewrite advanced_rr, decide_True.
  - intros Hstart. by rewrite <- visit_order_rotate.
  - intros m. rewrite Hrr', !advanced_rr. case_decide; [done|]. rewrite Hrr.
    destruct Hrr0 as [->|[_ ->]]; [done|]. by rewrite advanced_rr, decide_False.
Qed.

(** C27: managed transactions. A value is returned only when its transaction
    was committed, on a connection checked out for the mode and begun with the
    bookmarks known by then, and the commit's bookmark is kept; there are at
    most three attempts. An error is the last attempt's, and one worth
    retrying only when the attempts are used up or the backoff has ended. The
    bookmarks stay at most sixteen, each once; nothing panics or loops that the
    caller's work and [connect] do not. *)
Theorem execute_outcome {A} mode (work : N → Transaction.T A) r o r' :
  bounded_backoff delay → pointers_valid r → execute delay mode work r = (o, r') →
  pointers_valid r' ∧ (bookmarks_ok (bookmarks r) → bookmarks_ok (bookmarks r')) ∧
  (script_returns r → (∀ a, safe (work a)) → o ≠ Panic ∧ o ≠ OutOfFuel) ∧
  match o with
  | Ok v => ∃ a r1, (1 ≤ a ≤ RETRY_ATTEMPTS)%N ∧ carried r r1 ∧
      committed_value mode (work a) r1 v r'
  | Err e => ∃ a r1 r2, (1 ≤ a ≤ RETRY_ATTEMPTS)%N ∧ carried r r1 ∧
      try_once delay mode (work a) r1 = (Err e, r2) ∧
      (worth_retrying e = true → a = RETRY_ATTEMPTS ∨ delay RETRY_ATTEMPTS a = None)
  | _ => True
  end.
Proof.
  intros Hb Hv He. destruct (execute_spec mode work r Hb Hv) as (o' & r1 & He' & Hc & Hsafe & Hex).
  rewrite He in He'. injection He' as <- <-. destruct Hc as (_ & _ & _ & Hv' & Hbm).
  split_and!; auto.
Qed.

(** C30: closing. [close] takes every server's pool out of the map and closes
    it, with its idle connections; from then on a checkout or a managed
    transaction fails as closed, and neither dials nor changes anything (but
    for the time the retries wait). *)
Theorem closed_pool_refuses r :
  bounded_backoff delay →
  ∃ r', close r = (Ok tt, r') ∧ pools r' = ∅ ∧
    (∀ addr ptr p, pools r !! addr = Some ptr → arena r' !! ptr = Some p → shut p) ∧
    (∀ mode, acquire delay mode r' = (Err (BoltError.Closed "pool closed"), r')) ∧
    (∀ A mode (work : N → Transaction.T A),
       ∃ k, execute delay mode work r' = (Err (BoltError.Closed "pool closed"), set_clock k r')).
Proof.
  intros Hb. destruct (close_spec r) as (r' & Hc & Hcl & Hp & Hshut). exists r'.
  split_and!; [done..| |].
  - intros mode. by apply acquire_closed.
  - intros A mode work. apply execute_closed; [done|done|by vm_compute|by vm_compute].
Qed.

End routed.

(** ** Witnesses *)

(** Two readers, the cursor at the second one, which refuses; the first one
    connects and answers BEGIN and COMMIT. *)
Definition bookmark_body : bytes :=
  [xb1; x70; xa1; x88] ++ as_bytes "bookmark" ++ [x82] ++ as_bytes "b1".

Definition cluster : RoutedPool.t :=
  mk ["seed:7687"] None 2 (mk_table 300 None [] ["a:7687"; "b:7687"] []) (Some 0%N) ∅ (λ _, 1%N)
    ["b0"] false [] 1000
    [Err refused; Err refused; Err refused; Ok (waiting false 0 [success_body; bookmark_body] 4)] [].

Lemma cluster_valid : pointers_valid cluster.
Proof. unfold pointers_valid. apply map_Forall_empty. Qed.

Lemma acquire_serves_witness :
  let out := @acquire listing_order steady Read cluster in
  pointers_valid out.2 ∧ bookmarks out.2 = ["b0"] ∧
  dialled out.2 = ["b:7687"; "b:7687"; "b:7687"; "a:7687"] ∧ rr out.2 Read = 2%N ∧
  ∃ lap r0 r1 before addr after r2, @earlier listing_order steady Read lap cluster r0 ∧
    @fresh_for listing_order lap r0 r1 ∧
    visit_order (readers (table r1)) (rr r1 Read) (seq 0 (length (readers (table r1))))
      = before ++ addr :: after ∧
    @failed_over listing_order steady before (advanced Read r1) r2 ∧
    table out.2 = forget before (table r1).
Proof.
  intros out.
  assert (out = (Ok (match out.1 with Ok x => x | _ => (0%nat, mk_pooled None 0) end), out.2)) as Hout
    by (vm_compute; reflexivity).
  destruct (@acquire_serves listing_order steady Read cluster _ _ cluster_valid eq_refl Hout)
    as (Hv & Hb & _ & H).
  split_and!; [exact Hv|exact Hb|vm_compute; reflexivity|vm_compute; reflexivity|].
  destruct (match out.1 with Ok x => x | _ => (0%nat, mk_pooled None 0) end) as [ptr conn].
  destruct H as (lap & r0 & r1 & before & addr & after & r2 & c & He & Hf & (_ & Ho & _) & Hfail
    & _ & Htab & _).
  exists lap, r0, r1, before, addr, after, r2. split_and!; [exact He|exact Hf|exact Ho|exact Hfail|exact Htab].
Defined.

Lemma execute_outcome_witness :
  let work := λ _ : N, ret (S:=Transaction.t) (E:=BoltError) 7 in
  let out := @execute listing_order steady _ Read work cluster in
  out.1 = Ok 7 ∧ bookmarks out.2 = ["b0"; "b1"] ∧
  ∃ a r1, (1 ≤ a ≤ RETRY_ATTEMPTS)%N ∧ carried cluster r1 ∧
    @committed_value listing_order steady _ Read (work a) r1 7 out.2.
Proof.
  intros work out. assert (out = (Ok 7, out.2)) as H by (vm_compute; reflexivity).
  split; [by rewrite H|]. split; [vm_compute; reflexivity|].
  apply (@execute_outcome listing_order steady _ Read work cluster (Ok 7) out.2 steady_bounded
    cluster_valid H).
Defined.

Lemma closed_pool_refuses_witness :
  ∃ r', @close listing_order cluster = (Ok tt, r') ∧ pools r' = ∅ ∧
    (∀ addr ptr p, pools cluster !! addr = Some ptr → arena r' !! ptr = Some p → shut p) ∧
    (∀ mode, @acquire listing_order steady mode r' = (Err (BoltError.Closed "pool closed"), r')) ∧
    (∀ A mode (work : N → Transaction.T A),
       ∃ k, @execute listing_order steady _ mode work r' =
         (Err (BoltError.Closed "pool closed"), set_clock k r')).
Proof. exact (@closed_pool_refuses listing_order steady cluster steady_bounded). Defined.
