(* ===== verification/RoutedConcurrency.v ===== *)
(** * The routed pool under interleaving tasks

    [Routed] and [RoutedSpec] follow one task through the routed pool; here any
    number of them share it, with [refresh], [close] and time. As in
    [PoolConcurrency] a step is one task doing what it does between two points
    where another may run: an await, or the release of a lock. A task that
    waits for a connection, or has one, is in a phase of the pool of its
    server, and moves there by [PoolConcurrency.task_step]; so each server's
    pool does what a lone pool can do, and its theorems carry over. What a
    router or a server answers, what the users do and the timing are arbitrary. *)

From S2P Require Import Prelude Value Message Error Routing Transport Connection Receive Exchange.
From S2P Require Import Safety Guarantees Pool PoolConcurrency Routed RoutedSpec.
Import RoutedPool.

(** Where [acquire] is in its loops: the server it is trying, and the turns left. *)
Record Attempt := mk_attempt {
  at_mode : AccessMode; at_lap : nat; at_addrs : list string; at_start : N;
  at_turns : list nat; at_addr : string }.

Inductive Task :=
| Entering (mode : AccessMode)               (* [acquire], before the check of [closed] *)
| Freshening (mode : AccessMode) (lap : nat) (* in [ensure_fresh] or [refresh] *)
| Choosing (mode : AccessMode) (lap : nat)   (* about to read the table *)
| Trying (mode : AccessMode) (lap : nat) (addrs : list string) (start : N) (turns : list nat)
| Getting (a : Attempt) (ptr : nat) (ph : Phase)  (* in [Pool::get] *)
| Evicting (a : Attempt)                     (* the server failed: about to [evict] *)
| Holding (ptr : nat) (ph : Phase)           (* has a connection, or gives it back *)
| Refreshing                                 (* [refresh] by itself *)
| Closing                                    (* [close], about to set the flag *)
| Draining                                   (* about to empty the map *)
| ClosingPools (ptrs : list nat)             (* about to close the first of these *)
| DrainingPool (ptr : nat) (ptrs : list nat). (* its semaphore is closed *)

(** The server of turn [i]. *)
Definition server_at (addrs : list string) (start : N) (i : nat) : option string :=
  addrs !! N.to_nat ((start + N.of_nat i) mod 2 ^ 64 mod N.of_nat (length addrs))%N.

(** After a lap that found nothing: the second, or the end. *)
Definition next_lap (mode : AccessMode) (lap : nat) : option Task :=
  if decide (lap = 0%nat) then Some (Freshening mode 1) else None.

(** A checkout under way. *)
Definition in_checkout (ph : Phase) : bool :=
  match ph with Acquired | Probing _ | Minting => true | _ => false end.

(** Where a step of the server's pool leaves the task that waits for it. *)
Inductive get_after (p : Pool) (a : Attempt) (ptr : nat) : Phase → option Phase → option Task → Prop :=
| get_goes_on ph ph' :
    in_checkout ph' = true → get_after p a ptr ph (Some ph') (Some (Getting a ptr ph'))
| get_returns ph c t :
    get_after p a ptr ph (Some (Using c t)) (Some (Holding ptr (Using c t)))
| get_fails : get_after p a ptr Minting (Some Releasing) (Some (Getting a ptr Releasing))
| get_dropped ph :
    in_checkout ph = true → get_after p a ptr ph (Some Releasing) (Some (Holding ptr Releasing))
| get_closed : Pool.closed p = true → get_after p a ptr Waiting None (Some (Evicting a))
| get_wait_dropped : get_after p a ptr Waiting None None
| get_transient : get_after p a ptr Releasing None (Some (Evicting a))
| get_gives_up : get_after p a ptr Releasing None None.

(** A case for each of a task's steps, with its hypotheses named. *)
Ltac rtask_cases Hx :=
  destruct Hx as
    [r mode|r mode|r mode|r mode lap ta|r mode lap|r mode lap Hn|r mode lap st r' Hn Hst
      |r mode lap addrs st|r mode lap addrs st i turns addr q r' Hat Hpf
      |r a q p0 ph p' ph' x Hq Hts Hg|r a r' He|r q p0 ph p' ph' Hq Hts|r q c ct b|r ta|r|r|r
      |r q ptrs p0 Hq|r q ptrs p0 Hq|r ptrs|r].

Section steps.
Context {hash : HashIter}.

(** One task: [None] is its end. *)
Inductive rtask : t → Task → t → option Task → Prop :=
| enter_closed r mode : RoutedPool.closed r = true → rtask r (Entering mode) r None
| enter_open r mode :
    RoutedPool.closed r = false → rtask r (Entering mode) r (Some (Freshening mode 0))
| freshen_fresh r mode :
    stale r = false → rtask r (Freshening mode 0) r (Some (Choosing mode 0))
| freshen_refreshed r mode lap ta :
    rtask r (Freshening mode lap) (set_fetched_at (Some (clock r)) (set_table ta r))
      (Some (Choosing mode lap))
| freshen_failed r mode lap : rtask r (Freshening mode lap) r None
| choose_none r mode lap :
    role mode (table r) = [] → rtask r (Choosing mode lap) r (next_lap mode lap)
| choose r mode lap start r' :
    role mode (table r) ≠ [] → next_start mode r = (Ok start, r') →
    rtask r (Choosing mode lap) r'
      (Some (Trying mode lap (role mode (table r)) start (seq 0 (length (role mode (table r))))))
| try_none r mode lap addrs start : rtask r (Trying mode lap addrs start []) r (next_lap mode lap)
| try_server r mode lap addrs start i turns addr ptr r' :
    server_at addrs start i = Some addr → pool_for addr r = (Ok ptr, r') →
    rtask r (Trying mode lap addrs start (i :: turns)) r'
      (Some (Getting (mk_attempt mode lap addrs start turns addr) ptr Waiting))
| get_step r a ptr p ph p' ph' x :
    arena r !! ptr = Some p → task_step (clock r) p ph p' ph' → get_after p a ptr ph ph' x →
    rtask r (Getting a ptr ph) (set_arena (<[ptr := p']> (arena r)) r) x
| evict_server r a r' :
    evict (at_addr a) r = (Ok tt, r') →
    rtask r (Evicting a) r'
      (Some (Trying (at_mode a) (at_lap a) (at_addrs a) (at_start a) (at_turns a)))
| hold_step r ptr p ph p' ph' :
    arena r !! ptr = Some p → task_step (clock r) p ph p' ph' →
    rtask r (Holding ptr ph) (set_arena (<[ptr := p']> (arena r)) r) (Holding ptr <$> ph')
| merge_bookmark r ptr c created b :
    rtask r (Holding ptr (Using c created)) (set_bookmarks (push_bookmark b (bookmarks r)) r)
      (Some (Holding ptr (Using c created)))
| refresh_ok r ta : rtask r Refreshing (set_fetched_at (Some (clock r)) (set_table ta r)) None
| refresh_failed r : rtask r Refreshing r None
| close_flag r : rtask r Closing (set_closed true r) (Some Draining)
| close_map r :
    rtask r Draining (set_pools ∅ r) (Some (ClosingPools ((hash_iter (pools r)).*2)))
| close_one r ptr ptrs p :
    arena r !! ptr = Some p →
    rtask r (ClosingPools (ptr :: ptrs))
      (set_arena (<[ptr := Pool.set_closed true p]> (arena r)) r) (Some (DrainingPool ptr ptrs))
| close_idle r ptr ptrs p :
    arena r !! ptr = Some p →
    rtask r (DrainingPool ptr ptrs)
      (set_arena (<[ptr := Pool.set_idle [] p]> (arena r)) r) (Some (ClosingPools ptrs))
| close_dropped r ptrs : rtask r (ClosingPools ptrs) r None
| close_done r : rtask r (ClosingPools []) r None.

(** What may begin at any time. *)
Definition begins (x : Task) : bool :=
  match x with Entering _ | Refreshing | Closing => true | _ => false end.

Inductive rstep : t * list Task → t * list Task → Prop :=
| rstep_task r ts1 x ts2 r' x' :
    rtask r x r' x' → rstep (r, ts1 ++ x :: ts2) (r', ts1 ++ option_list x' ++ ts2)
| rstep_begin r ts x : begins x = true → rstep (r, ts) (r, x :: ts)
| rstep_time r d ts : rstep (r, ts) (set_clock (clock r + d)%N r, ts).

(** ** The pool of one server *)

(** The task's phase in the pool at [ptr]. *)
Definition phase_in (ptr : nat) (x : Task) : option Phase :=
  match x with
  | Getting _ q ph | Holding q ph => if decide (q = ptr) then Some ph else None
  | _ => None
  end.

Definition phases (ptr : nat) (ts : list Task) : list Phase := omap (phase_in ptr) ts.

(** What [PoolConcurrency] sees of the system. *)
Definition server_system (ptr : nat) (p : Pool) (s : t * list Task) : System :=
  mk_system p (clock s.1) (phases ptr s.2).

Lemma phases_app ptr ts ts' : phases ptr (ts ++ ts') = phases ptr ts ++ phases ptr ts'.
Proof. apply omap_app. Qed.

Lemma phases_cons ptr x ts :
  phases ptr (x :: ts) = option_list (phase_in ptr x) ++ phases ptr ts.
Proof. unfold phases. cbn. by destruct (phase_in ptr x). Qed.

Definition phase_after (ptr : nat) (x : option Task) : option Phase := x ≫= phase_in ptr.

Lemma phases_option ptr x ts :
  phases ptr (option_list x ++ ts) = option_list (phase_after ptr x) ++ phases ptr ts.
Proof. destruct x; [apply phases_cons|done]. Qed.

Lemma get_after_phase p a q ph ph' x ptr :
  get_after p a q ph ph' x → phase_after ptr x = if decide (q = ptr) then ph' else None.
Proof. destruct 1; cbn; by case_decide. Qed.

Lemma pool_for_cases addr r ptr r' :
  pool_for addr r = (Ok ptr, r') →
  (r' = r ∧ pools r !! addr = Some ptr) ∨
  (ptr = length (arena r) ∧ pools r !! addr = None ∧
   r' = set_pools (<[addr := ptr]> (pools r)) (set_arena (arena r ++ [new_pool (max_per_host r)]) r)).
Proof.
  unfold pool_for. destruct (pools r !! addr) as [q|] eqn:Hq; intros [= <- <-]; [left|right]; done.
Qed.

(** ** What a task's step does to one pool *)

(** Nothing, a step of a task of its own, a new task, or a part of its closing. *)
Inductive pool_effect (now : Instant) (p : Pool) : option Phase → Pool → option Phase → Prop :=
| effect_none ph : pool_effect now p ph p ph
| effect_task ph p' ph' : task_step now p ph p' ph' → pool_effect now p (Some ph) p' ph'
| effect_get : pool_effect now p None p (Some Waiting)
| effect_close ph : pool_effect now p ph (Pool.set_closed true p) ph
| effect_drain ph : Pool.closed p = true → pool_effect now p ph (Pool.set_idle [] p) ph.

Lemma pool_effect_steps now p ph p' ph' ts1 ts2 :
  pool_effect now p ph p' ph' →
  rtc step (mk_system p now (ts1 ++ option_list ph ++ ts2))
    (mk_system p' now (ts1 ++ option_list ph' ++ ts2)).
Proof.
  destruct 1; [done|apply rtc_once..].
  - by apply (step_task p now ts1 ph ts2).
  - apply (step_get p now ts1 ts2).
  - apply step_close.
  - by apply step_drain.
Qed.

(** A pool about to lose its idle list is closed. *)
Definition draining_closed (r : t) (x : Task) : Prop :=
  match x with
  | DrainingPool q _ => ∀ p, arena r !! q = Some p → Pool.closed p = true
  | _ => True
  end.

Lemma rtask_pool r x r' x' ptr p :
  rtask r x r' x' → draining_closed r x → arena r !! ptr = Some p →
  ∃ p', arena r' !! ptr = Some p' ∧ pool_effect (clock r) p (phase_in ptr x) p' (phase_after ptr x').
Proof.
  intros Hx Hd Hp. assert (ptr < length (arena r))%nat as Hlt by by eapply lookup_lt_Some.
  rtask_cases Hx;
    try (exists p; split; [by destruct r|apply effect_none]).
  - exists p. split; [done|]. unfold next_lap. case_decide; apply effect_none.
  - injection Hst as _ <-. exists p. split; [by destruct r|apply effect_none].
  - exists p. split; [done|]. unfold next_lap. case_decide; apply effect_none.
  - exists p. apply pool_for_cases in Hpf as [[-> _]|(-> & _ & ->)].
    + split; [done|]. cbn. case_decide; constructor.
    + split; [destruct r; cbn in *; by apply lookup_app_l_Some|]. cbn.
      rewrite decide_False by lia. constructor.
  - rewrite (get_after_phase _ _ _ _ _ _ _ Hg). cbn. destruct (decide (q = ptr)) as [->|Hne].
    + simplify_eq. exists p'. split; [|by constructor].
      destruct r. cbn in *. by rewrite list_lookup_insert_eq.
    + exists p. split; [|constructor]. destruct r. cbn in *. by rewrite list_lookup_insert_ne.
  - injection He as <-. exists p. split; [by destruct r|apply effect_none].
  - destruct (decide (q = ptr)) as [->|Hne].
    + simplify_eq. exists p'. split; [destruct r; cbn in *; by rewrite list_lookup_insert_eq|].
      cbn. rewrite decide_True by done. destruct ph'; cbn; [rewrite decide_True by done|]; by constructor.
    + exists p. split; [destruct r; cbn in *; by rewrite list_lookup_insert_ne|].
      cbn. rewrite decide_False by done. destruct ph'; cbn; [rewrite decide_False by done|]; constructor.
  - destruct (decide (q = ptr)) as [->|Hne]; simplify_eq; eexists;
      (split; [destruct r; cbn in *; by rewrite ?list_lookup_insert_eq, ?list_lookup_insert_ne|]);
      constructor.
  - destruct (decide (q = ptr)) as [->|Hne]; simplify_eq; eexists;
      (split; [destruct r; cbn in *; by rewrite ?list_lookup_insert_eq, ?list_lookup_insert_ne|]);
      constructor. by apply Hd.
Qed.

(** ** What a task's step does to the rest *)

Definition pointers_of (x : Task) : list nat :=
  match x with
  | Getting _ q _ | Holding q _ => [q]
  | ClosingPools qs => qs
  | DrainingPool q qs => q :: qs
  | _ => []
  end.

(** The map and the tasks refer to pools there are; no two servers share one. *)
Definition in_range (r : t) (x : Task) : Prop :=
  Forall (λ q, q < length (arena r))%nat (pointers_of x).

Definition separate (r : t) : Prop :=
  ∀ addr addr' q, pools r !! addr = Some q → pools r !! addr' = Some q → addr = addr'.

Record tidy (r : t) : Prop := {
  tidy_map : pointers_valid r;
  tidy_separate : separate r;
  tidy_bookmarks : bookmarks_ok (bookmarks r)
}.

(** A new pool is the only one, and comes with a task that waits for it. *)
Definition grows (r r' : t) (x' : option Task) : Prop :=
  length (arena r') = length (arena r) ∨
  (arena r' = arena r ++ [new_pool (max_per_host r)] ∧
   ∃ a, x' = Some (Getting a (length (arena r)) Waiting)).

Lemma tidy_same r r' :
  pools r' = pools r → bookmarks r' = bookmarks r → length (arena r') = length (arena r) →
  tidy r → tidy r'.
Proof.
  intros Hp Hb Ha [Hm Hs Hk]. split; unfold pointers_valid, separate in *; [|by rewrite Hp|by rewrite Hb].
  by rewrite Hp, Ha.
Qed.

Lemma in_range_mono r r' x :
  (length (arena r) ≤ length (arena r'))%nat → in_range r x → in_range r' x.
Proof. intros Hl H. eapply Forall_impl; [exact H|]. cbn. intros. lia. Qed.

Lemma pool_for_tidy addr r ptr r' :
  pool_for addr r = (Ok ptr, r') → tidy r →
  tidy r' ∧ (ptr < length (arena r'))%nat ∧ max_per_host r' = max_per_host r ∧ clock r' = clock r ∧
  ∀ a, grows r r' (Some (Getting a ptr Waiting)).
Proof.
  intros [[-> Hq]|(-> & Hq & ->)]%pool_for_cases [Hm Hs Hb].
  - split_and!; [done|by apply (Hm addr)|done|done|]. intros a. by left.
  - destruct r as [se d m ta f ps n b c ar k o l]. cbn in *. rewrite length_app. cbn.
    split_and!; [|lia|done|done|intros a; right; eauto]. split; cbn; [| |done].
    + intros addr' q. cbn. rewrite length_app, lookup_insert_Some. cbn.
      intros [[<- <-]|[_ H]]; [lia|]. apply Hm in H. cbn in H. lia.
    + intros addr1 addr2 q. cbn. rewrite !lookup_insert_Some.
      intros [[<- <-]|[? H1]] [[<- ?]|[? H2]]; try done.
      * apply Hm in H2. cbn in H2. lia.
      * subst. apply Hm in H1. cbn in H1. lia.
      * by eapply Hs.
Qed.

(** A step that keeps the map, the bookmarks and the number of pools. *)
Lemma rest_same r r' x x' :
  pools r' = pools r → bookmarks r' = bookmarks r → length (arena r') = length (arena r) →
  max_per_host r' = max_per_host r → clock r' = clock r →
  (∀ x0, x' = Some x0 → pointers_of x0 ⊆ pointers_of x) →
  tidy r → in_range r x →
  tidy r' ∧ max_per_host r' = max_per_host r ∧ clock r' = clock r ∧ grows r r' x' ∧
  (∀ x0, x' = Some x0 → in_range r' x0).
Proof.
  intros Hp Hb Ha Hm Hc Hx Ht Hr. split_and!; [by eapply tidy_same|done|done|by left|].
  intros x0 Hx0. apply (in_range_mono r); [lia|]. unfold in_range in *. rewrite Forall_forall in *.
  intros q Hq. apply Hr. by eapply Hx.
Qed.

Lemma get_after_pointers p a q ph ph' x x0 :
  get_after p a q ph ph' x → x = Some x0 → pointers_of x0 ⊆ [q].
Proof. destruct 1; intros [= <-]; cbn; set_solver. Qed.

Lemma next_lap_pointers mode lap x0 : next_lap mode lap = Some x0 → pointers_of x0 = [].
Proof. unfold next_lap. case_decide; by intros [= <-]. Qed.

Lemma rtask_rest r x r' x' :
  rtask r x r' x' → tidy r → in_range r x →
  tidy r' ∧ max_per_host r' = max_per_host r ∧ clock r' = clock r ∧ grows r r' x' ∧
  (∀ x0, x' = Some x0 → in_range r' x0).
Proof.
  intros Hx Ht Hr.
  rtask_cases Hx;
    try (injection Hst as _ <-);
    try (eapply rest_same; [..|exact Ht|exact Hr]; try (destruct r; cbn; rewrite ?length_insert; done);
      intros x0; first [by intros Hx0%next_lap_pointers; rewrite Hx0; apply list_subseteq_nil
        |intros [= <-]; cbn; set_solver|discriminate]; fail).
  - destruct (pool_for_tidy _ _ _ _ Hpf Ht) as (? & ? & ? & ? & Hg). split_and!; [done..|].
    intros x0 [= <-]. by repeat constructor.
  - eapply rest_same; [..|exact Ht|exact Hr]; try (destruct r; cbn; rewrite ?length_insert; done).
    intros x0. by eapply get_after_pointers.
  - injection He as <-. destruct Ht as [Hm Hs Hb]. unfold pointers_valid, separate in *.
    destruct r as [se d m ta f ps n b c ar k o l]. cbn in *.
    split_and!; [split; cbn; [| |done]|done|done|by left|intros x0 [= <-]; constructor].
    + intros addr q. cbn. intros [_ H]%lookup_delete_Some. by apply (Hm addr).
    + intros a1 a2 q. cbn. intros [_ H1]%lookup_delete_Some [_ H2]%lookup_delete_Some. by eapply Hs.
  - eapply rest_same; [..|exact Ht|exact Hr]; try (destruct r; cbn; rewrite ?length_insert; done).
    intros x0. destruct ph'; [|done]. intros [= <-]. done.
  - destruct Ht as [Hm Hs Hb]. destruct r. split_and!; [|done|done|by left|].
    + split; [done..|]. by apply push_bookmark_ok.
    + intros x0 [= <-]. done.
  - split_and!; [|by destruct r..|by left; destruct r|].
    + destruct Ht as [Hm Hs Hb]. destruct r. split; [by intros ? ? ?|by intros ? ? ? ?|done].
    + intros x0 [= <-]. unfold in_range. rewrite Forall_forall. cbn [pointers_of].
      intros q ([addr q'] & -> & Hin)%list_elem_of_fmap. rewrite hash_iter_perm in Hin.
      apply elem_of_map_to_list in Hin. destruct r. by apply (tidy_map _ Ht addr).
Qed.

(** ** The invariant *)

Lemma task_step_closed now p ph p' ph' : task_step now p ph p' ph' → Pool.closed p' = Pool.closed p.
Proof.
  intros Hs; task_step_cases Hs;
    try (apply pop_Some in Hp as (_ & _ & _ & _ & ->)); by destruct p.
Qed.

Lemma pool_effect_closed now p ph p' ph' :
  pool_effect now p ph p' ph' → Pool.closed p = true → Pool.closed p' = true.
Proof.
  destruct 1 as [| ? ? ? Ht%task_step_closed| | |]; try done; [congruence|by destruct p..].
Qed.

(** Every pool is in a state its own tasks could have brought it to alone. *)
Definition alone (m : nat) (s : t * list Task) : Prop :=
  ∀ ptr p, arena s.1 !! ptr = Some p →
    ∃ now, rtc step (start (config (new_pool m)) now) (server_system ptr p s).

Record sound (m : nat) (s : t * list Task) : Prop := {
  sound_size : max_per_host s.1 = m;
  sound_tidy : tidy s.1;
  sound_range : Forall (in_range s.1) s.2;
  sound_draining : Forall (draining_closed s.1) s.2;
  sound_alone : alone m s
}.

(** No task is in a pool that is not there yet. *)
Lemma phases_out_of_range r ts : Forall (in_range r) ts → phases (length (arena r)) ts = [].
Proof.
  induction 1 as [|x ts Hx _ IH]; [done|]. rewrite phases_cons, IH.
  destruct x; cbn in *; try done; apply Forall_cons in Hx as [Hx _]; by rewrite decide_False by lia.
Qed.

Lemma draining_kept r x r' x' y :
  rtask r x r' x' → draining_closed r x → in_range r y → draining_closed r y → draining_closed r' y.
Proof.
  destruct y as [| | | | | | | | | | |q qs]; cbn; try done.
  intros Hx Hdx [Hq _]%Forall_cons Hd p' Hp'.
  destruct (lookup_lt_is_Some_2 _ _ Hq) as [p Hp].
  destruct (rtask_pool _ _ _ _ _ _ Hx Hdx Hp) as (p2 & Hp2 & He). simplify_eq.
  eapply pool_effect_closed; [done|by apply Hd].
Qed.

Lemma draining_new r x r' x' :
  rtask r x r' x' → draining_closed r x → ∀ x0, x' = Some x0 → draining_closed r' x0.
Proof.
  intros Hx; rtask_cases Hx;
    intros Hd x0; try (intros [= <-]; done); try done.
  - unfold next_lap. case_decide; by intros [= <-].
  - unfold next_lap. case_decide; by intros [= <-].
  - by destruct Hg; intros [= <-].
  - destruct ph'; by intros [= <-].
  - intros [= <-] p Hp. destruct r. cbn in *.
    rewrite list_lookup_insert_eq in Hp by by eapply lookup_lt_Some. injection Hp as <-. by destruct p0.
Qed.

(** A pool goes where its own steps can take it. *)
Lemma rtask_slot r ts1 x ts2 r' x' ptr p :
  rtask r x r' x' → draining_closed r x → clock r' = clock r → arena r !! ptr = Some p →
  ∃ p', arena r' !! ptr = Some p' ∧
    rtc step (server_system ptr p (r, ts1 ++ x :: ts2))
      (server_system ptr p' (r', ts1 ++ option_list x' ++ ts2)).
Proof.
  intros Hx Hdx Hc Hp. destruct (rtask_pool _ _ _ _ _ _ Hx Hdx Hp) as (p' & Hp' & He).
  exists p'. split; [done|]. unfold server_system. cbn [fst snd].
  rewrite (phases_app ptr ts1 (x :: ts2)), phases_cons, (phases_app ptr ts1 (option_list x' ++ ts2)),
    phases_option, Hc. by apply pool_effect_steps.
Qed.

Lemma sound_task m r ts1 x ts2 r' x' :
  rtask r x r' x' → sound m (r, ts1 ++ x :: ts2) → sound m (r', ts1 ++ option_list x' ++ ts2).
Proof.
  intros Hx [Hm Ht Hr Hd Hal]. cbn [fst snd] in *.
  pose proof Hr as [Hr1 [Hrx Hr2]%Forall_cons]%Forall_app.
  pose proof Hd as [Hd1 [Hdx Hd2]%Forall_cons]%Forall_app.
  destruct (rtask_rest _ _ _ _ Hx Ht Hrx) as (Ht' & Hm' & Hc' & Hg & Hr').
  assert (length (arena r) ≤ length (arena r'))%nat as Hl.
  { destruct Hg as [->|[-> _]]; [done|]. rewrite length_app. lia. }
  split; cbn [fst snd]; [congruence|done| | |].
  - rewrite !Forall_app. split_and!.
    + eapply Forall_impl; [exact Hr1|]. intros y. by apply in_range_mono.
    + destruct x' as [x'|]; constructor; auto.
    + eapply Forall_impl; [exact Hr2|]. intros y. by apply in_range_mono.
  - assert (∀ ts, Forall (in_range r) ts → Forall (draining_closed r) ts → Forall (draining_closed r') ts)
      as Hkept.
    { intros ts H1 H2. rewrite Forall_forall in *. intros y Hy. eapply draining_kept; eauto. }
    rewrite !Forall_app. split_and!; [by apply Hkept| |by apply Hkept].
    destruct x' as [x'|]; constructor; [|constructor]. by eapply draining_new.
  - intros ptr p' Hp'. cbn [fst] in Hp'. unfold server_system. cbn [fst snd].
    destruct (decide (ptr < length (arena r))%nat) as [Hlt|Hge].
    + destruct (lookup_lt_is_Some_2 _ _ Hlt) as [p Hp].
      destruct (rtask_slot _ ts1 _ ts2 _ _ _ _ Hx Hdx Hc' Hp) as (p2 & Hp2 & He). simplify_eq.
      destruct (Hal ptr p Hp) as [now Hnow]. exists now. by etrans.
    + rewrite phases_app, phases_option, Hc'.
      destruct Hg as [Hg|[Hg [a ->]]]; [apply lookup_lt_Some in Hp'; lia|].
      rewrite Hg in Hp'. assert (ptr = length (arena r)) as ->.
      { apply lookup_lt_Some in Hp'. rewrite length_app in Hp'. cbn in Hp'. lia. }
      rewrite lookup_app_r, Nat.sub_diag in Hp' by lia. injection Hp' as <-.
      rewrite (phases_out_of_range r ts1 Hr1), (phases_out_of_range r ts2 Hr2), Hm. cbn.
      rewrite decide_True by done. exists (clock r). apply rtc_once.
      apply (step_get (new_pool m) (clock r) [] []).
Qed.

Lemma sound_step m s s' : rstep s s' → sound m s → sound m s'.
Proof.
  destruct 1 as [r ts1 x ts2 r' x' Hx|r ts x Hx|r d ts].
  - by apply sound_task.
  - intros [Hm Ht Hr Hd Hal]. split; cbn [fst snd] in *; [done|done| | |].
    + constructor; [destruct x; try done; constructor|done].
    + constructor; [by destruct x|done].
    + intros ptr p Hp. destruct (Hal ptr p Hp) as [now Hnow]. exists now.
      unfold server_system in *. cbn [fst snd] in *. rewrite phases_cons. by destruct x.
  - intros [Hm Ht Hr Hd Hal]. destruct r. split; cbn [fst snd] in *.
    + done.
    + by destruct Ht.
    + done.
    + done.
    + intros ptr p Hp. destruct (Hal ptr p Hp) as [now Hnow]. exists now.
      etrans; [exact Hnow|]. apply rtc_once. apply step_time.
Qed.

Lemma sound_new seeds db m now connects : sound m (new seeds db m now connects, []).
Proof.
  split; [done| |constructor|constructor|by intros ? ?]. split; [by intros ? ? ?|by intros ? ? ? ?|].
  split; [constructor|]. cbn. lia.
Qed.

Lemma sound_reachable seeds db m now connects s :
  rtc rstep (new seeds db m now connects, []) s → sound m s.
Proof.
  revert s. apply rtc_ind_r; [apply sound_new|]. intros s s' _ Hs IH. by eapply sound_step.
Qed.

(** The same of every step. *)
Lemma rstep_slot m s s' ptr p :
  rstep s s' → sound m s → arena s.1 !! ptr = Some p →
  ∃ p', arena s'.1 !! ptr = Some p' ∧ rtc step (server_system ptr p s) (server_system ptr p' s').
Proof.
  destruct 1 as [r ts1 x ts2 r' x' Hx|r ts x Hx|r d ts]; intros [_ Ht Hr Hd _] Hp; cbn [fst snd] in *.
  - apply Forall_app in Hr as [_ [Hrx _]%Forall_cons]. apply Forall_app in Hd as [_ [Hdx _]%Forall_cons].
    destruct (rtask_rest _ _ _ _ Hx Ht Hrx) as (_ & _ & Hc & _). by apply rtask_slot.
  - exists p. split; [done|]. unfold server_system. cbn [fst snd]. rewrite phases_cons. by destruct x.
  - exists p. destruct r. split; [done|]. apply rtc_once. apply step_time.
Qed.

(** ** Closing *)

(** No checkout is past the check of [closed]. *)
Definition at_rest (x : Task) : Prop :=
  match x with
  | Freshening _ _ | Choosing _ _ | Trying _ _ _ _ _ | Getting _ _ _ | Evicting _ => False
  | _ => True
  end.

Definition settled (s : t * list Task) : Prop :=
  RoutedPool.closed s.1 = true ∧ pools s.1 = ∅ ∧ Forall at_rest s.2.

Lemma settled_task r x r' x' :
  rtask r x r' x' → RoutedPool.closed r = true → pools r = ∅ → at_rest x →
  RoutedPool.closed r' = true ∧ pools r' = ∅ ∧ length (arena r') = length (arena r) ∧
  (∀ x0, x' = Some x0 → at_rest x0).
Proof.
  intros Hx; rtask_cases Hx;
    intros Hc Hp Hrest; try done; try congruence;
    try (destruct r; cbn in *; rewrite ?length_insert; split_and!; [done..|by intros x0 [= <-]]).
  destruct r. cbn in *. rewrite length_insert. split_and!; [done..|]. destruct ph'; by intros x0 [= <-].
Qed.

Lemma settled_step s s' :
  rstep s s' → settled s → settled s' ∧ length (arena s'.1) = length (arena s.1).
Proof.
  destruct 1 as [r ts1 x ts2 r' x' Hx|r ts x Hx|r d ts]; intros (Hc & Hp & Hr); cbn [fst snd] in *.
  - apply Forall_app in Hr as [Hr1 [Hrx Hr2]%Forall_cons].
    destruct (settled_task _ _ _ _ Hx Hc Hp Hrx) as (? & ? & ? & Hx'). split; [|done].
    split_and!; [done..|]. cbn [snd]. rewrite !Forall_app. split_and!; [done| |done].
    destruct x'; constructor; auto.
  - split; [|done]. split_and!; [done..|]. constructor; [by destruct x|done].
  - by destruct r.
Qed.

(** ** Properties *)

(** C22: the routed pool implements its servers' pools. In every interleaving of
    checkouts, managed transactions, refreshes and closing, each server's pool,
    with the phases of the tasks that are in it, is a state of the lone pool's
    system: the one [PoolConcurrency] describes, started with [max_per_host]
    connections, can reach it. *)
Theorem server_pools_refine seeds db m now connects r ts ptr p :
  rtc rstep (new seeds db m now connects, []) (r, ts) → arena r !! ptr = Some p →
  ∃ now0, rtc step (start (config (new_pool m)) now0) (mk_system p (clock r) (phases ptr ts)).
Proof. intros Hs Hp. by apply (sound_alone _ _ (sound_reachable _ _ _ _ _ _ Hs)). Qed.

(** C23: the cluster's bounds. In every such interleaving: a server's pool is at
    most [max_per_host] connections large, idle ones and those in use, made or
    given back together, and those idle are intact; the map of pools refers to
    pools there are and no two servers share one; and the bookmarks are at most
    sixteen, each once. *)
Theorem cluster_bounded seeds db m now connects r ts :
  rtc rstep (new seeds db m now connects, []) (r, ts) →
  (∀ ptr p, arena r !! ptr = Some p →
     (permits p + count holds (phases ptr ts) = m `max` 1)%nat ∧
     (length (idle p) + count committed (phases ptr ts) ≤ m `max` 1)%nat ∧
     Forall (λ i, BoltConnection.is_reusable (idle_conn i) = true) (idle p)) ∧
  pointers_valid r ∧ separate r ∧ bookmarks_ok (bookmarks r).
Proof.
  intros Hs%sound_reachable. pose proof (sound_tidy _ _ Hs) as [? ? ?]. split; [|done].
  intros ptr p Hp. destruct (sound_alone _ _ Hs ptr p Hp) as [now0 Hr].
  apply invariant_reachable in Hr as (Hsize & ? & ? & ? & _).
  change (max_size (config (new_pool m))) with m in Hsize. by rewrite <- Hsize.
Qed.

(** C25: a closed cluster stays closed. Once [close] has set the flag and emptied
    the map, and with no checkout past its check of the flag, no interleaving
    makes a pool or puts one in the map again, and each server's pool that was
    drained stays closed and empty. *)
Theorem closed_cluster_stays_closed seeds db m now connects s s' :
  rtc rstep (new seeds db m now connects, []) s → settled s → rtc rstep s s' →
  pools s'.1 = ∅ ∧ length (arena s'.1) = length (arena s.1) ∧
  ∀ ptr p, arena s.1 !! ptr = Some p → drained (server_system ptr p s) →
    ∃ p', arena s'.1 !! ptr = Some p' ∧ Pool.closed p' = true ∧ idle p' = [].
Proof.
  intros Hreach%sound_reachable Hset Hs.
  assert (settled s' ∧ length (arena s'.1) = length (arena s.1) ∧
    ∀ ptr p, arena s.1 !! ptr = Some p → ∃ p', arena s'.1 !! ptr = Some p' ∧
      rtc step (server_system ptr p s) (server_system ptr p' s')) as ((_ & Hp & _) & Hl & Hslot).
  { revert Hreach Hset. induction Hs as [s|s1 s2 s3 H12 _ IH]; intros Hreach Hset; [naive_solver|].
    destruct (settled_step _ _ H12 Hset) as [Hset2 Hl2].
    destruct (IH (sound_step _ _ _ H12 Hreach) Hset2) as (? & Hl3 & Hslot).
    split_and!; [done|congruence|]. intros ptr p Hp.
    destruct (rstep_slot _ _ _ _ _ H12 Hreach Hp) as (p2 & Hp2 & H2).
    destruct (Hslot ptr p2 Hp2) as (p3 & Hp3 & H3). exists p3. split; [done|by etrans]. }
  split_and!; [done..|]. intros ptr p Hp' Hd. destruct (Hslot ptr p Hp') as (p2 & ? & Hsteps).
  exists p2. split; [done|]. destruct (closed_pool_empty _ _ Hsteps Hd) as (? & ? & _). done.
Qed.

(** A task's steps with nothing else there. *)
Lemma rstep_lone r x r' x' ts :
  rtask r x r' x' → rstep (r, x :: ts) (r', option_list x' ++ ts).
Proof. apply (rstep_task r [] x ts). Qed.

(** C26: the race that proviso is about. A checkout that passed its check of the
    flag before [close] ran, whole, still makes its server's pool and puts it in
    the emptied map: when it has given its connection back, nothing runs, the
    routed pool is closed, and that pool, in the map, is open and keeps the
    connection idle. *)
Theorem close_misses_late_pool seeds db m now connects addr c :
  BoltConnection.is_reusable c = true →
  ∃ r0 r1 r2 mode lap addrs start turns,
    rtc rstep (new seeds db m now connects, []) (r0, [Trying mode lap addrs start turns]) ∧
    rtc rstep (r0, [Closing; Trying mode lap addrs start turns])
      (r1, [ClosingPools []; Trying mode lap addrs start turns]) ∧
    rtc rstep (r1, [Trying mode lap addrs start turns]) (r2, []) ∧
    RoutedPool.closed r2 = true ∧
    ∃ ptr p, pools r2 !! addr = Some ptr ∧ arena r2 !! ptr = Some p ∧ Pool.closed p = false ∧
      idle p = [mk_idle c now now].
Proof.
  intros Hc. set (ta := mk_table 0 None [] [addr] []).
  set (at_ cl ps ar := mk seeds db m ta (Some now) ps
    (λ m', if decide (m' = Read) then ((0 + 1) mod 2 ^ 64)%N else 0%N) [] cl ar now connects []).
  set (p l n := mk_pool (config (new_pool m)) l n false None).
  set (n := pred (m `max` 1)%nat). set (i := mk_idle c now now).
  set (trying := Trying Read 0 [addr] 0 (seq 0 1)). set (a := mk_attempt Read 0 [addr] 0 [] addr).
  set (r_at l n := at_ true {[addr := 0%nat]} [p l n]).
  assert (∀ l k l' k' ph ph' x, task_step now (p l k) ph (p l' k') ph' →
    get_after (p l k) a 0 ph ph' x →
    rstep (r_at l k, [Getting a 0 ph]) (r_at l' k', option_list x ++ [])) as Hget.
  { intros l k l' k' ph ph' x Ht Hg. by apply rstep_lone, (get_step (r_at l k) a 0 (p l k) ph (p l' k') ph' x). }
  assert (∀ l k l' k' ph ph', task_step now (p l k) ph (p l' k') ph' →
    rstep (r_at l k, [Holding 0 ph]) (r_at l' k', option_list (Holding 0 <$> ph') ++ [])) as Hhold.
  { intros l k l' k' ph ph' Ht. by apply rstep_lone, (hold_step (r_at l k) 0 (p l k) ph (p l' k') ph'). }
  exists (at_ false ∅ []), (at_ true ∅ []), (r_at [i] (S n)), Read, 0%nat, [addr], 0%N, (seq 0 1).
  split_and!; [| | |done|].
  - eapply rtc_l; [by apply (rstep_begin _ [] (Entering Read))|].
    eapply rtc_l; [by apply rstep_lone, enter_open|].
    eapply rtc_l; [apply rstep_lone, (freshen_refreshed _ _ _ ta)|].
    apply rtc_once. apply (rstep_lone _ (Choosing Read 0) _ (Some trying)). by apply choose.
  - eapply rtc_l; [apply rstep_lone, close_flag|].
    apply rtc_once. apply (rstep_lone _ Draining _ (Some (ClosingPools []))).
    pose proof (close_map (at_ true ∅ [])) as H.
    assert (hash_iter (∅ : HashMap nat) = []) as He.
    { apply Permutation_nil_r. etrans; [apply hash_iter_perm|]. by rewrite map_to_list_empty. }
    cbn [pools at_] in H. rewrite He in H. exact H.
  - eapply rtc_l; [apply (rstep_lone (at_ true ∅ []) trying (r_at [] (m `max` 1)%nat)
      (Some (Getting a 0 Waiting))), try_server; done|].
    eapply rtc_l; [apply (Hget [] (m `max` 1)%nat [] n Waiting (Some Acquired) (Some (Getting a 0 Acquired)));
      [by apply (acquire_permit now (p [] (m `max` 1)%nat) n); [|cbn; lia]|by apply get_goes_on]|].
    eapply rtc_l; [apply (Hget [] n [] n Acquired (Some Minting) (Some (Getting a 0 Minting)));
      [by apply pop_empty|by apply get_goes_on]|].
    eapply rtc_l; [apply (Hget [] n [] n Minting (Some (Using c now)) (Some (Holding 0 (Using c now))));
      [apply mint_ok|apply get_returns]|].
    eapply rtc_l; [apply (Hhold [] n [] n (Using c now) (Some (Dropping i))), drop_keeps|].
    { unfold keeps_on_drop. by rewrite Hc. }
    eapply rtc_l; [apply (Hhold [] n [i] n (Dropping i) (Some Releasing)), drop_pushes|].
    apply rtc_once. apply (Hhold [i] n [i] (S n) Releasing None), drop_releases.
  - exists 0%nat, (p [i] (S n)). split_and!; try done. apply lookup_singleton_eq.
Qed.

End steps.

(** ** Witnesses *)

(** Two connections to a server at most; one is in use, and a writer comes in. *)
Definition fresh_cluster : t := new ["a:7687"] None 2 0 [].

Definition read_table : RoutingTable := mk_table 300 None ["a:7687"] ["b:7687"] [].

Definition server_pool (closed_ : bool) (free : nat) : Pool :=
  mk_pool (config (new_pool 2)) [] free closed_ None.

Definition one_server (closed_ : bool) (ps : HashMap nat) (p : Pool) : t :=
  mk ["a:7687"] None 2 read_table (Some 0%N) ps
    (λ m, if decide (m = Read) then 1%N else 0%N) [] closed_ [p] 0 [] [].

Definition in_use : Task := Holding 0 (Using (waiting false 0 [] 0) 0).

Definition held : t * list Task :=
  (one_server false {["b:7687" := 0%nat]} (server_pool false 1), [Entering Write; in_use]).

Lemma held_reachable : rtc (@rstep listing_order) (fresh_cluster, []) held.
Proof.
  set (c := waiting false 0 [] 0). set (a := mk_attempt Read 0 ["b:7687"] 0 [] "b:7687").
  set (r0 := set_fetched_at (Some 0%N) (set_table read_table fresh_cluster)).
  set (r1 := set_rr (λ m, if decide (m = Read) then 1%N else 0%N) r0).
  set (r2 p := one_server false {["b:7687" := 0%nat]} p).
  eapply rtc_l; [by apply (rstep_begin _ [] (Entering Read))|].
  eapply rtc_l; [by apply rstep_lone, enter_open|].
  eapply rtc_l; [apply rstep_lone, (freshen_refreshed _ _ _ read_table)|].
  apply (rtc_l _ _ (r1, [Trying Read 0 ["b:7687"] 0 (seq 0 1)])).
  { by apply (rstep_lone r0 (Choosing Read 0) r1 (Some (Trying Read 0 ["b:7687"] 0 (seq 0 1)))), choose. }
  apply (rtc_l _ _ (r2 (server_pool false 2), [Getting a 0 Waiting])).
  { by apply (rstep_lone r1 (Trying Read 0 ["b:7687"] 0 (seq 0 1)) _ (Some (Getting a 0 Waiting))),
      try_server. }
  apply (rtc_l _ _ (r2 (server_pool false 1), [Getting a 0 Acquired])).
  { apply (rstep_lone _ (Getting a 0 Waiting) (r2 (server_pool false 1)) (Some (Getting a 0 Acquired))),
      (get_step (r2 (server_pool false 2)) a 0 (server_pool false 2) Waiting (server_pool false 1) (Some Acquired)); [done| |].
    - by apply (acquire_permit 0 (server_pool false 2) 1).
    - by apply get_goes_on. }
  apply (rtc_l _ _ (r2 (server_pool false 1), [Getting a 0 Minting])).
  { apply (rstep_lone _ (Getting a 0 Acquired) (r2 (server_pool false 1)) (Some (Getting a 0 Minting))),
      (get_step (r2 (server_pool false 1)) a 0 (server_pool false 1) Acquired (server_pool false 1) (Some Minting)); [done| |].
    - by apply pop_empty.
    - by apply get_goes_on. }
  apply (rtc_l _ _ (r2 (server_pool false 1), [in_use])).
  { apply (rstep_lone _ (Getting a 0 Minting) (r2 (server_pool false 1)) (Some (in_use))),
      (get_step (r2 (server_pool false 1)) a 0 (server_pool false 1) Minting (server_pool false 1) (Some (Using c 0))); [done| |].
    - apply mint_ok.
    - apply get_returns. }
  apply rtc_once. by apply (rstep_begin _ [in_use] (Entering Write)).
Qed.

Lemma server_pools_refine_witness :
  ∃ now0, rtc (@step listing_order) (start (config (new_pool 2)) now0)
    (mk_system (server_pool false 1) 0 [Using (waiting false 0 [] 0) 0]).
Proof.
  exact (@server_pools_refine listing_order ["a:7687"] None 2 0%N [] held.1 held.2 0
    (server_pool false 1) held_reachable eq_refl).
Defined.

Lemma cluster_bounded_witness :
  (permits (server_pool false 1) + count holds (phases 0 held.2) = 2)%nat ∧
  (length (idle (server_pool false 1)) + count committed (phases 0 held.2) ≤ 2)%nat ∧
  separate held.1.
Proof.
  destruct (@cluster_bounded listing_order ["a:7687"] None 2 0%N [] held.1 held.2 held_reachable)
    as (Hp & _ & Hs & _).
  destruct (Hp 0%nat (server_pool false 1) eq_refl) as (? & ? & _). done.
Defined.

(** [close] has run; the connection is still out. *)
Definition shut_held : t * list Task := (one_server true ∅ (server_pool true 1), [in_use]).

Lemma shut_held_reachable : rtc (@rstep listing_order) (fresh_cluster, []) shut_held.
Proof.
  etrans; [exact held_reachable|]. unfold held.
  set (r cl ps p := one_server cl ps p).
  set (ps := {["b:7687" := 0%nat]} : HashMap nat). set (open := server_pool false 1).
  set (shut_pool := server_pool true 1).
  eapply rtc_l; [by apply (rstep_begin _ _ Closing)|].
  apply (rtc_l _ _ (r true ps open, [Draining; Entering Write; in_use])).
  { by apply (rstep_lone _ Closing _ (Some Draining)), close_flag. }
  apply (rtc_l _ _ (r true ps open, [Draining; in_use])).
  { by apply (rstep_task (r true ps open) [Draining] (Entering Write) [in_use] _ None), enter_closed. }
  apply (rtc_l _ _ (r true ∅ open, [ClosingPools [0%nat]; in_use])).
  { assert ([0%nat] = (@hash_iter listing_order nat ps).*2) as -> by (vm_compute; reflexivity).
    apply (rstep_lone (r true ps open) Draining (r true ∅ open) (Some (ClosingPools _))).
    exact (close_map (r true ps open)). }
  apply (rtc_l _ _ (r true ∅ shut_pool, [DrainingPool 0 []; in_use])).
  { by apply (rstep_lone (r true ∅ open) _ _ (Some (DrainingPool 0 []))),
      (close_one (r true ∅ open) 0 [] open). }
  apply (rtc_l _ _ (r true ∅ shut_pool, [ClosingPools []; in_use])).
  { by apply (rstep_lone (r true ∅ shut_pool) _ _ (Some (ClosingPools []))),
      (close_idle (r true ∅ shut_pool) 0 [] shut_pool). }
  apply rtc_once. by apply (rstep_lone (r true ∅ shut_pool) (ClosingPools []) _ None), close_done.
Qed.

(** Then the connection comes back. *)
Lemma closed_cluster_stays_closed_witness :
  pools shut_held.1 = ∅ ∧
  ∃ p', arena shut_held.1 !! 0%nat = Some p' ∧ Pool.closed p' = true ∧ idle p' = [].
Proof.
  destruct (@closed_cluster_stays_closed listing_order ["a:7687"] None 2 0%N [] shut_held
    (shut_held.1, [Holding 0 Releasing]) shut_held_reachable) as (Hp & _ & Hslot).
  - split_and!; [done|done|by repeat constructor].
  - apply rtc_once. apply (rstep_lone shut_held.1 in_use _ (Some (Holding 0 Releasing))).
    apply (hold_step shut_held.1 0 (server_pool true 1) _ (server_pool true 1) (Some Releasing)); [done|].
    by apply drop_discards.
  - split; [exact Hp|]. apply (Hslot 0%nat (server_pool true 1)); [done|].
    split_and!; [done|done|by repeat constructor].
Defined.

Lemma close_misses_late_pool_witness :
  let c := waiting false 0 [] 0 in
  ∃ r0 r1 r2 mode lap addrs start turns,
    rtc (@rstep listing_order) (fresh_cluster, []) (r0, [Trying mode lap addrs start turns]) ∧
    rtc (@rstep listing_order) (r0, [Closing; Trying mode lap addrs start turns])
      (r1, [ClosingPools []; Trying mode lap addrs start turns]) ∧
    rtc (@rstep listing_order) (r1, [Trying mode lap addrs start turns]) (r2, []) ∧
    RoutedPool.closed r2 = true ∧
    ∃ ptr p, pools r2 !! "b:7687" = Some ptr ∧ arena r2 !! ptr = Some p ∧ Pool.closed p = false ∧
      idle p = [mk_idle c 0 0].
Proof.
  intros c. by apply (@close_misses_late_pool listing_order ["a:7687"] None 2 0%N [] "b:7687" c).
Defined.
