(* ===== verification/RoutedProgress.v ===== *)
(** * Progress of the routed pool's tasks

    [PoolProgress] for tasks on a routed pool: a checkout turns from server to
    server and from table to table, waits in the pools of several servers, and
    [close] goes through the pools. The tables that routers send may be of any
    length, so no number bounds the steps; but a task reads the table at most
    twice, and between two readings a measure decreases with every step. And some
    task can always take one, so when users give back what they hold, everything
    returns. *)

From Stdlib Require Import Relation_Operators Lexicographic_Product.
From S2P Require Import Prelude Value Message Error Routing Transport Connection Receive Exchange.
From S2P Require Import Safety Guarantees Pool PoolConcurrency PoolProgress Routed RoutedSpec.
From S2P Require Import RoutedConcurrency.
Import RoutedPool.

Local Open Scope nat_scope.

Section progress.
Context {hash : HashIter}.

(** ** The measure *)

(** How often the task may yet read the table: once in each of two laps. *)
Definition laps_left (lap : nat) : nat := match lap with 0 => 1 | S _ => 0 end.

Definition readings (x : Task) : nat :=
  match x with
  | Entering _ => 2
  | Freshening _ lap | Choosing _ lap => S (laps_left lap)
  | Trying _ lap _ _ _ => laps_left lap
  | Getting a _ _ | Evicting a => laps_left (at_lap a)
  | _ => 0
  end.

(** What a turn of [acquire]'s loop may take: a checkout from the server's pool,
    the eviction after it, and the pool's place in the map. *)
Definition turn_steps : nat := 14.

(** How many steps it has before it does. *)
Definition work (x : Task) : nat :=
  match x with
  | Entering _ => 3
  | Freshening _ _ => 2
  | Choosing _ _ => 1
  | Trying _ _ _ _ turns => turn_steps * length turns + 3
  | Getting a _ ph => steps_left ph + turn_steps * length (at_turns a) + 5
  | Evicting a => turn_steps * length (at_turns a) + 4
  | Holding _ ph => steps_left ph
  | Refreshing => 1
  | Closing => 3
  | Draining => 2
  | ClosingPools ptrs => 2 * length ptrs + 1
  | DrainingPool _ ptrs => 2 * length ptrs + 2
  end.

Definition all_readings (ts : list Task) : nat := sum_list_with readings ts.
Definition all_work (ts : list Task) : nat := sum_list_with work ts.

(** Idle connections, to be popped and probed, and pools, to be closed. *)
Definition stock (r : t) : nat :=
  2 * sum_list_with (λ p, length (idle p)) (arena r) + 2 * size (pools r).

Definition cluster_rank (s : t * list Task) : nat * nat :=
  (all_readings s.2, all_work s.2 + stock s.1).

(** The step is the user's own. *)
Definition used_on (x : Task) (x' : option Task) : bool :=
  match x, x' with
  | Holding _ (Using _ _), Some (Holding _ (Using _ _)) => true
  | _, _ => false
  end.

(** The caller drops a checkout that waits, or a [close] with pools to go. *)
Definition abandoned (x : Task) (x' : option Task) : bool :=
  match x, x' with
  | Getting _ _ Waiting, None | ClosingPools (_ :: _), None => true
  | _, _ => false
  end.

(** A sum over the tasks, around the one that moves. *)
Lemma sum_option {A} (f : A → nat) ts1 x ts2 :
  sum_list_with f (ts1 ++ option_list x ++ ts2) =
  sum_list_with f ts1 + from_option f 0 x + sum_list_with f ts2.
Proof. rewrite !sum_list_with_app. destruct x; cbn; lia. Qed.

(** Replacing one pool. *)
Lemma sum_insert {A} (f : A → nat) (l : list A) i x y :
  l !! i = Some x → sum_list_with f (<[i := y]> l) + f x = sum_list_with f l + f y.
Proof.
  revert i. induction l as [|z l IH]; intros [|i] H; try done.
  - injection H as ->. cbn. lia.
  - change (<[S i := y]> (z :: l)) with (z :: <[i := y]> l). cbn [sum_list_with].
    specialize (IH i H). lia.
Qed.

Lemma size_delete_le {A} (m : HashMap A) k : size (delete k m) ≤ size m.
Proof. rewrite map_size_delete. case_match; cbn; lia. Qed.

(** Fewer readings to come, or no more of them and less work before the next. *)
Definition sooner (r' : t) (x' : option Task) (r : t) (x : Task) : Prop :=
  from_option readings 0 x' < readings x ∨
  (from_option readings 0 x' ≤ readings x ∧ from_option work 0 x' + stock r' < work x + stock r).

Lemma next_lap_sooner r mode lap x :
  readings x = laps_left lap → 2 < work x → sooner r (next_lap mode lap) r x.
Proof.
  intros Hr Hw. right. rewrite Hr. unfold next_lap. case_decide; subst; cbn; lia.
Qed.

Lemma pool_step_stock r ptr p now ph p' ph' :
  arena r !! ptr = Some p → task_step now p ph p' ph' →
  left_after ph' + stock (set_arena (<[ptr := p']> (arena r)) r) + (if by_user ph ph' then 0 else 1)
    ≤ steps_left ph + stock r.
Proof.
  intros Hp Ht%task_step_left. unfold stock.
  pose proof (sum_insert (λ p, length (idle p)) _ _ _ p' Hp) as Hs. cbn in Hs.
  destruct r. cbn in *. lia.
Qed.

(** What a checkout's outcome leaves of the task. *)
Lemma get_after_left p a ptr ph ph' x :
  get_after p a ptr ph ph' x →
  from_option readings 0 x ≤ laps_left (at_lap a) ∧
  from_option work 0 x ≤ left_after ph' + turn_steps * length (at_turns a) + 5 ∧
  (by_user ph ph' = true → from_option work 0 x < left_after ph' + turn_steps * length (at_turns a) + 5).
Proof. destruct 1; cbn; split_and!; try lia; destruct ph; try done; destruct ph'; done. Qed.

Lemma rtask_sooner r x r' x' : rtask r x r' x' → used_on x x' = false → sooner r' x' r x.
Proof.
  intros Hx Hu.
  rtask_cases Hx;
    try done; try (right; destruct r; cbn; lia); try (left; cbn; lia).
  - left. unfold next_lap. case_decide; subst; cbn; lia.
  - apply next_lap_sooner; cbn; lia.
  - right. cbn. split; [done|]. unfold turn_steps.
    apply pool_for_cases in Hpf as [[-> _]|(_ & Hnew & ->)]; [lia|].
    unfold stock. destruct r. cbn in *. rewrite sum_list_with_app, map_size_insert_None by done.
    cbn. lia.
  - pose proof (pool_step_stock _ _ _ _ _ _ _ Hq Hts) as Hp. apply get_after_left in Hg.
    destruct Hg as (? & ? & Hby). right. split; [done|]. cbn [work].
    destruct (by_user ph ph'); [specialize (Hby eq_refl)|]; lia.
  - injection He as <-. right. split; [done|]. unfold stock. destruct r as [? ? ? ? ? ps]. cbn.
    pose proof (size_delete_le ps (at_addr a)). lia.
  - pose proof (pool_step_stock _ _ _ _ _ _ _ Hq Hts) as Hp.
    assert (by_user ph ph' = false) as Hby by by destruct ph, ph' as [[]|].
    rewrite Hby in Hp. right. destruct ph' as [ph'|]; cbn in *; lia.
  - right. split; [done|]. unfold stock. destruct r as [? ? ? ? ? ps]. cbn.
    rewrite length_fmap, map_size_empty.
    assert (length (hash_iter ps) = size ps) as ->; [|lia].
    rewrite (hash_iter_perm ps). apply length_map_to_list.
  - right. split; [done|]. unfold stock.
    pose proof (sum_insert (λ p, length (idle p)) _ _ _ (Pool.set_closed true p0) Hq) as H.
    destruct r, p0. cbn in *. lia.
  - right. split; [done|]. unfold stock.
    pose proof (sum_insert (λ p, length (idle p)) _ _ _ (Pool.set_idle [] p0) Hq) as H.
    destruct r, p0. cbn in *. lia.
Qed.

(** ** Schedules with the cluster left to itself *)

(** A step of a task that is neither its user's own nor a call abandoned. *)
Inductive rserve : t * list Task → t * list Task → Prop :=
| rserve_task r ts1 x ts2 r' x' :
    rtask r x r' x' → used_on x x' = false → abandoned x x' = false →
    rserve (r, ts1 ++ x :: ts2) (r', ts1 ++ option_list x' ++ ts2).

Lemma rserve_step s s' : rserve s s' → rstep s s'.
Proof. destruct 1. by constructor. Qed.

Lemma rserve_rank s s' :
  rserve s s' → slexprod nat nat lt lt (cluster_rank s') (cluster_rank s).
Proof.
  destruct 1 as [r ts1 x ts2 r' x' Hx Hu _]. apply rtask_sooner in Hx; [|done].
  unfold cluster_rank, all_readings, all_work. cbn [fst snd].
  change (x :: ts2) with (option_list (Some x) ++ ts2). rewrite !sum_option. cbn [from_option option_fmap].
  destruct Hx as [?|[[Hlt|Heq]%Nat.lt_eq_cases ?]]; [left; lia|left; lia|].
  rewrite Heq. right. lia.
Qed.

Lemma rserve_wf : well_founded (flip rserve).
Proof.
  apply (wf_projected (slexprod nat nat lt lt) cluster_rank); [|apply wf_slexprod; exact lt_wf].
  intros s2 s1 H. by apply rserve_rank.
Qed.

(** ** No deadlock *)

(** What a task is in the middle of is what its program can be in the middle of. *)
Definition proper (x : Task) : Prop :=
  match x with
  | Trying _ _ addrs _ _ => addrs ≠ []
  | Getting a _ ph => at_addrs a ≠ [] ∧ (in_checkout ph = true ∨ ph = Waiting ∨ ph = Releasing)
  | Evicting a => at_addrs a ≠ []
  | Holding _ ph => holds ph = true
  | _ => True
  end.

Lemma task_step_holds now p ph p' ph' ph'' :
  task_step now p ph p' ph' → ph' = Some ph'' → holds ph'' = true.
Proof. destruct 1; by intros [= <-]. Qed.

Lemma get_after_proper now p p' a ptr ph ph' x x' :
  task_step now p ph p' ph' → get_after p a ptr ph ph' x → proper (Getting a ptr ph) →
  x = Some x' → proper x'.
Proof. intros Ht. destruct 1; intros [? _]; intros [= <-]; cbn; auto. Qed.

Lemma next_lap_proper mode lap x : next_lap mode lap = Some x → proper x.
Proof. unfold next_lap. case_decide; by intros [= <-]. Qed.

Lemma rtask_proper r x r' x' x0 : rtask r x r' x' → proper x → x' = Some x0 → proper x0.
Proof.
  intros Hx; rtask_cases Hx;
    intros Hp; try (by intros [= <-]); try by intros ?%next_lap_proper.
  - intros [= <-]. cbn in *. auto.
  - by eapply get_after_proper.
  - destruct ph' as [ph'|]; intros [= <-]. by eapply task_step_holds.
Qed.

Lemma proper_step s s' : rstep s s' → Forall proper s.2 → Forall proper s'.2.
Proof.
  destruct 1 as [r ts1 x ts2 r' x' Hx|r ts x Hx|r d ts]; cbn [snd]; [|by constructor; [destruct x|]|done].
  rewrite !Forall_app, Forall_cons. intros (? & ? & ?). split_and!; [done| |done].
  destruct x'; constructor; [|constructor]. by eapply rtask_proper.
Qed.

Lemma proper_steps s s' : rtc rstep s s' → Forall proper s.2 → Forall proper s'.2.
Proof. induction 1; eauto using proper_step. Qed.

Lemma server_at_Some addrs start i : addrs ≠ [] → ∃ addr, server_at addrs start i = Some addr.
Proof.
  intros Ha. apply lookup_lt_is_Some_2. destruct addrs as [|a l]; [done|].
  set (n := N.of_nat (length (a :: l))).
  assert ((start + N.of_nat i) mod 2 ^ 64 mod n < n)%N as H by (apply N.mod_lt; subst n; cbn; lia).
  subst n. lia.
Qed.

Lemma pool_for_Ok addr r : ∃ ptr r', pool_for addr r = (Ok ptr, r').
Proof. unfold pool_for. case_match; eauto. Qed.

(** A checkout goes where its pool's step leaves it. *)
Lemma get_after_total now p ph p' ph' a ptr :
  task_step now p ph p' ph' → in_checkout ph = true → ∃ x, get_after p a ptr ph ph' x ∧ x ≠ None.
Proof. destruct 1; intros Hc; try done; eexists; (split; [by constructor|done]). Qed.

(** The task waits for a permit of its server's pool. *)
Definition awaits (x : Task) : bool := match x with Getting _ _ Waiting => true | _ => false end.

Definition moves (r : t) (x : Task) : Prop :=
  ∃ r' x', rtask r x r' x' ∧ used_on x x' = false ∧ abandoned x x' = false.

Lemma get_moves r a ptr ph :
  in_range r (Getting a ptr ph) → in_checkout ph = true ∨ ph = Releasing → moves r (Getting a ptr ph).
Proof.
  intros [Hlt _]%Forall_cons Hph. destruct (lookup_lt_is_Some_2 _ _ Hlt) as [p Hp].
  destruct Hph as [Hph| ->].
  - destruct (holder_moves (clock r) p ph) as (p' & ph' & Ht & _); [by destruct ph|].
    destruct (get_after_total _ _ _ _ _ a ptr Ht Hph) as (x & Hg & Hx).
    eexists _, x. split_and!; [by eapply get_step|done|by destruct ph].
  - eexists _, (Some (Evicting a)). split_and!; [|done..].
    eapply get_step; [done|apply drop_releases|constructor].
Qed.

Lemma task_moves r x : in_range r x → proper x → awaits x = false → moves r x.
Proof.
  destruct x as [mode|mode lap|mode lap|mode lap addrs start turns|a ptr ph|a|ptr ph| | | |ptrs|ptr ptrs];
    intros Hr Hp Ha.
  - destruct (RoutedPool.closed r) eqn:Hc; eexists _, _;
      (split_and!; [by constructor|done..]).
  - eexists _, None. by split_and!; [apply freshen_failed|..].
  - destruct (decide (role mode (table r) = [])) as [Hn|Hn].
    + exists r, (next_lap mode lap). by split_and!; [apply choose_none|..].
    + eexists _, _. by split_and!; [apply choose|..].
  - destruct turns as [|i turns].
    + exists r, (next_lap mode lap). by split_and!; [apply try_none|..].
    + destruct (server_at_Some addrs start i Hp) as [addr Haddr].
      destruct (pool_for_Ok addr r) as (ptr & r' & Hq).
      eexists _, _. by split_and!; [eapply try_server|..].
  - apply get_moves; [done|]. destruct Hp as [_ [?|[-> | ->]]]; [by left|done|by right].
  - eexists _, _. by split_and!; [apply evict_server|..].
  - apply Forall_cons in Hr as [Hlt _]. destruct (lookup_lt_is_Some_2 _ _ Hlt) as [p Hq].
    destruct (holder_moves (clock r) p ph Hp) as (p' & ph' & Ht & Hu & _).
    eexists _, _. split_and!; [by eapply hold_step| |done]. by destruct ph, ph' as [[]|].
  - eexists _, None. by split_and!; [apply refresh_failed|..].
  - eexists _, _. by split_and!; [apply close_flag|..].
  - eexists _, _. by split_and!; [apply close_map|..].
  - destruct ptrs as [|ptr ptrs]; [eexists _, None; by split_and!; [apply close_done|..]|].
    apply Forall_cons in Hr as [Hlt _]. destruct (lookup_lt_is_Some_2 _ _ Hlt) as [p Hq].
    eexists _, _. by split_and!; [apply close_one|..].
  - apply Forall_cons in Hr as [Hlt _]. destruct (lookup_lt_is_Some_2 _ _ Hlt) as [p Hq].
    eexists _, _. by split_and!; [apply close_idle|..].
Qed.

(** With every task waiting, nobody holds a permit. *)
Lemma all_wait_free ptr ts : Forall (λ x, awaits x = true) ts → count holds (phases ptr ts) = 0.
Proof.
  induction 1 as [|x ts Hx _ IH]; [done|]. rewrite phases_cons, count_app, IH.
  destruct x as [| | | |a q []| | | | | | |]; try done. cbn. by case_decide.
Qed.

(** The permits of a server's pool that are free. *)
Lemma sound_permits m s ptr p :
  sound m s → arena s.1 !! ptr = Some p → permits p + count holds (phases ptr s.2) = m `max` 1.
Proof.
  intros Hs Hp. destruct (sound_alone _ _ Hs ptr p Hp) as [now Hr].
  apply invariant_reachable in Hr as (Hsize & Hperm & _).
  change (max_size (config (new_pool m))) with m in Hsize. by rewrite <- Hsize.
Qed.

Lemma waiting_moves m r a ptr ts :
  sound m (r, Getting a ptr Waiting :: ts) → Forall (λ x, awaits x = true) ts →
  moves r (Getting a ptr Waiting).
Proof.
  intros Hs Hw. pose proof (sound_range _ _ Hs) as [[Hlt _]%Forall_cons _]%Forall_cons.
  destruct (lookup_lt_is_Some_2 _ _ Hlt) as [p Hp]. cbn [fst] in Hp.
  pose proof (sound_permits _ _ _ _ Hs Hp) as Hperm. cbn [snd] in Hperm.
  rewrite all_wait_free in Hperm by by constructor.
  destruct (waiter_moves (clock r) p) as (p' & ph' & Ht & Hg); [lia|].
  assert (∃ x, get_after p a ptr Waiting ph' x ∧ x ≠ None) as (x & Hx & ?).
  { inversion Ht; subst; cbn in Hg.
    - eexists. split; [by apply get_goes_on|done].
    - eexists. split; [by apply get_closed|done].
    - eexists. split; [apply get_closed; by destruct (Pool.closed _)|done]. }
  eexists _, x. split_and!; [by eapply get_step|done|by destruct x].
Qed.

Lemma rserve_possible m s : sound m s → Forall proper s.2 → s.2 ≠ [] → ∃ s', rserve s s'.
Proof.
  destruct s as [r ts]. cbn [snd]. intros Hs Hp Hts.
  assert (∃ ts1 x ts2, ts = ts1 ++ x :: ts2 ∧ moves r x) as (ts1 & x & ts2 & -> & r' & x' & ? & ? & ?).
  { destruct (decide (Forall (λ x, awaits x = true) ts)) as [Hw|Hw].
    - destruct ts as [|x ts]; [done|]. exists [], x, ts. split; [done|].
      apply Forall_cons in Hw as [Hx Hw]. destruct x as [| | | |a ptr []| | | | | | |]; try done.
      by eapply waiting_moves.
    - apply not_Forall_Exists, Exists_exists in Hw as (x & Hin & Hx); [|apply _].
      pose proof (sound_range _ _ Hs) as Hr. rewrite Forall_forall in Hp, Hr.
      assert (moves r x) by (apply task_moves; [by apply Hr|by apply Hp|by apply not_true_is_false]).
      apply list_elem_of_split in Hin as (ts1 & ts2 & ->). eauto. }
  eexists. by eapply rserve_task.
Qed.

(** ** Property *)

(** C24: the routed pool's tasks all get done. From any state the tasks can reach,
    once callers only give back what they hold and abandon no call, every schedule
    ends, whatever routers and servers answer and however long the tables are:
    no checkout goes round servers, tables or idle lists forever. And it ends only
    with every checkout, refresh and [close] finished and every permit of every
    server's pool free again: no deadlock across the pools, none lost. *)
Theorem cluster_tasks_complete seeds db m now connects s :
  rtc rstep (new seeds db m now connects, []) s →
  sn rserve s ∧
  ∀ s', rtc rserve s s' → nf rserve s' →
    s'.2 = [] ∧ ∀ ptr p, arena s'.1 !! ptr = Some p → permits p = m `max` 1.
Proof.
  intros Hs. split; [exact (rserve_wf s)|]. intros s' Hs' Hnf.
  assert (rtc rstep (new seeds db m now connects, []) s') as Hr.
  { etrans; [exact Hs|]. clear -Hs'. induction Hs'; [done|]. by eapply rtc_l; [apply rserve_step|]. }
  pose proof (sound_reachable _ _ _ _ _ _ Hr) as Hsound.
  assert (s'.2 = []) as Ht.
  { destruct (decide (s'.2 = [])) as [|Ht]; [done|]. destruct Hnf. eapply rserve_possible; [done| |done].
    by eapply proper_steps. }
  split; [done|]. intros ptr p Hp. pose proof (sound_permits _ _ _ _ Hsound Hp) as H.
  rewrite Ht in H. cbn in H. lia.
Qed.

End progress.

(** ** Witness *)

(** [held], run down: the writer finds no writer in the table nor a router that
    answers, and the reader gives its connection back. *)
Definition at_rest_again : t * list Task :=
  let p := server_pool false 2 in
  (one_server false {["b:7687" := 0]}
     (Pool.set_idle [mk_idle (waiting false 0 [] 0) 0 0] p), []).

Lemma rserve_lone `{HashIter} r x r' x' ts :
  rtask r x r' x' → used_on x x' = false → abandoned x x' = false →
  rserve (r, x :: ts) (r', option_list x' ++ ts).
Proof. apply (rserve_task r [] x ts). Qed.

Lemma held_serves : rtc (@rserve listing_order) held at_rest_again.
Proof.
  set (c := waiting false 0 [] 0). set (i := mk_idle c 0 0).
  set (p l n := mk_pool (config (new_pool 2)) l n false None).
  set (r l n := one_server false {["b:7687" := 0]} (p l n)).
  set (q := r [] 1). set (u := [in_use]).
  eapply rtc_l; [apply (@rserve_lone listing_order q (Entering Write) q (Some (Freshening Write 0)) u); [by apply enter_open|done..]|].
  eapply rtc_l; [apply (@rserve_lone listing_order q _ q (Some (Choosing Write 0)) u); [by apply freshen_fresh|done..]|].
  eapply rtc_l; [apply (@rserve_lone listing_order q (Choosing Write 0) q (next_lap Write 0) u); [by apply choose_none|done..]|].
  eapply rtc_l; [apply (@rserve_lone listing_order q (Freshening Write 1) q None u); [by apply freshen_failed|done..]|].
  assert (∀ l n l' n' ph ph', @task_step listing_order 0 (p l n) ph (p l' n') ph' →
    used_on (Holding 0 ph) (Holding 0 <$> ph') = false →
    @rserve listing_order (r l n, [Holding 0 ph]) (r l' n', option_list (Holding 0 <$> ph') ++ [])) as Hhold.
  { intros l n l' n' ph ph' Ht Hu. apply rserve_lone; [|done|done].
    by apply (hold_step (r l n) 0 (p l n) ph (p l' n') ph'). }
  eapply rtc_l; [apply (Hhold [] 1 [] 1 (Using c 0) (Some (Dropping i))); [by apply drop_keeps|done]|].
  eapply rtc_l; [apply (Hhold [] 1 [i] 1 (Dropping i) (Some Releasing)); [apply drop_pushes|done]|].
  apply rtc_once. apply (Hhold [i] 1 [i] 2 Releasing None); [apply drop_releases|done].
Qed.

(** With no task there is nothing to do. *)
Lemma idle_cluster_rests r : nf (@rserve listing_order) (r, []).
Proof. intros [s' Hs]. inversion Hs as [? ts1 x ts2 ? ? ? ? ? He]. by destruct ts1. Qed.

Lemma cluster_tasks_complete_witness :
  sn (@rserve listing_order) held ∧ at_rest_again.2 = [] ∧
  ∃ p, arena at_rest_again.1 !! 0 = Some p ∧ permits p = 2 ∧ length (idle p) = 1.
Proof.
  destruct (@cluster_tasks_complete listing_order ["a:7687"] None 2 0%N [] held held_reachable)
    as [Hsn H].
  destruct (H at_rest_again held_serves (idle_cluster_rests _)) as [Ht Hp].
  split_and!; [done..|]. eexists. split_and!; [reflexivity|exact (Hp 0 _ eq_refl)|done].
Defined.
