(* ===== verification/Convert.v ===== *)
(** * serde and [BoltValue] ([convert.rs])

    [to_value] as a function of what a [Serialize] implementation asks of its
    serializer: [Ser] is serde's data model, one constructor per method of
    [ser::Serializer], a compound one with the calls that follow it. The other
    way, a [Deserializer] chooses which method of the visitor to call: a
    [Visit]. What a type's [Deserialize] makes of it is not part of the
    repository, and [from_value] takes it as an argument. [denotes] is the
    specification of the serializer: which value the calls stand for. *)

From S2P Require Import Prelude Utf8 Value Message Error Routing Transport Connection.

(** [ConvertError]: which message it is, with what it formats. *)
Inductive ConvertError :=
| Custom (msg : string) (* of the caller's [Serialize] or [Deserialize] *)
| U64OutOfRange
| KeyNotString (other : BoltValue)
| ValueBeforeKey
| ParamsNotMap (other : BoltValue)
| GraphStructure (signature : byte)
| NotAnEnum (other : BoltValue).

Definition Res (A : Type) : Type := ConvertError + A.

(** [?] *)
Definition and_next {A B} (r : Res A) (f : A → Res B) : Res B :=
  match r with inl e => inl e | inr a => f a end.

Notation "'try!' x ':=' r 'in' k" := (and_next r (λ x, k))
  (at level 10, x name, r at level 100, k at level 200) : bolt_scope.

(** ** Serializing *)

(** The integer methods of [ser_int!]. *)
Inductive IntType := I8 | I16 | I32 | I64 | U8 | U16 | U32.

Inductive MapCall (A : Type) := Key (key : A) | Val (value : A).
Arguments Key {A} key.
Arguments Val {A} value.

Inductive Ser :=
| SFail (msg : string) (* the implementation's own [Error::custom] *)
| SBool (v : bool)
| SInt (ty : IntType) (v : Z)
| SU64 (v : Z)
| SF32 (bits : Z)
| SF64 (bits : Z)
| SChar (v : string) (* its UTF-8 *)
| SStr (v : string)
| SBytes (v : bytes)
| SNone
| SSome (v : Ser)
| SUnit
| SUnitStruct
| SUnitVariant (variant : string)
| SNewtypeStruct (v : Ser)
| SNewtypeVariant (variant : string) (v : Ser)
| SSeq (items : list Ser)
| STuple (items : list Ser)
| STupleStruct (items : list Ser)
| STupleVariant (variant : string) (items : list Ser)
| SMap (calls : list (MapCall Ser))
| SStruct (fields : list (string * Ser))
| SStructVariant (variant : string) (fields : list (string * Ser)).

(** [f64::from] of an [f32], on bits. (The payload of a NaN is shifted; Rust
    leaves it open.) *)
Definition f64_of_f32 (bits : Z) : Z :=
  let s := bits / 2 ^ 31 in
  let e := bits / 2 ^ 23 mod 2 ^ 8 in
  let m := bits mod 2 ^ 23 in
  s * 2 ^ 63 +
  (if e =? 255 then 2047 * 2 ^ 52 + m * 2 ^ 29
   else if e =? 0 then
     if m =? 0 then 0
     else let k := Z.log2 m in (k + 874) * 2 ^ 52 + (m - 2 ^ k) * 2 ^ (52 - k)
   else (e + 896) * 2 ^ 52 + m * 2 ^ 29).

Definition serialize_u64 (v : Z) : Res BoltValue :=
  if v <? 2 ^ 63 then inr (BoltValue.Int v) else inl U64OutOfRange.

(** [SeqSer], and the items of [VariantSeqSer]. *)
Definition serialize_element (items : Res (list BoltValue)) (value : Res BoltValue)
    : Res (list BoltValue) :=
  try! items := items in
  try! value := value in
  inr (items ++ [value]).

Definition elements (values : list (Res BoltValue)) : Res (list BoltValue) :=
  foldl serialize_element (inr []) values.

Record MapSer := mk_map_ser { ser_map : HashMap BoltValue; ser_key : option string }.

Definition serialize_key (key : Res BoltValue) (m : MapSer) : Res MapSer :=
  try! key := key in
  match key with
  | BoltValue.String s => inr (mk_map_ser (ser_map m) (Some s))
  | other => inl (KeyNotString other)
  end.

Definition serialize_value (value : Res BoltValue) (m : MapSer) : Res MapSer :=
  match ser_key m with
  | None => inl ValueBeforeKey
  | Some key =>
      try! value := value in
      inr (mk_map_ser (<[key := value]> (ser_map m)) None)
  end.

Definition serialize_call (m : Res MapSer) (call : MapCall (Res BoltValue)) : Res MapSer :=
  try! m := m in
  match call with Key key => serialize_key key m | Val value => serialize_value value m end.

Definition entries (calls : list (MapCall (Res BoltValue))) : Res (HashMap BoltValue) :=
  try! m := foldl serialize_call (inr (mk_map_ser ∅ None)) calls in
  inr (ser_map m).

(** [SerializeStruct for MapSer], and the map of [VariantMapSer]. *)
Definition serialize_field (m : Res (HashMap BoltValue)) (field : string * Res BoltValue)
    : Res (HashMap BoltValue) :=
  try! m := m in
  try! value := field.2 in
  inr (<[field.1 := value]> m).

Definition struct_fields (fields : list (string * Res BoltValue)) : Res (HashMap BoltValue) :=
  foldl serialize_field (inr ∅) fields.

(** A variant with content. *)
Definition variant_value (variant : string) (content : BoltValue) : BoltValue :=
  BoltValue.Map {[variant := content]}.

Fixpoint to_value (s : Ser) : Res BoltValue :=
  match s with
  | SFail msg => inl (Custom msg)
  | SBool v => inr (BoltValue.Bool v)
  | SInt _ v => inr (BoltValue.Int v)
  | SU64 v => serialize_u64 v
  | SF32 bits => inr (BoltValue.Float (f64_of_f32 bits))
  | SF64 bits => inr (BoltValue.Float bits)
  | SChar v | SStr v => inr (BoltValue.String v)
  | SBytes v => inr (BoltValue.Bytes v)
  | SNone | SUnit | SUnitStruct => inr BoltValue.Null
  | SSome v | SNewtypeStruct v => to_value v
  | SUnitVariant variant => inr (BoltValue.String variant)
  | SNewtypeVariant variant v => try! v := to_value v in inr (variant_value variant v)
  | SSeq items | STuple items | STupleStruct items =>
      try! items := elements (List.map to_value items) in inr (BoltValue.List items)
  | STupleVariant variant items =>
      try! items := elements (List.map to_value items) in
      inr (variant_value variant (BoltValue.List items))
  | SMap calls =>
      try! m := entries (List.map (λ call,
        match call with Key k => Key (to_value k) | Val v => Val (to_value v) end) calls) in
      inr (BoltValue.Map m)
  | SStruct fields =>
      try! m := struct_fields (List.map (λ '(k, v), (k, to_value v)) fields) in
      inr (BoltValue.Map m)
  | SStructVariant variant fields =>
      try! m := struct_fields (List.map (λ '(k, v), (k, to_value v)) fields) in
      inr (variant_value variant (BoltValue.Map m))
  end.

Definition params (s : Ser) : Res (HashMap BoltValue) :=
  try! v := to_value s in
  match v with
  | BoltValue.Map m => inr m
  | other => inl (ParamsNotMap other)
  end.

(** ** Deserializing *)

(** The visitor's method called, with what it is given. An enum's content is
    read from a map of one entry. *)
Inductive Visit :=
| VisitUnit
| VisitBool (v : bool)
| VisitI64 (v : Z)
| VisitF64 (bits : Z)
| VisitString (v : string)
| VisitByteBuf (v : bytes)
| VisitSeq (items : list BoltValue)
| VisitMap (entries : list (string * BoltValue))
| VisitNone
| VisitSome (v : BoltValue)
| VisitNewtypeStruct (v : BoltValue)
| VisitUnitVariant (variant : string)
| VisitVariant (entries : list (string * BoltValue)).

Section deserialize.
Context {hash : HashIter}.

Definition deserialize_any (v : BoltValue) : Res Visit :=
  match v with
  | BoltValue.Null => inr VisitUnit
  | BoltValue.Bool b => inr (VisitBool b)
  | BoltValue.Int i => inr (VisitI64 i)
  | BoltValue.Float f => inr (VisitF64 f)
  | BoltValue.String s => inr (VisitString s)
  | BoltValue.Bytes b => inr (VisitByteBuf b)
  | BoltValue.List items => inr (VisitSeq items)
  | BoltValue.Map m => inr (VisitMap (hash_iter m))
  | BoltValue.Structure signature _ => inl (GraphStructure signature)
  end.

Definition deserialize_option (v : BoltValue) : Res Visit :=
  match v with BoltValue.Null => inr VisitNone | other => inr (VisitSome other) end.

Definition deserialize_newtype_struct (v : BoltValue) : Res Visit := inr (VisitNewtypeStruct v).

Definition deserialize_enum (v : BoltValue) : Res Visit :=
  match v with
  | BoltValue.String s => inr (VisitUnitVariant s)
  | BoltValue.Map m =>
      if decide (size m = 1%nat) then inr (VisitVariant (hash_iter m)) else inl (NotAnEnum v)
  | other => inl (NotAnEnum other)
  end.

End deserialize.

(** [T::deserialize] is an argument. *)
Definition from_value {T} (deserialize : BoltValue → Res T) (v : BoltValue) : Res T := deserialize v.

(** [QueryResult::rows_as]: collecting stops at the first row that fails. *)
Definition rows_as {T} (deserialize : BoltValue → Res T) (q : QueryResult) : Res (list T) :=
  foldr (λ row rest,
    try! t := from_value deserialize (BoltValue.Map row) in
    try! ts := rest in
    inr (t :: ts)) (inr []) (rows_as_maps q).

(** ** Induction on what is serialized *)

Definition call_arg {A} (c : MapCall A) : A := match c with Key a | Val a => a end.

(** The values a call passes on to be serialized. *)
Definition children (s : Ser) : list Ser :=
  match s with
  | SSome v | SNewtypeStruct v | SNewtypeVariant _ v => [v]
  | SSeq items | STuple items | STupleStruct items | STupleVariant _ items => items
  | SMap calls => List.map call_arg calls
  | SStruct fields | SStructVariant _ fields => List.map snd fields
  | _ => []
  end.

Section ser_ind.
Variable P : Ser → Prop.
Hypothesis Hchildren : ∀ s, Forall P (children s) → P s.

Fixpoint ser_ind (s : Ser) : P s :=
  let items := fix items (l : list Ser) : Forall P l :=
    match l with [] => Forall_nil_2 P | s :: l => Forall_cons_2 P s l (ser_ind s) (items l) end in
  let fields := fix fields (l : list (string * Ser)) : Forall P (List.map snd l) :=
    match l with
    | [] => Forall_nil_2 P
    | (k, s) :: l => Forall_cons_2 P s (List.map snd l) (ser_ind s) (fields l)
    end in
  let calls := fix calls (l : list (MapCall Ser)) : Forall P (List.map call_arg l) :=
    match l with
    | [] => Forall_nil_2 P
    | Key s :: l | Val s :: l =>
        Forall_cons_2 P s (List.map call_arg l) (ser_ind s) (calls l)
    end in
  Hchildren s
    match s return Forall P (children s) with
    | SSome v | SNewtypeStruct v | SNewtypeVariant _ v =>
        Forall_cons_2 P v [] (ser_ind v) (Forall_nil_2 P)
    | SSeq l | STuple l | STupleStruct l | STupleVariant _ l => items l
    | SMap l => calls l
    | SStruct l | SStructVariant _ l => fields l
    | _ => Forall_nil_2 P
    end.
End ser_ind.

(** ** Well-formedness *)

Definition int_range (ty : IntType) (v : Z) : Prop :=
  match ty with
  | I8 => in_signed 8 v | I16 => in_signed 16 v | I32 => in_signed 32 v | I64 => in_signed 64 v
  | U8 => in_unsigned 8 v | U16 => in_unsigned 16 v | U32 => in_unsigned 32 v
  end.

(** What Rust's types guarantee of one call, and of all of them. *)
Definition wf_call (s : Ser) : Prop :=
  match s with
  | SInt ty v => int_range ty v
  | SU64 v | SF64 v => in_unsigned 64 v
  | SF32 bits => in_unsigned 32 bits
  | SChar v | SStr v => valid_string v
  | SUnitVariant variant | SNewtypeVariant variant _ | STupleVariant variant _ =>
      valid_string variant
  | SStruct fields => Forall valid_string fields.*1
  | SStructVariant variant fields => valid_string variant ∧ Forall valid_string fields.*1
  | _ => True
  end.

Inductive wf_ser (s : Ser) : Prop :=
| wf_ser_intro : wf_call s → Forall wf_ser (children s) → wf_ser s.

Lemma and_next_inr {A B} (r : Res A) (f : A → Res B) b :
  and_next r f = inr b ↔ ∃ a, r = inr a ∧ f a = inr b.
Proof. destruct r; cbn; naive_solver. Qed.

Lemma int_range_i64 ty v : int_range ty v → in_signed 64 v.
Proof. unfold in_signed. destruct ty; cbn [int_range]; unfold in_signed, in_unsigned; lia. Qed.

Lemma f64_of_f32_range bits : in_unsigned 32 bits → in_unsigned 64 (f64_of_f32 bits).
Proof.
  unfold in_unsigned. intros Hb. unfold f64_of_f32. cbv zeta.
  assert (0 ≤ bits / 2 ^ 31 < 2) as Hs.
  { split; [apply Z.div_pos; lia|]. apply Z.div_lt_upper_bound; lia. }
  pose proof (Z.mod_pos_bound (bits / 2 ^ 23) (2 ^ 8) ltac:(lia)) as He.
  pose proof (Z.mod_pos_bound bits (2 ^ 23) ltac:(lia)) as Hm.
  set (s := bits / 2 ^ 31) in *. set (e := bits / 2 ^ 23 mod 2 ^ 8) in *.
  set (m := bits mod 2 ^ 23) in *. clearbody s e m.
  enough (∀ x, 0 ≤ x < 2 ^ 63 → 0 ≤ s * 2 ^ 63 + x < 2 ^ 64) as H.
  { apply H. destruct (Z.eqb_spec e 255); [lia|]. destruct (Z.eqb_spec e 0); [|lia].
    destruct (Z.eqb_spec m 0); [lia|]. cbv zeta. set (k := Z.log2 m).
    assert (2 ^ k ≤ m < 2 ^ Z.succ k) as Hk by (apply Z.log2_spec; lia).
    assert (0 ≤ k < 23) as Hk23 by (split; [apply Z.log2_nonneg|apply Z.log2_lt_pow2; lia]).
    rewrite Z.pow_succ_r in Hk by lia.
    assert ((m - 2 ^ k) * 2 ^ (52 - k) < 2 ^ 52).
    { replace (2 ^ 52) with (2 ^ k * 2 ^ (52 - k)) by (rewrite <- Z.pow_add_r by lia; f_equal; lia).
      apply Z.mul_lt_mono_pos_r; lia. }
    assert (0 ≤ (m - 2 ^ k) * 2 ^ (52 - k)) by (apply Z.mul_nonneg_nonneg; lia). lia. }
  intros x Hx. lia.
Qed.

(** ** Compound values *)

Lemma foldl_inl {A B} (f : Res A → B → Res A) e (l : list B) :
  (∀ b, f (inl e) b = inl e) → foldl f (inl e) l = inl e.
Proof. intros Hf. induction l as [|b l IH]; [done|]. cbn. by rewrite Hf. Qed.

(** A fold that goes on only after success keeps an invariant. *)
Lemma foldl_inr_inv {A B} (P : A → Prop) (Q : B → Prop) (f : Res A → B → Res A) a l a' :
  (∀ e b, f (inl e) b = inl e) → (∀ a b a', Q b → P a → f (inr a) b = inr a' → P a') →
  Forall Q l → P a → foldl f (inr a) l = inr a' → P a'.
Proof.
  intros He Hf HQ. revert a. induction HQ as [|b l Hb HQ IH]; intros a Ha; cbn [foldl].
  - by intros [= <-].
  - destruct (f (inr a) b) as [e|a1] eqn:Hfa; [by rewrite foldl_inl by auto|]. apply IH. eauto.
Qed.

(** What a result satisfies, if there is one. *)
Definition gives (Q : BoltValue → Prop) (r : Res BoltValue) : Prop := ∀ v, r = inr v → Q v.

Lemma elements_give Q values items :
  Forall (gives Q) values → elements values = inr items → Forall Q items.
Proof.
  intros HQ. apply (foldl_inr_inv (Forall Q) (gives Q)); [done| |done|constructor].
  intros l r l' Hr Hl H. cbn in H. apply and_next_inr in H as (v & Hv & [= <-]).
  apply Forall_app_2; [done|]. constructor; [by apply Hr|constructor].
Qed.

Lemma struct_fields_wf fields m :
  Forall (λ kr, valid_string kr.1 ∧ gives wf_value kr.2) fields →
  struct_fields fields = inr m → wf_map m.
Proof.
  intros HQ. apply (foldl_inr_inv wf_map (λ kr, valid_string kr.1 ∧ gives wf_value kr.2));
    [done| |done|apply wf_map_empty].
  intros m1 [k r] m2 [Hk Hr] Hm H. cbn in H. apply and_next_inr in H as (v & Hv & [= <-]).
  apply wf_map_insert; [done|by apply Hr|done].
Qed.

Lemma entries_wf calls m :
  Forall (λ c, gives wf_value (call_arg c)) calls → entries calls = inr m → wf_map m.
Proof.
  intros HQ. unfold entries. rewrite and_next_inr. intros (ms & Hms & [= <-]).
  set (P := λ ms, wf_map (ser_map ms) ∧ from_option valid_string True (ser_key ms)).
  apply (foldl_inr_inv P (λ c, gives wf_value (call_arg c))) in Hms as [? _];
    [done|done| |done|split; [apply wf_map_empty|done]].
  intros [m1 k1] c m2 Hc [Hm Hk] H. destruct c as [r|r]; cbn in Hc, H.
  - unfold serialize_key in H. apply and_next_inr in H as (v & Hv & H).
    destruct v; try done. injection H as <-. split; [done|]. cbn.
    specialize (Hc _ Hv). by inversion Hc.
  - unfold serialize_value in H. cbn in H. destruct k1 as [k|]; [|done].
    apply and_next_inr in H as (v & Hv & [= <-]). split; [|done]. cbn.
    apply wf_map_insert; [done|by apply Hc|done].
Qed.

Lemma wf_variant variant v :
  valid_string variant → wf_value v → wf_value (variant_value variant v).
Proof.
  intros Hs Hv. constructor. unfold variant_value. rewrite <- insert_empty.
  apply wf_map_insert; [done|done|apply wf_map_empty].
Qed.

Lemma Forall_map_impl {A B} (f : A → B) (P : B → Prop) (l : list A) :
  Forall (λ a, P (f a)) l → Forall P (List.map f l).
Proof. induction 1; cbn; auto. Qed.

(** What the children give, in the shape of the calls. *)
Lemma children_items (Q : Ser → Prop) items :
  Forall (λ s, Q s → gives wf_value (to_value s)) items → Forall Q items →
  Forall (gives wf_value) (List.map to_value items).
Proof.
  intros HP HQ. apply Forall_map_impl. rewrite Forall_forall in HP, HQ |- *. auto.
Qed.

Lemma children_fields (Q : Ser → Prop) (fields : list (string * Ser)) :
  Forall (λ s, Q s → gives wf_value (to_value s)) (List.map snd fields) →
  Forall Q (List.map snd fields) → Forall valid_string fields.*1 →
  Forall (λ kr, valid_string kr.1 ∧ gives wf_value kr.2)
    (List.map (λ '(k, v), (k, to_value v)) fields).
Proof.
  intros HP HQ Hk. induction fields as [|[k s] fields IH]; [constructor|]. cbn in *.
  inversion HP; inversion HQ; inversion Hk; subst. constructor; [by auto|]. by apply IH.
Qed.

Lemma children_calls (Q : Ser → Prop) (calls : list (MapCall Ser)) :
  Forall (λ s, Q s → gives wf_value (to_value s)) (List.map call_arg calls) →
  Forall Q (List.map call_arg calls) →
  Forall (λ c, gives wf_value (call_arg c)) (List.map (λ call,
    match call with Key k => Key (to_value k) | Val v => Val (to_value v) end) calls).
Proof.
  intros HP HQ. induction calls as [|c calls IH]; [constructor|]. cbn in *.
  inversion HP; inversion HQ; subst. constructor; [|by apply IH]. destruct c; cbn in *; auto.
Qed.

Lemma to_value_gives_wf s : wf_ser s → gives wf_value (to_value s).
Proof.
  induction s as [s IH] using ser_ind. intros [Hc Hch] v Hv.
  destruct s as [msg|b|ty n|n|bits|bits|c|str|bs| |s1| | |vn|s1|vn s1|items|items|items|vn items|calls
    |fields|vn fields]; cbn [to_value children wf_call] in *;
    try (injection Hv as <-; constructor; done); try done.
  - injection Hv as <-. constructor. by eapply int_range_i64.
  - unfold serialize_u64 in Hv. destruct (Z.ltb_spec n (2 ^ 63)); [|done]. injection Hv as <-.
    constructor. unfold in_signed, in_unsigned in *. lia.
  - injection Hv as <-. constructor. by apply f64_of_f32_range.
  - rewrite Forall_singleton in IH, Hch. by apply IH.
  - rewrite Forall_singleton in IH, Hch. by apply IH.
  - apply and_next_inr in Hv as (v1 & Hv & [= <-]). apply wf_variant; [done|].
    rewrite Forall_singleton in IH, Hch. by apply IH.
  - apply and_next_inr in Hv as (l & Hl & [= <-]). constructor.
    eapply elements_give; [|exact Hl]. by eapply children_items.
  - apply and_next_inr in Hv as (l & Hl & [= <-]). constructor.
    eapply elements_give; [|exact Hl]. by eapply children_items.
  - apply and_next_inr in Hv as (l & Hl & [= <-]). constructor.
    eapply elements_give; [|exact Hl]. by eapply children_items.
  - apply and_next_inr in Hv as (l & Hl & [= <-]). apply wf_variant; [done|]. constructor.
    eapply elements_give; [|exact Hl]. by eapply children_items.
  - apply and_next_inr in Hv as (m & Hm & [= <-]). constructor.
    eapply entries_wf; [|exact Hm]. by eapply children_calls.
  - apply and_next_inr in Hv as (m & Hm & [= <-]). constructor.
    eapply struct_fields_wf; [|exact Hm]. by eapply children_fields.
  - apply and_next_inr in Hv as (m & Hm & [= <-]). destruct Hc. apply wf_variant; [done|].
    constructor. eapply struct_fields_wf; [|exact Hm]. by eapply children_fields.
Qed.

(** ** What a serialization denotes *)

(** A map of pairs, where a later pair replaces an earlier one of the same key. *)
Definition last_wins {V} (kvs : list (string * V)) : HashMap V := list_to_map (reverse kvs).

Lemma last_wins_cons {V} k v (kvs : list (string * V)) :
  last_wins ((k, v) :: kvs) = last_wins kvs ∪ {[k := v]}.
Proof. unfold last_wins. by rewrite reverse_cons, list_to_map_app, <- insert_empty. Qed.

Lemma last_wins_insert {V} k v (kvs : list (string * V)) (m : HashMap V) :
  last_wins ((k, v) :: kvs) ∪ m = last_wins kvs ∪ <[k := v]> m.
Proof. by rewrite last_wins_cons, (insert_union_singleton_l m), (assoc_L (∪)). Qed.

Lemma last_wins_nil {V} (m : HashMap V) : last_wins [] ∪ m = m.
Proof. apply (left_id_L ∅ (∪)). Qed.

(** The pairs that the calls of a map make, a key for the value after it; a key
    that another one follows, or nothing, makes none, and a value has to follow
    a key. [D] relates what is serialized to its value. *)
Inductive paired {A} (D : A → BoltValue → Prop) :
    option string → list (MapCall A) → list (string * BoltValue) → Prop :=
| paired_end key : paired D key [] []
| paired_key key a k calls kvs :
    D a (BoltValue.String k) → paired D (Some k) calls kvs → paired D key (Key a :: calls) kvs
| paired_value k a v calls kvs :
    D a v → paired D None calls kvs → paired D (Some k) (Val a :: calls) ((k, v) :: kvs).

(** The value of what is serialized, by kind. *)
Inductive denotes : Ser → BoltValue → Prop :=
| denotes_bool b : denotes (SBool b) (BoltValue.Bool b)
| denotes_int ty n : denotes (SInt ty n) (BoltValue.Int n)
| denotes_u64 n : n < 2 ^ 63 → denotes (SU64 n) (BoltValue.Int n)
| denotes_f32 bits : denotes (SF32 bits) (BoltValue.Float (f64_of_f32 bits))
| denotes_f64 bits : denotes (SF64 bits) (BoltValue.Float bits)
| denotes_char c : denotes (SChar c) (BoltValue.String c)
| denotes_str s : denotes (SStr s) (BoltValue.String s)
| denotes_bytes b : denotes (SBytes b) (BoltValue.Bytes b)
| denotes_none : denotes SNone BoltValue.Null
| denotes_some s v : denotes s v → denotes (SSome s) v
| denotes_unit : denotes SUnit BoltValue.Null
| denotes_unit_struct : denotes SUnitStruct BoltValue.Null
| denotes_unit_variant variant : denotes (SUnitVariant variant) (BoltValue.String variant)
| denotes_newtype s v : denotes s v → denotes (SNewtypeStruct s) v
| denotes_newtype_variant variant s v :
    denotes s v → denotes (SNewtypeVariant variant s) (BoltValue.Map {[variant := v]})
| denotes_seq ss vs : Forall2 denotes ss vs → denotes (SSeq ss) (BoltValue.List vs)
| denotes_tuple ss vs : Forall2 denotes ss vs → denotes (STuple ss) (BoltValue.List vs)
| denotes_tuple_struct ss vs : Forall2 denotes ss vs → denotes (STupleStruct ss) (BoltValue.List vs)
| denotes_tuple_variant variant ss vs :
    Forall2 denotes ss vs →
    denotes (STupleVariant variant ss) (BoltValue.Map {[variant := BoltValue.List vs]})
| denotes_map calls kvs :
    paired denotes None calls kvs → denotes (SMap calls) (BoltValue.Map (last_wins kvs))
| denotes_struct fields vs :
    Forall2 denotes fields.*2 vs →
    denotes (SStruct fields) (BoltValue.Map (last_wins (zip fields.*1 vs)))
| denotes_struct_variant variant fields vs :
    Forall2 denotes fields.*2 vs →
    denotes (SStructVariant variant fields)
      (BoltValue.Map {[variant := BoltValue.Map (last_wins (zip fields.*1 vs))]}).

Lemma elements_inr rs vs : elements rs = inr vs ↔ rs = inr <$> vs.
Proof.
  unfold elements.
  enough (∀ acc vs, foldl serialize_element (inr acc) rs = inr vs ↔ ∃ vs', rs = inr <$> vs' ∧ vs = acc ++ vs')
    as H by (rewrite H; split; [by intros (? & -> & ->)|by exists vs]).
  clear vs. induction rs as [|[e|v] rs IH]; intros acc vs; cbn [foldl].
  - split; [intros [= <-]; exists []; by rewrite app_nil_r|].
    intros ([|] & Hv & ->); [by rewrite app_nil_r|done].
  - cbn. rewrite foldl_inl by done. split; [done|]. by intros ([|] & ? & _).
  - cbn. rewrite IH. split.
    + intros (vs' & -> & ->). exists (v :: vs'). by rewrite <- app_assoc.
    + intros ([|v' vs'] & [= -> ->] & ->). exists vs'. by rewrite <- app_assoc.
Qed.

Lemma struct_fields_inr fields m :
  struct_fields fields = inr m ↔
  ∃ vs, fields.*2 = inr <$> vs ∧ m = last_wins (zip fields.*1 vs).
Proof.
  unfold struct_fields.
  enough (∀ acc, foldl serialize_field (inr acc) fields = inr m ↔
      ∃ vs, fields.*2 = inr <$> vs ∧ m = last_wins (zip fields.*1 vs) ∪ acc) as H.
  { rewrite H. by setoid_rewrite map_union_empty. }
  induction fields as [|[k [e|v]] fields IH]; intros acc; cbn [foldl].
  - split; [intros [= <-]; exists []; split; [done|symmetry; apply last_wins_nil]|].
    intros ([|] & ? & ->); [|done]. f_equal. symmetry. apply last_wins_nil.
  - cbn. rewrite foldl_inl by done. split; [done|]. by intros ([|] & ? & _).
  - cbn. rewrite IH. split.
    + intros (vs & Hvs & ->). exists (v :: vs). split; [cbn; by rewrite Hvs|].
      symmetry. apply last_wins_insert.
    + intros ([|v' vs] & [= -> Hvs] & ->). exists vs. split; [done|].
      apply last_wins_insert.
Qed.

Lemma entries_inr calls m :
  entries calls = inr m ↔ ∃ kvs, paired (λ r v, r = inr v) None calls kvs ∧ m = last_wins kvs.
Proof.
  unfold entries. rewrite and_next_inr.
  enough (∀ acc key m, (∃ ms, foldl serialize_call (inr (mk_map_ser acc key)) calls = inr ms ∧
      ser_map ms = m) ↔ ∃ kvs, paired (λ r v, r = inr v) key calls kvs ∧ m = last_wins kvs ∪ acc) as H.
  { specialize (H ∅ None m). setoid_rewrite map_union_empty in H. rewrite <- H. naive_solver. }
  clear m. induction calls as [|c calls IH]; intros acc key m; cbn [foldl].
  - split.
    + intros (ms & [= <-] & <-). exists []. split; [constructor|]. by rewrite last_wins_nil.
    + intros (kvs & Hp & ->). inversion Hp; subst. eexists. split; [done|]. by rewrite last_wins_nil.
  - assert (∀ e, foldl serialize_call (inl e) calls = inl e) as Hl by (intros; by apply foldl_inl).
    destruct c as [[e|v]|[e|v]]; cbn.
    + rewrite Hl. split; [by intros (? & ? & _)|]. intros (kvs & Hp & _). by inversion Hp.
    + destruct v; cbn; rewrite ?Hl;
        try (split; [by intros (? & ? & _)|intros (kvs & Hp & _); by inversion Hp]).
      rewrite IH. split; intros (kvs & Hp & ->).
      * exists kvs. by split; [econstructor|].
      * inversion Hp; simplify_eq. by exists kvs.
    + destruct key as [k|]; cbn; rewrite Hl;
        (split; [by intros (? & ? & _)|intros (kvs & Hp & _); by inversion Hp]).
    + destruct key as [k|]; cbn; rewrite ?Hl;
        [|split; [by intros (? & ? & _)|intros (kvs & Hp & _); by inversion Hp]].
      rewrite IH. split; intros (kvs & Hp & ->).
      * exists ((k, v) :: kvs). split; [by constructor|]. by rewrite last_wins_insert.
      * inversion Hp as [| |? ? ? ? kvs' ? Hp']; simplify_eq. exists kvs'.
        split; [done|]. by rewrite last_wins_insert.
Qed.

(** The induction hypothesis below, of the children. *)
Definition exact (s : Ser) : Prop := ∀ v, to_value s = inr v ↔ denotes s v.

Lemma exact_items ss vs :
  Forall exact ss → List.map to_value ss = inr <$> vs ↔ Forall2 denotes ss vs.
Proof.
  intros H. revert vs. induction H as [|s ss Hs _ IH]; intros [|v vs]; cbn;
    try (split; [done|intros Hf; inversion Hf]; done).
  split.
  - intros [= Hv Hvs]. constructor; [by apply Hs|by apply IH].
  - intros Hf. inversion Hf; subst. f_equal; [by apply Hs|by apply IH].
Qed.

Lemma exact_fields (fields : list (string * Ser)) :
  let results := List.map (λ '(k, v), (k, to_value v)) fields in
  results.*1 = fields.*1 ∧ results.*2 = List.map to_value fields.*2.
Proof. cbv zeta. induction fields as [|[k s] fields [IH1 IH2]]; [done|]. cbn. by rewrite IH1, IH2. Qed.

Lemma exact_calls calls key kvs :
  Forall exact (List.map call_arg calls) →
  paired (λ r v, r = inr v) key (List.map (λ call,
    match call with Key k => Key (to_value k) | Val v => Val (to_value v) end) calls) kvs ↔
  paired denotes key calls kvs.
Proof.
  revert key kvs. induction calls as [|c calls IH]; intros key kvs Hc; cbn in *.
  { split; intros Hp; inversion Hp; constructor. }
  apply Forall_cons in Hc as [Hs Hc]. destruct c as [s|s]; cbn in Hs; split; intros Hp; inversion Hp; subst;
    (constructor || econstructor); try (by apply Hs); try (by apply IH).
Qed.

Lemma exact_struct (fields : list (string * Ser)) m :
  Forall exact (List.map snd fields) →
  struct_fields (List.map (λ '(k, v), (k, to_value v)) fields) = inr m ↔
  ∃ vs, Forall2 denotes fields.*2 vs ∧ m = last_wins (zip fields.*1 vs).
Proof.
  intros Hf. rewrite struct_fields_inr. destruct (exact_fields fields) as [-> ->].
  f_equiv. intros vs. by rewrite exact_items.
Qed.

(** A compound value: from its parts' values, and back by the rule of its kind. *)
Ltac compound :=
  split; [intros (? & ? & [= <-]); by constructor
         |intros Hd; inversion Hd; subst; eauto].

Lemma exact_list (items : list Ser) vs :
  Forall exact items → elements (List.map to_value items) = inr vs ↔ Forall2 denotes items vs.
Proof. intros H. by rewrite elements_inr, exact_items. Qed.

Lemma to_value_denotes s v : to_value s = inr v ↔ denotes s v.
Proof.
  revert v. induction s as [s IH] using ser_ind. change (Forall exact (children s)) in IH.
  intros v. destruct s; cbn [to_value children] in *;
    rewrite ?Forall_singleton in IH; unfold exact in IH; rewrite ?and_next_inr;
    try (split; [intros [= <-]; constructor|intros Hd; by inversion Hd]; done).
  - unfold serialize_u64. destruct (Z.ltb_spec v0 (2 ^ 63)).
    + split; [by intros [= <-]; constructor|intros Hd; by inversion Hd].
    + split; [done|intros Hd; inversion Hd; lia].
  - rewrite (IH v). split; [by constructor|intros Hd; by inversion Hd].
  - rewrite (IH v). split; [by constructor|intros Hd; by inversion Hd].
  - setoid_rewrite IH. compound.
  - setoid_rewrite (exact_list items); [compound|done].
  - setoid_rewrite (exact_list items); [compound|done].
  - setoid_rewrite (exact_list items); [compound|done].
  - setoid_rewrite (exact_list items); [compound|done].
  - setoid_rewrite entries_inr. setoid_rewrite exact_calls; [|done].
    split; [intros (? & (kvs & ? & ->) & [= <-]); by constructor|].
    intros Hd. inversion Hd; subst. eexists. split; [by eexists|done].
  - setoid_rewrite exact_struct; [|done].
    split; [intros (? & (vs & ? & ->) & [= <-]); by constructor|].
    intros Hd. inversion Hd; subst. eexists. split; [by eexists|done].
  - setoid_rewrite exact_struct; [|done].
    split; [intros (? & (vs & ? & ->) & [= <-]); by constructor|].
    intros Hd. inversion Hd; subst. eexists. split; [by eexists|done].
Qed.

(** ** Transcoding *)

Section transcode.
Context {hash : HashIter}.

(** What a visitor that only passes on what it is shown serializes. *)
Inductive shows : BoltValue → Ser → Prop :=
| shows_unit v : deserialize_any v = inr VisitUnit → shows v SUnit
| shows_bool v b : deserialize_any v = inr (VisitBool b) → shows v (SBool b)
| shows_i64 v i : deserialize_any v = inr (VisitI64 i) → shows v (SInt I64 i)
| shows_f64 v f : deserialize_any v = inr (VisitF64 f) → shows v (SF64 f)
| shows_string v s : deserialize_any v = inr (VisitString s) → shows v (SStr s)
| shows_bytes v b : deserialize_any v = inr (VisitByteBuf b) → shows v (SBytes b)
| shows_seq v items ss :
    deserialize_any v = inr (VisitSeq items) → Forall2 shows items ss → shows v (SSeq ss)
| shows_map v es ss :
    deserialize_any v = inr (VisitMap es) → Forall2 shows es.*2 ss →
    shows v (SMap (mjoin (zip_with (λ k s, [Key (SStr k); Val s]) es.*1 ss))).

(** No graph structure anywhere inside. *)
Inductive plain : BoltValue → Prop :=
| plain_Null : plain BoltValue.Null
| plain_Bool b : plain (BoltValue.Bool b)
| plain_Int i : plain (BoltValue.Int i)
| plain_Float bits : plain (BoltValue.Float bits)
| plain_String s : plain (BoltValue.String s)
| plain_Bytes b : plain (BoltValue.Bytes b)
| plain_List items : Forall plain items → plain (BoltValue.List items)
| plain_Map m : map_Forall (λ _, plain) m → plain (BoltValue.Map m).

Lemma elements_ok ss vs :
  Forall2 (λ v s, to_value s = inr v) vs ss → elements (List.map to_value ss) = inr vs.
Proof.
  intros H. unfold elements.
  enough (∀ acc, foldl serialize_element (inr acc) (List.map to_value ss) = inr (acc ++ vs)) as He
    by apply He.
  induction H as [|v s vs ss Hv _ IH]; intros acc; cbn [List.map foldl]; [by rewrite app_nil_r|].
  rewrite Hv. cbn. rewrite IH. by rewrite <- app_assoc.
Qed.

Lemma entries_ok (ks : list string) ss vs :
  Forall2 (λ v s, to_value s = inr v) vs ss → length ks = length vs →
  entries (List.map (λ call,
    match call with Key k => Key (to_value k) | Val v => Val (to_value v) end)
    (mjoin (zip_with (λ k s, [Key (SStr k); Val s]) ks ss))) = inr (collect (zip ks vs)).
Proof.
  intros H Hl. unfold entries, collect.
  enough (∀ m, foldl serialize_call (inr (mk_map_ser m None)) (List.map (λ call,
    match call with Key k => Key (to_value k) | Val v => Val (to_value v) end)
    (mjoin (zip_with (λ k s, [Key (SStr k); Val s]) ks ss))) =
    inr (mk_map_ser (foldl (λ m kv, <[kv.1 := kv.2]> m) m (zip ks vs)) None)) as He
    by (by rewrite He).
  revert ks Hl. induction H as [|v s vs ss Hv _ IH]; intros ks Hl m; (destruct ks as [|k ks]; try done).
  cbn. rewrite Hv. cbn. apply IH. by injection Hl.
Qed.

Lemma transcode v : plain v → ∃ s, shows v s ∧ to_value s = inr v.
Proof.
  assert (∀ l, Forall (λ v, plain v → ∃ s, shows v s ∧ to_value s = inr v) l → Forall plain l →
    ∃ ss, Forall2 shows l ss ∧ Forall2 (λ v s, to_value s = inr v) l ss) as Hlist.
  { intros l HP HQ. induction l as [|x l IH]; [by exists []|].
    apply Forall_cons in HP as [HPx HP], HQ as [HQx HQ].
    destruct (HPx HQx) as (s & ? & ?). destruct (IH HP HQ) as (ss & ? & ?).
    exists (s :: ss). by split; constructor. }
  induction v as [|b|i|bits|s|b|l IH|m IH|sg l IH] using value_ind; intros Hp; [..|by inversion Hp].
  - exists SUnit. split; [by constructor|done].
  - exists (SBool b). split; [by constructor|done].
  - exists (SInt I64 i). split; [by constructor|done].
  - exists (SF64 bits). split; [by constructor|done].
  - exists (SStr s). split; [by constructor|done].
  - exists (SBytes b). split; [by constructor|done].
  - inversion Hp; subst. destruct (Hlist l IH) as (ss & Hs & Hv); [done|].
    exists (SSeq ss). split; [by eapply shows_seq|]. cbn. by rewrite (elements_ok _ l).
  - inversion Hp as [| | | | | | |? Hm]; subst.
    assert (∀ v, v ∈ (hash_iter m).*2 → ∃ k, m !! k = Some v) as Hel.
    { intros v. rewrite hash_iter_perm. intros ([k v'] & -> & Hin)%list_elem_of_fmap.
      exists k. by apply elem_of_map_to_list. }
    destruct (Hlist (hash_iter m).*2) as (ss & Hs & Hv).
    { apply Forall_forall. intros v (k & Hk)%Hel. by apply (IH k). }
    { apply Forall_forall. intros v (k & Hk)%Hel. by apply (Hm k). }
    eexists. split; [by eapply (shows_map _ (hash_iter m))|]. cbn [to_value].
    rewrite (entries_ok _ _ (hash_iter m).*2) by (done || by rewrite !length_fmap).
    cbn. rewrite zip_fst_snd, (collect_permutation _ m); [done|apply hash_iter_perm].
Qed.

(** A variant with content is read back as that variant with that content. *)
Lemma deserialize_variant variant v :
  deserialize_enum (variant_value variant v) = inr (VisitVariant [(variant, v)]).
Proof.
  unfold variant_value. cbn. rewrite decide_True by apply map_size_singleton.
  pose proof (hash_iter_perm {[variant := v]}) as Hp. rewrite map_to_list_singleton in Hp.
  by apply Permutation_singleton_r in Hp as ->.
Qed.

(** ** Properties *)

(** C39: what is serialized, exactly. [to_value] gives the value that the calls
    denote, and only then: each scalar as itself (a [u64] only below [2^63]), an
    absent or unit value as null, an option's or newtype's content as itself,
    the items of a list or tuple all and in order, a map's or struct's pairs all
    under their keys with a later one replacing an earlier one, an enum's
    content under its variant's name. So an integer out of range, a map key
    that is no string or a value before its key give an error. From calls as
    Rust's types allow them the value is well-formed, so that it packs and reads
    back. [params] gives the map that it is, or the error for any other value. *)
Theorem to_value_exact s v :
  (to_value s = inr v ↔ denotes s v) ∧
  (denotes s v → wf_ser s → wf_value v) ∧
  (denotes s v →
   params s = match v with BoltValue.Map m => inr m | other => inl (ParamsNotMap other) end).
Proof.
  split_and!.
  - apply to_value_denotes.
  - intros Hv%to_value_denotes Hs. by apply (to_value_gives_wf s).
  - intros Hv%to_value_denotes. unfold params. by rewrite Hv.
Qed.

(** C40: serde there and back. A visitor that serializes what it is shown gives
    back any value without graph structures, whatever the order of the map's
    entries; a graph structure is an error. Each kind of enum variant is
    deserialized as the variant it was serialized from, with the value of its
    content. *)
Theorem transcode_roundtrip :
  (∀ v, plain v → ∃ s, shows v s ∧ to_value s = inr v) ∧
  (∀ sg fields, deserialize_any (BoltValue.Structure sg fields) = inl (GraphStructure sg)) ∧
  (∀ variant, ∃ v, to_value (SUnitVariant variant) = inr v ∧
     deserialize_enum v = inr (VisitUnitVariant variant)) ∧
  (∀ variant s content v, content = SNewtypeVariant variant s ∧ to_value s = inr v ∨
     (∃ items, content = STupleVariant variant items ∧ to_value (STuple items) = inr v) ∨
     (∃ fields, content = SStructVariant variant fields ∧ to_value (SStruct fields) = inr v) →
     ∃ e, to_value content = inr e ∧ deserialize_enum e = inr (VisitVariant [(variant, v)])).
Proof.
  split_and!; [apply transcode|done|by eexists|].
  intros variant s content v Hc. exists (variant_value variant v).
  split; [|apply deserialize_variant].
  destruct Hc as [[-> Hv]|[(items & -> & Hv)|(fields & -> & Hv)]]; cbn [to_value] in *.
  - by rewrite Hv.
  - apply and_next_inr in Hv as (l & -> & [= <-]). done.
  - apply and_next_inr in Hv as (m & -> & [= <-]). done.
Qed.

End transcode.

(** A struct with an optional and a list field, and a [u64] in range. *)
Definition sample_struct : Ser :=
  SStruct [("name", SStr "Neo"); ("age", SU64 30); ("tags", SSeq [SStr "a"; SNone])].

Lemma to_value_exact_witness :
  let m : HashMap BoltValue :=
    <["tags" := BoltValue.List [BoltValue.String "a"; BoltValue.Null]]>
      (<["age" := BoltValue.Int 30]> (<["name" := BoltValue.String "Neo"]> ∅)) in
  denotes sample_struct (BoltValue.Map m) ∧ wf_value (BoltValue.Map m) ∧ params sample_struct = inr m.
Proof.
  intros m. destruct (to_value_exact sample_struct (BoltValue.Map m)) as (Hiff & Hwf & Hparams).
  assert (denotes sample_struct (BoltValue.Map m)) as Hd by (apply Hiff; vm_compute; reflexivity).
  split_and!; [exact Hd|apply (Hwf Hd)|exact (Hparams Hd)].
  constructor; [by repeat constructor|].
  repeat (constructor; [constructor; [|by repeat constructor]|]); try by repeat constructor.
Defined.
